(* ===== verification/_CoqProject ===== *)
-Q . S2P
Prelude.v
Clock.v
Sched.v
Ports.v
PortInv.v
KInv.v
PortWake.v
PortRef.v
PortOps.v
WaitOps.v
Timer.v
Serialize.v
SerializeOk.v
SerializeInv.v
Wire.v
Syscall.v
SyscallOk.v
Demo.v
Guarantees.v
Findings.v
Pmm.v
Chunks.v
Malloc.v
Memory.v
KLog.v
Crc.v
Lock.v
Buf.v
BufOk.v
Buffers.v
LuaHeap.v
LuaHeapInv.v
LuaHeapOk.v
Modp.v
Group.v
NativeBase.v
ChaCha.v
Poly1305.v
Sha.v
Sha512.v
Keccak.v
Aes.v
Bignum.v
Ec.v
EcLaw.v
EcOk.v
EcVerify.v
EcDemo.v
Prime25519.v
EdLaw.v
Ed25519Curve.v
F25519.v
F25519Ok.v
X25519.v
ModL.v
Ed25519.v
Ed25519Ok.v
Ed25519Rfc.v
