(* ===== verification/Prelude.v ===== *)
(** * nlos, verified

    nlos is a small operating system whose procs are lua states.  Its kernel is the C
    under src/src: procs talk through ports, a scheduler decides who runs, and a few
    allocators and native libraries serve them.  This library is a shallow embedding of
    that C in Rocq, with theorems about the embedding.

    ** The parts, and how they fit

    A proc calls the kernel through sysapi.c.  A call serializes its lua arguments
    (serialize.c) to bytes, takes or gives references to ports (port.c), and may put the
    proc to sleep on a wait list; whoever sends to the port wakes it through the scheduler
    (sched.c).  Timers (timer.c) are ports the kernel pushes to.  Large payloads travel as
    los.buf chunks (buf.c), whose memory is charged to the proc (proc.c).  Chunks come from
    malloc.c over pmm.c, and feed each lua state's own heap (luaheap.c).  The log ring of
    kernel.c, the check sums of crc.c and the cryptography of native.c stand alone.
    Everything shared between cpus is guarded by the ticket lock of lock.h.

    ** The files

    - Prelude: the result and state monads, machine integers, little-endian words, lists
      and finite maps as every component uses them.
    - Clock: timer.c's calibrated clock and wall clock.
    - Sched: sched.c, cpu.h; the state schedlock guards is the record [sched].
    - Ports: port.c over the types of kproc.h; the state is [kst], storage is finite maps
      from addresses that are never reused, the ipc buckets are counters checked by the
      code's own assertions.  PortInv (reference counts), KInv (the kernel invariant [kinv]
      and its step rules), PortWake, PortRef, PortOps and WaitOps prove each operation.
    - Timer: the timer table of timer.c over Ports.
    - Serialize: serialize.c, with the half of buf.c and proc.c that a transfer uses.
      SerializeOk is the round trip, SerializeInv that the invariant is kept, Wire the
      grammar of the bytes and what a decoded value owes to them.
    - Syscall: the ipc calls of sysapi.c (send, sendblock, tryrecv, block, call, close,
      hungup, newport, sendright, timer, alt, altpoll, anyready).  SyscallOk proves them,
      Demo is a machine to evaluate them on, Guarantees states what they promise, Findings
      evaluates them where they do not do what the code says.
    - Pmm: platform/microvm/pmm.c (and wasm/pmm.c) over byte memory.  Chunks: the chunk
      source of platform.h as a class with laws.  Malloc: platform/microvm/malloc.c, an
      instance of the class.  Memory: what the allocators guarantee.
    - KLog: the log ring of kernel.c and its readers.
    - Crc: crc.c, and the data subpackets of lib/zmodem.lua.
    - Lock: lock.h, one atomic access at a time, for any number of cpus.
    - Buf: the whole of buf.c; BufOk its invariant; Buffers what it guarantees.
    - LuaHeap: luaheap.c over any chunk source; LuaHeapInv its invariant, LuaHeapOk that
      the operations proved so far keep it.
    - NativeBase: native.c's loads and stores and the bit facts its proofs share.  ChaCha,
      Poly1305, Sha, Keccak, Aes: one primitive of native.c each, beside the definition its
      standard gives.  Bignum: the limbs and the Montgomery arithmetic.  Ec: points, P-256
      and secp256k1; Modp the integers modulo a prime, Group commutative groups and multiples, EcLaw the algebra of the curve over
      any prime field, EcOk that the code computes it, EcVerify that signatures are checked as
      they should be, EcDemo a curve of thirteen points to evaluate it on.
    - Prime25519: that 2^255 - 19 is a prime, by a certificate.  F25519: the limbs of that
      field, F25519Ok its encodings and powers.  X25519: the key exchange beside RFC 7748.
    - EdLaw: twisted Edwards curves are groups.  Ed25519Curve: the curve of RFC 8032, with the
      order of its base point.  Sha512: sha512_3.  ModL: scalars.  Ed25519: the signatures;
      Ed25519Ok its parts, Ed25519Rfc what it guarantees.

    ** How code is written here

    A C function is a Rocq function of the same name in a state monad over the state it
    touches.  What C leaves undefined, and what the code's assertions forbid, is a value of
    [fault]: a freed address, an index out of range, a null pointer, a double free, a lock
    out of order.  A theorem that an operation answers [Ok] says it does none of these.
    A lua error is a value too, [Raise], with the state as it was when it was raised.
    size_t has the width of the state ([k_szbits], [ws]): 64 bits, or 32 where a theorem
    says so.  Which allocations succeed is decided by the environment, so every theorem
    holds for every pattern of failures.

    What is outside the sources is an argument: the tick counter, what machine_cycles reads,
    lua_settable, lua_next's order (a table is its pairs in that order), the collector
    ([gc], constrained by [gc_ok]), the transport below zmodem, bytes of fresh memory.

    ** What is proved

    - Ipc: send, sendblock, tryrecv, block, close, newport and sendright terminate without a
      fault for every argument and every pattern of failing allocations, as long as no
      message is queued that leads back to the port it is queued on ([ranked]; Findings
      shows what happens otherwise).  Reference counts equal the places that hold a
      reference; no wakeup is lost.  A send queues exactly the message the serializer made
      or leaves every queue somebody can receive from alone, and a refused one gives back
      what it took.  A receive answers the value the
      bytes spell with one handle of the kind named for each right, or leaves the
      receiver's rights as they were; plain values arrive equal.  The errors lua raises
      through the serializer (a buffer given away, lua_settable) are in the statements with
      what they leave behind.  The last reference frees a port.  The timer table fires
      exactly what is due.  sole_holder, port_push_owned, port_pop and wait_reap do what
      their comments say.  What is sent has strings that leave room for a message below
      the top of the address space ([fits]): the sum in wput wraps.
      The calls call, alt, altpoll, timer, hungup and anyready are definitions to evaluate,
      without theorems of their own yet.
    - Scheduler: the queues stay well formed, the highest priority is taken, prices are
      bounded.
    - Memory: pmm.c refines a first-fit list of holes, freeing undoes allocating, malloc's
      blocks never overlap and its four counters are exact through any run of requests that
      leave a header and a cell below the top of the address space (beyond it the sum in
      malloc wraps, [malloc_wraps]), double frees abort.
    - Buffers: no los.buf call touches a byte outside a live chunk, views pin their owner,
      copies and fields are exact; a negative size ([negative_new_overruns]) and a call of
      __gc from lua ([gc_by_hand_frees_under_view]) are outside the theorem, and break it.
    - Lock: mutual exclusion, exact counters and service in ticket order, through the wrap
      of the tickets, in runs where no canlock stands still for 2^32 tickets.
    - Log and check sums: a reader gets the bytes logged or the count it lost; the table
      driven sums are the polynomial divisions; subpackets survive any cut into reads.
    - Cryptography: SHA-2, Keccak, AES, ChaCha20 and Poly1305 equal the definitions of FIPS 180-4,
      FIPS 202, FIPS 197 and RFC 8439 for every input, with the tables derived from what the
      standards say of them; the big number code refines
      the ring of integers modulo m; the point formulas are the chord-and-tangent law,
      public keys are multiples of the generator, and verification accepts exactly the
      signatures that satisfy BIP 340's and ECDSA's equations.  That the
      curve's points form a group and that its field is prime are hypotheses
      ([CurveGroup], Fermat's theorem in [curve_ok]), met by the curve of EcDemo.  The limbs
      of the field of curve 25519 never overflow, and X25519 is RFC 7748's for every input.
      Ed25519 signs as RFC 8032 does, accepts exactly the signatures that satisfy its
      equation, and accepts what it signed; nothing is assumed about this curve: that its
      field is prime, its law a group and its base point of order L is proved.
    - Findings, and theorems named in the files above, evaluate the code where it goes
      wrong.

    ** Fuel

    [port_unref_fuel] recurses through the ports of flushed messages.  Each activation
    below the first belongs to a message taken off its queue, so [port_unref] gives it one
    more than the messages queued, and [port_unref_correct] shows it is never spent.
    [serialize] and [deserialize] recurse to MAXDEPTH as the code does, and [grow_cap] has
    the 17 doublings from 1 to twice MAXMSG.  The walks of pmm.c ([insert_find],
    [alloc_scan], [meminfo_scan]) take one more than the cells of the arena, more than the
    holes it can have ([encodes_fuel]).  [unzdle_loop] takes the length of its input and
    the subpacket reader the bytes and reads it was given ([turns]).  The loops of native.c
    over a message ([chacha20_loop], [update_loop], [absorb_loop], [squeeze_loop],
    [ctr_loop]) take the bytes left, of which each turn uses at least one, and [pad_zeros]
    one more than the zeros a block can need.  Everything else
    is structural.

    ** Not modelled

    - The life of a proc (proc.c), the dispatch loop and device pumps (kernel.c), and the
      remaining calls of sysapi.c, thread.c, chan.c, dbg.c, debug.c: they drive the lua
      library, which is not in the sources.
    - The lua bindings of native.c (native_glue.c).
    - inet.c, ninep.c, the codecs (adpcm_native.c, pcm_native.c), gefs_native.c, font.c,
      dev.c and dirs.c.
    - The platform drivers, the architecture code, the C library, and the lua programs
      other than the subpackets of zmodem.lua.
    - Concurrency inside a component: apart from Lock, an operation runs as one step under
      the lock the code takes for it; the ipc model checks that the buckets its helpers
      ask for are held.  Lock takes its atomics as sequentially consistent. *)

From stdpp Require Import prelude list gmap.
From Stdlib Require Import ZArith Lia.

Declare Scope nlos_scope.
Delimit Scope nlos_scope with nlos.
Open Scope nlos_scope.

(** Facts [auto] may use without being asked: counts are never negative, and the
    like. *)
Create HintDb nlos.
Open Scope Z_scope.

(** * Faults and the kernel's effect monad

    C code that follows a freed pointer, unlinks an element a list does not
    hold, or reaches [platform_abort] has no meaning the kernel can recover
    from.  Those outcomes are the constructors of [fault]; everything the code
    itself treats as an error is an ordinary return value. *)

Inductive fault : Type :=
| UseAfterFree          (* a pointer to storage already given to free() *)
| BadUnlink             (* TAILQ_REMOVE of an element not on that list *)
| AbortNotLocked        (* an IPC_ASSERT_* or SCHED_ASSERT_LOCKED fired *)
| AbortTwoCpus          (* "proc dispatched on two cpus" *)
| NullDeref             (* a null pointer followed *)
| Deadlock              (* lock() of a ticket lock this cpu already holds *)
| LockOrder             (* an ipc bucket first taken while a higher one is held *)
| DoubleFree            (* storage given to free() twice *)
| AbortHeapMagic        (* "bad heap magic (double free or corruption)" *)
| OutOfBounds           (* a read or write past the end of an object *)
| OutOfFuel.            (* the model's recursion bound, not a C outcome *)

#[global] Instance fault_eq_dec : EqDecision fault.
Proof. solve_decision. Defined.

Inductive result (A : Type) : Type :=
| Ok (a : A)
| Err (e : fault).
Arguments Ok {A} _.
Arguments Err {A} _.

Definition rbind {A B} (m : result A) (k : A → result B) : result B :=
  match m with Ok a => k a | Err e => Err e end.

(** State-passing computations that may fault. *)
Definition ST (S A : Type) : Type := S → result (A * S).

Definition st_ret {S A} (a : A) : ST S A := λ s, Ok (a, s).
Definition st_bind {S A B} (m : ST S A) (k : A → ST S B) : ST S B :=
  λ s, match m s with Ok (a, s') => k a s' | Err e => Err e end.
Definition st_get {S} : ST S S := λ s, Ok (s, s).
Definition st_modify {S} (f : S → S) : ST S unit := λ s, Ok (tt, f s).
Definition st_fail {S A} (e : fault) : ST S A := λ _, Err e.
Definition st_when {S} (b : bool) (m : ST S unit) : ST S unit :=
  if b then m else st_ret tt.

Notation "'let!' x ':=' m 'in' k" := (st_bind m (λ x, k))
  (at level 10, x pattern, m at level 100, k at level 200) : nlos_scope.
Notation "m ';;;' k" := (st_bind m (λ _, k))
  (at level 90, right associativity) : nlos_scope.

Fixpoint st_iter {S A} (f : A → ST S unit) (l : list A) : ST S unit :=
  match l with
  | [] => st_ret tt
  | x :: l => f x ;;; st_iter f l
  end.

(** Total-correctness triples: from a state satisfying [P] the computation
    returns, without a fault, a result and state satisfying [Q]. *)
Definition triple {S A} (P : S → Prop) (m : ST S A) (Q : A → S → Prop) : Prop :=
  ∀ s, P s → ∃ a s', m s = Ok (a, s') ∧ Q a s'.

Section triples.
Context {S : Type}.

Lemma triple_ret {A} (a : A) (Q : A → S → Prop) :
  triple (Q a) (st_ret a) Q.
Proof. intros s H. by exists a, s. Qed.

Lemma triple_bind {A B} P (m : ST S A) R (k : A → ST S B) Q :
  triple P m R → (∀ a, triple (R a) (k a) Q) → triple P (st_bind m k) Q.
Proof.
  intros Hm Hk s HP. destruct (Hm s HP) as (a & s' & E & HR).
  destruct (Hk a s' HR) as (b & s'' & E' & HQ).
  exists b, s''. unfold st_bind. by rewrite E.
Qed.

Lemma triple_conseq {A} (P P' : S → Prop) (m : ST S A) (Q Q' : A → S → Prop) :
  triple P' m Q' → (∀ s, P s → P' s) → (∀ a s, Q' a s → Q a s) → triple P m Q.
Proof.
  intros Hm HP HQ s Hs. destruct (Hm s (HP s Hs)) as (a & s' & E & H).
  exists a, s'. eauto.
Qed.

Lemma triple_get (P : S → Prop) : triple P st_get (λ a s, a = s ∧ P s).
Proof. intros s H. exists s, s. auto. Qed.

Lemma triple_modify (f : S → S) (Q : unit → S → Prop) :
  triple (λ s, Q tt (f s)) (st_modify f) Q.
Proof. intros s H. exists tt, (f s). auto. Qed.

Lemma triple_iter {A} (I : list A → S → Prop) (f : A → ST S unit) l :
  (∀ x l', triple (I (x :: l')) (f x) (λ _, I l')) →
  triple (I l) (st_iter f l) (λ _, I []).
Proof.
  intros Hf. induction l as [|x l IH]; simpl.
  - apply (triple_ret tt (λ _, I [])).
  - eapply triple_bind; [apply Hf|]. intros []. apply IH.
Qed.

Lemma st_bind_ok {A B} (m : ST S A) (k : A → ST S B) s b s'' :
  st_bind m k s = Ok (b, s'') ↔ ∃ a s', m s = Ok (a, s') ∧ k a s' = Ok (b, s'').
Proof.
  unfold st_bind. destruct (m s) as [[a s']|e]; split.
  - intros E. by exists a, s'.
  - intros (? & ? & [= <- <-] & E). done.
  - done.
  - by intros (? & ? & ? & ?).
Qed.
End triples.

(** * Machine integers

    A [w]-bit unsigned value is a [Z] in [[0, 2^w)]; arithmetic that C performs
    modulo [2^w] is written out with [wrap]. *)

Definition wrap (w z : Z) : Z := z mod 2 ^ w.
Definition u8 := wrap 8.
Definition u16 := wrap 16.
Definition u32 := wrap 32.
Definition u64 := wrap 64.

(** Conversion to a [w]-bit two's complement value, as gcc and clang define an
    out-of-range conversion. *)
Definition sint (w z : Z) : Z :=
  let u := wrap w z in if u <? 2 ^ (w - 1) then u else u - 2 ^ w.

Lemma wrap_range w z : 0 <= w → 0 <= wrap w z < 2 ^ w.
Proof. intros. apply Z.mod_pos_bound. by apply Z.pow_pos_nonneg. Qed.

Lemma wrap_small w z : 0 <= z < 2 ^ w → wrap w z = z.
Proof. apply Z.mod_small. Qed.

Lemma sint_small w z : 0 < w → 0 <= z < 2 ^ (w - 1) → sint w z = z.
Proof.
  intros Hw Hz. unfold sint.
  assert (2 ^ w = 2 * 2 ^ (w - 1)) as E.
  { rewrite <-Z.pow_succ_r by lia. f_equal. lia. }
  rewrite wrap_small by lia. destruct (Z.ltb_spec z (2 ^ (w - 1))); lia.
Qed.

(** * Bytes and little-endian encoding, as memcpy of an integer lays it out *)

Definition byte_ok (b : Z) : Prop := 0 <= b < 256.
Abbreviation bytes_ok := (Forall byte_ok).

Fixpoint le_bytes (n : nat) (z : Z) : list Z :=
  match n with
  | O => []
  | S n => z mod 256 :: le_bytes n (z / 256)
  end.

Fixpoint le_val (l : list Z) : Z :=
  match l with
  | [] => 0
  | b :: l => b + 256 * le_val l
  end.

Lemma le_bytes_length n z : length (le_bytes n z) = n.
Proof. revert z. induction n as [|n IH]; intros z; simpl; [done|]. by rewrite IH. Qed.

Lemma le_bytes_ok n z : bytes_ok (le_bytes n z).
Proof.
  revert z. induction n as [|n IH]; intros z; simpl; constructor; [|apply IH].
  apply Z.mod_pos_bound. lia.
Qed.

Lemma le_val_bytes n z : le_val (le_bytes n z) = z mod 256 ^ Z.of_nat n.
Proof.
  revert z. induction n as [|n IH]; intros z.
  { simpl. by rewrite Z.mod_1_r. }
  cbn [le_bytes le_val]. rewrite IH, Nat2Z.inj_succ, Z.pow_succ_r by lia.
  rewrite Z.rem_mul_r; lia.
Qed.

Lemma le_val_bytes_small n z :
  0 <= z < 256 ^ Z.of_nat n → le_val (le_bytes n z) = z.
Proof. intros. rewrite le_val_bytes. by apply Z.mod_small. Qed.

Lemma le_val_range l : bytes_ok l → 0 <= le_val l < 256 ^ Z.of_nat (length l).
Proof.
  induction 1 as [|b l Hb _ IH]; [cbn; lia|].
  cbn [le_val length]. rewrite Nat2Z.inj_succ, Z.pow_succ_r by lia.
  unfold byte_ok in Hb. lia.
Qed.

Lemma le_bytes_val l : bytes_ok l → le_bytes (length l) (le_val l) = l.
Proof.
  induction 1 as [|b l Hb Hl IH]; [done|].
  cbn [le_val length le_bytes]. unfold byte_ok in Hb.
  rewrite (Z.mul_comm 256), Z.mod_add, Z.mod_small by lia.
  rewrite Z.div_add, (Z.div_small b) by lia. f_equal. exact IH.
Qed.

Lemma le_bytes_mod n : ∀ m z, (n <= m)%nat → le_bytes n (z mod 256 ^ Z.of_nat m) = le_bytes n z.
Proof.
  induction n as [|n IH]; intros m z Hm; [done|]. destruct m as [|m]; [lia|]. cbn [le_bytes].
  rewrite Nat2Z.inj_succ, Z.pow_succ_r by lia. rewrite Z.rem_mul_r by lia.
  rewrite (Z.mul_comm 256), Z.mod_add, Z.mod_mod by lia. f_equal.
  rewrite Z.div_add, Z.div_small, Z.add_0_l by (lia || (apply Z.mod_pos_bound; lia)). apply IH. lia.
Qed.

Lemma le_val_app a b : le_val (a ++ b) = le_val a + 256 ^ Z.of_nat (length a) * le_val b.
Proof.
  induction a as [|x a IH]; [cbn [app le_val length]; lia|].
  cbn [app le_val length]. rewrite IH, Nat2Z.inj_succ, Z.pow_succ_r by lia. ring.
Qed.

Lemma le_bytes_app n m z : le_bytes (n + m) z = le_bytes n z ++ le_bytes m (z / 256 ^ Z.of_nat n).
Proof.
  revert z. induction n as [|n IH]; intros z; [by rewrite Z.div_1_r|].
  cbn [Nat.add le_bytes app]. by rewrite IH, Nat2Z.inj_succ, Z.pow_succ_r, Z.div_div by lia.
Qed.

(** * Lists *)

Lemma elem_of_insert_inv {A} (l : list A) i x y : x ∈ <[i:=y]> l → x = y ∨ x ∈ l.
Proof.
  intros (j & Hj)%list_elem_of_lookup. destruct (decide (i = j)) as [->|Hne].
  - apply list_lookup_insert_Some in Hj as [(_ & -> & _)|(Hn & _)]; [by left|done].
  - rewrite list_lookup_insert_ne in Hj by done. right.
    by apply list_elem_of_lookup_2 in Hj.
Qed.

(** * Sums over lists and finite maps *)

Definition zsum {A} (f : A → Z) (l : list A) : Z := foldr (λ a z, f a + z) 0 l.
#[global] Arguments zsum : simpl never.

Section zsum.
Context {A : Type}.
Implicit Types (f : A → Z) (l : list A).

Lemma zsum_app f l1 l2 : zsum f (l1 ++ l2) = zsum f l1 + zsum f l2.
Proof. unfold zsum. induction l1 as [|a l1 IH]; simpl; lia. Qed.

Lemma zsum_cons f a l : zsum f (a :: l) = f a + zsum f l.
Proof. done. Qed.

Lemma zsum_nonneg f l : (∀ a, a ∈ l → 0 <= f a) → 0 <= zsum f l.
Proof.
  induction l as [|a l IH]; intros H; [done|]. rewrite zsum_cons.
  pose proof (H a ltac:(left)). assert (0 <= zsum f l); [|lia].
  apply IH. intros. apply H. by right.
Qed.

Lemma zsum_ext f g l : (∀ a, a ∈ l → f a = g a) → zsum f l = zsum g l.
Proof.
  induction l as [|a l IH]; intros H; [done|].
  rewrite !zsum_cons, IH, (H a); [done|left|]. intros. apply H. by right.
Qed.

Lemma zsum_zero f l : (∀ a, a ∈ l → f a = 0) → zsum f l = 0.
Proof.
  intros H. rewrite (zsum_ext f (λ _, 0)) by done.
  clear H. induction l as [|a l IH]; [done|]. by rewrite zsum_cons.
Qed.

Lemma zsum_insert f l i a b :
  l !! i = Some a → zsum f (<[i:=b]> l) = zsum f l - f a + f b.
Proof.
  revert i. induction l as [|c l IH]; intros [|i] H; simplify_eq/=.
  - rewrite !zsum_cons. lia.
  - rewrite !zsum_cons, (IH _ H). lia.
Qed.

Lemma zsum_elem_le f l a :
  (∀ x, x ∈ l → 0 <= f x) → a ∈ l → f a <= zsum f l.
Proof.
  induction l as [|b l IH]; intros Hf Hin; [by apply elem_of_nil in Hin|].
  rewrite zsum_cons. apply elem_of_cons in Hin as [->|Hin].
  - assert (0 <= zsum f l); [|lia]. apply zsum_nonneg. intros; apply Hf; by right.
  - pose proof (Hf b ltac:(left)). assert (f a <= zsum f l); [|lia].
    apply IH; [|done]. intros; apply Hf; by right.
Qed.

Lemma zsum_mono f g l : (∀ a, a ∈ l → f a <= g a) → zsum f l <= zsum g l.
Proof.
  induction l as [|a l IH]; intros H; [done|]. rewrite !zsum_cons.
  pose proof (H a ltac:(left)). assert (zsum f l <= zsum g l); [|lia].
  apply IH. intros. apply H. by right.
Qed.
End zsum.

Definition msum `{Countable K} {A} (f : K → A → Z) (m : gmap K A) : Z :=
  map_fold (λ k a z, f k a + z) 0 m.

Section msum.
Context `{Countable K} {A : Type}.
Implicit Types (f : K → A → Z) (m : gmap K A).

Lemma msum_empty f : msum f ∅ = 0.
Proof. apply map_fold_empty. Qed.

Lemma msum_insert_None f m k a :
  m !! k = None → msum f (<[k:=a]> m) = f k a + msum f m.
Proof.
  intros E. unfold msum. rewrite map_fold_insert_L; [done| |done].
  intros; lia.
Qed.

Lemma msum_delete f m k a :
  m !! k = Some a → msum f (delete k m) = msum f m - f k a.
Proof.
  intros E. rewrite <-(insert_delete_id m k a E) at 2.
  rewrite msum_insert_None by apply lookup_delete_eq. lia.
Qed.

Lemma msum_insert_Some f m k a b :
  m !! k = Some a → msum f (<[k:=b]> m) = msum f m - f k a + f k b.
Proof.
  intros E. rewrite <-insert_delete_eq, msum_insert_None by apply lookup_delete_eq.
  rewrite (msum_delete _ _ _ _ E). lia.
Qed.

Lemma msum_nonneg f m : (∀ k a, m !! k = Some a → 0 <= f k a) → 0 <= msum f m.
Proof.
  induction m as [|k a m E IH] using map_ind; intros Hf.
  { by rewrite msum_empty. }
  rewrite msum_insert_None by done.
  pose proof (Hf k a (lookup_insert_eq _ _ _)).
  assert (0 <= msum f m); [|lia]. apply IH. intros k' a' E'.
  apply Hf. rewrite lookup_insert_ne; [done|]. intros ->. congruence.
Qed.

Lemma msum_mono f g m :
  (∀ k a, m !! k = Some a → f k a <= g k a) → msum f m <= msum g m.
Proof.
  induction m as [|k a m E IH] using map_ind; intros Hf.
  { by rewrite !msum_empty. }
  rewrite !msum_insert_None by done. pose proof (Hf k a (lookup_insert_eq _ _ _)).
  assert (msum f m <= msum g m); [|lia]. apply IH. intros k' a' E'.
  apply Hf. rewrite lookup_insert_ne; [done|]. intros ->. congruence.
Qed.

Lemma msum_ext f g m :
  (∀ k a, m !! k = Some a → f k a = g k a) → msum f m = msum g m.
Proof.
  induction m as [|k a m E IH] using map_ind; intros Hf.
  { by rewrite !msum_empty. }
  rewrite !msum_insert_None by done.
  rewrite (Hf k a (lookup_insert_eq _ _ _)), IH; [done|]. intros k' a' E'.
  apply Hf. rewrite lookup_insert_ne; [done|]. intros ->. congruence.
Qed.

Lemma msum_zero f m : (∀ k a, m !! k = Some a → f k a = 0) → msum f m = 0.
Proof.
  intros Hz. rewrite (msum_ext f (λ _ _, 0)) by done.
  clear Hz. induction m as [|k a m E IH] using map_ind; [by rewrite msum_empty|].
  by rewrite msum_insert_None.
Qed.

Lemma msum_elem_le f m k a :
  (∀ k a, m !! k = Some a → 0 <= f k a) → m !! k = Some a → f k a <= msum f m.
Proof.
  intros Hf E. rewrite <-(insert_delete_id m k a E).
  rewrite msum_insert_None by apply lookup_delete_eq.
  assert (0 <= msum f (delete k m)); [|lia]. apply msum_nonneg.
  intros k' a' E'. apply Hf. by apply lookup_delete_Some in E' as [_ ?].
Qed.
End msum.

#[global] Opaque msum.
