(* ===== verification/Clock.v ===== *)
(** The calibrated clock of src/src/timer.c: [kernel_clock_init], [uptime_ms]
    and the wall clock.  [platform_ticks] and the firmware's [Stall] are outside
    the sources; every definition takes the counter value it would have read. *)

From S2P Require Import Prelude.
From stdpp Require Import prelude.
From Stdlib Require Import ZArith Lia.
Open Scope Z_scope.

Definition UART_DRAIN_MS : Z := 1.

(** timer.c's file-scope variables. *)
Record clock : Type := mkClock {
  cyc_per_ms : Z;
  boot_tsc : Z;
  clock_ready : bool;
  quantum_cycles : Z;
  uart_drain_cycles : Z;
  wall_base_s : Z
}.

(** Before [kernel_clock_init]: the static initialisers. *)
Definition clock_boot : clock := mkClock 0 0 false 0 1 (-1).

(** [quantum_ms] is the platform's QUANTUM_MS; [t0] and [t1] are the two
    [platform_ticks] readings around the 100ms stall. *)
Definition kernel_clock_init (quantum_ms t0 t1 : Z) (c : clock) : clock :=
  let dt := u64 (t1 - t0) in
  let cyc := dt / 100 in
  let cyc := if cyc =? 0 then 1 else cyc in
  let drain := u64 (cyc * UART_DRAIN_MS) / 4 in
  let drain := if drain =? 0 then 1 else drain in
  mkClock cyc t0 true (u64 (cyc * quantum_ms)) drain (wall_base_s c).

Definition kernel_cyc_per_ms (c : clock) : Z := cyc_per_ms c.

Definition uptime_ms (c : clock) (ticks : Z) : Z :=
  if negb (clock_ready c) then 0
  else u64 (ticks - boot_tsc c) / cyc_per_ms c.

Definition kernel_walltime (c : clock) (ticks : Z) : Z :=
  let up := Z.quot (sint 64 (uptime_ms c ticks)) 1000 in
  let base := wall_base_s c in
  if base <? 0 then 0 else base + up.

Definition kernel_settime (unix_s ticks : Z) (c : clock) : clock :=
  mkClock (cyc_per_ms c) (boot_tsc c) (clock_ready c) (quantum_cycles c)
    (uart_drain_cycles c) (unix_s - uptime_ms c ticks / 1000).

(** A clock that has been calibrated, and the counter readings the 64-bit
    counter comment of timer.c allows: it does not wrap in any run. *)
Definition clock_ok (c : clock) : Prop :=
  clock_ready c = true ∧ 1 <= cyc_per_ms c ∧ 0 <= boot_tsc c < 2 ^ 64.

Lemma kernel_clock_init_ok q t0 t1 c :
  0 <= t0 < 2 ^ 64 → clock_ok (kernel_clock_init q t0 t1 c).
Proof.
  intros Ht. unfold clock_ok, kernel_clock_init; simpl.
  pose proof (wrap_range 64 (t1 - t0) ltac:(lia)) as Hr.
  assert (0 <= u64 (t1 - t0) / 100) by (apply Z.div_pos; unfold u64; lia).
  destruct (Z.eqb_spec (u64 (t1 - t0) / 100) 0); repeat split; lia.
Qed.

Lemma uptime_ms_eq c t :
  clock_ok c → boot_tsc c <= t < 2 ^ 64 →
  uptime_ms c t = (t - boot_tsc c) / cyc_per_ms c.
Proof.
  intros (Hr & _ & Hb) Ht. unfold uptime_ms. rewrite Hr. simpl.
  unfold u64. rewrite wrap_small; [done|lia].
Qed.

Lemma uptime_ms_range c t :
  clock_ok c → boot_tsc c <= t < 2 ^ 64 → 0 <= uptime_ms c t < 2 ^ 64.
Proof.
  intros Hc Ht. rewrite uptime_ms_eq by done. destruct Hc as (_ & Hp & Hb).
  split; [apply Z.div_pos; lia|].
  apply Z.le_lt_trans with (t - boot_tsc c); [|lia].
  apply Z.div_le_upper_bound; [lia|]. nia.
Qed.

Lemma uptime_ms_mono c t t' :
  clock_ok c → boot_tsc c <= t → t <= t' < 2 ^ 64 →
  uptime_ms c t <= uptime_ms c t'.
Proof.
  intros Hc Hb Ht. rewrite !uptime_ms_eq by (done || lia).
  apply Z.div_le_mono; [destruct Hc; lia|lia].
Qed.

(** Setting the wall clock and reading it back gives the value set, plus the
    whole seconds of uptime in between; a value before the machine booted
    (less than the uptime in seconds) is the one case that does not read back,
    because a negative base means "never set". *)
Lemma walltime_settime c s t t' :
  clock_ok c → boot_tsc c <= t → t <= t' < 2 ^ 64 →
  uptime_ms c t' < 2 ^ 63 → uptime_ms c t / 1000 <= s →
  kernel_walltime (kernel_settime s t c) t' =
    s + (uptime_ms c t' / 1000 - uptime_ms c t / 1000).
Proof.
  intros Hc Hb Ht Hlt Hs. unfold kernel_walltime.
  change (uptime_ms (kernel_settime s t c) t') with (uptime_ms c t').
  change (wall_base_s (kernel_settime s t c)) with (s - uptime_ms c t / 1000).
  pose proof (uptime_ms_range c t' Hc ltac:(lia)).
  rewrite sint_small by (change (64 - 1) with 63; lia).
  rewrite Z.quot_div_nonneg by lia.
  destruct (Z.ltb_spec (s - uptime_ms c t / 1000) 0); lia.
Qed.

(** A time earlier than the uptime is taken, and then reads as if none was ever set. *)
Theorem settime_early_unset c s t t' :
  s < uptime_ms c t / 1000 → kernel_walltime (kernel_settime s t c) t' = 0.
Proof.
  intros Hs. unfold kernel_walltime, kernel_settime. cbn [wall_base_s].
  destruct (Z.ltb_spec (s - uptime_ms c t / 1000) 0); lia.
Qed.
