(* ===== verification/Sched.v ===== *)
(** The run queues and what decides who runs: src/src/sched.c over the records
    of src/src/cpu.h, and the scheduling fields of struct kproc.

    One [sched] value is everything schedlock guards: the two queue sets, each
    cpu's current and idle marks, and the scheduling fields of every proc, keyed
    by proc slot.  Procs are recycled in place and never freed, so a proc pointer
    is its slot.  The cycle counter is outside the sources; [ticks] is what it
    reads during the step. *)

From S2P Require Import Prelude Clock.
From stdpp Require Import prelude list gmap.
From Stdlib Require Import ZArith Lia Sorted.
Open Scope Z_scope.

(** * Data *)

Definition SCHED_DECAY_MS : Z := 500.
Definition MAXWEIGHT : Z := 16.
Definition PRI_BASE : Z := 10.
Definition NRQ : Z := 16.

(** kproc.h's proc states. *)
Inductive pstatus : Type := DEAD | READY | BLOCKED | BROKE | HATCHING | STOPPED.

#[global] Instance pstatus_eq_dec : EqDecision pstatus.
Proof. solve_decision. Defined.

(** debug.h's stop reasons, and the part of struct kdbg [make_ready] touches. *)
Definition DBG_REQ : Z := 1.

Record kdbg : Type := mkKdbg {
  d_stopreq : bool;
  d_reason : Z;
  d_notify : Z
}.

Definition set_d_stopreq (v : bool) (r : kdbg) : kdbg :=
  mkKdbg v (d_reason r) (d_notify r).
Definition set_d_reason (v : Z) (r : kdbg) : kdbg :=
  mkKdbg (d_stopreq r) v (d_notify r).
Definition set_d_notify (v : Z) (r : kdbg) : kdbg :=
  mkKdbg (d_stopreq r) (d_reason r) v.

(** One dispatch set.  [q] has NRQ buckets; each is a TAILQ of procs, first
    element first. *)
Record rqset : Type := mkRqset {
  rq_q : list (list nat);
  rq_mask : Z;
  rq_n : Z
}.

Definition set_rq_q (v : list (list nat)) (r : rqset) : rqset :=
  mkRqset v (rq_mask r) (rq_n r).
Definition set_rq_mask (v : Z) (r : rqset) : rqset :=
  mkRqset (rq_q r) v (rq_n r).
Definition set_rq_n (v : Z) (r : rqset) : rqset :=
  mkRqset (rq_q r) (rq_mask r) v.

(** The scheduling fields of struct kproc.  [onq] names schedq[0] or schedq[1]
    by its index as a boolean; [oncpu] is a cpu index plus one, or zero. *)
Record sproc : Type := mkSproc {
  sp_status : pstatus;
  sp_onq : option bool;
  sp_oncpu : Z;
  sp_frozen : Z;
  sp_weight : Z;
  sp_pri : Z;
  sp_cpu : Z;
  sp_cputime : Z;
  sp_lastupdate : Z;
  sp_lastcpu : Z;
  sp_dbg : option kdbg
}.

Definition set_sp_status (v : pstatus) (r : sproc) : sproc :=
  mkSproc v (sp_onq r) (sp_oncpu r) (sp_frozen r) (sp_weight r) (sp_pri r) (sp_cpu r) (sp_cputime r) (sp_lastupdate r) (sp_lastcpu r) (sp_dbg r).
Definition set_sp_onq (v : option bool) (r : sproc) : sproc :=
  mkSproc (sp_status r) v (sp_oncpu r) (sp_frozen r) (sp_weight r) (sp_pri r) (sp_cpu r) (sp_cputime r) (sp_lastupdate r) (sp_lastcpu r) (sp_dbg r).
Definition set_sp_oncpu (v : Z) (r : sproc) : sproc :=
  mkSproc (sp_status r) (sp_onq r) v (sp_frozen r) (sp_weight r) (sp_pri r) (sp_cpu r) (sp_cputime r) (sp_lastupdate r) (sp_lastcpu r) (sp_dbg r).
Definition set_sp_frozen (v : Z) (r : sproc) : sproc :=
  mkSproc (sp_status r) (sp_onq r) (sp_oncpu r) v (sp_weight r) (sp_pri r) (sp_cpu r) (sp_cputime r) (sp_lastupdate r) (sp_lastcpu r) (sp_dbg r).
Definition set_sp_weight (v : Z) (r : sproc) : sproc :=
  mkSproc (sp_status r) (sp_onq r) (sp_oncpu r) (sp_frozen r) v (sp_pri r) (sp_cpu r) (sp_cputime r) (sp_lastupdate r) (sp_lastcpu r) (sp_dbg r).
Definition set_sp_pri (v : Z) (r : sproc) : sproc :=
  mkSproc (sp_status r) (sp_onq r) (sp_oncpu r) (sp_frozen r) (sp_weight r) v (sp_cpu r) (sp_cputime r) (sp_lastupdate r) (sp_lastcpu r) (sp_dbg r).
Definition set_sp_cpu (v : Z) (r : sproc) : sproc :=
  mkSproc (sp_status r) (sp_onq r) (sp_oncpu r) (sp_frozen r) (sp_weight r) (sp_pri r) v (sp_cputime r) (sp_lastupdate r) (sp_lastcpu r) (sp_dbg r).
Definition set_sp_cputime (v : Z) (r : sproc) : sproc :=
  mkSproc (sp_status r) (sp_onq r) (sp_oncpu r) (sp_frozen r) (sp_weight r) (sp_pri r) (sp_cpu r) v (sp_lastupdate r) (sp_lastcpu r) (sp_dbg r).
Definition set_sp_lastupdate (v : Z) (r : sproc) : sproc :=
  mkSproc (sp_status r) (sp_onq r) (sp_oncpu r) (sp_frozen r) (sp_weight r) (sp_pri r) (sp_cpu r) (sp_cputime r) v (sp_lastcpu r) (sp_dbg r).
Definition set_sp_lastcpu (v : Z) (r : sproc) : sproc :=
  mkSproc (sp_status r) (sp_onq r) (sp_oncpu r) (sp_frozen r) (sp_weight r) (sp_pri r) (sp_cpu r) (sp_cputime r) (sp_lastupdate r) v (sp_dbg r).
Definition set_sp_dbg (v : option kdbg) (r : sproc) : sproc :=
  mkSproc (sp_status r) (sp_onq r) (sp_oncpu r) (sp_frozen r) (sp_weight r) (sp_pri r) (sp_cpu r) (sp_cputime r) (sp_lastupdate r) (sp_lastcpu r) v.

(** The part of struct cpu the queues' decisions read. *)
Record scpu : Type := mkScpu {
  c_current : option nat;
  c_idle : bool
}.

Definition set_c_current (v : option nat) (r : scpu) : scpu :=
  mkScpu v (c_idle r).
Definition set_c_idle (v : bool) (r : scpu) : scpu :=
  mkScpu (c_current r) v.

(** [wakes] records the cpus [platform_wake_cpu] was asked to interrupt, newest
    first; [self] is the index of the cpu running this step. *)
Record sched : Type := mkSched {
  s_procs : gmap nat sproc;
  s_q0 : rqset;
  s_q1 : rqset;
  s_runq : bool;
  s_donq : bool;
  s_cpus : list scpu;
  s_self : nat;
  s_held : bool;
  s_clock : clock;
  s_ticks : Z;
  s_wakes : list nat
}.

Definition set_s_procs (v : gmap nat sproc) (r : sched) : sched :=
  mkSched v (s_q0 r) (s_q1 r) (s_runq r) (s_donq r) (s_cpus r) (s_self r) (s_held r) (s_clock r) (s_ticks r) (s_wakes r).
Definition set_s_q0 (v : rqset) (r : sched) : sched :=
  mkSched (s_procs r) v (s_q1 r) (s_runq r) (s_donq r) (s_cpus r) (s_self r) (s_held r) (s_clock r) (s_ticks r) (s_wakes r).
Definition set_s_q1 (v : rqset) (r : sched) : sched :=
  mkSched (s_procs r) (s_q0 r) v (s_runq r) (s_donq r) (s_cpus r) (s_self r) (s_held r) (s_clock r) (s_ticks r) (s_wakes r).
Definition set_s_runq (v : bool) (r : sched) : sched :=
  mkSched (s_procs r) (s_q0 r) (s_q1 r) v (s_donq r) (s_cpus r) (s_self r) (s_held r) (s_clock r) (s_ticks r) (s_wakes r).
Definition set_s_donq (v : bool) (r : sched) : sched :=
  mkSched (s_procs r) (s_q0 r) (s_q1 r) (s_runq r) v (s_cpus r) (s_self r) (s_held r) (s_clock r) (s_ticks r) (s_wakes r).
Definition set_s_cpus (v : list scpu) (r : sched) : sched :=
  mkSched (s_procs r) (s_q0 r) (s_q1 r) (s_runq r) (s_donq r) v (s_self r) (s_held r) (s_clock r) (s_ticks r) (s_wakes r).
Definition set_s_self (v : nat) (r : sched) : sched :=
  mkSched (s_procs r) (s_q0 r) (s_q1 r) (s_runq r) (s_donq r) (s_cpus r) v (s_held r) (s_clock r) (s_ticks r) (s_wakes r).
Definition set_s_held (v : bool) (r : sched) : sched :=
  mkSched (s_procs r) (s_q0 r) (s_q1 r) (s_runq r) (s_donq r) (s_cpus r) (s_self r) v (s_clock r) (s_ticks r) (s_wakes r).
Definition set_s_clock (v : clock) (r : sched) : sched :=
  mkSched (s_procs r) (s_q0 r) (s_q1 r) (s_runq r) (s_donq r) (s_cpus r) (s_self r) (s_held r) v (s_ticks r) (s_wakes r).
Definition set_s_ticks (v : Z) (r : sched) : sched :=
  mkSched (s_procs r) (s_q0 r) (s_q1 r) (s_runq r) (s_donq r) (s_cpus r) (s_self r) (s_held r) (s_clock r) v (s_wakes r).
Definition set_s_wakes (v : list nat) (r : sched) : sched :=
  mkSched (s_procs r) (s_q0 r) (s_q1 r) (s_runq r) (s_donq r) (s_cpus r) (s_self r) (s_held r) (s_clock r) (s_ticks r) v.

Abbreviation SM := (ST sched).

Definition get_set (s : bool) (σ : sched) : rqset := if s then s_q1 σ else s_q0 σ.
Definition put_set (s : bool) (r : rqset) (σ : sched) : sched :=
  if s then set_s_q1 r σ else set_s_q0 r σ.
Definition put_proc (p : nat) (sp : sproc) (σ : sched) : sched :=
  set_s_procs (<[p:=sp]> (s_procs σ)) σ.

(** Following a proc pointer. *)
Definition proc (p : nat) : SM sproc := λ σ,
  match s_procs σ !! p with Some sp => Ok (sp, σ) | None => Err NullDeref end.

(** lock(&schedlock) and unlock(&schedlock): a second lock() on the cpu that
    holds the ticket spins for ever. *)
Definition sched_lock : SM unit := λ σ,
  if s_held σ then Err Deadlock else Ok (tt, set_s_held true σ).
Definition sched_unlock : SM unit := st_modify (set_s_held false).
Definition SCHED_ASSERT_LOCKED : SM unit := λ σ,
  if s_held σ then Ok (tt, σ) else Err AbortNotLocked.

(** * Freezing *)

Definition proc_running (sp : sproc) : bool := negb (sp_oncpu sp =? 0).

Definition proc_freeze (p : nat) : SM bool :=
  sched_lock ;;;
  let! sp := proc p in
  st_modify (put_proc p (set_sp_frozen (sp_frozen sp + 1) sp)) ;;;
  sched_unlock ;;;
  st_ret (proc_running sp).

Definition proc_thaw (p : nat) : SM unit :=
  sched_lock ;;;
  let! sp := proc p in
  st_when (0 <? sp_frozen sp)
    (st_modify (put_proc p (set_sp_frozen (sp_frozen sp - 1) sp))) ;;;
  sched_unlock.

Definition proc_still_running (p : nat) : SM bool :=
  sched_lock ;;;
  let! sp := proc p in
  sched_unlock ;;;
  st_ret (proc_running sp).

(** * Priority *)

(** [now] is uptime_ms(), [cyc] kernel_cyc_per_ms().  Every operation is
    unsigned long long except the two conversions to unsigned. *)
Definition updatecpu (now cyc : Z) (sp : sproc) : sproc :=
  let n := u64 (now - sp_lastupdate sp) in
  if n <? 10 then sp else
  let cput := sp_cputime sp in
  let used := u64 (cput - sp_lastcpu sp) in
  let window := if SCHED_DECAY_MS <? n then SCHED_DECAY_MS else n in
  let denom := u64 (n * (if cyc =? 0 then 1 else cyc)) in
  let frac := if denom =? 0 then 0 else u32 (u64 (used * 1000) / denom) in
  let frac := if 1000 <? frac then 1000 else frac in
  let cpu := u32 ((sp_cpu sp * (SCHED_DECAY_MS - window) + frac * window)
                  / SCHED_DECAY_MS) in
  set_sp_lastcpu cput (set_sp_lastupdate now (set_sp_cpu cpu sp)).

(** The priority itself, from the decayed share [cpu] and the weight. *)
Definition fair_pri (cpu weight nrunnable : Z) : Z :=
  let nrunnable := if nrunnable <=? 0 then 1 else nrunnable in
  let fair := 1000 / nrunnable in
  let n := if cpu =? 0 then 1 else cpu in
  let cap := u32 (weight * PRI_BASE) in
  let r := fair * cap / n in
  if cap <? r then cap else r.

Definition reprioritize (now cyc : Z) (sp : sproc) (nrunnable : Z) : Z * sproc :=
  let sp := updatecpu now cyc sp in
  (fair_pri (sp_cpu sp) (sp_weight sp) nrunnable, sp).

(** * The queues *)

Definition rqset_empty : rqset := mkRqset (replicate (Z.to_nat NRQ) []) 0 0.

Definition rq_init (σ : sched) : sched :=
  set_s_donq true (set_s_runq false (set_s_q1 rqset_empty (set_s_q0 rqset_empty σ))).

Definition rq_bucket (pri : Z) : Z :=
  let top := MAXWEIGHT * PRI_BASE in
  let pri := if pri <? 0 then 0 else pri in
  let pri := if top <? pri then top else pri in
  pri * (NRQ - 1) / top.

Definition bucket (r : rqset) (b : Z) : list nat :=
  default [] (rq_q r !! Z.to_nat b).
Definition put_bucket (b : Z) (l : list nat) (r : rqset) : rqset :=
  set_rq_q (<[Z.to_nat b := l]> (rq_q r)) r.

Definition bit (b : Z) : Z := u32 (Z.shiftl 1 b).

Definition rq_add (s : bool) (p : nat) : SM unit :=
  let! sp := proc p in
  let b := rq_bucket (sp_pri sp) in
  SCHED_ASSERT_LOCKED ;;;
  let! σ := st_get in
  let r := get_set s σ in
  let r := put_bucket b (bucket r b ++ [p]) r in
  let r := set_rq_mask (Z.lor (rq_mask r) (bit b)) r in
  let r := set_rq_n (rq_n r + 1) r in
  st_modify (put_set s r) ;;;
  st_modify (put_proc p (set_sp_onq (Some s) sp)).

(** TAILQ_REMOVE follows the element's own links, so an element that is not on
    the list it is removed from corrupts both. *)
Definition tailq_remove (p : nat) (l : list nat) : SM (list nat) := λ σ,
  if decide (p ∈ l) then Ok (filter (λ x, x ≠ p) l, σ) else Err BadUnlink.

Definition rq_del (p : nat) : SM unit :=
  let! sp := proc p in
  SCHED_ASSERT_LOCKED ;;;
  match sp_onq sp with
  | None => st_ret tt
  | Some s =>
      let b := rq_bucket (sp_pri sp) in
      let! σ := st_get in
      let r := get_set s σ in
      let! l := tailq_remove p (bucket r b) in
      let r := put_bucket b l r in
      let r := match l with
               | [] => set_rq_mask (Z.land (rq_mask r) (u32 (Z.lnot (bit b)))) r
               | _ => r
               end in
      let r := set_rq_n (rq_n r - 1) r in
      st_modify (put_set s r) ;;;
      st_modify (put_proc p (set_sp_onq None sp))
  end.

(** The two loops over the mask.  [bs] lists the buckets in the order the loop
    visits them. *)
Fixpoint rq_take (bs : list Z) (s : bool) : SM (option nat) :=
  match bs with
  | [] => st_ret None
  | b :: bs =>
      let! σ := st_get in
      let r := get_set s σ in
      if negb (Z.land (rq_mask r) (bit b) =? 0) then
        match bucket r b with
        | [] => st_fail NullDeref
        | p :: _ => rq_del p ;;; st_ret (Some p)
        end
      else rq_take bs s
  end.

Definition buckets_up : list Z := [0;1;2;3;4;5;6;7;8;9;10;11;12;13;14;15].

Definition rq_take_high (s : bool) : SM (option nat) := rq_take (rev buckets_up) s.
Definition rq_take_any (s : bool) : SM (option nat) := rq_take buckets_up s.

(** * Blocking and waking *)

(** The IPC_ASSERT_ANY of proc_block and make_ready belongs to the callers'
    lock state and is checked where they are called, in Ports.v. *)
Definition proc_block (p : nat) : SM unit :=
  sched_lock ;;;
  let! sp := proc p in
  st_modify (put_proc p (set_sp_status BLOCKED sp)) ;;;
  rq_del p ;;;
  sched_unlock.

Definition proc_unqueue (p : nat) : SM unit :=
  sched_lock ;;;
  rq_del p ;;;
  sched_unlock.

(** Procs in a cpu's hands: dispatch takes a proc off its set to run it. *)
Definition running_in_hand (σ : sched) (c : scpu) : bool :=
  match c_current c with
  | None => false
  | Some p =>
      match s_procs σ !! p with
      | None => false
      | Some sp => bool_decide (sp_status sp = READY) && bool_decide (sp_onq sp = None)
      end
  end.

Definition count_runnable (σ : sched) : Z :=
  rq_n (get_set (s_runq σ) σ) + rq_n (get_set (s_donq σ) σ)
  + Z.of_nat (length (filter (λ c, running_in_hand σ c = true) (s_cpus σ))).

(** Price [p] against everything runnable, counting [p] itself. *)
Definition price (p : nat) : SM unit :=
  let! σ := st_get in
  let! sp := proc p in
  let now := uptime_ms (s_clock σ) (s_ticks σ) in
  let '(pri, sp) := reprioritize now (kernel_cyc_per_ms (s_clock σ)) sp
                      (count_runnable σ + 1) in
  st_modify (put_proc p (set_sp_pri pri sp)).

(** The first idle cpu other than this one, if any. *)
Fixpoint idle_other (self i : nat) (cs : list scpu) : option nat :=
  match cs with
  | [] => None
  | c :: cs => if c_idle c && negb (i =? self)%nat then Some i
               else idle_other self (S i) cs
  end.

(** make_ready past its two early returns. *)
Definition make_ready_run (p : nat) (sp : sproc) : SM unit :=
  let keep := sp_onq sp in
  if negb (sp_oncpu sp =? 0) then
    st_modify (put_proc p (set_sp_status READY sp)) ;;;
    price p ;;;
    sched_unlock
  else
    match keep with Some _ => rq_del p | None => st_ret tt end ;;;
    let! sp := proc p in
    st_modify (put_proc p (set_sp_status READY sp)) ;;;
    price p ;;;
    let! σ := st_get in
    rq_add (default (s_runq σ) keep) p ;;;
    let wake := idle_other (s_self σ) 0 (s_cpus σ) in
    sched_unlock ;;;
    match wake with
    | Some i => st_modify (λ σ, set_s_wakes (i :: s_wakes σ) σ)
    | None => st_ret tt
    end.

Definition make_ready (p : nat) : SM unit :=
  sched_lock ;;;
  let! sp := proc p in
  if bool_decide (sp_status sp = STOPPED) || bool_decide (sp_status sp = BROKE)
  then sched_unlock
  else
  match sp_dbg sp with
  | Some d =>
      if bool_decide (sp_status sp = BLOCKED) && d_stopreq d then
        st_modify (put_proc p
          (set_sp_dbg (Some (mkKdbg false DBG_REQ DBG_REQ))
             (set_sp_status STOPPED sp))) ;;;
        sched_unlock
      else make_ready_run p sp
  | None => make_ready_run p sp
  end.

(** * Well-formed queues *)

(** One set on its own: the mask has a bit per non-empty bucket, [n] counts the
    members, and no bucket lists a proc twice. *)
Record set_ok (r : rqset) : Prop := mkSetOk {
  so_len : length (rq_q r) = 16%nat;
  so_nodup : ∀ b, 0 <= b < NRQ → NoDup (bucket r b);
  so_mask : ∀ b, 0 <= b < NRQ → Z.testbit (rq_mask r) b = bool_decide (bucket r b ≠ []);
  so_n : rq_n r = zsum (λ l, Z.of_nat (length l)) (rq_q r)
}.

(** A proc is on exactly the bucket its priority names of exactly the set its
    [onq] names, and a proc in a cpu's hands is on neither set. *)
Record rq_wf (σ : sched) : Prop := mkRqWf {
  wf_set : ∀ s, set_ok (get_set s σ);
  wf_mem : ∀ s b p, 0 <= b < NRQ →
    p ∈ bucket (get_set s σ) b ↔
    ∃ sp, s_procs σ !! p = Some sp ∧ sp_onq sp = Some s ∧ rq_bucket (sp_pri sp) = b;
  wf_sets : s_runq σ ≠ s_donq σ;
  wf_oncpu : ∀ p sp, s_procs σ !! p = Some sp → sp_oncpu sp ≠ 0 → sp_onq sp = None
}.

Lemma rq_bucket_range pri : 0 <= rq_bucket pri < NRQ.
Proof.
  unfold rq_bucket, NRQ, MAXWEIGHT, PRI_BASE.
  change (16 * 10) with 160. change (16 - 1) with 15.
  set (a := if pri <? 0 then 0 else pri).
  assert (0 <= a) by (unfold a; destruct (Z.ltb_spec pri 0); lia).
  destruct (Z.ltb_spec 160 a);
    (split; [apply Z.div_pos; lia|apply Z.div_lt_upper_bound; lia]).
Qed.

Lemma rq_bucket_mono p q : p <= q → rq_bucket p <= rq_bucket q.
Proof.
  intros H. unfold rq_bucket, NRQ, MAXWEIGHT, PRI_BASE.
  apply Z.div_le_mono; [lia|].
  destruct (Z.ltb_spec p 0), (Z.ltb_spec q 0); try lia;
    repeat match goal with |- context [if ?a <? ?b then _ else _] =>
      destruct (Z.ltb_spec a b) end; lia.
Qed.

Lemma bit_testbit b b' :
  0 <= b < NRQ → 0 <= b' < NRQ → Z.testbit (bit b) b' = (b =? b').
Proof.
  unfold NRQ. intros Hb Hb'. unfold bit, u32, wrap.
  rewrite Z.mod_pow2_bits_low by lia.
  rewrite Z.shiftl_1_l, Z.pow2_bits_eqb by lia. done.
Qed.

Lemma bit_land_test m b :
  0 <= b < NRQ → (Z.land m (bit b) =? 0) = negb (Z.testbit m b).
Proof.
  unfold NRQ. intros Hb. unfold bit, u32. rewrite Z.shiftl_1_l.
  rewrite wrap_small by
    (split; [apply Z.pow_nonneg; lia|apply Z.pow_lt_mono_r; lia]).
  destruct (Z.testbit m b) eqn:E; simpl.
  - apply Z.eqb_neq. intros H0.
    assert (Z.testbit (Z.land m (2 ^ b)) b = false) as H1 by (rewrite H0; apply Z.bits_0).
    rewrite Z.land_spec, E, Z.pow2_bits_true in H1 by lia. done.
  - apply Z.eqb_eq. apply Z.bits_inj_0. intros i. rewrite Z.land_spec.
    destruct (decide (i < 0)); [by rewrite Z.testbit_neg_r|].
    rewrite Z.pow2_bits_eqb by lia.
    destruct (Z.eqb_spec b i) as [<-|]; [by rewrite E|by rewrite andb_false_r].
Qed.

Lemma bit_clear_testbit m b b' :
  0 <= b < NRQ → 0 <= b' < NRQ →
  Z.testbit (Z.land m (u32 (Z.lnot (bit b)))) b' = Z.testbit m b' && negb (b =? b').
Proof.
  intros Hb Hb'. rewrite Z.land_spec. unfold u32, wrap at 1.
  rewrite Z.mod_pow2_bits_low by (unfold NRQ in *; lia).
  rewrite Z.lnot_spec by lia. by rewrite bit_testbit.
Qed.

Lemma get_put_set s s' r σ :
  get_set s (put_set s' r σ) = if eqb s s' then r else get_set s σ.
Proof. by destruct s, s'. Qed.

Lemma get_set_put_proc s p sp σ : get_set s (put_proc p sp σ) = get_set s σ.
Proof. by destruct s. Qed.

Lemma procs_put_set s r σ : s_procs (put_set s r σ) = s_procs σ.
Proof. by destruct s. Qed.

Lemma bucket_put r b l b' :
  length (rq_q r) = 16%nat → 0 <= b < NRQ → 0 <= b' < NRQ →
  bucket (put_bucket b l r) b' = if b =? b' then l else bucket r b'.
Proof.
  unfold NRQ. intros Hlen Hb Hb'. unfold bucket, put_bucket. simpl.
  destruct (Z.eqb_spec b b') as [<-|Hne].
  - rewrite list_lookup_insert_eq by (rewrite Hlen; lia). done.
  - rewrite list_lookup_insert_ne by lia. done.
Qed.

Lemma zsum_put_bucket r b l :
  length (rq_q r) = 16%nat → 0 <= b < NRQ →
  zsum (λ l, Z.of_nat (length l)) (rq_q (put_bucket b l r)) =
  zsum (λ l, Z.of_nat (length l)) (rq_q r)
    - Z.of_nat (length (bucket r b)) + Z.of_nat (length l).
Proof.
  unfold NRQ. intros Hlen Hb. unfold put_bucket, bucket. simpl.
  destruct (lookup_lt_is_Some_2 (rq_q r) (Z.to_nat b)) as [x Hx]; [rewrite Hlen; lia|].
  rewrite (zsum_insert _ _ _ _ _ Hx), Hx. done.
Qed.

Lemma filter_ne_length (p : nat) (l : list nat) :
  NoDup l → p ∈ l → S (length (filter (λ x, x ≠ p) l)) = length l.
Proof.
  induction 1 as [|x l Hx Hnd IH]; intros Hin; [by apply elem_of_nil in Hin|].
  apply elem_of_cons in Hin as [->|Hin].
  - rewrite filter_cons_False by naive_solver. cbn [length]. do 2 f_equal.
    clear IH Hnd. induction l as [|y l IH]; [done|].
    apply not_elem_of_cons in Hx as [? ?].
    rewrite filter_cons_True by done. cbn [length]. by rewrite IH.
  - rewrite filter_cons_True by (intros ->; done). cbn [length]. by rewrite IH.
Qed.

(** The states [rq_add] and [rq_del] leave, as functions of the state. *)
Definition add_set (p : nat) (b : Z) (r : rqset) : rqset :=
  set_rq_n (rq_n r + 1)
    (set_rq_mask (Z.lor (rq_mask r) (bit b)) (put_bucket b (bucket r b ++ [p]) r)).
Definition rq_add_st (s : bool) (p : nat) (sp : sproc) (σ : sched) : sched :=
  put_proc p (set_sp_onq (Some s) sp)
    (put_set s (add_set p (rq_bucket (sp_pri sp)) (get_set s σ)) σ).

Definition del_set (p : nat) (b : Z) (r : rqset) : rqset :=
  let l := filter (λ x, x ≠ p) (bucket r b) in
  let r' := put_bucket b l r in
  let r' := match l with
            | [] => set_rq_mask (Z.land (rq_mask r') (u32 (Z.lnot (bit b)))) r'
            | _ => r'
            end in
  set_rq_n (rq_n r - 1) r'.
Definition rq_del_st (s : bool) (p : nat) (sp : sproc) (σ : sched) : sched :=
  put_proc p (set_sp_onq None sp)
    (put_set s (del_set p (rq_bucket (sp_pri sp)) (get_set s σ)) σ).

Lemma rq_add_eq s p sp σ :
  s_held σ = true → s_procs σ !! p = Some sp →
  rq_add s p σ = Ok (tt, rq_add_st s p sp σ).
Proof.
  intros Hh Hp. unfold rq_add, st_bind, proc, SCHED_ASSERT_LOCKED, st_get, st_modify.
  rewrite Hp, Hh. unfold rq_add_st, add_set. by destruct s.
Qed.

Lemma rq_del_none p sp σ :
  s_held σ = true → s_procs σ !! p = Some sp → sp_onq sp = None →
  rq_del p σ = Ok (tt, σ).
Proof.
  intros Hh Hp Hq. unfold rq_del, st_bind, proc, SCHED_ASSERT_LOCKED.
  by rewrite Hp, Hh, Hq.
Qed.

Lemma rq_del_eq s p sp σ :
  rq_wf σ → s_held σ = true → s_procs σ !! p = Some sp → sp_onq sp = Some s →
  rq_del p σ = Ok (tt, rq_del_st s p sp σ).
Proof.
  intros Hwf Hh Hp Hq.
  unfold rq_del, st_bind, proc, SCHED_ASSERT_LOCKED, st_get, st_modify, tailq_remove.
  rewrite Hp, Hh, Hq. cbn -[bucket]. rewrite decide_True.
  - unfold rq_del_st, del_set.
    destruct (filter (λ x : nat, x ≠ p) (bucket (get_set s σ) (rq_bucket (sp_pri sp))));
      by destruct s.
  - apply (wf_mem σ Hwf); [apply rq_bucket_range|]. eauto.
Qed.

Section sets.
Context (r : rqset) (Hr : set_ok r) (p : nat) (b0 : Z) (Hb0 : 0 <= b0 < NRQ).

Lemma bucket_add b : 0 <= b < NRQ →
  bucket (add_set p b0 r) b = if b0 =? b then bucket r b0 ++ [p] else bucket r b.
Proof. intros Hb. by apply (bucket_put r); [apply so_len| |]. Qed.

Lemma bucket_del b : 0 <= b < NRQ →
  bucket (del_set p b0 r) b =
  if b0 =? b then filter (λ x, x ≠ p) (bucket r b0) else bucket r b.
Proof.
  intros Hb. unfold del_set.
  destruct (filter _ _); by apply (bucket_put r); [apply so_len| |].
Qed.

Lemma add_set_ok : p ∉ bucket r b0 → set_ok (add_set p b0 r).
Proof.
  intros Hp. constructor.
  - simpl. rewrite length_insert. by apply so_len.
  - intros b Hb. rewrite bucket_add by done.
    destruct (Z.eqb_spec b0 b); [|by apply so_nodup].
    apply NoDup_app; repeat split; [by apply so_nodup| |apply NoDup_singleton].
    by intros x Hx ->%list_elem_of_singleton.
  - intros b Hb. rewrite bucket_add by done. simpl.
    rewrite Z.lor_spec, bit_testbit, (so_mask r Hr) by done.
    destruct (Z.eqb_spec b0 b); [|by rewrite orb_false_r].
    rewrite orb_true_r. symmetry. apply bool_decide_eq_true_2. by destruct (bucket _ _).
  - unfold add_set. cbn [rq_n set_rq_n rq_q set_rq_mask].
    rewrite zsum_put_bucket, (so_n r Hr), length_app by (done || by apply so_len).
    simpl. lia.
Qed.

Lemma del_set_ok : p ∈ bucket r b0 → set_ok (del_set p b0 r).
Proof.
  intros Hp. pose proof (so_nodup r Hr b0 Hb0) as Hnd.
  pose proof (filter_ne_length p _ Hnd Hp) as Hlen. constructor.
  - unfold del_set. destruct (filter _ _); simpl; rewrite length_insert; by apply so_len.
  - intros b Hb. rewrite bucket_del by done.
    destruct (Z.eqb_spec b0 b); [|by apply so_nodup]. by apply NoDup_filter.
  - intros b Hb. rewrite bucket_del by done. unfold del_set.
    destruct (filter _ _) as [|x l] eqn:E.
    + simpl. rewrite bit_clear_testbit, (so_mask r Hr) by done.
      by destruct (Z.eqb_spec b0 b); [rewrite andb_false_r|rewrite andb_true_r].
    + simpl. rewrite (so_mask r Hr) by done.
      destruct (Z.eqb_spec b0 b) as [<-|]; [|done]. apply bool_decide_ext.
      split; [done|]. intros _ Hnil. by rewrite Hnil in Hp; apply elem_of_nil in Hp.
  - unfold del_set. destruct (filter _ _) eqn:E; cbn [rq_n set_rq_n rq_q set_rq_mask];
      rewrite zsum_put_bucket, (so_n r Hr) by (done || by apply so_len);
      simpl in *; lia.
Qed.
End sets.

Section wf_steps.
Context (σ : sched) (Hwf : rq_wf σ).

Lemma rq_add_wf s p sp :
  s_procs σ !! p = Some sp → sp_onq sp = None → sp_oncpu sp = 0 →
  rq_wf (rq_add_st s p sp σ).
Proof.
  intros Hp Hq Hc. pose proof (rq_bucket_range (sp_pri sp)) as Hb0.
  assert (∀ s', p ∉ bucket (get_set s' σ) (rq_bucket (sp_pri sp))) as Hni.
  { intros s' H. apply (wf_mem σ Hwf) in H as (? & ? & ? & _); [congruence|done]. }
  unfold rq_add_st. constructor.
  - intros s'. rewrite get_set_put_proc, get_put_set.
    destruct (eqb s' s); [apply add_set_ok|]; auto using wf_set.
  - intros s' b p' Hb. rewrite get_set_put_proc, get_put_set. simpl.
    rewrite procs_put_set, lookup_insert. destruct (eqb_spec s' s) as [->|Hs].
    + rewrite bucket_add by auto using wf_set.
      destruct (Z.eqb_spec (rq_bucket (sp_pri sp)) b) as [<-|Hbb].
      * rewrite elem_of_app, list_elem_of_singleton, (wf_mem σ Hwf) by done.
        case_decide; subst; naive_solver.
      * rewrite (wf_mem σ Hwf) by done. case_decide; subst; naive_solver.
    + rewrite (wf_mem σ Hwf) by done. case_decide; [subst; naive_solver|done].
  - destruct s; apply (wf_sets σ Hwf).
  - intros p' sp'. simpl. rewrite procs_put_set, lookup_insert.
    case_decide; [by intros [= <-]|]. apply (wf_oncpu σ Hwf).
Qed.

Lemma rq_del_wf s p sp :
  s_procs σ !! p = Some sp → sp_onq sp = Some s → rq_wf (rq_del_st s p sp σ).
Proof.
  intros Hp Hq. pose proof (rq_bucket_range (sp_pri sp)) as Hb0.
  assert (p ∈ bucket (get_set s σ) (rq_bucket (sp_pri sp))) as Hin
    by (apply (wf_mem σ Hwf); eauto).
  unfold rq_del_st. constructor.
  - intros s'. rewrite get_set_put_proc, get_put_set.
    destruct (eqb s' s); [apply del_set_ok|]; auto using wf_set.
  - intros s' b p' Hb. rewrite get_set_put_proc, get_put_set. simpl.
    rewrite procs_put_set, lookup_insert. destruct (eqb_spec s' s) as [->|Hs].
    + rewrite bucket_del by auto using wf_set.
      destruct (Z.eqb_spec (rq_bucket (sp_pri sp)) b) as [<-|Hbb].
      * rewrite list_elem_of_filter, (wf_mem σ Hwf) by done.
        case_decide; subst; naive_solver.
      * rewrite (wf_mem σ Hwf) by done. case_decide; subst; naive_solver.
    + rewrite (wf_mem σ Hwf) by done. case_decide; subst; naive_solver.
  - destruct s; apply (wf_sets σ Hwf).
  - intros p' sp'. simpl. rewrite procs_put_set, lookup_insert.
    case_decide; [by intros [= <-]|]. apply (wf_oncpu σ Hwf).
Qed.

(** Changing a proc's fields other than its queue membership and, while it is
    queued, its priority. *)
Lemma put_proc_wf p sp sp' :
  s_procs σ !! p = Some sp → sp_onq sp' = sp_onq sp →
  (sp_onq sp ≠ None → rq_bucket (sp_pri sp') = rq_bucket (sp_pri sp)) →
  (sp_oncpu sp' ≠ 0 → sp_onq sp' = None) →
  rq_wf (put_proc p sp' σ).
Proof.
  intros Hp Hq Hpri Hc. constructor.
  - intros s. rewrite get_set_put_proc. by apply wf_set.
  - intros s b p' Hb. rewrite get_set_put_proc, (wf_mem σ Hwf) by done. simpl.
    rewrite lookup_insert. case_decide; subst; [|done].
    split; intros (x & Hx & Hs & <-); simplify_eq.
    + exists sp'. rewrite Hq, Hpri by congruence. done.
    + exists sp. rewrite <-Hq, <-Hpri by congruence. done.
  - apply (wf_sets σ Hwf).
  - intros p' x. simpl. rewrite lookup_insert.
    case_decide; [by intros [= <-]|]. apply (wf_oncpu σ Hwf).
Qed.

Lemma wf_set_held h : rq_wf (set_s_held h σ).
Proof. destruct Hwf. by constructor. Qed.
Lemma wf_set_wakes h : rq_wf (set_s_wakes h σ).
Proof. destruct Hwf. by constructor. Qed.
End wf_steps.

(** * Taking the next proc *)

Definition on_set (σ : sched) (s : bool) (p : nat) : Prop :=
  ∃ sp, s_procs σ !! p = Some sp ∧ sp_onq sp = Some s.

Lemma bucket_nil_iff σ s b :
  rq_wf σ → 0 <= b < NRQ →
  (Z.land (rq_mask (get_set s σ)) (bit b) =? 0) = bool_decide (bucket (get_set s σ) b = []).
Proof.
  intros Hwf Hb. rewrite bit_land_test, (so_mask _ (wf_set σ Hwf s)) by done.
  by destruct (bucket (get_set s σ) b).
Qed.

(** The loop stops at the first bucket of its order that is not empty, and takes
    that bucket's first proc. *)
Lemma rq_take_spec σ s bs :
  rq_wf σ → s_held σ = true → (∀ b, b ∈ bs → 0 <= b < NRQ) →
  (rq_take bs s σ = Ok (None, σ) ∧ ∀ b, b ∈ bs → bucket (get_set s σ) b = []) ∨
  ∃ bs1 b bs2 p l sp,
    bs = bs1 ++ b :: bs2 ∧ (∀ b', b' ∈ bs1 → bucket (get_set s σ) b' = []) ∧
    bucket (get_set s σ) b = p :: l ∧ s_procs σ !! p = Some sp ∧
    sp_onq sp = Some s ∧ rq_bucket (sp_pri sp) = b ∧
    rq_take bs s σ = Ok (Some p, rq_del_st s p sp σ).
Proof.
  intros Hwf Hh. induction bs as [|b bs IH]; intros Hbs.
  { left. split; [done|]. by intros ? ?%elem_of_nil. }
  pose proof (Hbs b ltac:(left)) as Hb.
  assert (rq_take (b :: bs) s σ =
    if bool_decide (bucket (get_set s σ) b = []) then rq_take bs s σ
    else match bucket (get_set s σ) b with
         | [] => Err NullDeref
         | p :: _ => (rq_del p ;;; st_ret (Some p)) σ
         end) as ->.
  { cbn [rq_take]. unfold st_bind at 1, st_get. rewrite bucket_nil_iff by done.
    case_bool_decide; [done|]. by destruct (bucket (get_set s σ) b). }
  case_bool_decide as Hnil.
  - destruct IH as [[E Hall]|(bs1 & b' & bs2 & p & l & sp & -> & ? & ? & ? & ? & ? & ?)].
    { intros; apply Hbs; by right. }
    + left. split; [done|]. intros b' [->|?]%elem_of_cons; auto.
    + right. exists (b :: bs1), b', bs2, p, l, sp. split_and!; try done.
      intros ? [->|?]%elem_of_cons; auto.
  - right. destruct (bucket (get_set s σ) b) as [|p l] eqn:E; [done|].
    assert (p ∈ bucket (get_set s σ) b) as Hin by (rewrite E; left).
    apply (wf_mem σ Hwf) in Hin as (sp & Hp & Hq & Hpb); [|done].
    exists [], b, bs, p, l, sp. split_and!; try done.
    { by intros ? ?%elem_of_nil. }
    unfold st_bind. by rewrite (rq_del_eq s p sp σ).
Qed.

Lemma on_set_bucket σ s p :
  rq_wf σ → on_set σ s p →
  ∃ sp, s_procs σ !! p = Some sp ∧ p ∈ bucket (get_set s σ) (rq_bucket (sp_pri sp)).
Proof.
  intros Hwf (sp & Hp & Hq). exists sp. split; [done|].
  apply (wf_mem σ Hwf); [apply rq_bucket_range|eauto].
Qed.

Lemma elem_of_buckets_up b : b ∈ buckets_up ↔ 0 <= b < NRQ.
Proof.
  unfold buckets_up, NRQ. rewrite !elem_of_cons, elem_of_nil. lia.
Qed.

(** Splitting the descending order at [b] leaves every higher bucket before it. *)
Lemma rev_up_split bs1 b bs2 b' :
  rev buckets_up = bs1 ++ b :: bs2 → b < b' < NRQ → 0 <= b → b' ∈ bs1.
Proof.
  intros E Hb' Hb0.
  assert (b' ∈ rev buckets_up) as Hin.
  { apply list_elem_of_In, in_rev. rewrite rev_involutive.
    apply list_elem_of_In, elem_of_buckets_up. lia. }
  rewrite E in Hin. apply elem_of_app in Hin as [|Hin]; [done|].
  apply elem_of_cons in Hin as [|Hin]; [lia|]. exfalso.
  assert (StronglySorted Z.gt (rev buckets_up)) as Hs.
  { repeat (constructor; [|repeat constructor; lia]). constructor. }
  rewrite E in Hs. clear E. induction bs1 as [|x bs1 IH]; simpl in Hs.
  - inversion Hs as [|?? _ Hall]; subst. rewrite Forall_forall in Hall.
    specialize (Hall b' Hin). lia.
  - inversion Hs; subst. auto.
Qed.

Lemma take_none_n r :
  set_ok r → (∀ b, 0 <= b < NRQ → bucket r b = []) →
  zsum (λ l, Z.of_nat (length l)) (rq_q r) = 0.
Proof.
  intros Hr Hall.
  assert (∀ l, l ∈ rq_q r → l = []) as Hnil.
  { intros l (i & Hi)%list_elem_of_lookup. pose proof (lookup_lt_Some _ _ _ Hi) as Hlt.
    rewrite (so_len r Hr) in Hlt. specialize (Hall (Z.of_nat i)).
    unfold bucket in Hall. rewrite Nat2Z.id, Hi in Hall. apply Hall.
    unfold NRQ. lia. }
  induction (rq_q r) as [|l ls IH]; [done|].
  rewrite zsum_cons, IH by (intros; apply Hnil; by right).
  by rewrite (Hnil l ltac:(left)).
Qed.

(** On well-formed queues [rq_take_high] never follows a bad link: it returns
    null exactly when the set is empty, and otherwise unlinks a proc no other
    member of the set outranks, leaves every other member queued, and keeps the
    queues well formed. *)
Theorem rq_take_high_highest σ s :
  rq_wf σ → s_held σ = true →
  ∃ o σ', rq_take_high s σ = Ok (o, σ') ∧ rq_wf σ' ∧
    match o with
    | None => σ' = σ ∧ rq_n (get_set s σ) = 0 ∧ ∀ p, ¬ on_set σ s p
    | Some p => on_set σ s p ∧ ¬ on_set σ' s p ∧
        (∀ p' sp sp', s_procs σ !! p = Some sp → s_procs σ !! p' = Some sp' →
           sp_onq sp' = Some s → rq_bucket (sp_pri sp') <= rq_bucket (sp_pri sp)) ∧
        (∀ p', p' ≠ p → on_set σ s p' ↔ on_set σ' s p')
    end.
Proof.
  intros Hwf Hh. unfold rq_take_high.
  assert (∀ b, b ∈ rev buckets_up ↔ 0 <= b < NRQ) as Hrev.
  { intros b. rewrite <-elem_of_buckets_up, !list_elem_of_In, <-in_rev. done. }
  destruct (rq_take_spec σ s (rev buckets_up)) as
    [[E Hall]|(bs1 & b & bs2 & p & l & sp & Hbs & Hbs1 & Hbk & Hp & Hq & Hpb & E)];
    [done|done|by intros; apply Hrev| |].
  - exists None, σ. split_and!; try done.
    + rewrite (so_n _ (wf_set σ Hwf s)). apply take_none_n; [apply wf_set; done|].
      intros b Hb. apply Hall, Hrev, Hb.
    + intros p Hp. apply on_set_bucket in Hp as (sp & _ & Hin); [|done].
      rewrite Hall in Hin by apply Hrev, rq_bucket_range. by apply elem_of_nil in Hin.
  - exists (Some p), (rq_del_st s p sp σ). split_and!; try done.
    + by apply rq_del_wf.
    + by exists sp.
    + intros (sp' & Hp' & Hq'). simpl in Hp'.
      rewrite procs_put_set, lookup_insert_eq in Hp'. by simplify_eq.
    + intros p' sp0 sp' Hp0 Hp' Hq'. simplify_eq.
      destruct (decide (rq_bucket (sp_pri sp') <= rq_bucket (sp_pri sp))); [done|].
      exfalso. assert (p' ∈ bucket (get_set s σ) (rq_bucket (sp_pri sp'))) as Hin.
      { apply (wf_mem σ Hwf); [apply rq_bucket_range|eauto]. }
      rewrite Hbs1 in Hin; [by apply elem_of_nil in Hin|].
      pose proof (rq_bucket_range (sp_pri sp)). pose proof (rq_bucket_range (sp_pri sp')).
      eapply rev_up_split; [done| |]; lia.
    + intros p' Hne. unfold on_set. simpl.
      by rewrite procs_put_set, lookup_insert_ne by done.
Qed.

(** * Pricing *)

Definition share_ok (sp : sproc) : Prop := 0 <= sp_cpu sp <= 1000.
Definition weight_ok (sp : sproc) : Prop := 1 <= sp_weight sp <= MAXWEIGHT.

Lemma updatecpu_share now cyc sp : share_ok sp → share_ok (updatecpu now cyc sp).
Proof.
  unfold share_ok, updatecpu. intros Hs. case_match; [done|].
  set (n := u64 (now - sp_lastupdate sp)) in *.
  pose proof (wrap_range 64 (now - sp_lastupdate sp) ltac:(lia)) as Hn.
  change (wrap 64 (now - sp_lastupdate sp)) with n in Hn.
  set (w := if SCHED_DECAY_MS <? n then SCHED_DECAY_MS else n).
  assert (0 <= w <= 500).
  { unfold w, SCHED_DECAY_MS. destruct (Z.ltb_spec 500 n); lia. }
  match goal with |- context [if 1000 <? ?f then _ else _] =>
    set (f0 := f); set (fr := if 1000 <? f0 then 1000 else f0) end.
  assert (0 <= fr <= 1000).
  { unfold fr. destruct (Z.ltb_spec 1000 f0); [lia|]. split; [|lia].
    unfold f0. case_match; [lia|]. apply wrap_range. lia. }
  simpl. unfold SCHED_DECAY_MS. unfold u32. rewrite wrap_small.
  - split; [apply Z.div_pos; nia|]. apply Z.div_le_upper_bound; nia.
  - split; [apply Z.div_pos; nia|].
    apply Z.le_lt_trans with 1000; [|done]. apply Z.div_le_upper_bound; nia.
Qed.

Lemma updatecpu_frame now cyc sp :
  let sp' := updatecpu now cyc sp in
  sp_status sp' = sp_status sp ∧ sp_onq sp' = sp_onq sp ∧ sp_oncpu sp' = sp_oncpu sp ∧
  sp_weight sp' = sp_weight sp ∧ sp_pri sp' = sp_pri sp ∧ sp_dbg sp' = sp_dbg sp ∧
  sp_frozen sp' = sp_frozen sp.
Proof. unfold updatecpu. simpl. by case_match. Qed.

Lemma fair_pri_eq cpu w n :
  1 <= w <= MAXWEIGHT →
  fair_pri cpu w n =
    Z.min (w * PRI_BASE) (1000 / (Z.max 1 n) * (w * PRI_BASE) / (if cpu =? 0 then 1 else cpu)).
Proof.
  unfold MAXWEIGHT, PRI_BASE. intros Hw. unfold fair_pri, PRI_BASE, u32.
  rewrite (wrap_small 32 (w * 10)) by lia.
  replace (if n <=? 0 then 1 else n) with (Z.max 1 n) by
    (destruct (Z.leb_spec n 0); lia).
  match goal with |- (if ?a <? ?b then _ else _) = _ => destruct (Z.ltb_spec a b) end; lia.
Qed.

Lemma fair_pri_bounds cpu cpu' w n :
  1 <= w <= MAXWEIGHT → 0 <= cpu <= cpu' →
  (0 <= fair_pri cpu w n <= w * PRI_BASE) ∧
  (fair_pri cpu' w n <= fair_pri cpu w n) ∧
  (n <= 1000 → cpu <= 1000 / Z.max 1 n → fair_pri cpu w n = w * PRI_BASE).
Proof.
  intros Hw Hc. rewrite !fair_pri_eq by done. unfold PRI_BASE, MAXWEIGHT in *.
  set (f := 1000 / Z.max 1 n).
  assert (0 <= f) by (apply Z.div_pos; lia).
  set (d := if cpu =? 0 then 1 else cpu). set (d' := if cpu' =? 0 then 1 else cpu').
  assert (1 <= d <= d') as Hd.
  { unfold d, d'. destruct (Z.eqb_spec cpu 0), (Z.eqb_spec cpu' 0); lia. }
  split_and!.
  - assert (0 <= f * (w * 10) / d) by (apply Z.div_pos; nia). lia.
  - lia.
  - apply Z.min_le_compat_l. apply Z.div_le_compat_l; nia.
  - intros Hn Hcf. apply Z.min_l.
    assert (1 <= f) by (apply Z.div_le_lower_bound; lia).
    assert (d <= f) by (unfold d; destruct (Z.eqb_spec cpu 0); lia).
    apply Z.div_le_lower_bound; [lia|]. nia.
Qed.

(** [reprioritize] prices a proc between 0 and [weight * PRI_BASE], whatever
    its share; a proc that has used more of the machine is never priced above one
    that has used less; and a proc at or under its fair share gets the cap its
    weight allows. *)
Theorem fair_pri_correct cpu cpu' w n :
  1 <= w <= MAXWEIGHT → 0 <= cpu <= cpu' →
  (0 <= fair_pri cpu w n <= w * PRI_BASE) ∧
  (fair_pri cpu' w n <= fair_pri cpu w n) ∧
  (n <= 1000 → cpu <= 1000 / Z.max 1 n → fair_pri cpu w n = w * PRI_BASE).
Proof. apply fair_pri_bounds. Qed.

Lemma fair_pri_correct_witness :
  fair_pri 700 3 4 <= fair_pri 200 3 4 ∧ fair_pri 200 3 4 = 30.
Proof.
  destruct (fair_pri_correct 200 700 3 4) as (_ & H & E);
    [unfold MAXWEIGHT; lia|lia|]. split; [exact H|].
  apply E; [lia|]. vm_compute. congruence.
Defined.

(** Every proc of the default weight 1 lands in bucket 0, whatever share of
    the machine it has used, so the queue order never separates two such procs:
    [rq_bucket] scales by the largest weight's cap. *)
Theorem default_weight_one_bucket cpu n :
  0 <= cpu → rq_bucket (fair_pri cpu 1 n) = 0.
Proof.
  intros Hc.
  destruct (fair_pri_bounds cpu cpu 1 n) as [[Hlo Hhi] _]; [unfold MAXWEIGHT; lia|lia|].
  unfold PRI_BASE in Hhi. unfold rq_bucket, NRQ, MAXWEIGHT, PRI_BASE.
  destruct (Z.ltb_spec (fair_pri cpu 1 n) 0); [lia|].
  destruct (Z.ltb_spec (16 * 10) (fair_pri cpu 1 n)); [lia|].
  apply Z.div_small. lia.
Qed.

Lemma default_weight_one_bucket_witness :
  rq_bucket (fair_pri 0 1 2) = 0 ∧ rq_bucket (fair_pri 1000 1 2) = 0.
Proof. split; apply default_weight_one_bucket; lia. Defined.

(** * Blocking and waking *)

Lemma price_eq p sp σ :
  s_procs σ !! p = Some sp →
  ∃ pri sp', price p σ = Ok (tt, put_proc p (set_sp_pri pri sp') σ) ∧
    sp' = updatecpu (uptime_ms (s_clock σ) (s_ticks σ)) (cyc_per_ms (s_clock σ)) sp ∧
    pri = fair_pri (sp_cpu sp') (sp_weight sp') (count_runnable σ + 1).
Proof.
  intros Hp. unfold price, st_bind, st_get, st_modify, proc, reprioritize.
  rewrite Hp. eexists _, _. split; [done|]. done.
Qed.

(** A state whose proc [p] alone changed, outside the queues. *)
Lemma put_put_proc p sp sp' σ : put_proc p sp' (put_proc p sp σ) = put_proc p sp' σ.
Proof. unfold put_proc, set_s_procs. simpl. by rewrite insert_insert_eq. Qed.

Lemma put_proc_held p sp h σ :
  put_proc p sp (set_s_held h σ) = set_s_held h (put_proc p sp σ).
Proof. done. Qed.

(** What [make_ready] does to a proc that is neither on a cpu nor held: off its
    queue, priced, and back on the set it was on, or the current lap's. *)
Definition ready_sproc (σ : sched) (sp : sproc) (pri : Z) : sproc :=
  set_sp_pri pri
    (updatecpu (uptime_ms (s_clock σ) (s_ticks σ)) (cyc_per_ms (s_clock σ))
       (set_sp_status READY sp)).

Lemma ready_sproc_fields σ sp pri :
  let sp' := ready_sproc σ sp pri in
  sp_status sp' = READY ∧ sp_onq sp' = sp_onq sp ∧ sp_oncpu sp' = sp_oncpu sp ∧
  sp_weight sp' = sp_weight sp ∧ sp_frozen sp' = sp_frozen sp ∧ sp_dbg sp' = sp_dbg sp.
Proof. unfold ready_sproc, updatecpu. simpl. by case_match. Qed.

Lemma make_ready_oncpu σ p sp :
  rq_wf σ → s_held σ = true → s_procs σ !! p = Some sp → sp_oncpu sp ≠ 0 →
  ∃ σ' pri, make_ready_run p sp σ = Ok (tt, σ') ∧ rq_wf σ' ∧
    σ' = set_s_held false (put_proc p (ready_sproc σ sp pri) σ).
Proof.
  intros Hwf Hh Hp Hc. unfold make_ready_run. rewrite (proj2 (Z.eqb_neq _ _)) by done.
  unfold st_bind at 1, st_modify. cbn [negb].
  destruct (price_eq p (set_sp_status READY sp) (put_proc p (set_sp_status READY sp) σ))
    as (pri & sp' & E & -> & _); [by simpl; rewrite lookup_insert_eq|].
  unfold st_bind at 1. rewrite E. rewrite put_put_proc.
  exists (set_s_held false (put_proc p (ready_sproc σ sp pri) σ)), pri.
  split; [reflexivity|]. split; [|reflexivity]. apply wf_set_held. pose proof (ready_sproc_fields σ sp pri) as (_ & Hq & Hcc & _).
  eapply put_proc_wf; try done.
  - intros H. by rewrite (wf_oncpu σ Hwf p sp) in H.
  - intros _. rewrite Hq. by apply (wf_oncpu σ Hwf p sp).
Qed.

(** Everything of a state but its procs and queues. *)
Definition same_env (σ σ' : sched) : Prop :=
  s_clock σ' = s_clock σ ∧ s_ticks σ' = s_ticks σ ∧ s_runq σ' = s_runq σ ∧
  s_donq σ' = s_donq σ ∧ s_self σ' = s_self σ ∧ s_cpus σ' = s_cpus σ ∧
  s_wakes σ' = s_wakes σ.

(** Off whatever queue it is on, if any. *)
Lemma off_queue σ p sp :
  rq_wf σ → s_held σ = true → s_procs σ !! p = Some sp →
  ∃ σ', rq_del p σ = Ok (tt, σ') ∧ rq_wf σ' ∧ s_held σ' = true ∧
    s_procs σ' = <[p := set_sp_onq None sp]> (s_procs σ) ∧ same_env σ σ'.
Proof.
  intros Hwf Hh Hp. destruct (sp_onq sp) as [s|] eqn:Hq.
  - exists (rq_del_st s p sp σ).
    split_and!; [by apply rq_del_eq|by apply rq_del_wf|..]; by destruct s.
  - exists σ. split_and!; try done; [by eapply rq_del_none|].
    rewrite insert_id; [done|]. rewrite Hp. by destruct sp; simpl in *; subst.
Qed.

Lemma make_ready_queue σ p sp :
  rq_wf σ → s_held σ = true → s_procs σ !! p = Some sp → sp_oncpu sp = 0 →
  ∃ σ' pri, make_ready_run p sp σ = Ok (tt, σ') ∧ rq_wf σ' ∧ s_held σ' = false ∧
    s_procs σ' = <[p := set_sp_onq (Some (default (s_runq σ) (sp_onq sp)))
                          (ready_sproc σ sp pri)]> (s_procs σ) ∧
    s_wakes σ' = match idle_other (s_self σ) 0 (s_cpus σ) with
                 | Some i => i :: s_wakes σ | None => s_wakes σ end.
Proof.
  intros Hwf Hh Hp Hc. unfold make_ready_run. rewrite Hc. cbn [Z.eqb negb].
  destruct (off_queue σ p sp) as (σ1 & E1 & Hwf1 & Hh1 & Hp1 & Hck & Htk & Hrq & _ & Hsf & Hcp & Hwk);
    [done..|].
  unfold st_bind at 1.
  replace ((match sp_onq sp with Some _ => rq_del p | None => st_ret tt end) σ)
    with (Ok (tt, σ1)).
  2: { destruct (sp_onq sp) eqn:Hq; [done|].
       rewrite (rq_del_none p sp) in E1 by done. by simplify_eq. }
  unfold st_bind at 1, proc at 1. rewrite Hp1, lookup_insert_eq.
  unfold st_bind at 1, st_modify at 1.
  set (sp1 := set_sp_status READY (set_sp_onq None sp)).
  destruct (price_eq p sp1 (put_proc p sp1 σ1)) as (pri & sp' & E2 & -> & _);
    [by simpl; rewrite lookup_insert_eq|].
  unfold st_bind at 1. rewrite E2, put_put_proc. clear E2.
  set (sp2 := set_sp_pri pri _).
  assert (sp_onq sp2 = None ∧ sp_oncpu sp2 = 0) as [Hq2 Hc2].
  { unfold sp2, updatecpu. by case_match. }
  assert (rq_wf (put_proc p sp2 σ1)) as Hwf2.
  { eapply put_proc_wf; [done|by rewrite Hp1, lookup_insert_eq|done|done|].
    by intros _. }
  unfold st_bind at 1, st_get. unfold st_bind at 1.
  rewrite (rq_add_eq _ p sp2) by (done || by simpl; rewrite lookup_insert_eq).
  set (s0 := default _ (sp_onq sp)).
  assert (s_procs (rq_add_st s0 p sp2 (put_proc p sp2 σ1)) =
          <[p := set_sp_onq (Some s0) (ready_sproc σ sp pri)]> (s_procs σ)) as Hp3.
  { unfold rq_add_st. simpl. rewrite procs_put_set. simpl.
    rewrite Hp1, !insert_insert_eq. f_equal. unfold sp2, sp1, ready_sproc.
    simpl. rewrite Hck, Htk. unfold updatecpu. simpl. by case_match. }
  assert (rq_wf (rq_add_st s0 p sp2 (put_proc p sp2 σ1))) as Hwf3.
  { apply rq_add_wf; try done. by simpl; rewrite lookup_insert_eq. }
  unfold st_bind, sched_unlock, st_modify. cbn [s_self s_cpus put_proc set_s_procs].
  change (s_runq (put_proc p sp2 σ1)) with (s_runq σ1) in s0.
  rewrite Hsf, Hcp, <-Hrq, <-Hwk. fold s0.
  destruct (idle_other (s_self σ) 0 (s_cpus σ)) as [i|];
    (eexists _, pri; split; [done|]; split_and!;
     [try apply wf_set_wakes; by apply wf_set_held|done|exact Hp3|]);
    by destruct s0.
Qed.

(** Where a proc stands after [make_ready], by what it was before. *)
Definition made_ready (σ : sched) (sp sp' : sproc) : Prop :=
  if bool_decide (sp_status sp = STOPPED) || bool_decide (sp_status sp = BROKE)
  then sp' = sp
  else if bool_decide (sp_status sp = BLOCKED) &&
          match sp_dbg sp with Some d => d_stopreq d | None => false end
  then sp_status sp' = STOPPED ∧ sp_onq sp' = sp_onq sp ∧
       sp_dbg sp' = Some (mkKdbg false DBG_REQ DBG_REQ)
  else sp_status sp' = READY ∧
       sp_onq sp' = (if sp_oncpu sp =? 0
                     then Some (default (s_runq σ) (sp_onq sp)) else None).

Lemma make_ready_spec σ p sp :
  rq_wf σ → s_held σ = false → s_procs σ !! p = Some sp →
  ∃ σ' sp', make_ready p σ = Ok (tt, σ') ∧ rq_wf σ' ∧ s_held σ' = false ∧
    s_procs σ' = <[p := sp']> (s_procs σ) ∧ made_ready σ sp sp' ∧
    sp_oncpu sp' = sp_oncpu sp ∧ sp_frozen sp' = sp_frozen sp.
Proof.
  intros Hwf Hh Hp.
  assert (rq_wf (set_s_held true σ)) as Hwf1 by by apply wf_set_held.
  assert (set_s_held false σ = σ) as Hsh by (destruct σ; simpl in *; by subst).
  assert (∃ σ' sp', make_ready_run p sp (set_s_held true σ) = Ok (tt, σ') ∧ rq_wf σ' ∧
    s_held σ' = false ∧ s_procs σ' = <[p := sp']> (s_procs σ) ∧
    (sp_status sp' = READY ∧ sp_onq sp' = (if sp_oncpu sp =? 0
                     then Some (default (s_runq σ) (sp_onq sp)) else None)) ∧
    sp_oncpu sp' = sp_oncpu sp ∧ sp_frozen sp' = sp_frozen sp) as Hrun.
  { destruct (Z.eqb_spec (sp_oncpu sp) 0) as [Hc|Hc].
    - destruct (make_ready_queue (set_s_held true σ) p sp)
        as (σ' & pri & E & Hwf' & Hh' & Hp' & _); [done..|].
      destruct (ready_sproc_fields (set_s_held true σ) sp pri) as (? & ? & ? & ? & ? & ?).
      exists σ'. eexists. split_and!; [exact E|done|done|exact Hp'|done..].
    - destruct (make_ready_oncpu (set_s_held true σ) p sp)
        as (σ' & pri & E & Hwf' & ->); [done..|].
      destruct (ready_sproc_fields (set_s_held true σ) sp pri) as (? & Hq & ? & ? & ? & ?).
      eexists _, _. split_and!; [exact E|done|done|done|done| |done|done].
      rewrite Hq. by apply (wf_oncpu σ Hwf p). }
  unfold made_ready.
  unfold make_ready, st_bind at 1, sched_lock. rewrite Hh. unfold st_bind at 1, proc at 1.
  cbn [s_procs set_s_held]. rewrite Hp.
  destruct (bool_decide (sp_status sp = STOPPED) || bool_decide (sp_status sp = BROKE)).
  { exists σ, sp. split_and!; try done; [by rewrite <-Hsh at 2|by rewrite insert_id]. }
  destruct (sp_dbg sp) as [d|]; [|by rewrite andb_false_r].
  destruct (bool_decide (sp_status sp = BLOCKED) && d_stopreq d); [|done].
  eexists _, _. split; [reflexivity|]. split_and!; try done.
  apply wf_set_held. eapply put_proc_wf; [done|done|done|done|].
  apply (wf_oncpu σ Hwf p sp Hp).
Qed.

Lemma proc_block_spec σ p sp :
  rq_wf σ → s_held σ = false → s_procs σ !! p = Some sp →
  ∃ σ', proc_block p σ = Ok (tt, σ') ∧ rq_wf σ' ∧ s_held σ' = false ∧
    s_procs σ' = <[p := set_sp_onq None (set_sp_status BLOCKED sp)]> (s_procs σ) ∧
    (∀ s, ¬ on_set σ' s p).
Proof.
  intros Hwf Hh Hp. unfold proc_block.
  unfold st_bind at 1, sched_lock. rewrite Hh.
  unfold st_bind at 1, proc at 1. cbn [s_procs set_s_held]. rewrite Hp.
  unfold st_bind at 1, st_modify at 1.
  set (σ1 := put_proc p (set_sp_status BLOCKED sp) (set_s_held true σ)).
  assert (rq_wf σ1) as Hwf1.
  { eapply put_proc_wf; [by apply wf_set_held|done|done|done|].
    apply (wf_oncpu σ Hwf p sp Hp). }
  destruct (off_queue σ1 p (set_sp_status BLOCKED sp)) as (σ2 & E & Hwf2 & Hh2 & Hp2 & _);
    [done|done|by simpl; rewrite lookup_insert_eq|].
  unfold st_bind. rewrite E. simpl in Hp2. rewrite insert_insert_eq in Hp2.
  eexists. split_and!; [done|by apply wf_set_held|done|done|].
  intros s (sp' & Hl & Hq). simpl in Hl. rewrite Hp2, lookup_insert_eq in Hl.
  by simplify_eq.
Qed.

(** * Boot state *)

Lemma rqset_empty_bucket b : bucket rqset_empty b = [].
Proof.
  unfold bucket, rqset_empty. cbn [rq_q].
  destruct (replicate (Z.to_nat NRQ) (@nil nat) !! Z.to_nat b) as [l|] eqn:E; [|done].
  apply lookup_replicate in E as [-> _]. done.
Qed.

Lemma rqset_empty_ok : set_ok rqset_empty.
Proof.
  split; [done|..].
  - intros b _. rewrite rqset_empty_bucket. constructor.
  - intros b _. rewrite rqset_empty_bucket. cbn. apply Z.bits_0.
  - done.
Qed.

Lemma rq_init_wf σ :
  (∀ p sp, s_procs σ !! p = Some sp → sp_onq sp = None) → rq_wf (rq_init σ).
Proof.
  intros H. split.
  - intros []; apply rqset_empty_ok.
  - intros s b p _. destruct s; cbn; rewrite rqset_empty_bucket, elem_of_nil;
      (split; [done|]); intros (sp & Hp & Hq & _); by rewrite (H p sp Hp) in Hq.
  - done.
  - intros p sp Hp _. apply (H p sp Hp).
Qed.

(** A two-cpu machine whose second cpu sleeps, with one blocked proc of weight 1
    and one parked on a debugger's stop. *)
Definition demo_sproc (st : pstatus) : sproc :=
  mkSproc st None 0 0 1 0 0 0 0 0 None.
Definition demo_sched : sched :=
  rq_init (mkSched {[1%nat := demo_sproc BLOCKED; 2%nat := demo_sproc STOPPED]}
    rqset_empty rqset_empty false true [mkScpu None false; mkScpu None true] 0 false
    clock_boot 0 []).

Lemma demo_sched_wf : rq_wf demo_sched.
Proof.
  apply rq_init_wf. intros p sp. cbn [s_procs].
  rewrite lookup_insert_Some, lookup_singleton_Some. naive_solver.
Qed.

(** * What the two entry points promise *)

(** [make_ready] always returns with schedlock released and the queues well
    formed, changes no proc but [p], and leaves [p] as its state demands: a held
    proc or a corpse is untouched, a blocked proc with a pending stop request
    becomes STOPPED with the reason recorded, and any other becomes READY, on the
    set it was on (or the current lap's) unless some cpu is running it, when it is
    left off the queues for that cpu to requeue. *)
Theorem make_ready_correct σ p sp :
  rq_wf σ → s_held σ = false → s_procs σ !! p = Some sp →
  ∃ σ' sp', make_ready p σ = Ok (tt, σ') ∧ rq_wf σ' ∧ s_held σ' = false ∧
    s_procs σ' = <[p := sp']> (s_procs σ) ∧ made_ready σ sp sp' ∧
    sp_oncpu sp' = sp_oncpu sp ∧ sp_frozen sp' = sp_frozen sp.
Proof. apply make_ready_spec. Qed.

Lemma make_ready_correct_witness :
  ∃ σ' sp', make_ready 1 demo_sched = Ok (tt, σ') ∧ sp_status sp' = READY ∧
    s_procs σ' !! 1%nat = Some sp' ∧ sp_onq sp' = Some false.
Proof.
  destruct (make_ready_correct demo_sched 1 (demo_sproc BLOCKED) demo_sched_wf)
    as (σ' & sp' & E & _ & _ & Hp & [Hs Hq] & _); [done..|].
  exists σ', sp'. rewrite Hp, lookup_insert_eq. done.
Defined.

(** [proc_block] returns with schedlock released and the queues well formed,
    [p] marked BLOCKED and on neither set, and every other proc unchanged. *)
Theorem proc_block_correct σ p sp :
  rq_wf σ → s_held σ = false → s_procs σ !! p = Some sp →
  ∃ σ', proc_block p σ = Ok (tt, σ') ∧ rq_wf σ' ∧ s_held σ' = false ∧
    s_procs σ' = <[p := set_sp_onq None (set_sp_status BLOCKED sp)]> (s_procs σ) ∧
    (∀ s, ¬ on_set σ' s p).
Proof. apply proc_block_spec. Qed.

Lemma proc_block_correct_witness :
  ∃ σ', proc_block 1 demo_sched = Ok (tt, σ') ∧ rq_wf σ'.
Proof.
  destruct (proc_block_correct demo_sched 1 (demo_sproc BLOCKED) demo_sched_wf)
    as (σ' & E & Hwf & _); [done..|]. eauto.
Defined.

(** The same machine once the blocked proc has been woken. *)
Definition demo_woken : sched :=
  match make_ready 1 demo_sched with Ok (_, σ) => σ | Err _ => demo_sched end.

Lemma demo_woken_wf : rq_wf demo_woken.
Proof.
  destruct (make_ready_spec demo_sched 1 (demo_sproc BLOCKED) demo_sched_wf)
    as (σ' & sp' & E & Hwf & _); [done..|]. unfold demo_woken. by rewrite E.
Qed.

Lemma rq_take_high_highest_witness :
  ∃ σ', rq_take_high false (set_s_held true demo_woken) = Ok (Some 1%nat, σ') ∧
    rq_wf σ' ∧ ¬ on_set σ' false 1.
Proof.
  destruct (rq_take_high_highest (set_s_held true demo_woken) false)
    as (o & σ' & E & Hwf & H); [apply wf_set_held, demo_woken_wf|done|].
  assert (o = Some 1%nat) as ->.
  { vm_compute in E. by injection E as <- _. }
  exists σ'. split; [exact E|]. by destruct H as (_ & H & _).
Defined.
