(* ===== verification/Ports.v ===== *)
(** Ports, rights and message delivery: src/src/port.c over the types of
    src/src/kproc.h.

    The model is one kernel state [kst] threaded through each function, with the
    storage malloc() hands out as finite maps from addresses, so that following
    a pointer to freed storage is the fault [UseAfterFree] rather than a value.
    Addresses are never reused, which makes every dangling access visible.
    Which allocations succeed is the environment's choice: [k_mem n] says
    whether the n-th one does.

    [k_ipc] is how deep this cpu holds each ipc bucket; [IPC_ASSERT_LOCKED],
    [IPC_ASSERT_PORT] and [IPC_ASSERT_ANY] are checked against it, and taking a
    bucket while holding a higher-numbered one, which docs/locking.md forbids,
    is the fault [LockOrder]. *)

From S2P Require Import Prelude Clock Sched.
From stdpp Require Import prelude list gmap strings.
From Stdlib Require Import ZArith Lia.
Open Scope Z_scope.

(** * Data *)

Definition NIPCLOCK : nat := 8.
Definition MAXRIGHTS : Z := 512.
Definition NRIGHTS_INLINE : Z := 8.
Definition MAXMSGRIGHTS : Z := 32.
Definition MAXMSGBUFS : Z := 4.
Definition MAXMSG : Z := 64 * 1024.
Definition MAXQUEUE : Z := 64 * 1024.

(** Addresses of ports and of chunks. *)
Abbreviation ptr := nat (only parsing).

(** struct msgbufs: [p[i]], null once a receiver has taken it, and [len[i]]. *)
Abbreviation msgbufs := (list (option ptr * Z)) (only parsing).

(** struct kmsg.  [len] is the length of [m_data]; [refs], [refrecv] and
    [nrefs] are the list of port index and receive flag. *)
Record kmsg : Type := mkKmsg {
  m_data : list Z;
  m_bufs : list (option nat * Z);
  m_qcost : Z;
  m_refs : list (nat * bool)
}.

Definition set_m_data (v : list Z) (r : kmsg) : kmsg :=
  mkKmsg v (m_bufs r) (m_qcost r) (m_refs r).
Definition set_m_bufs (v : list (option nat * Z)) (r : kmsg) : kmsg :=
  mkKmsg (m_data r) v (m_qcost r) (m_refs r).
Definition set_m_qcost (v : Z) (r : kmsg) : kmsg :=
  mkKmsg (m_data r) (m_bufs r) v (m_refs r).
Definition set_m_refs (v : list (nat * bool)) (r : kmsg) : kmsg :=
  mkKmsg (m_data r) (m_bufs r) (m_qcost r) v.

(** A waiter record is the one inline in its proc, or one from the heap. *)
Inductive wid : Type := W0 (p : nat) | WH (a : nat).

#[global] Instance wid_eq_dec : EqDecision wid.
Proof. solve_decision. Defined.

#[global] Instance wid_countable : Countable wid.
Proof.
  refine (inj_countable' (λ w, match w with W0 p => inl p | WH a => inr a end)
            (λ x, match x with inl p => W0 p | inr a => WH a end) _).
  by intros [].
Defined.

Record waiter : Type := mkWaiter {
  w_p : nat;
  w_port : nat;
  w_send : bool;
  w_onport : bool
}.

Definition set_w_p (v : nat) (r : waiter) : waiter :=
  mkWaiter v (w_port r) (w_send r) (w_onport r).
Definition set_w_port (v : nat) (r : waiter) : waiter :=
  mkWaiter (w_p r) v (w_send r) (w_onport r).
Definition set_w_send (v : bool) (r : waiter) : waiter :=
  mkWaiter (w_p r) (w_port r) v (w_onport r).
Definition set_w_onport (v : bool) (r : waiter) : waiter :=
  mkWaiter (w_p r) (w_port r) (w_send r) v.

(** struct kport.  The singly linked message queue is [pt_queue], head first. *)
Record kport : Type := mkKport {
  pt_idx : nat;
  pt_used : bool;
  pt_gen : Z;
  pt_waiters : list wid;
  pt_nrights : Z;
  pt_nrecv : Z;
  pt_dead : bool;
  pt_qbytes : Z;
  pt_queue : list kmsg;
  pt_nsent : Z;
  pt_ndrop_full : Z;
  pt_ndrop_dead : Z;
  pt_qpeak : Z
}.

Definition set_pt_idx (v : nat) (r : kport) : kport :=
  mkKport v (pt_used r) (pt_gen r) (pt_waiters r) (pt_nrights r) (pt_nrecv r) (pt_dead r) (pt_qbytes r) (pt_queue r) (pt_nsent r) (pt_ndrop_full r) (pt_ndrop_dead r) (pt_qpeak r).
Definition set_pt_used (v : bool) (r : kport) : kport :=
  mkKport (pt_idx r) v (pt_gen r) (pt_waiters r) (pt_nrights r) (pt_nrecv r) (pt_dead r) (pt_qbytes r) (pt_queue r) (pt_nsent r) (pt_ndrop_full r) (pt_ndrop_dead r) (pt_qpeak r).
Definition set_pt_gen (v : Z) (r : kport) : kport :=
  mkKport (pt_idx r) (pt_used r) v (pt_waiters r) (pt_nrights r) (pt_nrecv r) (pt_dead r) (pt_qbytes r) (pt_queue r) (pt_nsent r) (pt_ndrop_full r) (pt_ndrop_dead r) (pt_qpeak r).
Definition set_pt_waiters (v : list wid) (r : kport) : kport :=
  mkKport (pt_idx r) (pt_used r) (pt_gen r) v (pt_nrights r) (pt_nrecv r) (pt_dead r) (pt_qbytes r) (pt_queue r) (pt_nsent r) (pt_ndrop_full r) (pt_ndrop_dead r) (pt_qpeak r).
Definition set_pt_nrights (v : Z) (r : kport) : kport :=
  mkKport (pt_idx r) (pt_used r) (pt_gen r) (pt_waiters r) v (pt_nrecv r) (pt_dead r) (pt_qbytes r) (pt_queue r) (pt_nsent r) (pt_ndrop_full r) (pt_ndrop_dead r) (pt_qpeak r).
Definition set_pt_nrecv (v : Z) (r : kport) : kport :=
  mkKport (pt_idx r) (pt_used r) (pt_gen r) (pt_waiters r) (pt_nrights r) v (pt_dead r) (pt_qbytes r) (pt_queue r) (pt_nsent r) (pt_ndrop_full r) (pt_ndrop_dead r) (pt_qpeak r).
Definition set_pt_dead (v : bool) (r : kport) : kport :=
  mkKport (pt_idx r) (pt_used r) (pt_gen r) (pt_waiters r) (pt_nrights r) (pt_nrecv r) v (pt_qbytes r) (pt_queue r) (pt_nsent r) (pt_ndrop_full r) (pt_ndrop_dead r) (pt_qpeak r).
Definition set_pt_qbytes (v : Z) (r : kport) : kport :=
  mkKport (pt_idx r) (pt_used r) (pt_gen r) (pt_waiters r) (pt_nrights r) (pt_nrecv r) (pt_dead r) v (pt_queue r) (pt_nsent r) (pt_ndrop_full r) (pt_ndrop_dead r) (pt_qpeak r).
Definition set_pt_queue (v : list kmsg) (r : kport) : kport :=
  mkKport (pt_idx r) (pt_used r) (pt_gen r) (pt_waiters r) (pt_nrights r) (pt_nrecv r) (pt_dead r) (pt_qbytes r) v (pt_nsent r) (pt_ndrop_full r) (pt_ndrop_dead r) (pt_qpeak r).
Definition set_pt_nsent (v : Z) (r : kport) : kport :=
  mkKport (pt_idx r) (pt_used r) (pt_gen r) (pt_waiters r) (pt_nrights r) (pt_nrecv r) (pt_dead r) (pt_qbytes r) (pt_queue r) v (pt_ndrop_full r) (pt_ndrop_dead r) (pt_qpeak r).
Definition set_pt_ndrop_full (v : Z) (r : kport) : kport :=
  mkKport (pt_idx r) (pt_used r) (pt_gen r) (pt_waiters r) (pt_nrights r) (pt_nrecv r) (pt_dead r) (pt_qbytes r) (pt_queue r) (pt_nsent r) v (pt_ndrop_dead r) (pt_qpeak r).
Definition set_pt_ndrop_dead (v : Z) (r : kport) : kport :=
  mkKport (pt_idx r) (pt_used r) (pt_gen r) (pt_waiters r) (pt_nrights r) (pt_nrecv r) (pt_dead r) (pt_qbytes r) (pt_queue r) (pt_nsent r) (pt_ndrop_full r) v (pt_qpeak r).
Definition set_pt_qpeak (v : Z) (r : kport) : kport :=
  mkKport (pt_idx r) (pt_used r) (pt_gen r) (pt_waiters r) (pt_nrights r) (pt_nrecv r) (pt_dead r) (pt_qbytes r) (pt_queue r) (pt_nsent r) (pt_ndrop_full r) (pt_ndrop_dead r) v.

Record right : Type := mkRight {
  r_port : nat;
  r_recv : bool;
  r_used : bool
}.

Definition set_r_port (v : nat) (r : right) : right :=
  mkRight v (r_recv r) (r_used r).
Definition set_r_recv (v : bool) (r : right) : right :=
  mkRight (r_port r) v (r_used r).
Definition set_r_used (v : bool) (r : right) : right :=
  mkRight (r_port r) (r_recv r) v.

(** The ipc fields of struct kproc. *)
Record iproc : Type := mkIproc {
  ip_rights : list right;
  ip_xrights : option (list right);
  ip_rhint : Z;
  ip_rhigh : Z;
  ip_nports : Z;
  ip_nports_peak : Z;
  ip_port_limit : Z;
  ip_selfidx : nat;
  ip_selfgen : Z;
  ip_waiters : list wid;
  ip_w0used : bool;
  ip_woken : bool;
  ip_grants : list (string * Z);
  ip_bufdenied : bool
}.

Definition set_ip_rights (v : list right) (r : iproc) : iproc :=
  mkIproc v (ip_xrights r) (ip_rhint r) (ip_rhigh r) (ip_nports r) (ip_nports_peak r) (ip_port_limit r) (ip_selfidx r) (ip_selfgen r) (ip_waiters r) (ip_w0used r) (ip_woken r) (ip_grants r) (ip_bufdenied r).
Definition set_ip_xrights (v : option (list right)) (r : iproc) : iproc :=
  mkIproc (ip_rights r) v (ip_rhint r) (ip_rhigh r) (ip_nports r) (ip_nports_peak r) (ip_port_limit r) (ip_selfidx r) (ip_selfgen r) (ip_waiters r) (ip_w0used r) (ip_woken r) (ip_grants r) (ip_bufdenied r).
Definition set_ip_rhint (v : Z) (r : iproc) : iproc :=
  mkIproc (ip_rights r) (ip_xrights r) v (ip_rhigh r) (ip_nports r) (ip_nports_peak r) (ip_port_limit r) (ip_selfidx r) (ip_selfgen r) (ip_waiters r) (ip_w0used r) (ip_woken r) (ip_grants r) (ip_bufdenied r).
Definition set_ip_rhigh (v : Z) (r : iproc) : iproc :=
  mkIproc (ip_rights r) (ip_xrights r) (ip_rhint r) v (ip_nports r) (ip_nports_peak r) (ip_port_limit r) (ip_selfidx r) (ip_selfgen r) (ip_waiters r) (ip_w0used r) (ip_woken r) (ip_grants r) (ip_bufdenied r).
Definition set_ip_nports (v : Z) (r : iproc) : iproc :=
  mkIproc (ip_rights r) (ip_xrights r) (ip_rhint r) (ip_rhigh r) v (ip_nports_peak r) (ip_port_limit r) (ip_selfidx r) (ip_selfgen r) (ip_waiters r) (ip_w0used r) (ip_woken r) (ip_grants r) (ip_bufdenied r).
Definition set_ip_nports_peak (v : Z) (r : iproc) : iproc :=
  mkIproc (ip_rights r) (ip_xrights r) (ip_rhint r) (ip_rhigh r) (ip_nports r) v (ip_port_limit r) (ip_selfidx r) (ip_selfgen r) (ip_waiters r) (ip_w0used r) (ip_woken r) (ip_grants r) (ip_bufdenied r).
Definition set_ip_port_limit (v : Z) (r : iproc) : iproc :=
  mkIproc (ip_rights r) (ip_xrights r) (ip_rhint r) (ip_rhigh r) (ip_nports r) (ip_nports_peak r) v (ip_selfidx r) (ip_selfgen r) (ip_waiters r) (ip_w0used r) (ip_woken r) (ip_grants r) (ip_bufdenied r).
Definition set_ip_selfidx (v : nat) (r : iproc) : iproc :=
  mkIproc (ip_rights r) (ip_xrights r) (ip_rhint r) (ip_rhigh r) (ip_nports r) (ip_nports_peak r) (ip_port_limit r) v (ip_selfgen r) (ip_waiters r) (ip_w0used r) (ip_woken r) (ip_grants r) (ip_bufdenied r).
Definition set_ip_selfgen (v : Z) (r : iproc) : iproc :=
  mkIproc (ip_rights r) (ip_xrights r) (ip_rhint r) (ip_rhigh r) (ip_nports r) (ip_nports_peak r) (ip_port_limit r) (ip_selfidx r) v (ip_waiters r) (ip_w0used r) (ip_woken r) (ip_grants r) (ip_bufdenied r).
Definition set_ip_waiters (v : list wid) (r : iproc) : iproc :=
  mkIproc (ip_rights r) (ip_xrights r) (ip_rhint r) (ip_rhigh r) (ip_nports r) (ip_nports_peak r) (ip_port_limit r) (ip_selfidx r) (ip_selfgen r) v (ip_w0used r) (ip_woken r) (ip_grants r) (ip_bufdenied r).
Definition set_ip_w0used (v : bool) (r : iproc) : iproc :=
  mkIproc (ip_rights r) (ip_xrights r) (ip_rhint r) (ip_rhigh r) (ip_nports r) (ip_nports_peak r) (ip_port_limit r) (ip_selfidx r) (ip_selfgen r) (ip_waiters r) v (ip_woken r) (ip_grants r) (ip_bufdenied r).
Definition set_ip_woken (v : bool) (r : iproc) : iproc :=
  mkIproc (ip_rights r) (ip_xrights r) (ip_rhint r) (ip_rhigh r) (ip_nports r) (ip_nports_peak r) (ip_port_limit r) (ip_selfidx r) (ip_selfgen r) (ip_waiters r) (ip_w0used r) v (ip_grants r) (ip_bufdenied r).
Definition set_ip_grants (v : list (string * Z)) (r : iproc) : iproc :=
  mkIproc (ip_rights r) (ip_xrights r) (ip_rhint r) (ip_rhigh r) (ip_nports r) (ip_nports_peak r) (ip_port_limit r) (ip_selfidx r) (ip_selfgen r) (ip_waiters r) (ip_w0used r) (ip_woken r) v (ip_bufdenied r).
Definition set_ip_bufdenied (v : bool) (r : iproc) : iproc :=
  mkIproc (ip_rights r) (ip_xrights r) (ip_rhint r) (ip_rhigh r) (ip_nports r) (ip_nports_peak r) (ip_port_limit r) (ip_selfidx r) (ip_selfgen r) (ip_waiters r) (ip_w0used r) (ip_woken r) (ip_grants r) v.

(** struct ktimer: the port it will push to, null for a free slot, and the
    deadline. *)
Abbreviation ktimer := (option nat * Z)%type.

(** The memory accounting of struct kproc: kalloc's and los.buf's. *)
Record acct : Type := mkAcct {
  mem_used : Z;
  mem_limit : Z;
  mem_peak : Z;
  buf_used : Z;
  buf_debt : Z;
  gc_owed : Z
}.

Definition set_mem_used (v : Z) (r : acct) : acct :=
  mkAcct v (mem_limit r) (mem_peak r) (buf_used r) (buf_debt r) (gc_owed r).
Definition set_mem_limit (v : Z) (r : acct) : acct :=
  mkAcct (mem_used r) v (mem_peak r) (buf_used r) (buf_debt r) (gc_owed r).
Definition set_mem_peak (v : Z) (r : acct) : acct :=
  mkAcct (mem_used r) (mem_limit r) v (buf_used r) (buf_debt r) (gc_owed r).
Definition set_buf_used (v : Z) (r : acct) : acct :=
  mkAcct (mem_used r) (mem_limit r) (mem_peak r) v (buf_debt r) (gc_owed r).
Definition set_buf_debt (v : Z) (r : acct) : acct :=
  mkAcct (mem_used r) (mem_limit r) (mem_peak r) (buf_used r) v (gc_owed r).
Definition set_gc_owed (v : Z) (r : acct) : acct :=
  mkAcct (mem_used r) (mem_limit r) (mem_peak r) (buf_used r) (buf_debt r) v.

(** The kernel state.  [k_maxports] is the platform's MAXPORTS and [k_szbits] the
    width of its size_t, [k_timers] the timer table of timer.c, [k_krefs] the ports
    kernel_init's file-scope pointers keep, one entry per reference it counted,
    [k_chunks] the chunks handed out and not yet freed, [k_bytes] what a chunk
    holds, and [k_acct] each proc's memory accounting. *)
Record kst : Type := mkKst {
  k_ports : gmap nat kport;
  k_portv : gmap nat nat;
  k_maxports : nat;
  k_szbits : Z;
  k_porthigh : Z;
  k_portgen : Z;
  k_hangup_gen : Z;
  k_rights_high : Z;
  k_claim_won : Z;
  k_claim_lost : Z;
  k_procs : gmap nat iproc;
  k_waiters : gmap wid waiter;
  k_chunks : gset nat;
  k_bytes : gmap nat (list Z);
  k_acct : gmap nat acct;
  k_timers : list ktimer;
  k_krefs : list nat;
  k_ipc : list nat;
  k_drop_full : Z;
  k_drop_dead : Z;
  k_mem : nat → bool;
  k_nalloc : nat;
  k_next : nat;
  k_sch : sched
}.

Definition set_k_ports (v : gmap nat kport) (r : kst) : kst :=
  mkKst v (k_portv r) (k_maxports r) (k_szbits r) (k_porthigh r) (k_portgen r) (k_hangup_gen r) (k_rights_high r) (k_claim_won r) (k_claim_lost r) (k_procs r) (k_waiters r) (k_chunks r) (k_bytes r) (k_acct r) (k_timers r) (k_krefs r) (k_ipc r) (k_drop_full r) (k_drop_dead r) (k_mem r) (k_nalloc r) (k_next r) (k_sch r).
Definition set_k_portv (v : gmap nat nat) (r : kst) : kst :=
  mkKst (k_ports r) v (k_maxports r) (k_szbits r) (k_porthigh r) (k_portgen r) (k_hangup_gen r) (k_rights_high r) (k_claim_won r) (k_claim_lost r) (k_procs r) (k_waiters r) (k_chunks r) (k_bytes r) (k_acct r) (k_timers r) (k_krefs r) (k_ipc r) (k_drop_full r) (k_drop_dead r) (k_mem r) (k_nalloc r) (k_next r) (k_sch r).
Definition set_k_maxports (v : nat) (r : kst) : kst :=
  mkKst (k_ports r) (k_portv r) v (k_szbits r) (k_porthigh r) (k_portgen r) (k_hangup_gen r) (k_rights_high r) (k_claim_won r) (k_claim_lost r) (k_procs r) (k_waiters r) (k_chunks r) (k_bytes r) (k_acct r) (k_timers r) (k_krefs r) (k_ipc r) (k_drop_full r) (k_drop_dead r) (k_mem r) (k_nalloc r) (k_next r) (k_sch r).
Definition set_k_szbits (v : Z) (r : kst) : kst :=
  mkKst (k_ports r) (k_portv r) (k_maxports r) v (k_porthigh r) (k_portgen r) (k_hangup_gen r) (k_rights_high r) (k_claim_won r) (k_claim_lost r) (k_procs r) (k_waiters r) (k_chunks r) (k_bytes r) (k_acct r) (k_timers r) (k_krefs r) (k_ipc r) (k_drop_full r) (k_drop_dead r) (k_mem r) (k_nalloc r) (k_next r) (k_sch r).
Definition set_k_porthigh (v : Z) (r : kst) : kst :=
  mkKst (k_ports r) (k_portv r) (k_maxports r) (k_szbits r) v (k_portgen r) (k_hangup_gen r) (k_rights_high r) (k_claim_won r) (k_claim_lost r) (k_procs r) (k_waiters r) (k_chunks r) (k_bytes r) (k_acct r) (k_timers r) (k_krefs r) (k_ipc r) (k_drop_full r) (k_drop_dead r) (k_mem r) (k_nalloc r) (k_next r) (k_sch r).
Definition set_k_portgen (v : Z) (r : kst) : kst :=
  mkKst (k_ports r) (k_portv r) (k_maxports r) (k_szbits r) (k_porthigh r) v (k_hangup_gen r) (k_rights_high r) (k_claim_won r) (k_claim_lost r) (k_procs r) (k_waiters r) (k_chunks r) (k_bytes r) (k_acct r) (k_timers r) (k_krefs r) (k_ipc r) (k_drop_full r) (k_drop_dead r) (k_mem r) (k_nalloc r) (k_next r) (k_sch r).
Definition set_k_hangup_gen (v : Z) (r : kst) : kst :=
  mkKst (k_ports r) (k_portv r) (k_maxports r) (k_szbits r) (k_porthigh r) (k_portgen r) v (k_rights_high r) (k_claim_won r) (k_claim_lost r) (k_procs r) (k_waiters r) (k_chunks r) (k_bytes r) (k_acct r) (k_timers r) (k_krefs r) (k_ipc r) (k_drop_full r) (k_drop_dead r) (k_mem r) (k_nalloc r) (k_next r) (k_sch r).
Definition set_k_rights_high (v : Z) (r : kst) : kst :=
  mkKst (k_ports r) (k_portv r) (k_maxports r) (k_szbits r) (k_porthigh r) (k_portgen r) (k_hangup_gen r) v (k_claim_won r) (k_claim_lost r) (k_procs r) (k_waiters r) (k_chunks r) (k_bytes r) (k_acct r) (k_timers r) (k_krefs r) (k_ipc r) (k_drop_full r) (k_drop_dead r) (k_mem r) (k_nalloc r) (k_next r) (k_sch r).
Definition set_k_claim_won (v : Z) (r : kst) : kst :=
  mkKst (k_ports r) (k_portv r) (k_maxports r) (k_szbits r) (k_porthigh r) (k_portgen r) (k_hangup_gen r) (k_rights_high r) v (k_claim_lost r) (k_procs r) (k_waiters r) (k_chunks r) (k_bytes r) (k_acct r) (k_timers r) (k_krefs r) (k_ipc r) (k_drop_full r) (k_drop_dead r) (k_mem r) (k_nalloc r) (k_next r) (k_sch r).
Definition set_k_claim_lost (v : Z) (r : kst) : kst :=
  mkKst (k_ports r) (k_portv r) (k_maxports r) (k_szbits r) (k_porthigh r) (k_portgen r) (k_hangup_gen r) (k_rights_high r) (k_claim_won r) v (k_procs r) (k_waiters r) (k_chunks r) (k_bytes r) (k_acct r) (k_timers r) (k_krefs r) (k_ipc r) (k_drop_full r) (k_drop_dead r) (k_mem r) (k_nalloc r) (k_next r) (k_sch r).
Definition set_k_procs (v : gmap nat iproc) (r : kst) : kst :=
  mkKst (k_ports r) (k_portv r) (k_maxports r) (k_szbits r) (k_porthigh r) (k_portgen r) (k_hangup_gen r) (k_rights_high r) (k_claim_won r) (k_claim_lost r) v (k_waiters r) (k_chunks r) (k_bytes r) (k_acct r) (k_timers r) (k_krefs r) (k_ipc r) (k_drop_full r) (k_drop_dead r) (k_mem r) (k_nalloc r) (k_next r) (k_sch r).
Definition set_k_waiters (v : gmap wid waiter) (r : kst) : kst :=
  mkKst (k_ports r) (k_portv r) (k_maxports r) (k_szbits r) (k_porthigh r) (k_portgen r) (k_hangup_gen r) (k_rights_high r) (k_claim_won r) (k_claim_lost r) (k_procs r) v (k_chunks r) (k_bytes r) (k_acct r) (k_timers r) (k_krefs r) (k_ipc r) (k_drop_full r) (k_drop_dead r) (k_mem r) (k_nalloc r) (k_next r) (k_sch r).
Definition set_k_chunks (v : gset nat) (r : kst) : kst :=
  mkKst (k_ports r) (k_portv r) (k_maxports r) (k_szbits r) (k_porthigh r) (k_portgen r) (k_hangup_gen r) (k_rights_high r) (k_claim_won r) (k_claim_lost r) (k_procs r) (k_waiters r) v (k_bytes r) (k_acct r) (k_timers r) (k_krefs r) (k_ipc r) (k_drop_full r) (k_drop_dead r) (k_mem r) (k_nalloc r) (k_next r) (k_sch r).
Definition set_k_bytes (v : gmap nat (list Z)) (r : kst) : kst :=
  mkKst (k_ports r) (k_portv r) (k_maxports r) (k_szbits r) (k_porthigh r) (k_portgen r) (k_hangup_gen r) (k_rights_high r) (k_claim_won r) (k_claim_lost r) (k_procs r) (k_waiters r) (k_chunks r) v (k_acct r) (k_timers r) (k_krefs r) (k_ipc r) (k_drop_full r) (k_drop_dead r) (k_mem r) (k_nalloc r) (k_next r) (k_sch r).
Definition set_k_acct (v : gmap nat acct) (r : kst) : kst :=
  mkKst (k_ports r) (k_portv r) (k_maxports r) (k_szbits r) (k_porthigh r) (k_portgen r) (k_hangup_gen r) (k_rights_high r) (k_claim_won r) (k_claim_lost r) (k_procs r) (k_waiters r) (k_chunks r) (k_bytes r) v (k_timers r) (k_krefs r) (k_ipc r) (k_drop_full r) (k_drop_dead r) (k_mem r) (k_nalloc r) (k_next r) (k_sch r).
Definition set_k_timers (v : list ktimer) (r : kst) : kst :=
  mkKst (k_ports r) (k_portv r) (k_maxports r) (k_szbits r) (k_porthigh r) (k_portgen r) (k_hangup_gen r) (k_rights_high r) (k_claim_won r) (k_claim_lost r) (k_procs r) (k_waiters r) (k_chunks r) (k_bytes r) (k_acct r) v (k_krefs r) (k_ipc r) (k_drop_full r) (k_drop_dead r) (k_mem r) (k_nalloc r) (k_next r) (k_sch r).
Definition set_k_krefs (v : list nat) (r : kst) : kst :=
  mkKst (k_ports r) (k_portv r) (k_maxports r) (k_szbits r) (k_porthigh r) (k_portgen r) (k_hangup_gen r) (k_rights_high r) (k_claim_won r) (k_claim_lost r) (k_procs r) (k_waiters r) (k_chunks r) (k_bytes r) (k_acct r) (k_timers r) v (k_ipc r) (k_drop_full r) (k_drop_dead r) (k_mem r) (k_nalloc r) (k_next r) (k_sch r).
Definition set_k_ipc (v : list nat) (r : kst) : kst :=
  mkKst (k_ports r) (k_portv r) (k_maxports r) (k_szbits r) (k_porthigh r) (k_portgen r) (k_hangup_gen r) (k_rights_high r) (k_claim_won r) (k_claim_lost r) (k_procs r) (k_waiters r) (k_chunks r) (k_bytes r) (k_acct r) (k_timers r) (k_krefs r) v (k_drop_full r) (k_drop_dead r) (k_mem r) (k_nalloc r) (k_next r) (k_sch r).
Definition set_k_drop_full (v : Z) (r : kst) : kst :=
  mkKst (k_ports r) (k_portv r) (k_maxports r) (k_szbits r) (k_porthigh r) (k_portgen r) (k_hangup_gen r) (k_rights_high r) (k_claim_won r) (k_claim_lost r) (k_procs r) (k_waiters r) (k_chunks r) (k_bytes r) (k_acct r) (k_timers r) (k_krefs r) (k_ipc r) v (k_drop_dead r) (k_mem r) (k_nalloc r) (k_next r) (k_sch r).
Definition set_k_drop_dead (v : Z) (r : kst) : kst :=
  mkKst (k_ports r) (k_portv r) (k_maxports r) (k_szbits r) (k_porthigh r) (k_portgen r) (k_hangup_gen r) (k_rights_high r) (k_claim_won r) (k_claim_lost r) (k_procs r) (k_waiters r) (k_chunks r) (k_bytes r) (k_acct r) (k_timers r) (k_krefs r) (k_ipc r) (k_drop_full r) v (k_mem r) (k_nalloc r) (k_next r) (k_sch r).
Definition set_k_mem (v : nat → bool) (r : kst) : kst :=
  mkKst (k_ports r) (k_portv r) (k_maxports r) (k_szbits r) (k_porthigh r) (k_portgen r) (k_hangup_gen r) (k_rights_high r) (k_claim_won r) (k_claim_lost r) (k_procs r) (k_waiters r) (k_chunks r) (k_bytes r) (k_acct r) (k_timers r) (k_krefs r) (k_ipc r) (k_drop_full r) (k_drop_dead r) v (k_nalloc r) (k_next r) (k_sch r).
Definition set_k_nalloc (v : nat) (r : kst) : kst :=
  mkKst (k_ports r) (k_portv r) (k_maxports r) (k_szbits r) (k_porthigh r) (k_portgen r) (k_hangup_gen r) (k_rights_high r) (k_claim_won r) (k_claim_lost r) (k_procs r) (k_waiters r) (k_chunks r) (k_bytes r) (k_acct r) (k_timers r) (k_krefs r) (k_ipc r) (k_drop_full r) (k_drop_dead r) (k_mem r) v (k_next r) (k_sch r).
Definition set_k_next (v : nat) (r : kst) : kst :=
  mkKst (k_ports r) (k_portv r) (k_maxports r) (k_szbits r) (k_porthigh r) (k_portgen r) (k_hangup_gen r) (k_rights_high r) (k_claim_won r) (k_claim_lost r) (k_procs r) (k_waiters r) (k_chunks r) (k_bytes r) (k_acct r) (k_timers r) (k_krefs r) (k_ipc r) (k_drop_full r) (k_drop_dead r) (k_mem r) (k_nalloc r) v (k_sch r).
Definition set_k_sch (v : sched) (r : kst) : kst :=
  mkKst (k_ports r) (k_portv r) (k_maxports r) (k_szbits r) (k_porthigh r) (k_portgen r) (k_hangup_gen r) (k_rights_high r) (k_claim_won r) (k_claim_lost r) (k_procs r) (k_waiters r) (k_chunks r) (k_bytes r) (k_acct r) (k_timers r) (k_krefs r) (k_ipc r) (k_drop_full r) (k_drop_dead r) (k_mem r) (k_nalloc r) (k_next r) v.

Abbreviation KM := (ST kst).

(** * Storage *)

Definition get_port (q : nat) : KM kport := λ σ,
  match k_ports σ !! q with Some pt => Ok (pt, σ) | None => Err UseAfterFree end.
Definition put_port (q : nat) (pt : kport) : KM unit :=
  st_modify (λ σ, set_k_ports (<[q:=pt]> (k_ports σ)) σ).
(** [*q] updated in place. *)
Definition upd_port (q : nat) (f : kport → kport) : KM unit :=
  let! pt := get_port q in put_port q (f pt).

Definition get_iproc (p : nat) : KM iproc := λ σ,
  match k_procs σ !! p with Some ip => Ok (ip, σ) | None => Err NullDeref end.
Definition put_iproc (p : nat) (ip : iproc) : KM unit :=
  st_modify (λ σ, set_k_procs (<[p:=ip]> (k_procs σ)) σ).
Definition upd_iproc (p : nat) (f : iproc → iproc) : KM unit :=
  let! ip := get_iproc p in put_iproc p (f ip).

Definition get_waiter (w : wid) : KM waiter := λ σ,
  match k_waiters σ !! w with Some x => Ok (x, σ) | None => Err UseAfterFree end.
Definition put_waiter (w : wid) (x : waiter) : KM unit :=
  st_modify (λ σ, set_k_waiters (<[w:=x]> (k_waiters σ)) σ).

(** malloc(): a fresh address, or null. *)
Definition malloc : KM (option nat) := λ σ,
  let σ' := set_k_nalloc (S (k_nalloc σ)) σ in
  if k_mem σ (k_nalloc σ)
  then Ok (Some (k_next σ), set_k_next (S (k_next σ)) σ')
  else Ok (None, σ').

(** platform_chunk_free() of a transferred buffer. *)
Definition chunk_free (c : nat) : KM unit := λ σ,
  if decide (c ∈ k_chunks σ)
  then Ok (tt, set_k_chunks (k_chunks σ ∖ {[c]}) σ) else Err DoubleFree.

(** A step of the scheduler's part of the state. *)
Definition lift_s {A} (m : SM A) : KM A := λ σ,
  match m (k_sch σ) with
  | Ok (a, s) => Ok (a, set_k_sch s σ)
  | Err e => Err e
  end.

(** KSTAT_GET(p->status). *)
Definition status_of (p : nat) : KM pstatus :=
  let! sp := lift_s (proc p) in st_ret (sp_status sp).

(** * The ipc buckets *)

Definition ipcbucket_of (pt : kport) : nat := Nat.land (pt_idx pt) (NIPCLOCK - 1).

Definition depth (i : nat) (σ : kst) : nat := default 0%nat (k_ipc σ !! i).
Definition ipcheld_one (i : nat) (σ : kst) : bool := (0 <? depth i σ)%nat.
Definition ipcheld (σ : kst) : bool := forallb (λ i, ipcheld_one i σ) (seq 0 NIPCLOCK).
Definition ipcheld_any (σ : kst) : bool := existsb (λ i, ipcheld_one i σ) (seq 0 NIPCLOCK).
Definition ipcheld_one_port (pt : kport) (σ : kst) : bool :=
  ipcheld_one (ipcbucket_of pt) σ.

Definition IPC_ASSERT_LOCKED : KM unit := λ σ,
  if ipcheld σ then Ok (tt, σ) else Err AbortNotLocked.
Definition IPC_ASSERT_PORT (q : nat) : KM unit :=
  let! pt := get_port q in
  λ σ, if ipcheld_one_port pt σ then Ok (tt, σ) else Err AbortNotLocked.
Definition IPC_ASSERT_ANY : KM unit := λ σ,
  if ipcheld_any σ then Ok (tt, σ) else Err AbortNotLocked.

(** A bucket this cpu owns is only counted deeper; another is taken, and must
    not be below one already held. *)
Definition ipclock_enter_one (i : nat) : KM unit := λ σ,
  if ipcheld_one i σ
  then Ok (tt, set_k_ipc (<[i := S (depth i σ)]> (k_ipc σ)) σ)
  else if existsb (λ j, ipcheld_one j σ) (seq (S i) (NIPCLOCK - S i))
  then Err LockOrder
  else Ok (tt, set_k_ipc (<[i := 1%nat]> (k_ipc σ)) σ).

Definition ipclock_leave_one (i : nat) : KM unit :=
  st_modify (λ σ, set_k_ipc (<[i := pred (depth i σ)]> (k_ipc σ)) σ).

Definition ipclock_enter_port (q : nat) : KM unit :=
  let! pt := get_port q in ipclock_enter_one (ipcbucket_of pt).
Definition ipclock_leave_port (q : nat) : KM unit :=
  let! pt := get_port q in ipclock_leave_one (ipcbucket_of pt).

Definition ipclock_enter : KM unit := st_iter ipclock_enter_one (seq 0 NIPCLOCK).
Definition ipclock_leave : KM unit := st_iter ipclock_leave_one (rev (seq 0 NIPCLOCK)).

(** * Wait lists *)

(** wait_add; false when the heap refused a waiter. *)
Definition wait_add (p q : nat) (send : bool) : KM bool :=
  IPC_ASSERT_PORT q ;;;
  let! ip := get_iproc p in
  let! w := (if negb (ip_w0used ip)
             then put_iproc p (set_ip_w0used true ip) ;;; st_ret (Some (W0 p))
             else let! a := malloc in st_ret (WH <$> a)) in
  match w with
  | None => st_ret false
  | Some w =>
      put_waiter w (mkWaiter p q send true) ;;;
      upd_port q (λ pt, set_pt_waiters (pt_waiters pt ++ [w]) pt) ;;;
      upd_iproc p (λ ip, set_ip_waiters (w :: ip_waiters ip) ip) ;;;
      st_ret true
  end.

(** TAILQ_REMOVE(&q->waiters, w, pq). *)
Definition waiter_unlink (w : wid) (q : nat) : KM unit :=
  let! pt := get_port q in
  if decide (w ∈ pt_waiters pt)
  then put_port q (set_pt_waiters (filter (λ x, x ≠ w) (pt_waiters pt)) pt)
  else st_fail BadUnlink.

(** The storage of a waiter given back: the inline one to its proc, another to
    the heap. *)
Definition waiter_free (p : nat) (w : wid) : KM unit :=
  if decide (w = W0 p) then upd_iproc p (set_ip_w0used false)
  else st_modify (λ σ, set_k_waiters (delete w (k_waiters σ)) σ).

(** One turn of wait_clear's loop, on the waiter SLIST_REMOVE_HEAD took. *)
Definition wait_clear_one (p : nat) (w : wid) : KM unit :=
  upd_iproc p (λ ip, set_ip_waiters (tail (ip_waiters ip)) ip) ;;;
  let! x := get_waiter w in
  st_when (w_onport x) (waiter_unlink w (w_port x)) ;;;
  waiter_free p w.

Definition wait_clear (p : nat) : KM unit :=
  IPC_ASSERT_LOCKED ;;;
  let! ip := get_iproc p in
  st_iter (wait_clear_one p) (ip_waiters ip).

(** The same turn of wait_reap, under the one bucket of the waiter's port. *)
Definition wait_reap_one (p : nat) (w : wid) : KM unit :=
  upd_iproc p (λ ip, set_ip_waiters (tail (ip_waiters ip)) ip) ;;;
  let! x := get_waiter w in
  st_when (w_onport x)
    (ipclock_enter_port (w_port x) ;;;
     let! x := get_waiter w in
     st_when (w_onport x)
       (waiter_unlink w (w_port x) ;;; put_waiter w (set_w_onport false x)) ;;;
     ipclock_leave_port (w_port x)) ;;;
  waiter_free p w.

Definition wait_reap (p : nat) : KM unit :=
  let! ip := get_iproc p in
  st_iter (wait_reap_one p) (ip_waiters ip) ;;;
  upd_iproc p (set_ip_woken false).

(** The compare-and-swap of [woken] from 0 to 1. *)
Definition wake_claim (p : nat) : KM bool :=
  let! ip := get_iproc p in
  if ip_woken ip
  then st_modify (λ σ, set_k_claim_lost (k_claim_lost σ + 1) σ) ;;; st_ret false
  else put_iproc p (set_ip_woken true ip) ;;;
       st_modify (λ σ, set_k_claim_won (k_claim_won σ + 1) σ) ;;; st_ret true.

(** make_ready and proc_block, with the ipc assertion each opens with. *)
Definition make_ready_ipc (p : nat) : KM unit := IPC_ASSERT_ANY ;;; lift_s (make_ready p).
Definition proc_block_ipc (p : nat) : KM unit := IPC_ASSERT_ANY ;;; lift_s (proc_block p).

(** One waiter of the wake loops; [send] is the kind the loop is for. *)
Definition wake_one (send : bool) (q : nat) (w : wid) : KM unit :=
  let! x := get_waiter w in
  if negb (Bool.eqb (w_send x) send) then st_ret tt else
  let! st := status_of (w_p x) in
  if negb (bool_decide (st = BLOCKED)) then st_ret tt else
  let! won := wake_claim (w_p x) in
  if negb won then st_ret tt else
  waiter_unlink w q ;;;
  put_waiter w (set_w_onport false x) ;;;
  make_ready_ipc (w_p x).

(** TAILQ_FOREACH_SAFE saves the next link before the body runs, and the body
    unlinks only its own element, so the loop visits the list as it was. *)
Definition wake_waiters (send : bool) (q : nat) : KM unit :=
  IPC_ASSERT_PORT q ;;;
  let! pt := get_port q in
  st_iter (wake_one send q) (pt_waiters pt).

Definition wake_receivers : nat → KM unit := wake_waiters false.
Definition wake_senders : nat → KM unit := wake_waiters true.

(** * References *)

Definition msgbufs_free (b : msgbufs) : KM unit :=
  st_iter (λ e, match fst e with Some c => chunk_free c | None => st_ret tt end) b.

Definition msgbufs_bytes (b : msgbufs) : Z := zsum snd b.

(** One in-flight right given back; [unref] is port_unref. *)
Definition release_one (unref : nat → KM unit) (ref : nat * bool) : KM unit :=
  let! σ := st_get in
  match k_portv σ !! fst ref with
  | None => st_ret tt
  | Some q =>
      st_when (snd ref) (upd_port q (λ pt, set_pt_nrecv (pt_nrecv pt - 1) pt)) ;;;
      unref q
  end.

Definition release_inflight_with (unref : nat → KM unit) (refs : list (nat * bool))
    : KM unit :=
  match refs with
  | [] => st_ret tt
  | _ => IPC_ASSERT_LOCKED ;;; st_iter (release_one unref) refs
  end.

Definition msg_free_with (unref : nat → KM unit) (m : kmsg) : KM unit :=
  release_inflight_with unref (m_refs m) ;;; msgbufs_free (m_bufs m).

Definition port_flush_with (unref : nat → KM unit) (q : nat) : KM unit :=
  let! pt := get_port q in
  put_port q (set_pt_qbytes 0 (set_pt_queue [] pt)) ;;;
  st_iter (msg_free_with unref) (pt_queue pt).

(** portv[port->idx] = 0; free(port). *)
Definition port_free (q : nat) : KM unit :=
  let! pt := get_port q in
  st_modify (λ σ, set_k_ports (delete q (k_ports σ))
                    (set_k_portv (delete (pt_idx pt) (k_portv σ)) σ)).

(** One activation of port_unref, [unref] being the calls it makes through
    port_flush. *)
Definition port_unref_body (unref : nat → KM unit) (q : nat) : KM unit :=
  IPC_ASSERT_LOCKED ;;;
  upd_port q (λ pt, set_pt_nrights (pt_nrights pt - 1) pt) ;;;
  let! pt := get_port q in
  if pt_nrights pt <=? 0 then port_flush_with unref q ;;; port_free q
  else
    st_when ((pt_nrecv pt =? 0) && negb (pt_dead pt))
      (upd_port q (set_pt_dead true) ;;; port_flush_with unref q) ;;;
    st_modify (λ σ, set_k_hangup_gen (k_hangup_gen σ + 1) σ) ;;;
    wake_receivers q ;;;
    wake_senders q.

(** Each activation below the first belongs to a message that has been taken off
    its queue, so the messages queued bound the depth. *)
Fixpoint port_unref_fuel (n : nat) (q : nat) : KM unit :=
  match n with
  | O => st_fail OutOfFuel
  | S n => port_unref_body (port_unref_fuel n) q
  end.

Definition queued (σ : kst) : nat :=
  map_fold (λ _ pt n, length (pt_queue pt) + n)%nat 0%nat (k_ports σ).

Definition port_unref (q : nat) : KM unit := λ σ, port_unref_fuel (S (queued σ)) q σ.

Definition release_inflight : list (nat * bool) → KM unit := release_inflight_with port_unref.
Definition msg_free : kmsg → KM unit := msg_free_with port_unref.
Definition port_flush : nat → KM unit := port_flush_with port_unref.

(** * The port table *)

(** The first null slot of [portv], counting [n] slots from [i]. *)
Fixpoint free_slot (v : gmap nat nat) (i n : nat) : option nat :=
  match n with
  | O => None
  | S n => match v !! i with None => Some i | Some _ => free_slot v (S i) n end
  end.

Definition port_new : KM (option nat) :=
  let! σ := st_get in
  match free_slot (k_portv σ) 0 (k_maxports σ) with
  | None => st_ret None
  | Some i =>
      let! a := malloc in
      match a with
      | None => st_ret None
      | Some q =>
          let! σ := st_get in
          let gen := u64 (k_portgen σ + 1) in
          st_modify (set_k_portgen gen) ;;;
          put_port q (mkKport (Z.to_nat (u16 (Z.of_nat i))) true gen [] 0 0 false 0 [] 0 0 0 0) ;;;
          st_modify (λ σ, set_k_portv (<[i:=q]> (k_portv σ)) σ) ;;;
          st_modify (λ σ, if k_porthigh σ <=? Z.of_nat i
                          then set_k_porthigh (Z.of_nat i + 1) σ else σ) ;;;
          st_ret (Some q)
      end
  end.

Definition port_budget_left (ip : iproc) : bool :=
  (ip_port_limit ip =? 0) || (ip_nports ip <? ip_port_limit ip).

Definition proc_selfport (ip : iproc) : KM (option nat) :=
  if ip_selfgen ip =? 0 then st_ret None else
  let! σ := st_get in
  match k_portv σ !! ip_selfidx ip with
  | None => st_ret None
  | Some q => let! pt := get_port q in
              st_ret (if pt_gen pt =? ip_selfgen ip then Some q else None)
  end.

(** * Right tables *)

Definition right_zero : right := mkRight 0 false false.

Definition right_slot (ip : iproc) (h : Z) : option right :=
  if (h <? 0) || (MAXRIGHTS <=? h) then None
  else if h <? NRIGHTS_INLINE then ip_rights ip !! Z.to_nat h
  else match ip_xrights ip with
       | None => None
       | Some xs => xs !! Z.to_nat (h - NRIGHTS_INLINE)
       end.

(** A store through the pointer right_slot returned for [h]. *)
Definition put_right (h : Z) (r : right) (ip : iproc) : iproc :=
  if h <? NRIGHTS_INLINE then set_ip_rights (<[Z.to_nat h := r]> (ip_rights ip)) ip
  else match ip_xrights ip with
       | None => ip
       | Some xs => set_ip_xrights (Some (<[Z.to_nat (h - NRIGHTS_INLINE) := r]> xs)) ip
       end.

Definition right_slot_grow (p : nat) (h : Z) : KM (option right) :=
  let! ip := get_iproc p in
  if (h <? 0) || (MAXRIGHTS <=? h) then st_ret None
  else if h <? NRIGHTS_INLINE then st_ret (right_slot ip h)
  else match ip_xrights ip with
       | Some _ => st_ret (right_slot ip h)
       | None =>
           let! a := malloc in
           match a with
           | None => st_ret None
           | Some _ =>
               let ip := set_ip_xrights
                 (Some (replicate (Z.to_nat (MAXRIGHTS - NRIGHTS_INLINE)) right_zero)) ip in
               put_iproc p ip ;;; st_ret (right_slot ip h)
           end
       end.

(** right_new's writes, once slot [i] has been found free. *)
Definition right_take (p q : nat) (recv : bool) (i : Z) : KM Z :=
  st_modify (λ σ, if k_rights_high σ <? i + 1 then set_k_rights_high (i + 1) σ else σ) ;;;
  upd_iproc p (put_right i (mkRight q recv true)) ;;;
  upd_port q (λ pt, set_pt_nrights (pt_nrights pt + 1) pt) ;;;
  st_when recv
    (upd_port q (λ pt, set_pt_nrecv (pt_nrecv pt + 1) pt) ;;;
     upd_iproc p (λ ip,
       let ip := set_ip_nports (ip_nports ip + 1) ip in
       if ip_nports_peak ip <? ip_nports ip
       then set_ip_nports_peak (ip_nports ip) ip else ip)) ;;;
  upd_iproc p (set_ip_rhint (i + 1)) ;;;
  upd_iproc p (λ ip, if ip_rhigh ip <? i + 1 then set_ip_rhigh (i + 1) ip else ip) ;;;
  st_ret i.

(** The scan of right_new, [n] slots from [i]. *)
Fixpoint right_scan (n : nat) (i : Z) (p q : nat) (recv : bool) : KM Z :=
  match n with
  | O => st_ret (-1)
  | S n =>
      let! r := right_slot_grow p i in
      match r with
      | None => st_ret (-1)
      | Some r => if r_used r then right_scan n (i + 1) p q recv
                  else right_take p q recv i
      end
  end.

Definition right_new (p q : nat) (recv : bool) : KM Z :=
  let! ip := get_iproc p in
  right_scan (Z.to_nat (MAXRIGHTS - ip_rhint ip)) (ip_rhint ip) p q recv.

(** [h] is the slot the caller's pointer [r] is the address of. *)
Definition right_drop (p : nat) (h : Z) (r : right) : KM unit :=
  IPC_ASSERT_LOCKED ;;;
  upd_iproc p (put_right h (set_r_used false r)) ;;;
  st_when (r_recv r)
    (upd_port (r_port r) (λ pt, set_pt_nrecv (pt_nrecv pt - 1) pt) ;;;
     upd_iproc p (λ ip, if 0 <? ip_nports ip
                        then set_ip_nports (ip_nports ip - 1) ip else ip)) ;;;
  port_unref (r_port r).

Definition grant_named (p : nat) (name : string) (port : option nat) (recv : bool) : KM unit :=
  match port with
  | None => st_ret tt
  | Some q =>
      let! h := right_new p q recv in
      if h <? 0 then st_ret tt else
      let! g := malloc in
      match g with
      | None =>
          let! ip := get_iproc p in
          match right_slot ip h with
          | Some r => right_drop p h r
          | None => st_ret tt
          end
      | Some _ => upd_iproc p (λ ip, set_ip_grants ((name, h) :: ip_grants ip) ip)
      end
  end.

(** The conversion [(int)h] of right_get: a lua_Integer is 64 bits. *)
Definition to_int (h : Z) : Z := sint 32 h.

(** right_get answers with the slot's address; the model's [h'] is that slot. *)
Definition right_get (ip : iproc) (h : Z) : option (Z * right) :=
  let h' := to_int h in
  match right_slot ip h' with
  | Some r => if r_used r then Some (h', r) else None
  | None => None
  end.

Fixpoint has_port_scan (n : nat) (i : Z) (ip : iproc) (q : nat) : bool :=
  match n with
  | O => false
  | S n =>
      match right_slot ip i with
      | Some r => if r_used r && (r_port r =? q)%nat then true
                  else has_port_scan n (i + 1) ip q
      | None => has_port_scan n (i + 1) ip q
      end
  end.

Definition proc_has_port (ip : iproc) (q : nat) : bool :=
  has_port_scan (Z.to_nat MAXRIGHTS) 0 ip q.

(** * Messages *)

(** port_push_owned: 0, or -1 out of memory, -2 full, -3 dead. *)
Definition port_push_owned (q : nat) (data : list Z) (refs : list (nat * bool))
    (bufs : msgbufs) : KM Z :=
  IPC_ASSERT_PORT q ;;;
  let! pt := get_port q in
  if pt_dead pt then
    put_port q (set_pt_ndrop_dead (pt_ndrop_dead pt + 1) pt) ;;;
    st_modify (λ σ, set_k_drop_dead (k_drop_dead σ + 1) σ) ;;;
    st_ret (-3)
  else
  let cost := Z.of_nat (length data) + msgbufs_bytes bufs in
  if MAXQUEUE <? pt_qbytes pt + cost then
    put_port q (set_pt_ndrop_full (pt_ndrop_full pt + 1) pt) ;;;
    st_modify (λ σ, set_k_drop_full (k_drop_full σ + 1) σ) ;;;
    st_ret (-2)
  else
  let! a := malloc in
  match a with
  | None => st_ret (-1)
  | Some _ =>
      upd_port q (λ pt,
        let pt := set_pt_queue (pt_queue pt ++ [mkKmsg data bufs cost refs]) pt in
        let pt := set_pt_qbytes (pt_qbytes pt + cost) pt in
        let pt := if pt_qpeak pt <? pt_qbytes pt
                  then set_pt_qpeak (pt_qbytes pt) pt else pt in
        set_pt_nsent (pt_nsent pt + 1) pt) ;;;
      wake_receivers q ;;;
      st_ret 0
  end.

(** port_push has no receive flags and no buffers. *)
Definition port_push (q : nat) (data : list Z) (refs : list nat) : KM Z :=
  let refs := (λ i, (i, false)) <$> refs in
  IPC_ASSERT_LOCKED ;;;
  let! copy := malloc in
  match copy with
  | None => release_inflight refs ;;; st_ret (-1)
  | Some _ =>
      let! rc := port_push_owned q data refs [] in
      st_when (negb (rc =? 0)) (release_inflight refs) ;;;
      st_ret (if rc =? -3 then 0 else rc)
  end.

Definition port_pop (q : nat) : KM (option kmsg) :=
  ipclock_enter_port q ;;;
  let! pt := get_port q in
  match pt_queue pt with
  | [] => ipclock_leave_port q ;;; st_ret None
  | m :: l =>
      put_port q (set_pt_qbytes (pt_qbytes pt - m_qcost m) (set_pt_queue l pt)) ;;;
      wake_senders q ;;;
      ipclock_leave_port q ;;;
      st_ret (Some m)
  end.

Definition msg_dispose (m : kmsg) : KM unit :=
  match m_refs m with
  | [] => msg_free m
  | _ => ipclock_enter ;;; msg_free m ;;; ipclock_leave
  end.

Definition release_inflight_locked (refs : list (nat * bool)) : KM unit :=
  ipclock_enter ;;; release_inflight refs ;;; ipclock_leave.
