(* ===== verification/PortInv.v ===== *)
(** The reference-count invariant of src/src/port.c.

    A reference to a port is in exactly one place: a used slot of some proc's
    right table, a message on some queue, a timer slot, one of kernel_init's own
    pointers, or the hand of the code that is running, written [X] below: a
    message that has been popped, or refs the serializer has taken for one it is
    still building.  [refs_ok X] says that [nrights] and [nrecv] of every port
    count those places exactly, and that every place names a live port; the lemmas
    after it move a reference from one place to another. *)

From S2P Require Import Prelude Clock Sched Ports.
From stdpp Require Import prelude list gmap strings.
From Stdlib Require Import ZArith Lia.
Open Scope Z_scope.

(** * Counting

    [f] selects the count: false for every reference ([nrights]), true for the
    receive rights among them ([nrecv]). *)

Definition b2z (b : bool) : Z := if b then 1 else 0.

Definition nr (f : bool) (pt : kport) : Z := if f then pt_nrecv pt else pt_nrights pt.

Definition ref1 (f : bool) (i : nat) (ref : nat * bool) : Z :=
  b2z ((fst ref =? i)%nat && (negb f || snd ref)).
Definition refs_n (f : bool) (i : nat) (l : list (nat * bool)) : Z := zsum (ref1 f i) l.
Definition queue_n (f : bool) (i : nat) (l : list kmsg) : Z :=
  zsum (λ m, refs_n f i (m_refs m)) l.
Definition inflight (f : bool) (i : nat) (ports : gmap nat kport) : Z :=
  msum (λ _ pt, queue_n f i (pt_queue pt)) ports.

Definition all_rights (ip : iproc) : list right :=
  ip_rights ip ++ default [] (ip_xrights ip).
Definition right1 (f : bool) (q : nat) (r : right) : Z :=
  b2z (r_used r && (r_port r =? q)%nat && (negb f || r_recv r)).
Definition rights_n (f : bool) (q : nat) (ip : iproc) : Z := zsum (right1 f q) (all_rights ip).
Definition held (f : bool) (q : nat) (procs : gmap nat iproc) : Z :=
  msum (λ _ ip, rights_n f q ip) procs.

Definition timer1 (q : nat) (t : ktimer) : Z :=
  match fst t with Some x => b2z (x =? q)%nat | None => 0 end.
Definition timers_n (q : nat) (l : list ktimer) : Z := zsum (timer1 q) l.
Definition krefs_n (q : nat) (l : list nat) : Z := zsum (λ x, b2z (x =? q)%nat) l.

(** The kernel's own references are never receive rights. *)
Definition pinned (f : bool) (q : nat) (σ : kst) : Z :=
  if f then 0 else timers_n q (k_timers σ) + krefs_n q (k_krefs σ).

Definition count (f : bool) (X : list (nat * bool)) (σ : kst) (q i : nat) : Z :=
  held f q (k_procs σ) + inflight f i (k_ports σ) + refs_n f i X + pinned f q σ.

Definition live (σ : kst) (q : nat) : Prop := is_Some (k_ports σ !! q).
Definition named (σ : kst) (ref : nat * bool) : Prop := is_Some (k_portv σ !! fst ref).

Record refs_ok (X : list (nat * bool)) (σ : kst) : Prop := mkRefsOk {
  ro_portv : ∀ i q, k_portv σ !! i = Some q ↔
    ∃ pt, k_ports σ !! q = Some pt ∧ pt_idx pt = i;
  ro_count : ∀ f q pt, k_ports σ !! q = Some pt → nr f pt = count f X σ q (pt_idx pt);
  ro_held : ∀ p ip r, k_procs σ !! p = Some ip → r ∈ all_rights ip →
    r_used r = true → live σ (r_port r);
  ro_msg : ∀ q pt m ref, k_ports σ !! q = Some pt → m ∈ pt_queue pt →
    ref ∈ m_refs m → named σ ref;
  ro_hand : ∀ ref, ref ∈ X → named σ ref;
  ro_timer : ∀ q d, (Some q, d) ∈ k_timers σ → live σ q;
  ro_kref : ∀ q, q ∈ k_krefs σ → live σ q
}.

Lemma b2z_range b : 0 <= b2z b <= 1.
Proof. destruct b; simpl; lia. Qed.

Lemma refs_n_nonneg f i l : 0 <= refs_n f i l.
Proof. apply zsum_nonneg. intros. apply b2z_range. Qed.
Lemma queue_n_nonneg f i l : 0 <= queue_n f i l.
Proof. apply zsum_nonneg. intros. apply refs_n_nonneg. Qed.
Lemma rights_n_nonneg f q ip : 0 <= rights_n f q ip.
Proof. apply zsum_nonneg. intros. apply b2z_range. Qed.
Lemma inflight_nonneg f i ports : 0 <= inflight f i ports.
Proof. apply msum_nonneg. intros. apply queue_n_nonneg. Qed.
Lemma held_nonneg f q procs : 0 <= held f q procs.
Proof. apply msum_nonneg. intros. apply rights_n_nonneg. Qed.
Lemma timer1_range q t : 0 <= timer1 q t <= 1.
Proof. unfold timer1. case_match; [apply b2z_range|lia]. Qed.
Lemma timers_n_nonneg q l : 0 <= timers_n q l.
Proof. apply zsum_nonneg. intros. apply timer1_range. Qed.
Lemma krefs_n_nonneg q l : 0 <= krefs_n q l.
Proof. apply zsum_nonneg. intros. apply b2z_range. Qed.

#[export] Hint Resolve refs_n_nonneg queue_n_nonneg rights_n_nonneg inflight_nonneg
  held_nonneg timers_n_nonneg krefs_n_nonneg : nlos.

Lemma pinned_nonneg f q σ : 0 <= pinned f q σ.
Proof.
  destruct f; simpl; [done|].
  pose proof (timers_n_nonneg q (k_timers σ)). pose proof (krefs_n_nonneg q (k_krefs σ)).
  lia.
Qed.
#[export] Hint Resolve pinned_nonneg : nlos.

(** A live port has one slot, and a slot one live port. *)
Section slots.
Context {X : list (nat * bool)} {σ : kst} (R : refs_ok X σ).

Lemma idx_inj q1 q2 pt1 pt2 :
  k_ports σ !! q1 = Some pt1 → k_ports σ !! q2 = Some pt2 →
  pt_idx pt1 = pt_idx pt2 → q1 = q2.
Proof.
  intros H1 H2 E.
  assert (k_portv σ !! pt_idx pt1 = Some q1) by (apply (ro_portv X σ R); eauto).
  assert (k_portv σ !! pt_idx pt1 = Some q2) by (apply (ro_portv X σ R); eauto).
  congruence.
Qed.

Lemma slot_of q pt : k_ports σ !! q = Some pt → k_portv σ !! pt_idx pt = Some q.
Proof. intros H. apply (ro_portv X σ R). eauto. Qed.

Lemma named_port ref : named σ ref →
  ∃ q pt, k_portv σ !! fst ref = Some q ∧ k_ports σ !! q = Some pt ∧ pt_idx pt = fst ref.
Proof.
  intros [q Hq]. pose proof Hq as (pt & Hp & Hi)%(ro_portv X σ R). eauto 6.
Qed.

Lemma nr_nonneg f q pt : k_ports σ !! q = Some pt → 0 <= nr f pt.
Proof.
  intros H. rewrite (ro_count X σ R f q pt H). unfold count.
  pose proof (held_nonneg f q (k_procs σ)). pose proof (inflight_nonneg f (pt_idx pt) (k_ports σ)).
  pose proof (refs_n_nonneg f (pt_idx pt) X). pose proof (pinned_nonneg f q σ). lia.
Qed.

End slots.

(** * One port changed

    [q]'s queue, counts or the hand change together, so that what [q]'s queue and
    the hand name is conserved for every other port and moves by the change of
    [q]'s own counts for [q]. *)

Definition put (q : nat) (pt : kport) (σ : kst) : kst :=
  set_k_ports (<[q:=pt]> (k_ports σ)) σ.

Lemma live_put q pt σ q' : live σ q' → live (put q pt σ) q'.
Proof.
  unfold live, put; simpl. intros H. destruct (decide (q = q')) as [->|].
  - by rewrite lookup_insert_eq.
  - by rewrite lookup_insert_ne.
Qed.

Lemma inflight_put f i q pt pt' ports :
  ports !! q = Some pt →
  inflight f i (<[q:=pt']> ports) =
  inflight f i ports - queue_n f i (pt_queue pt) + queue_n f i (pt_queue pt').
Proof. intros H. unfold inflight. by rewrite (msum_insert_Some _ _ _ _ _ H). Qed.

Lemma refs_ok_port X X' σ q pt pt' :
  refs_ok X σ → k_ports σ !! q = Some pt → pt_idx pt' = pt_idx pt →
  (∀ f i, queue_n f i (pt_queue pt') + refs_n f i X' - queue_n f i (pt_queue pt) - refs_n f i X =
          if (i =? pt_idx pt)%nat then nr f pt' - nr f pt else 0) →
  (∀ m ref, m ∈ pt_queue pt' → ref ∈ m_refs m → named σ ref) →
  (∀ ref, ref ∈ X' → named σ ref) →
  refs_ok X' (put q pt' σ).
Proof.
  intros R Hq Hi Hn Hm HX. split; unfold put, live, named in *; simpl in *.
  - intros i q'. rewrite (ro_portv X σ R). split; intros (p & Hp & E).
    + destruct (decide (q = q')) as [->|Hne].
      * exists pt'. rewrite lookup_insert_eq. split; [done|]. congruence.
      * exists p. by rewrite lookup_insert_ne.
    + destruct (decide (q = q')) as [->|Hne].
      * rewrite lookup_insert_eq in Hp. exists pt. split; [done|]. congruence.
      * rewrite lookup_insert_ne in Hp by done. eauto.
  - intros f q' p Hp. unfold count. simpl. rewrite (inflight_put _ _ _ _ _ _ Hq).
    change (pinned f q' (set_k_ports _ σ)) with (pinned f q' σ).
    specialize (Hn f (pt_idx p)). destruct (decide (q = q')) as [->|Hne].
    + rewrite lookup_insert_eq in Hp. simplify_eq. rewrite Hi, Nat.eqb_refl in Hn.
      pose proof (ro_count X σ R f q' pt Hq) as E. unfold count in E. rewrite Hi. lia.
    + rewrite lookup_insert_ne in Hp by done.
      assert (pt_idx p ≠ pt_idx pt) as Hd.
      { intros E. apply Hne. symmetry. by eapply (idx_inj R). }
      rewrite (proj2 (Nat.eqb_neq _ _)) in Hn by done.
      pose proof (ro_count X σ R f q' p Hp) as E. unfold count in E. lia.
  - intros p ip r Hp Hr Hu. apply (live_put q pt' σ). by eapply (ro_held X σ R).
  - intros q' p m ref Hp Hin Hr. destruct (decide (q = q')) as [->|].
    + rewrite lookup_insert_eq in Hp. simplify_eq. eauto.
    + rewrite lookup_insert_ne in Hp by done. by eapply (ro_msg X σ R).
  - done.
  - intros q' d Ht. apply (live_put q pt' σ). by eapply (ro_timer X σ R).
  - intros q' Ht. apply (live_put q pt' σ). by eapply (ro_kref X σ R).
Qed.

Lemma refs_n_cons f i ref X : refs_n f i (ref :: X) = ref1 f i ref + refs_n f i X.
Proof. done. Qed.
Lemma refs_n_app f i X Y : refs_n f i (X ++ Y) = refs_n f i X + refs_n f i Y.
Proof. apply zsum_app. Qed.
Lemma queue_n_app f i l l' : queue_n f i (l ++ l') = queue_n f i l + queue_n f i l'.
Proof. apply zsum_app. Qed.
Lemma queue_n_cons f i m l : queue_n f i (m :: l) = refs_n f i (m_refs m) + queue_n f i l.
Proof. done. Qed.
Lemma queue_n_nil f i : queue_n f i [] = 0.
Proof. done. Qed.
Lemma refs_n_concat f i l : refs_n f i (concat (m_refs <$> l)) = queue_n f i l.
Proof.
  induction l as [|m l IH]; [done|].
  cbn [fmap list_fmap concat]. by rewrite refs_n_app, queue_n_cons, IH.
Qed.

Lemma ref1_self f i r : ref1 f i (i, r) = b2z (negb f || r).
Proof. unfold ref1. cbn [fst snd]. by rewrite Nat.eqb_refl. Qed.
Lemma ref1_other f i j r : j ≠ i → ref1 f i (j, r) = 0.
Proof. intros H. unfold ref1. cbn [fst]. by rewrite (proj2 (Nat.eqb_neq _ _)). Qed.

Section hand.
Context {X : list (nat * bool)} {σ : kst} {q : nat} {pt : kport}.
Context (Hq : k_ports σ !! q = Some pt).

(** A port's fields other than its index, queue and counts are free. *)
Lemma refs_frame pt' :
  refs_ok X σ → pt_idx pt' = pt_idx pt → pt_queue pt' = pt_queue pt →
  (∀ f, nr f pt' = nr f pt) → refs_ok X (put q pt' σ).
Proof.
  intros R Hi Hqq Hn. eapply refs_ok_port; try done.
  - intros f i. rewrite Hqq, Hn. case_match; lia.
  - intros m ref Hm Hr. rewrite Hqq in Hm. by eapply (ro_msg X σ R).
  - apply R.
Qed.

(** A reference in the hand is dropped, or loses its receive part. *)
Lemma refs_drop pt' :
  refs_ok ((pt_idx pt, false) :: X) σ → pt_idx pt' = pt_idx pt →
  pt_queue pt' = pt_queue pt → pt_nrights pt' = pt_nrights pt - 1 →
  pt_nrecv pt' = pt_nrecv pt → refs_ok X (put q pt' σ).
Proof.
  intros R Hi Hqq Hn Hr. eapply refs_ok_port; try done.
  - intros f i. rewrite Hqq, refs_n_cons. destruct (Nat.eqb_spec i (pt_idx pt)) as [->|Hne].
    + rewrite ref1_self. destruct f; simpl; lia.
    + rewrite ref1_other by done. lia.
  - intros m ref Hm Hrf. rewrite Hqq in Hm. by eapply (ro_msg _ σ R).
  - intros ref Hin. apply (ro_hand _ σ R). by right.
Qed.

Lemma refs_unrecv pt' :
  refs_ok ((pt_idx pt, true) :: X) σ → pt_idx pt' = pt_idx pt →
  pt_queue pt' = pt_queue pt → pt_nrights pt' = pt_nrights pt →
  pt_nrecv pt' = pt_nrecv pt - 1 → refs_ok ((pt_idx pt, false) :: X) (put q pt' σ).
Proof.
  intros R Hi Hqq Hn Hr. eapply refs_ok_port; try done.
  - intros f i. rewrite Hqq, !refs_n_cons. destruct (Nat.eqb_spec i (pt_idx pt)) as [->|Hne].
    + rewrite !ref1_self. destruct f; simpl; lia.
    + rewrite !ref1_other by done. lia.
  - intros m ref Hm Hrf. rewrite Hqq in Hm. by eapply (ro_msg _ σ R).
  - intros ref [->|Hin]%elem_of_cons; [exact (ro_hand _ σ R (pt_idx pt, true) ltac:(left))|].
    apply (ro_hand _ σ R). by right.
Qed.

(** A new reference is taken into the hand. *)
Lemma refs_take r pt' :
  refs_ok X σ → pt_idx pt' = pt_idx pt → pt_queue pt' = pt_queue pt →
  pt_nrights pt' = pt_nrights pt + 1 → pt_nrecv pt' = pt_nrecv pt + b2z r →
  refs_ok ((pt_idx pt, r) :: X) (put q pt' σ).
Proof.
  intros R Hi Hqq Hn Hr. eapply refs_ok_port; try done.
  - intros f i. rewrite Hqq, !refs_n_cons. destruct (Nat.eqb_spec i (pt_idx pt)) as [->|Hne].
    + rewrite !ref1_self. destruct f, r; simpl in *; lia.
    + rewrite !ref1_other by done. lia.
  - intros m ref Hm Hrf. rewrite Hqq in Hm. by eapply (ro_msg _ σ R).
  - intros ref [->|Hin]%elem_of_cons; [|by apply (ro_hand _ σ R)].
    unfold named. cbn [fst]. rewrite (slot_of R _ _ Hq). done.
Qed.

(** The queue becomes [l'], the references of what left it joining the hand and
    those of what joined it leaving. *)
Lemma refs_queue X0 X' pt' :
  refs_ok X0 σ → pt_idx pt' = pt_idx pt → (∀ f, nr f pt' = nr f pt) →
  (∀ f i, queue_n f i (pt_queue pt') + refs_n f i X' = queue_n f i (pt_queue pt) + refs_n f i X0) →
  (∀ m ref, m ∈ pt_queue pt' → ref ∈ m_refs m → named σ ref) →
  (∀ ref, ref ∈ X' → named σ ref) → refs_ok X' (put q pt' σ).
Proof.
  intros R Hi Hn HX Hm HX'. eapply refs_ok_port; try done.
  intros f i. rewrite Hn. specialize (HX f i). case_match; lia.
Qed.

Lemma refs_flush pt' :
  refs_ok X σ → pt_idx pt' = pt_idx pt → (∀ f, nr f pt' = nr f pt) → pt_queue pt' = [] →
  refs_ok (concat (m_refs <$> pt_queue pt) ++ X) (put q pt' σ).
Proof.
  intros R Hi Hn Hq'. eapply refs_queue; try done.
  - intros f i. rewrite Hq', refs_n_app, refs_n_concat, queue_n_nil. lia.
  - intros m ref Hm. rewrite Hq' in Hm. by apply elem_of_nil in Hm.
  - intros ref [Hin|Hin]%elem_of_app; [|by apply (ro_hand _ σ R)].
    apply list_elem_of_In, in_concat in Hin as (l & Hl & Hin).
    apply list_elem_of_In, list_elem_of_fmap in Hl as (m & -> & Hm).
    apply list_elem_of_In in Hin. by eapply (ro_msg _ σ R).
Qed.

Lemma refs_push m pt' :
  refs_ok (m_refs m ++ X) σ → pt_idx pt' = pt_idx pt → (∀ f, nr f pt' = nr f pt) →
  pt_queue pt' = pt_queue pt ++ [m] → refs_ok X (put q pt' σ).
Proof.
  intros R Hi Hn Hq'. eapply refs_queue; try done.
  - intros f i. rewrite Hq', refs_n_app, queue_n_app, queue_n_cons, queue_n_nil. lia.
  - intros m' ref. rewrite Hq', elem_of_app, list_elem_of_singleton.
    intros [Hm| ->] Hr; [by eapply (ro_msg _ σ R)|].
    apply (ro_hand _ σ R), elem_of_app. by left.
  - intros ref Hin. apply (ro_hand _ σ R), elem_of_app. by right.
Qed.

Lemma refs_pop m l pt' :
  refs_ok X σ → pt_idx pt' = pt_idx pt → (∀ f, nr f pt' = nr f pt) →
  pt_queue pt = m :: l → pt_queue pt' = l → refs_ok (m_refs m ++ X) (put q pt' σ).
Proof.
  intros R Hi Hn Hml Hl. eapply refs_queue; try done.
  - intros f i. rewrite Hml, Hl, refs_n_app, queue_n_cons. lia.
  - intros m' ref Hm Hr. eapply (ro_msg _ σ R); [done| |done].
    rewrite Hml, <-Hl. by right.
  - intros ref [Hin|Hin]%elem_of_app; [|by apply (ro_hand _ σ R)].
    eapply (ro_msg _ σ R); [done| |done]. rewrite Hml. left.
Qed.

End hand.

(** * Right tables as one list *)

Record tab_ok (ip : iproc) : Prop := mkTabOk {
  tab_inline : length (ip_rights ip) = 8%nat;
  tab_over : ∀ xs, ip_xrights ip = Some xs → length xs = 504%nat
}.

Lemma right_slot_all ip h :
  tab_ok ip →
  right_slot ip h =
    if (0 <=? h) && (h <? MAXRIGHTS) then all_rights ip !! Z.to_nat h else None.
Proof.
  intros [Hi Ho]. unfold right_slot, all_rights, MAXRIGHTS, NRIGHTS_INLINE.
  destruct (Z.ltb_spec h 0), (Z.leb_spec 0 h); try lia; [done|].
  destruct (Z.leb_spec 512 h), (Z.ltb_spec h 512); try lia; [done|]. cbn [orb andb].
  destruct (Z.ltb_spec h 8).
  - rewrite lookup_app_l; [done|lia].
  - rewrite lookup_app_r by lia. destruct (ip_xrights ip) as [xs|]; [|done].
    f_equal. rewrite Hi. lia.
Qed.

Lemma right_slot_range ip h r : right_slot ip h = Some r → 0 <= h < MAXRIGHTS.
Proof.
  unfold right_slot. destruct (Z.ltb_spec h 0); [done|].
  destruct (Z.leb_spec MAXRIGHTS h); [done|]. lia.
Qed.

Lemma right_slot_elem ip h r :
  tab_ok ip → right_slot ip h = Some r → all_rights ip !! Z.to_nat h = Some r.
Proof.
  intros T H. pose proof (right_slot_range _ _ _ H) as Hr.
  rewrite right_slot_all in H by done.
  destruct (Z.leb_spec 0 h), (Z.ltb_spec h MAXRIGHTS); try lia. done.
Qed.

Lemma all_rights_length ip : tab_ok ip → (length (all_rights ip) <= 512)%nat.
Proof.
  intros [Hi Ho]. unfold all_rights. rewrite length_app, Hi.
  destruct (ip_xrights ip) as [xs|]; simpl; [rewrite (Ho xs eq_refl)|]; lia.
Qed.

Lemma elem_right_slot ip r :
  tab_ok ip → r ∈ all_rights ip → ∃ h, right_slot ip h = Some r.
Proof.
  intros T (i & Hi)%list_elem_of_lookup. exists (Z.of_nat i).
  pose proof (lookup_lt_Some _ _ _ Hi). pose proof (all_rights_length ip T).
  rewrite right_slot_all by done. unfold MAXRIGHTS.
  destruct (Z.leb_spec 0 (Z.of_nat i)), (Z.ltb_spec (Z.of_nat i) 512); try lia.
  simpl. by rewrite Nat2Z.id.
Qed.

Lemma put_right_all ip h r old :
  tab_ok ip → right_slot ip h = Some old →
  all_rights (put_right h r ip) = <[Z.to_nat h := r]> (all_rights ip) ∧
  tab_ok (put_right h r ip).
Proof.
  intros [Hi Ho] H. pose proof (right_slot_range _ _ _ H) as Hr.
  unfold put_right, all_rights, NRIGHTS_INLINE. destruct (Z.ltb_spec h 8).
  - cbn. rewrite insert_app_l by (rewrite Hi; lia). split; [done|].
    split; cbn; [by rewrite length_insert|done].
  - destruct (ip_xrights ip) as [xs|] eqn:Ex.
    + cbn. rewrite insert_app_r_alt by (rewrite Hi; lia). split.
      * do 2 f_equal. rewrite Hi. lia.
      * split; cbn; [done|]. intros ? [= <-]. by rewrite length_insert, (Ho xs).
    + exfalso. unfold right_slot, MAXRIGHTS, NRIGHTS_INLINE in H.
      destruct (Z.ltb_spec h 8); [lia|]. rewrite Ex in H. by case_match.
Qed.

(** The fields [put_right] leaves alone. *)
Lemma put_right_frame h r ip :
  let ip' := put_right h r ip in
  ip_rhint ip' = ip_rhint ip ∧ ip_rhigh ip' = ip_rhigh ip ∧ ip_nports ip' = ip_nports ip ∧
  ip_waiters ip' = ip_waiters ip ∧ ip_w0used ip' = ip_w0used ip ∧
  ip_woken ip' = ip_woken ip ∧ ip_selfidx ip' = ip_selfidx ip ∧ ip_selfgen ip' = ip_selfgen ip ∧
  ip_port_limit ip' = ip_port_limit ip ∧ ip_grants ip' = ip_grants ip.
Proof.
  unfold put_right. simpl. destruct (h <? NRIGHTS_INLINE); [done|].
  by destruct (ip_xrights ip).
Qed.

Lemma rights_n_put f q ip h r old :
  tab_ok ip → right_slot ip h = Some old →
  rights_n f q (put_right h r ip) = rights_n f q ip - right1 f q old + right1 f q r.
Proof.
  intros T H. unfold rights_n. destruct (put_right_all ip h r old T H) as [-> _].
  apply zsum_insert. by apply right_slot_elem.
Qed.

(** * One proc changed *)

Definition puti (p : nat) (ip : iproc) (σ : kst) : kst :=
  set_k_procs (<[p:=ip]> (k_procs σ)) σ.

Lemma refs_ok_proc X X' σ p ip ip' :
  refs_ok X σ → k_procs σ !! p = Some ip →
  (∀ f q pt, k_ports σ !! q = Some pt →
     rights_n f q ip' + refs_n f (pt_idx pt) X' = rights_n f q ip + refs_n f (pt_idx pt) X) →
  (∀ r, r ∈ all_rights ip' → r_used r = true → live σ (r_port r)) →
  (∀ ref, ref ∈ X' → named σ ref) →
  refs_ok X' (puti p ip' σ).
Proof.
  intros R Hp Hn Hl HX. split; unfold puti, live, named in *; simpl; try apply R.
  - intros f q pt Hq. rewrite (ro_count X σ R f q pt Hq). unfold count. simpl.
    unfold held. rewrite (msum_insert_Some _ _ _ _ _ Hp).
    change (pinned f q (set_k_procs _ σ)) with (pinned f q σ).
    specialize (Hn f q pt Hq). lia.
  - intros p' ip0 r Hp0 Hr Hu. destruct (decide (p = p')) as [->|].
    + rewrite lookup_insert_eq in Hp0. simplify_eq. eauto.
    + rewrite lookup_insert_ne in Hp0 by done. by eapply (ro_held X σ R).
  - done.
Qed.

Section proc.
Context {X : list (nat * bool)} {σ : kst} {p : nat} {ip : iproc}.
Context (Hp : k_procs σ !! p = Some ip).

Lemma refs_proc_frame ip' :
  refs_ok X σ → all_rights ip' = all_rights ip → refs_ok X (puti p ip' σ).
Proof.
  intros R E. eapply refs_ok_proc; try done.
  - intros. unfold rights_n. by rewrite E.
  - intros r Hr. rewrite E in Hr. by eapply (ro_held X σ R).
  - apply R.
Qed.

(** A reference in the hand is installed in a free slot, or leaves one for the
    hand. *)
Lemma refs_install h q pt recv old ip' :
  refs_ok ((pt_idx pt, recv) :: X) σ → tab_ok ip → k_ports σ !! q = Some pt →
  right_slot ip h = Some old → r_used old = false →
  all_rights ip' = all_rights (put_right h (mkRight q recv true) ip) →
  refs_ok X (puti p ip' σ).
Proof.
  intros R T Hq Hh Hu E. eapply refs_ok_proc; try done.
  - intros f q' pt' Hq'. unfold rights_n at 1. rewrite E. fold (rights_n f q' (put_right h (mkRight q recv true) ip)).
    rewrite (rights_n_put f q' ip h _ old T Hh), refs_n_cons.
    unfold right1 at 1. rewrite Hu. unfold right1. cbn [r_used r_port r_recv andb b2z].
    destruct (Nat.eqb_spec q q') as [->|Hne].
    + simplify_eq. rewrite ref1_self. simpl. lia.
    + rewrite ref1_other; [simpl; lia|]. intros Hi. apply Hne.
      by eapply (idx_inj R).
  - intros r Hr Hru. rewrite E in Hr.
    destruct (put_right_all ip h (mkRight q recv true) old T Hh) as [E' _].
    rewrite E' in Hr. apply elem_of_insert_inv in Hr as [->|Hr].
    + by exists pt.
    + by eapply (ro_held _ σ R).
  - intros ref Hin. apply (ro_hand _ σ R). by right.
Qed.

Lemma refs_uninstall h r pt ip' :
  refs_ok X σ → tab_ok ip → right_slot ip h = Some r → r_used r = true →
  k_ports σ !! r_port r = Some pt →
  all_rights ip' = all_rights (put_right h (set_r_used false r) ip) →
  refs_ok ((pt_idx pt, r_recv r) :: X) (puti p ip' σ).
Proof.
  intros R T Hh Hu Hq E. eapply refs_ok_proc; try done.
  - intros f q' pt' Hq'. unfold rights_n at 1. rewrite E. fold (rights_n f q' (put_right h (set_r_used false r) ip)).
    rewrite (rights_n_put f q' ip h _ r T Hh), refs_n_cons.
    unfold right1. rewrite Hu. cbn [r_used r_port r_recv set_r_used andb b2z].
    destruct (Nat.eqb_spec (r_port r) q') as [E'|Hne].
    + subst q'. simplify_eq. rewrite ref1_self. simpl. lia.
    + rewrite ref1_other; [simpl; lia|]. intros Hi. apply Hne.
      by eapply (idx_inj R).
  - intros r' Hr Hru. rewrite E in Hr.
    destruct (put_right_all ip h (set_r_used false r) r T Hh) as [E' _].
    rewrite E' in Hr. apply elem_of_insert_inv in Hr as [->|Hr].
    + done.
    + by eapply (ro_held _ σ R).
  - intros ref [->|Hin]%elem_of_cons; [|by apply (ro_hand _ σ R)].
    unfold named. cbn [fst]. rewrite (slot_of R _ _ Hq). done.
Qed.

End proc.

(** * A port freed, a port made *)

Lemma refs_n_elem i r X : (i, r) ∈ X → 1 <= refs_n false i X.
Proof.
  intros H. assert (ref1 false i (i, r) = 1) as <- by by rewrite ref1_self.
  apply zsum_elem_le; [|done]. intros. apply b2z_range.
Qed.

Lemma queue_n_elem i r m l : m ∈ l → (i, r) ∈ m_refs m → 1 <= queue_n false i l.
Proof.
  intros Hm H. etrans; [by apply (refs_n_elem i r)|].
  apply (zsum_elem_le (λ m, refs_n false i (m_refs m))); [|done].
  intros. apply refs_n_nonneg.
Qed.

Lemma inflight_elem i r q pt m ports :
  ports !! q = Some pt → m ∈ pt_queue pt → (i, r) ∈ m_refs m → 1 <= inflight false i ports.
Proof.
  intros Hq Hm H. etrans; [by apply (queue_n_elem i r m)|].
  apply (msum_elem_le (λ _ pt, queue_n false i (pt_queue pt)) _ q); [|done].
  intros. apply queue_n_nonneg.
Qed.

Lemma rights_n_elem q ip r :
  r ∈ all_rights ip → r_used r = true → r_port r = q → 1 <= rights_n false q ip.
Proof.
  intros Hr Hu Hq. assert (right1 false q r = 1) as <-.
  { unfold right1. by rewrite Hu, Hq, Nat.eqb_refl. }
  apply zsum_elem_le; [|done]. intros. apply b2z_range.
Qed.

Lemma held_proc_le q p ip procs :
  procs !! p = Some ip → rights_n false q ip <= held false q procs.
Proof.
  intros H. apply (msum_elem_le (λ _ ip, rights_n false q ip) _ p); [|done].
  intros. apply rights_n_nonneg.
Qed.

Lemma timers_n_elem q d l : (Some q, d) ∈ l → 1 <= timers_n q l.
Proof.
  intros H. assert (timer1 q (Some q, d) = 1) as <-.
  { unfold timer1. simpl. by rewrite Nat.eqb_refl. }
  apply zsum_elem_le; [|done]. intros. apply timer1_range.
Qed.

Lemma krefs_n_elem q l : q ∈ l → 1 <= krefs_n q l.
Proof.
  intros H. assert (b2z (q =? q)%nat = 1) as <- by by rewrite Nat.eqb_refl.
  apply (zsum_elem_le (λ x, b2z (x =? q)%nat)); [|done]. intros. apply b2z_range.
Qed.

(** With no reference counted, no place names the port. *)
Lemma count_zero X σ q i :
  count false X σ q i <= 0 →
  held false q (k_procs σ) = 0 ∧ inflight false i (k_ports σ) = 0 ∧
  refs_n false i X = 0 ∧ timers_n q (k_timers σ) = 0 ∧ krefs_n q (k_krefs σ) = 0.
Proof.
  unfold count, pinned. intros H.
  pose proof (held_nonneg false q (k_procs σ)). pose proof (inflight_nonneg false i (k_ports σ)).
  pose proof (refs_n_nonneg false i X). pose proof (timers_n_nonneg q (k_timers σ)).
  pose proof (krefs_n_nonneg q (k_krefs σ)). lia.
Qed.

Definition drop_port (q : nat) (pt : kport) (σ : kst) : kst :=
  set_k_ports (delete q (k_ports σ)) (set_k_portv (delete (pt_idx pt) (k_portv σ)) σ).

Lemma refs_free X σ q pt :
  refs_ok X σ → k_ports σ !! q = Some pt → pt_nrights pt <= 0 → pt_queue pt = [] →
  refs_ok X (drop_port q pt σ).
Proof.
  intros R Hq Hn Hqq.
  destruct (count_zero X σ q (pt_idx pt)) as (H1 & H2 & H3 & H4 & H5).
  { by rewrite <-(ro_count X σ R false q pt Hq). }
  assert (∀ q', live σ q' → q' ≠ q → live (drop_port q pt σ) q') as Hlive.
  { intros q' H Hne. unfold live, drop_port; simpl. by rewrite lookup_delete_ne. }
  assert (∀ ref, named σ ref → fst ref ≠ pt_idx pt → named (drop_port q pt σ) ref) as Hnamed.
  { intros ref H Hne. unfold named, drop_port; simpl. by rewrite lookup_delete_ne. }
  split; simpl.
  - intros i q'. rewrite lookup_delete_Some, (ro_portv X σ R). split.
    + intros (Hi & p & Hp & E). exists p. rewrite lookup_delete_ne; [done|].
      intros ->. by simplify_eq.
    + intros (p & Hp & E). apply lookup_delete_Some in Hp as [Hne Hp].
      split; [|eauto]. intros Hi. apply Hne.
      eapply (idx_inj R); [exact Hq|exact Hp|congruence].
  - intros f q' p Hp. apply lookup_delete_Some in Hp as [Hne Hp].
    rewrite (ro_count X σ R f q' p Hp). unfold count. simpl.
    unfold inflight. rewrite (msum_delete _ _ _ _ Hq), Hqq, queue_n_nil.
    change (pinned f q' (drop_port q pt σ)) with (pinned f q' σ). lia.
  - intros p ip r Hp Hr Hu. apply Hlive; [by eapply (ro_held X σ R)|]. intros E.
    pose proof (rights_n_elem q ip r Hr Hu E). pose proof (held_proc_le q p ip _ Hp). lia.
  - intros q' p m ref Hp Hm Hr. apply lookup_delete_Some in Hp as [Hne Hp].
    apply Hnamed; [by eapply (ro_msg X σ R)|]. destruct ref as [i r]. intros E. simpl in E.
    subst i. pose proof (inflight_elem (pt_idx pt) r q' p m (k_ports σ) Hp Hm Hr). lia.
  - intros [i r] Hin. apply Hnamed; [by apply (ro_hand X σ R)|]. intros E. simpl in E. subst i.
    pose proof (refs_n_elem (pt_idx pt) r X Hin). lia.
  - intros q' d Ht. apply Hlive; [by eapply (ro_timer X σ R)|]. intros ->.
    pose proof (timers_n_elem q d _ Ht). lia.
  - intros q' Ht. apply Hlive; [by eapply (ro_kref X σ R)|]. intros ->.
    pose proof (krefs_n_elem q _ Ht). lia.
Qed.

(** Nothing names an address that is not live, or a slot that is empty. *)
Lemma count_fresh X σ f q i :
  refs_ok X σ → k_ports σ !! q = None → k_portv σ !! i = None → count f X σ q i = 0.
Proof.
  intros R Hq Hi. unfold count, pinned.
  assert (held f q (k_procs σ) = 0) as ->.
  { apply msum_zero. intros p ip Hp. apply zsum_zero. intros r Hr.
    unfold right1. destruct (r_used r) eqn:Hu; [|done].
    destruct (Nat.eqb_spec (r_port r) q) as [E|]; [|done]. exfalso.
    destruct (ro_held X σ R p ip r Hp Hr Hu) as [? Hl]. congruence. }
  assert (∀ l : list (nat * bool), (∀ ref, ref ∈ l → named σ ref) → refs_n f i l = 0) as Hz.
  { intros l Hl. apply zsum_zero. intros [j r] Hin. apply ref1_other. intros ->.
    destruct (Hl _ Hin) as [? E]. simpl in E. congruence. }
  assert (inflight f i (k_ports σ) = 0) as ->.
  { apply msum_zero. intros q' pt Hp. apply zsum_zero. intros m Hm. apply Hz.
    intros ref Hr. by eapply (ro_msg _ σ R). }
  rewrite (Hz X) by apply R. destruct f; [done|].
  assert (timers_n q (k_timers σ) = 0) as ->.
  { apply zsum_zero. intros [o d] Hin. unfold timer1. destruct o as [x|]; [|done]. simpl.
    destruct (Nat.eqb_spec x q) as [->|]; [|done].
    destruct (ro_timer X σ R q d Hin). congruence. }
  apply zsum_zero. intros x Hin. destruct (Nat.eqb_spec x q) as [->|]; [|done].
  destruct (ro_kref X σ R q Hin). congruence.
Qed.

Definition add_port (i q : nat) (pt : kport) (σ : kst) : kst :=
  set_k_portv (<[i:=q]> (k_portv σ)) (put q pt σ).

Lemma refs_new X σ i q pt :
  refs_ok X σ → k_ports σ !! q = None → k_portv σ !! i = None →
  pt_idx pt = i → pt_queue pt = [] → pt_nrights pt = 0 → pt_nrecv pt = 0 →
  refs_ok X (add_port i q pt σ).
Proof.
  intros R Hq Hi E Hqq Hn Hr.
  assert (∀ q', live σ q' → live (add_port i q pt σ) q') as Hlive.
  { intros q' H. by apply (live_put q pt σ). }
  assert (∀ ref, named σ ref → named (add_port i q pt σ) ref) as Hnamed.
  { intros ref [x H]. unfold named, add_port; simpl.
    rewrite lookup_insert_ne; [by exists x|]. intros ->. congruence. }
  split; simpl.
  - intros j q'. rewrite lookup_insert_Some, (ro_portv X σ R). split.
    + intros [[<- <-]|(Hne & p & Hp & Ej)].
      * exists pt. by rewrite lookup_insert_eq.
      * exists p. rewrite lookup_insert_ne; [done|]. intros ->. congruence.
    + intros (p & Hp & Ej). apply lookup_insert_Some in Hp as [[<- <-]|[Hne Hp]];
        [left; split; congruence|]. right. split; [|eauto]. intros <-.
      assert (k_portv σ !! i = Some q') by (apply (ro_portv X σ R); eauto). congruence.
  - assert (∀ f j, inflight f j (<[q:=pt]> (k_ports σ)) = inflight f j (k_ports σ)) as Hin.
    { intros f j. unfold inflight. rewrite msum_insert_None by done.
      rewrite Hqq, queue_n_nil. lia. }
    intros f q' p Hp. unfold count. simpl. rewrite Hin.
    change (pinned f q' (add_port i q pt σ)) with (pinned f q' σ).
    apply lookup_insert_Some in Hp as [[<- <-]|[Hne Hp]].
    + rewrite E. fold (count f X σ q i). rewrite (count_fresh X σ f q i) by done.
      by destruct f.
    + by rewrite (ro_count X σ R f q' p Hp).
  - intros p ip r Hp Hrr Hu. apply Hlive. by eapply (ro_held X σ R).
  - intros q' p m ref Hp Hm Href. apply Hnamed.
    apply lookup_insert_Some in Hp as [[<- <-]|[Hne Hp]].
    + rewrite Hqq in Hm. by apply elem_of_nil in Hm.
    + by eapply (ro_msg X σ R).
  - intros ref Hin. apply Hnamed. by apply (ro_hand X σ R).
  - intros q' d Ht. apply Hlive. by eapply (ro_timer X σ R).
  - intros q' Ht. apply Hlive. by eapply (ro_kref X σ R).
Qed.

(** * A reference between the hand and the timer table *)

Lemma refs_timer X X' σ s (t t' : ktimer) :
  refs_ok X σ → k_timers σ !! s = Some t →
  (∀ (f : bool) q pt, k_ports σ !! q = Some pt →
     (if f then 0 else timer1 q t') + refs_n f (pt_idx pt) X' =
     (if f then 0 else timer1 q t) + refs_n f (pt_idx pt) X) →
  (∀ q, fst t' = Some q → live σ q) → (∀ ref, ref ∈ X' → named σ ref) →
  refs_ok X' (set_k_timers (<[s:=t']> (k_timers σ)) σ).
Proof.
  intros R Ht Hn Hl HX. split; simpl; try apply R.
  - intros f q pt Hq. rewrite (ro_count X σ R f q pt Hq). unfold count, pinned. simpl.
    unfold timers_n. rewrite (zsum_insert _ _ _ _ _ Ht).
    specialize (Hn f q pt Hq). destruct f; lia.
  - exact HX.
  - intros q d Hin. apply elem_of_insert_inv in Hin as [E|Hin].
    + apply Hl. by rewrite <-E.
    + by eapply (ro_timer X σ R).
Qed.

(** * Receive rights are rights *)

Lemma rights_n_recv q ip : rights_n true q ip <= rights_n false q ip.
Proof.
  apply zsum_mono. intros r _. unfold right1. destruct (r_used r), (r_port r =? q)%nat, (r_recv r);
    simpl; lia.
Qed.

Lemma refs_n_recv i l : refs_n true i l <= refs_n false i l.
Proof. apply zsum_mono. intros [j b] _. unfold ref1. simpl. destruct (j =? i)%nat, b; simpl; lia. Qed.

Lemma nrecv_pinned X σ q pt :
  refs_ok X σ → k_ports σ !! q = Some pt → pt_nrecv pt + pinned false q σ <= pt_nrights pt.
Proof.
  intros R Hq. pose proof (ro_count _ _ R true q pt Hq) as Ct.
  pose proof (ro_count _ _ R false q pt Hq) as Cf. cbn [nr] in Ct, Cf. rewrite Ct, Cf. unfold count.
  assert (held true q (k_procs σ) <= held false q (k_procs σ)).
  { apply msum_mono. intros. apply rights_n_recv. }
  assert (inflight true (pt_idx pt) (k_ports σ) <= inflight false (pt_idx pt) (k_ports σ)).
  { apply msum_mono. intros. apply zsum_mono. intros. apply refs_n_recv. }
  pose proof (refs_n_recv (pt_idx pt) X). cbn [pinned]. lia.
Qed.
