(* ===== verification/KInv.v ===== *)
(** The kernel invariant: what holds of ports, right tables, wait lists and the
    scheduler whenever an ipc region is left, and the rules for running the
    kernel monad one step at a time. *)

From S2P Require Import Prelude Clock Sched Ports PortInv.
From stdpp Require Import prelude list gmap strings.
From Stdlib Require Import ZArith Lia.
Open Scope Z_scope.

(** * The invariant *)

Definition cost_ok (m : kmsg) : Prop :=
  m_qcost m = Z.of_nat (length (m_data m)) + msgbufs_bytes (m_bufs m) ∧
  ∀ b, b ∈ m_bufs m → 0 <= snd b.

(** One port: what its queue charges is what [qbytes] says and fits in MAXQUEUE,
    and a dead port holds no message. *)
Record port_ok (pt : kport) : Prop := mkPortOk {
  po_qbytes : pt_qbytes pt = zsum m_qcost (pt_queue pt);
  po_bound : pt_qbytes pt <= MAXQUEUE;
  po_cost : ∀ m, m ∈ pt_queue pt → cost_ok m;
  po_dead : pt_dead pt = true → pt_queue pt = [];
  po_nodup : NoDup (pt_waiters pt)
}.

Definition recv1 (r : right) : Z := b2z (r_used r && r_recv r).

(** One proc: its table is whole, [rhigh] is above every used slot, and [nports]
    is the number of receive rights it holds. *)
Record proc_ok (ip : iproc) : Prop := mkProcOk {
  pr_tab : tab_ok ip;
  pr_rhint : 0 <= ip_rhint ip;
  pr_rhigh : ∀ h r, right_slot ip h = Some r → r_used r = true → h < ip_rhigh ip;
  pr_nports : ip_nports ip = zsum recv1 (all_rights ip);
  pr_nodup : NoDup (ip_waiters ip)
}.

(** Every waiter a port lists is one its proc lists, waiting on that port, and the
    proc holds a right to it, which is what keeps the port from being freed. *)
Record wait_ok (σ : kst) : Prop := mkWaitOk {
  wo_port : ∀ q pt w, k_ports σ !! q = Some pt → w ∈ pt_waiters pt →
    ∃ x ip, k_waiters σ !! w = Some x ∧ w_port x = q ∧ w_onport x = true ∧
      k_procs σ !! w_p x = Some ip ∧ w ∈ ip_waiters ip;
  wo_proc : ∀ p ip w, k_procs σ !! p = Some ip → w ∈ ip_waiters ip →
    ∃ x, k_waiters σ !! w = Some x ∧ w_p x = p ∧
      (w_onport x = true → ∃ pt, k_ports σ !! w_port x = Some pt ∧ w ∈ pt_waiters pt ∧
         1 <= rights_n false (w_port x) ip);
  wo_w0 : ∀ p ip p', k_procs σ !! p = Some ip → W0 p' ∈ ip_waiters ip →
    p' = p ∧ ip_w0used ip = true
}.

Definition blocked (σ : kst) (p : nat) : Prop :=
  ∃ sp, s_procs (k_sch σ) !! p = Some sp ∧ sp_status sp = BLOCKED.

Record sched_ok (σ : kst) : Prop := mkSchedOk {
  sk_wf : rq_wf (k_sch σ);
  sk_held : s_held (k_sch σ) = false;
  sk_proc : ∀ p ip, k_procs σ !! p = Some ip → is_Some (s_procs (k_sch σ) !! p);
  sk_woken : ∀ p ip, k_procs σ !! p = Some ip → ip_woken ip = true → ¬ blocked σ p
}.

(** A transferred chunk has one owner: at most one entry of one message, queued or
    in the hand [Y], and it has not been freed. *)
Definition chunk1 (c : nat) (e : option nat * Z) : Z := b2z (bool_decide (fst e = Some c)).
Definition bufs_n (c : nat) (l : msgbufs) : Z := zsum (chunk1 c) l.
Definition queue_bufs (c : nat) (l : list kmsg) : Z := zsum (λ m, bufs_n c (m_bufs m)) l.
Definition owned (c : nat) (Y : msgbufs) (ports : gmap nat kport) : Z :=
  msum (λ _ pt, queue_bufs c (pt_queue pt)) ports + bufs_n c Y.

Record chunks_ok (Y : msgbufs) (σ : kst) : Prop := mkChunksOk {
  co_once : ∀ c, owned c Y (k_ports σ) <= 1;
  co_live : ∀ c, 1 <= owned c Y (k_ports σ) → c ∈ k_chunks σ
}.

Record kinv (X : list (nat * bool)) (Y : msgbufs) (σ : kst) : Prop := mkKinv {
  ki_refs : refs_ok X σ;
  ki_port : ∀ q pt, k_ports σ !! q = Some pt → port_ok pt;
  ki_proc : ∀ p ip, k_procs σ !! p = Some ip → proc_ok ip;
  ki_chunks : chunks_ok Y σ;
  ki_wait : wait_ok σ;
  ki_sched : sched_ok σ;
  ki_fresh : ∀ q, live σ q → (q < k_next σ)%nat;
  ki_wfresh : ∀ a, is_Some (k_waiters σ !! WH a) → (a < k_next σ)%nat;
  ki_max : Z.of_nat (k_maxports σ) <= 65536
}.

(** No wakeup is lost: a proc asleep for a message waits on an empty queue, and
    one asleep for room waits on a live port. *)
Definition wake_ok_at (σ : kst) (q : nat) : Prop :=
  ∀ pt w x, k_ports σ !! q = Some pt → w ∈ pt_waiters pt → k_waiters σ !! w = Some x →
    blocked σ (w_p x) →
    if w_send x then pt_dead pt = false else pt_queue pt = [].
Definition no_lost_wakeup (σ : kst) : Prop := ∀ q, wake_ok_at σ q.

(** * Running the monad *)

Implicit Types (σ : kst).

Lemma bind_ok {A B} (m : KM A) (k : A → KM B) σ a σ' :
  m σ = Ok (a, σ') → st_bind m k σ = k a σ'.
Proof. unfold st_bind. by intros ->. Qed.

Lemma bind_assoc {A B C} (m : KM A) (k : A → KM B) (k' : B → KM C) σ :
  st_bind (st_bind m k) k' σ = st_bind m (λ a, st_bind (k a) k') σ.
Proof. unfold st_bind. by destruct (m σ) as [[? ?]|]. Qed.

Lemma bind_ret {A B} (a : A) (k : A → KM B) σ : st_bind (st_ret a) k σ = k a σ.
Proof. done. Qed.

Lemma bind_get {B} (k : kst → KM B) σ : st_bind st_get k σ = k σ σ.
Proof. done. Qed.

Lemma bind_modify {B} f (k : unit → KM B) σ : st_bind (st_modify f) k σ = k tt (f σ).
Proof. done. Qed.

Lemma bind_when_true {B} b (m : KM unit) (k : unit → KM B) σ :
  b = true → st_bind (st_when b m) k σ = st_bind m k σ.
Proof. by intros ->. Qed.

Lemma bind_when_false {B} b (m : KM unit) (k : unit → KM B) σ :
  b = false → st_bind (st_when b m) k σ = k tt σ.
Proof. by intros ->. Qed.

Lemma bind_get_port {B} q pt (k : kport → KM B) σ :
  k_ports σ !! q = Some pt → st_bind (get_port q) k σ = k pt σ.
Proof. intros H. apply bind_ok. unfold get_port. by rewrite H. Qed.

Lemma bind_put_port {B} q pt (k : unit → KM B) σ :
  st_bind (put_port q pt) k σ = k tt (put q pt σ).
Proof. done. Qed.

Lemma upd_port_eq q pt f σ :
  k_ports σ !! q = Some pt → upd_port q f σ = Ok (tt, put q (f pt) σ).
Proof. intros H. unfold upd_port. by rewrite (bind_get_port q pt). Qed.

Lemma bind_upd_port {B} q pt f (k : unit → KM B) σ :
  k_ports σ !! q = Some pt → st_bind (upd_port q f) k σ = k tt (put q (f pt) σ).
Proof. intros H. apply bind_ok. by apply upd_port_eq. Qed.

Lemma bind_get_iproc {B} p ip (k : iproc → KM B) σ :
  k_procs σ !! p = Some ip → st_bind (get_iproc p) k σ = k ip σ.
Proof. intros H. apply bind_ok. unfold get_iproc. by rewrite H. Qed.

Lemma bind_put_iproc {B} p ip (k : unit → KM B) σ :
  st_bind (put_iproc p ip) k σ = k tt (puti p ip σ).
Proof. done. Qed.

Lemma upd_iproc_eq p ip f σ :
  k_procs σ !! p = Some ip → upd_iproc p f σ = Ok (tt, puti p (f ip) σ).
Proof. intros H. unfold upd_iproc. by rewrite (bind_get_iproc p ip). Qed.

Lemma bind_upd_iproc {B} p ip f (k : unit → KM B) σ :
  k_procs σ !! p = Some ip → st_bind (upd_iproc p f) k σ = k tt (puti p (f ip) σ).
Proof. intros H. apply bind_ok. by apply upd_iproc_eq. Qed.

Lemma bind_get_waiter {B} w x (k : waiter → KM B) σ :
  k_waiters σ !! w = Some x → st_bind (get_waiter w) k σ = k x σ.
Proof. intros H. apply bind_ok. unfold get_waiter. by rewrite H. Qed.

Lemma bind_put_waiter {B} w x (k : unit → KM B) σ :
  st_bind (put_waiter w x) k σ = k tt (set_k_waiters (<[w:=x]> (k_waiters σ)) σ).
Proof. done. Qed.

Lemma bind_assert_locked {B} (k : unit → KM B) σ :
  ipcheld σ = true → st_bind IPC_ASSERT_LOCKED k σ = k tt σ.
Proof. intros H. apply bind_ok. unfold IPC_ASSERT_LOCKED. by rewrite H. Qed.

Lemma bind_assert_any {B} (k : unit → KM B) σ :
  ipcheld_any σ = true → st_bind IPC_ASSERT_ANY k σ = k tt σ.
Proof. intros H. apply bind_ok. unfold IPC_ASSERT_ANY. by rewrite H. Qed.

Lemma bind_assert_port {B} q pt (k : unit → KM B) σ :
  k_ports σ !! q = Some pt → ipcheld_one_port pt σ = true →
  st_bind (IPC_ASSERT_PORT q) k σ = k tt σ.
Proof.
  intros H Hl. apply bind_ok. unfold IPC_ASSERT_PORT.
  rewrite (bind_get_port q pt) by done. by rewrite Hl.
Qed.

(** * Locks held *)

Lemma ipcheld_all σ i : ipcheld σ = true → (i < NIPCLOCK)%nat → ipcheld_one i σ = true.
Proof.
  unfold ipcheld. rewrite forallb_forall. intros H Hi. apply H.
  apply in_seq. lia.
Qed.

Lemma bucket_lt pt : (ipcbucket_of pt < NIPCLOCK)%nat.
Proof.
  unfold ipcbucket_of, NIPCLOCK. change (8 - 1)%nat with (Nat.ones 3).
  rewrite Nat.land_ones. apply Nat.mod_upper_bound. done.
Qed.

Lemma ipcheld_port pt σ : ipcheld σ = true → ipcheld_one_port pt σ = true.
Proof. intros H. apply ipcheld_all; [done|apply bucket_lt]. Qed.

Lemma ipcheld_one_any i σ : (i < NIPCLOCK)%nat → ipcheld_one i σ = true → ipcheld_any σ = true.
Proof.
  intros Hi H. unfold ipcheld_any. apply existsb_exists. exists i.
  split; [apply in_seq; lia|done].
Qed.

Lemma ipcheld_port_any pt σ : ipcheld_one_port pt σ = true → ipcheld_any σ = true.
Proof. apply ipcheld_one_any, bucket_lt. Qed.
