(* ===== verification/PortWake.v ===== *)
(** Waking: [wake_receivers] and [wake_senders] of src/src/port.c keep the kernel
    invariant, never follow a stale link, and leave no proc of their kind asleep
    on the port. *)

From S2P Require Import Prelude Clock Sched Ports PortInv KInv.
From stdpp Require Import prelude list gmap strings.
From Stdlib Require Import ZArith Lia.
Open Scope Z_scope.

(** What the invariant of references reads of a state. *)
Lemma refs_ok_ext X σ σ' :
  refs_ok X σ → k_ports σ' = k_ports σ → k_portv σ' = k_portv σ →
  k_procs σ' = k_procs σ → k_timers σ' = k_timers σ → k_krefs σ' = k_krefs σ →
  refs_ok X σ'.
Proof.
  destruct σ, σ'; simpl; intros R -> -> -> -> ->.
  destruct R as [? Hc ? ? ? ? ?]. constructor; try assumption.
Qed.

(** Everything waking leaves alone. *)
Definition core (σ : kst) :=
  (k_portv σ, k_maxports σ, k_porthigh σ, k_portgen σ, k_rights_high σ, k_chunks σ, k_timers σ,
   k_krefs σ, k_ipc σ, k_mem σ, k_nalloc σ, k_next σ, k_szbits σ, k_acct σ, k_bytes σ).

(** A step that wakes procs waiting on [q]: other ports are untouched, [q] loses
    waiters and nothing else, procs change only their woken mark, and no proc goes
    to sleep. *)
Record wframe (q : nat) (σ σ' : kst) : Prop := mkWframe {
  wfr_port : ∀ q', q' ≠ q → k_ports σ' !! q' = k_ports σ !! q';
  wfr_self : ∀ pt, k_ports σ !! q = Some pt →
    ∃ l, k_ports σ' !! q = Some (set_pt_waiters l pt) ∧ l ⊆ pt_waiters pt;
  wfr_proc : ∀ p ip, k_procs σ !! p = Some ip →
    ∃ b, k_procs σ' !! p = Some (set_ip_woken b ip);
  wfr_noproc : ∀ p, k_procs σ !! p = None → k_procs σ' !! p = None;
  wfr_waiter : ∀ w x', k_waiters σ' !! w = Some x' →
    ∃ x b, k_waiters σ !! w = Some x ∧ x' = set_w_onport b x;
  wfr_blocked : ∀ p, blocked σ' p → blocked σ p;
  wfr_core : core σ' = core σ;
  wfr_hangup : k_hangup_gen σ' = k_hangup_gen σ
}.

Lemma wframe_refl q σ : wframe q σ σ.
Proof.
  split; try done.
  - intros pt H. exists (pt_waiters pt). split; [by destruct pt|done].
  - intros p ip H. exists (ip_woken ip). by destruct ip.
  - intros w x H. exists x, (w_onport x). by destruct x.
Qed.

Lemma wframe_trans q σ1 σ2 σ3 : wframe q σ1 σ2 → wframe q σ2 σ3 → wframe q σ1 σ3.
Proof.
  intros A B. split.
  - intros q' H. by rewrite (wfr_port q _ _ B), (wfr_port q _ _ A).
  - intros pt H. destruct (wfr_self q _ _ A pt H) as (l & H1 & Hl).
    destruct (wfr_self q _ _ B _ H1) as (l' & H2 & Hl'). exists l'. split; [done|].
    simpl in Hl'. by etrans.
  - intros p ip H. destruct (wfr_proc q _ _ A p ip H) as [b H1].
    destruct (wfr_proc q _ _ B _ _ H1) as [b' H2]. by exists b'.
  - intros p H. by apply (wfr_noproc q _ _ B), (wfr_noproc q _ _ A).
  - intros w x H. destruct (wfr_waiter q _ _ B w x H) as (x1 & b & H1 & ->).
    destruct (wfr_waiter q _ _ A w x1 H1) as (x2 & b' & H2 & ->). by exists x2, b.
  - intros p H. by apply (wfr_blocked q _ _ A), (wfr_blocked q _ _ B).
  - by rewrite (wfr_core q _ _ B), (wfr_core q _ _ A).
  - by rewrite (wfr_hangup q _ _ B), (wfr_hangup q _ _ A).
Qed.

Lemma core_ipc σ σ' : core σ' = core σ → k_ipc σ' = k_ipc σ.
Proof. intros E. by injection E. Qed.

Lemma held_same σ σ' : k_ipc σ' = k_ipc σ →
  ipcheld σ' = ipcheld σ ∧ ipcheld_any σ' = ipcheld_any σ ∧
  ∀ pt, ipcheld_one_port pt σ' = ipcheld_one_port pt σ.
Proof.
  intros E. unfold ipcheld, ipcheld_any, ipcheld_one_port, ipcheld_one, depth.
  by rewrite E.
Qed.

(** * One waiter woken *)

(** The state once [w] of port [q], waiting for proc [p], has been claimed and
    unlinked, and the scheduler left at [s]. *)
Definition woken_st (q : nat) (pt : kport) (w : wid) (x : waiter) (ip : iproc) (s : sched)
    (σ : kst) : kst :=
  set_k_sch s (set_k_waiters (<[w := set_w_onport false x]> (k_waiters σ))
    (put q (set_pt_waiters (filter (λ y, y ≠ w) (pt_waiters pt)) pt)
      (set_k_claim_won (k_claim_won σ + 1) (puti (w_p x) (set_ip_woken true ip) σ)))).

Section hit.
Context {X : list (nat * bool)} {Y : msgbufs} {σ : kst} (K : kinv X Y σ).
Context {q : nat} {pt : kport} {w : wid} {x : waiter} {ip : iproc}.
Context (Hq : k_ports σ !! q = Some pt) (Hw : w ∈ pt_waiters pt).
Context (Hx : k_waiters σ !! w = Some x) (Hip : k_procs σ !! w_p x = Some ip).
Context (Hb : blocked σ (w_p x)).
Context {s : sched} {sp sp' : sproc}.
Context (Hsp : s_procs (k_sch σ) !! w_p x = Some sp).
Context (Hwf : rq_wf s) (Hheld : s_held s = false).
Context (Hs : s_procs s = <[w_p x := sp']> (s_procs (k_sch σ))).
Context (Hst : sp_status sp' ≠ BLOCKED).

Abbreviation σ' := (woken_st q pt w x ip s σ).

Lemma hit_port : w_port x = q.
Proof.
  destruct (wo_port σ (ki_wait X Y σ K) q pt w Hq Hw) as (x' & ? & Hx' & E & _).
  by simplify_eq.
Qed.

Lemma hit_blocked p : blocked σ' p → blocked σ p ∧ p ≠ w_p x.
Proof.
  intros (sp0 & H & Hbl). simpl in H. rewrite Hs in H.
  apply lookup_insert_Some in H as [[<- <-]|[Hne H]]; [done|].
  split; [by exists sp0|done].
Qed.

Lemma hit_refs : refs_ok X σ'.
Proof.
  assert (refs_ok X (puti (w_p x) (set_ip_woken true ip) σ)) as R1.
  { by eapply refs_proc_frame; [exact Hip|apply K|]. }
  eapply refs_ok_ext.
  - eapply (refs_frame (σ := puti (w_p x) (set_ip_woken true ip) σ) (q := q) (pt := pt) Hq
              (set_pt_waiters (filter (λ y, y ≠ w) (pt_waiters pt)) pt)); [done..|].
    by intros [].
  - done.
  - done.
  - done.
  - done.
  - done.
Qed.

Lemma hit_wait : wait_ok σ'.
Proof.
  pose proof (ki_wait X Y σ K) as W. split; simpl.
  - intros q' pt' w' H Hin. apply lookup_insert_Some in H as [[<- <-]|[Hne H]]; simpl in *.
    + apply list_elem_of_filter in Hin as [Hne Hin].
      destruct (wo_port σ W q pt w' Hq Hin) as (x' & ip' & Hx' & E & Ho & Hp & Hi).
      exists x'. rewrite lookup_insert_ne by done.
      destruct (decide (w_p x = w_p x')) as [Ep|Ep].
      * rewrite <-Ep, lookup_insert_eq. rewrite <-Ep in Hp. simplify_eq. eexists; split_and!; done.
      * rewrite lookup_insert_ne by done. eexists; split_and!; done.
    + destruct (wo_port σ W q' pt' w' H Hin) as (x' & ip' & Hx' & E & Ho & Hp & Hi).
      assert (w' ≠ w) by (intros ->; apply Hne; pose proof hit_port; simplify_eq; done).
      exists x'. rewrite lookup_insert_ne by done.
      destruct (decide (w_p x = w_p x')) as [Ep|Ep].
      * rewrite <-Ep, lookup_insert_eq. rewrite <-Ep in Hp. simplify_eq. eexists; split_and!; done.
      * rewrite lookup_insert_ne by done. eexists; split_and!; done.
  - intros p ip' w' H Hin.
    assert (∃ ip0, k_procs σ !! p = Some ip0 ∧ w' ∈ ip_waiters ip0 ∧ all_rights ip' = all_rights ip0)
      as (ip0 & H0 & Hin0 & Er).
    { apply lookup_insert_Some in H as [[<- <-]|[Hne H]]; [exists ip|exists ip']; done. }
    destruct (wo_proc σ W p ip0 w' H0 Hin0) as (x' & Hx' & Ep & Ho).
    destruct (decide (w = w')) as [<-|Hne].
    { exists (set_w_onport false x). rewrite lookup_insert_eq. simplify_eq. done. }
    exists x'. rewrite lookup_insert_ne by done. split_and!; [done..|]. intros Hon.
    destruct (Ho Hon) as (pt0 & Hp0 & Hw0 & Hr0).
    unfold rights_n in *. rewrite Er.
    destruct (decide (q = w_port x')) as [Eq|Hq']; [rewrite <-Eq in *|].
    + rewrite lookup_insert_eq. simplify_eq. eexists. split_and!; [done| |done].
      simpl. by apply list_elem_of_filter.
    + rewrite lookup_insert_ne by done. eauto.
  - intros p ip' p' H Hin. apply lookup_insert_Some in H as [[<- <-]|[Hne H]].
    + by apply (wo_w0 σ W _ ip).
    + by apply (wo_w0 σ W p ip').
Qed.

Lemma hit_kinv : kinv X Y σ'.
Proof.
  split.
  - apply hit_refs.
  - intros q' pt' H. simpl in H. apply lookup_insert_Some in H as [[<- <-]|[_ H]].
    + destruct (ki_port X Y σ K q pt Hq). split; simpl; try done. by apply NoDup_filter.
    + by apply (ki_port X Y σ K q').
  - intros p ip' H. simpl in H. apply lookup_insert_Some in H as [[<- <-]|[_ H]].
    + by destruct (ki_proc X Y σ K (w_p x) ip Hip) as [[? ?] ? ? ? ?].
    + by apply (ki_proc X Y σ K p).
  - destruct (ki_chunks X Y σ K) as [H1 H2].
    assert (∀ c, owned c Y (k_ports σ') = owned c Y (k_ports σ)) as E.
    { intros c. simpl. unfold owned. by rewrite (msum_insert_Some _ _ _ _ _ Hq), Z.sub_add. }
    split; intros c; rewrite E; [apply H1|apply H2].
  - apply hit_wait.
  - split; simpl; try done.
    + intros p ip' H. rewrite Hs. apply lookup_insert_is_Some'.
      apply lookup_insert_Some in H as [[<- _]|[_ H]]; [by left|right].
      by apply (sk_proc σ (ki_sched X Y σ K) p ip').
    + intros p ip' H Hk [Hbl Hne]%hit_blocked.
      apply lookup_insert_Some in H as [[<- _]|[_ H]]; [done|].
      by apply (sk_woken σ (ki_sched X Y σ K) p ip').
  - intros q' [pt' H]. simpl in *. apply lookup_insert_Some in H as [[<- _]|[_ H]].
    + apply (ki_fresh X Y σ K). by exists pt.
    + apply (ki_fresh X Y σ K). by exists pt'.
  - intros a [x' H]. simpl in *. apply lookup_insert_Some in H as [[E _]|[_ H]].
    + apply (ki_wfresh X Y σ K). rewrite <-E. by exists x.
    + apply (ki_wfresh X Y σ K). by exists x'.
  - apply (ki_max X Y σ K).
Qed.

Lemma hit_frame : wframe q σ σ'.
Proof.
  split; simpl; try done.
  - intros q' Hne. by rewrite lookup_insert_ne.
  - intros pt' H. simplify_eq. rewrite lookup_insert_eq. eexists. split; [done|].
    intros y Hy. by apply list_elem_of_filter in Hy as [_ ?].
  - intros p ip' H. destruct (decide (w_p x = p)) as [<-|Hne].
    + rewrite lookup_insert_eq. simplify_eq. by exists true.
    + rewrite lookup_insert_ne by done. exists (ip_woken ip'). rewrite H. by destruct ip'.
  - intros p H. rewrite lookup_insert_ne; [done|]. intros E. rewrite <-E in H. congruence.
  - intros w' x' H. apply lookup_insert_Some in H as [[<- <-]|[_ H]]; [by exists x, false|].
    exists x', (w_onport x'). by destruct x'.
  - intros p H. by apply hit_blocked in H as [? _].
Qed.

End hit.

(** * The loops *)

Lemma lift_make_ready X Y σ p :
  kinv X Y σ → ipcheld_any σ = true → blocked σ p →
  ∃ s sp', make_ready_ipc p σ = Ok (tt, set_k_sch s σ) ∧ rq_wf s ∧ s_held s = false ∧
    s_procs s = <[p := sp']> (s_procs (k_sch σ)) ∧ sp_status sp' ≠ BLOCKED.
Proof.
  intros K Hany (sp & Hsp & Hbl). destruct (ki_sched X Y σ K) as [Hwf Hh _ _].
  destruct (make_ready_spec (k_sch σ) p sp Hwf Hh Hsp)
    as (s & sp' & E & Hwf' & Hh' & Hs & Hm & _).
  exists s, sp'. unfold make_ready_ipc. rewrite bind_assert_any by done.
  unfold lift_s. rewrite E. split_and!; try done. unfold made_ready in Hm.
  rewrite Hbl in Hm. simpl in Hm. case_match; destruct Hm as [Hm _]; by rewrite Hm.
Qed.

(** The waiters of [q] of one kind whose proc is asleep. *)
Definition sleeping (send : bool) (q : nat) (w : wid) (σ : kst) : Prop :=
  ∃ pt x, k_ports σ !! q = Some pt ∧ w ∈ pt_waiters pt ∧ k_waiters σ !! w = Some x ∧
    w_send x = send ∧ blocked σ (w_p x).

Lemma sleeping_mono send q w σ σ' :
  is_Some (k_ports σ !! q) → wframe q σ σ' → sleeping send q w σ' → sleeping send q w σ.
Proof.
  intros [pt0 H0] F (pt & x & Hq & Hw & Hx & Hs & Hb).
  destruct (wfr_self q σ σ' F pt0 H0) as (l & H1 & Hl).
  destruct (wfr_waiter q σ σ' F w x Hx) as (x0 & b & Hx0 & ->).
  simplify_eq. exists pt0, x0. split_and!; try done; [by apply Hl|].
  by apply (wfr_blocked q σ σ' F).
Qed.

Lemma wake_one_spec X Y σ send q pt w :
  kinv X Y σ → k_ports σ !! q = Some pt → w ∈ pt_waiters pt → ipcheld_one_port pt σ = true →
  ∃ σ', wake_one send q w σ = Ok (tt, σ') ∧ kinv X Y σ' ∧ wframe q σ σ' ∧
    ¬ sleeping send q w σ' ∧
    (∀ pt', k_ports σ' !! q = Some pt' → ∀ w', w' ≠ w → w' ∈ pt_waiters pt → w' ∈ pt_waiters pt').
Proof.
  intros K Hq Hw Hl.
  destruct (wo_port σ (ki_wait X Y σ K) q pt w Hq Hw) as (x & ip & Hx & E & Ho & Hip & Hin).
  assert (∀ P : Prop, (¬ sleeping send q w σ) →
    ∃ σ', Ok (tt, σ) = Ok (tt, σ') ∧ kinv X Y σ' ∧ wframe q σ σ' ∧ ¬ sleeping send q w σ' ∧
    (∀ pt', k_ports σ' !! q = Some pt' → ∀ w', w' ≠ w → w' ∈ pt_waiters pt → w' ∈ pt_waiters pt'))
    as Hskip.
  { intros _ Hn. exists σ. split_and!; try done; [apply wframe_refl|].
    intros pt' H. by simplify_eq. }
  unfold wake_one. rewrite (bind_get_waiter w x) by done.
  destruct (Bool.eqb (w_send x) send) eqn:Hk; cbn [negb].
  2: { apply (Hskip True). intros (pt' & x' & _ & _ & Hx' & Hs & _). simplify_eq.
       by rewrite Bool.eqb_reflx in Hk. }
  apply Bool.eqb_prop in Hk.
  destruct (sk_proc σ (ki_sched X Y σ K) (w_p x) ip Hip) as [sp Hsp].
  unfold status_of. rewrite bind_assoc.
  rewrite (bind_ok (lift_s (proc (w_p x))) _ σ sp σ).
  2: { unfold lift_s, proc. rewrite Hsp. by destruct σ. }
  rewrite bind_ret. case_bool_decide as Hst; cbn [negb].
  2: { apply (Hskip True). intros (pt' & x' & _ & _ & Hx' & _ & (sp' & Hsp' & ?)). by simplify_eq. }
  assert (blocked σ (w_p x)) as Hb by by exists sp.
  assert (ip_woken ip = false) as Hwk.
  { destruct (ip_woken ip) eqn:Ew; [|done].
    by destruct (sk_woken σ (ki_sched X Y σ K) (w_p x) ip Hip Ew). }
  unfold wake_claim. rewrite bind_assoc, (bind_get_iproc (w_p x) ip) by done.
  rewrite Hwk, bind_assoc, bind_put_iproc, bind_assoc, bind_modify, bind_ret. cbn [negb].
  destruct (lift_make_ready X Y σ (w_p x) K) as (s & sp' & Em & Hwf & Hh & Hs & Hnb);
    [by eapply ipcheld_port_any|done|].
  exists (woken_st q pt w x ip s σ).
  split_and!.
  - unfold waiter_unlink. cbv iota. rewrite bind_assoc, (bind_get_port q pt) by done.
    rewrite decide_True by done. rewrite bind_put_port, bind_put_waiter.
    unfold make_ready_ipc in *. rewrite bind_assert_any in Em by by eapply ipcheld_port_any.
    rewrite bind_assert_any by by eapply ipcheld_port_any.
    unfold lift_s in *. simpl. destruct (make_ready (w_p x) (k_sch σ)) as [[[] s0]|]; [|done].
    assert (s0 = s) as -> by (injection Em as Em; by destruct σ; simplify_eq/=). done.
  - by eapply hit_kinv.
  - by eapply hit_frame.
  - intros (pt' & x' & Hp' & Hw' & _). simpl in Hp'. rewrite lookup_insert_eq in Hp'.
    simplify_eq. simpl in Hw'. by apply list_elem_of_filter in Hw' as [? _].
  - intros pt' Hp' w' Hne Hw'. simpl in Hp'. rewrite lookup_insert_eq in Hp'. simplify_eq.
    simpl. by apply list_elem_of_filter.
Qed.

Lemma wake_iter_spec X Y send q l :
  NoDup l → ∀ σ pt, kinv X Y σ → k_ports σ !! q = Some pt → l ⊆ pt_waiters pt →
  ipcheld_one_port pt σ = true →
  ∃ σ', st_iter (wake_one send q) l σ = Ok (tt, σ') ∧ kinv X Y σ' ∧ wframe q σ σ' ∧
    ∀ w, w ∈ l → ¬ sleeping send q w σ'.
Proof.
  induction l as [|w l IH]; intros Hnd σ pt K Hq Hsub Hl.
  { exists σ. split_and!; [done|done|apply wframe_refl|]. intros w H. by apply elem_of_nil in H. }
  inversion Hnd as [|?? Hnin Hnd']; subst.
  destruct (wake_one_spec X Y σ send q pt w K Hq) as (σ1 & E & K1 & F1 & Hn & Hk);
    [apply Hsub; left|done|].
  destruct (wfr_self q σ σ1 F1 pt Hq) as (l1 & Hq1 & _).
  destruct (IH Hnd' σ1 _ K1 Hq1) as (σ2 & E2 & K2 & F2 & Hn2).
  { simpl. intros w' Hw'. apply (Hk _ Hq1); [|apply Hsub; by right]. intros ->. done. }
  { change (ipcheld_one_port pt σ1 = true).
    destruct (held_same σ σ1) as (_ & _ & ->); [apply core_ipc, (wfr_core q), F1|done]. }
  exists σ2. split_and!; [|done|by eapply wframe_trans|].
  - simpl. by rewrite (bind_ok _ _ σ tt σ1).
  - intros w' [->|Hw']%elem_of_cons; [|by apply Hn2].
    intros Hs. apply Hn. eapply sleeping_mono; [|done|done]. by rewrite Hq1.
Qed.

(** Both wake loops: they return, keep the invariant, change no more than
    [wframe] allows, and leave no waiter of their kind asleep on the port. *)
Lemma wake_waiters_spec X Y σ send q pt :
  kinv X Y σ → k_ports σ !! q = Some pt → ipcheld_one_port pt σ = true →
  ∃ σ', wake_waiters send q σ = Ok (tt, σ') ∧ kinv X Y σ' ∧ wframe q σ σ' ∧
    ∀ w, ¬ sleeping send q w σ'.
Proof.
  intros K Hq Hl. unfold wake_waiters.
  rewrite (bind_assert_port q pt), (bind_get_port q pt) by done.
  destruct (wake_iter_spec X Y send q (pt_waiters pt)) with (σ := σ) (pt := pt)
    as (σ' & E & K' & F & Hn); try done; [by apply (ki_port X Y σ K q)|].
  exists σ'. split_and!; try done. intros w Hs. pose proof Hs as (pt' & x & Hq' & Hw & _).
  destruct (wfr_self q σ σ' F pt Hq) as (l & Hq1 & Hsub). simplify_eq.
  apply (Hn w); [by apply Hsub|done].
Qed.

(** A wake leaves every port's sleepers as justified as they were. *)
Lemma wframe_wake_ok q σ σ' q' :
  is_Some (k_ports σ !! q) → wframe q σ σ' → wake_ok_at σ q' → wake_ok_at σ' q'.
Proof.
  intros [pt0 H0] F Hok pt w x Hq Hw Hx Hb.
  destruct (wfr_waiter q σ σ' F w x Hx) as (x0 & b & Hx0 & ->). simpl in *.
  apply (wfr_blocked q σ σ' F) in Hb.
  destruct (decide (q' = q)) as [->|Hne].
  - destruct (wfr_self q σ σ' F pt0 H0) as (l & H1 & Hl). simplify_eq. simpl in *.
    apply (Hok pt0 w x0); try done. by apply Hl.
  - rewrite (wfr_port q σ σ' F q' Hne) in Hq. by apply (Hok pt w x0).
Qed.
