(* ===== verification/PortRef.v ===== *)
(** Dropping references: [port_unref], [port_flush], [release_inflight] and
    [msg_free] of src/src/port.c.

    Dropping a port's last receive right flushes its queue, which drops the rights
    the queued messages carry, which may flush further queues.  [rk] below orders
    ports so that a queued message only names ports below the one it is queued on;
    with such an order the cascade never comes back to a port that is still being
    dropped, and it is safe and terminates.  Without one it is not safe: see
    [unref_cycle_uaf]. *)

From S2P Require Import Prelude Clock Sched Ports PortInv KInv PortWake.
From stdpp Require Import prelude list gmap strings.
From Stdlib Require Import ZArith Lia.
Open Scope Z_scope.

(** * The invariant across one port's update *)

Lemma wait_ok_put σ q pt pt' :
  wait_ok σ → k_ports σ !! q = Some pt → pt_waiters pt' = pt_waiters pt →
  wait_ok (put q pt' σ).
Proof.
  intros W Hq Ew. split; simpl.
  - intros q' p w H Hin. apply lookup_insert_Some in H as [[<- <-]|[_ H]].
    + rewrite Ew in Hin. by apply (wo_port σ W q pt).
    + by apply (wo_port σ W q' p).
  - intros p ip w Hp Hin. destruct (wo_proc σ W p ip w Hp Hin) as (x & Hx & E & Ho).
    exists x. split_and!; [done..|]. intros Hon.
    destruct (Ho Hon) as (p0 & Hp0 & Hw & Hr).
    destruct (decide (q = w_port x)) as [Eq|Hne].
    + rewrite <-Eq in *. rewrite lookup_insert_eq. simplify_eq. exists pt'. by rewrite Ew.
    + rewrite lookup_insert_ne by done. eauto.
  - apply (wo_w0 σ W).
Qed.

Lemma sched_ok_ext σ σ' :
  sched_ok σ → k_procs σ' = k_procs σ → k_sch σ' = k_sch σ → sched_ok σ'.
Proof.
  intros [? ? ? ?] Ep Es. split; unfold blocked in *; rewrite ?Ep, ?Es; done.
Qed.

Lemma kinv_put X Y X' Y' σ q pt pt' :
  kinv X Y σ → k_ports σ !! q = Some pt → refs_ok X' (put q pt' σ) → port_ok pt' →
  pt_waiters pt' = pt_waiters pt →
  (∀ c, queue_bufs c (pt_queue pt') + bufs_n c Y' = queue_bufs c (pt_queue pt) + bufs_n c Y) →
  kinv X' Y' (put q pt' σ).
Proof.
  intros K Hq R Hok Ew Hc. split; try done.
  - intros q' p H. simpl in H. apply lookup_insert_Some in H as [[<- <-]|[_ H]]; [done|].
    by apply (ki_port X Y σ K q').
  - apply (ki_proc X Y σ K).
  - destruct (ki_chunks X Y σ K) as [H1 H2].
    assert (∀ c, owned c Y' (k_ports (put q pt' σ)) = owned c Y (k_ports σ)) as E.
    { intros c. simpl. unfold owned. rewrite (msum_insert_Some _ _ _ _ _ Hq).
      specialize (Hc c). lia. }
    split; intros c; rewrite E; [apply H1|apply H2].
  - eapply wait_ok_put; [apply K|done|done].
  - by eapply sched_ok_ext; [apply (ki_sched X Y σ K)|..].
  - intros q' [p H]. simpl in *. apply lookup_insert_Some in H as [[<- _]|[_ H]];
      apply (ki_fresh X Y σ K); eexists; done.
  - apply (ki_wfresh X Y σ K).
  - apply (ki_max X Y σ K).
Qed.

(** A port's queue and bookkeeping apart, only its counters move. *)
Lemma kinv_ext X Y σ σ' :
  kinv X Y σ → k_ports σ' = k_ports σ → k_portv σ' = k_portv σ → k_procs σ' = k_procs σ →
  k_timers σ' = k_timers σ → k_krefs σ' = k_krefs σ → k_chunks σ' = k_chunks σ →
  k_waiters σ' = k_waiters σ → k_sch σ' = k_sch σ → (k_next σ <= k_next σ')%nat →
  k_maxports σ' = k_maxports σ → kinv X Y σ'.
Proof.
  intros K Ep Ev Er Et Ek Ec Ew Es Hn Em. split.
  - eapply refs_ok_ext; [apply K|done..].
  - rewrite Ep. apply K.
  - rewrite Er. apply K.
  - destruct (ki_chunks X Y σ K). split; rewrite Ep; [done|]. by rewrite Ec.
  - destruct (ki_wait X Y σ K). split; rewrite ?Ep, ?Er, ?Ew; done.
  - by eapply sched_ok_ext; [apply (ki_sched X Y σ K)|..].
  - intros q [pt H]. rewrite Ep in H. pose proof (ki_fresh X Y σ K q (ex_intro _ pt H)). lia.
  - intros a H. rewrite Ew in H. pose proof (ki_wfresh X Y σ K a H). lia.
  - rewrite Em. apply K.
Qed.

(** * Freeing a port, and a chunk *)

Lemma kinv_free X Y σ q pt :
  kinv X Y σ → k_ports σ !! q = Some pt → pt_nrights pt <= 0 → pt_queue pt = [] →
  kinv X Y (drop_port q pt σ).
Proof.
  intros K Hq Hn Hqq.
  destruct (count_zero X σ q (pt_idx pt)) as (Hheld & _).
  { by rewrite <-(ro_count X σ (ki_refs X Y σ K) false q pt Hq). }
  split.
  - by apply refs_free; [apply K|..].
  - intros q' p H. simpl in H. apply lookup_delete_Some in H as [_ H]. by apply (ki_port X Y σ K q').
  - apply (ki_proc X Y σ K).
  - destruct (ki_chunks X Y σ K) as [H1 H2].
    assert (∀ c, owned c Y (k_ports (drop_port q pt σ)) = owned c Y (k_ports σ)) as E.
    { intros c. simpl. unfold owned. rewrite (msum_delete _ _ _ _ Hq), Hqq.
      change (queue_bufs c []) with 0. lia. }
    split; intros c; rewrite E; [apply H1|apply H2].
  - destruct (ki_wait X Y σ K) as [W1 W2 W3]. split; simpl; try done.
    + intros q' p w H. apply lookup_delete_Some in H as [_ H]. by apply W1.
    + intros p ip w Hp Hin. destruct (W2 p ip w Hp Hin) as (x & Hx & E & Ho).
      exists x. split_and!; [done..|]. intros Hon.
      destruct (Ho Hon) as (p0 & Hp0 & Hw & Hr). exists p0. split_and!; [|done..].
      rewrite lookup_delete_ne; [done|]. intros ->.
      pose proof (held_proc_le (w_port x) p ip _ Hp). lia.
  - by eapply sched_ok_ext; [apply (ki_sched X Y σ K)|..].
  - intros q' [p H]. simpl in H. apply lookup_delete_Some in H as [_ H].
    apply (ki_fresh X Y σ K). by exists p.
  - apply (ki_wfresh X Y σ K).
  - apply (ki_max X Y σ K).
Qed.

Lemma bufs_n_nonneg c l : 0 <= bufs_n c l.
Proof. apply zsum_nonneg. intros. apply b2z_range. Qed.
Lemma queue_bufs_nonneg c l : 0 <= queue_bufs c l.
Proof. apply zsum_nonneg. intros. apply bufs_n_nonneg. Qed.
Lemma bufs_n_cons c e l : bufs_n c (e :: l) = chunk1 c e + bufs_n c l.
Proof. done. Qed.
Lemma bufs_n_app c l l' : bufs_n c (l ++ l') = bufs_n c l + bufs_n c l'.
Proof. apply zsum_app. Qed.
Lemma chunk1_self c n : chunk1 c (Some c, n) = 1.
Proof. unfold chunk1. by rewrite bool_decide_eq_true_2. Qed.

Lemma owned_nonneg c Y ports : 0 <= owned c Y ports.
Proof.
  unfold owned. pose proof (bufs_n_nonneg c Y).
  assert (0 <= msum (λ _ pt, queue_bufs c (pt_queue pt)) ports); [|lia].
  apply msum_nonneg. intros. apply queue_bufs_nonneg.
Qed.

Lemma chunks_drop Y σ c n :
  chunks_ok ((Some c, n) :: Y) σ →
  c ∈ k_chunks σ ∧ chunks_ok Y (set_k_chunks (k_chunks σ ∖ {[c]}) σ).
Proof.
  intros [H1 H2].
  assert (∀ d, owned d ((Some c, n) :: Y) (k_ports σ) =
               chunk1 d (Some c, n) + owned d Y (k_ports σ)) as E.
  { intros d. unfold owned. rewrite bufs_n_cons. lia. }
  pose proof (E c) as Ec. rewrite chunk1_self in Ec.
  pose proof (owned_nonneg c Y (k_ports σ)). specialize (H1 c) as H1c.
  split; [apply H2; lia|]. split; simpl.
  - intros d. specialize (H1 d). rewrite E in H1. pose proof (b2z_range (bool_decide (Some c = Some d))).
    unfold chunk1 in H1. simpl in H1. lia.
  - intros d Hd. assert (d ≠ c) by (intros ->; lia).
    assert (d ∈ k_chunks σ); [|set_solver]. apply H2. rewrite E.
    unfold chunk1. pose proof (b2z_range (bool_decide ((Some c, n).1 = Some d))). lia.
Qed.

Lemma kinv_chunks X Y Y' σ cs :
  kinv X Y σ → chunks_ok Y' (set_k_chunks cs σ) → kinv X Y' (set_k_chunks cs σ).
Proof.
  intros K C. split; try apply K; [|done|..].
  - eapply refs_ok_ext; [apply K|done..].
  - destruct (ki_wait X Y σ K). by split.
  - by eapply sched_ok_ext; [apply (ki_sched X Y σ K)|..].
Qed.

Lemma msgbufs_free_spec X b :
  ∀ Y σ, kinv X (b ++ Y) σ →
  ∃ cs, msgbufs_free b σ = Ok (tt, set_k_chunks cs σ) ∧ kinv X Y (set_k_chunks cs σ).
Proof.
  induction b as [|[o n] b IH]; intros Y σ K.
  { exists (k_chunks σ). cbn. unfold st_ret. split; [by destruct σ|].
    eapply kinv_chunks; [exact K|]. destruct (ki_chunks _ _ _ K). by split. }
  destruct o as [c|].
  - destruct (chunks_drop (b ++ Y) σ c n) as [Hin C]; [apply (ki_chunks _ _ _ K)|].
    destruct (IH Y (set_k_chunks (k_chunks σ ∖ {[c]}) σ)) as (cs & E & K').
    { by eapply kinv_chunks. }
    exists cs. split; [|done]. unfold msgbufs_free in *. cbn [st_iter fst].
    rewrite (bind_ok _ _ σ tt (set_k_chunks (k_chunks σ ∖ {[c]}) σ)); [done|].
    unfold chunk_free. by rewrite decide_True.
  - destruct (IH Y σ) as (cs & E & K'); [|by exists cs].
    destruct (ki_chunks _ _ _ K) as [H1 H2].
    assert (kinv X (b ++ Y) (set_k_chunks (k_chunks σ) σ)) as K'.
    { eapply kinv_chunks; [exact K|]. by split. }
    eapply kinv_ext; [exact K'|done..].
Qed.

(** * How much a cascade may change *)

Lemma queued_msum σ :
  Z.of_nat (queued σ) = msum (λ _ pt, Z.of_nat (length (pt_queue pt))) (k_ports σ).
Proof.
  unfold queued. generalize (k_ports σ) as m. intros m.
  induction m as [|k a m E IH] using map_ind.
  { by rewrite map_fold_empty, msum_empty. }
  rewrite map_fold_insert_L by (done || intros; lia).
  rewrite msum_insert_None by done. lia.
Qed.

Lemma queued_put σ q pt pt' :
  k_ports σ !! q = Some pt →
  (queued (put q pt' σ) + length (pt_queue pt) = queued σ + length (pt_queue pt'))%nat.
Proof.
  intros Hq. pose proof (queued_msum (put q pt' σ)) as E1. pose proof (queued_msum σ) as E2.
  simpl in E1. rewrite (msum_insert_Some _ _ _ _ _ Hq) in E1. lia.
Qed.

Lemma queued_free σ q pt :
  k_ports σ !! q = Some pt → (queued (drop_port q pt σ) <= queued σ)%nat.
Proof.
  intros Hq. pose proof (queued_msum (drop_port q pt σ)) as E1. pose proof (queued_msum σ) as E2.
  simpl in E1. rewrite (msum_delete _ _ _ _ Hq) in E1. lia.
Qed.

(** What no reference drop touches. *)
Definition base (σ : kst) :=
  (k_maxports σ, k_porthigh σ, k_portgen σ, k_rights_high σ, k_timers σ, k_krefs σ, k_ipc σ,
   k_mem σ, k_nalloc σ, k_next σ, k_szbits σ, k_acct σ, k_bytes σ).

Section cascade.
Context (rk : nat → nat).

Definition ranked (σ : kst) : Prop :=
  ∀ q pt m ref q', k_ports σ !! q = Some pt → m ∈ pt_queue pt → ref ∈ m_refs m →
    k_portv σ !! fst ref = Some q' → (rk q' < rk q)%nat.

(** Some proc has a receive right to [q] in its table. *)
Definition receivable (σ : kst) (q : nat) : Prop :=
  ∃ p ip r, k_procs σ !! p = Some ip ∧ r ∈ all_rights ip ∧ r_used r = true ∧ r_recv r = true ∧ r_port r = q.

Lemma receivable_nrecv X Y σ q pt :
  kinv X Y σ → k_ports σ !! q = Some pt → receivable σ q → 1 <= pt_nrecv pt ∧ 1 <= pt_nrights pt.
Proof.
  intros K Hq (p & ip & r & Hp & Hr & Hu & Hv & Hrq). pose proof (ki_refs _ _ _ K) as R.
  pose proof (nrecv_pinned _ _ _ _ R Hq). pose proof (pinned_nonneg false q σ).
  assert (1 <= pt_nrecv pt); [|lia]. pose proof (ro_count _ _ R true q pt Hq) as C. cbn [nr] in C. rewrite C. unfold count.
  assert (rights_n true q ip <= held true q (k_procs σ)).
  { apply (msum_elem_le (λ _ ip, rights_n true q ip) _ p); [|done]. intros. apply rights_n_nonneg. }
  assert (1 <= rights_n true q ip).
  { assert (right1 true q r = 1) as <- by (unfold right1; by rewrite Hu, Hrq, Nat.eqb_refl, Hv).
    apply zsum_elem_le; [|done]. intros. apply b2z_range. }
  pose proof (inflight_nonneg true (pt_idx pt) (k_ports σ)). pose proof (refs_n_nonneg true (pt_idx pt) X).
  pose proof (pinned_nonneg true q σ). lia.
Qed.

(** A port some proc can receive on keeps its queue and is not killed. *)
Definition queues_kept (σ σ' : kst) : Prop :=
  ∀ q pt, k_ports σ !! q = Some pt → receivable σ q → ∃ pt', k_ports σ' !! q = Some pt' ∧
    pt_queue pt' = pt_queue pt ∧ pt_qbytes pt' = pt_qbytes pt ∧ pt_dead pt' = pt_dead pt.

Lemma queues_kept_refl σ : queues_kept σ σ.
Proof. intros q pt H _. by exists pt. Qed.
Lemma queues_kept_comp σ1 σ2 σ3 : (∀ q, receivable σ1 q → receivable σ2 q) → queues_kept σ1 σ2 → queues_kept σ2 σ3 → queues_kept σ1 σ3.
Proof.
  intros Hr A B q pt Hq H. destruct (A q pt Hq H) as (p2 & Hp2 & ? & ? & ?).
  destruct (B q p2 Hp2 (Hr q H)) as (p3 & Hp3 & ? & ? & ?). exists p3. split_and!; [done|congruence..].
Qed.
(** The same rights everywhere. *)
Definition same_procs (σ σ' : kst) : Prop :=
  ∀ p ip, k_procs σ !! p = Some ip → ∃ w, k_procs σ' !! p = Some (set_ip_woken w ip).
Lemma same_procs_refl σ σ' : k_procs σ' = k_procs σ → same_procs σ σ'.
Proof. intros E p ip H. exists (ip_woken ip). rewrite E. by destruct ip. Qed.
Lemma same_procs_trans σ1 σ2 σ3 : same_procs σ1 σ2 → same_procs σ2 σ3 → same_procs σ1 σ3.
Proof. intros A B p ip H. destruct (A p ip H) as [w H1]. destruct (B _ _ H1) as [w' H2]. by exists w'. Qed.
Lemma same_procs_receivable σ σ' q : same_procs σ σ' → receivable σ q → receivable σ' q.
Proof. intros A (p & ip & r & Hp & Hr). destruct (A p ip Hp) as [w Hw]. by exists p, (set_ip_woken w ip), r. Qed.

(** Ports of rank [b] and up are untouched; others lose messages, or go, unless some proc
    can receive on them. *)
Record uframe (b : nat) (σ σ' : kst) : Prop := mkUframe {
  uf_above : ∀ q, (b <= rk q)%nat → k_ports σ' !! q = k_ports σ !! q;
  uf_port : ∀ q pt', k_ports σ' !! q = Some pt' → ∃ pt, k_ports σ !! q = Some pt ∧
    pt_idx pt' = pt_idx pt ∧ pt_gen pt' = pt_gen pt ∧
    (pt_queue pt' = pt_queue pt ∨ pt_queue pt' = []);
  uf_portv : ∀ i q, k_portv σ' !! i = Some q → k_portv σ !! i = Some q;
  uf_proc : ∀ p ip, k_procs σ !! p = Some ip → ∃ w, k_procs σ' !! p = Some (set_ip_woken w ip);
  uf_noproc : ∀ p, k_procs σ !! p = None → k_procs σ' !! p = None;
  uf_blocked : ∀ p, blocked σ' p → blocked σ p;
  uf_base : base σ' = base σ;
  uf_queued : (queued σ' <= queued σ)%nat;
  uf_kept : queues_kept σ σ'
}.

(** The ports [P] picks out keep their sleepers justified. *)
Definition uwake (P : nat → Prop) (σ σ' : kst) : Prop :=
  ∀ q, P q → wake_ok_at σ q → wake_ok_at σ' q.

Lemma uframe_refl b σ : uframe b σ σ.
Proof.
  split; try done.
  - intros q pt H. exists pt. auto.
  - intros p ip H. exists (ip_woken ip). by destruct ip.
  - intros q pt H _. by exists pt.
Qed.

Lemma uframe_trans b σ1 σ2 σ3 : uframe b σ1 σ2 → uframe b σ2 σ3 → uframe b σ1 σ3.
Proof.
  intros A B. split.
  - intros q H. by rewrite (uf_above b _ _ B), (uf_above b _ _ A).
  - intros q pt H. destruct (uf_port b _ _ B q pt H) as (p2 & H2 & Hi & Hg & Hq).
    destruct (uf_port b _ _ A q p2 H2) as (p1 & H1 & Hi' & Hg' & Hq'). exists p1.
    split_and!; [done|congruence|congruence|]. destruct Hq as [->|]; auto.
  - intros i q H. by apply (uf_portv b _ _ A), (uf_portv b _ _ B).
  - intros p ip H. destruct (uf_proc b _ _ A p ip H) as [w H1].
    destruct (uf_proc b _ _ B _ _ H1) as [w' H2]. by exists w'.
  - intros p H. by apply (uf_noproc b _ _ B), (uf_noproc b _ _ A).
  - intros p H. by apply (uf_blocked b _ _ A), (uf_blocked b _ _ B).
  - by rewrite (uf_base b _ _ B), (uf_base b _ _ A).
  - pose proof (uf_queued b _ _ A). pose proof (uf_queued b _ _ B). lia.
  - eapply queues_kept_comp; [|apply (uf_kept b _ _ A)|apply (uf_kept b _ _ B)]. intros q. apply same_procs_receivable. exact (uf_proc b _ _ A).
Qed.

Lemma uframe_weaken b b' σ σ' : (b <= b')%nat → uframe b σ σ' → uframe b' σ σ'.
Proof. intros Hb [H1 ? ? ? ? ? ? ? ?]. split; try done. intros q Hq. apply H1. lia. Qed.

Lemma ranked_uframe b σ σ' : uframe b σ σ' → ranked σ → ranked σ'.
Proof.
  intros F H q pt m ref q' Hq Hm Hr Hv.
  destruct (uf_port b _ _ F q pt Hq) as (p & Hp & _ & _ & [E|E]); rewrite E in Hm.
  - eapply H; [done..|]. by apply (uf_portv b _ _ F).
  - by apply elem_of_nil in Hm.
Qed.

Lemma ipcheld_base σ σ' : base σ' = base σ → ipcheld σ' = ipcheld σ.
Proof. intros E. apply held_same. by injection E. Qed.

Lemma uframe_wframe b q pt σ σ' :
  k_ports σ !! q = Some pt → (rk q < b)%nat → wframe q σ σ' → uframe b σ σ'.
Proof.
  intros Hq Hb F. destruct (wfr_self q σ σ' F pt Hq) as (l & Hq' & _).
  assert (∀ q0 pt', k_ports σ' !! q0 = Some pt' → ∃ pt0 l, k_ports σ !! q0 = Some pt0 ∧
    pt' = set_pt_waiters l pt0) as Hp.
  { intros q0 pt' H. destruct (decide (q0 = q)) as [->|Hne]; [simplify_eq; eauto|].
    rewrite (wfr_port q σ σ' F q0 Hne) in H. exists pt', (pt_waiters pt').
    by destruct pt'. }
  pose proof (wfr_core q σ σ' F) as Hc. unfold core in Hc. split.
  - intros q0 H. apply (wfr_port q σ σ' F). intros ->. lia.
  - intros q0 pt' H. destruct (Hp q0 pt' H) as (pt0 & l0 & H0 & ->). exists pt0. auto.
  - intros i q0. by assert (k_portv σ' = k_portv σ) as -> by by injection Hc.
  - apply (wfr_proc q σ σ' F).
  - apply (wfr_noproc q σ σ' F).
  - apply (wfr_blocked q σ σ' F).
  - unfold base. injection Hc. intros. congruence.
  - assert (k_ports σ' = <[q := set_pt_waiters l pt]> (k_ports σ)) as E.
    { apply map_eq. intros q0. destruct (decide (q = q0)) as [<-|Hne].
      - by rewrite lookup_insert_eq.
      - rewrite lookup_insert_ne by done. by apply (wfr_port q σ σ' F). }
    pose proof (queued_put σ q pt (set_pt_waiters l pt) Hq) as Hqd. simpl in Hqd.
    unfold queued in *. rewrite E. simpl in Hqd. lia.
  - intros q0 pt0 H0 _. destruct (decide (q0 = q)) as [->|Hne]; [simplify_eq; by eexists|].
    exists pt0. by rewrite (wfr_port q σ σ' F q0 Hne).
Qed.

Lemma uframe_put b q pt pt' σ :
  k_ports σ !! q = Some pt → (rk q < b)%nat → pt_idx pt' = pt_idx pt → pt_gen pt' = pt_gen pt →
  pt_queue pt' = pt_queue pt ∨ pt_queue pt' = [] →
  (receivable σ q → pt_queue pt' = pt_queue pt ∧ pt_qbytes pt' = pt_qbytes pt ∧ pt_dead pt' = pt_dead pt) →
  uframe b σ (put q pt' σ).
Proof.
  intros Hq Hb Hi Hg Hqq Hk. split; simpl; try done.
  - intros q0 H. rewrite lookup_insert_ne; [done|]. intros ->. lia.
  - intros q0 p H. apply lookup_insert_Some in H as [[<- <-]|[_ H]]; [exists pt|exists p]; auto.
  - intros p ip H. exists (ip_woken ip). by destruct ip.
  - pose proof (queued_put σ q pt pt' Hq). destruct Hqq as [E|E]; rewrite E in *; simpl in *; lia.
  - intros q0 pt0 H0 Hr. simpl. destruct (decide (q = q0)) as [<-|Hne].
    + rewrite lookup_insert_eq. simplify_eq. exists pt'. auto.
    + rewrite lookup_insert_ne by done. by exists pt0.
Qed.

Lemma uframe_free b q pt σ :
  k_ports σ !! q = Some pt → (rk q < b)%nat → ¬ receivable σ q → uframe b σ (drop_port q pt σ).
Proof.
  intros Hq Hb Hnr. split; simpl; try done.
  - intros q0 H. rewrite lookup_delete_ne; [done|]. intros ->. lia.
  - intros q0 p H. apply lookup_delete_Some in H as [_ H]. exists p. auto.
  - intros i q0 H. by apply lookup_delete_Some in H as [_ H].
  - intros p ip H. exists (ip_woken ip). by destruct ip.
  - by apply queued_free.
  - intros q0 pt0 H0 Hr. simpl. rewrite lookup_delete_ne by (by intros ->). by exists pt0.
Qed.

Lemma uwake_put (P : nat → Prop) q pt pt' σ :
  k_ports σ !! q = Some pt → pt_waiters pt' = pt_waiters pt →
  (P q → (pt_dead pt' = pt_dead pt ∧ (pt_queue pt' = pt_queue pt ∨ pt_queue pt' = []))) →
  uwake P σ (put q pt' σ).
Proof.
  intros Hq Hw Hd q0 HP Hok p w x Hp Hin Hx Hb. simpl in *.
  apply lookup_insert_Some in Hp as [[<- <-]|[_ Hp]]; [|by apply (Hok p w x)].
  rewrite Hw in Hin. specialize (Hok pt w x Hq Hin Hx Hb).
  destruct (Hd HP) as [E1 E2]. destruct (w_send x); [congruence|].
  destruct E2 as [E2|E2]; congruence.
Qed.

Lemma uwake_trans P σ1 σ2 σ3 : uwake P σ1 σ2 → uwake P σ2 σ3 → uwake P σ1 σ3.
Proof. unfold uwake. eauto. Qed.

(** * The cascade

    [U] is port_unref with fuel for [n] queued messages; what it does to a port is
    assumed here and proved by induction on [n] below. *)

Definition unref_spec (n : nat) (U : nat → KM unit) : Prop :=
  ∀ X Y q pt σ, kinv ((pt_idx pt, false) :: X) Y σ → k_ports σ !! q = Some pt →
    ranked σ → ipcheld σ = true → (queued σ < n)%nat →
    ∃ σ', U q σ = Ok (tt, σ') ∧ kinv X Y σ' ∧ uframe (S (rk q)) σ σ' ∧
      uwake (λ _, True) σ σ'.

(** What becomes of [q], which was [pt], once a reference to it is dropped: the last
    reference frees it and its slot; otherwise it stays with one reference less, dead
    and empty if no receive right is left, and nobody whose condition holds is left
    asleep on it. *)
Definition unref_fate (q : nat) (pt : kport) (σ' : kst) : Prop :=
  if pt_nrights pt <=? 1
  then k_ports σ' !! q = None ∧ k_portv σ' !! pt_idx pt = None
  else ∃ l, l ⊆ pt_waiters pt ∧ wake_ok_at σ' q ∧ k_ports σ' !! q =
    Some (let pt1 := set_pt_nrights (pt_nrights pt - 1) pt in
          set_pt_waiters l (if (pt_nrecv pt =? 0) && negb (pt_dead pt)
                            then set_pt_qbytes 0 (set_pt_queue [] (set_pt_dead true pt1)) else pt1)).

Section calls.
Context (n : nat) (U : nat → KM unit) (HU : unref_spec n U).

Lemma release_one_spec X Y σ ref q :
  kinv (ref :: X) Y σ → k_portv σ !! fst ref = Some q → ranked σ → ipcheld σ = true →
  (queued σ < n)%nat →
  ∃ σ', release_one U ref σ = Ok (tt, σ') ∧ kinv X Y σ' ∧ uframe (S (rk q)) σ σ' ∧
    uwake (λ _, True) σ σ'.
Proof.
  intros K Hv Hr Hl Hn. pose proof (ki_refs _ _ _ K) as R.
  pose proof Hv as (pt & Hq & Hi)%(ro_portv _ _ R).
  destruct ref as [i r]. simpl in Hv, Hi. subst i.
  unfold release_one. rewrite bind_get. cbn [fst snd]. rewrite Hv.
  destruct r; cbn [st_when].
  - rewrite (bind_upd_port q pt) by done.
    set (pt' := set_pt_nrecv (pt_nrecv pt - 1) pt).
    assert (kinv ((pt_idx pt', false) :: X) Y (put q pt' σ)) as K'.
    { eapply kinv_put; [exact K|exact Hq|by apply (refs_unrecv Hq)| |done|done].
      by destruct (ki_port _ _ _ K q pt Hq). }
    assert (uframe (S (rk q)) σ (put q pt' σ)) as F1.
    { apply (uframe_put _ q pt); auto. }
    destruct (HU X Y q pt' (put q pt' σ)) as (σ' & E & K2 & F & Wk); try done.
    { by simpl; rewrite lookup_insert_eq. }
    { by eapply ranked_uframe. }
    { pose proof (uf_queued _ _ _ F1). lia. }
    exists σ'. split_and!; [done|done|by eapply uframe_trans|].
    eapply uwake_trans; [|exact Wk]. eapply uwake_put; [done|done|auto].
  - rewrite bind_ret. by apply (HU X Y q pt).
Qed.

Lemma release_iter_spec b Y refs :
  ∀ X σ, kinv (refs ++ X) Y σ →
  (∀ ref q, ref ∈ refs → k_portv σ !! fst ref = Some q → (rk q < b)%nat) →
  ranked σ → ipcheld σ = true → (queued σ < n)%nat →
  ∃ σ', st_iter (release_one U) refs σ = Ok (tt, σ') ∧ kinv X Y σ' ∧ uframe b σ σ' ∧
    uwake (λ _, True) σ σ'.
Proof.
  induction refs as [|ref refs IH]; intros X σ K Hb Hr Hl Hn.
  { exists σ. split_and!; [done|done|apply uframe_refl|]. by intros q _ H. }
  destruct (named_port (ki_refs _ _ _ K) ref) as (q & pt & Hv & Hq & Hi).
  { apply (ro_hand _ _ (ki_refs _ _ _ K)). left. }
  destruct (release_one_spec (refs ++ X) Y σ ref q) as (σ1 & E1 & K1 & F1 & W1); try done.
  assert (rk q < b)%nat as Hrk by (apply (Hb ref); [left|done]).
  assert (uframe b σ σ1) as F1' by (eapply uframe_weaken; [|exact F1]; lia).
  destruct (IH X σ1) as (σ2 & E2 & K2 & F2 & W2); try done.
  { intros ref' q' Hin Hv'. apply (Hb ref'); [by right|]. by apply (uf_portv _ _ _ F1). }
  { by eapply ranked_uframe. }
  { by rewrite (ipcheld_base σ σ1) by apply (uf_base _ _ _ F1). }
  { pose proof (uf_queued _ _ _ F1). lia. }
  exists σ2. split_and!; [|done|by eapply uframe_trans|by eapply uwake_trans].
  cbn [st_iter]. by rewrite (bind_ok _ _ σ tt σ1).
Qed.

Lemma uframe_chunks b cs σ : uframe b σ (set_k_chunks cs σ) ∧ uwake (λ _, True) σ (set_k_chunks cs σ).
Proof.
  split; [|by intros q _ H]. split; try done.
  - intros q pt H. exists pt. auto.
  - intros p ip H. exists (ip_woken ip). by destruct ip.
  - intros q pt H _. by exists pt.
Qed.

Lemma msg_free_with_spec b X Y m σ :
  kinv (m_refs m ++ X) (m_bufs m ++ Y) σ →
  (∀ ref q, ref ∈ m_refs m → k_portv σ !! fst ref = Some q → (rk q < b)%nat) →
  ranked σ → ipcheld σ = true → (queued σ < n)%nat →
  ∃ σ', msg_free_with U m σ = Ok (tt, σ') ∧ kinv X Y σ' ∧ uframe b σ σ' ∧
    uwake (λ _, True) σ σ'.
Proof.
  intros K Hb Hr Hl Hn. unfold msg_free_with.
  destruct (release_iter_spec b (m_bufs m ++ Y) (m_refs m) X σ) as (σ1 & E & K1 & F & Wk); try done.
  destruct (msgbufs_free_spec X (m_bufs m) Y σ1 K1) as (cs & E2 & K2).
  destruct (uframe_chunks b cs σ1) as [F2 W2].
  exists (set_k_chunks cs σ1). split_and!; [|done|by eapply uframe_trans|by eapply uwake_trans].
  rewrite (bind_ok _ _ σ tt σ1); [done|]. unfold release_inflight_with.
  destruct (m_refs m); [done|]. by rewrite bind_assert_locked.
Qed.

Lemma msgs_free_spec b l :
  ∀ X Y σ, kinv (concat (m_refs <$> l) ++ X) (concat (m_bufs <$> l) ++ Y) σ →
  (∀ m ref q, m ∈ l → ref ∈ m_refs m → k_portv σ !! fst ref = Some q → (rk q < b)%nat) →
  ranked σ → ipcheld σ = true → (queued σ < n)%nat →
  ∃ σ', st_iter (msg_free_with U) l σ = Ok (tt, σ') ∧ kinv X Y σ' ∧ uframe b σ σ' ∧
    uwake (λ _, True) σ σ'.
Proof.
  induction l as [|m l IH]; intros X Y σ K Hb Hr Hl Hn.
  { exists σ. split_and!; [done|done|apply uframe_refl|]. by intros q _ H. }
  cbn [fmap list_fmap concat] in K. rewrite <-!(assoc_L (++)) in K.
  destruct (msg_free_with_spec b _ _ m σ K) as (σ1 & E1 & K1 & F1 & W1); try done.
  { intros ref q Hin. apply (Hb m); [left|done]. }
  destruct (IH X Y σ1 K1) as (σ2 & E2 & K2 & F2 & W2).
  { intros m' ref q Hm Hin Hv. apply (Hb m' ref); [by right|done|].
    by apply (uf_portv _ _ _ F1). }
  { by eapply ranked_uframe. }
  { by rewrite (ipcheld_base σ σ1) by apply (uf_base _ _ _ F1). }
  { pose proof (uf_queued _ _ _ F1). lia. }
  exists σ2. split_and!; [|done|by eapply uframe_trans|by eapply uwake_trans].
  cbn [st_iter]. by rewrite (bind_ok _ _ σ tt σ1).
Qed.

Lemma bufs_n_concat c l : bufs_n c (concat (m_bufs <$> l)) = queue_bufs c l.
Proof.
  induction l as [|m l IH]; [done|]. cbn [fmap list_fmap concat].
  rewrite bufs_n_app, IH. done.
Qed.

(** Flushing [q]: the queue is emptied first, so every nested call has a message
    less to account for, and [q] itself is out of the cascade's reach. *)
Definition flushed (pt : kport) : kport := set_pt_qbytes 0 (set_pt_queue [] pt).

Lemma flushed_ok pt : port_ok pt → port_ok (flushed pt).
Proof.
  intros [? ? ? Hd ?]. split; try done.
  intros m H. by apply elem_of_nil in H.
Qed.

Lemma put_put q pt pt' σ : put q pt' (put q pt σ) = put q pt' σ.
Proof. unfold put. simpl. by rewrite insert_insert_eq. Qed.

Lemma put_id q pt σ : k_ports σ !! q = Some pt → put q pt σ = σ.
Proof. intros H. unfold put. rewrite insert_id by done. by destruct σ. Qed.

(** [pt2] is [pt] with at most its dead mark changed. *)
Lemma port_flush_with_spec X Y q pt pt2 σ :
  kinv X Y σ → k_ports σ !! q = Some pt → pt2 = set_pt_dead (pt_dead pt2) pt →
  port_ok (flushed pt2) → ¬ receivable σ q → ranked σ → ipcheld σ = true → (queued σ <= n)%nat →
  ∃ σ', port_flush_with U q (put q pt2 σ) = Ok (tt, σ') ∧ kinv X Y σ' ∧
    uframe (S (rk q)) σ σ' ∧ uwake (λ q', q' ≠ q ∨ pt_dead pt2 = pt_dead pt) σ σ' ∧
    k_ports σ' !! q = Some (flushed pt2).
Proof.
  intros K Hq Ept Hok Hnr Hr Hl Hn. unfold port_flush_with.
  rewrite (bind_get_port q pt2), bind_put_port, put_put by by simpl; rewrite lookup_insert_eq.
  fold (flushed pt2). set (σ1 := put q (flushed pt2) σ).
  assert (pt_queue pt2 = pt_queue pt) as Eq2 by by rewrite Ept. rewrite Eq2.
  assert (uframe (S (rk q)) σ σ1) as F1.
  { apply (uframe_put _ q pt); auto; [by rewrite Ept..|by intros ?%Hnr]. }
  assert (uwake (λ q', q' ≠ q ∨ pt_dead pt2 = pt_dead pt) σ σ1) as W1.
  { eapply uwake_put; [done|by rewrite Ept|]. intros [?|?]; [done|auto]. }
  assert (kinv (concat (m_refs <$> pt_queue pt) ++ X) (concat (m_bufs <$> pt_queue pt) ++ Y) σ1) as K1.
  { eapply kinv_put; [exact K|exact Hq| |done|by rewrite Ept|].
    - apply (refs_flush Hq); [apply K|by rewrite Ept|rewrite Ept; by intros []|done].
    - intros c. rewrite bufs_n_app, bufs_n_concat. change (queue_bufs c (pt_queue (flushed pt2))) with 0. lia. }
  destruct (pt_queue pt) as [|m l] eqn:Eq.
  { exists σ1. split_and!; try done. by simpl; rewrite lookup_insert_eq. }
  rewrite <-Eq in *.
  destruct (msgs_free_spec (rk q) (pt_queue pt) X Y σ1) as (σ2 & E2 & K2 & F2 & W2); try done.
  - intros m' ref q' Hm Hin Hv. by apply (Hr q pt m' ref q').
  - by eapply ranked_uframe.
  - pose proof (queued_put σ q pt (flushed pt2) Hq) as Hqd. rewrite Eq in Hqd. simpl in Hqd.
    unfold σ1. lia.
  - exists σ2. split_and!; [done|done| | |].
    + eapply uframe_trans; [exact F1|]. eapply uframe_weaken; [|exact F2]. lia.
    + intros q0 H0 H. by apply W2, W1.
    + rewrite (uf_above _ _ _ F2) by done. by simpl; rewrite lookup_insert_eq.
Qed.

(** Past the last-reference test: mark the port dead and flush it if no receiver is
    left, then wake everyone on it. *)
Lemma unref_wake_spec X Y q pt σ :
  kinv X Y σ → k_ports σ !! q = Some pt → ipcheld σ = true →
  ∃ σ', (st_modify (λ σ, set_k_hangup_gen (k_hangup_gen σ + 1) σ) ;;;
         wake_receivers q ;;; wake_senders q) σ = Ok (tt, σ') ∧
    kinv X Y σ' ∧ uframe (S (rk q)) σ σ' ∧ uwake (λ q', q' ≠ q) σ σ' ∧ wake_ok_at σ' q ∧
    ∃ l, l ⊆ pt_waiters pt ∧ k_ports σ' !! q = Some (set_pt_waiters l pt).
Proof.
  intros K Hq Hl. rewrite bind_modify. set (σ0 := set_k_hangup_gen _ σ).
  assert (kinv X Y σ0) as K0 by (eapply kinv_ext; [exact K|done..]).
  assert (uframe (S (rk q)) σ σ0) as F0.
  { split; try done; [intros q0 p H; exists p; auto| |by intros q0 p H _; exists p].
    intros p ip H. exists (ip_woken ip). by destruct ip. }
  destruct (wake_waiters_spec X Y σ0 false q pt K0 Hq) as (σ1 & E1 & K1 & F1 & N1);
    [by apply ipcheld_port|].
  destruct (wfr_self q _ _ F1 pt Hq) as (l1 & Hq1 & Hl1).
  destruct (wake_waiters_spec X Y σ1 true q _ K1 Hq1) as (σ2 & E2 & K2 & F2 & N2).
  { apply ipcheld_port. destruct (held_same σ0 σ1) as (-> & _);
      [apply core_ipc, (wfr_core q), F1|done]. }
  destruct (wfr_self q _ _ F2 _ Hq1) as (l2 & Hq2 & Hl2).
  exists σ2. unfold wake_receivers, wake_senders. rewrite (bind_ok _ _ _ _ _ E1).
  split_and!; [done|done| | | |exists l2; split; [by intros w H; apply Hl1, Hl2|exact Hq2]].
  - eapply uframe_trans; [exact F0|]. eapply uframe_trans.
    + eapply uframe_wframe; [exact Hq| |exact F1]. lia.
    + eapply uframe_wframe; [exact Hq1| |exact F2]. lia.
  - intros q0 _ H. eapply wframe_wake_ok; [|exact F2|]; [by rewrite Hq1|].
    eapply wframe_wake_ok; [|exact F1|exact H]. by exists pt.
  - intros p w x Hp Hw Hx Hb. exfalso. destruct (w_send x) eqn:Es.
    + apply (N2 w). exists p, x. done.
    + apply (N1 w). eapply sleeping_mono; [|exact F2|]; [by rewrite Hq1|]. exists p, x. done.
Qed.

Lemma unref_body_fate X Y q pt σ :
  kinv ((pt_idx pt, false) :: X) Y σ → k_ports σ !! q = Some pt →
  ranked σ → ipcheld σ = true → (queued σ < S n)%nat →
  ∃ σ', port_unref_body U q σ = Ok (tt, σ') ∧ kinv X Y σ' ∧ uframe (S (rk q)) σ σ' ∧
    uwake (λ _, True) σ σ' ∧ unref_fate q pt σ'.
Proof.
  intros K Hq Hr Hl Hn. unfold port_unref_body.
  rewrite bind_assert_locked, (bind_upd_port q pt) by done.
  set (pt1 := set_pt_nrights (pt_nrights pt - 1) pt). set (σ1 := put q pt1 σ).
  assert (k_ports σ1 !! q = Some pt1) as Hq1 by by simpl; rewrite lookup_insert_eq.
  rewrite (bind_get_port q pt1) by done.
  assert (port_ok pt1) as Hok1 by by destruct (ki_port _ _ _ K q pt Hq).
  assert (kinv X Y σ1) as K1.
  { eapply kinv_put; [exact K|exact Hq|by apply (refs_drop Hq); [apply K|..]|done..]. }
  assert (uframe (S (rk q)) σ σ1) as F1 by (apply (uframe_put _ q pt); auto).
  assert (uwake (λ _, True) σ σ1) as W1 by (eapply uwake_put; [done|done|auto]).
  assert (ranked σ1) as Hr1 by by eapply ranked_uframe.
  assert (queued σ1 <= n)%nat as Hn1 by (pose proof (uf_queued _ _ _ F1); lia).
  pose proof (receivable_nrecv _ _ _ _ _ K1 Hq1) as Hrv.
  destruct (Z.leb_spec (pt_nrights pt1) 0) as [Hz|Hz].
  - assert (¬ receivable σ1 q) as Hnr by (intros H%Hrv; lia).
    destruct (port_flush_with_spec X Y q pt1 pt1 σ1) as (σ2 & E2 & K2 & F2 & W2 & Hq2); try done;
      [by apply flushed_ok|].
    rewrite put_id in E2 by done. rewrite (bind_ok _ _ _ _ _ E2).
    exists (drop_port q (flushed pt1) σ2). split_and!.
    + unfold port_free. by rewrite (bind_get_port q (flushed pt1)).
    + by apply kinv_free.
    + eapply uframe_trans; [exact F1|]. eapply uframe_trans; [exact F2|].
      apply uframe_free; [done|lia|]. intros H%(receivable_nrecv _ _ _ _ _ K2 Hq2). cbn in H, Hz. lia.
    + intros q0 _ H.
      assert (wake_ok_at σ2 q0) as H2 by (apply W2; [by right|by apply W1]).
      intros p w x Hp. simpl in Hp. apply lookup_delete_Some in Hp as [_ Hp]. by apply H2.
    + unfold unref_fate. rewrite (proj2 (Z.leb_le _ _)) by (cbn in Hz; lia). split; cbn; by rewrite lookup_delete_eq.
  - assert (∃ σ2 pt2, st_when ((pt_nrecv pt1 =? 0) && negb (pt_dead pt1))
        (upd_port q (set_pt_dead true) ;;; port_flush_with U q) σ1 = Ok (tt, σ2) ∧
        kinv X Y σ2 ∧ uframe (S (rk q)) σ1 σ2 ∧ uwake (λ q', q' ≠ q) σ1 σ2 ∧
        k_ports σ2 !! q = Some pt2 ∧
        pt2 = if (pt_nrecv pt1 =? 0) && negb (pt_dead pt1) then flushed (set_pt_dead true pt1) else pt1)
      as (σ2 & pt2 & E2 & K2 & F2 & W2 & Hq2 & Ept2).
    { destruct ((pt_nrecv pt1 =? 0) && negb (pt_dead pt1)) eqn:Ed.
      - apply andb_true_iff in Ed as [Hz0%Z.eqb_eq Hd]. cbn [st_when].
        rewrite (bind_upd_port q pt1) by done.
        destruct (port_flush_with_spec X Y q pt1 (set_pt_dead true pt1) σ1)
          as (σ2 & E2 & K2 & F2 & W2 & Hq2); try done.
        { destruct (flushed_ok _ Hok1). split; try done. }
        { intros H%Hrv. lia. }
        exists σ2, (flushed (set_pt_dead true pt1)). split_and!; try done.
        intros q0 H0. apply W2. by left.
      - exists σ1, pt1. split_and!; [done|done|apply uframe_refl|by intros q0 _|done|done]. }
    rewrite (bind_ok _ _ _ _ _ E2).
    destruct (unref_wake_spec X Y q pt2 σ2) as (σ3 & E3 & K3 & F3 & W3 & Wq & l & Hl3 & Hq3); try done.
    { rewrite (ipcheld_base σ1 σ2) by apply (uf_base _ _ _ F2). done. }
    exists σ3. split_and!; [done|done| | |].
    + eapply uframe_trans; [exact F1|]. eapply uframe_trans; [exact F2|exact F3].
    + intros q0 _ H. destruct (decide (q0 = q)) as [->|Hne]; [done|].
      apply W3; [done|]. apply W2; [done|]. by apply W1.
    + unfold unref_fate. rewrite (proj2 (Z.leb_gt _ _)) by (cbn in Hz; lia). exists l. split_and!; [|done|].
      * intros w Hw. apply Hl3 in Hw. rewrite Ept2 in Hw. by destruct (_ && _) in Hw.
      * rewrite Hq3, Ept2. done.
Qed.

Lemma unref_body_spec : unref_spec (S n) (port_unref_body U).
Proof.
  intros X Y q pt σ K Hq Hr Hl Hn.
  destruct (unref_body_fate X Y q pt σ K Hq Hr Hl Hn) as (σ' & E & K' & F & W & _). by exists σ'.
Qed.

End calls.

Lemma unref_fuel_spec n : unref_spec n (port_unref_fuel n).
Proof.
  induction n as [|n IH].
  - intros X Y q pt σ _ _ _ _ Hn. lia.
  - exact (unref_body_spec n (port_unref_fuel n) IH).
Qed.

(** port_unref's own fuel is enough. *)
Lemma port_unref_full X Y q pt σ :
  kinv ((pt_idx pt, false) :: X) Y σ → k_ports σ !! q = Some pt →
  ranked σ → ipcheld σ = true →
  ∃ σ', port_unref q σ = Ok (tt, σ') ∧ kinv X Y σ' ∧ uframe (S (rk q)) σ σ' ∧
    uwake (λ _, True) σ σ' ∧ unref_fate q pt σ'.
Proof.
  intros K Hq Hr Hl. apply (unref_body_fate (queued σ) _ (unref_fuel_spec (queued σ))); [done..|lia].
Qed.
Lemma port_unref_spec X Y q pt σ :
  kinv ((pt_idx pt, false) :: X) Y σ → k_ports σ !! q = Some pt →
  ranked σ → ipcheld σ = true →
  ∃ σ', port_unref q σ = Ok (tt, σ') ∧ kinv X Y σ' ∧ uframe (S (rk q)) σ σ' ∧
    uwake (λ _, True) σ σ'.
Proof.
  intros K Hq Hr Hl. destruct (port_unref_full X Y q pt σ K Hq Hr Hl) as (σ' & E & K' & F & W & _). by exists σ'.
Qed.

End cascade.

(** Dropping a reference to a port with nothing queued touches no other port: it can be
    ranked below all of them. *)
Lemma port_unref_quiet rk X Y q pt σ σ' :
  kinv ((pt_idx pt, false) :: X) Y σ → k_ports σ !! q = Some pt → pt_queue pt = [] →
  ranked rk σ → ipcheld σ = true → port_unref q σ = Ok (tt, σ') →
  unref_fate q pt σ' ∧ ∀ q', q' ≠ q → k_ports σ' !! q' = k_ports σ !! q'.
Proof.
  intros K Hq Hnil R Hl E. set (rk' := λ x, if decide (x = q) then 0%nat else S (rk x)).
  destruct (port_unref_full rk' X Y q pt σ K Hq) as (σ2 & E2 & _ & F & _ & H2); [|done|].
  - intros q1 pt1 m ref q2 H1 Hm Hr Hv. pose proof (R q1 pt1 m ref q2 H1 Hm Hr Hv) as Hlt. unfold rk'.
    destruct (decide (q1 = q)) as [->|N]; [|destruct (decide (q2 = q)); lia].
    simplify_eq. rewrite Hnil in Hm. by apply elem_of_nil in Hm.
  - rewrite E in E2. injection E2 as <-. split; [done|]. intros q' N. apply (uf_above _ _ _ _ F).
    unfold rk'. destruct (decide (q = q)); [|done]. destruct (decide (q' = q)); [done|lia].
Qed.
