(* ===== verification/PortOps.v ===== *)
(** What each operation of src/src/port.c promises: taking and giving up ipc
    buckets, making ports and rights, queueing and taking messages, and joining
    and leaving wait lists. *)

From S2P Require Import Prelude Clock Sched Ports PortInv KInv PortWake PortRef.
From stdpp Require Import prelude list gmap strings.
From Stdlib Require Import ZArith Lia.
Open Scope Z_scope.

(** * Buckets *)

Definition unlocked (σ : kst) : Prop := k_ipc σ = replicate NIPCLOCK 0%nat.
Definition wide (σ : kst) : Prop := k_ipc σ = replicate NIPCLOCK 1%nat.
(** Only the bucket covering [pt]. *)
Definition narrow (pt : kport) (σ : kst) : Prop :=
  k_ipc σ = <[ipcbucket_of pt := 1%nat]> (replicate NIPCLOCK 0%nat).

Definition with_ipc (l : list nat) (σ : kst) : kst := set_k_ipc l σ.

Lemma ipclock_enter_eq σ :
  unlocked σ → ipclock_enter σ = Ok (tt, with_ipc (replicate NIPCLOCK 1%nat) σ).
Proof. intros H. destruct σ; simpl in H. unfold unlocked in H. simpl in H. by subst. Qed.

Lemma ipclock_leave_eq σ :
  wide σ → ipclock_leave σ = Ok (tt, with_ipc (replicate NIPCLOCK 0%nat) σ).
Proof. intros H. destruct σ; unfold wide in H; simpl in H. by subst. Qed.

(** Held by nobody, or held whole once: what a region may be entered from. *)
Definition lockable (σ : kst) : Prop := unlocked σ ∨ wide σ.

Lemma enter_any σ : lockable σ → ipclock_enter σ = Ok (tt, with_ipc (List.map S (k_ipc σ)) σ).
Proof. intros [H|H]; destruct σ; unfold unlocked, wide in H; simpl in H; by subst. Qed.

Lemma leave_any σ σ' : lockable σ → k_ipc σ' = List.map S (k_ipc σ) →
  ipclock_leave σ' = Ok (tt, with_ipc (k_ipc σ) σ').
Proof.
  intros [H|H] E; destruct σ, σ'; unfold unlocked, wide in H; simpl in H, E; subst; done.
Qed.

Lemma entered_ipcheld σ σ' : lockable σ → k_ipc σ' = List.map S (k_ipc σ) → ipcheld σ' = true.
Proof.
  intros [H|H] E; destruct σ, σ'; unfold unlocked, wide in H; simpl in H, E; subst; done.
Qed.

Lemma wide_ipcheld σ : wide σ → ipcheld σ = true.
Proof. intros H. destruct σ; unfold wide in H; simpl in H. by subst. Qed.

Lemma bucket_cases (P : nat → Prop) pt :
  P 0%nat → P 1%nat → P 2%nat → P 3%nat → P 4%nat → P 5%nat → P 6%nat → P 7%nat →
  P (ipcbucket_of pt).
Proof.
  intros. pose proof (bucket_lt pt) as H'. unfold NIPCLOCK in H'.
  destruct (ipcbucket_of pt) as [|[|[|[|[|[|[|[|]]]]]]]]; try done. lia.
Qed.

Lemma enter_one_eq pt σ :
  unlocked σ → ipclock_enter_one (ipcbucket_of pt) σ =
    Ok (tt, with_ipc (<[ipcbucket_of pt := 1%nat]> (replicate NIPCLOCK 0%nat)) σ).
Proof.
  intros H. destruct σ; unfold unlocked in H; simpl in H. subst.
  apply (bucket_cases (λ b, ipclock_enter_one b _ = Ok (tt, with_ipc (<[b := 1%nat]> _) _))); done.
Qed.

Lemma leave_one_eq pt σ :
  narrow pt σ → ipclock_leave_one (ipcbucket_of pt) σ =
    Ok (tt, with_ipc (replicate NIPCLOCK 0%nat) σ).
Proof.
  intros H. destruct σ; unfold narrow in H; simpl in H. revert H.
  apply (bucket_cases (λ b, _ = <[b := 1%nat]> _ → ipclock_leave_one b _ = Ok (tt, _)));
    intros ->; done.
Qed.

Lemma narrow_held pt σ : narrow pt σ → ipcheld_one_port pt σ = true.
Proof.
  intros H. destruct σ; unfold narrow in H; simpl in H. revert H. unfold ipcheld_one_port.
  apply (bucket_cases (λ b, _ = <[b := 1%nat]> _ → ipcheld_one b _ = true));
    intros ->; done.
Qed.

Lemma enter_port_eq q pt σ :
  k_ports σ !! q = Some pt → unlocked σ →
  ipclock_enter_port q σ =
    Ok (tt, with_ipc (<[ipcbucket_of pt := 1%nat]> (replicate NIPCLOCK 0%nat)) σ).
Proof.
  intros Hq H. unfold ipclock_enter_port. rewrite (bind_get_port q pt) by done.
  by apply enter_one_eq.
Qed.

Lemma leave_port_eq q pt σ :
  k_ports σ !! q = Some pt → narrow pt σ →
  ipclock_leave_port q σ = Ok (tt, with_ipc (replicate NIPCLOCK 0%nat) σ).
Proof.
  intros Hq H. unfold ipclock_leave_port. rewrite (bind_get_port q pt) by done.
  by apply leave_one_eq.
Qed.

Lemma kinv_ipc X Y l σ : kinv X Y σ → kinv X Y (with_ipc l σ).
Proof. intros K. eapply kinv_ext; [exact K|done..]. Qed.

#[export] Hint Resolve kinv_ipc wide_ipcheld narrow_held : nlos.

(** * Making a port *)

Lemma free_slot_spec v n : ∀ i j, free_slot v i n = Some j → (i <= j < i + n)%nat ∧ v !! j = None.
Proof.
  induction n as [|n IH]; intros i j H; simpl in H; [done|].
  destruct (v !! i) as [a|] eqn:E.
  - apply IH in H as [H1 H2]. split; [lia|done].
  - simplify_eq. split; [lia|done].
Qed.

(** After a malloc that failed, and one that gave out the next address. *)
Definition failed_st (σ : kst) : kst := set_k_nalloc (S (k_nalloc σ)) σ.
Definition alloc_st (σ : kst) : kst := set_k_next (S (k_next σ)) (failed_st σ).

Lemma malloc_eq σ :
  malloc σ = if k_mem σ (k_nalloc σ) then Ok (Some (k_next σ), alloc_st σ)
             else Ok (None, failed_st σ).
Proof. done. Qed.

Lemma kinv_failed X Y σ : kinv X Y σ → kinv X Y (failed_st σ).
Proof. intros K. eapply kinv_ext; [exact K|done..]. Qed.
Lemma kinv_alloc X Y σ : kinv X Y σ → kinv X Y (alloc_st σ).
Proof. intros K. eapply kinv_ext; [exact K|done..| |done]. simpl. lia. Qed.
#[export] Hint Resolve kinv_failed kinv_alloc : nlos.

Definition fresh_port (i : nat) (gen : Z) : kport :=
  mkKport i true gen [] 0 0 false 0 [] 0 0 0 0.

Lemma fresh_port_ok i gen : port_ok (fresh_port i gen).
Proof.
  split; simpl; try done.
  - intros m H. by apply elem_of_nil in H.
  - constructor.
Qed.

Lemma kinv_new X Y σ i q gen :
  kinv X Y σ → k_ports σ !! q = None → k_portv σ !! i = None → (q < k_next σ)%nat →
  kinv X Y (add_port i q (fresh_port i gen) σ).
Proof.
  intros K Hq Hi Hn. split.
  - by apply refs_new; [apply K|..].
  - intros q' p H. simpl in H. apply lookup_insert_Some in H as [[<- <-]|[_ H]].
    + apply fresh_port_ok.
    + by apply (ki_port X Y σ K q').
  - apply (ki_proc X Y σ K).
  - destruct (ki_chunks X Y σ K) as [H1 H2].
    assert (∀ c, owned c Y (k_ports (add_port i q (fresh_port i gen) σ)) = owned c Y (k_ports σ)) as E.
    { intros c. simpl. unfold owned. rewrite msum_insert_None by done.
      change (queue_bufs c (pt_queue (fresh_port i gen))) with 0. lia. }
    split; intros c; rewrite E; [apply H1|apply H2].
  - destruct (ki_wait X Y σ K) as [W1 W2 W3]. split; simpl; try done.
    + intros q' p w H Hin. apply lookup_insert_Some in H as [[<- <-]|[_ H]].
      * by apply elem_of_nil in Hin.
      * by apply W1 with p.
    + intros p ip w Hp Hin. destruct (W2 p ip w Hp Hin) as (x & Hx & E & Ho).
      exists x. split_and!; [done..|]. intros Hon.
      destruct (Ho Hon) as (p0 & Hp0 & Hw & Hr). exists p0. split_and!; [|done..].
      rewrite lookup_insert_ne; [done|]. intros ->. congruence.
  - by eapply sched_ok_ext; [apply (ki_sched X Y σ K)|..].
  - intros q' [p H]. simpl in *. apply lookup_insert_Some in H as [[<- _]|[_ H]]; [done|].
    apply (ki_fresh X Y σ K). by exists p.
  - apply (ki_wfresh X Y σ K).
  - apply (ki_max X Y σ K).
Qed.

(** What port_new leaves alone. *)
Definition rest (σ : kst) :=
  (k_procs σ, k_waiters σ, k_sch σ, k_timers σ, k_krefs σ, k_chunks σ, k_ipc σ,
   k_maxports σ, k_hangup_gen σ).

Lemma port_new_spec X Y σ :
  kinv X Y σ →
  ∃ o σ', port_new σ = Ok (o, σ') ∧ kinv X Y σ' ∧ rest σ' = rest σ ∧
    match o with
    | None => k_ports σ' = k_ports σ ∧ k_portv σ' = k_portv σ ∧
        (free_slot (k_portv σ) 0 (k_maxports σ) = None ∨ k_mem σ (k_nalloc σ) = false)
    | Some q => ∃ i gen, k_ports σ !! q = None ∧ k_portv σ !! i = None ∧ (i < k_maxports σ)%nat ∧
        k_ports σ' = <[q := fresh_port i gen]> (k_ports σ) ∧
        k_portv σ' = <[i := q]> (k_portv σ) ∧ gen = u64 (k_portgen σ + 1) ∧ k_portgen σ' = gen
    end.
Proof.
  intros K. unfold port_new. rewrite bind_get.
  destruct (free_slot (k_portv σ) 0 (k_maxports σ)) as [i|] eqn:Ef.
  2: { exists None, σ. split_and!; try done. by left. }
  apply free_slot_spec in Ef as [Hi Hv].
  destruct (k_mem σ (k_nalloc σ)) eqn:Em.
  2: { rewrite (bind_ok _ _ σ None (failed_st σ)) by by rewrite malloc_eq, Em.
       exists None, (failed_st σ). split_and!; try done; [by apply kinv_failed|by right]. }
  rewrite (bind_ok _ _ σ (Some (k_next σ)) (alloc_st σ)) by by rewrite malloc_eq, Em.
  rewrite bind_get, bind_modify, bind_put_port, !bind_modify.
  set (gen := u64 (k_portgen (alloc_st σ) + 1)).
  assert (Z.to_nat (u16 (Z.of_nat i)) = i) as Ei.
  { unfold u16. rewrite wrap_small; [lia|]. pose proof (ki_max X Y σ K). lia. }
  rewrite Ei. fold (fresh_port i gen).
  set (σ1 := set_k_portgen gen (alloc_st σ)).
  assert (k_ports σ !! k_next σ = None) as Hf.
  { destruct (k_ports σ !! k_next σ) eqn:E; [|done].
    pose proof (ki_fresh X Y σ K (k_next σ) ltac:(by eexists)). lia. }
  assert (kinv X Y (add_port i (k_next σ) (fresh_port i gen) σ1)) as K'.
  { apply kinv_new; [|done|done|simpl; lia].
    eapply kinv_ext; [exact (kinv_alloc X Y σ K)|done..]. }
  eexists (Some (k_next σ)), _. split; [reflexivity|].
  split_and!; [eapply kinv_ext; [exact K'|..]; by case_match|by case_match|].
  exists i, gen. split_and!; try done; try (by case_match). lia.
Qed.

(** * Making a right *)

Lemma puti_puti p ip ip' σ : puti p ip' (puti p ip σ) = puti p ip' σ.
Proof. unfold puti. simpl. by rewrite insert_insert_eq. Qed.

Lemma kinv_puti X X' Y σ p ip ip' :
  kinv X Y σ → k_procs σ !! p = Some ip → refs_ok X' (puti p ip' σ) → proc_ok ip' →
  ip_waiters ip' = ip_waiters ip → (ip_w0used ip = true → ip_w0used ip' = true) →
  (ip_woken ip' = true → ip_woken ip = true) →
  (∀ w x, w ∈ ip_waiters ip → k_waiters σ !! w = Some x → w_onport x = true →
     1 <= rights_n false (w_port x) ip → 1 <= rights_n false (w_port x) ip') →
  kinv X' Y (puti p ip' σ).
Proof.
  intros K Hp R Hok Ew E0 Hwk Hr. split; try done.
  - apply (ki_port X Y σ K).
  - intros p' i H. simpl in H. apply lookup_insert_Some in H as [[<- <-]|[_ H]]; [done|].
    by apply (ki_proc X Y σ K p').
  - destruct (ki_chunks X Y σ K). by split.
  - destruct (ki_wait X Y σ K) as [W1 W2 W3]. split; simpl.
    + intros q pt w Hq Hin. destruct (W1 q pt w Hq Hin) as (x & i & Hx & E & Ho & Hi & Hw).
      destruct (decide (p = w_p x)) as [->|Hne].
      * exists x, ip'. rewrite lookup_insert_eq. simplify_eq. by rewrite Ew.
      * exists x, i. by rewrite lookup_insert_ne.
    + intros p' i w H Hin. apply lookup_insert_Some in H as [[<- <-]|[_ H]]; [|by apply W2].
      rewrite Ew in Hin. destruct (W2 p ip w Hp Hin) as (x & Hx & E & Ho).
      exists x. split_and!; [done..|]. intros Hon.
      destruct (Ho Hon) as (pt & Hq & Hw & Hn). eauto 6.
    + intros p' i p'' H Hin. apply lookup_insert_Some in H as [[<- <-]|[_ H]]; [|by eapply W3].
      rewrite Ew in Hin. destruct (W3 p ip p'' Hp Hin). auto.
  - destruct (ki_sched X Y σ K) as [H1 H2 H3 H4]. split; try done; simpl.
    + intros p' i H. apply lookup_insert_Some in H as [[<- _]|[_ H]]; [by apply (H3 p ip)|].
      by apply (H3 p' i).
    + intros p' i H Hk. apply lookup_insert_Some in H as [[<- <-]|[_ H]]; [|by apply (H4 p' i)].
      apply (H4 p ip); auto.
  - apply (ki_fresh X Y σ K).
  - apply (ki_wfresh X Y σ K).
  - apply (ki_max X Y σ K).
Qed.

Definition right_taken (i : Z) (q : nat) (recv : bool) (ip : iproc) : iproc :=
  let ip := put_right i (mkRight q recv true) ip in
  let ip := if recv then
              let ip := set_ip_nports (ip_nports ip + 1) ip in
              if ip_nports_peak ip <? ip_nports ip
              then set_ip_nports_peak (ip_nports ip) ip else ip
            else ip in
  let ip := set_ip_rhint (i + 1) ip in
  if ip_rhigh ip <? i + 1 then set_ip_rhigh (i + 1) ip else ip.

Definition port_taken (recv : bool) (pt : kport) : kport :=
  let pt := set_pt_nrights (pt_nrights pt + 1) pt in
  if recv then set_pt_nrecv (pt_nrecv pt + 1) pt else pt.

Definition high_st (i : Z) (σ : kst) : kst :=
  if k_rights_high σ <? i + 1 then set_k_rights_high (i + 1) σ else σ.

Lemma right_take_eq p q recv i ip pt σ :
  k_procs σ !! p = Some ip → k_ports σ !! q = Some pt →
  right_take p q recv i σ =
    Ok (i, puti p (right_taken i q recv ip) (put q (port_taken recv pt) (high_st i σ))).
Proof.
  intros Hp Hq. unfold right_take. rewrite bind_modify. fold (high_st i σ).
  assert (k_procs (high_st i σ) = k_procs σ ∧ k_ports (high_st i σ) = k_ports σ) as [E1 E2]
    by (unfold high_st; by case_match).
  set (σ0 := high_st i σ) in *. rewrite <-E1 in Hp. rewrite <-E2 in Hq. clearbody σ0.
  rewrite (bind_upd_iproc p ip), (bind_upd_port q pt) by done.
  destruct recv; cbn [st_when].
  - rewrite bind_assoc. erewrite bind_upd_port by (simpl; by rewrite lookup_insert_eq).
    erewrite bind_upd_iproc by (simpl; by rewrite lookup_insert_eq).
    erewrite bind_upd_iproc by (simpl; by rewrite lookup_insert_eq).
    erewrite bind_upd_iproc by (simpl; by rewrite lookup_insert_eq).
    unfold st_ret, puti, put. simpl. by rewrite !insert_insert_eq.
  - rewrite bind_ret. erewrite bind_upd_iproc by (simpl; by rewrite lookup_insert_eq).
    erewrite bind_upd_iproc by (simpl; by rewrite lookup_insert_eq).
    unfold st_ret, puti, put. simpl. by rewrite !insert_insert_eq.
Qed.

Lemma right_taken_frame i q recv ip :
  let ip' := right_taken i q recv ip in
  all_rights ip' = all_rights (put_right i (mkRight q recv true) ip) ∧
  ip_rights ip' = ip_rights (put_right i (mkRight q recv true) ip) ∧
  ip_xrights ip' = ip_xrights (put_right i (mkRight q recv true) ip) ∧
  ip_rhint ip' = i + 1 ∧ ip_rhigh ip' = Z.max (ip_rhigh ip) (i + 1) ∧
  ip_nports ip' = ip_nports ip + b2z recv ∧ ip_waiters ip' = ip_waiters ip ∧
  ip_w0used ip' = ip_w0used ip ∧ ip_woken ip' = ip_woken ip ∧
  ip_selfidx ip' = ip_selfidx ip ∧ ip_selfgen ip' = ip_selfgen ip.
Proof.
  destruct (put_right_frame i (mkRight q recv true) ip) as (_ & Hh & Hn & Hw & H0 & Hk & Hx & Hy & _).
  unfold right_taken. set (ip1 := put_right i _ ip) in *.
  destruct recv; simpl; repeat case_match; simpl;
    repeat match goal with H : (_ <? _) = true |- _ => apply Z.ltb_lt in H
           | H : (_ <? _) = false |- _ => apply Z.ltb_ge in H end;
    simpl in *; split_and!; try done; lia.
Qed.

Lemma right_slot_put ip h r old h' r' :
  tab_ok ip → right_slot ip h = Some old → right_slot (put_right h r ip) h' = Some r' →
  (h' = h ∧ r' = r) ∨ (h' ≠ h ∧ right_slot ip h' = Some r').
Proof.
  intros T Hh Hh'. destruct (put_right_all ip h r old T Hh) as [E T'].
  pose proof (right_slot_range _ _ _ Hh). pose proof (right_slot_range _ _ _ Hh').
  apply (right_slot_elem _ _ _ T') in Hh'. rewrite E in Hh'.
  apply list_lookup_insert_Some in Hh' as [(Eh & -> & _)|[Hne Hl]].
  - left. split; [lia|done].
  - right. split; [intros ->; done|]. rewrite right_slot_all by done.
    destruct (Z.leb_spec 0 h'), (Z.ltb_spec h' MAXRIGHTS); try lia. done.
Qed.

Lemma recv_sum_put ip h r old :
  tab_ok ip → right_slot ip h = Some old →
  zsum recv1 (all_rights (put_right h r ip)) = zsum recv1 (all_rights ip) - recv1 old + recv1 r.
Proof.
  intros T Hh. destruct (put_right_all ip h r old T Hh) as [-> _].
  apply zsum_insert. by apply right_slot_elem.
Qed.

Lemma right_taken_ok i q recv ip old :
  proc_ok ip → right_slot ip i = Some old → r_used old = false →
  proc_ok (right_taken i q recv ip).
Proof.
  intros [T Hh Hhi Hn Hd] Hs Hu.
  destruct (right_taken_frame i q recv ip) as (Ea & Er & Ex & E1 & E2 & E3 & E4 & _).
  destruct (put_right_all ip i (mkRight q recv true) old T Hs) as [_ T'].
  pose proof (right_slot_range _ _ _ Hs) as Hi.
  split.
  - destruct T' as [T1 T2]. split; [by rewrite Er|by rewrite Ex].
  - lia.
  - intros h r Hr Hur. rewrite E2. unfold right_slot in Hr. rewrite Er, Ex in Hr.
    fold (right_slot (put_right i (mkRight q recv true) ip) h) in Hr.
    destruct (right_slot_put ip i _ old h r T Hs Hr) as [[-> _]|[_ H]]; [lia|].
    pose proof (Hhi h r H Hur). lia.
  - rewrite Ea, E3, (recv_sum_put _ _ _ old) by done. unfold recv1 at 2 3. rewrite Hu.
    simpl. unfold recv1 in Hn. simpl. rewrite Hn. unfold recv1. lia.
  - by rewrite E4.
Qed.

(** A step that leaves queues, wait lists and the scheduler alone justifies the
    same sleepers. *)
Lemma wake_ok_same σ σ' :
  (∀ q pt', k_ports σ' !! q = Some pt' → pt_waiters pt' = [] ∨ ∃ pt, k_ports σ !! q = Some pt ∧
     pt_waiters pt' = pt_waiters pt ∧ pt_queue pt' = pt_queue pt ∧ pt_dead pt' = pt_dead pt) →
  k_waiters σ' = k_waiters σ → k_sch σ' = k_sch σ → uwake (λ _, True) σ σ'.
Proof.
  intros Hp Ew Es q _ Hok pt w x Hq Hw Hx Hb.
  destruct (Hp q pt Hq) as [E|(pt0 & H0 & E1 & E2 & E3)].
  { rewrite E in Hw. by apply elem_of_nil in Hw. }
  rewrite E1 in Hw. rewrite Ew in Hx. unfold blocked in Hb. rewrite Es in Hb.
  specialize (Hok pt0 w x H0 Hw Hx Hb). by rewrite E2, E3.
Qed.

(** The overflow table comes into being empty. *)
Definition grown (ip ip0 : iproc) : Prop :=
  ip0 = ip ∨ (ip_xrights ip = None ∧
    ip0 = set_ip_xrights (Some (replicate (Z.to_nat (MAXRIGHTS - NRIGHTS_INLINE)) right_zero)) ip).

Lemma grown_ok ip ip0 : grown ip ip0 → proc_ok ip →
  proc_ok ip0 ∧ (∀ f q, rights_n f q ip0 = rights_n f q ip) ∧
  (∀ r, r ∈ all_rights ip0 → r_used r = true → r ∈ all_rights ip) ∧
  ip_rhint ip0 = ip_rhint ip ∧ ip_waiters ip0 = ip_waiters ip ∧ ip_w0used ip0 = ip_w0used ip ∧
  ip_woken ip0 = ip_woken ip ∧
  (∀ h r, right_slot ip h = Some r → right_slot ip0 h = Some r).
Proof.
  intros [->|[Ex ->]] Hok; [by split_and!|].
  set (zs := replicate _ right_zero).
  assert (all_rights (set_ip_xrights (Some zs) ip) = all_rights ip ++ zs) as Ea.
  { unfold all_rights. simpl. by rewrite Ex, app_nil_r. }
  assert (∀ r, r ∈ zs → r = right_zero) as Hz.
  { intros r Hr. unfold zs in Hr. by apply elem_of_replicate in Hr as [-> _]. }
  destruct Hok as [[T1 T2] Hh Hhi Hn Hd]. split_and!; try done.
  - split; try done.
    + split; [done|]. simpl. intros xs [= <-]. unfold zs. by rewrite length_replicate.
    + intros h r Hr Hu. apply (Hhi h r); [|done]. unfold right_slot in *. simpl in *.
      rewrite Ex. case_match; [done|]. case_match; [done|].
      assert (r ∈ zs) as ->%Hz by by apply list_elem_of_lookup_2 in Hr. done.
    + rewrite Ea, zsum_app, (zsum_zero recv1 zs); [simpl; lia|].
      intros r ->%Hz. done.
  - intros f q. unfold rights_n. rewrite Ea, zsum_app, (zsum_zero _ zs); [lia|].
    intros r ->%Hz. done.
  - intros r. rewrite Ea, elem_of_app. intros [|Hr] Hu; [done|].
    apply Hz in Hr as ->. done.
  - intros h r Hr. unfold right_slot in *. simpl. rewrite Ex in Hr. by repeat case_match.
Qed.

Lemma kinv_grown X Y σ p ip ip0 :
  kinv X Y σ → k_procs σ !! p = Some ip → grown ip ip0 → kinv X Y (puti p ip0 σ).
Proof.
  intros K Hp Hg.
  destruct (grown_ok ip ip0 Hg (ki_proc X Y σ K p ip Hp))
    as (Hok & Hr & Hu & Eh & Ew & E0 & Ek & _).
  eapply kinv_puti; [exact K|exact Hp| |done|done|by rewrite E0| |].
  - eapply refs_ok_proc; [apply K|exact Hp| | |apply (ki_refs X Y σ K)].
    + intros f q pt _. by rewrite Hr.
    + intros r Hin Hru. eapply (ro_held X σ (ki_refs X Y σ K)); [exact Hp|by apply Hu|done].
  - by rewrite Ek.
  - intros w x _ _ _. by rewrite Hr.
Qed.

Lemma right_slot_grow_spec X Y σ p ip h :
  kinv X Y σ → k_procs σ !! p = Some ip → 0 <= h →
  ∃ o ip0 n a, right_slot_grow p h σ = Ok (o, puti p ip0 (set_k_next n (set_k_nalloc a σ))) ∧
    grown ip ip0 ∧ (k_next σ <= n)%nat ∧
    match o with
    | Some r => right_slot ip0 h = Some r
    | None => MAXRIGHTS <= h ∨ (ip_xrights ip = None ∧ k_mem σ (k_nalloc σ) = false)
    end.
Proof.
  intros K Hp Hh. unfold right_slot_grow. rewrite (bind_get_iproc p ip) by done.
  assert (puti p ip (set_k_next (k_next σ) (set_k_nalloc (k_nalloc σ) σ)) = σ) as Eid.
  { unfold puti. simpl. rewrite insert_id by done. by destruct σ. }
  destruct (ki_proc X Y σ K p ip Hp) as [[T1 T2] _ _ _ _].
  destruct (Z.ltb_spec h 0); [lia|]. destruct (Z.leb_spec MAXRIGHTS h).
  { exists None, ip, (k_next σ), (k_nalloc σ). cbn [orb]. unfold st_ret. rewrite Eid.
    split_and!; try done; [by left|by left]. }
  cbn [orb]. destruct (Z.ltb_spec h NRIGHTS_INLINE) as [Hi|Hi].
  { exists (right_slot ip h), ip, (k_next σ), (k_nalloc σ). unfold st_ret. rewrite Eid.
    split_and!; try done; [by left|]. destruct (right_slot ip h) eqn:Es; [done|].
    exfalso. unfold right_slot, MAXRIGHTS, NRIGHTS_INLINE in *.
    destruct (Z.ltb_spec h 0), (Z.leb_spec 512 h), (Z.ltb_spec h 8); try lia. simpl in Es.
    apply lookup_ge_None in Es. lia. }
  destruct (ip_xrights ip) as [xs|] eqn:Ex.
  { exists (right_slot ip h), ip, (k_next σ), (k_nalloc σ). unfold st_ret. rewrite Eid.
    split_and!; try done; [by left|]. destruct (right_slot ip h) eqn:Es; [done|].
    exfalso. unfold right_slot, MAXRIGHTS, NRIGHTS_INLINE in *. rewrite Ex in Es.
    destruct (Z.ltb_spec h 0), (Z.leb_spec 512 h), (Z.ltb_spec h 8); try lia. simpl in Es.
    apply lookup_ge_None in Es. rewrite (T2 xs eq_refl) in Es. lia. }
  destruct (k_mem σ (k_nalloc σ)) eqn:Em.
  - rewrite (bind_ok _ _ σ (Some (k_next σ)) (alloc_st σ)) by by rewrite malloc_eq, Em.
    rewrite bind_put_iproc. set (ip0 := set_ip_xrights _ ip).
    exists (right_slot ip0 h), ip0, (S (k_next σ)), (S (k_nalloc σ)).
    split_and!; [done|by right|lia|]. destruct (right_slot ip0 h) eqn:Es; [done|].
    exfalso. unfold right_slot, ip0 in Es. cbn [ip_xrights set_ip_xrights] in Es.
    destruct (Z.ltb_spec h 0), (Z.leb_spec MAXRIGHTS h), (Z.ltb_spec h NRIGHTS_INLINE); try lia.
    cbn [orb] in Es. apply lookup_ge_None in Es. rewrite length_replicate in Es. lia.
  - rewrite (bind_ok _ _ σ None (failed_st σ)) by by rewrite malloc_eq, Em.
    exists None, ip, (k_next σ), (S (k_nalloc σ)). unfold st_ret.
    split_and!; try done; [|by left|by right]. unfold puti. simpl.
    rewrite insert_id by done. by destruct σ.
Qed.

(** What making a right leaves alone. *)
Definition frame_r (σ : kst) :=
  (k_portv σ, k_waiters σ, k_sch σ, k_timers σ, k_krefs σ, k_chunks σ, k_ipc σ,
   k_maxports σ, k_hangup_gen σ, k_portgen σ, k_mem σ, k_szbits σ, k_acct σ, k_bytes σ).

Lemma port_taken_ok recv pt :
  port_ok pt → port_ok (port_taken recv pt).
Proof. intros [? ? ? ? ?]. by destruct recv. Qed.

Lemma kinv_right_take X Y σ p q recv i ip pt old :
  kinv X Y σ → k_procs σ !! p = Some ip → k_ports σ !! q = Some pt →
  right_slot ip i = Some old → r_used old = false →
  kinv X Y (puti p (right_taken i q recv ip) (put q (port_taken recv pt) σ)).
Proof.
  intros K Hp Hq Hs Hu.
  assert (kinv ((pt_idx pt, recv) :: X) Y (put q (port_taken recv pt) σ)) as K1.
  { eapply kinv_put; [exact K|exact Hq| | |by destruct recv|by destruct recv].
    - apply (refs_take Hq); [apply K|by destruct recv..| |]; destruct recv; simpl; lia.
    - apply port_taken_ok. by apply (ki_port X Y σ K q). }
  destruct (right_taken_frame i q recv ip) as (Ea & _ & _ & _ & _ & _ & Ew & E0 & Ek & _).
  pose proof (ki_proc X Y σ K p ip Hp) as Hok.
  assert (k_ports (put q (port_taken recv pt) σ) !! q = Some (port_taken recv pt)) as Hq1
    by by simpl; rewrite lookup_insert_eq.
  assert (pt_idx (port_taken recv pt) = pt_idx pt) as Ei by by destruct recv.
  eapply kinv_puti; [exact K1|exact Hp| | |done|by rewrite E0|by rewrite Ek|].
  - eapply (refs_install (σ := put q (port_taken recv pt) σ) (ip := ip) Hp i q _ recv old); [rewrite Ei; apply K1|apply Hok|exact Hq1|done..].
  - by eapply right_taken_ok.
  - intros w x _ _ _ H1. unfold rights_n. rewrite Ea. fold (rights_n false (w_port x) (put_right i (mkRight q recv true) ip)).
    rewrite (rights_n_put false (w_port x) ip i _ old); [|apply Hok|done].
    assert (right1 false (w_port x) old = 0) as -> by (unfold right1; by rewrite Hu).
    pose proof (b2z_range (r_used (mkRight q recv true) && (q =? w_port x)%nat && true)).
    unfold right1. simpl in *. lia.
Qed.

(** right_new finds the first free slot at or above [rhint], or fails with every
    table slot from there in use or no memory for the overflow table. *)
Definition right_made (p q : nat) (recv : bool) (ip : iproc) (pt : kport) (lo h : Z)
    (σ σ' : kst) : Prop :=
  if h <? 0 then k_ports σ' = k_ports σ ∧ ∃ ip0, k_procs σ' = <[p := ip0]> (k_procs σ) ∧ grown ip ip0
  else lo <= h < MAXRIGHTS ∧ k_ports σ' = <[q := port_taken recv pt]> (k_ports σ) ∧
    ∃ ip0 old, grown ip ip0 ∧ right_slot ip0 h = Some old ∧ r_used old = false ∧
      k_procs σ' = <[p := right_taken h q recv ip0]> (k_procs σ) ∧
      ∀ i, lo <= i < h → ∃ r, right_slot ip0 i = Some r ∧ r_used r = true.

Lemma grown_trans ip0 ip1 ip2 : grown ip0 ip1 → grown ip1 ip2 → grown ip0 ip2.
Proof.
  intros [->|[E ->]] H; [done|]. destruct H as [->|[E' _]]; [by right|done].
Qed.

Lemma right_scan_spec X Y p q recv pt n :
  ∀ i σ ip, kinv X Y σ → k_procs σ !! p = Some ip → k_ports σ !! q = Some pt →
  0 <= i →
  ∃ h σ', right_scan n i p q recv σ = Ok (h, σ') ∧ kinv X Y σ' ∧ frame_r σ' = frame_r σ ∧
    (k_next σ <= k_next σ')%nat ∧ right_made p q recv ip pt i h σ σ'.
Proof.
  induction n as [|n IH]; intros i σ ip K Hp Hq Hi.
  { exists (-1), σ. split_and!; try done. split; [done|]. exists ip.
    rewrite insert_id by done. split; [done|by left]. }
  cbn [right_scan].
  destruct (right_slot_grow_spec X Y σ p ip i K Hp Hi) as (o & ip0 & nx & na & E & Hg & Hn & Ho).
  set (σ1 := puti p ip0 (set_k_next nx (set_k_nalloc na σ))) in *.
  assert (kinv X Y σ1) as K1.
  { apply (kinv_grown X Y (set_k_next nx (set_k_nalloc na σ)) p ip); [|done|done].
    eapply kinv_ext; [exact K|done..]. }
  rewrite (bind_ok _ _ _ _ _ E).
  destruct o as [r|].
  2: { exists (-1), σ1. split_and!; try done. split; [done|]. by exists ip0. }
  assert (k_procs σ1 !! p = Some ip0) as Hp1 by by simpl; rewrite lookup_insert_eq.
  destruct (r_used r) eqn:Hu.
  - destruct (IH (i + 1) σ1 ip0) as (h & σ2 & E2 & K2 & F2 & N2 & M2); try done; [lia|].
    exists h, σ2. split_and!; [done|done|done|simpl in N2; lia|].
    unfold right_made in *. destruct (h <? 0).
    + destruct M2 as [Ep (ip2 & Eq2 & Hg2)]. split; [done|]. exists ip2.
      split; [|by eapply grown_trans]. rewrite Eq2. simpl. by rewrite insert_insert_eq.
    + destruct M2 as (Hh & Ep & ip2 & old & Hg2 & Hs2 & Ho2 & Eq2 & Hall).
      split_and!; [lia|lia|done|]. exists ip2, old. split_and!; try done.
      * by eapply grown_trans.
      * rewrite Eq2. simpl. by rewrite insert_insert_eq.
      * intros j Hj. destruct (decide (j = i)) as [->|]; [|apply Hall; lia].
        exists r. split; [|done]. destruct (grown_ok _ _ Hg2 (ki_proc _ _ _ K1 p ip0 Hp1)) as (_ & _ & _ & _ & _ & _ & _ & Hsl).
        by apply Hsl.
  - rewrite (right_take_eq p q recv i ip0 pt σ1) by done.
    exists i. eexists. split; [done|].
    assert (kinv X Y (high_st i σ1)) as Kh.
    { unfold high_st. case_match; [|done]. eapply kinv_ext; [exact K1|done..]. }
    assert (k_procs (high_st i σ1) = k_procs σ1 ∧ k_ports (high_st i σ1) = k_ports σ1 ∧
            frame_r (high_st i σ1) = frame_r σ1 ∧ k_next (high_st i σ1) = k_next σ1) as (Eh1 & Eh2 & Eh3 & Eh4)
      by (unfold high_st; by case_match).
    split_and!.
    + apply (kinv_right_take X Y (high_st i σ1) p q recv i ip0 pt r); try done; [by rewrite Eh1|by rewrite Eh2].
    + change (frame_r (high_st i σ1) = frame_r σ). by rewrite Eh3.
    + change (k_next σ <= k_next (high_st i σ1))%nat. by rewrite Eh4.
    + pose proof (right_slot_range _ _ _ Ho) as Hrg. unfold right_made.
      destruct (Z.ltb_spec i 0); [lia|]. split_and!; [lia|lia|simpl; by rewrite Eh2|].
      exists ip0, r. split_and!; try done.
      * simpl. rewrite Eh1. simpl. by rewrite insert_insert_eq.
      * intros j Hj. lia.
Qed.

Lemma right_new_spec X Y σ p q recv ip pt :
  kinv X Y σ → k_procs σ !! p = Some ip → k_ports σ !! q = Some pt →
  ∃ h σ', right_new p q recv σ = Ok (h, σ') ∧ kinv X Y σ' ∧ frame_r σ' = frame_r σ ∧
    (k_next σ <= k_next σ')%nat ∧ right_made p q recv ip pt (ip_rhint ip) h σ σ'.
Proof.
  intros K Hp Hq. unfold right_new. rewrite (bind_get_iproc p ip) by done.
  apply right_scan_spec; try done. apply (ki_proc X Y σ K p ip Hp).
Qed.

(** * Dropping a right *)

Definition right_gone (h : Z) (r : right) (ip : iproc) : iproc :=
  let ip := put_right h (set_r_used false r) ip in
  if r_recv r then (if 0 <? ip_nports ip then set_ip_nports (ip_nports ip - 1) ip else ip)
  else ip.

Lemma right_gone_frame h r ip :
  let ip' := right_gone h r ip in
  all_rights ip' = all_rights (put_right h (set_r_used false r) ip) ∧
  (∀ i, right_slot ip' i = right_slot (put_right h (set_r_used false r) ip) i) ∧
  ip_rhint ip' = ip_rhint ip ∧ ip_rhigh ip' = ip_rhigh ip ∧
  ip_waiters ip' = ip_waiters ip ∧ ip_w0used ip' = ip_w0used ip ∧ ip_woken ip' = ip_woken ip.
Proof.
  destruct (put_right_frame h (set_r_used false r) ip) as (E1 & E2 & E3 & E4 & E5 & E6 & _).
  unfold right_gone. simpl. destruct (r_recv r); [|by split_and!].
  case_match; simpl; by split_and!.
Qed.

Lemma right_gone_ok h r ip :
  proc_ok ip → right_slot ip h = Some r → r_used r = true → proc_ok (right_gone h r ip).
Proof.
  intros [T Hh Hhi Hn Hd] Hs Hu.
  destruct (put_right_all ip h (set_r_used false r) r T Hs) as [Ea [T1 T2]].
  destruct (put_right_frame h (set_r_used false r) ip) as (E1 & E2 & E3 & E4 & _).
  assert (zsum recv1 (all_rights (put_right h (set_r_used false r) ip)) =
          ip_nports ip - b2z (r_recv r)) as En.
  { rewrite (recv_sum_put ip h _ r T Hs), Hn. unfold recv1 at 2 3. rewrite Hu. simpl. lia. }
  assert (1 <= ip_nports ip ∨ r_recv r = false) as Hpos.
  { destruct (r_recv r) eqn:Er; [left|by right]. rewrite Hn.
    assert (recv1 r = 1) as <- by (unfold recv1; by rewrite Hu, Er).
    apply zsum_elem_le; [intros; apply b2z_range|].
    apply right_slot_elem in Hs; [|done]. by apply list_elem_of_lookup_2 in Hs. }
  assert (∀ i r', right_slot (put_right h (set_r_used false r) ip) i = Some r' →
            r_used r' = true → i < ip_rhigh ip) as Hhi'.
  { intros i r' Hi Hr'. destruct (right_slot_put ip h _ r i r' T Hs Hi) as [[-> ->]|[_ H]]; [done|].
    by apply (Hhi i r'). }
  unfold right_gone. rewrite E3. destruct (r_recv r) eqn:Er; simpl in En.
  - destruct (Z.ltb_spec 0 (ip_nports ip)); [|destruct Hpos; [lia|done]].
    split; simpl.
    + by split.
    + lia.
    + rewrite E2. exact Hhi'.
    + unfold all_rights in *. simpl. lia.
    + by rewrite E4.
  - split; simpl.
    + by split.
    + lia.
    + by rewrite E2.
    + rewrite E3. lia.
    + by rewrite E4.
Qed.

Lemma right_drop_spec rk X Y σ p ip h r :
  kinv X Y σ → k_procs σ !! p = Some ip → ip_waiters ip = [] →
  right_slot ip h = Some r → r_used r = true → ranked rk σ → ipcheld σ = true →
  ∃ σ' w, right_drop p h r σ = Ok (tt, σ') ∧ kinv X Y σ' ∧ ranked rk σ' ∧ base σ' = base σ ∧
    k_procs σ' !! p = Some (set_ip_woken w (right_gone h r ip)) ∧
    uwake (λ _, True) σ σ' ∧ (∀ p', blocked σ' p' → blocked σ p').
Proof.
  intros K Hp Hw Hs Hu Hr Hl. unfold right_drop. rewrite bind_assert_locked by done.
  destruct (ro_held X σ (ki_refs X Y σ K) p ip r Hp) as [pt Hq]; [|done|].
  { apply right_slot_elem in Hs; [|apply (ki_proc X Y σ K p ip Hp)].
    by apply list_elem_of_lookup_2 in Hs. }
  pose proof (ki_proc X Y σ K p ip Hp) as Hok.
  destruct (right_gone_frame h r ip) as (Ea & _ & _ & _ & Ew & E0 & Ek).
  set (pt1 := if r_recv r then set_pt_nrecv (pt_nrecv pt - 1) pt else pt).
  set (σ1 := puti p (right_gone h r ip) σ). set (σ2 := put (r_port r) pt1 σ1).
  assert (kinv ((pt_idx pt, r_recv r) :: X) Y σ1) as K1.
  { eapply kinv_puti; [exact K|exact Hp| |by apply right_gone_ok|done|by rewrite E0|by rewrite Ek|].
    - eapply refs_uninstall; [exact Hp|apply K|apply Hok|done..].
    - intros w x Hin. rewrite Hw in Hin. by apply elem_of_nil in Hin. }
  assert (kinv ((pt_idx pt1, false) :: X) Y σ2) as K2.
  { unfold σ2, pt1. destruct (r_recv r) eqn:Er; [|by rewrite put_id].
    eapply kinv_put; [exact K1|exact Hq|by apply (refs_unrecv (σ := σ1) Hq); [apply K1|..]| |done|done].
    by destruct (ki_port X Y σ K (r_port r) pt Hq). }
  assert (k_ports σ2 !! r_port r = Some pt1) as Hq2 by by simpl; rewrite lookup_insert_eq.
  assert (uframe rk (S (rk (r_port r))) σ1 σ2) as F2.
  { eapply uframe_put; [exact Hq|lia|..]; unfold pt1; destruct (r_recv r); auto. }
  destruct (port_unref_spec rk X Y (r_port r) pt1 σ2) as (σ' & E & K' & F & Wk); try done.
  { eapply ranked_uframe; [exact F2|exact Hr]. }
  assert (k_procs σ2 !! p = Some (right_gone h r ip)) as Hp2 by by simpl; rewrite lookup_insert_eq.
  destruct (uf_proc _ _ _ _ F p _ Hp2) as [w Hpw].
  exists σ', w. split_and!; [|done|..|done| |].
  - rewrite (bind_upd_iproc p ip) by done. rewrite <-E. unfold σ2, σ1, pt1, right_gone.
    destruct (r_recv r); cbn [st_when].
    + rewrite bind_assoc, (bind_upd_port (r_port r) pt) by done.
      erewrite bind_upd_iproc by (simpl; by rewrite lookup_insert_eq).
      unfold puti, put. simpl. by rewrite insert_insert_eq.
    + rewrite bind_ret. by rewrite put_id.
  - eapply ranked_uframe; [exact F|]. eapply ranked_uframe; [exact F2|exact Hr].
  - by rewrite (uf_base _ _ _ _ F).
  - intros q0 _ H. apply Wk; [done|]. eapply (uwake_put (λ _, True) _ pt); [exact Hq|..|exact H];
      unfold pt1; destruct (r_recv r); auto.
  - intros p' H. by apply (uf_blocked _ _ _ _ F) in H.
Qed.

(** * Queueing *)

Definition msg_cost (data : list Z) (bufs : msgbufs) : Z :=
  Z.of_nat (length data) + msgbufs_bytes bufs.

Definition pushed (data : list Z) (refs : list (nat * bool)) (bufs : msgbufs) (pt : kport) : kport :=
  let cost := msg_cost data bufs in
  let pt := set_pt_queue (pt_queue pt ++ [mkKmsg data bufs cost refs]) pt in
  let pt := set_pt_qbytes (pt_qbytes pt + cost) pt in
  let pt := if pt_qpeak pt <? pt_qbytes pt then set_pt_qpeak (pt_qbytes pt) pt else pt in
  set_pt_nsent (pt_nsent pt + 1) pt.

Lemma pushed_frame data refs bufs pt :
  let pt' := pushed data refs bufs pt in
  pt_idx pt' = pt_idx pt ∧ pt_gen pt' = pt_gen pt ∧ pt_waiters pt' = pt_waiters pt ∧
  pt_nrights pt' = pt_nrights pt ∧ pt_nrecv pt' = pt_nrecv pt ∧ pt_dead pt' = pt_dead pt ∧
  pt_qbytes pt' = pt_qbytes pt + msg_cost data bufs ∧
  pt_queue pt' = pt_queue pt ++ [mkKmsg data bufs (msg_cost data bufs) refs].
Proof. unfold pushed. simpl. case_match; by split_and!. Qed.

Lemma pushed_ok data refs bufs pt :
  port_ok pt → pt_dead pt = false → pt_qbytes pt + msg_cost data bufs <= MAXQUEUE →
  (∀ b, b ∈ bufs → 0 <= snd b) → port_ok (pushed data refs bufs pt).
Proof.
  intros [Hq Hb Hc Hd Hn] Hdead Hfit Hbufs.
  destruct (pushed_frame data refs bufs pt) as (_ & _ & Ew & _ & _ & Ed & Eb & Eq).
  split.
  - rewrite Eb, Eq, zsum_app, Hq. unfold zsum at 3. simpl. lia.
  - by rewrite Eb.
  - intros m. rewrite Eq, elem_of_app, list_elem_of_singleton. intros [Hm| ->]; [by apply Hc|].
    by split.
  - rewrite Ed. congruence.
  - by rewrite Ew.
Qed.

(** Refusals count what they refused and change nothing else. *)
Definition refused (rc : Z) (pt : kport) : kport :=
  if rc =? -3 then set_pt_ndrop_dead (pt_ndrop_dead pt + 1) pt
  else if rc =? -2 then set_pt_ndrop_full (pt_ndrop_full pt + 1) pt else pt.

Definition push_rc (data : list Z) (bufs : msgbufs) (pt : kport) (mem : bool) : Z :=
  if pt_dead pt then -3
  else if MAXQUEUE <? pt_qbytes pt + msg_cost data bufs then -2
  else if mem then 0 else -1.

Lemma kinv_refused X Y σ q pt rc :
  kinv X Y σ → k_ports σ !! q = Some pt → kinv X Y (put q (refused rc pt) σ).
Proof.
  intros K Hq. eapply kinv_put; [exact K|exact Hq| | |by unfold refused; repeat case_match|].
  - apply (refs_frame Hq); [apply K|by unfold refused; repeat case_match..|].
    intros f. unfold refused. by repeat case_match.
  - destruct (ki_port X Y σ K q pt Hq). unfold refused. by repeat case_match.
  - intros c. unfold refused. by repeat case_match.
Qed.

(** Everything but the ports, the drop counters and the heap. *)
Definition frame_p (σ : kst) :=
  (k_procs σ, k_portv σ, k_waiters σ, k_sch σ, k_timers σ, k_krefs σ, k_chunks σ, k_ipc σ,
   k_maxports σ, k_mem σ, k_szbits σ, k_acct σ, k_bytes σ, k_hangup_gen σ).

Lemma port_push_owned_spec X Y σ q pt data refs bufs :
  kinv (refs ++ X) (bufs ++ Y) σ → k_ports σ !! q = Some pt →
  ipcheld_one_port pt σ = true → (∀ b, b ∈ bufs → 0 <= snd b) →
  ∃ σ', let rc := push_rc data bufs pt (k_mem σ (k_nalloc σ)) in
    port_push_owned q data refs bufs σ = Ok (rc, σ') ∧
    uwake (λ _, True) σ σ' ∧ k_ipc σ' = k_ipc σ ∧ (∀ p, blocked σ' p → blocked σ p) ∧
    if rc =? 0 then kinv X Y σ' ∧ (∀ w, ¬ sleeping false q w σ') ∧
      wframe q (put q (pushed data refs bufs pt) (alloc_st σ)) σ'
    else kinv (refs ++ X) (bufs ++ Y) σ' ∧ k_ports σ' = <[q := refused rc pt]> (k_ports σ) ∧
      frame_p σ' = frame_p σ.
Proof.
  intros K Hq Hl Hb. unfold port_push_owned.
  rewrite (bind_assert_port q pt), (bind_get_port q pt) by done. unfold push_rc, msg_cost.
  destruct (pt_dead pt) eqn:Hd.
  { rewrite bind_put_port, bind_modify. eexists. split; [done|].
    change (-3 =? 0) with false. cbv iota.
    split_and!; [|done|done|by eapply kinv_ext; [apply (kinv_refused _ _ σ q pt (-3) K Hq)|..]|done..].
    apply wake_ok_same; try done. intros q0 p H. simpl in H. right.
    apply lookup_insert_Some in H as [[<- <-]|[_ H]]; eauto. }
  fold (msg_cost data bufs).
  destruct (Z.ltb_spec MAXQUEUE (pt_qbytes pt + msg_cost data bufs)) as [Hf|Hf].
  { rewrite bind_put_port, bind_modify. eexists. split; [done|].
    change (-2 =? 0) with false. cbv iota.
    split_and!; [|done|done|by eapply kinv_ext; [apply (kinv_refused _ _ σ q pt (-2) K Hq)|..]|done..].
    apply wake_ok_same; try done. intros q0 p H. simpl in H. right.
    apply lookup_insert_Some in H as [[<- <-]|[_ H]]; eauto. }
  destruct (k_mem σ (k_nalloc σ)) eqn:Em.
  2: { rewrite (bind_ok _ _ σ None (failed_st σ)) by by rewrite malloc_eq, Em.
       exists (failed_st σ). split; [done|]. change (-1 =? 0) with false. cbv iota.
       split_and!; [|done|done|by apply kinv_failed| |done].
       - apply wake_ok_same; try done. intros q0 p H. right. eauto.
       - simpl. by rewrite insert_id. }
  rewrite (bind_ok _ _ σ (Some (k_next σ)) (alloc_st σ)) by by rewrite malloc_eq, Em.
  rewrite (bind_upd_port q pt) by done. fold (msg_cost data bufs).
  fold (pushed data refs bufs pt). set (σ1 := put q (pushed data refs bufs pt) (alloc_st σ)).
  destruct (pushed_frame data refs bufs pt) as (Ei & _ & Ew & En & Er & Ed & Eb & Eq).
  assert (kinv X Y σ1) as K1.
  { eapply kinv_put; [exact (kinv_alloc _ _ _ K)|exact Hq| | |done|].
    - apply (refs_push (σ := alloc_st σ) Hq (mkKmsg data bufs (msg_cost data bufs) refs)); [apply (kinv_alloc _ _ _ K)|done|by intros [];simpl|done].
    - apply pushed_ok; try done. by apply (ki_port _ _ _ K q).
    - intros c. rewrite Eq, bufs_n_app. unfold queue_bufs. rewrite zsum_app.
      unfold zsum at 2. simpl. lia. }
  assert (k_ports σ1 !! q = Some (pushed data refs bufs pt)) as Hq1
    by by simpl; rewrite lookup_insert_eq.
  destruct (wake_waiters_spec X Y σ1 false q _ K1 Hq1) as (σ' & E & K' & F & Hn).
  { unfold ipcheld_one_port, ipcbucket_of in *. by rewrite Ei. }
  unfold wake_receivers. rewrite (bind_ok _ _ _ _ _ E).
  exists σ'. split; [done|]. change (0 =? 0) with true. cbv iota. split_and!.
  - intros q0 _ H. destruct (decide (q0 = q)) as [->|Hne].
    + intros p w x Hp Hw Hx Hbl. destruct (w_send x) eqn:Es.
      * destruct (wfr_self q _ _ F _ Hq1) as (l & Hp' & Hsub). simplify_eq. simpl in *. by rewrite Ed.
      * exfalso. apply (Hn w). by exists p, x.
    + eapply wframe_wake_ok; [by eexists|exact F|]. intros p w x Hp. simpl in Hp.
      rewrite lookup_insert_ne in Hp by done. by apply H.
  - by rewrite (core_ipc _ _ (wfr_core _ _ _ F)).
  - intros p H. by apply (wfr_blocked _ _ _ F) in H.
  - done.
  - done.
  - done.
Qed.

(** * Taking a message *)

(** A bucket may be entered with nothing held, or again under the wide lock; what
    it is left as is what it was. *)
Definition entered (b : nat) (l : list nat) : list nat := <[b := S (default 0%nat (l !! b))]> l.

Lemma enter_port_any q pt σ :
  k_ports σ !! q = Some pt → lockable σ →
  let l := entered (ipcbucket_of pt) (k_ipc σ) in
  ipclock_enter_port q σ = Ok (tt, with_ipc l σ) ∧
  (∀ σ', k_ipc σ' = l → ipcheld_one_port pt σ' = true) ∧
  (∀ σ' pt', k_ports σ' !! q = Some pt' → pt_idx pt' = pt_idx pt → k_ipc σ' = l →
     ipclock_leave_port q σ' = Ok (tt, with_ipc (k_ipc σ) σ')).
Proof.
  intros Hq Hl. unfold ipclock_enter_port, ipclock_leave_port, ipcheld_one_port.
  rewrite (bind_get_port q pt) by done.
  assert (∀ b l, (b < 8)%nat → l = replicate 8 0%nat ∨ l = replicate 8 1%nat →
    (∀ τ, k_ipc τ = l → ipclock_enter_one b τ = Ok (tt, with_ipc (entered b l) τ)) ∧
    (∀ τ, k_ipc τ = entered b l → ipcheld_one b τ = true) ∧
    (∀ τ, k_ipc τ = entered b l → ipclock_leave_one b τ = Ok (tt, with_ipc l τ))) as H.
  { intros b l Hb Hll.
    do 8 (destruct b as [|b]; [split_and!; intros [] E; simpl in E; subst; by destruct Hll as [->| ->]|]).
    lia. }
  destruct (H (ipcbucket_of pt) (k_ipc σ) (bucket_lt pt) Hl) as (H1 & H2 & H3).
  split_and!; [by apply H1|done|].
  intros σ' pt' Hq' Ei El. rewrite (bind_get_port q pt') by done.
  replace (ipcbucket_of pt') with (ipcbucket_of pt) by (unfold ipcbucket_of; by rewrite Ei).
  by apply H3.
Qed.

Definition popped (m : kmsg) (l : list kmsg) (pt : kport) : kport :=
  set_pt_qbytes (pt_qbytes pt - m_qcost m) (set_pt_queue l pt).

Lemma bytes_nonneg (b : msgbufs) : (∀ e, e ∈ b → 0 <= snd e) → 0 <= msgbufs_bytes b.
Proof. apply zsum_nonneg. Qed.

Lemma cost_nonneg m : cost_ok m → 0 <= m_qcost m.
Proof. intros [-> H]. pose proof (bytes_nonneg _ H). lia. Qed.

Lemma popped_ok m l pt : port_ok pt → pt_queue pt = m :: l → port_ok (popped m l pt).
Proof.
  intros [Hq Hb Hc Hd Hn] Eq. rewrite Eq in Hq, Hc. rewrite zsum_cons in Hq.
  pose proof (cost_nonneg m (Hc m ltac:(left))). split; simpl; try done.
  - lia.
  - lia.
  - intros m' Hm. apply Hc. by right.
  - intros Hdd. specialize (Hd Hdd). congruence.
Qed.

Lemma wframe_ipc q l σ σ' : wframe q σ σ' → wframe q (with_ipc l σ) (with_ipc l σ').
Proof.
  intros [? ? ? ? ? ? Hc ?]. split; try done. unfold core in *. simpl. injection Hc. intros.
  congruence.
Qed.

Lemma with_ipc_id σ : with_ipc (k_ipc σ) σ = σ.
Proof. by destruct σ. Qed.

Lemma port_pop_spec X Y σ q pt :
  kinv X Y σ → k_ports σ !! q = Some pt → lockable σ →
  ∃ σ', port_pop q σ = Ok (head (pt_queue pt), σ') ∧ k_ipc σ' = k_ipc σ ∧
    uwake (λ _, True) σ σ' ∧ (∀ p, blocked σ' p → blocked σ p) ∧
    match pt_queue pt with
    | [] => σ' = σ
    | m :: l => kinv (m_refs m ++ X) (m_bufs m ++ Y) σ' ∧ (∀ w, ¬ sleeping true q w σ') ∧
        wframe q (put q (popped m l pt) σ) σ'
    end.
Proof.
  intros K Hq Hl. unfold port_pop.
  destruct (enter_port_any q pt σ Hq Hl) as (E & Hheld & Hleave).
  set (ll := entered _ _) in *. rewrite (bind_ok _ _ _ _ _ E).
  rewrite (bind_get_port q pt) by done. destruct (pt_queue pt) as [|m l] eqn:Eq.
  { rewrite (bind_ok _ _ _ _ _ (Hleave (with_ipc ll σ) pt Hq eq_refl eq_refl)).
    change (with_ipc (k_ipc σ) (with_ipc ll σ)) with (with_ipc (k_ipc σ) σ).
    rewrite with_ipc_id. exists σ. split_and!; try done. by intros q0 _. }
  rewrite bind_put_port. fold (popped m l pt). set (σ1 := put q (popped m l pt) (with_ipc ll σ)).
  assert (kinv (m_refs m ++ X) (m_bufs m ++ Y) σ1) as K1.
  { eapply kinv_put; [exact (kinv_ipc _ _ ll _ K)|exact Hq| | |done|].
    - eapply (refs_pop (σ := with_ipc ll σ) Hq m l); [apply (kinv_ipc _ _ ll _ K)|done|by intros []|done|done].
    - apply popped_ok; [by apply (ki_port X Y σ K q)|done].
    - intros c. rewrite Eq, bufs_n_app. unfold queue_bufs. rewrite zsum_cons. simpl. lia. }
  assert (k_ports σ1 !! q = Some (popped m l pt)) as Hq1 by by simpl; rewrite lookup_insert_eq.
  destruct (wake_waiters_spec _ _ σ1 true q _ K1 Hq1) as (σ2 & E2 & K2 & F & Hn).
  { change (ipcheld_one_port pt σ1 = true). by apply Hheld. }
  unfold wake_senders. rewrite (bind_ok _ _ _ _ _ E2).
  destruct (wfr_self _ _ _ F _ Hq1) as (lw & Hq2 & Hsub).
  rewrite (bind_ok _ _ _ _ _ (Hleave σ2 _ Hq2 eq_refl (core_ipc _ _ (wfr_core _ _ _ F)))).
  exists (with_ipc (k_ipc σ) σ2). split_and!; try done.
  - intros q0 _ H. change (wake_ok_at σ2 q0). eapply (wframe_wake_ok q σ1 σ2); [by eexists|done|].
    intros p w x Hp Hw Hx Hb. simpl in Hp. apply lookup_insert_Some in Hp as [[<- <-]|[_ Hp]].
    + specialize (H pt w x Hq Hw Hx Hb). destruct (w_send x); [done|congruence].
    + by apply (H p w x).
  - intros p Hb. by apply (wfr_blocked _ _ _ F) in Hb.
  - by apply kinv_ipc.
  - apply (wframe_ipc _ (k_ipc σ)) in F.
    replace (with_ipc (k_ipc σ) σ1) with (put q (popped m l pt) σ) in F; [done|].
    unfold σ1. by destruct σ.
Qed.

(** * Giving references up *)

Lemma port_unref_unref_spec rk n : unref_spec rk n port_unref.
Proof. intros X Y q pt σ K Hq Hr Hl _. by apply (port_unref_spec rk X Y q pt). Qed.

Lemma rank_bound (rk : nat → nat) (v : gmap nat nat) (l : list (nat * bool)) :
  ∃ b, ∀ ref q, ref ∈ l → v !! fst ref = Some q → (rk q < b)%nat.
Proof.
  induction l as [|ref l [b IH]].
  { exists 0%nat. intros ref q H. by apply elem_of_nil in H. }
  exists (S (max b (from_option rk 0 (v !! fst ref))))%nat. intros ref' q [->|H]%elem_of_cons Hv.
  - rewrite Hv. simpl. lia.
  - pose proof (IH ref' q H Hv). lia.
Qed.

(** What giving references up leaves behind. *)
Definition gave (rk : nat → nat) (X : list (nat * bool)) (Y : msgbufs) (σ σ' : kst) : Prop :=
  kinv X Y σ' ∧ ranked rk σ' ∧ base σ' = base σ ∧ uwake (λ _, True) σ σ' ∧
  (∀ p, blocked σ' p → blocked σ p) ∧
  (∀ p ip, k_procs σ !! p = Some ip → ∃ w, k_procs σ' !! p = Some (set_ip_woken w ip)) ∧
  queues_kept σ σ'.

Lemma gave_uframe rk X Y b σ σ' :
  kinv X Y σ' → ranked rk σ → uframe rk b σ σ' → uwake (λ _, True) σ σ' → gave rk X Y σ σ'.
Proof.
  intros K Hr F Wk. split_and!; [done|by eapply ranked_uframe|apply (uf_base _ _ _ _ F)|done| | |].
  - apply (uf_blocked _ _ _ _ F).
  - apply (uf_proc _ _ _ _ F).
  - apply (uf_kept _ _ _ _ F).
Qed.

Lemma release_inflight_spec rk X Y σ refs :
  kinv (refs ++ X) Y σ → ranked rk σ → ipcheld σ = true →
  ∃ σ', release_inflight refs σ = Ok (tt, σ') ∧ gave rk X Y σ σ'.
Proof.
  intros K Hr Hl. destruct (rank_bound rk (k_portv σ) refs) as [b Hb].
  destruct (release_iter_spec rk (S (queued σ)) port_unref (port_unref_unref_spec _ _)
              b Y refs X σ) as (σ' & E & K' & F & Wk); try done; [lia|].
  exists σ'. split; [|by eapply gave_uframe].
  unfold release_inflight, release_inflight_with. destruct refs; [done|].
  by rewrite bind_assert_locked.
Qed.

Lemma msg_free_spec rk X Y σ m :
  kinv (m_refs m ++ X) (m_bufs m ++ Y) σ → ranked rk σ → ipcheld σ = true →
  ∃ σ', msg_free m σ = Ok (tt, σ') ∧ gave rk X Y σ σ'.
Proof.
  intros K Hr Hl. destruct (rank_bound rk (k_portv σ) (m_refs m)) as [b Hb].
  destruct (msg_free_with_spec rk (S (queued σ)) port_unref (port_unref_unref_spec _ _)
              b X Y m σ) as (σ' & E & K' & F & Wk); try done; [lia|].
  exists σ'. split; [done|]. by eapply gave_uframe.
Qed.

Lemma gave_ipc rk X Y l l' σ σ' :
  gave rk X Y (with_ipc l σ) σ' → k_ipc σ = l' →
  gave rk X Y σ (with_ipc l' σ').
Proof.
  intros (K & Hr & Hb & Hw & Hbl & Hp & Hk) Hl. split_and!; try done.
  - by apply kinv_ipc.
  - unfold base in *. simpl in *. injection Hb. intros. congruence.
Qed.

(** [ipclock_enter ; body ; ipclock_leave] around a reference drop. *)
Lemma locked_spec rk X Y (m : KM unit) σ :
  lockable σ →
  (∀ σ1, σ1 = with_ipc (List.map S (k_ipc σ)) σ → ipcheld σ1 = true →
     ∃ σ2, m σ1 = Ok (tt, σ2) ∧ gave rk X Y σ1 σ2) →
  ∃ σ', (ipclock_enter ;;; m ;;; ipclock_leave) σ = Ok (tt, σ') ∧ gave rk X Y σ σ'.
Proof.
  intros Hu Hm. rewrite (bind_ok _ _ _ _ _ (enter_any σ Hu)).
  destruct (Hm _ eq_refl) as (σ2 & E & G); [by eapply entered_ipcheld|].
  rewrite (bind_ok _ _ _ _ _ E).
  exists (with_ipc (k_ipc σ) σ2). split.
  - apply leave_any; [done|]. destruct G as (_ & _ & Hb & _). unfold base in Hb.
    by injection Hb.
  - by eapply gave_ipc.
Qed.

Lemma msg_dispose_spec rk X Y σ m :
  kinv (m_refs m ++ X) (m_bufs m ++ Y) σ → ranked rk σ → lockable σ →
  ∃ σ', msg_dispose m σ = Ok (tt, σ') ∧ gave rk X Y σ σ'.
Proof.
  intros K Hr Hu. unfold msg_dispose. destruct (m_refs m) as [|ref refs] eqn:Er.
  - destruct (msgbufs_free_spec X (m_bufs m) Y σ K) as (cs & E & K').
    exists (set_k_chunks cs σ). unfold msg_free, msg_free_with. rewrite Er. split; [done|].
    destruct (uframe_chunks rk 0 cs σ) as [F Wk]. by eapply gave_uframe.
  - apply locked_spec; [done|]. intros σ1 -> Hl. apply msg_free_spec; [|done|done].
    rewrite Er. by apply kinv_ipc.
Qed.

Lemma release_inflight_locked_spec rk X Y σ refs :
  kinv (refs ++ X) Y σ → ranked rk σ → lockable σ →
  ∃ σ', release_inflight_locked refs σ = Ok (tt, σ') ∧ gave rk X Y σ σ'.
Proof.
  intros K Hr Hu. apply locked_spec; [done|]. intros σ1 -> Hl.
  apply release_inflight_spec; [by apply kinv_ipc|done|done].
Qed.
