(* ===== verification/WaitOps.v ===== *)
(** Joining and leaving wait lists, and going to sleep: [wait_add], [wait_clear]
    and [wait_reap] of src/src/port.c, and [proc_block] of src/src/sched.c as the
    blocking calls use it. *)

From S2P Require Import Prelude Clock Sched Ports PortInv KInv PortWake PortRef PortOps.
From stdpp Require Import prelude list gmap strings.
From Stdlib Require Import ZArith Lia.
Open Scope Z_scope.

(** * Leaving a wait list *)

Lemma elem_of_ports_waiter X Y σ q pt w p ip :
  kinv X Y σ → k_ports σ !! q = Some pt → w ∈ pt_waiters pt → k_procs σ !! p = Some ip →
  ∀ x, k_waiters σ !! w = Some x → w_p x = p → w ∈ ip_waiters ip.
Proof.
  intros K Hq Hw Hp x Hx E.
  destruct (wo_port σ (ki_wait X Y σ K) q pt w Hq Hw) as (x' & ip' & Hx' & _ & _ & Hip & Hin).
  by simplify_eq.
Qed.

Definition frame_w (σ : kst) :=
  (k_portv σ, k_timers σ, k_krefs σ, k_chunks σ, k_sch σ, k_next σ, k_maxports σ).

(** [p] gives up the first waiter it lists: it leaves its port's list if it is on
    it, and its storage. *)
Record unwait (p : nat) (ip : iproc) (w : wid) (x : waiter) (l : list wid) (σ σ' : kst) : Prop :=
  mkUnwait {
  uw_off : w_onport x = false → k_ports σ' = k_ports σ;
  uw_on : w_onport x = true → ∃ pt, k_ports σ !! w_port x = Some pt ∧
    k_ports σ' = <[w_port x := set_pt_waiters (filter (λ y, y ≠ w) (pt_waiters pt)) pt]> (k_ports σ);
  uw_proc : k_procs σ' =
    <[p := set_ip_w0used (if decide (w = W0 p) then false else ip_w0used ip)
             (set_ip_waiters l ip)]> (k_procs σ);
  uw_other : ∀ w', w' ≠ w → k_waiters σ' !! w' = k_waiters σ !! w';
  uw_heap : ∀ a, is_Some (k_waiters σ' !! WH a) → is_Some (k_waiters σ !! WH a);
  uw_rest : frame_w σ' = frame_w σ
}.

Section unwait.
Context {X : list (nat * bool)} {Y : msgbufs} {σ σ' : kst} (K : kinv X Y σ).
Context {p : nat} {ip : iproc} {w : wid} {x : waiter} {l : list wid}.
Context (Hp : k_procs σ !! p = Some ip) (Hl : ip_waiters ip = w :: l).
Context (Hx : k_waiters σ !! w = Some x) (U : unwait p ip w x l σ σ').

Lemma unwait_port q pt' : k_ports σ' !! q = Some pt' →
  ∃ pt, k_ports σ !! q = Some pt ∧ pt' = set_pt_waiters (pt_waiters pt') pt ∧
    (∀ w', w' ∈ pt_waiters pt' → w' ∈ pt_waiters pt) ∧
    (∀ w', w' ≠ w → w' ∈ pt_waiters pt → w' ∈ pt_waiters pt') ∧
    (w ∉ pt_waiters pt') ∧ (NoDup (pt_waiters pt) → NoDup (pt_waiters pt')).
Proof.
  intros H. pose proof (ki_wait X Y σ K) as W.
  destruct (wo_proc σ W p ip w Hp) as (x' & Hx' & Ep & Ho); [rewrite Hl; left|]. simplify_eq.
  destruct (w_onport x) eqn:On.
  - destruct (uw_on _ _ _ _ _ _ _ U On) as (pt & Hq & E). rewrite E in H.
    apply lookup_insert_Some in H as [[<- <-]|[Hne H]].
    + exists pt. split_and!; try done; simpl.
      * intros w' Hw'. by apply list_elem_of_filter in Hw' as [_ ?].
      * intros w' Hne Hw'. by apply list_elem_of_filter.
      * intros Hw'. by apply list_elem_of_filter in Hw' as [? _].
      * intros Hnd. by apply NoDup_filter.
    + exists pt'. split_and!; try done; [by destruct pt'|]. intros Hw.
      destruct (wo_port σ W q pt' w H Hw) as (x' & ? & Hx'' & Eq & _). congruence.
  - rewrite (uw_off _ _ _ _ _ _ _ U On) in H. exists pt'. split_and!; try done; [by destruct pt'|].
    intros Hw. destruct (wo_port σ W q pt' w H Hw) as (x' & ? & Hx'' & Eq & Eo & _). congruence.
Qed.

Lemma unwait_port_inv q pt : k_ports σ !! q = Some pt →
  ∃ pt', k_ports σ' !! q = Some pt' ∧ (∀ w', w' ≠ w → w' ∈ pt_waiters pt → w' ∈ pt_waiters pt').
Proof.
  intros Hq. destruct (w_onport x) eqn:On.
  - destruct (uw_on _ _ _ _ _ _ _ U On) as (pt0 & Hq0 & E). rewrite E.
    destruct (decide (w_port x = q)) as [Eq|Hne].
    + rewrite Eq, lookup_insert_eq in *. simplify_eq. eexists. split; [done|]. simpl.
      intros w' Hne Hw'. by apply list_elem_of_filter.
    + rewrite lookup_insert_ne by done. eauto.
  - rewrite (uw_off _ _ _ _ _ _ _ U On). eauto.
Qed.

Lemma unwait_refs : refs_ok X σ'.
Proof.
  assert (∃ σ1, refs_ok X σ1 ∧ k_ports σ1 = k_ports σ' ∧ k_procs σ1 = k_procs σ ∧
    k_portv σ1 = k_portv σ ∧ k_timers σ1 = k_timers σ ∧ k_krefs σ1 = k_krefs σ)
    as (σ1 & R1 & E1 & E2 & E3 & E4 & E5).
  { destruct (w_onport x) eqn:On.
    - destruct (uw_on _ _ _ _ _ _ _ U On) as (pt & Hq & E). rewrite E.
      eexists (put (w_port x) _ σ). split_and!; [|done..].
      apply (refs_frame Hq); [apply K|done|done|by intros []].
    - exists σ. rewrite (uw_off _ _ _ _ _ _ _ U On). split_and!; try done. apply K. }
  assert (k_procs σ1 !! p = Some ip) as Hp1 by by rewrite E2.
  pose proof (uw_rest _ _ _ _ _ _ _ U) as Hr. injection Hr as Ev Et Ek Ec Es En Em.
  eapply refs_ok_ext; [eapply (refs_proc_frame Hp1); [exact R1|]|..].
  - instantiate (1 := set_ip_w0used (if decide (w = W0 p) then false else ip_w0used ip) (set_ip_waiters l ip)). done.
  - done.
  - simpl. congruence.
  - simpl. rewrite E2. apply (uw_proc _ _ _ _ _ _ _ U).
  - simpl. congruence.
  - simpl. congruence.
Qed.

Lemma unwait_proc p' ip' : k_procs σ' !! p' = Some ip' →
  ∃ ip0, k_procs σ !! p' = Some ip0 ∧ all_rights ip' = all_rights ip0 ∧
    ip_woken ip' = ip_woken ip0 ∧
    (∀ w', w' ∈ ip_waiters ip' → w' ∈ ip_waiters ip0 ∧ w' ≠ w).
Proof.
  intros H. rewrite (uw_proc _ _ _ _ _ _ _ U) in H.
  destruct (ki_proc X Y σ K p ip Hp) as [_ _ _ _ Hnd]. rewrite Hl in Hnd.
  apply NoDup_cons in Hnd as [Hnin _].
  apply lookup_insert_Some in H as [[<- <-]|[Hne H]].
  - exists ip. split_and!; try done. simpl. intros w' Hw'. split; [rewrite Hl; by right|].
    intros ->. done.
  - exists ip'. split_and!; try done. intros w' Hw'. split; [done|]. intros ->.
    destruct (wo_proc σ (ki_wait X Y σ K) p' ip' w H Hw') as (x' & Hx' & E & _).
    destruct (wo_proc σ (ki_wait X Y σ K) p ip w Hp) as (x'' & Hx'' & E' & _);
      [rewrite Hl; left|]. congruence.
Qed.

Lemma unwait_wait : wait_ok σ'.
Proof.
  pose proof (ki_wait X Y σ K) as W. split.
  - intros q pt' w' Hq Hw'. destruct (unwait_port q pt' Hq) as (pt & Hq0 & _ & Hsub & _ & Hnin & _).
    assert (w' ≠ w) as Hne by (intros ->; done).
    destruct (wo_port σ W q pt w' Hq0 (Hsub _ Hw')) as (x' & ip0 & Hx' & E & Eo & Hip & Hin).
    exists x'. rewrite (uw_other _ _ _ _ _ _ _ U) by done.
    rewrite (uw_proc _ _ _ _ _ _ _ U). destruct (decide (p = w_p x')) as [->|Hp'].
    + rewrite lookup_insert_eq. simplify_eq. eexists. split_and!; [done..|]. simpl.
      rewrite Hl in Hin. by apply elem_of_cons in Hin as [|].
    + rewrite lookup_insert_ne by done. eauto 8.
  - intros p' ip' w' Hp' Hw'. destruct (unwait_proc p' ip' Hp') as (ip0 & Hp0 & Er & _ & Hin).
    destruct (Hin w' Hw') as [Hw0 Hne].
    destruct (wo_proc σ W p' ip0 w' Hp0 Hw0) as (x' & Hx' & E & Ho). exists x'.
    rewrite (uw_other _ _ _ _ _ _ _ U) by done. split_and!; [done..|]. intros On.
    destruct (Ho On) as (pt & Hq & Hwp & Hr).
    destruct (unwait_port_inv _ _ Hq) as (pt' & Hq' & Hk). exists pt'.
    split_and!; [done|by apply Hk|]. unfold rights_n in *. by rewrite Er.
  - intros p' ip' p'' Hp' Hw'. rewrite (uw_proc _ _ _ _ _ _ _ U) in Hp'.
    apply lookup_insert_Some in Hp' as [[<- <-]|[_ H]]; [|by eapply (wo_w0 σ W)]. simpl in *.
    destruct (wo_w0 σ W p ip p'' Hp) as [-> E]; [rewrite Hl; by right|]. split; [done|].
    rewrite decide_False; [done|]. intros ->.
    pose proof (pr_nodup ip (ki_proc X Y σ K p ip Hp)) as Hnd. rewrite Hl in Hnd.
    by apply NoDup_cons in Hnd as [? _].
Qed.

Lemma unwait_kinv : kinv X Y σ'.
Proof.
  pose proof (uw_rest _ _ _ _ _ _ _ U) as Hr. unfold frame_w in Hr.
  injection Hr as Ev Et Ek Ec Es En Em. split.
  - apply unwait_refs.
  - intros q pt' Hq. destruct (unwait_port q pt' Hq) as (pt & Hq0 & E & _ & _ & _ & Hnd).
    destruct (ki_port X Y σ K q pt Hq0) as [? ? ? ? Hn]. specialize (Hnd Hn).
    rewrite E. split; try done.
  - intros p' ip' H. rewrite (uw_proc _ _ _ _ _ _ _ U) in H.
    apply lookup_insert_Some in H as [[<- <-]|[_ H]]; [|by apply (ki_proc X Y σ K p')].
    destruct (ki_proc X Y σ K p ip Hp) as [[T1 T2] H2 H3 H4 H5]. rewrite Hl in H5.
    apply NoDup_cons in H5 as [_ H5]. by split.
  - destruct (ki_chunks X Y σ K) as [H1 H2].
    assert (∀ c, owned c Y (k_ports σ') = owned c Y (k_ports σ)) as E.
    { intros c. unfold owned. destruct (w_onport x) eqn:On.
      - destruct (uw_on _ _ _ _ _ _ _ U On) as (pt & Hq & ->).
        by rewrite (msum_insert_Some _ _ _ _ _ Hq), Z.sub_add.
      - by rewrite (uw_off _ _ _ _ _ _ _ U On). }
    split; intros c; rewrite E; [apply H1|]. rewrite Ec. apply H2.
  - apply unwait_wait.
  - destruct (ki_sched X Y σ K) as [H1 H2 H3 H4]. split; unfold blocked; rewrite ?Es; try done.
    + intros p' ip' H. destruct (unwait_proc p' ip' H) as (ip0 & H0 & _). by apply (H3 p' ip0).
    + intros p' ip' H Hk. destruct (unwait_proc p' ip' H) as (ip0 & H0 & _ & E & _).
      apply (H4 p' ip0); [done|congruence].
  - intros q [pt' H]. destruct (unwait_port q pt' H) as (pt & Hq & _). rewrite En.
    apply (ki_fresh X Y σ K). by exists pt.
  - intros a H. rewrite En. apply (ki_wfresh X Y σ K). by apply (uw_heap _ _ _ _ _ _ _ U).
  - rewrite Em. apply (ki_max X Y σ K).
Qed.

Lemma unwait_wake : uwake (λ _, True) σ σ'.
Proof.
  pose proof (uw_rest _ _ _ _ _ _ _ U) as Hr. unfold frame_w in Hr.
  injection Hr as Ev Et Ek Ec Es En Em.
  intros q _ Hok pt' w' x' Hq Hw' Hx' Hb.
  destruct (unwait_port q pt' Hq) as (pt & Hq0 & E & Hsub & _ & Hnin & _).
  rewrite (uw_other _ _ _ _ _ _ _ U) in Hx' by (intros ->; done).
  unfold blocked in Hb. rewrite Es in Hb. rewrite E. simpl.
  by apply (Hok pt w' x'); [|apply Hsub|..].
Qed.

End unwait.

(** What leaving wait lists keeps of one proc. *)
Definition unlisted (ip : iproc) (ip' : iproc) : Prop :=
  all_rights ip' = all_rights ip ∧ ip_rhint ip' = ip_rhint ip ∧ ip_rhigh ip' = ip_rhigh ip ∧
  ip_rights ip' = ip_rights ip ∧ ip_xrights ip' = ip_xrights ip ∧
  ip_nports ip' = ip_nports ip ∧ ip_port_limit ip' = ip_port_limit ip.

Lemma wait_clear_one_spec X Y σ p ip w l :
  kinv X Y σ → k_procs σ !! p = Some ip → ip_waiters ip = w :: l →
  ∃ σ' x, wait_clear_one p w σ = Ok (tt, σ') ∧ k_waiters σ !! w = Some x ∧
    unwait p ip w x l σ σ' ∧ k_ipc σ' = k_ipc σ.
Proof.
  intros K Hp Hl.
  destruct (wo_proc σ (ki_wait X Y σ K) p ip w Hp) as (x & Hx & Ep & Ho); [rewrite Hl; left|].
  unfold wait_clear_one. rewrite (bind_upd_iproc p ip), (bind_get_waiter w x) by done.
  rewrite Hl. cbn [tail]. set (σ1 := puti p (set_ip_waiters l ip) σ).
  assert (∃ σ2, st_when (w_onport x) (waiter_unlink w (w_port x)) σ1 = Ok (tt, σ2) ∧
    k_procs σ2 = k_procs σ1 ∧ k_waiters σ2 = k_waiters σ1 ∧ frame_w σ2 = frame_w σ1 ∧
    k_ipc σ2 = k_ipc σ1 ∧ (w_onport x = false → k_ports σ2 = k_ports σ) ∧
    (w_onport x = true → ∃ pt, k_ports σ !! w_port x = Some pt ∧
       k_ports σ2 = <[w_port x := set_pt_waiters (filter (λ y, y ≠ w) (pt_waiters pt)) pt]> (k_ports σ)))
    as (σ2 & E2 & A & B & C & D & F0 & F1).
  { destruct (w_onport x).
    - destruct (Ho eq_refl) as (pt & Hq & Hw & _). cbn [st_when]. unfold waiter_unlink.
      rewrite (bind_get_port (w_port x) pt) by done. rewrite decide_True by done.
      eexists. split; [done|]. split_and!; try done. eauto.
    - exists σ1. split_and!; done. }
  rewrite (bind_ok _ _ _ _ _ E2). unfold waiter_free.
  destruct (decide (w = W0 p)) as [Ew|Ew].
  - assert (k_procs σ2 !! p = Some (set_ip_waiters l ip)) as Hp2
      by by rewrite A; simpl; rewrite lookup_insert_eq.
    rewrite (upd_iproc_eq p _ _ σ2 Hp2). eexists _, x. split_and!; [done|done| |done].
    split; simpl; try done.
    + rewrite A. simpl. rewrite insert_insert_eq, decide_True by done. done.
    + intros w' _. by rewrite B.
    + intros a. by rewrite B.
  - eexists _, x. split_and!; [done|done| |done]. split; simpl; try done.
    + rewrite A. simpl. rewrite decide_False by done. done.
    + intros w' Hne. rewrite lookup_delete_ne by done. by rewrite B.
    + intros a H. rewrite B in H. destruct H as [y Hy].
      apply lookup_delete_Some in Hy as [_ Hy]. by exists y.
Qed.

Lemma wait_iter_spec (f : nat → wid → KM unit) (P : kst → Prop) p :
  (∀ X Y σ ip w l, kinv X Y σ → P σ → k_procs σ !! p = Some ip → ip_waiters ip = w :: l →
    ∃ σ' x, f p w σ = Ok (tt, σ') ∧ k_waiters σ !! w = Some x ∧
      unwait p ip w x l σ σ' ∧ k_ipc σ' = k_ipc σ ∧ P σ') →
  ∀ X Y l σ ip, kinv X Y σ → P σ → k_procs σ !! p = Some ip → ip_waiters ip = l →
  ∃ σ' ip', st_iter (f p) l σ = Ok (tt, σ') ∧ kinv X Y σ' ∧ P σ' ∧ k_ipc σ' = k_ipc σ ∧
    uwake (λ _, True) σ σ' ∧ k_procs σ' = <[p := ip']> (k_procs σ) ∧ ip_waiters ip' = [] ∧
    unlisted ip ip' ∧ ip_woken ip' = ip_woken ip ∧ k_sch σ' = k_sch σ ∧ k_portv σ' = k_portv σ ∧
    (∀ q pt', k_ports σ' !! q = Some pt' → ∃ pt, k_ports σ !! q = Some pt ∧
       pt' = set_pt_waiters (pt_waiters pt') pt).
Proof.
  intros Hf X Y l. induction l as [|w l IH]; intros σ ip K HP Hp Hl.
  { exists σ, ip. rewrite insert_id by done. split_and!; try done; [by intros q _|].
    intros q pt Hq. exists pt. split; [done|]. by destruct pt. }
  destruct (Hf X Y σ ip w l K HP Hp Hl) as (σ1 & x & E1 & Hx & U & Ei & HP1).
  pose proof (unwait_kinv K Hp Hl Hx U) as K1.
  pose proof (unwait_wake K Hp Hl Hx U) as W1.
  pose proof (uw_proc _ _ _ _ _ _ _ U) as Ep. set (ip1 := set_ip_w0used _ _) in Ep.
  destruct (IH σ1 ip1 K1 HP1) as (σ2 & ip2 & E2 & K2 & HP2 & Ei2 & W2 & Ep2 & Hw2 & Hun & Hwk & Es & Ev & Hpt);
    [by rewrite Ep, lookup_insert_eq|done|].
  pose proof (uw_rest _ _ _ _ _ _ _ U) as Hr. unfold frame_w in Hr. injection Hr as Ev1 _ _ _ Es1 _ _.
  exists σ2, ip2. split_and!; try done.
  - cbn [st_iter]. by rewrite (bind_ok _ _ _ _ _ E1).
  - congruence.
  - by eapply uwake_trans.
  - rewrite Ep2, Ep. by rewrite insert_insert_eq.
  - congruence.
  - congruence.
  - intros q pt' Hq. destruct (Hpt q pt' Hq) as (pt1 & Hq1 & E).
    destruct (unwait_port K Hp Hl Hx U q pt1 Hq1) as (pt & Hq0 & E' & _).
    exists pt. split; [done|]. rewrite E at 1. by rewrite E'.
Qed.

Lemma wait_clear_spec X Y σ p ip :
  kinv X Y σ → k_procs σ !! p = Some ip → ipcheld σ = true →
  ∃ σ' ip', wait_clear p σ = Ok (tt, σ') ∧ kinv X Y σ' ∧ k_ipc σ' = k_ipc σ ∧
    uwake (λ _, True) σ σ' ∧ k_procs σ' = <[p := ip']> (k_procs σ) ∧ ip_waiters ip' = [] ∧
    unlisted ip ip' ∧ ip_woken ip' = ip_woken ip ∧ k_sch σ' = k_sch σ ∧ k_portv σ' = k_portv σ ∧
    (∀ q pt', k_ports σ' !! q = Some pt' → ∃ pt, k_ports σ !! q = Some pt ∧
       pt' = set_pt_waiters (pt_waiters pt') pt).
Proof.
  intros K Hp Hl. unfold wait_clear. rewrite bind_assert_locked, (bind_get_iproc p ip) by done.
  destruct (wait_iter_spec wait_clear_one (λ _, True) p) with (X := X) (Y := Y) (l := ip_waiters ip)
    (σ := σ) (ip := ip) as (σ' & ip' & H); try done.
  { intros X0 Y0 σ0 ip0 w l K0 _ Hp0 Hl0.
    destruct (wait_clear_one_spec X0 Y0 σ0 p ip0 w l) as (σ' & x & ? & ? & ? & ?); [done..|].
    exists σ', x. done. }
  exists σ', ip'. naive_solver.
Qed.

(** wait_reap does the same one bucket at a time. *)
Lemma wait_reap_one_spec X Y σ p ip w l :
  kinv X Y σ → unlocked σ → k_procs σ !! p = Some ip → ip_waiters ip = w :: l →
  ∃ σ' x, wait_reap_one p w σ = Ok (tt, σ') ∧ k_waiters σ !! w = Some x ∧
    unwait p ip w x l σ σ' ∧ k_ipc σ' = k_ipc σ ∧ unlocked σ'.
Proof.
  intros K Hul Hp Hl.
  destruct (wo_proc σ (ki_wait X Y σ K) p ip w Hp) as (x & Hx & Ep & Ho); [rewrite Hl; left|].
  unfold wait_reap_one. rewrite (bind_upd_iproc p ip), (bind_get_waiter w x) by done.
  rewrite Hl. cbn [tail]. set (σ1 := puti p (set_ip_waiters l ip) σ).
  set (mid := st_when (w_onport x) _).
  assert (∃ σ2, mid σ1 = Ok (tt, σ2) ∧
    k_procs σ2 = k_procs σ1 ∧ (∀ w', w' ≠ w → k_waiters σ2 !! w' = k_waiters σ1 !! w') ∧
    (∀ a, is_Some (k_waiters σ2 !! WH a) → is_Some (k_waiters σ1 !! WH a)) ∧
    frame_w σ2 = frame_w σ1 ∧
    k_ipc σ2 = k_ipc σ1 ∧ (w_onport x = false → k_ports σ2 = k_ports σ) ∧
    (w_onport x = true → ∃ pt, k_ports σ !! w_port x = Some pt ∧
       k_ports σ2 = <[w_port x := set_pt_waiters (filter (λ y, y ≠ w) (pt_waiters pt)) pt]> (k_ports σ)))
    as (σ2 & E2 & A & B & B' & C & D & F0 & F1).
  { unfold mid. destruct (w_onport x) eqn:On; [|exists σ1; by split_and!].
    destruct (Ho eq_refl) as (pt & Hq & Hw & _). cbn [st_when].
    destruct (enter_port_any (w_port x) pt σ1 Hq) as (E & _ & Hleave); [by left|].
    rewrite (bind_ok _ _ _ _ _ E). set (l0 := entered _ _) in *.
    rewrite (bind_get_waiter w x) by done. rewrite On. cbn [st_when].
    rewrite bind_assoc. unfold waiter_unlink. rewrite bind_assoc.
    rewrite (bind_get_port (w_port x) pt) by done. rewrite decide_True by done.
    rewrite bind_put_port, bind_put_waiter. set (pt' := set_pt_waiters _ pt).
    rewrite (Hleave _ pt'); [|by simpl; rewrite lookup_insert_eq|done|done].
    eexists. split; [done|]. split_and!; try done.
    - intros w' Hne. simpl. by rewrite lookup_insert_ne.
    - intros a [y Hy]. simpl in Hy. apply lookup_insert_Some in Hy as [[<- _]|[_ Hy]].
      + exists x. done.
      + by exists y.
    - intros _. exists pt. done. }
  rewrite (bind_ok _ _ _ _ _ E2). unfold waiter_free.
  destruct (decide (w = W0 p)) as [Ew|Ew].
  - assert (k_procs σ2 !! p = Some (set_ip_waiters l ip)) as Hp2
      by by rewrite A; simpl; rewrite lookup_insert_eq.
    rewrite (upd_iproc_eq p _ _ σ2 Hp2). eexists _, x.
    split_and!; [done|done| |done|by unfold unlocked; simpl; rewrite D].
    split; simpl; try done.
    rewrite A. simpl. rewrite insert_insert_eq, decide_True by done. done.
  - eexists _, x. split_and!; [done|done| |done|by unfold unlocked; simpl; rewrite D].
    split; simpl; try done.
    + rewrite A. simpl. rewrite decide_False by done. done.
    + intros w' Hne. rewrite lookup_delete_ne by done. by rewrite B.
    + intros a [y Hy]. apply lookup_delete_Some in Hy as [_ Hy]. apply B'. by exists y.
Qed.

(** Before a proc is resumed: no wait is left, the proc can be claimed again, and
    no bucket is held. *)
Lemma wait_reap_spec X Y σ p ip :
  kinv X Y σ → k_procs σ !! p = Some ip → unlocked σ →
  ∃ σ' ip', wait_reap p σ = Ok (tt, σ') ∧ kinv X Y σ' ∧ unlocked σ' ∧
    uwake (λ _, True) σ σ' ∧ k_procs σ' !! p = Some ip' ∧ ip_waiters ip' = [] ∧
    ip_woken ip' = false ∧ unlisted ip ip' ∧ k_sch σ' = k_sch σ.
Proof.
  intros K Hp Hu. unfold wait_reap. rewrite (bind_get_iproc p ip) by done.
  destruct (wait_iter_spec wait_reap_one unlocked p) with (X := X) (Y := Y) (l := ip_waiters ip)
    (σ := σ) (ip := ip) as (σ1 & ip1 & E & K1 & U1 & Ei & W1 & Ep & Hw & Hun & _ & Es & _); try done.
  { intros X0 Y0 σ0 ip0 w l K0 U0 Hp0 Hl0. by apply (wait_reap_one_spec X0 Y0). }
  rewrite (bind_ok _ _ _ _ _ E).
  assert (k_procs σ1 !! p = Some ip1) as Hp1 by by rewrite Ep, lookup_insert_eq.
  rewrite (upd_iproc_eq p ip1 _ σ1 Hp1).
  exists (puti p (set_ip_woken false ip1) σ1), (set_ip_woken false ip1). split_and!; try done.
  - eapply kinv_puti; [exact K1|exact Hp1| | |done|done|done|done].
    + by eapply (refs_proc_frame Hp1); [apply K1|].
    + destruct (ki_proc X Y σ1 K1 p ip1 Hp1) as [[? ?] ? ? ? ?]. by split.
  - by simpl; rewrite lookup_insert_eq.
Qed.

(** * Joining a wait list *)

Definition joined (p q : nat) (send : bool) (w : wid) (pt : kport) (ip : iproc) (σ : kst) : kst :=
  set_k_waiters (<[w := mkWaiter p q send true]> (k_waiters σ))
    (puti p (set_ip_waiters (w :: ip_waiters ip) ip)
      (put q (set_pt_waiters (pt_waiters pt ++ [w]) pt) σ)).

Lemma joined_refs X Y σ p q send w pt ip :
  kinv X Y σ → k_procs σ !! p = Some ip → k_ports σ !! q = Some pt →
  refs_ok X (joined p q send w pt ip σ).
Proof.
  intros K Hp Hq. set (σ1 := put q (set_pt_waiters (pt_waiters pt ++ [w]) pt) σ).
  assert (refs_ok X σ1) as R1 by (apply (refs_frame Hq); [apply K|done|done|by intros []]).
  assert (refs_ok X (puti p (set_ip_waiters (w :: ip_waiters ip) ip) σ1)) as R2.
  { by apply (refs_proc_frame (σ := σ1) (p := p) (ip := ip) Hp). }
  eapply refs_ok_ext; [exact R2|done..].
Qed.

Lemma joined_kinv X Y σ p q send w pt ip :
  kinv X Y σ → k_procs σ !! p = Some ip → k_ports σ !! q = Some pt →
  1 <= rights_n false q ip → (∀ p' ip', k_procs σ !! p' = Some ip' → w ∉ ip_waiters ip') →
  (∀ p', w = W0 p' → p' = p ∧ ip_w0used ip = true) → (∀ a, w = WH a → (a < k_next σ)%nat) →
  kinv X Y (joined p q send w pt ip σ).
Proof.
  intros K Hp Hq Hr Hnew Hw0 Hwh. pose proof (ki_wait X Y σ K) as W.
  assert (∀ q' pt', k_ports σ !! q' = Some pt' → w ∉ pt_waiters pt') as Hnew'.
  { intros q' pt' H Hin. destruct (wo_port σ W q' pt' w H Hin) as (x & ip' & _ & _ & _ & Hi & Hw).
    by eapply Hnew. }
  split.
  - by apply (joined_refs X Y).
  - intros q' pt' H. simpl in H. apply lookup_insert_Some in H as [[<- <-]|[_ H]];
      [|by apply (ki_port X Y σ K q')].
    destruct (ki_port X Y σ K q pt Hq) as [? ? ? ? Hn]. split; try done. simpl.
    apply NoDup_app. split_and!; [done| |apply NoDup_singleton].
    intros y Hy ->%list_elem_of_singleton. by apply (Hnew' q pt).
  - intros p' ip' H. simpl in H. apply lookup_insert_Some in H as [[<- <-]|[_ H]];
      [|by apply (ki_proc X Y σ K p')].
    destruct (ki_proc X Y σ K p ip Hp) as [[? ?] ? ? ? ?]. split; try done.
    simpl. apply NoDup_cons. split; [|done]. by apply (Hnew p ip).
  - destruct (ki_chunks X Y σ K) as [H1 H2].
    assert (∀ c, owned c Y (k_ports (joined p q send w pt ip σ)) = owned c Y (k_ports σ)) as E.
    { intros c. simpl. unfold owned. by rewrite (msum_insert_Some _ _ _ _ _ Hq), Z.sub_add. }
    split; intros c; rewrite E; [apply H1|apply H2].
  - split; simpl.
    + intros q' pt' w' H Hin.
      assert (w' = w ∧ q' = q ∨ w' ≠ w ∧ ∃ pt0, k_ports σ !! q' = Some pt0 ∧ w' ∈ pt_waiters pt0)
        as [[-> ->]|(Hne & pt0 & Hq0 & Hin0)].
      { apply lookup_insert_Some in H as [[<- <-]|[Hne H]]; simpl in Hin.
        - apply elem_of_app in Hin as [Hin|Hin%list_elem_of_singleton]; [right|by left].
          split; [|eauto]. intros ->. by apply (Hnew' q pt).
        - right. split; [|eauto]. intros ->. by apply (Hnew' q' pt'). }
      { exists (mkWaiter p q send true). eexists. rewrite !lookup_insert_eq. simpl.
        split_and!; try done. simpl. left. }
      destruct (wo_port σ W q' pt0 w' Hq0 Hin0) as (x & ip' & Hx & E & Eo & Hi & Hw').
      exists x. rewrite lookup_insert_ne by done.
      destruct (decide (p = w_p x)) as [->|Hnp].
      * rewrite lookup_insert_eq. simplify_eq. eexists. split_and!; try done. simpl. by right.
      * rewrite lookup_insert_ne by done. eauto 8.
    + intros p' ip' w' H Hin.
      destruct (decide (w' = w)) as [->|Hne].
      { apply lookup_insert_Some in H as [[<- <-]|[_ H]]; [|by destruct (Hnew p' ip')].
        exists (mkWaiter p q send true). rewrite lookup_insert_eq. split_and!; try done.
        intros _. simpl. rewrite lookup_insert_eq. eexists. split_and!; [done| |done].
        simpl. apply elem_of_app. right. by apply list_elem_of_singleton. }
      assert (∃ ip0, k_procs σ !! p' = Some ip0 ∧ w' ∈ ip_waiters ip0 ∧ all_rights ip' = all_rights ip0)
        as (ip0 & Hp0 & Hin0 & Er).
      { apply lookup_insert_Some in H as [[<- <-]|[_ H]]; [|eauto].
        exists ip. split_and!; try done. simpl in Hin. by apply elem_of_cons in Hin as [|]. }
      destruct (wo_proc σ W p' ip0 w' Hp0 Hin0) as (x & Hx & E & Ho). exists x.
      rewrite lookup_insert_ne by done. split_and!; [done..|]. intros On.
      destruct (Ho On) as (pt0 & Hq0 & Hw0' & Hr0). unfold rights_n in *. rewrite Er.
      destruct (decide (q = w_port x)) as [Eq|Hnq].
      * rewrite <-Eq in *. rewrite lookup_insert_eq. simplify_eq. eexists.
        split_and!; [done| |done]. simpl. apply elem_of_app. by left.
      * rewrite lookup_insert_ne by done. eauto.
    + intros p' ip' p'' H Hin. apply lookup_insert_Some in H as [[<- <-]|[_ H]];
        [|by eapply (wo_w0 σ W)]. simpl in *. apply elem_of_cons in Hin as [E|Hin].
      * by apply Hw0.
      * by apply (wo_w0 σ W p ip).
  - destruct (ki_sched X Y σ K) as [H1 H2 H3 H4]. split; try done; simpl.
    + intros p' ip' H. apply lookup_insert_Some in H as [[<- _]|[_ H]]; [by apply (H3 p ip)|].
      by apply (H3 p' ip').
    + intros p' ip' H Hk. apply lookup_insert_Some in H as [[<- <-]|[_ H]];
        [by apply (H4 p ip)|by apply (H4 p' ip')].
  - intros q' [pt' H]. simpl in *. apply lookup_insert_Some in H as [[<- _]|[_ H]];
      apply (ki_fresh X Y σ K); by eexists.
  - intros a [x H]. simpl in *. apply lookup_insert_Some in H as [[E _]|[_ H]]; [by apply Hwh|].
    apply (ki_wfresh X Y σ K). by exists x.
  - apply (ki_max X Y σ K).
Qed.

Lemma joined_wake X Y σ p q send w pt ip :
  kinv X Y σ → k_ports σ !! q = Some pt → ¬ blocked σ p →
  (∀ p' ip', k_procs σ !! p' = Some ip' → w ∉ ip_waiters ip') →
  uwake (λ _, True) σ (joined p q send w pt ip σ).
Proof.
  intros K Hq Hnb Hnew q0 _ Hok pt' w' x Hp Hw Hx Hb. simpl in *.
  destruct (decide (w' = w)) as [->|Hne].
  { rewrite lookup_insert_eq in Hx. simplify_eq. done. }
  rewrite lookup_insert_ne in Hx by done.
  apply lookup_insert_Some in Hp as [[<- <-]|[_ Hp]]; [|by apply (Hok pt' w' x)]. simpl in *.
  apply elem_of_app in Hw as [Hw|Hw%list_elem_of_singleton]; [|done].
  by apply (Hok pt w' x).
Qed.

(** A running proc joins [q]'s list; when the heap refuses a waiter nothing but the
    allocation count has moved. *)
Lemma wait_add_spec X Y σ p q send ip pt :
  kinv X Y σ → k_procs σ !! p = Some ip → k_ports σ !! q = Some pt →
  ipcheld_one_port pt σ = true → 1 <= rights_n false q ip → ¬ blocked σ p →
  ∃ b σ', wait_add p q send σ = Ok (b, σ') ∧ kinv X Y σ' ∧ uwake (λ _, True) σ σ' ∧
    k_ipc σ' = k_ipc σ ∧ k_sch σ' = k_sch σ ∧ k_portv σ' = k_portv σ ∧
    if b then ∃ w ip', k_procs σ' = <[p := ip']> (k_procs σ) ∧
        k_ports σ' = <[q := set_pt_waiters (pt_waiters pt ++ [w]) pt]> (k_ports σ) ∧
        k_waiters σ' = <[w := mkWaiter p q send true]> (k_waiters σ) ∧
        (∀ p' ip', k_procs σ !! p' = Some ip' → w ∉ ip_waiters ip') ∧
        ip_waiters ip' = w :: ip_waiters ip ∧ unlisted ip ip' ∧ ip_woken ip' = ip_woken ip
    else σ' = failed_st σ ∧ ip_w0used ip = true ∧ k_mem σ (k_nalloc σ) = false.
Proof.
  intros K Hp Hq Hl Hr Hnb. unfold wait_add.
  rewrite (bind_assert_port q pt), (bind_get_iproc p ip) by done.
  destruct (ip_w0used ip) eqn:E0; cbn [negb].
  - rewrite bind_assoc. destruct (k_mem σ (k_nalloc σ)) eqn:Em.
    2: { rewrite (bind_ok _ _ σ None (failed_st σ)) by by rewrite malloc_eq, Em.
         rewrite bind_ret. exists false, (failed_st σ). split_and!; try done.
         - by apply kinv_failed.
         - by intros q0 _. }
    rewrite (bind_ok _ _ σ (Some (k_next σ)) (alloc_st σ)) by by rewrite malloc_eq, Em.
    rewrite bind_ret. cbn [fmap option_fmap option_map].
    set (w := WH (k_next σ)). rewrite bind_put_waiter, (bind_upd_port q pt) by done.
    rewrite (bind_upd_iproc p ip) by done.
    assert (∀ p' ip', k_procs (alloc_st σ) !! p' = Some ip' → w ∉ ip_waiters ip') as Hnew.
    { intros p' ip' H Hin. destruct (wo_proc σ (ki_wait X Y σ K) p' ip' w H Hin) as (x & Hx & _).
      pose proof (ki_wfresh X Y σ K (k_next σ) ltac:(by eexists)). lia. }
    exists true, (joined p q send w pt ip (alloc_st σ)). split_and!; try done.
    + apply joined_kinv; try done; [by apply kinv_alloc|]. intros a [= <-]. simpl. lia.
    + by apply (joined_wake X Y (alloc_st σ)); [apply kinv_alloc| | |].
    + exists w. eexists. split_and!; done.
  - rewrite bind_assoc, bind_put_iproc, bind_ret.
    set (ip1 := set_ip_w0used true ip). set (σ1 := puti p ip1 σ). set (w := W0 p).
    assert (∀ p' ip', k_procs σ !! p' = Some ip' → w ∉ ip_waiters ip') as Hnew0.
    { intros p' ip' H Hin. destruct (wo_w0 σ (ki_wait X Y σ K) p' ip' p H Hin) as [<- Ht].
      simplify_eq. congruence. }
    assert (k_procs σ1 !! p = Some ip1) as Hp1 by by simpl; rewrite lookup_insert_eq.
    assert (∀ p' ip', k_procs σ1 !! p' = Some ip' → w ∉ ip_waiters ip') as Hnew.
    { intros p' ip' H. simpl in H. apply lookup_insert_Some in H as [[<- <-]|[_ H]];
        [by apply (Hnew0 p ip)|by apply (Hnew0 p' ip')]. }
    assert (kinv X Y σ1) as K1.
    { eapply kinv_puti; [exact K|exact Hp| | |done|done|done|done].
      - by eapply (refs_proc_frame Hp); [apply K|].
      - destruct (ki_proc X Y σ K p ip Hp) as [[? ?] ? ? ? ?]. by split. }
    rewrite bind_put_waiter, (bind_upd_port q pt) by done.
    rewrite (bind_upd_iproc p ip1) by by simpl; rewrite lookup_insert_eq.
    exists true, (joined p q send w pt ip1 σ1). split_and!; try done.
    + apply joined_kinv; try done. intros p' [= <-]. done.
    + by apply (joined_wake X Y σ1).
    + exists w, (set_ip_waiters (w :: ip_waiters ip1) ip1). split_and!; try done.
      simpl. by rewrite insert_insert_eq.
Qed.

(** * Going to sleep *)

(** The condition under which [p] may sleep on what it has joined. *)
Definition may_sleep (σ : kst) (p : nat) : Prop :=
  ∀ q pt w x, k_ports σ !! q = Some pt → w ∈ pt_waiters pt → k_waiters σ !! w = Some x →
    w_p x = p → if w_send x then pt_dead pt = false else pt_queue pt = [].

Lemma proc_block_ipc_spec X Y σ p ip :
  kinv X Y σ → k_procs σ !! p = Some ip → ip_woken ip = false → ipcheld_any σ = true →
  ∃ s, proc_block_ipc p σ = Ok (tt, set_k_sch s σ) ∧ kinv X Y (set_k_sch s σ) ∧
    blocked (set_k_sch s σ) p ∧ (∀ p', p' ≠ p → blocked (set_k_sch s σ) p' → blocked σ p') ∧
    (may_sleep σ p → uwake (λ _, True) σ (set_k_sch s σ)).
Proof.
  intros K Hp Hwk Hany. destruct (ki_sched X Y σ K) as [Hwf Hh Hpr Hwo].
  destruct (Hpr p ip Hp) as [sp Hsp].
  destruct (proc_block_spec (k_sch σ) p sp Hwf Hh Hsp) as (s & E & Hwf' & Hh' & Hs & _).
  assert (∀ p', p' ≠ p → blocked (set_k_sch s σ) p' → blocked σ p') as Hoth.
  { intros p' Hne (sp' & H & Hb). simpl in H. rewrite Hs, lookup_insert_ne in H by done.
    by exists sp'. }
  exists s. unfold proc_block_ipc. rewrite bind_assert_any by done. unfold lift_s. rewrite E.
  split_and!; try done.
  - split; try apply K.
    + eapply refs_ok_ext; [apply K|done..].
    + destruct (ki_chunks X Y σ K). by split.
    + destruct (ki_wait X Y σ K). by split.
    + split; simpl; try done.
      * intros p' ip' H. rewrite Hs. apply lookup_insert_is_Some'. right. by eapply Hpr.
      * intros p' ip' H Hk Hb. destruct (decide (p' = p)) as [->|Hne]; [congruence|].
        apply (Hwo p' ip' H Hk). by apply Hoth.
  - eexists. simpl. rewrite Hs, lookup_insert_eq. split; [done|]. done.
  - intros Hms q _ Hok pt w x Hq Hw Hx Hb. simpl in *.
    destruct (decide (w_p x = p)) as [Ep|Hne]; [by apply (Hms q pt w x)|].
    apply (Hok pt w x); try done. by apply Hoth.
Qed.
