(* ===== verification/Timer.v ===== *)
(** The one-shot timers of src/src/timer.c, over the ports of Ports.v.  The table is
    [k_timers] of the kernel state; [now] is the uptime_ms reading each function
    takes (Clock.v). *)

From S2P Require Import Prelude Clock Sched Ports PortInv KInv PortWake PortRef PortOps.
From stdpp Require Import prelude list gmap strings.
From Stdlib Require Import ZArith Lia.
Open Scope Z_scope.

(** * The table *)

Definition MAXTIMERS : nat := 128.

Definition set_timer (i : nat) (t : ktimer) : KM unit :=
  st_modify (λ σ, set_k_timers (<[i:=t]> (k_timers σ)) σ).

(** One turn of reap_dead_timers. *)
Definition reap_one (i : nat) : KM unit :=
  let! σ := st_get in
  match k_timers σ !! i with
  | Some (Some q, due) =>
      let! pt := get_port q in
      st_when (pt_dead pt) (port_unref q ;;; set_timer i (None, due))
  | Some (None, _) => st_ret tt
  | None => st_fail OutOfBounds
  end.

Definition reap_dead_timers : KM unit := st_iter reap_one (seq 0 MAXTIMERS).

(** The first slot with a null port. *)
Fixpoint timer_free (l : list ktimer) : option nat :=
  match l with
  | [] => None
  | (None, _) :: _ => Some 0%nat
  | (Some _, _) :: l => S <$> timer_free l
  end.

Definition timer_set (q : nat) (now ms : Z) (slot : nat) : KM Z :=
  upd_port q (λ pt, set_pt_nrights (pt_nrights pt + 1) pt) ;;;
  set_timer slot (Some q, u64 (now + ms)) ;;;
  st_ret 0.

(** timer_arm: a full table is reaped once and looked at again. *)
Definition timer_arm (q : nat) (now ms : Z) : KM Z :=
  let! σ := st_get in
  match timer_free (k_timers σ) with
  | Some slot => timer_set q now ms slot
  | None =>
      reap_dead_timers ;;;
      let! σ := st_get in
      match timer_free (k_timers σ) with
      | Some slot => timer_set q now ms slot
      | None => st_ret (-1)
      end
  end.

(** One turn of the deadline loop; 84 is the letter T, which deserializes as true. *)
Definition expire_one (now : Z) (i : nat) : KM unit :=
  let! σ := st_get in
  match k_timers σ !! i with
  | Some (Some q, due) =>
      if due <=? now then
        let! _ := port_push q [84] [] in
        port_unref q ;;;
        set_timer i (None, due)
      else st_ret tt
  | Some (None, _) => st_ret tt
  | None => st_fail OutOfBounds
  end.

Definition expire_timers (now : Z) : KM unit :=
  ipclock_enter ;;;
  reap_dead_timers ;;;
  st_iter (expire_one now) (seq 0 MAXTIMERS) ;;;
  ipclock_leave.

(** * What a lap of the table is to do *)

(** The message a timer sends. *)
Definition tick : kmsg := mkKmsg [84] [] 1 [].

Definition dead_port (σ : kst) (q : nat) : bool :=
  match k_ports σ !! q with Some pt => pt_dead pt | None => false end.
(** A slot after reap_dead_timers, and one after the deadline loop. *)
Definition reaped (σ : kst) (t : ktimer) : ktimer :=
  match t with (Some q, due) => if dead_port σ q then (None, due) else t | _ => t end.
Definition fired (now : Z) (t : ktimer) : ktimer :=
  match t with (Some q, due) => if due <=? now then (None, due) else t | _ => t end.
(** Both. *)
Definition expired (now : Z) (σ : kst) (t : ktimer) : ktimer :=
  match t with (Some q, due) => if dead_port σ q || (due <=? now) then (None, due) else t | _ => t end.

(** The timers of [q] that are due. *)
Definition fires (now : Z) (q : nat) (t : ktimer) : bool :=
  match t with (Some x, due) => (x =? q)%nat && (due <=? now) | _ => false end.
Definition due_on (now : Z) (q : nat) (l : list ktimer) : nat := length (List.filter (fires now q) l).

(** What the timers [l] add to the queues: on a port some proc can receive on, ticks at its
    tail and nothing else, no more than it has due timers, and just as many if it is live,
    has room for them and memory does not run out. *)
Definition delivers (now : Z) (l : list ktimer) (σ σ' : kst) : Prop :=
  ∀ q pt, k_ports σ !! q = Some pt → receivable σ q → ∃ pt' k, k_ports σ' !! q = Some pt' ∧
    pt_dead pt' = pt_dead pt ∧ pt_queue pt' = pt_queue pt ++ replicate k tick ∧
    pt_qbytes pt' = pt_qbytes pt + Z.of_nat k ∧ (k <= due_on now q l)%nat ∧
    (pt_dead pt = false → (∀ n, k_mem σ n = true) → pt_qbytes pt + Z.of_nat (due_on now q l) <= MAXQUEUE →
     k = due_on now q l).

Lemma fired_reaped now σ t : fired now (reaped σ t) = expired now σ t.
Proof. destruct t as [[q|] due]; [|done]. cbn. destruct (dead_port σ q); done. Qed.

Lemma due_on_app now q l1 l2 : due_on now q (l1 ++ l2) = (due_on now q l1 + due_on now q l2)%nat.
Proof. unfold due_on. by rewrite List.filter_app, length_app. Qed.

Lemma due_on_reaped now q σ l : due_on now q (reaped σ <$> l) = if dead_port σ q then 0%nat else due_on now q l.
Proof.
  unfold due_on. induction l as [|[[x|] due] l IH]; cbn; [by case_match| |exact IH].
  destruct (Nat.eqb_spec x q) as [->|N].
  - destruct (dead_port σ q) eqn:E; cbn; [exact IH|]. rewrite Nat.eqb_refl. cbn. destruct (due <=? now); cbn; by rewrite IH.
  - destruct (dead_port σ x); cbn; [exact IH|]. rewrite (proj2 (Nat.eqb_neq x q)) by done. exact IH.
Qed.

Lemma delivers_trans now l1 l2 σ1 σ2 σ3 :
  (∀ q, receivable σ1 q → receivable σ2 q) → k_mem σ2 = k_mem σ1 →
  delivers now l1 σ1 σ2 → delivers now l2 σ2 σ3 → delivers now (l1 ++ l2) σ1 σ3.
Proof.
  intros Hr Hm A B q pt Hq Hrq. destruct (A q pt Hq Hrq) as (p2 & k1 & H2 & D2 & Q2 & B2 & L2 & E2).
  destruct (B q p2 H2 (Hr q Hrq)) as (p3 & k2 & H3 & D3 & Q3 & B3 & L3 & E3).
  exists p3, (k1 + k2)%nat. rewrite due_on_app. split_and!; [done|congruence| |lia|lia|].
  - by rewrite Q3, Q2, replicate_add, (assoc_L (++)).
  - intros Hd Hmm Hroom. rewrite Hm in E3. rewrite E2 in * by (done || lia). rewrite E3; [done|congruence|done|lia].
Qed.

Lemma queues_kept_delivers now σ σ' : queues_kept σ σ' ↔ delivers now [] σ σ'.
Proof.
  split; intros H q pt Hq Hr.
  - destruct (H q pt Hq Hr) as (pt' & Hq' & Q & B & D). exists pt', 0%nat. rewrite app_nil_r. split_and!; try done. lia.
  - destruct (H q pt Hq Hr) as (pt' & k & Hq' & D & Q & B & L & _). cbn in L. assert (k = 0%nat) as -> by lia.
    exists pt'. rewrite app_nil_r in Q. split_and!; try done. lia.
Qed.

Lemma queues_kept_delivers1 now t σ σ' : (∀ q, fires now q t = false) → queues_kept σ σ' → delivers now [t] σ σ'.
Proof.
  intros Hf H q pt Hq Hr. apply (queues_kept_delivers now) in H. unfold due_on. cbn. rewrite Hf. by apply H.
Qed.

(** * port_unref does not read the timer table *)

Definition tmap {A} (l : list ktimer) (r : result (A * kst)) : result (A * kst) :=
  match r with Ok (a, σ) => Ok (a, set_k_timers l σ) | Err e => Err e end.
Definition indep {A} (m : KM A) : Prop := ∀ l σ, m (set_k_timers l σ) = tmap l (m σ).

Lemma indep_ret {A} (a : A) : indep (st_ret a).
Proof. done. Qed.

Lemma indep_bind {A B} (m : KM A) (k : A → KM B) :
  indep m → (∀ a, indep (k a)) → indep (st_bind m k).
Proof.
  intros Hm Hk l σ. unfold st_bind. rewrite Hm. destruct (m σ) as [[a σ']|e]; [|done].
  simpl. apply Hk.
Qed.

Lemma indep_modify f : (∀ l σ, f (set_k_timers l σ) = set_k_timers l (f σ)) → indep (st_modify f).
Proof. intros H l σ. unfold st_modify. by rewrite H. Qed.

Lemma indep_when b m : indep m → indep (st_when b m).
Proof. by destruct b. Qed.

Lemma indep_iter {A} (f : A → KM unit) l : (∀ a, indep (f a)) → indep (st_iter f l).
Proof.
  intros Hf. induction l as [|a l IH]; [apply indep_ret|]. simpl. by apply indep_bind.
Qed.

Lemma indep_get_bind {B} (k : kst → KM B) :
  (∀ σ, indep (k σ)) → (∀ l σ, k (set_k_timers l σ) = k σ) → indep (st_bind st_get k).
Proof. intros Hk Hr l σ. rewrite !bind_get, Hr. apply Hk. Qed.

Lemma indep_get_port q : indep (get_port q).
Proof. intros l σ. unfold get_port. simpl. by destruct (k_ports σ !! q). Qed.
Lemma indep_put_port q pt : indep (put_port q pt).
Proof. by apply indep_modify. Qed.
Lemma indep_upd_port q f : indep (upd_port q f).
Proof. apply indep_bind; [apply indep_get_port|]. intros. apply indep_put_port. Qed.
Lemma indep_upd_iproc p f : indep (upd_iproc p f).
Proof.
  apply indep_bind; [|intros; by apply indep_modify].
  intros l σ. unfold get_iproc. simpl. by destruct (k_procs σ !! p).
Qed.
Lemma indep_lift {A} (m : SM A) : indep (lift_s m).
Proof. intros l σ. unfold lift_s. simpl. by destruct (m (k_sch σ)) as [[]|]. Qed.
Lemma indep_get_waiter w : indep (get_waiter w).
Proof. intros l σ. unfold get_waiter. simpl. by destruct (k_waiters σ !! w). Qed.
Lemma indep_test (f : kst → bool) e :
  (∀ l σ, f (set_k_timers l σ) = f σ) →
  indep (λ σ, if f σ then Ok (tt, σ) else Err e).
Proof. intros H l σ. rewrite H. by destruct (f σ). Qed.
Lemma indep_chunk_free c : indep (chunk_free c).
Proof. intros l σ. unfold chunk_free. simpl. by case_decide. Qed.

Create HintDb indep.
#[export] Hint Resolve indep_ret indep_bind indep_when indep_iter indep_get_port indep_put_port
  indep_upd_port indep_upd_iproc indep_lift indep_get_waiter indep_chunk_free : indep.

Lemma indep_wake_one send q w : indep (wake_one send q w).
Proof.
  unfold wake_one, status_of, wake_claim, waiter_unlink, put_waiter, make_ready_ipc.
  apply indep_bind; [apply indep_get_waiter|]. intros x. case_match; [auto with indep|].
  apply indep_bind; [apply indep_bind; auto with indep|]. intros st. case_match; [auto with indep|].
  apply indep_bind.
  { apply indep_bind.
    - intros l σ. unfold get_iproc. simpl. by destruct (k_procs σ !! _).
    - intros ip. case_match; repeat (apply indep_bind; [by apply indep_modify|intros]);
        auto with indep. }
  intros won. case_match; [auto with indep|].
  apply indep_bind.
  { apply indep_bind; [auto with indep|]. intros pt.
    destruct (decide (w ∈ pt_waiters pt)); [apply indep_put_port|by intros l σ]. }
  intros _. apply indep_bind; [by apply indep_modify|]. intros _.
  apply indep_bind; [by apply (indep_test ipcheld_any)|auto with indep].
Qed.

Lemma indep_wake send q : indep (wake_waiters send q).
Proof.
  apply indep_bind.
  - apply indep_bind; [auto with indep|]. intros pt. by apply (indep_test (ipcheld_one_port pt)).
  - intros _. apply indep_bind; [auto with indep|]. intros pt. apply indep_iter, indep_wake_one.
Qed.

Lemma indep_flush U q : (∀ q, indep (U q)) → indep (port_flush_with U q).
Proof.
  intros HU. apply indep_bind; [auto with indep|]. intros pt. apply indep_bind; [auto with indep|].
  intros _. apply indep_iter. intros m. apply indep_bind.
  - unfold release_inflight_with. destruct (m_refs m); [auto with indep|].
    apply indep_bind; [by apply (indep_test ipcheld)|]. intros _. apply indep_iter. intros ref.
    apply indep_get_bind; [|done]. intros σ. case_match; [|auto with indep].
    apply indep_bind; [auto with indep|intros; apply HU].
  - intros _. apply indep_iter. intros [[c|] n]; simpl; auto with indep.
Qed.

Lemma indep_unref n : ∀ q, indep (port_unref_fuel n q).
Proof.
  induction n as [|n IH]; intros q; [done|]. cbn [port_unref_fuel]. unfold port_unref_body.
  apply indep_bind; [by apply (indep_test ipcheld)|]. intros _.
  apply indep_bind; [auto with indep|]. intros _. apply indep_bind; [auto with indep|]. intros pt.
  case_match.
  - apply indep_bind; [by apply indep_flush|]. intros _.
    apply indep_bind; [auto with indep|]. intros pt'. by apply indep_modify.
  - apply indep_bind.
    { apply indep_when, indep_bind; [auto with indep|]. intros _. by apply indep_flush. }
    intros _. apply indep_bind; [by apply indep_modify|]. intros _.
    apply indep_bind; [apply indep_wake|]. intros _. apply indep_wake.
Qed.

Lemma port_unref_timers q l σ : port_unref q (set_k_timers l σ) = tmap l (port_unref q σ).
Proof. apply (indep_unref (S (queued σ))). Qed.

(** * The invariant *)

(** A slot is left alone or freed. *)
Definition slot_step (t t' : option ktimer) : Prop :=
  t' = t ∨ ∃ q due, t = Some (Some q, due) ∧ t' = Some (None, due).

(** What reaping and expiring do to the rest of the kernel. *)
Record tstep (rk : nat → nat) (X : list (nat * bool)) (Y : msgbufs) (σ σ' : kst) : Prop := mkTstep {
  ts_kinv : kinv X Y σ';
  ts_ranked : ranked rk σ';
  ts_ipc : k_ipc σ' = k_ipc σ;
  ts_mem : k_mem σ' = k_mem σ;
  ts_slots : ∀ i, slot_step (k_timers σ !! i) (k_timers σ' !! i);
  ts_len : length (k_timers σ') = length (k_timers σ);
  ts_wake : uwake (λ _, True) σ σ';
  ts_blocked : ∀ p, blocked σ' p → blocked σ p;
  ts_proc : ∀ p ip, k_procs σ !! p = Some ip → ∃ w, k_procs σ' !! p = Some (set_ip_woken w ip)
}.

Lemma tstep_refl rk X Y σ : kinv X Y σ → ranked rk σ → tstep rk X Y σ σ.
Proof. intros K R. split; try done; [by left|by intros q _ H|].
  intros p ip H. exists (ip_woken ip). by destruct ip. Qed.

Lemma tstep_trans rk X Y σ1 σ2 σ3 : tstep rk X Y σ1 σ2 → tstep rk X Y σ2 σ3 → tstep rk X Y σ1 σ3.
Proof.
  intros [A1 A2 A3 A4 A5 A6 A7 A8 A9] [B1 B2 B3 B4 B5 B6 B7 B8 B9]. split; try done; try congruence.
  - intros i. destruct (A5 i) as [Ea|(q & d & Ea & Ea')], (B5 i) as [Eb|(q' & d' & Eb & Eb')].
    + left. congruence.
    + right. exists q', d'. split; congruence.
    + right. exists q, d. split; congruence.
    + congruence.
  - intros q Hq H. by apply B7, A7.
  - auto.
  - intros p ip H. destruct (A9 p ip H) as [w1 H1]. destruct (B9 _ _ H1) as [w2 H2].
    exists w2. rewrite H2. by destruct ip.
Qed.

Lemma uframe_timer_put rk b l σ σ' :
  uframe rk b (set_k_timers l σ) σ' → k_ipc σ' = k_ipc σ ∧ k_mem σ' = k_mem σ ∧ k_timers σ' = l.
Proof. intros F. pose proof (uf_base _ _ _ _ F) as E. unfold base in E. injection E. by intros. Qed.

Lemma kinv_timers X X' Y l σ :
  kinv X Y σ → refs_ok X' (set_k_timers l σ) → kinv X' Y (set_k_timers l σ).
Proof.
  intros K R. split; [done|apply K|apply K| | | |apply K|apply K|apply K].
  - by destruct (ki_chunks _ _ _ K).
  - by destruct (ki_wait _ _ _ K).
  - by eapply sched_ok_ext; [apply (ki_sched X Y σ K)|..].
Qed.

Lemma ipcheld_ipc σ σ' : k_ipc σ' = k_ipc σ → ipcheld σ = true → ipcheld σ' = true.
Proof. intros E. unfold ipcheld, ipcheld_one, depth. by rewrite E. Qed.

(** A reference dropped from a port that keeps others and a receiver: the queue
    stays. *)
Lemma port_unref_kept X Y q pt σ :
  kinv ((pt_idx pt, false) :: X) Y σ → k_ports σ !! q = Some pt → ipcheld σ = true →
  2 <= pt_nrights pt → 1 <= pt_nrecv pt →
  ∃ σ' l, port_unref q σ = Ok (tt, σ') ∧
    k_ports σ' !! q = Some (set_pt_waiters l (set_pt_nrights (pt_nrights pt - 1) pt)).
Proof.
  intros K Hq Hl Hn Hr. unfold port_unref. cbn [port_unref_fuel]. unfold port_unref_body.
  rewrite bind_assert_locked, (bind_upd_port q pt) by done.
  set (pt1 := set_pt_nrights (pt_nrights pt - 1) pt). set (σ1 := put q pt1 σ).
  assert (k_ports σ1 !! q = Some pt1) as Hq1 by by simpl; rewrite lookup_insert_eq.
  rewrite (bind_get_port q pt1) by done.
  assert (kinv X Y σ1) as K1.
  { eapply kinv_put; [exact K|exact Hq|by apply (refs_drop Hq); [apply K|..]| |done..].
    by destruct (ki_port _ _ _ K q pt Hq). }
  destruct (Z.leb_spec (pt_nrights pt1) 0); [simpl in *; lia|].
  rewrite bind_when_false by (simpl; by destruct (Z.eqb_spec (pt_nrecv pt) 0); [lia|]).
  rewrite bind_modify. set (σ2 := set_k_hangup_gen _ σ1).
  assert (kinv X Y σ2) as K2 by (eapply kinv_ext; [exact K1|done..]).
  destruct (wake_waiters_spec X Y σ2 false q pt1 K2 Hq1) as (σ3 & E3 & K3 & F3 & _);
    [by apply ipcheld_port|].
  destruct (wfr_self q _ _ F3 pt1 Hq1) as (l3 & Hq3 & _).
  destruct (wake_waiters_spec X Y σ3 true q _ K3 Hq3) as (σ4 & E4 & K4 & F4 & _).
  { apply ipcheld_port. eapply ipcheld_ipc; [|exact Hl]. by rewrite (core_ipc _ _ (wfr_core _ _ _ F3)). }
  destruct (wfr_self q _ _ F4 _ Hq3) as (l4 & Hq4 & _).
  exists σ4, l4. unfold wake_receivers, wake_senders. rewrite (bind_ok _ _ _ _ _ E3).
  split; [done|]. rewrite Hq4. by destruct pt1.
Qed.

(** A timer's port that somebody can receive on has two references at least. *)
Lemma timer_port_rights X Y σ i q due pt :
  kinv X Y σ → k_timers σ !! i = Some (Some q, due) → k_ports σ !! q = Some pt →
  1 <= pt_nrecv pt → 2 <= pt_nrights pt.
Proof.
  intros K Hi Hq Hr. pose proof (nrecv_pinned _ _ _ _ (ki_refs _ _ _ K) Hq) as H. cbn [pinned] in H.
  pose proof (timers_n_elem q due (k_timers σ) (list_elem_of_lookup_2 _ _ _ Hi)).
  pose proof (krefs_n_nonneg q (k_krefs σ)). lia.
Qed.

(** No port's dead mark changes. *)
Definition same_dead (σ σ' : kst) : Prop :=
  ∀ q pt', k_ports σ' !! q = Some pt' → ∃ pt, k_ports σ !! q = Some pt ∧ pt_dead pt' = pt_dead pt.

Lemma unref_fate_dead q pt σ' pt' :
  unref_fate q pt σ' → k_ports σ' !! q = Some pt' → pt_dead pt = true → pt_dead pt' = pt_dead pt.
Proof.
  unfold unref_fate. intros H Hq Hd. destruct (pt_nrights pt <=? 1); [by destruct H; simplify_eq|].
  destruct H as (l & _ & _ & H). rewrite Hd, andb_false_r in H. by simplify_eq.
Qed.

(** Freeing a slot gives the table's reference back. *)
Lemma slot_unref rk X Y σ i q due :
  kinv X Y σ → ranked rk σ → ipcheld σ = true → k_timers σ !! i = Some (Some q, due) →
  ∃ σ', (port_unref q ;;; set_timer i (None, due)) σ = Ok (tt, σ') ∧ tstep rk X Y σ σ' ∧
    k_timers σ' = <[i := (None, due)]> (k_timers σ) ∧ queues_kept σ σ' ∧
    (∀ pt, k_ports σ !! q = Some pt → 1 <= pt_nrecv pt →
      ∃ pt', k_ports σ' !! q = Some pt' ∧ pt_queue pt' = pt_queue pt) ∧
    (∀ pt, k_ports σ !! q = Some pt → pt_dead pt = true → same_dead σ σ').
Proof.
  intros K R Hl Hi. set (l := <[i := (None, due)]> (k_timers σ)).
  destruct (ro_timer X σ (ki_refs _ _ _ K) q due) as [pt Hq].
  { by eapply list_elem_of_lookup_2. }
  assert (kinv ((pt_idx pt, false) :: X) Y (set_k_timers l σ)) as K0.
  { pose proof (ki_refs _ _ _ K) as KR. eapply kinv_timers; [exact K|].
    eapply refs_timer; [exact KR|exact Hi| |done|].
    - intros f q' pt' Hq'. rewrite refs_n_cons. unfold timer1. simpl.
      destruct (decide (q' = q)) as [->|Hne].
      + simplify_eq. rewrite ref1_self, Nat.eqb_refl. destruct f; simpl; lia.
      + rewrite ref1_other; [|intros E; apply Hne].
        * destruct f; [lia|]. destruct (Nat.eqb_spec q q'); [congruence|]. simpl. lia.
        * pose proof (proj2 (ro_portv X σ KR (pt_idx pt') q') (ex_intro _ pt' (conj Hq' eq_refl))) as H1.
          pose proof (proj2 (ro_portv X σ KR (pt_idx pt) q) (ex_intro _ pt (conj Hq eq_refl))) as H2.
          congruence.
    - intros ref [->|Hin]%elem_of_cons; [|by apply (ro_hand X σ KR)].
      unfold named. cbn [fst]. exists q. apply (ro_portv X σ KR). by exists pt. }
  destruct (port_unref_spec rk X Y q pt (set_k_timers l σ)) as (σ' & E & K' & F & W); try done.
  destruct (uframe_timer_put _ _ _ _ _ F) as (Ei & Em & Et).
  exists σ'. split_and!; [|split; try done|done|exact (uf_kept _ _ _ _ F)| |].
  - assert (port_unref q σ = Ok (tt, set_k_timers (k_timers σ) σ')) as E1.
    { replace σ with (set_k_timers (k_timers σ) (set_k_timers l σ)) at 1 by by destruct σ.
      by rewrite port_unref_timers, E. }
    rewrite (bind_ok _ _ _ _ _ E1). unfold set_timer, st_modify. simpl.
    change (<[i:=(None, due)]> (k_timers σ)) with l. rewrite <-Et. by destruct σ'.
  - eapply (ranked_uframe rk (S (rk q)) (set_k_timers l σ)); done.
  - intros j. rewrite Et. unfold l. destruct (decide (j = i)) as [->|Hne].
    + right. exists q, due. split; [done|]. apply list_lookup_insert_eq.
      by apply lookup_lt_Some in Hi.
    + left. by rewrite list_lookup_insert_ne.
  - rewrite Et. apply length_insert.
  - apply (uf_blocked _ _ _ _ F).
  - apply (uf_proc _ _ _ _ F).
  - intros pt0 Hq0 Hr. rewrite Hq in Hq0. injection Hq0 as <-. pose proof (timer_port_rights _ _ _ _ _ _ _ K Hi Hq Hr).
    destruct (port_unref_kept X Y q pt (set_k_timers l σ)) as (σ2 & l2 & E2 & H2); try done.
    rewrite E in E2. injection E2 as <-. eexists. by split; [exact H2|].
  - intros pt0 Hq0 Hd q' pt' Hq'. rewrite Hq in Hq0. injection Hq0 as <-.
    destruct (port_unref_quiet rk X Y q pt (set_k_timers l σ) σ' K0) as [H1 H2]; try done.
    { by apply (po_dead _ (ki_port _ _ _ K q pt Hq)). }
    destruct (decide (q' = q)) as [->|N]; [exists pt; split; [done|by eapply unref_fate_dead]|].
    rewrite H2 in Hq' by done. by exists pt'.
Qed.

Lemma receivable_tstep rk X Y σ σ' q : tstep rk X Y σ σ' → receivable σ q → receivable σ' q.
Proof. intros T. apply same_procs_receivable. exact (ts_proc _ _ _ _ _ T). Qed.

Lemma reap_one_spec rk X Y σ i t :
  kinv X Y σ → ranked rk σ → ipcheld σ = true → k_timers σ !! i = Some t →
  ∃ σ', reap_one i σ = Ok (tt, σ') ∧ tstep rk X Y σ σ' ∧ k_timers σ' = <[i := reaped σ t]> (k_timers σ) ∧
    queues_kept σ σ' ∧ same_dead σ σ'.
Proof.
  intros K R Hl Ht. unfold reap_one. rewrite bind_get, Ht. destruct t as [o due].
  assert (tstep rk X Y σ σ ∧ k_timers σ = <[i := (o, due)]> (k_timers σ) ∧ queues_kept σ σ ∧ same_dead σ σ) as Same.
  { split_and!; [by apply tstep_refl|by rewrite list_insert_id|by intros q pt H _; exists pt|by intros q pt H; exists pt]. }
  destruct o as [q|]; [|by exists σ].
  destruct (ro_timer X σ (ki_refs _ _ _ K) q due) as [pt Hq].
  { by eapply list_elem_of_lookup_2. }
  unfold reaped, dead_port. rewrite Hq, (bind_get_port q pt) by done. destruct (pt_dead pt) eqn:Hd; [|by exists σ].
  destruct (slot_unref rk X Y σ i q due) as (σ' & E & T & L & Kp & _ & Sd); try done.
  exists σ'. split_and!; try done. by eapply Sd.
Qed.

(** Slots before those still to do have been done. *)
Lemma reap_slots rk X Y suf : ∀ pre σ,
  kinv X Y σ → ranked rk σ → ipcheld σ = true → k_timers σ = pre ++ suf →
  ∃ σ', st_iter reap_one (seq (length pre) (length suf)) σ = Ok (tt, σ') ∧ tstep rk X Y σ σ' ∧
    k_timers σ' = pre ++ (reaped σ <$> suf) ∧ queues_kept σ σ'.
Proof.
  induction suf as [|t suf IH]; intros pre σ K R Hl Et.
  { exists σ. split_and!; [done|by apply tstep_refl|by rewrite Et|]. by intros q pt H _; exists pt. }
  destruct (reap_one_spec rk X Y σ (length pre) t K R Hl) as (σ1 & E1 & T1 & L1 & Kp1 & Sd).
  { rewrite Et. by apply list_lookup_middle. }
  assert (k_timers σ1 = (pre ++ [reaped σ t]) ++ suf) as L1'.
  { by rewrite L1, Et, insert_app_r_alt, Nat.sub_diag, <-(assoc_L (++)). }
  destruct (IH (pre ++ [reaped σ t]) σ1) as (σ2 & E2 & T2 & L2 & Kp2); [apply T1|apply T1| |exact L1'|].
  { eapply ipcheld_ipc; [apply T1|done]. }
  rewrite length_app in E2. cbn [length] in E2. rewrite Nat.add_1_r in E2.
  exists σ2. cbn [length seq st_iter]. rewrite (bind_ok _ _ _ _ _ E1).
  split_and!; [done|by eapply tstep_trans| |].
  2:{ eapply queues_kept_comp; [|done..]. intros q. by eapply receivable_tstep. }
  rewrite L2, <-(assoc_L (++)). cbn. do 2 f_equal. apply list_fmap_ext. intros j [[q|] due] Hj; [|done].
  destruct (ro_timer X σ1 (ki_refs _ _ _ (ts_kinv _ _ _ _ _ T1)) q due) as [pt1 Hq1].
  { rewrite L1'. apply elem_of_app. right. by eapply list_elem_of_lookup_2. }
  destruct (Sd q pt1 Hq1) as (pt & Hq & D). unfold reaped, dead_port. by rewrite Hq1, Hq, D.
Qed.

Lemma reap_full rk X Y σ :
  kinv X Y σ → ranked rk σ → ipcheld σ = true → length (k_timers σ) = MAXTIMERS →
  ∃ σ', reap_dead_timers σ = Ok (tt, σ') ∧ tstep rk X Y σ σ' ∧
    k_timers σ' = reaped σ <$> k_timers σ ∧ queues_kept σ σ'.
Proof. intros K R Hl Hn. unfold reap_dead_timers. rewrite <-Hn. by apply (reap_slots rk X Y (k_timers σ) []). Qed.

Lemma reap_spec rk X Y σ :
  kinv X Y σ → ranked rk σ → ipcheld σ = true → length (k_timers σ) = MAXTIMERS →
  ∃ σ', reap_dead_timers σ = Ok (tt, σ') ∧ tstep rk X Y σ σ'.
Proof. intros K R Hl Hn. destruct (reap_full rk X Y σ K R Hl Hn) as (σ' & E & T & _). by exists σ'. Qed.

Lemma same_woken σ σ' : k_procs σ' = k_procs σ → ∀ p ip, k_procs σ !! p = Some ip →
  ∃ w, k_procs σ' !! p = Some (set_ip_woken w ip).
Proof. intros E p ip H. rewrite E. exists (ip_woken ip). by destruct ip. Qed.

(** port_push of bytes alone. *)
Lemma port_push_bytes X Y σ q pt data :
  kinv X Y σ → k_ports σ !! q = Some pt → ipcheld σ = true →
  ∃ rc σ', port_push q data [] σ = Ok (rc, σ') ∧ kinv X Y σ' ∧ k_ipc σ' = k_ipc σ ∧
    k_timers σ' = k_timers σ ∧ k_mem σ' = k_mem σ ∧ k_portv σ' = k_portv σ ∧
    uwake (λ _, True) σ σ' ∧ (∀ p, blocked σ' p → blocked σ p) ∧
    (∀ p ip, k_procs σ !! p = Some ip → ∃ w, k_procs σ' !! p = Some (set_ip_woken w ip)) ∧
    (∀ q', q' ≠ q → k_ports σ' !! q' = k_ports σ !! q') ∧
    ∃ pt', k_ports σ' !! q = Some pt' ∧ pt_nrights pt' = pt_nrights pt ∧
      pt_nrecv pt' = pt_nrecv pt ∧ pt_dead pt' = pt_dead pt ∧ pt_idx pt' = pt_idx pt ∧
      (pt_queue pt' = pt_queue pt ∧
         (pt_dead pt = true ∨ MAXQUEUE < pt_qbytes pt + Z.of_nat (length data) ∨
          k_mem σ (k_nalloc σ) && k_mem σ (S (k_nalloc σ)) = false) ∨
       pt_queue pt' = pt_queue pt ++ [mkKmsg data [] (msg_cost data []) []]).
Proof.
  intros K Hq Hl. unfold port_push. cbn [fmap list_fmap]. rewrite bind_assert_locked by done.
  assert (∀ σ, uwake (λ _, True) σ (alloc_st σ) ∧ uwake (λ _, True) σ (failed_st σ)) as Hwk
    by (by split; intros q0 _ H).
  destruct (k_mem σ (k_nalloc σ)) eqn:Em.
  2:{ rewrite (bind_ok _ _ σ None (failed_st σ)) by by rewrite malloc_eq, Em.
      exists (-1), (failed_st σ).
      split_and!; try done; [by apply kinv_failed|apply Hwk|by apply same_woken|].
      exists pt. split_and!; try done. left. split; [done|]. right. by right. }
  rewrite (bind_ok _ _ σ (Some (k_next σ)) (alloc_st σ)) by by rewrite malloc_eq, Em.
  destruct (port_push_owned_spec X Y (alloc_st σ) q pt data [] []) as (σ' & E & Wk & Ei & Hb & H);
    [by apply kinv_alloc|done|by apply ipcheld_port|by intros b ?%elem_of_nil|].
  set (rc := push_rc data [] pt _) in *. rewrite (bind_ok _ _ _ _ _ E).
  exists (if rc =? -3 then 0 else rc), σ'. split; [by destruct (negb (rc =? 0))|].
  assert (pt_qbytes pt + msg_cost data [] = pt_qbytes pt + Z.of_nat (length data)) as Ec
    by (unfold msg_cost, msgbufs_bytes, zsum; simpl; lia).
  destruct (Z.eqb_spec rc 0) as [Erc|Erc].
  - destruct H as (K' & _ & F). pose proof (wfr_core _ _ _ F) as C. unfold core in C. injection C as.
    destruct (wfr_self q _ _ F (pushed data [] [] pt)) as (l & Hq' & _).
    { simpl. by rewrite lookup_insert_eq. }
    destruct (pushed_frame data [] [] pt) as (Pi & _ & _ & Pn & Pr & Pd & _ & Pq).
    split_and!; try done; [by apply (wfr_proc _ _ _ F)|..].
    + intros q' Hne. rewrite (wfr_port _ _ _ F q' Hne). simpl. by rewrite lookup_insert_ne.
    + eexists. split; [exact Hq'|]. simpl. split_and!; try done. by right.
  - destruct H as (K' & Ep & F). unfold frame_p in F. injection F as.
    split_and!; try done; [by apply same_woken|..].
    + intros q' Hne. rewrite Ep. simpl. by rewrite lookup_insert_ne.
    + exists (refused rc pt). rewrite Ep. simpl. rewrite lookup_insert_eq.
      unfold refused. split; [done|]. do 4 (split; [by repeat case_match|]).
      left. split; [by repeat case_match|]. unfold rc, push_rc in Erc. rewrite Ec in Erc.
      destruct (pt_dead pt); [by left|]. right. simpl in Erc.
      destruct (Z.ltb_spec MAXQUEUE (pt_qbytes pt + Z.of_nat (length data))); [by left|right].
      by destruct (k_mem σ (S (k_nalloc σ))).
Qed.

(** One push and its queue, as [delivers] has it. *)
Lemma push_delivers now X Y σ σ1 q pt pt1 due :
  kinv X Y σ → kinv X Y σ1 → due <= now → k_ports σ !! q = Some pt → k_ports σ1 !! q = Some pt1 →
  (∀ q', q' ≠ q → k_ports σ1 !! q' = k_ports σ !! q') → pt_dead pt1 = pt_dead pt →
  (pt_queue pt1 = pt_queue pt ∧ (pt_dead pt = true ∨ MAXQUEUE < pt_qbytes pt + 1 ∨
     k_mem σ (k_nalloc σ) && k_mem σ (S (k_nalloc σ)) = false) ∨ pt_queue pt1 = pt_queue pt ++ [tick]) →
  delivers now [(Some q, due)] σ σ1.
Proof.
  intros K K1 Hd Hq Hq1 Hne Ed Q q0 pt0 H0 _. unfold due_on. cbn. rewrite (proj2 (Z.leb_le _ _) Hd), andb_true_r.
  destruct (Nat.eqb_spec q q0) as [<-|N]; cbn [length].
  2:{ exists pt0, 0%nat. rewrite Hne, app_nil_r by done. split_and!; try done. cbn. lia. }
  simplify_eq. pose proof (po_qbytes _ (ki_port _ _ _ K q pt Hq)) as B.
  pose proof (po_qbytes _ (ki_port _ _ _ K1 q pt1 Hq1)) as B1. destruct Q as [[Q W]|Q]; rewrite Q in B1.
  - exists pt1, 0%nat. rewrite app_nil_r. split_and!; [done..|cbn; lia|lia|]. intros D M Hroom.
    destruct W as [W|[W|W]]; [congruence|cbn in Hroom; lia|by rewrite !M in W].
  - exists pt1, 1%nat. rewrite zsum_app in B1. split_and!; [done..| |lia|done]. change (zsum m_qcost [tick]) with 1 in B1. lia.
Qed.

Lemma expire_one_spec rk X Y σ now i t :
  kinv X Y σ → ranked rk σ → ipcheld σ = true → k_timers σ !! i = Some t →
  ∃ σ', expire_one now i σ = Ok (tt, σ') ∧ tstep rk X Y σ σ' ∧ k_timers σ' = <[i := fired now t]> (k_timers σ) ∧
    delivers now [t] σ σ'.
Proof.
  intros K R Hl Ht. unfold expire_one. rewrite bind_get, Ht. destruct t as [o due].
  assert (queues_kept σ σ) as K0 by (by intros q pt H _; exists pt).
  destruct o as [q|].
  2:{ exists σ. split_and!; [done|by apply tstep_refl|by rewrite list_insert_id|]. by apply queues_kept_delivers1. }
  unfold fired. destruct (Z.leb_spec due now) as [Hdue|Hdue].
  2:{ exists σ. split_and!; [done|by apply tstep_refl|by rewrite list_insert_id|].
      apply queues_kept_delivers1; [|done]. intros q0. cbn. by rewrite (proj2 (Z.leb_gt _ _) Hdue), andb_false_r. }
  destruct (ro_timer X σ (ki_refs _ _ _ K) q due) as [pt Hq].
  { by eapply list_elem_of_lookup_2. }
  destruct (port_push_bytes X Y σ q pt [84] K Hq Hl)
    as (rc & σ1 & E1 & K1 & I1 & T1 & M1 & V1 & W1 & B1 & A1 & P1 & pt1 & Hq1 & _ & _ & D1 & _ & Q1).
  rewrite (bind_ok _ _ _ _ _ E1).
  assert (ranked rk σ1) as R1.
  { intros q0 p0 m ref q' H0 Hm Hr Hv. rewrite V1 in Hv. destruct (decide (q0 = q)) as [->|Hne].
    - simplify_eq. destruct Q1 as [[E _]|E]; rewrite E in Hm.
      + by eapply (R q pt).
      + apply elem_of_app in Hm as [Hm|Hm%list_elem_of_singleton]; [by eapply (R q pt)|].
        subst m. by apply elem_of_nil in Hr.
    - rewrite P1 in H0 by done. by eapply (R q0 p0). }
  assert (k_timers σ1 !! i = Some (Some q, due)) as Hi1 by by rewrite T1.
  destruct (slot_unref rk X Y σ1 i q due K1 R1) as (σ2 & E2 & S2 & H2 & Kp & _); [|done|].
  { by eapply ipcheld_ipc. }
  assert (tstep rk X Y σ σ1) as S1.
  { split; try done; [intros j; left|]; by rewrite T1. }
  exists σ2. split_and!; [done|by eapply tstep_trans|by rewrite H2, T1|].
  apply (delivers_trans now [_] [] σ σ1 σ2); [intros q0; by eapply receivable_tstep|done| |by apply queues_kept_delivers].
  by apply (push_delivers now X Y σ σ1 q pt pt1 due).
Qed.

Lemma expire_slots rk X Y now suf : ∀ pre σ,
  kinv X Y σ → ranked rk σ → ipcheld σ = true → k_timers σ = pre ++ suf →
  ∃ σ', st_iter (expire_one now) (seq (length pre) (length suf)) σ = Ok (tt, σ') ∧ tstep rk X Y σ σ' ∧
    k_timers σ' = pre ++ (fired now <$> suf) ∧ delivers now suf σ σ'.
Proof.
  induction suf as [|t suf IH]; intros pre σ K R Hl Et.
  { exists σ. split_and!; [done|by apply tstep_refl|by rewrite Et|]. apply queues_kept_delivers. by intros q pt H _; exists pt. }
  destruct (expire_one_spec rk X Y σ now (length pre) t K R Hl) as (σ1 & E1 & T1 & L1 & D1).
  { rewrite Et. by apply list_lookup_middle. }
  destruct (IH (pre ++ [fired now t]) σ1) as (σ2 & E2 & T2 & L2 & D2); [apply T1|apply T1| | |].
  { eapply ipcheld_ipc; [apply T1|done]. }
  { by rewrite L1, Et, insert_app_r_alt, Nat.sub_diag, <-(assoc_L (++)). }
  rewrite length_app in E2. cbn [length] in E2. rewrite Nat.add_1_r in E2.
  exists σ2. cbn [length seq st_iter]. rewrite (bind_ok _ _ _ _ _ E1).
  split_and!; [done|by eapply tstep_trans|by rewrite L2, <-(assoc_L (++))|].
  apply (delivers_trans now [t] suf σ σ1 σ2); [intros q; by eapply receivable_tstep|apply T1|done..].
Qed.

Lemma tstep_ipc rk X Y l l' σ σ' :
  tstep rk X Y (with_ipc l σ) σ' → k_ipc σ = l' → tstep rk X Y σ (with_ipc l' σ').
Proof. intros [] Hl. split; try done. by apply kinv_ipc. Qed.

Lemma expire_timers_spec rk X Y σ now :
  kinv X Y σ → ranked rk σ → unlocked σ → length (k_timers σ) = MAXTIMERS →
  ∃ σ', expire_timers now σ = Ok (tt, σ') ∧ tstep rk X Y σ σ' ∧
    k_timers σ' = expired now σ <$> k_timers σ ∧ delivers now (k_timers σ) σ σ'.
Proof.
  intros K R Hu Hn. unfold expire_timers. rewrite (bind_ok _ _ _ _ _ (ipclock_enter_eq σ Hu)).
  set (σ0 := with_ipc _ σ).
  destruct (reap_full rk X Y σ0) as (σ1 & E1 & T1 & L1 & Kp); [by apply kinv_ipc|done|done|done|].
  rewrite (bind_ok _ _ _ _ _ E1). pose proof (ts_len _ _ _ _ _ T1) as Ln.
  destruct (expire_slots rk X Y now (k_timers σ1) [] σ1) as (σ2 & E2 & T2 & L2 & D2); [apply T1|apply T1| |done|].
  { eapply ipcheld_ipc; [apply T1|done]. }
  cbn [length] in E2. rewrite Ln in E2. change (length (k_timers σ0)) with (length (k_timers σ)) in E2. rewrite Hn in E2.
  rewrite (bind_ok _ _ _ _ _ E2). pose proof (tstep_trans _ _ _ _ _ _ T1 T2) as T.
  exists (with_ipc (replicate NIPCLOCK 0%nat) σ2). split_and!.
  - apply ipclock_leave_eq. unfold wide. by rewrite (ts_ipc _ _ _ _ _ T).
  - by eapply tstep_ipc.
  - cbn. rewrite L2, L1, <-list_fmap_compose. apply list_fmap_ext. intros i t _. exact (fired_reaped now σ0 t).
  - apply (queues_kept_delivers now) in Kp.
    pose proof (delivers_trans now [] _ σ0 σ1 σ2 (λ q, receivable_tstep _ _ _ _ _ q T1) (ts_mem _ _ _ _ _ T1) Kp D2) as D.
    intros q pt Hq Hr. destruct (D q pt Hq Hr) as (pt' & k & H1 & H2 & H3 & H4 & H5 & H6). exists pt', k.
    cbn [app] in H5, H6. rewrite L1, due_on_reaped in H5, H6. unfold dead_port in H5, H6.
    change (k_ports σ0) with (k_ports σ) in H5, H6. change (k_timers σ0) with (k_timers σ) in H5, H6. rewrite Hq in H5, H6.
    split_and!; try done; [destruct (pt_dead pt); lia|]. intros Hd. rewrite Hd in H6. by apply H6.
Qed.

(** A due timer on a live port delivers. *)
Lemma expire_one_fires rk X Y σ now i q due pt :
  kinv X Y σ → ranked rk σ → ipcheld σ = true → k_timers σ !! i = Some (Some q, due) →
  due <= now → k_ports σ !! q = Some pt → pt_dead pt = false → 1 <= pt_nrecv pt →
  pt_qbytes pt + 1 <= MAXQUEUE → k_mem σ (k_nalloc σ) = true → k_mem σ (S (k_nalloc σ)) = true →
  ∃ σ' pt', expire_one now i σ = Ok (tt, σ') ∧ k_timers σ' !! i = Some (None, due) ∧
    k_ports σ' !! q = Some pt' ∧ pt_queue pt' = pt_queue pt ++ [mkKmsg [84] [] 1 []].
Proof.
  intros K R Hl Hi Hdue Hq Hd Hr Hroom M0 M1. unfold expire_one. rewrite bind_get, Hi.
  destruct (Z.leb_spec due now); [|lia].
  destruct (port_push_bytes X Y σ q pt [84] K Hq Hl)
    as (rc & σ1 & E1 & K1 & I1 & T1 & _ & V1 & _ & _ & _ & P1 & pt1 & Hq1 & _ & Er1 & _ & _ & Q1).
  rewrite (bind_ok _ _ _ _ _ E1).
  destruct Q1 as [[_ [H1|[H1|H1]]]|Q1]; [congruence|simpl in H1; lia|by rewrite M0, M1 in H1|].
  assert (ranked rk σ1) as R1.
  { intros q0 p0 m ref q' H0 Hm Hrf Hv. rewrite V1 in Hv. destruct (decide (q0 = q)) as [->|Hne].
    - simplify_eq. rewrite Q1 in Hm.
      apply elem_of_app in Hm as [Hm|Hm%list_elem_of_singleton]; [by eapply (R q pt)|].
      subst m. by apply elem_of_nil in Hrf.
    - rewrite P1 in H0 by done. by eapply (R q0 p0). }
  assert (k_timers σ1 !! i = Some (Some q, due)) as Hi1 by by rewrite T1.
  destruct (slot_unref rk X Y σ1 i q due K1 R1) as (σ2 & E2 & _ & H2 & _ & H3 & _); [|done|].
  { by eapply ipcheld_ipc. }
  destruct (H3 pt1 Hq1) as (pt' & Hq' & Q'); [lia|].
  exists σ2, pt'. split_and!; [done| |done|by rewrite Q', Q1].
  rewrite H2. apply list_lookup_insert_eq. by apply lookup_lt_Some in Hi1.
Qed.

(** * Arming *)

Lemma timer_free_spec l i : timer_free l = Some i → ∃ d, l !! i = Some (None, d).
Proof.
  revert i. induction l as [|[[q|] d] l IH]; intros i H; simpl in H; [done| |].
  - destruct (timer_free l) as [j|] eqn:E; simpl in H; [|done]. injection H as <-.
    by apply IH.
  - injection H as <-. by exists d.
Qed.

Lemma timer_free_none l i t : timer_free l = None → l !! i = Some t → is_Some (fst t).
Proof.
  revert i. induction l as [|[[q|] d] l IH]; intros [|i] H Hi; simpl in *; try done.
  - by injection Hi as <-.
  - destruct (timer_free l); [done|]. by eapply IH.
Qed.

Definition armed (q : nat) (pt : kport) (slot : nat) (due : Z) (σ : kst) : kst :=
  set_k_timers (<[slot := (Some q, due)]> (k_timers σ))
    (put q (set_pt_nrights (pt_nrights pt + 1) pt) σ).

Lemma kinv_armed X Y σ q pt slot due :
  kinv X Y σ → k_ports σ !! q = Some pt → timer_free (k_timers σ) = Some slot →
  kinv X Y (armed q pt slot due σ).
Proof.
  intros K Hq Hf. destruct (timer_free_spec _ _ Hf) as [d Hs].
  assert (kinv ((pt_idx pt, false) :: X) Y (put q (set_pt_nrights (pt_nrights pt + 1) pt) σ)) as K1.
  { eapply kinv_put; [exact K|exact Hq| | |done..].
    - apply (refs_take Hq); [apply K|done..|simpl; lia].
    - by destruct (ki_port _ _ _ K q pt Hq). }
  pose proof (ki_refs _ _ _ K1) as R1.
  eapply kinv_timers; [exact K1|].
  apply (refs_timer _ X _ slot (None, d) (Some q, due) R1 Hs).
  - intros f q' pt' Hq'. rewrite refs_n_cons. unfold timer1. cbn [fst].
    destruct (decide (q' = q)) as [->|Hne].
    + simpl in Hq'. rewrite lookup_insert_eq in Hq'. injection Hq' as <-. cbn [pt_idx set_pt_nrights].
      rewrite ref1_self, Nat.eqb_refl. destruct f; simpl; lia.
    + rewrite ref1_other.
      * destruct f; [lia|]. destruct (Nat.eqb_spec q q'); [congruence|]. simpl. lia.
      * intros E. apply Hne.
        pose proof (proj2 (ro_portv _ _ R1 (pt_idx pt') q') (ex_intro _ pt' (conj Hq' eq_refl))) as H1.
        assert (k_portv σ !! pt_idx pt = Some q) as H2
          by (apply (ro_portv _ _ (ki_refs _ _ _ K)); by exists pt).
        simpl in H1. congruence.
  - intros q' E. injection E as <-. unfold live. simpl. by rewrite lookup_insert_eq.
  - intros ref Hin. apply (ro_hand _ _ R1). by right.
Qed.

Lemma ranked_armed rk q pt slot due σ :
  k_ports σ !! q = Some pt → ranked rk σ → ranked rk (armed q pt slot due σ).
Proof.
  intros Hq R q0 p0 m ref q' H0 Hm Hr Hv. simpl in *. apply lookup_insert_Some in H0 as [[<- <-]|[_ H0]].
  - by eapply (R q pt).
  - by eapply (R q0 p0).
Qed.

(** timer_arm takes a slot or, with the table full of timers still to fire, says so. *)
Lemma timer_arm_spec rk X Y σ q pt now ms :
  kinv X Y σ → ranked rk σ → ipcheld σ = true → length (k_timers σ) = MAXTIMERS →
  k_ports σ !! q = Some pt →
  (∃ p ip r, k_procs σ !! p = Some ip ∧ r ∈ all_rights ip ∧ r_used r = true ∧ r_port r = q) →
  ∃ rc σ1 σ', timer_arm q now ms σ = Ok (rc, σ') ∧ tstep rk X Y σ σ1 ∧
    kinv X Y σ' ∧ ranked rk σ' ∧
    ((rc = -1 ∧ σ' = σ1 ∧ ∀ i t, k_timers σ' !! i = Some t → is_Some (fst t)) ∨
     (rc = 0 ∧ ∃ pt1 slot, k_ports σ1 !! q = Some pt1 ∧ timer_free (k_timers σ1) = Some slot ∧
        σ' = armed q pt1 slot (u64 (now + ms)) σ1)).
Proof.
  intros K R Hl Hn Hq (p & ip & r & Hp & Hr & Hu & Hrq). unfold timer_arm. rewrite bind_get.
  assert (∀ σ pt slot, k_ports σ !! q = Some pt →
    timer_set q now ms slot σ = Ok (0, armed q pt slot (u64 (now + ms)) σ)) as Hset.
  { intros τ p0 s H. unfold timer_set. by rewrite (bind_upd_port q p0). }
  destruct (timer_free (k_timers σ)) as [slot|] eqn:Hf.
  { exists 0, σ, (armed q pt slot (u64 (now + ms)) σ).
    split_and!; [by apply Hset|by apply tstep_refl|by apply kinv_armed|by apply ranked_armed|].
    right. split; [done|]. by exists pt, slot. }
  destruct (reap_spec rk X Y σ K R Hl Hn) as (σ1 & E1 & T1). rewrite (bind_ok _ _ _ _ _ E1), bind_get.
  destruct (timer_free (k_timers σ1)) as [slot|] eqn:Hf1.
  - assert (∃ pt1, k_ports σ1 !! q = Some pt1) as [pt1 Hq1].
    { destruct (ts_proc _ _ _ _ _ T1 p ip Hp) as [w Hp1].
      rewrite <-Hrq. by eapply (ro_held _ _ (ki_refs _ _ _ (ts_kinv _ _ _ _ _ T1)) p). }
    exists 0, σ1, (armed q pt1 slot (u64 (now + ms)) σ1).
    split_and!; [by apply Hset|done| | |].
    + apply kinv_armed; [apply T1|done..].
    + apply ranked_armed; [done|apply T1].
    + right. split; [done|]. by exists pt1, slot.
  - exists (-1), σ1, σ1. split_and!; [done|done|apply T1|apply T1|]. left. split_and!; try done.
    intros i t Hi. by eapply timer_free_none.
Qed.
