(* ===== verification/Serialize.v ===== *)
(** The serializer: src/src/serialize.c, with the transfer half of src/src/buf.c
    and the accounting it charges (src/src/proc.c).

    Lua itself is outside the sources.  A lua value is [lv], as the lua api shows
    it to the serializer: a table is its pairs in lua_next order, a number its 64
    bits, a los.buf userdata its record.  lua_settable is the parameter [settable].
    lua_checkstack may fail and is drawn from the same sequence as malloc; lua's own
    allocations are taken to succeed.  An error raised with luaL_error unwinds
    everything up to the caller of the C function, so the computations here are
    [LM], the kernel monad with [Raise] as a second way to return. *)

From S2P Require Import Prelude Clock Sched Ports.
From stdpp Require Import prelude list gmap strings.
From Stdlib Require Import ZArith Lia Ascii.
Open Scope Z_scope.

(** * Values *)

#[local] Set Warnings "-register-all".

(** A los.buf userdata: struct luabuf, its storage [ub_chunk] null once given
    away, and [ub_handle] the userdata's own identity. *)
Record ubuf : Type := mkUbuf {
  ub_handle : nat;
  ub_chunk : option nat;
  ub_bytes : list Z;
  ub_ro : bool;
  ub_owned : bool;
  ub_views : Z
}.

Inductive lv : Type :=
| LNil
| LBool (b : bool)
| LInt (z : Z)
| LNum (bits : Z)
| LStr (s : list Z)
| LTab (kv : list (lv * lv))
| LUser (u : ubuf)
| LOther.

(** * Raising *)

Inductive lout (A : Type) : Type :=
| Val (a : A)
| Raise (msg : string).
Arguments Val {A} _.
Arguments Raise {A} _.

Definition LM (A : Type) : Type := KM (lout A).
Definition lret {A} (a : A) : LM A := st_ret (Val a).
Definition lraise {A} (msg : string) : LM A := st_ret (Raise msg).
Definition lbind {A B} (m : LM A) (k : A → LM B) : LM B :=
  st_bind m (λ r, match r with Val a => k a | Raise e => st_ret (Raise e) end).
(** A step of the kernel that cannot raise. *)
Definition lk {A} (m : KM A) : LM A := st_bind m (λ a, st_ret (Val a)).

Notation "'do!' x ':=' m 'in' k" := (lbind m (λ x, k))
  (at level 10, x pattern, m at level 100, k at level 200) : nlos_scope.

(** * Buffers that travel *)

Definition bytes_of (s : string) : list Z :=
  List.map (λ c, Z.of_nat (nat_of_ascii c)) (String.list_ascii_of_string s).

Definition size_t (σ : kst) (z : Z) : Z := wrap (k_szbits σ) z.

Definition get_acct (p : nat) : KM acct := λ σ,
  match k_acct σ !! p with Some a => Ok (a, σ) | None => Err NullDeref end.
Definition put_acct (p : nat) (a : acct) : KM unit :=
  st_modify (λ σ, set_k_acct (<[p:=a]> (k_acct σ)) σ).

Definition kbuf_charge (p : nat) (n : Z) : KM bool :=
  let! a := get_acct p in
  let! σ := st_get in
  if negb (mem_limit a =? 0) && (mem_limit a <? size_t σ (mem_used a + n))
  then st_ret false
  else
    let a := set_mem_used (size_t σ (mem_used a + n)) a in
    let a := if mem_peak a <? mem_used a then set_mem_peak (mem_used a) a else a in
    let a := set_buf_used (size_t σ (buf_used a + n)) a in
    let a := set_gc_owed (size_t σ (gc_owed a + n)) a in
    put_acct p a ;;; st_ret true.

Definition kbuf_uncharge (p : nat) (n : Z) : KM unit :=
  let! a := get_acct p in
  let! σ := st_get in
  put_acct p (set_buf_used (size_t σ (buf_used a - n))
               (set_mem_used (size_t σ (mem_used a - n)) a)).

(** The bytes of a string or a buffer; null for anything else. *)
Definition luabuf_bytes (v : lv) : LM (option (list Z)) :=
  match v with
  | LStr s => lret (Some s)
  | LUser u => match ub_chunk u with
               | None => lraise "buffer has been given away"
               | Some _ => lret (Some (ub_bytes u))
               end
  | _ => lret None
  end.

(** luabuf_borrow: the storage, its length and the handle to detach it by. *)
Definition luabuf_borrow (v : lv) : option (nat * Z * nat) :=
  match v with
  | LUser u =>
      match ub_chunk u with
      | Some c => if negb (ub_owned u) || ub_ro u || negb (ub_views u =? 0) then None
                  else Some (c, Z.of_nat (length (ub_bytes u)), ub_handle u)
      | None => None
      end
  | _ => None
  end.

(** luabuf_detach, by the proc running the send; the userdata's own storage is then
    null, which is the caller's business. *)
Definition luabuf_detach (p : nat) (n : Z) : KM unit := kbuf_uncharge p n.

Definition luabuf_give (p c : nat) (n : Z) : KM (option ubuf) :=
  let! ok := kbuf_charge p n in
  if negb ok then st_ret None else
  let! σ := st_get in
  st_modify (set_k_next (S (k_next σ))) ;;;
  st_ret (Some (mkUbuf (k_next σ) (Some c) (default [] (k_bytes σ !! c)) false true 0)).

(** * The writer *)

(** struct wbuf; [len] is the length of [w_data], [nrefs] of [w_refs], [bufs.n] of
    [w_bufs]. *)
Record wbuf : Type := mkWbuf {
  w_data : list Z;
  w_cap : Z;
  w_refs : list (nat * bool);
  w_bufs : msgbufs;
  w_own : list nat
}.

Definition wbuf0 : wbuf := mkWbuf [] 0 [] [] [].
Definition w_len (w : wbuf) : Z := Z.of_nat (length (w_data w)).
Definition set_w_data (d : list Z) (w : wbuf) : wbuf :=
  mkWbuf d (w_cap w) (w_refs w) (w_bufs w) (w_own w).
Definition set_w_cap (c : Z) (w : wbuf) : wbuf :=
  mkWbuf (w_data w) c (w_refs w) (w_bufs w) (w_own w).

(** while (ncap < need) ncap *= 2; the 17 doublings from 1 to 2^17 pass any [need]
    the MAXMSG test lets through. *)
Fixpoint grow_cap (fuel : nat) (ncap need : Z) : Z :=
  match fuel with
  | O => ncap
  | S fuel => if ncap <? need then grow_cap fuel (ncap * 2) need else ncap
  end.

(** memcpy(w->p + w->len, src, n); w->len += n: a copy past the capacity is a fault. *)
Definition wcopy (w : wbuf) (src : list Z) : KM (Z * wbuf) :=
  if w_cap w <? w_len w + Z.of_nat (length src) then st_fail OutOfBounds
  else st_ret (0, set_w_data (w_data w ++ src) w).

Definition wput (w : wbuf) (src : list Z) : KM (Z * wbuf) :=
  let! σ := st_get in
  let need := size_t σ (w_len w + Z.of_nat (length src)) in
  if w_cap w <? need then
    if MAXMSG <? need then st_ret (-1, w) else
    let ncap := if w_cap w =? 0 then 256 else w_cap w * 2 in
    let ncap := grow_cap 17 ncap need in
    let ncap := if MAXMSG <? ncap then MAXMSG else ncap in
    let! np := malloc in
    match np with
    | None => st_ret (-1, w)
    | Some _ => wcopy (set_w_cap ncap w) src
    end
  else wcopy w src.

Definition wbyte (w : wbuf) (c : Z) : KM (Z * wbuf) := wput w [u8 c].

(** A write that follows only if the one before did not fail. *)
Definition wthen (r : Z * wbuf) (k : wbuf → KM (Z * wbuf)) : KM (Z * wbuf) :=
  if fst r =? 0 then k (snd r) else st_ret r.

Definition MAXDEPTH : Z := 16.

Definition tag_nil : Z := 78.     (* N *)
Definition tag_true : Z := 84.    (* T *)
Definition tag_false : Z := 70.   (* F *)
Definition tag_int : Z := 73.     (* I *)
Definition tag_num : Z := 68.     (* D *)
Definition tag_str : Z := 83.     (* S *)
Definition tag_tab : Z := 66.     (* B *)
Definition tag_right : Z := 82.   (* R *)
Definition tag_buf : Z := 77.     (* M *)

Fixpoint list_eqb (l l' : list Z) : bool :=
  match l, l' with
  | [], [] => true
  | a :: l, b :: l' => (a =? b) && list_eqb l l'
  | _, _ => false
  end.

(** lua_rawget of a string key: nil when the table has none. *)
Fixpoint rawget_str (kv : list (lv * lv)) (key : list Z) : lv :=
  match kv with
  | [] => LNil
  | (LStr k, v) :: kv => if list_eqb k key then v else rawget_str kv key
  | _ :: kv => rawget_str kv key
  end.

Definition lua_checkstack : KM bool :=
  let! a := malloc in st_ret (match a with Some _ => true | None => false end).

Definition write_str (w : wbuf) (s : list Z) : KM (Z * wbuf) :=
  let! r := wbyte w tag_str in
  let! r := wthen r (λ w, wput w (le_bytes 4 (u32 (Z.of_nat (length s))))) in
  wthen r (λ w, wput w s).

(** The __right arm: the index and flag are written, then the reference taken. *)
Definition write_right (sender : nat) (v : lv) (w : wbuf) : KM (Z * wbuf) :=
  match v with
  | LInt h =>
      let! ip := get_iproc sender in
      match right_get ip h with
      | None => st_ret (-1, w)
      | Some (_, r) =>
          if MAXMSGRIGHTS <=? Z.of_nat (length (w_refs w)) then st_ret (-1, w) else
          let! pt := get_port (r_port r) in
          let pi := pt_idx pt in
          let! x := wbyte w tag_right in
          let! x := wthen x (λ w, wput w (le_bytes 2 (Z.of_nat pi))) in
          let! x := wthen x (λ w, wbyte w (if r_recv r then 1 else 0)) in
          wthen x (λ w,
            upd_port (r_port r) (λ pt, set_pt_nrights (pt_nrights pt + 1) pt) ;;;
            st_when (r_recv r)
              (upd_port (r_port r) (λ pt, set_pt_nrecv (pt_nrecv pt + 1) pt)) ;;;
            st_ret (0, mkWbuf (w_data w) (w_cap w) (w_refs w ++ [(pi, r_recv r)])
                         (w_bufs w) (w_own w)))
      end
  | _ => st_ret (-1, w)
  end.

(** The __buf arm: storage travels once. *)
Definition write_buf (v : lv) (w : wbuf) : KM (Z * wbuf) :=
  match luabuf_borrow v with
  | None => st_ret (-1, w)
  | Some (c, n, handle) =>
      if MAXMSGBUFS <=? Z.of_nat (length (w_bufs w)) then st_ret (-1, w) else
      if existsb (Nat.eqb handle) (w_own w) then st_ret (-1, w) else
      let i := Z.of_nat (length (w_bufs w)) in
      let! x := wbyte w tag_buf in
      let! x := wthen x (λ w, wbyte w i) in
      wthen x (λ w, st_ret (0, mkWbuf (w_data w) (w_cap w) (w_refs w)
                                 (w_bufs w ++ [(Some c, n)]) (w_own w ++ [handle])))
  end.

(** memcpy(w->p + countpos + 1, &n, sizeof n). *)
Definition patch_count (pos : nat) (n : Z) (w : wbuf) : wbuf :=
  set_w_data (take (S pos) (w_data w) ++ le_bytes 4 n ++ drop (S pos + 4) (w_data w)) w.

(** The lua_next loop of the table arm, [ser] being serialize one level down: the
    key, then the value, then the pair counted.  [pos] is countpos. *)
Fixpoint serialize_pairs (ser : lv → wbuf → LM (Z * wbuf)) (pos : nat)
    (kv : list (lv * lv)) (cnt : Z) (w : wbuf) : LM (Z * wbuf) :=
  match kv with
  | [] => lret (0, patch_count pos (u32 cnt) w)
  | (k, v) :: kv =>
      do! r := ser k w in
      if negb (fst r =? 0) then lret (-1, snd r) else
      do! r := ser v (snd r) in
      if negb (fst r =? 0) then lret (-1, snd r) else
      serialize_pairs ser pos kv (cnt + 1) (snd r)
  end.

(** serialize at depth MAXDEPTH + 1 - n, so that no [n] is left exactly where the
    code's depth test fails. *)
Fixpoint serialize (n : nat) (sender : nat) (v : lv) (w : wbuf) : LM (Z * wbuf) :=
  match n with
  | O => lret (-1, w)
  | S n =>
      do! ok := lk lua_checkstack in
      if negb ok then lret (-1, w) else
      match v with
      | LNil => lk (wbyte w tag_nil)
      | LBool b => lk (wbyte w (if b then tag_true else tag_false))
      | LInt z => lk (let! r := wbyte w tag_int in wthen r (λ w, wput w (le_bytes 8 z)))
      | LNum z => lk (let! r := wbyte w tag_num in wthen r (λ w, wput w (le_bytes 8 z)))
      | LStr s => lk (write_str w s)
      | LTab kv =>
          match rawget_str kv (bytes_of "__right") with
          | LNil =>
              match rawget_str kv (bytes_of "__buf") with
              | LNil =>
                  let pos := length (w_data w) in
                  do! r := lk (let! r := wbyte w tag_tab in
                               wthen r (λ w, wput w (le_bytes 4 0))) in
                  if negb (fst r =? 0) then lret (-1, snd r) else
                  serialize_pairs (serialize n sender) pos kv 0 (snd r)
              | b => lk (write_buf b w)
              end
          | h => lk (write_right sender h w)
          end
      | LUser _ =>
          do! s := luabuf_bytes v in
          match s with
          | None => lret (-1, w)
          | Some s => lk (write_str w s)
          end
      | LOther => lret (-1, w)
      end
  end.

(** The call at depth 0. *)
Definition serialize_top : nat → lv → wbuf → LM (Z * wbuf) := serialize (Z.to_nat (MAXDEPTH + 1)).

(** * The reader *)

(** What a walk threads: the offset, the buffers not yet taken, and the handles
    minted so far, oldest first. *)
Record dst : Type := mkDst {
  d_off : Z;
  d_bufs : msgbufs;
  d_mt : list Z
}.

Section reader.
Context (settable : list (lv * lv) → lv → lv → option (list (lv * lv))).
Context (p : list Z).

Definition m_len : Z := Z.of_nat (length p).

(** memcpy from [p + off]: a read past the end is a fault. *)
Definition rd (off n : Z) : KM (list Z) := λ σ,
  if (0 <=? off) && (off + n <=? m_len)
  then Ok (take (Z.to_nat n) (drop (Z.to_nat off) p), σ) else Err OutOfBounds.

Definition dfail (rc : Z) (d : dst) : LM ((Z + lv) * dst) := lret (inl rc, d).
Definition dval (v : lv) (d : dst) : LM ((Z + lv) * dst) := lret (inr v, d).

(** [*off += k], in size_t. *)
Definition adv (k : Z) (d : dst) : KM dst :=
  let! σ := st_get in
  st_ret (mkDst (size_t σ (d_off d + k)) (d_bufs d) (d_mt d)).

(** [*off + k > len]. *)
Definition past (k : Z) (d : dst) : KM bool :=
  let! σ := st_get in st_ret (m_len <? size_t σ (d_off d + k)).

(** A [k]-byte little-endian field, or null when it does not fit. *)
Definition rd_le (k : Z) (d : dst) : KM (option (Z * dst)) :=
  let! bad := past k d in
  if bad then st_ret None else
  let! b := rd (d_off d) k in
  let! d := adv k d in
  st_ret (Some (le_val b, d)).

Definition read_str (d : dst) : LM ((Z + lv) * dst) :=
  do! x := lk (rd_le 4 d) in
  match x with
  | None => dfail (-1) d
  | Some (n, d) =>
      do! bad := lk (past n d) in
      if bad then dfail (-1) d else
      do! s := lk (rd (d_off d) n) in
      do! d := lk (adv n d) in
      dval (LStr s) d
  end.

(** The 'M' arm: taking a buffer clears its slot, so what remains at dispose time is
    what nobody received. *)
Definition read_buf (receiver : nat) (d : dst) : LM ((Z + lv) * dst) :=
  if m_len <=? d_off d then dfail (-1) d else
  do! b := lk (rd (d_off d) 1) in
  do! d := lk (adv 1 d) in
  let i := Z.to_nat (le_val b) in
  match d_bufs d !! i with
  | Some (Some c, n) =>
      do! u := lk (luabuf_give receiver c n) in
      match u with
      | None => do! _ := lk (upd_iproc receiver (set_ip_bufdenied true)) in dfail (-2) d
      | Some u => dval (LUser u) (mkDst (d_off d) (<[i := (None, n)]> (d_bufs d)) (d_mt d))
      end
  | _ => dfail (-1) d
  end.

(** The 'R' arm. *)
Definition read_right (receiver : nat) (d : dst) : LM ((Z + lv) * dst) :=
  do! bad := lk (past 3 d) in
  if bad then dfail (-1) d else
  do! x := lk (rd_le 2 d) in
  match x with
  | None => dfail (-1) d
  | Some (pi, d) =>
      do! b := lk (rd (d_off d) 1) in
      do! d := lk (adv 1 d) in
      let recv := negb (le_val b =? 0) in
      do! σ := lk st_get in
      if Z.of_nat (k_maxports σ) <=? pi then dfail (-1) d else
      match k_portv σ !! Z.to_nat pi with
      | None => dfail (-1) d
      | Some q =>
          if MAXMSGRIGHTS <=? Z.of_nat (length (d_mt d)) then dfail (-1) d else
          do! h := lk (right_new receiver q recv) in
          if h <? 0 then dfail (-2) d else
          dval (LTab [(LStr (bytes_of "__right"), LInt h)])
               (mkDst (d_off d) (d_bufs d) (d_mt d ++ [h]))
      end
  end.

(** The loop of the 'B' arm, [k] pairs from the end. *)
Fixpoint deserialize_pairs (des : dst → LM ((Z + lv) * dst)) (k : nat)
    (tab : list (lv * lv)) (d : dst) : LM ((Z + lv) * dst) :=
  match k with
  | O => dval (LTab tab) d
  | S k =>
      do! r := des d in
      match r with
      | (inl rc, d) => dfail rc d
      | (inr key, d) =>
          do! r := des d in
          match r with
          | (inl rc, d) => dfail rc d
          | (inr v, d) =>
              match settable tab key v with
              | None => lraise "index is nil"
              | Some tab => deserialize_pairs des k tab d
              end
          end
      end
  end.

(** The switch on the tag, [des] being deserialize one level down. *)
Definition deserialize_tag (des : dst → LM ((Z + lv) * dst)) (receiver : nat) (tag : Z)
    (d : dst) : LM ((Z + lv) * dst) :=
  if tag =? tag_nil then dval LNil d
  else if tag =? tag_true then dval (LBool true) d
  else if tag =? tag_false then dval (LBool false) d
  else if tag =? tag_int then
    do! x := lk (rd_le 8 d) in
    match x with None => dfail (-1) d | Some (z, d) => dval (LInt (sint 64 z)) d end
  else if tag =? tag_num then
    do! x := lk (rd_le 8 d) in
    match x with None => dfail (-1) d | Some (z, d) => dval (LNum z) d end
  else if tag =? tag_str then read_str d
  else if tag =? tag_tab then
    do! x := lk (rd_le 4 d) in
    match x with
    | None => dfail (-1) d
    | Some (cnt, d) =>
        if (m_len - d_off d) / 2 <? cnt then dfail (-1) d else
        deserialize_pairs des (Z.to_nat cnt) [] d
    end
  else if tag =? tag_buf then read_buf receiver d
  else if tag =? tag_right then read_right receiver d
  else dfail (-1) d.

(** deserialize at depth MAXDEPTH + 1 - n. *)
Fixpoint deserialize (n : nat) (receiver : nat) (d : dst) : LM ((Z + lv) * dst) :=
  match n with
  | O => dfail (-1) d
  | S n =>
      do! ok := lk lua_checkstack in
      if negb ok then dfail (-2) d else
      if m_len <=? d_off d then dfail (-1) d else
      do! b := lk (rd (d_off d) 1) in
      do! d := lk (adv 1 d) in
      deserialize_tag (deserialize n receiver) receiver (le_val b) d
  end.

Definition deserialize_top : nat → dst → LM ((Z + lv) * dst) :=
  deserialize (Z.to_nat (MAXDEPTH + 1)).

End reader.

(** * Giving back what a failed walk minted *)

Definition minted_one (p : nat) (h : Z) : KM unit :=
  let! ip := get_iproc p in
  match right_slot ip h with
  | Some r => st_when (r_used r) (right_drop p h r)
  | None => st_ret tt
  end ;;;
  upd_iproc p (λ ip, if h <? ip_rhint ip then set_ip_rhint h ip else ip).

Definition minted_undo (p : nat) (mt : list Z) : KM unit :=
  match mt with
  | [] => st_ret tt
  | _ => ipclock_enter ;;; st_iter (minted_one p) mt ;;; ipclock_leave
  end.
