(* ===== verification/SerializeOk.v ===== *)
(** The serializer's theorems: the writer stays inside its buffer and within
    MAXMSG, what it writes is the wire format [enc], and the reader gives back the
    value that was written. *)

From S2P Require Import Prelude Clock Sched Ports PortInv KInv PortWake PortRef PortOps Serialize.
From stdpp Require Import prelude list gmap strings.
From Stdlib Require Import ZArith Lia.
Open Scope Z_scope.

(** * Steps that only allocate *)

Definition amove (σ σ' : kst) : Prop :=
  ∃ a n, σ' = set_k_next n (set_k_nalloc a σ) ∧ (k_next σ <= n)%nat.

Lemma amove_refl σ : amove σ σ.
Proof. exists (k_nalloc σ), (k_next σ). by destruct σ. Qed.

Lemma amove_trans σ1 σ2 σ3 : amove σ1 σ2 → amove σ2 σ3 → amove σ1 σ3.
Proof.
  intros (a & n & -> & Hn) (a' & n' & -> & Hn'). simpl in *. exists a', n'.
  split; [done|lia].
Qed.

Lemma amove_kinv X Y σ σ' : amove σ σ' → kinv X Y σ → kinv X Y σ'.
Proof. intros (a & n & -> & Hn) K. eapply kinv_ext; [exact K|done..]. Qed.

Lemma amove_alloc σ : amove σ (alloc_st σ) ∧ amove σ (failed_st σ).
Proof.
  split.
  - exists (S (k_nalloc σ)), (S (k_next σ)). split; [done|lia].
  - exists (S (k_nalloc σ)), (k_next σ). split; [by destruct σ|done].
Qed.

#[export] Hint Resolve amove_refl : nlos.

(** Every allocation succeeds. *)
Definition plenty (σ : kst) : Prop := ∀ i, k_mem σ i = true.

Lemma amove_plenty σ σ' : amove σ σ' → plenty σ → plenty σ'.
Proof. intros (a & n & -> & _) H i. apply H. Qed.

Lemma malloc_plenty σ : plenty σ → malloc σ = Ok (Some (k_next σ), alloc_st σ).
Proof. intros H. by rewrite malloc_eq, H. Qed.

(** A size_t of 32 bits at least. *)
Definition szok (σ : kst) : Prop := 32 <= k_szbits σ.

Lemma amove_szok σ σ' : amove σ σ' → szok σ → szok σ'.
Proof. by intros (a & n & -> & _). Qed.

(** * Running [LM] *)

Lemma lbind_val {A B} (m : LM A) (k : A → LM B) σ a σ' :
  m σ = Ok (Val a, σ') → lbind m k σ = k a σ'.
Proof. intros E. unfold lbind. by rewrite (bind_ok _ _ _ _ _ E). Qed.

Lemma lk_val {A} (m : KM A) σ a σ' : m σ = Ok (a, σ') → lk m σ = Ok (Val a, σ').
Proof. intros E. unfold lk. by rewrite (bind_ok _ _ _ _ _ E). Qed.

(** * The writer *)

Definition wbuf_ok (w : wbuf) : Prop := 0 <= w_len w <= w_cap w ∧ w_cap w <= MAXMSG.

(** [w'] is [w] with [src] appended. *)
Definition wrote (w : wbuf) (src : list Z) (w' : wbuf) : Prop :=
  w_data w' = w_data w ++ src ∧ w_refs w' = w_refs w ∧ w_bufs w' = w_bufs w ∧
  w_own w' = w_own w ∧ wbuf_ok w'.

Lemma wrote_trans w a w1 b w2 : wrote w a w1 → wrote w1 b w2 → wrote w (a ++ b) w2.
Proof.
  intros (E1 & E2 & E3 & E4 & _) (F1 & F2 & F3 & F4 & Hok). split_and!; try congruence.
  by rewrite F1, E1, (assoc_L (++)).
Qed.

Lemma wrote_len w a w' : wrote w a w' → w_len w' = w_len w + Z.of_nat (length a).
Proof. intros (E & _). unfold w_len. rewrite E, length_app. lia. Qed.

Lemma grow_cap_enough fuel ncap need :
  1 <= ncap → need <= ncap * 2 ^ Z.of_nat fuel →
  need <= grow_cap fuel ncap need ∧ ncap <= grow_cap fuel ncap need.
Proof.
  revert ncap. induction fuel as [|fuel IH]; intros ncap H1 H; cbn [grow_cap].
  { simpl in H. lia. }
  destruct (Z.ltb_spec ncap need); [|lia].
  rewrite Nat2Z.inj_succ, Z.pow_succ_r in H by lia.
  destruct (IH (ncap * 2)); lia.
Qed.

(** A source that leaves room for a message in the address space, so that the sum of
    wput does not wrap. *)
Definition room (bits : Z) (src : list Z) : Prop := MAXMSG + Z.of_nat (length src) < 2 ^ bits.

Lemma wcopy_fit w src σ : w_len w + Z.of_nat (length src) <= w_cap w → w_cap w <= MAXMSG →
  wcopy w src σ = Ok ((0, set_w_data (w_data w ++ src) w), σ) ∧ wrote w src (set_w_data (w_data w ++ src) w).
Proof.
  intros H1 H2. unfold wcopy. destruct (Z.ltb_spec (w_cap w) (w_len w + Z.of_nat (length src))); [lia|].
  split; [done|]. split_and!; try done. unfold wbuf_ok, w_len in *. simpl. rewrite length_app. lia.
Qed.

(** The memcpy of wput never passes the capacity, and the capacity never passes
    MAXMSG; it refuses only for one of those two reasons. *)
Lemma wput_spec w src σ :
  wbuf_ok w → room (k_szbits σ) src →
  ∃ rc w' σ', wput w src σ = Ok ((rc, w'), σ') ∧ amove σ σ' ∧ wbuf_ok w' ∧
    ((rc = 0 ∧ wrote w src w') ∨
     (rc = -1 ∧ w' = w ∧ (MAXMSG < w_len w + Z.of_nat (length src) ∨ k_mem σ (k_nalloc σ) = false))).
Proof.
  intros [[H0 Hlen] Hcap] Hrm. unfold wput. rewrite bind_get. unfold size_t. rewrite wrap_small by (unfold room in Hrm; lia).
  destruct (Z.ltb_spec (w_cap w) (w_len w + Z.of_nat (length src))) as [Hg|Hg].
  - destruct (Z.ltb_spec MAXMSG (w_len w + Z.of_nat (length src))) as [Hm|Hm].
    { exists (-1), w, σ. split_and!; try done; [auto with nlos|]. right. auto. }
    set (n1 := if w_cap w =? 0 then 256 else w_cap w * 2).
    assert (1 <= n1) by (unfold n1; destruct (Z.eqb_spec (w_cap w) 0); lia).
    destruct (grow_cap_enough 17 n1 (w_len w + Z.of_nat (length src))) as [Hn _]; [done| |].
    { unfold MAXMSG in *. change (2 ^ Z.of_nat 17) with 131072. lia. }
    set (n2 := grow_cap 17 n1 _) in *. set (n3 := if MAXMSG <? n2 then MAXMSG else n2).
    assert (w_len w + Z.of_nat (length src) <= n3 <= MAXMSG) as Hn3.
    { unfold n3. destruct (Z.ltb_spec MAXMSG n2); lia. }
    destruct (amove_alloc σ) as [Ha Hf]. destruct (k_mem σ (k_nalloc σ)) eqn:Em.
    + rewrite (bind_ok _ _ σ (Some (k_next σ)) (alloc_st σ)) by by rewrite malloc_eq, Em.
      destruct (wcopy_fit (set_w_cap n3 w) src (alloc_st σ)) as [E W]; [apply Hn3|apply Hn3|].
      exists 0. eexists _, _. split; [exact E|]. split_and!; [done|apply W|]. by left.
    + rewrite (bind_ok _ _ σ None (failed_st σ)) by by rewrite malloc_eq, Em.
      exists (-1), w, (failed_st σ). split_and!; try done. right. auto.
  - destruct (wcopy_fit w src σ Hg Hcap) as [E W]. exists 0. eexists _, σ. split; [exact E|].
    split_and!; [auto with nlos|apply W|by left].
Qed.

Lemma szok_room σ src : szok σ → Z.of_nat (length src) <= MAXMSG → room (k_szbits σ) src.
Proof.
  unfold szok, room. intros Hs Hl. pose proof (Z.pow_le_mono_r 2 32 (k_szbits σ) ltac:(lia) Hs). unfold MAXMSG in *. lia.
Qed.

Lemma wput_fit w src σ :
  wbuf_ok w → plenty σ → szok σ → w_len w + Z.of_nat (length src) <= MAXMSG →
  ∃ w' σ', wput w src σ = Ok ((0, w'), σ') ∧ amove σ σ' ∧ wrote w src w'.
Proof.
  intros Hok Hp Hs Hfit.
  destruct (wput_spec w src σ Hok) as (rc & w' & σ' & E & Hm & _ & [[-> Hw]|(_ & _ & [H|H])]).
  - apply szok_room; [done|]. unfold w_len in Hfit. lia.
  - eauto.
  - lia.
  - by rewrite Hp in H.
Qed.

(** Two writes in a row. *)
Lemma wput2_fit w a b σ (m : KM (Z * wbuf)) :
  wbuf_ok w → plenty σ → szok σ → w_len w + Z.of_nat (length a + length b) <= MAXMSG →
  m = (let! r := wput w a in wthen r (λ w, wput w b)) →
  ∃ w' σ', m σ = Ok ((0, w'), σ') ∧ amove σ σ' ∧ wrote w (a ++ b) w'.
Proof.
  intros Hok Hp Hs Hfit ->.
  destruct (wput_fit w a σ) as (w1 & σ1 & E1 & M1 & W1); [done..|lia|].
  rewrite (bind_ok _ _ _ _ _ E1). unfold wthen. cbn [fst snd Z.eqb].
  destruct (wput_fit w1 b σ1) as (w2 & σ2 & E2 & M2 & W2).
  - apply W1.
  - by eapply amove_plenty.
  - by eapply amove_szok.
  - rewrite (wrote_len _ _ _ W1). lia.
  - exists w2, σ2. split_and!; [done|by eapply amove_trans|by eapply wrote_trans].
Qed.

(** * The wire format *)

Fixpoint enc (v : lv) : list Z :=
  match v with
  | LNil => [tag_nil]
  | LBool b => [if b then tag_true else tag_false]
  | LInt z => tag_int :: le_bytes 8 z
  | LNum z => tag_num :: le_bytes 8 z
  | LStr s => tag_str :: le_bytes 4 (Z.of_nat (length s)) ++ s
  | LTab kv =>
      tag_tab :: le_bytes 4 (Z.of_nat (length kv)) ++
      (fix pairs kv := match kv with
                       | [] => []
                       | (k, v) :: kv => enc k ++ enc v ++ pairs kv
                       end) kv
  | LUser u => tag_str :: le_bytes 4 (Z.of_nat (length (ub_bytes u))) ++ ub_bytes u
  | LOther => []
  end.

Definition enc_pairs (kv : list (lv * lv)) : list Z :=
  concat (List.map (λ p, enc (fst p) ++ enc (snd p)) kv).

Lemma enc_tab kv :
  enc (LTab kv) = tag_tab :: le_bytes 4 (Z.of_nat (length kv)) ++ enc_pairs kv.
Proof.
  cbn [enc]. do 2 f_equal. unfold enc_pairs.
  induction kv as [|[k v] kv IH]; [done|]. cbn [List.map concat fst snd]. by rewrite IH, (assoc_L (++)).
Qed.

(** What a receiver sees: a bare buffer arrives as a string. *)
Fixpoint image (v : lv) : lv :=
  match v with
  | LUser u => LStr (ub_bytes u)
  | LTab kv =>
      LTab ((fix pairs kv := match kv with
                             | [] => []
                             | (k, v) :: kv => (image k, image v) :: pairs kv
                             end) kv)
  | v => v
  end.

Definition image_pairs (kv : list (lv * lv)) : list (lv * lv) :=
  List.map (λ p, (image (fst p), image (snd p))) kv.

Lemma image_tab kv : image (LTab kv) = LTab (image_pairs kv).
Proof.
  cbn [image]. f_equal. unfold image_pairs.
  induction kv as [|[k v] kv IH]; [done|]. cbn [List.map fst snd]. by rewrite IH.
Qed.

Definition str_ok (s : list Z) : Prop := bytes_ok s ∧ Z.of_nat (length s) < 2 ^ 32.

(** Values of at most [n] levels that name no right and give no buffer away, as lua
    can hold them. *)
Fixpoint plain (n : nat) (v : lv) : Prop :=
  match n with
  | O => False
  | S n =>
      match v with
      | LNil | LBool _ => True
      | LInt z => - 2 ^ 63 <= z < 2 ^ 63
      | LNum z => 0 <= z < 2 ^ 64
      | LStr s => str_ok s
      | LTab kv =>
          rawget_str kv (bytes_of "__right") = LNil ∧ rawget_str kv (bytes_of "__buf") = LNil ∧
          Z.of_nat (length kv) < 2 ^ 32 ∧ Forall (λ p, plain n (fst p) ∧ plain n (snd p)) kv
      | LUser u => is_Some (ub_chunk u) ∧ str_ok (ub_bytes u)
      | LOther => False
      end
  end.

Lemma plain_tab n kv :
  rawget_str kv (bytes_of "__right") = LNil → rawget_str kv (bytes_of "__buf") = LNil →
  Z.of_nat (length kv) < 2 ^ 32 → Forall (λ p, plain n (fst p) ∧ plain n (snd p)) kv →
  plain (S n) (LTab kv).
Proof. intros. exact (conj H (conj H0 (conj H1 H2))). Qed.

Lemma plain_str n s : str_ok s → plain (S n) (LStr s).
Proof. exact id. Qed.

Lemma plain_int n z : - 2 ^ 63 <= z < 2 ^ 63 → plain (S n) (LInt z).
Proof. exact id. Qed.

Lemma checkstack_plenty σ :
  plenty σ → ∃ σ', lk lua_checkstack σ = Ok (Val true, σ') ∧ amove σ σ'.
Proof.
  intros H. exists (alloc_st σ). split; [|apply amove_alloc].
  apply lk_val. unfold lua_checkstack. by rewrite (bind_ok _ _ _ _ _ (malloc_plenty σ H)).
Qed.

Lemma u8_tag c : 0 <= c < 256 → u8 c = c.
Proof. intros H. apply wrap_small. lia. Qed.

Lemma write_str_fit w s σ :
  wbuf_ok w → plenty σ → szok σ → str_ok s → w_len w + Z.of_nat (length (enc (LStr s))) <= MAXMSG →
  ∃ w' σ', write_str w s σ = Ok ((0, w'), σ') ∧ amove σ σ' ∧ wrote w (enc (LStr s)) w'.
Proof.
  intros Hok Hp Hz [_ Hs] Hfit. cbn [enc] in *. rewrite length_cons, length_app, le_bytes_length in Hfit.
  unfold write_str, wbyte. rewrite u8_tag by (unfold tag_str; lia).
  destruct (wput_fit w [tag_str] σ) as (w1 & σ1 & E1 & M1 & W1); [done..|simpl; lia|].
  rewrite (bind_ok _ _ _ _ _ E1). unfold wthen at 1. cbn [fst snd Z.eqb].
  rewrite (wrap_small 32) by lia.
  pose proof (wrote_len _ _ _ W1) as L1. simpl in L1.
  destruct (wput2_fit w1 (le_bytes 4 (Z.of_nat (length s))) s σ1
    (let! r := wput w1 (le_bytes 4 (Z.of_nat (length s))) in wthen r (λ w, wput w s))) as (w2 & σ2 & E2 & M2 & W2);
    [apply W1|by eapply amove_plenty|by eapply amove_szok|rewrite le_bytes_length; lia|done|].
  exists w2, σ2. split_and!; [done|by eapply amove_trans|].
  change (tag_str :: ?l) with ([tag_str] ++ l). by eapply wrote_trans.
Qed.

Lemma patch_count_eq pos n c (pre rest : list Z) w :
  length pre = S pos → w_data w = pre ++ le_bytes 4 c ++ rest →
  w_data (patch_count pos n w) = pre ++ le_bytes 4 n ++ rest.
Proof.
  intros Hl E. unfold patch_count. cbn [w_data set_w_data]. rewrite E.
  rewrite <-Hl, take_app_length. f_equal. f_equal.
  rewrite drop_app_ge by lia.
  replace (length pre + 4 - length pre)%nat with (length (le_bytes 4 c))
    by (rewrite le_bytes_length; lia).
  by rewrite drop_app_length.
Qed.

Section write.
Context (sender : nat).

Definition writes (n : nat) : Prop := ∀ v w σ,
  plain n v → plenty σ → szok σ → wbuf_ok w → w_len w + Z.of_nat (length (enc v)) <= MAXMSG →
  ∃ w' σ', serialize n sender v w σ = Ok (Val (0, w'), σ') ∧ amove σ σ' ∧ wrote w (enc v) w'.

Lemma serialize_pairs_fit n pos kv :
  writes n → ∀ cnt w σ, Forall (λ p, plain n (fst p) ∧ plain n (snd p)) kv → plenty σ → szok σ →
  wbuf_ok w → w_len w + Z.of_nat (length (enc_pairs kv)) <= MAXMSG →
  ∃ w1 σ', serialize_pairs (serialize n sender) pos kv cnt w σ =
      Ok (Val (0, patch_count pos (u32 (cnt + Z.of_nat (length kv))) w1), σ') ∧
    amove σ σ' ∧ wrote w (enc_pairs kv) w1.
Proof.
  intros IH. induction kv as [|[k v] kv IHkv]; intros cnt w σ Hf Hp Hs Hok Hfit.
  { exists w, σ. cbn. rewrite Z.add_0_r. split_and!; [done|auto with nlos|].
    unfold wrote. by rewrite app_nil_r. }
  apply Forall_cons in Hf as [[Hk Hv] Hf]. cbn [fst snd] in Hk, Hv.
  unfold enc_pairs in *. cbn [List.map concat fst snd] in *. rewrite !length_app in Hfit.
  cbn [serialize_pairs].
  destruct (IH k w σ) as (w1 & σ1 & E1 & M1 & W1); [done..|lia|].
  rewrite (lbind_val _ _ _ _ _ E1). cbn [fst snd Z.eqb negb].
  pose proof (wrote_len _ _ _ W1).
  destruct (IH v w1 σ1) as (w2 & σ2 & E2 & M2 & W2); [done|by eapply amove_plenty|by eapply amove_szok|apply W1|lia|].
  rewrite (lbind_val _ _ _ _ _ E2). cbn [fst snd Z.eqb negb].
  pose proof (wrote_len _ _ _ W2).
  destruct (IHkv (cnt + 1) w2 σ2) as (w3 & σ3 & E3 & M3 & W3);
    [done|eapply amove_plenty; [|exact Hp]; by eapply amove_trans|eapply amove_szok; [|exact Hs]; by eapply amove_trans|apply W2|lia|].
  exists w3, σ3. split_and!.
  - rewrite E3. replace (cnt + Z.of_nat (length ((k, v) :: kv)))
      with (cnt + 1 + Z.of_nat (length kv)) by (cbn [length]; lia). done.
  - eapply amove_trans; [exact M1|]. by eapply amove_trans.
  - eapply wrote_trans; [|exact W3]. by eapply wrote_trans.
Qed.

Lemma serialize_fit n : writes n.
Proof.
  induction n as [|n IH]; intros v w σ Hpl Hp Hz Hok Hfit; [done|].
  cbn [serialize]. destruct (checkstack_plenty σ Hp) as (σ0 & E0 & M0).
  rewrite (lbind_val _ _ _ _ _ E0). cbn [negb].
  assert (plenty σ0) as Hp0 by by eapply amove_plenty.
  assert (szok σ0) as Hz0 by by eapply amove_szok.
  assert (∀ (m : KM (Z * wbuf)) src, (∃ w' σ', m σ0 = Ok ((0, w'), σ') ∧ amove σ0 σ' ∧ wrote w src w') →
    ∃ w' σ', lk m σ0 = Ok (Val (0, w'), σ') ∧ amove σ σ' ∧ wrote w src w') as Hlift.
  { intros m src (w' & σ' & E & M & W). exists w', σ'.
    split_and!; [by apply lk_val|by eapply amove_trans|done]. }
  destruct v as [|b|z|z|s|kv|u|]; cbn [plain] in Hpl.
  - apply Hlift. by apply wput_fit.
  - apply Hlift. unfold wbyte. rewrite u8_tag by (destruct b; unfold tag_true, tag_false; lia).
    by apply wput_fit.
  - apply Hlift. by apply (wput2_fit w [tag_int] (le_bytes 8 z)).
  - apply Hlift. by apply (wput2_fit w [tag_num] (le_bytes 8 z)).
  - apply Hlift. by apply write_str_fit.
  - destruct Hpl as (Hr & Hb & Hlen & Hf). rewrite Hr, Hb. rewrite enc_tab in *.
    rewrite length_cons, length_app, le_bytes_length in Hfit.
    destruct (Hlift (let! r := wbyte w tag_tab in wthen r (λ w, wput w (le_bytes 4 0)))
                ([tag_tab] ++ le_bytes 4 0)) as (w1 & σ1 & E1 & M1 & W1).
    { apply (wput2_fit w [tag_tab] (le_bytes 4 0)); [done..|simpl; lia|done]. }
    rewrite (lbind_val _ _ _ _ _ E1). cbn [fst snd Z.eqb negb].
    pose proof (wrote_len _ _ _ W1) as L1. rewrite length_app, le_bytes_length in L1. simpl in L1.
    destruct (serialize_pairs_fit n (length (w_data w)) kv IH 0 w1 σ1) as (w2 & σ2 & E2 & M2 & W2);
      [done|eapply amove_plenty; [exact M1|done]|eapply amove_szok; [exact M1|done]|apply W1|lia|].
    rewrite E2. eexists _, σ2. split; [done|]. split; [by eapply amove_trans|].
    destruct W1 as (D1 & A1 & A2 & A3 & _). destruct W2 as (D2 & B1 & B2 & B3 & Hok2).
    assert (w_data w2 = (w_data w ++ [tag_tab]) ++ le_bytes 4 0 ++ enc_pairs kv) as ED.
    { rewrite D2, D1. by rewrite <-!(assoc_L (++)). }
    assert (w_data (patch_count (length (w_data w)) (u32 (0 + Z.of_nat (length kv))) w2) =
            w_data w ++ tag_tab :: le_bytes 4 (Z.of_nat (length kv)) ++ enc_pairs kv) as EP.
    { rewrite (patch_count_eq _ _ 0 (w_data w ++ [tag_tab]) (enc_pairs kv)); [|by rewrite last_length|done].
      rewrite <-(assoc_L (++)). do 2 f_equal. unfold u32. rewrite wrap_small; [done|lia]. }
    assert (w_len (patch_count (length (w_data w)) (u32 (0 + Z.of_nat (length kv))) w2) = w_len w2)
      as EL by (unfold w_len; rewrite EP, ED, !length_app, length_cons, length_app, !le_bytes_length;
                cbn [length]; lia).
    split_and!; [exact EP|simpl; congruence..|]. by unfold wbuf_ok in *; rewrite EL.
  - destruct Hpl as [[c Hc] Hs]. unfold luabuf_bytes. rewrite Hc.
    rewrite (lbind_val (lret (Some (ub_bytes u))) _ σ0 (Some (ub_bytes u)) σ0) by done.
    apply Hlift. by apply (write_str_fit w (ub_bytes u)).
  - done.
Qed.

End write.

(** * Reading it back *)

Lemma sint_wrap z : - 2 ^ 63 <= z < 2 ^ 63 → sint 64 (z mod 2 ^ 64) = z.
Proof.
  intros Hz. unfold sint, wrap. rewrite Z.mod_mod by lia.
  destruct (Z_lt_le_dec z 0).
  - rewrite <-(Z.mod_unique z (2 ^ 64) (-1) (z + 2 ^ 64)) by lia.
    destruct (Z.ltb_spec (z + 2 ^ 64) (2 ^ (64 - 1))); lia.
  - rewrite Z.mod_small by lia. destruct (Z.ltb_spec z (2 ^ (64 - 1))); lia.
Qed.

#[local] Set Warnings "-register-all".

(** A table reaches the other side with its pairs in whatever order lua_next then
    gives them. *)
Inductive lsim : lv → lv → Prop :=
| lsim_refl v : lsim v v
| lsim_tab kv l kv' :
    Forall2 (λ p q, fst p = fst q ∧ lsim (snd p) (snd q)) kv l → l ≡ₚ kv' →
    lsim (LTab kv) (LTab kv').

Section read.
Context (settable : list (lv * lv) → lv → lv → option (list (lv * lv))).
Context (keyed : lv → Prop).
(** lua_settable of a key the table has not, which lua stores as it is. *)
Hypothesis settable_new : ∀ tab k v,
  keyed k → v ≠ LNil → k ∉ List.map fst tab →
  ∃ tab', settable tab k v = Some tab' ∧ (k, v) :: tab ≡ₚ tab'.

(** Every table of the value has keys that stay distinct, and no nil. *)
Fixpoint keys_ok (n : nat) (v : lv) : Prop :=
  match n, v with
  | S n, LTab kv =>
      NoDup (List.map (λ p, image (fst p)) kv) ∧
      Forall (λ p, (match fst p with LTab _ => False | _ => True end) ∧
                   keyed (image (fst p)) ∧ snd p ≠ LNil ∧ keys_ok n (snd p)) kv
  | _, _ => True
  end.

Section at_p.
Context (p : list Z) (receiver : nat) (bufs : msgbufs) (mt : list Z).
Hypothesis small : Z.of_nat (length p) <= MAXMSG.

Definition pos (pre : list Z) : dst := mkDst (Z.of_nat (length pre)) bufs mt.

Lemma size_small σ z : szok σ → 0 <= z <= MAXMSG → size_t σ z = z.
Proof.
  unfold szok. intros Hs Hz. apply wrap_small.
  pose proof (Z.pow_le_mono_r 2 32 (k_szbits σ) ltac:(lia) Hs). unfold MAXMSG in Hz. lia.
Qed.

Lemma rd_at pre s suf n σ :
  p = pre ++ s ++ suf → n = Z.of_nat (length s) →
  rd p (Z.of_nat (length pre)) n σ = Ok (s, σ).
Proof.
  intros E ->. unfold rd, m_len. rewrite E, !length_app.
  destruct (Z.leb_spec 0 (Z.of_nat (length pre))); [|lia].
  destruct (Z.leb_spec (Z.of_nat (length pre) + Z.of_nat (length s))
              (Z.of_nat (length pre + (length s + length suf)))); [|lia].
  cbn [andb]. by rewrite !Nat2Z.id, drop_app_length, take_app_length.
Qed.

Lemma adv_at pre s suf n σ :
  szok σ → p = pre ++ s ++ suf → n = Z.of_nat (length s) →
  adv n (pos pre) σ = Ok (pos (pre ++ s), σ).
Proof.
  intros Hs E ->. unfold adv, pos. rewrite E, !length_app in small. simpl.
  unfold st_bind, st_get. rewrite size_small by (done || lia). by rewrite length_app, Nat2Z.inj_add.
Qed.

Lemma past_at pre s suf n σ :
  szok σ → p = pre ++ s ++ suf → n = Z.of_nat (length s) →
  past p n (pos pre) σ = Ok (false, σ).
Proof.
  intros Hs E ->. unfold past, pos, m_len. pose proof small as Hp. rewrite E, !length_app in *.
  cbn [d_off]. unfold st_bind, st_get. rewrite size_small by (done || lia).
  destruct (Z.ltb_spec (Z.of_nat (length pre + (length s + length suf)))
              (Z.of_nat (length pre) + Z.of_nat (length s))); [lia|done].
Qed.

Lemma rd_le_at pre k z suf σ :
  szok σ → p = pre ++ le_bytes k z ++ suf →
  lk (rd_le p (Z.of_nat k) (pos pre)) σ =
  Ok (Val (Some (z mod 256 ^ Z.of_nat k, pos (pre ++ le_bytes k z))), σ).
Proof.
  intros Hs E. assert (Z.of_nat k = Z.of_nat (length (le_bytes k z))) as Hk
    by by rewrite le_bytes_length.
  apply lk_val. unfold rd_le. rewrite (bind_ok _ _ _ _ _ (past_at _ _ _ _ _ Hs E Hk)).
  rewrite (bind_ok _ _ _ _ _ (rd_at _ _ _ _ _ E Hk)).
  rewrite (bind_ok _ _ _ _ _ (adv_at _ _ _ _ _ Hs E Hk)). by rewrite le_val_bytes.
Qed.

Lemma read_str_at pre s suf σ :
  szok σ → str_ok s → p = pre ++ (le_bytes 4 (Z.of_nat (length s)) ++ s) ++ suf →
  read_str p (pos pre) σ =
  Ok (Val (inr (LStr s), pos (pre ++ le_bytes 4 (Z.of_nat (length s)) ++ s)), σ).
Proof.
  intros Hs [_ Hl] E. rewrite <-(assoc_L (++)) in E. unfold read_str.
  rewrite (lbind_val _ _ _ _ _ (rd_le_at pre 4 _ _ σ Hs E)).
  rewrite Z.mod_small by (change (256 ^ Z.of_nat 4) with (2 ^ 32); lia).
  rewrite (assoc_L (++)) in E. rewrite (assoc_L (++) pre).
  rewrite (lbind_val _ _ _ _ _ (lk_val _ _ _ _ (past_at _ _ _ _ _ Hs E eq_refl))). cbv iota.
  rewrite (lbind_val _ _ _ _ _ (lk_val _ _ _ _ (rd_at _ _ _ _ _ E eq_refl))).
  by rewrite (lbind_val _ _ _ _ _ (lk_val _ _ _ _ (adv_at _ _ _ _ _ Hs E eq_refl))).
Qed.

Definition pair_sim (a b : lv * lv) : Prop := fst a = fst b ∧ lsim (snd a) (snd b).

Definition reads (n : nat) : Prop := ∀ v pre suf σ,
  plain n v → keys_ok n v → plenty σ → szok σ → p = pre ++ enc v ++ suf →
  ∃ v' σ', deserialize settable p n receiver (pos pre) σ =
      Ok (Val (inr v', pos (pre ++ enc v)), σ') ∧ amove σ σ' ∧ lsim (image v) v'.


Lemma lsim_key k k' : match k with LTab _ => False | _ => True end →
  lsim (image k) k' → k' = image k.
Proof. intros Hk Hs. destruct k; try done; by inversion Hs. Qed.

Lemma lsim_nonnil v v' : v ≠ LNil → lsim (image v) v' → v' ≠ LNil.
Proof. intros Hv Hs. destruct v; try done; by inversion Hs. Qed.

Lemma pair_sim_keys done l : Forall2 pair_sim done l → List.map fst done = List.map fst l.
Proof. induction 1 as [|a b ? ? [Ha _] _ IH]; [done|]. cbn. by rewrite Ha, IH. Qed.

Lemma pairs_at n kv :
  reads n → ∀ done l tab pre suf σ,
  Forall (λ q, plain n (fst q) ∧ plain n (snd q)) kv →
  Forall (λ q, (match fst q with LTab _ => False | _ => True end) ∧
                keyed (image (fst q)) ∧ snd q ≠ LNil ∧ keys_ok n (snd q)) kv →
  NoDup (List.map fst done ++ List.map (λ q, image (fst q)) kv) →
  Forall2 pair_sim done l → l ≡ₚ tab → plenty σ → szok σ → p = pre ++ enc_pairs kv ++ suf →
  ∃ tab' l' σ', deserialize_pairs settable (deserialize settable p n receiver) (length kv) tab (pos pre) σ =
      Ok (Val (inr (LTab tab'), pos (pre ++ enc_pairs kv)), σ') ∧ amove σ σ' ∧
    Forall2 pair_sim (done ++ image_pairs kv) l' ∧ l' ≡ₚ tab'.
Proof.
  intros IH. induction kv as [|[k v] kv IHkv]; intros done l tab pre suf σ Hp Hk Hnd Hf Hl Hm Hs E.
  { exists tab, l, σ. cbn. rewrite !app_nil_r. auto with nlos. }
  apply Forall_cons in Hp as [[Hpk Hpv] Hp]. apply Forall_cons in Hk as [(Hkt & Hkk & Hvn & Hkv) Hk].
  cbn [fst snd] in *. unfold enc_pairs in *. cbn [List.map concat fst snd] in *.
  assert (keys_ok n k) as Hkk' by (by destruct n, k).
  destruct (IH k pre (enc v ++ enc_pairs kv ++ suf) σ) as (k' & σ1 & E1 & M1 & S1); try done.
  { rewrite E. unfold enc_pairs. by rewrite !(assoc_L (++)). }
  cbn [length deserialize_pairs]. rewrite (lbind_val _ _ _ _ _ E1). cbv iota beta.
  destruct (IH v (pre ++ enc k) (enc_pairs kv ++ suf) σ1) as (v' & σ2 & E2 & M2 & S2);
    try done; [by eapply amove_plenty|by eapply amove_szok| |].
  { rewrite E. unfold enc_pairs. by rewrite !(assoc_L (++)). }
  rewrite (lbind_val _ _ _ _ _ E2). cbv iota beta.
  apply lsim_key in S1 as ->; [|done].
  destruct (settable_new tab (image k) v') as (tab1 & -> & Ht); [done|by eapply lsim_nonnil| |].
  { apply NoDup_app in Hnd as (_ & Hnd & _). intros Hin. apply (Hnd (image k)); [|left].
    rewrite (pair_sim_keys _ _ Hf). by rewrite Hl. }
  destruct (IHkv (done ++ [(image k, image v)]) (l ++ [(image k, v')]) tab1
              ((pre ++ enc k) ++ enc v) suf σ2) as (tab' & l' & σ3 & E3 & M3 & F3 & P3); try done.
  - by rewrite map_app, <-(assoc_L (++)).
  - apply Forall2_app; [done|]. by repeat constructor.
  - rewrite <-Ht, <-Hl. apply Permutation_sym, Permutation_cons_append.
  - eapply amove_plenty; [|exact Hm]. by eapply amove_trans.
  - eapply amove_szok; [|exact Hs]. by eapply amove_trans.
  - rewrite E. unfold enc_pairs. by rewrite !(assoc_L (++)).
  - exists tab', l', σ3. split_and!; [|eapply amove_trans; [exact M1|by eapply amove_trans]| |done].
    + rewrite E3. by rewrite !(assoc_L (++)).
    + by rewrite <-(assoc_L (++)) in F3.
Qed.

Lemma enc_nonempty n v : plain n v → (1 <= length (enc v))%nat.
Proof. destruct n; [done|]. destruct v; cbn; intros; try done; lia. Qed.

Lemma enc_pairs_room n kv :
  Forall (λ q, plain n (fst q) ∧ plain n (snd q)) kv → (2 * length kv <= length (enc_pairs kv))%nat.
Proof.
  unfold enc_pairs. induction 1 as [|[k v] kv [Hk Hv] _ IH]; [done|]. cbn [List.map concat fst snd] in *.
  apply enc_nonempty in Hk, Hv. rewrite !length_app. cbn [length]. lia.
Qed.

(** Past the stack check and the tag. *)
Lemma tag_at pre c rest σ :
  0 <= c < 256 → plenty σ → szok σ → p = pre ++ c :: rest →
  ∃ σ', amove σ σ' ∧ ∀ (K : Z → dst → LM ((Z + lv) * dst)),
  (do! ok := lk lua_checkstack in
   if negb ok then dfail (-2) (pos pre) else
   if m_len p <=? d_off (pos pre) then dfail (-1) (pos pre) else
   do! b := lk (rd p (d_off (pos pre)) 1) in
   do! d := lk (adv 1 (pos pre)) in
   K (le_val b) d) σ = K c (pos (pre ++ [c])) σ'.
Proof.
  intros Hc Hp Hs E. destruct (checkstack_plenty σ Hp) as (σ0 & E0 & M0). exists σ0.
  split; [done|]. intros K. rewrite (lbind_val _ _ _ _ _ E0). cbn [negb].
  change (c :: rest) with ([c] ++ rest) in E.
  destruct (Z.leb_spec (m_len p) (d_off (pos pre))) as [H|H].
  { unfold m_len in H. rewrite E, !length_app in H. cbn in H. lia. }
  assert (szok σ0) as Hs0 by by eapply amove_szok.
  rewrite (lbind_val _ _ _ _ _ (lk_val _ _ _ _ (rd_at pre [c] rest 1 _ E eq_refl))).
  rewrite (lbind_val _ _ _ _ _ (lk_val _ _ _ _ (adv_at pre [c] rest 1 _ Hs0 E eq_refl))).
  cbn [le_val]. do 2 f_equal; lia.
Qed.

Lemma deserialize_at n : reads n.
Proof.
  induction n as [|n IH]; intros v pre suf σ Hpl Hk Hm Hs E; [done|].
  assert (∃ c rest, enc v = c :: rest ∧ 0 <= c < 256) as (c & rest & Ev & Hc).
  { destruct v as [|[]|z|z|x|kv|u|]; try done; cbn [enc]; eexists _, _; split; try done;
      unfold tag_nil, tag_true, tag_false, tag_int, tag_num, tag_str, tag_tab; lia. }
  rewrite Ev in E. cbn [app] in E.
  destruct (tag_at pre c (rest ++ suf) σ Hc Hm Hs E) as (σ0 & M0 & ET).
  cbn [deserialize]. rewrite (ET (deserialize_tag _ _ _ _)). clear ET. unfold deserialize_tag.
  assert (szok σ0) as Hs0 by by eapply amove_szok.
  assert (plenty σ0) as Hm0 by by eapply amove_plenty.
  rewrite Ev. change (c :: rest) with ([c] ++ rest). rewrite (assoc_L (++) pre).
  change (c :: rest ++ suf) with ([c] ++ rest ++ suf) in E. rewrite (assoc_L (++) pre) in E.
  destruct v as [|b|z|z|x|kv|u|]; try done.
  - cbn [enc] in Ev. simplify_eq. exists LNil, σ0. rewrite app_nil_r. split_and!; [done|done|constructor].
  - cbn [enc] in Ev. simplify_eq. exists (LBool b), σ0. rewrite app_nil_r. split_and!; [by destruct b|done|constructor].
  - cbn [enc] in Ev. simplify_eq. cbn [Z.eqb Pos.eqb tag_int tag_nil tag_true tag_false].
    rewrite (lbind_val _ _ _ _ _ (rd_le_at _ 8 z suf σ0 Hs0 E)). exists (LInt z), σ0.
    change (256 ^ Z.of_nat 8) with (2 ^ 64). rewrite sint_wrap by done.
    split_and!; [done|done|constructor].
  - cbn [enc] in Ev. simplify_eq. cbn [Z.eqb Pos.eqb tag_int tag_nil tag_true tag_false tag_num].
    rewrite (lbind_val _ _ _ _ _ (rd_le_at _ 8 z suf σ0 Hs0 E)). exists (LNum z), σ0.
    change (256 ^ Z.of_nat 8) with (2 ^ 64). rewrite Z.mod_small by done.
    split_and!; [done|done|constructor].
  - cbn [enc] in Ev. simplify_eq. cbn [Z.eqb Pos.eqb tag_int tag_nil tag_true tag_false tag_num tag_str].
    exists (LStr x), σ0. split_and!; [|done|constructor]. by apply (read_str_at _ _ suf).
  - rewrite enc_tab in Ev. simplify_eq.
    cbn [Z.eqb Pos.eqb tag_int tag_nil tag_true tag_false tag_num tag_str tag_tab].
    destruct Hpl as (_ & _ & Hlen & Hf). destruct Hk as [Hnd Hk].
    rewrite <-(assoc_L (++) (le_bytes 4 _)) in E.
    rewrite (lbind_val _ _ _ _ _ (rd_le_at _ 4 _ _ σ0 Hs0 E)).
    rewrite Z.mod_small by (change (256 ^ Z.of_nat 4) with (2 ^ 32); lia).
    rewrite (assoc_L (++)) in E. rewrite (assoc_L (++) (pre ++ [tag_tab])).
    set (pre1 := (pre ++ [tag_tab]) ++ le_bytes 4 (Z.of_nat (length kv))) in *.
    pose proof (enc_pairs_room n kv Hf) as Hroom.
    destruct (Z.ltb_spec ((m_len p - d_off (pos pre1)) / 2) (Z.of_nat (length kv))) as [Hb|_].
    { assert (m_len p = Z.of_nat (length pre1) + Z.of_nat (length (enc_pairs kv ++ suf))) as Hl
        by (unfold m_len; rewrite E, (length_app pre1); lia).
      rewrite length_app in Hl. cbn [d_off pos] in Hb.
      pose proof (Z.div_le_lower_bound (m_len p - Z.of_nat (length pre1)) 2 (Z.of_nat (length kv))).
      lia. }
    rewrite Nat2Z.id.
    destruct (pairs_at n kv IH [] [] [] pre1 suf σ0) as (tab' & l' & σ1 & E1 & M1 & F1 & P1); try done.
    exists (LTab tab'), σ1. split_and!; [done|by eapply amove_trans|].
    rewrite image_tab. by eapply lsim_tab.
  - cbn [enc] in Ev. simplify_eq. cbn [Z.eqb Pos.eqb tag_int tag_nil tag_true tag_false tag_num tag_str].
    exists (LStr (ub_bytes u)), σ0. destruct Hpl as [_ Hpl].
    split_and!; [|done|constructor]. by apply (read_str_at _ _ suf).
Qed.

End at_p.
End read.
