(* ===== verification/SerializeInv.v ===== *)
(** The serializer keeps the kernel invariant: whatever the value and whatever the
    bytes, serialize takes exactly the references it records in the message, and
    deserialize reads inside the message, mints only handles it records, and takes
    each buffer at most once. *)

From S2P Require Import Prelude Clock Sched Ports PortInv KInv PortWake PortRef PortOps.
From S2P Require Import Serialize SerializeOk.
From stdpp Require Import prelude list gmap strings.
From Stdlib Require Import ZArith Lia.
Open Scope Z_scope.

(** * Hands *)

Lemma refs_n_perm f i (l l' : list (nat * bool)) : l ≡ₚ l' → refs_n f i l = refs_n f i l'.
Proof. unfold refs_n, zsum. induction 1; simpl in *; lia. Qed.

Lemma kinv_perm X X' Y σ : X ≡ₚ X' → kinv X Y σ → kinv X' Y σ.
Proof.
  intros HP K. destruct K as [R]. split; try done. destruct R. split; try done.
  - intros f q pt H. rewrite (ro_count f q pt H). unfold count. by rewrite (refs_n_perm _ _ _ _ HP).
  - intros ref H. apply ro_hand. by rewrite HP.
Qed.

Lemma kinv_bufs X Y Y' σ : (∀ c, bufs_n c Y' <= bufs_n c Y) → kinv X Y σ → kinv X Y' σ.
Proof.
  intros HY K. destruct K as [? ? ? [C1 C2]]. split; try done. split; intros c.
  - specialize (C1 c). specialize (HY c). unfold owned in *. lia.
  - intros H. apply C2. specialize (HY c). unfold owned in *. lia.
Qed.

(** What neither side of a message touches. *)
Definition frame_d (σ : kst) :=
  (k_portv σ, k_waiters σ, k_sch σ, k_timers σ, k_krefs σ, k_chunks σ, k_ipc σ,
   k_maxports σ, k_hangup_gen σ, k_portgen σ, k_mem σ, k_szbits σ, k_bytes σ).

Lemma frame_r_d σ σ' : frame_r σ' = frame_r σ → frame_d σ' = frame_d σ ∧ k_acct σ' = k_acct σ.
Proof. unfold frame_r, frame_d. intros E. injection E. intros. by split; [congruence|]. Qed.

Lemma frame_d_eqs σ σ' : frame_d σ' = frame_d σ →
  k_portv σ' = k_portv σ ∧ k_waiters σ' = k_waiters σ ∧ k_sch σ' = k_sch σ ∧
  k_chunks σ' = k_chunks σ ∧ k_ipc σ' = k_ipc σ ∧ k_maxports σ' = k_maxports σ ∧
  k_mem σ' = k_mem σ ∧ k_timers σ' = k_timers σ ∧ k_krefs σ' = k_krefs σ ∧ k_szbits σ' = k_szbits σ.
Proof. unfold frame_d. intros E. injection E. intros. by split_and!. Qed.

(** * What a walk over a message does to the receiver *)

Definition used_at (ip : iproc) (h : Z) (r : right) : Prop :=
  right_slot ip h = Some r ∧ r_used r = true.

(** [ip'] is [ip] with new rights in the slots [mt]. *)
Definition minted (mt : list Z) (ip ip' : iproc) : Prop :=
  (∀ h r, used_at ip h r → used_at ip' h r ∧ h ∉ mt) ∧
  (∀ h r, used_at ip' h r → used_at ip h r ∨ h ∈ mt) ∧ Forall (λ h, 0 <= h) mt.

Lemma minted_same ip ip' :
  (∀ h, right_slot ip' h = right_slot ip h) → minted [] ip ip'.
Proof.
  intros E. unfold minted, used_at. split_and!; [intros h r; rewrite E..|done]; [|auto].
  intros H. split; [done|by apply not_elem_of_nil].
Qed.

Lemma minted_trans mt mt' ip ip1 ip2 :
  minted mt ip ip1 → minted mt' ip1 ip2 → minted (mt ++ mt') ip ip2.
Proof.
  intros (A1 & A2 & A3) (B1 & B2 & B3). split_and!; [| |by apply Forall_app].
  - intros h r H. destruct (A1 h r H) as [H1 N1]. destruct (B1 h r H1) as [H2 N2].
    split; [done|]. by rewrite elem_of_app; intros [?|?].
  - intros h r H. rewrite elem_of_app. destruct (B2 h r H) as [H1|?]; [|auto].
    destruct (A2 h r H1); auto.
Qed.

(** The same waiters, messages and life. *)
Definition port_kept (pt pt' : kport) : Prop :=
  pt_idx pt' = pt_idx pt ∧ pt_gen pt' = pt_gen pt ∧ pt_waiters pt' = pt_waiters pt ∧
  pt_queue pt' = pt_queue pt ∧ pt_dead pt' = pt_dead pt ∧ pt_qbytes pt' = pt_qbytes pt.

Record dmove (p : nat) (mt : list Z) (σ σ' : kst) : Prop := mkDmove {
  dm_frame : frame_d σ' = frame_d σ;
  dm_next : (k_next σ <= k_next σ')%nat;
  dm_port : ∀ q pt, k_ports σ !! q = Some pt → ∃ pt', k_ports σ' !! q = Some pt' ∧ port_kept pt pt';
  dm_noport : ∀ q, k_ports σ !! q = None → k_ports σ' !! q = None;
  dm_other : ∀ p', p' ≠ p → k_procs σ' !! p' = k_procs σ !! p';
  dm_self : ∀ ip, k_procs σ !! p = Some ip → ∃ ip', k_procs σ' !! p = Some ip' ∧
    minted mt ip ip' ∧ ip_waiters ip' = ip_waiters ip ∧ ip_woken ip' = ip_woken ip;
  dm_acct : ∀ p, is_Some (k_acct σ !! p) → is_Some (k_acct σ' !! p)
}.

Lemma dmove_amove p σ σ' : amove σ σ' → dmove p [] σ σ'.
Proof.
  intros (a & n & -> & Hn). split; try done.
  - intros q pt H. exists pt. by split_and!.
  - intros ip H. exists ip. split_and!; [done|by apply minted_same|done..].
Qed.

Lemma dmove_refl p σ : dmove p [] σ σ.
Proof. apply dmove_amove, amove_refl. Qed.

Lemma dmove_trans p mt mt' σ1 σ2 σ3 :
  dmove p mt σ1 σ2 → dmove p mt' σ2 σ3 → dmove p (mt ++ mt') σ1 σ3.
Proof.
  intros [A1 A3 A4 A5 A6 A7 A8] [B1 B3 B4 B5 B6 B7 B8].
  split; [congruence|lia| |auto| | |auto].
  - intros q pt H. destruct (A4 q pt H) as (pt1 & H1 & K1). destruct (B4 q pt1 H1) as (pt2 & H2 & K2).
    exists pt2. split; [done|]. unfold port_kept in *. intuition congruence.
  - intros p' Hp. rewrite B6 by done. by apply A6.
  - intros ip H. destruct (A7 ip H) as (ip1 & H1 & M1 & E1 & W1).
    destruct (B7 ip1 H1) as (ip2 & H2 & M2 & E2 & W2). exists ip2.
    split_and!; [done|by eapply minted_trans|congruence|congruence].
Qed.

Lemma dmove_uwake p mt σ σ' : dmove p mt σ σ' → uwake (λ _, True) σ σ'.
Proof.
  intros D. destruct (frame_d_eqs _ _ (dm_frame _ _ _ _ D)) as (_ & Ew & Es & _).
  apply wake_ok_same; [|congruence..]. intros q pt' H'. right.
  destruct (k_ports σ !! q) as [pt|] eqn:H.
  - destruct (dm_port _ _ _ _ D q pt H) as (pt1 & H1 & K1). simplify_eq.
    exists pt. unfold port_kept in K1. intuition congruence.
  - apply (dm_noport _ _ _ _ D) in H. congruence.
Qed.

Lemma dmove_ranked rk p mt σ σ' : dmove p mt σ σ' → ranked rk σ → ranked rk σ'.
Proof.
  intros D Hr q pt' m ref q' H' Hm Href Hv.
  destruct (frame_d_eqs _ _ (dm_frame _ _ _ _ D)) as (Ev & _).
  destruct (k_ports σ !! q) as [pt|] eqn:H.
  - destruct (dm_port _ _ _ _ D q pt H) as (pt1 & H1 & K1). simplify_eq.
    destruct K1 as (_ & _ & _ & Eq & _). rewrite Eq in Hm. eapply Hr; try done. congruence.
  - apply (dm_noport _ _ _ _ D) in H. congruence.
Qed.

(** * Minting *)

Lemma grown_used ip ip0 h r : grown ip ip0 → used_at ip0 h r → used_at ip h r.
Proof.
  intros [->|[E ->]] [Hs Hu]; [done|]. split; [|done]. revert Hs. unfold right_slot.
  destruct ((h <? 0) || _); [done|]. destruct (h <? NRIGHTS_INLINE); [done|].
  cbn [ip_xrights set_ip_xrights]. intros H. apply lookup_replicate in H as [-> _].
  unfold right_zero in Hu. simpl in Hu. done.
Qed.

Lemma right_made_minted p q recv ip pt lo h σ σ' :
  proc_ok ip → right_made p q recv ip pt lo h σ σ' → k_procs σ !! p = Some ip →
  ∃ ip', k_procs σ' = <[p := ip']> (k_procs σ) ∧ minted (if h <? 0 then [] else [h]) ip ip' ∧
    ip_waiters ip' = ip_waiters ip ∧ ip_woken ip' = ip_woken ip.
Proof.
  intros Hok Hm Hp. unfold right_made in Hm. destruct (Z.ltb_spec h 0) as [_|Hpos].
  - destruct Hm as (_ & ip0 & E & Hg). exists ip0.
    destruct (grown_ok ip ip0 Hg Hok) as (_ & _ & _ & _ & Ew & _ & Ek & Hs).
    split_and!; [done| |done|done]. split_and!; [| |done].
    + intros i r [H Hu]. split; [split; [by apply Hs|done]|by apply not_elem_of_nil].
    + intros i r H. left. by eapply grown_used.
  - destruct Hm as (_ & _ & ip0 & old & Hg & Hold & Hfree & E & _).
    destruct (grown_ok ip ip0 Hg Hok) as (Hok0 & _ & _ & _ & Ew & _ & Ek & Hs).
    destruct (right_taken_frame h q recv ip0) as (_ & Er & Ex & _ & _ & _ & Ew' & _ & Ek' & _).
    exists (right_taken h q recv ip0).
    assert (∀ i, right_slot (right_taken h q recv ip0) i =
                 right_slot (put_right h (mkRight q recv true) ip0) i) as ES.
    { intros i. unfold right_slot. by rewrite Er, Ex. }
    pose proof (pr_tab _ Hok0) as T.
    split_and!; [done| |congruence|congruence]. unfold minted, used_at. split_and!; [| |by constructor].
    + intros i r [Hi Hu]. assert (i ≠ h) as Hne.
      { intros ->. apply Hs in Hi. rewrite Hi in Hold. simplify_eq. congruence. }
      rewrite list_elem_of_singleton, ES. split; [|done]. split; [|done].
      rewrite right_slot_all by apply (put_right_all ip0 h _ old T Hold).
      destruct (put_right_all ip0 h (mkRight q recv true) old T Hold) as [-> _].
      pose proof (right_slot_range _ _ _ Hold). apply Hs in Hi. pose proof (right_slot_range _ _ _ Hi).
      rewrite list_lookup_insert_ne by lia. by rewrite <-right_slot_all.
    + intros i r. rewrite ES. intros [Hi Hu]. rewrite list_elem_of_singleton.
      destruct (right_slot_put _ _ _ _ _ _ T Hold Hi) as [[-> ->]|[Hne Hi']]; [by right|].
      left. by eapply grown_used.
Qed.

Lemma right_new_dmove X Y σ p q recv ip pt :
  kinv X Y σ → k_procs σ !! p = Some ip → k_ports σ !! q = Some pt →
  ∃ h σ', right_new p q recv σ = Ok (h, σ') ∧ kinv X Y σ' ∧
    dmove p (if h <? 0 then [] else [h]) σ σ' ∧ h < MAXRIGHTS.
Proof.
  intros K Hp Hq. destruct (right_new_spec X Y σ p q recv ip pt K Hp Hq)
    as (h & σ' & E & K' & Hf & Hn & Hm).
  destruct (frame_r_d _ _ Hf) as [Hd Ha]. exists h, σ'.
  destruct (right_made_minted _ _ _ _ _ _ _ _ _ (ki_proc X Y σ K p ip Hp) Hm Hp)
    as (ip' & Ep & Mt & Ew & Ek).
  assert (h < MAXRIGHTS ∧ (k_ports σ' = k_ports σ ∨
    k_ports σ' = <[q := port_taken recv pt]> (k_ports σ))) as [Hh Hport].
  { unfold right_made in Hm. destruct (Z.ltb_spec h 0).
    - split; [unfold MAXRIGHTS; lia|left; apply Hm].
    - split; [|right]; apply Hm. }
  split_and!; [done|done| |done]. split; [done|done| | | | |by rewrite Ha].
  - intros q' pt' H. destruct Hport as [->| ->].
    { exists pt'. by split_and!. }
    destruct (decide (q' = q)) as [->|Hne].
    + simplify_eq. rewrite lookup_insert_eq. eexists. split; [done|]. by destruct recv.
    + rewrite lookup_insert_ne by done. exists pt'. by split_and!.
  - intros q' H. destruct Hport as [->| ->]; [done|]. rewrite lookup_insert_ne; [done|congruence].
  - intros p' Hne. rewrite Ep. by rewrite lookup_insert_ne.
  - intros ip0 H. simplify_eq. exists ip'. rewrite Ep, lookup_insert_eq. done.
Qed.

(** * The reader on any bytes *)

Section any_bytes.
Context (settable : list (lv * lv) → lv → lv → option (list (lv * lv))).
Context (p : list Z) (receiver : nat) (X : list (nat * bool)) (Y : msgbufs).
Hypothesis p_bytes : bytes_ok p.
Hypothesis p_small : Z.of_nat (length p) <= MAXMSG.

(** The receiver can be charged, and size_t holds an offset plus any 32-bit count. *)
Record ready (d : dst) (σ : kst) : Prop := mkReady {
  rd_kinv : kinv X (d_bufs d ++ Y) σ;
  rd_proc : is_Some (k_procs σ !! receiver);
  rd_acct : is_Some (k_acct σ !! receiver);
  rd_sz : 33 <= k_szbits σ;
  rd_off : 0 <= d_off d <= m_len p;
  rd_mt : Z.of_nat (length (d_mt d)) <= MAXMSGRIGHTS
}.

Definition rpost (d : dst) (σ : kst) (out : lout ((Z + lv) * dst)) (σ' : kst) : Prop :=
  match out with
  | Val (_, d') => ∃ mt, d_mt d' = d_mt d ++ mt ∧ dmove receiver mt σ σ' ∧ ready d' σ'
  | Raise _ => (∃ tab k v, settable tab k v = None) ∧ ∃ mt B, dmove receiver mt σ σ' ∧ kinv X (B ++ Y) σ'
  end.
Definition runs (m : LM ((Z + lv) * dst)) (d : dst) (σ : kst) : Prop :=
  ∃ out σ', m σ = Ok (out, σ') ∧ rpost d σ out σ'.

Lemma runs_ret r d σ : ready d σ → runs (lret (r, d)) d σ.
Proof.
  intros H. eexists _, σ. split; [done|]. exists []. rewrite app_nil_r.
  split_and!; [done|apply dmove_refl|done].
Qed.

Lemma runs_step m d σ mt d1 σ1 :
  d_mt d1 = d_mt d ++ mt → dmove receiver mt σ σ1 → runs m d1 σ1 →
  ∃ out σ', m σ1 = Ok (out, σ') ∧ rpost d σ out σ'.
Proof.
  intros Em D (out & σ' & E & H). exists out, σ'. split; [done|].
  destruct out as [[v d']|e]; simpl in *.
  - destruct H as (mt' & Em' & D' & R'). exists (mt ++ mt').
    rewrite Em', Em. rewrite (assoc_L (++)). split_and!; [done|by eapply dmove_trans|done].
  - destruct H as (Hs & mt' & B & D' & K'). split; [done|]. exists (mt ++ mt'), B. split; [by eapply dmove_trans|done].
Qed.

Lemma ready_dmove d σ mt σ' :
  ready d σ → dmove receiver mt σ σ' → kinv X (d_bufs d ++ Y) σ' → ready d σ'.
Proof.
  intros [K [ip Hp] Ha Hs Ho Hm] D K'. split; try done.
  - destruct (dm_self _ _ _ _ D ip Hp) as (ip' & H & _). by exists ip'.
  - by apply (dm_acct _ _ _ _ D).
  - destruct (frame_d_eqs _ _ (dm_frame _ _ _ _ D)) as (_ & _ & _ & _ & _ & _ & _ & _ & _ & ->).
    done.
Qed.

Lemma m_len_small : m_len p <= MAXMSG.
Proof. done. Qed.

(** size_t arithmetic on an offset inside the message is exact. *)
Lemma off_exact d σ k : ready d σ → 0 <= k < 2 ^ 32 → size_t σ (d_off d + k) = d_off d + k.
Proof.
  intros R Hk. pose proof (rd_off d σ R). pose proof (rd_sz d σ R) as Hs.
  pose proof m_len_small. unfold MAXMSG in *. apply wrap_small.
  pose proof (Z.pow_le_mono_r 2 33 (k_szbits σ) ltac:(lia) Hs). lia.
Qed.

Definition moved (k : Z) (d : dst) : dst := mkDst (d_off d + k) (d_bufs d) (d_mt d).

Lemma adv_run d σ k : ready d σ → 0 <= k < 2 ^ 32 → d_off d + k <= m_len p →
  lk (adv k d) σ = Ok (Val (moved k d), σ) ∧ ready (moved k d) σ.
Proof.
  intros R Hk Hl. split.
  - apply lk_val. unfold adv. rewrite bind_get, off_exact by done. done.
  - destruct R. split; try done. simpl. lia.
Qed.

Lemma past_run d σ k : ready d σ → 0 <= k < 2 ^ 32 →
  lk (past p k d) σ = Ok (Val (m_len p <? d_off d + k), σ).
Proof. intros R Hk. apply lk_val. unfold past. by rewrite bind_get, off_exact. Qed.

Lemma rd_run off k σ : 0 <= off → 0 <= k → off + k <= m_len p →
  lk (rd p off k) σ = Ok (Val (take (Z.to_nat k) (drop (Z.to_nat off) p)), σ).
Proof.
  intros H1 H2 H3. apply lk_val. unfold rd. destruct (Z.leb_spec 0 off); [|lia].
  by destruct (Z.leb_spec (off + k) (m_len p)); [|lia].
Qed.

Lemma field_range off k : 0 <= k → 0 <= le_val (take (Z.to_nat k) (drop off p)) < 256 ^ k.
Proof.
  intros Hk. assert (bytes_ok (take (Z.to_nat k) (drop off p))) as Hb.
  { apply Forall_take, Forall_drop, p_bytes. }
  pose proof (le_val_range _ Hb) as H. rewrite length_take in H.
  pose proof (Z.pow_le_mono_r 256 (Z.of_nat (Z.to_nat k `min` length (drop off p))) k
                ltac:(lia) ltac:(lia)). lia.
Qed.

Lemma rd_le_run d σ k : ready d σ → 0 <= k <= 8 →
  ∃ x, lk (rd_le p k d) σ = Ok (Val x, σ) ∧
    match x with
    | None => m_len p < d_off d + k
    | Some (z, d') => d' = moved k d ∧ ready d' σ ∧ 0 <= z < 256 ^ k
    end.
Proof.
  intros R Hk. pose proof (rd_off d σ R).
  assert (past p k d σ = Ok (m_len p <? d_off d + k, σ)) as Ep.
  { unfold past. rewrite bind_get, off_exact by (done || lia). done. }
  unfold rd_le. destruct (Z.ltb_spec (m_len p) (d_off d + k)).
  { exists None. split; [|done]. apply lk_val. by rewrite (bind_ok _ _ _ _ _ Ep). }
  destruct (adv_run d σ k R ltac:(lia) ltac:(lia)) as [_ R'].
  exists (Some (le_val (take (Z.to_nat k) (drop (Z.to_nat (d_off d)) p)), moved k d)).
  split; [|by split_and!; [..|apply field_range; lia|apply field_range; lia]].
  apply lk_val. rewrite (bind_ok _ _ _ _ _ Ep). cbv iota.
  rewrite (bind_ok _ _ σ (take (Z.to_nat k) (drop (Z.to_nat (d_off d)) p)) σ).
  2:{ unfold rd. destruct (Z.leb_spec 0 (d_off d)); [|lia].
      by destruct (Z.leb_spec (d_off d + k) (m_len p)); [|lia]. }
  unfold adv. rewrite bind_assoc, bind_get, bind_ret, off_exact by (done || lia). done.
Qed.

(** The same handles and the same state: a later offset. *)
Lemma runs_moved m d d1 σ : d_mt d1 = d_mt d → runs m d1 σ → runs m d σ.
Proof. intros E H. eapply runs_step; [by rewrite app_nil_r|apply dmove_refl|done]. Qed.

Lemma read_str_runs d σ : ready d σ → runs (read_str p d) d σ.
Proof.
  intros R. unfold read_str. destruct (rd_le_run d σ 4 R ltac:(lia)) as (x & E & Hx).
  unfold runs. rewrite (lbind_val _ _ _ _ _ E). destruct x as [[n d1]|].
  2:{ by apply runs_ret. }
  destruct Hx as (-> & R1 & Hn). change (256 ^ 4) with (2 ^ 32) in Hn.
  rewrite (lbind_val _ _ _ _ _ (past_run _ σ n R1 Hn)).
  destruct (Z.ltb_spec (m_len p) (d_off (moved 4 d) + n)).
  { eapply runs_moved; [|by apply runs_ret]. done. }
  pose proof (rd_off _ _ R1).
  rewrite (lbind_val _ _ _ _ _ (rd_run (d_off (moved 4 d)) n σ ltac:(lia) ltac:(lia) ltac:(lia))).
  destruct (adv_run (moved 4 d) σ n R1 Hn ltac:(lia)) as [E2 R2].
  rewrite (lbind_val _ _ _ _ _ E2). eapply runs_moved; [|by apply runs_ret]. done.
Qed.

Lemma charge_run (q : nat) n σ : is_Some (k_acct σ !! q) →
  ∃ (b : bool) (a : acct), kbuf_charge q n σ = Ok (b, set_k_acct (if b then <[q := a]> (k_acct σ) else k_acct σ) σ).
Proof.
  intros [a Ha]. unfold kbuf_charge.
  rewrite (bind_ok _ _ σ a σ) by (unfold get_acct; by rewrite Ha). rewrite bind_get.
  destruct (_ && _); [exists false, a|exists true]; [by destruct σ|eexists; done].
Qed.

Lemma dmove_acct q (f : gmap nat acct) m σ : (∀ r, is_Some (k_acct σ !! r) → is_Some (f !! r)) → (k_next σ <= m)%nat →
  dmove q [] σ (set_k_next m (set_k_acct f σ)).
Proof.
  intros Hf Hm. split; try done.
  - intros q' pt H. exists pt. by split_and!.
  - intros ip H. exists ip. split_and!; [done|by apply minted_same|done..].
Qed.

(** Taking a buffer, or being refused it. *)
Lemma luabuf_give_run c n σ : is_Some (k_acct σ !! receiver) →
  ∃ u σ', luabuf_give receiver c n σ = Ok (u, σ') ∧ dmove receiver [] σ σ' ∧
    ∀ B, kinv X B σ → kinv X B σ'.
Proof.
  intros Ha. destruct (charge_run receiver n σ Ha) as (b & a & E). unfold luabuf_give.
  rewrite (bind_ok _ _ _ _ _ E). destruct b; cbn [negb].
  - rewrite bind_get, bind_modify. eexists _, _. split; [done|]. split.
    + apply dmove_acct; [|simpl; lia]. intros r Hr. destruct (decide (r = receiver)) as [->|].
      * by rewrite lookup_insert_eq.
      * by rewrite lookup_insert_ne.
    + intros B K. eapply kinv_ext; [exact K|try done; simpl; lia..].
  - exists None, σ. split; [by destruct σ|]. split; [apply dmove_refl|done].
Qed.

Lemma bufs_n_cleared c (l : msgbufs) i n e :
  l !! i = Some e → bufs_n c (<[i := (None, n)]> l ++ Y) <= bufs_n c (l ++ Y).
Proof.
  intros H. unfold bufs_n. rewrite !zsum_app, (zsum_insert _ _ _ _ _ H).
  unfold chunk1 at 3. rewrite bool_decide_false by done. simpl.
  unfold chunk1 at 2. pose proof (b2z_range (bool_decide (fst e = Some c))). lia.
Qed.

Lemma denied_run σ B : is_Some (k_procs σ !! receiver) → kinv X B σ →
  ∃ σ', upd_iproc receiver (set_ip_bufdenied true) σ = Ok (tt, σ') ∧ dmove receiver [] σ σ' ∧ kinv X B σ'.
Proof.
  intros [ip Hp] K. exists (puti receiver (set_ip_bufdenied true ip) σ).
  split; [by apply upd_iproc_eq|]. split.
  - split; try done.
    + intros q pt H. exists pt. by split_and!.
    + intros p' Hne. simpl. by rewrite lookup_insert_ne.
    + intros ip0 H. simplify_eq. eexists. simpl. rewrite lookup_insert_eq.
      split; [done|]. split; [by apply minted_same|done].
  - eapply kinv_puti; [exact K|exact Hp| |destruct (ki_proc X B σ K _ _ Hp) as [[? ?] ? ? ? ?]; by repeat (split; try assumption)|done..].
    eapply refs_ok_proc; [apply K|exact Hp|done| |apply (ki_refs X B σ K)].
    intros r Hr Hu. by eapply (ro_held X σ (ki_refs X B σ K)).
Qed.

Lemma read_buf_runs d σ : ready d σ → runs (read_buf p receiver d) d σ.
Proof.
  intros R. unfold read_buf. pose proof (rd_off _ _ R).
  destruct (Z.leb_spec (m_len p) (d_off d)); [by apply runs_ret|]. unfold runs.
  rewrite (lbind_val _ _ _ _ _ (rd_run (d_off d) 1 σ ltac:(lia) ltac:(lia) ltac:(lia))).
  destruct (adv_run d σ 1 R ltac:(lia) ltac:(lia)) as [E1 R1].
  rewrite (lbind_val _ _ _ _ _ E1). set (i := Z.to_nat _).
  destruct (d_bufs (moved 1 d) !! i) as [[[c|] n]|] eqn:Hi;
    [|by eapply runs_moved, runs_ret..].
  destruct (luabuf_give_run c n σ (rd_acct _ _ R)) as (u & σ1 & E & D & HK).
  rewrite (lbind_val _ _ _ _ _ (lk_val _ _ _ _ E)).
  pose proof (ready_dmove _ _ _ _ R1 D (HK _ (rd_kinv _ _ R1))) as R2.
  destruct u as [u|].
  - eapply runs_step; [by rewrite app_nil_r|exact D|]. eapply (runs_moved _ _ (mkDst _ _ _)); [done|].
    apply runs_ret. destruct R2 as [K2]. split; try done. cbn [d_bufs].
    eapply kinv_bufs; [|exact K2]. intros c'. by eapply bufs_n_cleared.
  - destruct (denied_run σ1 _ (rd_proc _ _ R2) (rd_kinv _ _ R2)) as (σ2 & E2 & D2 & K2).
    rewrite (lbind_val _ _ _ _ _ (lk_val _ _ _ _ E2)).
    eapply (runs_step _ _ _ ([] ++ [])); [by rewrite app_nil_r|by eapply dmove_trans|].
    eapply runs_moved, runs_ret; [done|]. by eapply ready_dmove.
Qed.

Lemma read_right_runs d σ : ready d σ → runs (read_right p receiver d) d σ.
Proof.
  intros R. unfold read_right, runs. pose proof (rd_off _ _ R).
  rewrite (lbind_val _ _ _ _ _ (past_run d σ 3 R ltac:(lia))).
  destruct (Z.ltb_spec (m_len p) (d_off d + 3)); [by apply runs_ret|].
  destruct (rd_le_run d σ 2 R ltac:(lia)) as (x & E & Hx).
  rewrite (lbind_val _ _ _ _ _ E). destruct x as [[pi d1]|]; [|by apply runs_ret].
  destruct Hx as (-> & R1 & Hpi). pose proof (rd_off _ _ R1). cbn [moved d_off] in *.
  rewrite (lbind_val _ _ _ _ _ (rd_run (d_off d + 2) 1 σ ltac:(lia) ltac:(lia) ltac:(lia))).
  destruct (adv_run (moved 2 d) σ 1 R1 ltac:(lia) ltac:(cbn [moved d_off]; lia)) as [E1 R2].
  rewrite (lbind_val _ _ _ _ _ E1), (lbind_val (lk st_get) _ σ σ σ) by done.
  destruct (Z.leb_spec (Z.of_nat (k_maxports σ)) pi); [by eapply runs_moved, runs_ret|].
  destruct (k_portv σ !! Z.to_nat pi) as [q|] eqn:Hq; [|by eapply runs_moved, runs_ret].
  destruct (Z.leb_spec MAXMSGRIGHTS (Z.of_nat (length (d_mt (moved 1 (moved 2 d))))));
    [by eapply runs_moved, runs_ret|].
  apply (ro_portv X σ (ki_refs _ _ _ (rd_kinv _ _ R))) in Hq as (pt & Hq & _).
  destruct (rd_proc _ _ R) as [ip Hp].
  set (recv := negb _).
  destruct (right_new_dmove X _ σ receiver q recv ip pt (rd_kinv _ _ R2) Hp Hq)
    as (h & σ1 & E2 & K2 & D & _).
  rewrite (lbind_val _ _ _ _ _ (lk_val _ _ _ _ E2)).
  pose proof (ready_dmove _ _ _ _ R2 D K2) as R3. destruct (Z.ltb_spec h 0).
  - eapply runs_step; [by rewrite app_nil_r|exact D|]. by eapply runs_moved, runs_ret.
  - eapply (runs_step _ _ _ [h] (mkDst (d_off d + 2 + 1) (d_bufs d) (d_mt d ++ [h]))); [done|exact D|].
    apply runs_ret. destruct R3. split; try done. cbn [d_mt moved] in *. rewrite length_app. simpl. lia.
Qed.

Lemma runs_bind m k d σ :
  runs m d σ → (∀ r d1 σ1, ready d1 σ1 → runs (k (r, d1)) d1 σ1) → runs (lbind m k) d σ.
Proof.
  intros (out & σ1 & E & H) Hk. destruct out as [[r d1]|e].
  - unfold runs. rewrite (lbind_val _ _ _ _ _ E). destruct H as (mt & Em & D & R).
    eapply runs_step; [exact Em|exact D|by apply Hk].
  - exists (Raise e), σ1. split; [|done]. unfold lbind. by rewrite (bind_ok _ _ _ _ _ E).
Qed.

Lemma runs_raise e d σ : (∃ tab k v, settable tab k v = None) → ready d σ → runs (lraise e) d σ.
Proof.
  intros Hs R. exists (Raise e), σ. split; [done|]. split; [done|]. exists [], (d_bufs d).
  split; [apply dmove_refl|apply R].
Qed.

Lemma pairs_runs des k :
  (∀ d σ, ready d σ → runs (des d) d σ) →
  ∀ tab d σ, ready d σ → runs (deserialize_pairs settable des k tab d) d σ.
Proof.
  intros Hdes. induction k as [|k IH]; intros tab d σ R; [by apply runs_ret|].
  apply runs_bind; [by apply Hdes|]. intros [rc|key] d1 σ1 R1; [by apply runs_ret|].
  apply runs_bind; [by apply Hdes|]. intros [rc|v] d2 σ2 R2; [by apply runs_ret|].
  destruct (settable tab key v) eqn:Es; [by apply IH|]. apply runs_raise; [by exists tab, key, v|done].
Qed.

Lemma num_runs k f d σ : ready d σ → 0 <= k <= 8 →
  runs (do! x := lk (rd_le p k d) in
        match x with None => dfail (-1) d | Some (z, d) => dval (f z) d end) d σ.
Proof.
  intros R Hk. unfold runs. destruct (rd_le_run d σ k R Hk) as (x & E & Hx).
  rewrite (lbind_val _ _ _ _ _ E). destruct x as [[z d1]|]; [|by apply runs_ret].
  destruct Hx as (-> & R1 & _). by eapply runs_moved, runs_ret.
Qed.

Lemma tag_runs des tag d σ :
  (∀ d σ, ready d σ → runs (des d) d σ) → ready d σ →
  runs (deserialize_tag settable p des receiver tag d) d σ.
Proof.
  intros Hdes R. unfold deserialize_tag.
  repeat match goal with
         | |- runs (if ?b then _ else _) _ _ => destruct b
         end; try (by apply runs_ret); try (apply num_runs; [done|lia]).
  - by apply read_str_runs.
  - unfold runs. destruct (rd_le_run d σ 4 R ltac:(lia)) as (x & E & Hx).
    rewrite (lbind_val _ _ _ _ _ E). destruct x as [[z d1]|]; [|by apply runs_ret].
    destruct Hx as (-> & R1 & _). destruct (_ <? z).
    + by eapply runs_moved, runs_ret.
    + eapply runs_moved, pairs_runs; done.
  - by apply read_buf_runs.
  - by apply read_right_runs.
Qed.

Lemma checkstack_amove σ : ∃ b σ', lk lua_checkstack σ = Ok (Val b, σ') ∧ amove σ σ'.
Proof.
  destruct (amove_alloc σ) as [Ha Hf]. unfold lua_checkstack, lk.
  destruct (k_mem σ (k_nalloc σ)) eqn:Em.
  - exists true, (alloc_st σ). split; [|done].
    by rewrite bind_assoc, (bind_ok _ _ σ (Some (k_next σ)) (alloc_st σ)) by by rewrite malloc_eq, Em.
  - exists false, (failed_st σ). split; [|done].
    by rewrite bind_assoc, (bind_ok _ _ σ None (failed_st σ)) by by rewrite malloc_eq, Em.
Qed.

(** Whatever the bytes, the walk stays inside them and leaves a whole kernel. *)
Lemma deserialize_runs n : ∀ d σ, ready d σ → runs (deserialize settable p n receiver d) d σ.
Proof.
  induction n as [|n IH]; intros d σ R; [by apply runs_ret|]. cbn [deserialize]. unfold runs.
  destruct (checkstack_amove σ) as (ok & σ1 & E & A). rewrite (lbind_val _ _ _ _ _ E).
  apply (dmove_amove receiver) in A as D.
  assert (ready d σ1) as R1 by (eapply ready_dmove; [done..|]; eapply amove_kinv; [done|apply R]).
  eapply runs_step; [by rewrite app_nil_r|exact D|]. clear E A D R σ.
  destruct ok; cbn [negb]; [|by apply runs_ret]. pose proof (rd_off _ _ R1).
  destruct (Z.leb_spec (m_len p) (d_off d)); [by apply runs_ret|]. unfold runs.
  rewrite (lbind_val _ _ _ _ _ (rd_run (d_off d) 1 σ1 ltac:(lia) ltac:(lia) ltac:(lia))).
  destruct (adv_run d σ1 1 R1 ltac:(lia) ltac:(lia)) as [E2 R2].
  rewrite (lbind_val _ _ _ _ _ E2). eapply runs_moved, tag_runs; done.
Qed.

End any_bytes.

(** * Giving back what a failed walk minted *)

Lemma right_gone_used h r ip i x :
  proc_ok ip → right_slot ip h = Some r →
  used_at (right_gone h r ip) i x ↔ used_at ip i x ∧ i ≠ h.
Proof.
  intros Hok Hs. destruct (right_gone_frame h r ip) as (_ & ES & _).
  pose proof (pr_tab _ Hok) as T. unfold used_at. rewrite ES. split.
  - intros [Hi Hu]. destruct (right_slot_put _ _ _ _ _ _ T Hs Hi) as [[-> ->]|[Hne Hi']]; done.
  - intros [[Hi Hu] Hne]. split; [|done].
    destruct (put_right_all ip h (set_r_used false r) r T Hs) as [E T'].
    rewrite right_slot_all by done. rewrite E.
    pose proof (right_slot_range _ _ _ Hs). pose proof (right_slot_range _ _ _ Hi).
    rewrite list_lookup_insert_ne by lia. by rewrite <-right_slot_all.
Qed.

(** [σ'] is [σ] with the rights in the slots [mt] of [p] given up. *)
Definition undone (rk : nat → nat) (X : list (nat * bool)) (Y : msgbufs) (p : nat) (mt : list Z)
    (σ σ' : kst) : Prop :=
  kinv X Y σ' ∧ ranked rk σ' ∧ base σ' = base σ ∧ uwake (λ _, True) σ σ' ∧
  (∀ p, blocked σ' p → blocked σ p) ∧
  ∀ ip, k_procs σ !! p = Some ip → ∃ ip', k_procs σ' !! p = Some ip' ∧
    ip_waiters ip' = ip_waiters ip ∧ ∀ i r, used_at ip' i r ↔ used_at ip i r ∧ i ∉ mt.

Lemma kinv_rhint X Y σ p ip h :
  kinv X Y σ → k_procs σ !! p = Some ip → 0 <= h → kinv X Y (puti p (set_ip_rhint h ip) σ).
Proof.
  intros K Hp Hh.
  eapply kinv_puti; [exact K|exact Hp| |by destruct (ki_proc X Y σ K _ _ Hp) as [[? ?] ? ? ? ?];
                                        repeat (split; try assumption)|done..].
  eapply refs_ok_proc; [apply K|exact Hp|done| |apply (ki_refs X Y σ K)].
  intros r Hr Hu. by eapply (ro_held X σ (ki_refs X Y σ K)).
Qed.

Lemma undone_rhint rk X Y p ip h σ :
  kinv X Y σ → ranked rk σ → k_procs σ !! p = Some ip → 0 <= h →
  ∃ σ', upd_iproc p (λ ip, if h <? ip_rhint ip then set_ip_rhint h ip else ip) σ = Ok (tt, σ') ∧
    undone rk X Y p [] σ σ'.
Proof.
  intros K Hr Hp Hh. rewrite (upd_iproc_eq p ip) by done. eexists. split; [done|].
  assert (kinv X Y (puti p (if h <? ip_rhint ip then set_ip_rhint h ip else ip) σ)) as K'.
  { destruct (h <? ip_rhint ip); [by apply kinv_rhint|]. unfold puti. rewrite insert_id by done.
    by destruct σ. }
  split_and!; try done; [by intros q _ H|]. intros ip0 H. simplify_eq. simpl. rewrite lookup_insert_eq.
  eexists. split; [done|]. destruct (h <? ip_rhint ip); (split; [done|]); intros i r;
    (split; [intros H; split; [exact H|by apply not_elem_of_nil]|by intros [H _]]).
Qed.

Lemma undone_trans rk X Y p mt mt' σ1 σ2 σ3 :
  undone rk X Y p mt σ1 σ2 → undone rk X Y p mt' σ2 σ3 → undone rk X Y p (mt ++ mt') σ1 σ3.
Proof.
  intros (_ & _ & A1 & A2 & A3 & A4) (K & R & B1 & B2 & B3 & B4).
  split_and!; [done|done|congruence| |auto|].
  - intros q Hq H. by apply B2, A2.
  - intros ip H. destruct (A4 ip H) as (ip1 & H1 & W1 & U1). destruct (B4 ip1 H1) as (ip2 & H2 & W2 & U2).
    exists ip2. split_and!; [done|congruence|]. intros i r. rewrite U2, U1, elem_of_app. tauto.
Qed.

Lemma minted_one_spec rk X Y σ p ip h :
  kinv X Y σ → ranked rk σ → ipcheld σ = true → k_procs σ !! p = Some ip → ip_waiters ip = [] →
  0 <= h → ∃ σ', minted_one p h σ = Ok (tt, σ') ∧ undone rk X Y p [h] σ σ'.
Proof.
  intros K Hr Hl Hp Hw Hh. unfold minted_one. rewrite (bind_get_iproc p ip) by done.
  destruct (right_slot ip h) as [r|] eqn:Hs; [destruct (r_used r) eqn:Hu|].
  - rewrite bind_when_true by done.
    destruct (right_drop_spec rk X Y σ p ip h r) as (σ1 & w & E & K1 & R1 & B1 & P1 & W1 & L1); try done.
    rewrite (bind_ok _ _ _ _ _ E).
    destruct (undone_rhint rk X Y p _ h σ1 K1 R1 P1 Hh) as (σ2 & E2 & U2).
    exists σ2. split; [done|]. change [h] with ([h] ++ []). eapply undone_trans; [|exact U2].
    split_and!; try done. intros ip0 H. simplify_eq. eexists. split; [exact P1|].
    split; [apply right_gone_frame|]. intros i x.
    rewrite list_elem_of_singleton, <-(right_gone_used h r ip i x (ki_proc X Y σ K p ip Hp) Hs). done.
  - rewrite bind_when_false by done.
    destruct (undone_rhint rk X Y p _ h σ K Hr Hp Hh) as (σ2 & E2 & K2 & R2 & B2 & W2 & L2 & P2).
    exists σ2. split; [done|]. split_and!; try done. intros ip0 H. destruct (P2 ip0 H) as (ip2 & H2 & Ew & U).
    exists ip2. split_and!; [done|done|]. intros i x. rewrite U, list_elem_of_singleton.
    simplify_eq. split; [|intros [? ?]; split; [done|by apply not_elem_of_nil]].
    intros [[Hi Hx] _]. split; [done|]. intros ->. congruence.
  - rewrite bind_ret.
    destruct (undone_rhint rk X Y p _ h σ K Hr Hp Hh) as (σ2 & E2 & K2 & R2 & B2 & W2 & L2 & P2).
    exists σ2. split; [done|]. split_and!; try done. intros ip0 H. destruct (P2 ip0 H) as (ip2 & H2 & Ew & U).
    exists ip2. split_and!; [done|done|]. intros i x. rewrite U, list_elem_of_singleton.
    simplify_eq. split; [|intros [? ?]; split; [done|by apply not_elem_of_nil]].
    intros [[Hi Hx] _]. split; [done|]. intros ->. congruence.
Qed.

Lemma undone_refl rk X Y p σ : kinv X Y σ → ranked rk σ → undone rk X Y p [] σ σ.
Proof.
  intros K Hr. split_and!; try done; [by intros q _ H|]. intros ip0 H. exists ip0.
  split_and!; [done..|]. intros i r. split; [|tauto].
  intros H0. split; [done|by apply not_elem_of_nil].
Qed.

Lemma minted_iter_spec rk X Y p mt :
  ∀ σ ip, kinv X Y σ → ranked rk σ → ipcheld σ = true → k_procs σ !! p = Some ip →
  ip_waiters ip = [] → Forall (λ h, 0 <= h) mt →
  ∃ σ', st_iter (minted_one p) mt σ = Ok (tt, σ') ∧ undone rk X Y p mt σ σ'.
Proof.
  induction mt as [|h mt IH]; intros σ ip K Hr Hl Hp Hw Hm.
  { exists σ. split; [done|]. by apply undone_refl. }
  apply Forall_cons in Hm as [Hh Hm].
  destruct (minted_one_spec rk X Y σ p ip h K Hr Hl Hp Hw Hh) as (σ1 & E1 & U1).
  pose proof U1 as (K1 & R1 & B1 & _ & _ & P1).
  destruct (P1 ip Hp) as (ip1 & Hp1 & Ew1 & _).
  destruct (IH σ1 ip1) as (σ2 & E2 & U2); try done; [|congruence|].
  { by rewrite (ipcheld_base σ σ1). }
  exists σ2. split; [simpl; by rewrite (bind_ok _ _ _ _ _ E1)|].
  change (h :: mt) with ([h] ++ mt). by eapply undone_trans.
Qed.

Lemma undone_ipc rk X Y p mt l l' σ σ' :
  undone rk X Y p mt (with_ipc l σ) σ' → k_ipc σ = l' → undone rk X Y p mt σ (with_ipc l' σ').
Proof.
  intros (K & R & B & W & L & P) Hl. split_and!; try done.
  - by apply kinv_ipc.
  - unfold base in *. simpl in *. injection B. intros. congruence.
Qed.

Lemma minted_undo_spec rk X Y p mt σ ip :
  kinv X Y σ → ranked rk σ → lockable σ → k_procs σ !! p = Some ip → ip_waiters ip = [] →
  Forall (λ h, 0 <= h) mt →
  ∃ σ', minted_undo p mt σ = Ok (tt, σ') ∧ undone rk X Y p mt σ σ'.
Proof.
  intros K Hr Hu Hp Hw Hm. unfold minted_undo.
  destruct (minted_iter_spec rk X Y p mt (with_ipc (List.map S (k_ipc σ)) σ) ip)
    as (σ1 & E & U); try done; [by apply kinv_ipc|by eapply entered_ipcheld|].
  destruct mt as [|h mt].
  { exists σ. split; [done|]. by apply undone_refl. }
  rewrite (bind_ok _ _ _ _ _ (enter_any σ Hu)), (bind_ok _ _ _ _ _ E).
  exists (with_ipc (k_ipc σ) σ1). split.
  - apply leave_any; [done|]. destruct U as (_ & _ & Hb & _). unfold base in Hb. by injection Hb.
  - by eapply undone_ipc.
Qed.

(** * The queues, as a walk leaves them *)

Lemma dmove_queues_kept p mt σ σ' : dmove p mt σ σ' → queues_kept σ σ'.
Proof.
  intros D q pt Hq _. destruct (dm_port _ _ _ _ D q pt Hq) as (pt' & H & _ & _ & _ & ? & ? & ?). by exists pt'.
Qed.

(** * The writer on any value *)

Inductive has_user (u : ubuf) : lv → Prop :=
| hu_self : has_user u (LUser u)
| hu_key kv k v : (k, v) ∈ kv → has_user u k → has_user u (LTab kv)
| hu_val kv k v : (k, v) ∈ kv → has_user u v → has_user u (LTab kv).

Lemma rawget_user kv key u : rawget_str kv key = LUser u → has_user u (LTab kv).
Proof.
  intros H. assert (∃ k, (k, LUser u) ∈ kv) as [k Hk].
  { induction kv as [|[k v] kv IH]; [done|]. cbn [rawget_str] in H.
    assert (v = LUser u ∨ rawget_str kv key = LUser u) as [->|H'].
    { destruct k; auto. destruct (list_eqb s key); auto. }
    - exists k. left.
    - destruct (IH H') as [k' ?]. exists k'. by right. }
  by eapply hu_val; [exact Hk|constructor].
Qed.

(** A size_t that holds a message and a word. *)
Definition szwide (bits : Z) : Prop := MAXMSG + 8 < 2 ^ bits.

Lemma room_small bits (s : list Z) : szwide bits → (length s <= 8)%nat → room bits s.
Proof. unfold szwide, room. lia. Qed.

(** The strings and buffers of a value. *)
Inductive has_bytes (s : list Z) : lv → Prop :=
| hb_str : has_bytes s (LStr s)
| hb_user u : ub_bytes u = s → has_bytes s (LUser u)
| hb_key kv k v : (k, v) ∈ kv → has_bytes s k → has_bytes s (LTab kv)
| hb_val kv k v : (k, v) ∈ kv → has_bytes s v → has_bytes s (LTab kv).

(** A value that fits a machine of [bits]-bit addresses with a message beside it. *)
Definition fits (bits : Z) (v : lv) : Prop := szwide bits ∧ ∀ s, has_bytes s v → room bits s.

Section any_value.
Context (sender : nat) (ip : iproc) (V : gmap nat nat) (bits : Z).
Context (X : list (nat * bool)) (Y : msgbufs) (P : ubuf → Prop).

(** A reference to a port the sender holds a right to, of the same kind. *)
Definition held_ref (ref : nat * bool) : Prop :=
  ∃ h r, used_at ip h r ∧ r_recv r = snd ref ∧ V !! fst ref = Some (r_port r).
(** Storage of a buffer that may be given, and the handle to detach it by. *)
Definition lent (b : option nat * Z) (handle : nat) : Prop :=
  ∃ u c, P u ∧ luabuf_borrow (LUser u) = Some (c, snd b, handle) ∧ fst b = Some c.

Record wext (w w' : wbuf) : Prop := mkWext {
  we_len : (length (w_data w) <= length (w_data w'))%nat;
  we_refs : ∃ l, w_refs w' = w_refs w ++ l ∧ Forall held_ref l;
  we_bufs : ∃ nb no, w_bufs w' = w_bufs w ++ nb ∧ w_own w' = w_own w ++ no ∧ Forall2 lent nb no
}.

Record wgood (w : wbuf) : Prop := mkWgood {
  wg_ok : wbuf_ok w;
  wg_refs : Z.of_nat (length (w_refs w)) <= MAXMSGRIGHTS;
  wg_bufs : Z.of_nat (length (w_bufs w)) <= MAXMSGBUFS;
  wg_own : NoDup (w_own w)
}.

Record writing (w : wbuf) (σ : kst) : Prop := mkWriting {
  wr_kinv : kinv (w_refs w ++ X) Y σ;
  wr_proc : k_procs σ !! sender = Some ip;
  wr_portv : k_portv σ = V;
  wr_bits : k_szbits σ = bits;
  wr_good : wgood w
}.

Definition smove (σ σ' : kst) : Prop :=
  dmove 0 [] σ σ' ∧ k_procs σ' = k_procs σ ∧ k_acct σ' = k_acct σ.

Lemma smove_amove σ σ' : amove σ σ' → smove σ σ'.
Proof. intros A. split; [by apply dmove_amove|]. by destruct A as (a & n & -> & _). Qed.

Lemma smove_trans σ1 σ2 σ3 : smove σ1 σ2 → smove σ2 σ3 → smove σ1 σ3.
Proof.
  intros (A1 & A2 & A3) (B1 & B2 & B3). split; [|split; congruence].
  change [] with (@nil Z ++ []). by eapply dmove_trans.
Qed.

Lemma wext_refl w : wext w w.
Proof. split; [done|exists []|exists [], []]; by rewrite ?app_nil_r. Qed.

Lemma wext_trans w1 w2 w3 : wext w1 w2 → wext w2 w3 → wext w1 w3.
Proof.
  intros [H1 (l & El & Fl) (b & o & Eb & Eo & Fb)] [H2 (l' & El' & Fl') (b' & o' & Eb' & Eo' & Fb')].
  split; [lia|..].
  - exists (l ++ l'). rewrite El', El, (assoc_L (++)). split; [done|by apply Forall_app].
  - exists (b ++ b'), (o ++ o'). rewrite Eb', Eb, Eo', Eo, !(assoc_L (++)).
    split_and!; [done..|by apply Forall2_app].
Qed.

Definition wpost (w : wbuf) (σ : kst) (out : lout (Z * wbuf)) (σ' : kst) : Prop :=
  match out with
  | Val (_, w') => wext w w' ∧ smove σ σ' ∧ writing w' σ'
  | Raise e => smove σ σ' ∧ e = "buffer has been given away"%string ∧ (∃ u, P u ∧ ub_chunk u = None) ∧
      ∃ l, Forall held_ref l ∧ kinv ((w_refs w ++ l) ++ X) Y σ'
  end.
Definition wruns (m : LM (Z * wbuf)) (w : wbuf) (σ : kst) : Prop :=
  ∃ out σ', m σ = Ok (out, σ') ∧ wpost w σ out σ'.
Definition kruns (m : KM (Z * wbuf)) (w : wbuf) (σ : kst) : Prop :=
  ∃ rc w' σ', m σ = Ok ((rc, w'), σ') ∧ wext w w' ∧ smove σ σ' ∧ writing w' σ'.

Lemma writing_amove w σ σ' : amove σ σ' → writing w σ → writing w σ'.
Proof.
  intros A [K Hp Hv Hsz Hg]. pose proof (amove_kinv _ _ _ _ A K).
  destruct A as (a & n & -> & _). by split.
Qed.

Lemma kruns_ret rc w σ : writing w σ → kruns (st_ret (rc, w)) w σ.
Proof.
  intros H. exists rc, w, σ. split_and!; [done|apply wext_refl|apply smove_amove, amove_refl|done].
Qed.

Lemma wput_runs w src σ : writing w σ → room bits src → kruns (wput w src) w σ.
Proof.
  intros W Hrm. destruct W as [K Hp Hv Hsz Hg] eqn:EW. clear EW.
  destruct (wput_spec w src σ (wg_ok w Hg)) as (rc & w' & σ' & E & A & Hok & H); [by rewrite Hsz|].
  exists rc, w', σ'.
  assert (w_refs w' = w_refs w ∧ w_bufs w' = w_bufs w ∧ w_own w' = w_own w ∧
          (length (w_data w) <= length (w_data w'))%nat) as (Er & Eb & Eo & El).
  { destruct H as [[_ (E0 & ? & ? & ? & _)]|(_ & -> & _)]; [|done].
    rewrite E0, length_app. split_and!; try done. lia. }
  split_and!; [done| |by apply smove_amove|].
  - split; [done|exists []|exists [], []]; by rewrite ?app_nil_r.
  - apply (writing_amove _ _ _ A) in W as [K' ? ? ? ?]. split; try done; [by rewrite Er|].
    destruct Hg. split; congruence.
Qed.

Context (wide : szwide bits).

Lemma word_runs w src σ : writing w σ → (length src <= 8)%nat → kruns (wput w src) w σ.
Proof. intros W Hl. apply wput_runs; [done|by apply room_small]. Qed.

Lemma kruns_bind m k w σ :
  kruns m w σ → (∀ rc w1 σ1, writing w1 σ1 → kruns (k (rc, w1)) w1 σ1) → kruns (st_bind m k) w σ.
Proof.
  intros (rc & w1 & σ1 & E & X1 & S1 & W1) Hk. unfold kruns. rewrite (bind_ok _ _ _ _ _ E).
  destruct (Hk rc w1 σ1 W1) as (rc2 & w2 & σ2 & E2 & X2 & S2 & W2).
  exists rc2, w2, σ2. split_and!; [done|by eapply wext_trans|by eapply smove_trans|done].
Qed.

Lemma kruns_wthen rc k w σ : writing w σ → kruns (k w) w σ → kruns (wthen (rc, w) k) w σ.
Proof. intros W H. unfold wthen. cbn [fst snd]. destruct (rc =? 0); [done|by apply kruns_ret]. Qed.

Lemma write_str_runs w s σ : writing w σ → room bits s → kruns (write_str w s) w σ.
Proof.
  intros W Hrm. apply kruns_bind; [apply word_runs; [done|cbn; lia]|]. intros rc w1 σ1 W1.
  apply kruns_bind; [apply kruns_wthen, word_runs; [done|done|rewrite le_bytes_length; lia]|]. intros rc2 w2 σ2 W2.
  by apply kruns_wthen, wput_runs.
Qed.

Lemma bind_kruns {A} (m : KM A) (k : A → KM (Z * wbuf)) a w σ :
  m σ = Ok (a, σ) → kruns (k a) w σ → kruns (st_bind m k) w σ.
Proof. intros E H. unfold kruns. by rewrite (bind_ok _ _ _ _ _ E). Qed.

(** The reference joins the message as the counts go up. *)
Lemma take_ref_runs w σ q pt h r :
  writing w σ → used_at ip h r → r_port r = q → k_ports σ !! q = Some pt →
  Z.of_nat (length (w_refs w)) < MAXMSGRIGHTS →
  kruns (upd_port q (λ pt, set_pt_nrights (pt_nrights pt + 1) pt) ;;;
         st_when (r_recv r) (upd_port q (λ pt, set_pt_nrecv (pt_nrecv pt + 1) pt)) ;;;
         st_ret (0, mkWbuf (w_data w) (w_cap w) (w_refs w ++ [(pt_idx pt, r_recv r)])
                      (w_bufs w) (w_own w))) w σ.
Proof.
  intros [K Hp Hv Hsz Hg] Hu <- Hq Hn. set (w' := mkWbuf _ _ _ _ _).
  set (pt' := port_taken (r_recv r) pt).
  assert (kinv (w_refs w' ++ X) Y (put (r_port r) pt' σ)) as K'.
  { apply (kinv_perm ((pt_idx pt, r_recv r) :: w_refs w ++ X)).
    { cbn [w_refs w']. rewrite <-(assoc_L (++)). simpl. by rewrite Permutation_middle. }
    eapply kinv_put; [exact K|exact Hq| | |by unfold pt', port_taken; destruct (r_recv r)..].
    - apply (refs_take Hq); [apply K|by unfold pt', port_taken; destruct (r_recv r)..| |];
        unfold pt', port_taken; destruct (r_recv r); simpl; lia.
    - apply port_taken_ok. by apply (ki_port _ Y σ K (r_port r)). }
  exists 0, w', (put (r_port r) pt' σ). split_and!.
  - rewrite (bind_upd_port _ pt) by done. unfold pt', port_taken. destruct (r_recv r); [|done].
    rewrite bind_when_true by done.
    rewrite (bind_upd_port _ (set_pt_nrights (pt_nrights pt + 1) pt)) by (simpl; by rewrite lookup_insert_eq).
    unfold put. simpl. by rewrite insert_insert_eq.
  - split; [done|..].
    + exists [(pt_idx pt, r_recv r)]. split; [done|]. constructor; [|done]. exists h, r.
      split_and!; [done|done|]. cbn [fst]. rewrite <-Hv.
      apply (ro_portv _ σ (ki_refs _ _ _ K)). by exists pt.
    + exists [], []. by rewrite !app_nil_r.
  - split; [|done]. split; try done.
    + intros q' pt0 H. destruct (decide (q' = r_port r)) as [->|Hne]; simpl.
      * simplify_eq. rewrite lookup_insert_eq. eexists. split; [done|].
        unfold pt', port_taken. by destruct (r_recv r).
      * rewrite lookup_insert_ne by done. exists pt0. by split_and!.
    + intros q' H. simpl. rewrite lookup_insert_ne; [done|congruence].
    + intros ip0 H. exists ip0. split_and!; [done|by apply minted_same|done..].
  - split; try done. destruct Hg. split; try done. cbn [w_refs w']. rewrite length_app. simpl. lia.
Qed.

Lemma right_get_used h i r : right_get ip h = Some (i, r) → used_at ip i r.
Proof.
  unfold right_get, used_at. destruct (right_slot ip (to_int h)) as [r0|] eqn:E; [|done].
  destruct (r_used r0) eqn:Eu; [|done]. intros H. by simplify_eq.
Qed.

(** Steps that only write bytes. *)
Definition wsame (w w' : wbuf) : Prop :=
  w_refs w' = w_refs w ∧ w_bufs w' = w_bufs w ∧ w_own w' = w_own w ∧
  (length (w_data w) <= length (w_data w'))%nat ∧ wbuf_ok w'.
Definition pruns (m : KM (Z * wbuf)) (w : wbuf) (σ : kst) : Prop :=
  ∃ rc w' σ', m σ = Ok ((rc, w'), σ') ∧ amove σ σ' ∧ wsame w w'.

Lemma wput_pruns w src σ : wbuf_ok w → k_szbits σ = bits → (length src <= 8)%nat → pruns (wput w src) w σ.
Proof.
  intros Hok Hsz Hl. destruct (wput_spec w src σ Hok) as (rc & w' & σ' & E & A & Hok' & H);
    [rewrite Hsz; by apply room_small|].
  exists rc, w', σ'. split; [done|]. split; [done|]. unfold wsame.
  destruct H as [[_ (E0 & ? & ? & ? & _)]|(_ & -> & _)]; [|auto].
  rewrite E0, length_app. auto with lia.
Qed.

Lemma pruns_then m k w σ :
  pruns m w σ → (∀ w1 σ1, wbuf_ok w1 → k_szbits σ1 = k_szbits σ → pruns (k w1) w1 σ1) →
  pruns (let! r := m in wthen r k) w σ.
Proof.
  intros (rc & w1 & σ1 & E & A & (S1 & S2 & S3 & SL & S4)) Hk. unfold pruns.
  rewrite (bind_ok _ _ _ _ _ E). unfold wthen. cbn [fst snd]. destruct (rc =? 0).
  - destruct (Hk w1 σ1 S4) as (rc2 & w2 & σ2 & E2 & A2 & (T1 & T2 & T3 & TL & T4)); [by destruct A as (a & n & -> & _)|].
    exists rc2, w2, σ2. split; [done|]. split; [by eapply amove_trans|].
    unfold wsame. rewrite T1, T2, T3. auto with lia.
  - exists rc, w1, σ1. unfold wsame. auto 10.
Qed.

Lemma writing_same w w' σ : wsame w w' → writing w σ → writing w' σ.
Proof.
  intros (E1 & E2 & E3 & _ & E4) [K Hp Hv Hsz Hg]. split; try done; [by rewrite E1|].
  destruct Hg. split; congruence.
Qed.

Lemma wext_same w w' : wsame w w' → wext w w'.
Proof.
  intros (E1 & E2 & E3 & EL & _). split; [done|exists []|exists [], []]; rewrite ?app_nil_r; by split_and!.
Qed.

Lemma kruns_after m k w σ :
  writing w σ → pruns m w σ →
  (∀ w1 σ1, amove σ σ1 → wsame w w1 → writing w1 σ1 → kruns (k w1) w1 σ1) →
  kruns (let! r := m in wthen r k) w σ.
Proof.
  intros W (rc & w1 & σ1 & E & A & S1) Hk. unfold kruns. rewrite (bind_ok _ _ _ _ _ E).
  assert (writing w1 σ1) as W1 by by eapply writing_same, writing_amove.
  unfold wthen. cbn [fst snd]. destruct (rc =? 0).
  - destruct (Hk w1 σ1 A S1 W1) as (rc2 & w2 & σ2 & E2 & X2 & S2 & W2).
    exists rc2, w2, σ2. split_and!; [done|..|done].
    + eapply wext_trans; [by apply wext_same|done].
    + eapply smove_trans; [by apply smove_amove|done].
  - exists rc, w1, σ1. split_and!; [done|by apply wext_same|by apply smove_amove|done].
Qed.

Lemma kruns_ext m m' w σ : m σ = m' σ → kruns m w σ → kruns m' w σ.
Proof. intros E. unfold kruns. by rewrite E. Qed.

Lemma write_right_runs v w σ : writing w σ → kruns (write_right sender v w) w σ.
Proof.
  intros W. destruct v; try (by apply kruns_ret). unfold write_right.
  eapply bind_kruns; [unfold get_iproc; by rewrite (wr_proc _ _ W)|].
  destruct (right_get ip z) as [[i r]|] eqn:Hg; [|by apply kruns_ret].
  apply right_get_used in Hg as Hu.
  destruct (Z.leb_spec MAXMSGRIGHTS (Z.of_nat (length (w_refs w)))); [by apply kruns_ret|].
  destruct (ro_held _ σ (ki_refs _ _ _ (wr_kinv _ _ W)) sender ip r (wr_proc _ _ W)) as [pt Hq].
  { destruct Hu as [Hs Hr]. apply right_slot_elem in Hs;
      [|apply (ki_proc _ _ _ (wr_kinv _ _ W) sender ip (wr_proc _ _ W))].
    by eapply list_elem_of_lookup_2. }
  { apply Hu. }
  eapply bind_kruns; [unfold get_port; by rewrite Hq|].
  eapply kruns_ext; [by rewrite <-bind_assoc, <-bind_assoc|].
  apply kruns_after; [done| |].
  - pose proof (wr_bits _ _ W) as Hsz.
    apply pruns_then; [apply pruns_then; [apply wput_pruns; [apply (wg_ok _ (wr_good _ _ W))|done|cbn; lia]|]|]; intros; (apply wput_pruns; [done|congruence|cbn; lia]).
  - intros w1 σ1 A (E1 & _) W1. eapply take_ref_runs; [done|exact Hu|done| |by rewrite E1].
    by destruct A as (a & n & -> & _).
Qed.

Lemma write_buf_runs kv w σ :
  writing w σ → (∀ u, has_user u (LTab kv) → P u) →
  kruns (write_buf (rawget_str kv (bytes_of "__buf")) w) w σ.
Proof.
  intros W HP. unfold write_buf.
  destruct (luabuf_borrow (rawget_str kv (bytes_of "__buf"))) as [[[c n] handle]|] eqn:Hb;
    [|by apply kruns_ret].
  destruct (Z.leb_spec MAXMSGBUFS (Z.of_nat (length (w_bufs w)))); [by apply kruns_ret|].
  destruct (existsb (Nat.eqb handle) (w_own w)) eqn:Ho; [by apply kruns_ret|].
  eapply kruns_ext; [by rewrite <-bind_assoc|]. apply kruns_after; [done| |].
  { pose proof (wr_bits _ _ W) as Hsz. apply pruns_then; [apply wput_pruns; [apply (wg_ok _ (wr_good _ _ W))|done|cbn; lia]|]; intros; (apply wput_pruns; [done|congruence|cbn; lia]). }
  intros w1 σ1 A (E1 & E2 & E3 & _ & E4) W1. set (w' := mkWbuf _ _ _ _ _).
  exists 0, w', σ1. split_and!; [done| |apply smove_amove, amove_refl|].
  - split; [done|exists []; by rewrite app_nil_r|]. exists [(Some c, n)], [handle].
    split_and!; [done..|]. constructor; [|constructor].
    destruct (rawget_str kv (bytes_of "__buf")) as [| | | | | |u|] eqn:Eu; try done.
    exists u, c. split_and!; [|done|done]. apply HP. by eapply rawget_user.
  - destruct W1 as [K1 ? ? ? [? ? ? Hn]]. split; try done. split; try done.
    + cbn [w_bufs w']. rewrite length_app, E2. simpl. lia.
    + cbn [w_own w']. apply NoDup_app. split_and!; [done| |apply NoDup_singleton].
      intros x Hx Hin. apply list_elem_of_singleton in Hin as ->. rewrite E3 in Hx.
      apply not_true_iff_false in Ho. apply Ho, existsb_exists. exists handle.
      split; [by apply list_elem_of_In|apply Nat.eqb_refl].
Qed.

Lemma wruns_lk m w σ : kruns m w σ → wruns (lk m) w σ.
Proof. intros (rc & w' & σ' & E & H). exists (Val (rc, w')), σ'. split; [by apply lk_val|done]. Qed.

Lemma wruns_ret rc w σ : writing w σ → wruns (lret (rc, w)) w σ.
Proof. intros W. apply (wruns_lk (st_ret (rc, w))). by apply kruns_ret. Qed.

Lemma wruns_step m w σ w1 σ1 :
  wext w w1 → smove σ σ1 → wruns m w1 σ1 → ∃ out σ', m σ1 = Ok (out, σ') ∧ wpost w σ out σ'.
Proof.
  intros X1 S1 (out & σ' & E & H). exists out, σ'. split; [done|].
  destruct out as [[rc w']|e]; simpl in *.
  - destruct H as (X2 & S2 & W2). split; [by eapply wext_trans|]. split; [by eapply smove_trans|done].
  - destruct H as (S2 & He & Hu & l & Fl & K). split; [by eapply smove_trans|]. split_and!; [done..|].
    destruct X1 as [_ (l0 & El & Fl0) _]. exists (l0 ++ l). rewrite El, <-(assoc_L (++) (w_refs w)) in K.
    split; [by apply Forall_app|done].
Qed.

Lemma wruns_bind m k w σ :
  wruns m w σ → (∀ rc w1 σ1, writing w1 σ1 → wext w w1 → wruns (k (rc, w1)) w1 σ1) →
  wruns (lbind m k) w σ.
Proof.
  intros (out & σ1 & E & H) Hk. destruct out as [[rc w1]|e].
  - destruct H as (X1 & S1 & W1). unfold wruns. rewrite (lbind_val _ _ _ _ _ E).
    eapply wruns_step; [exact X1|exact S1|by apply Hk].
  - exists (Raise e), σ1. split; [|done]. unfold lbind. by rewrite (bind_ok _ _ _ _ _ E).
Qed.

(** The count is patched in place. *)
Definition counted (pos : nat) (w : wbuf) : Prop := (S pos + 4 <= length (w_data w))%nat.

Lemma patch_len pos n w : counted pos w → length (w_data (patch_count pos n w)) = length (w_data w).
Proof.
  unfold counted, patch_count. intros H. cbn [w_data set_w_data].
  rewrite !length_app, length_take, length_drop, le_bytes_length. lia.
Qed.

Lemma patch_runs pos n w σ : writing w σ → counted pos w → wruns (lret (0, patch_count pos n w)) w σ.
Proof.
  intros W Hc. assert (wsame w (patch_count pos n w)) as S.
  { unfold wsame, wbuf_ok, w_len. rewrite patch_len by done.
    split_and!; try done; apply (wg_ok _ (wr_good _ _ W)). }
  exists (Val (0, patch_count pos n w)), σ. split; [done|].
  split; [by apply wext_same|]. split; [apply smove_amove, amove_refl|by eapply writing_same].
Qed.

Lemma spairs_runs ser pos kv :
  (∀ k v w σ, (k, v) ∈ kv → writing w σ → wruns (ser k w) w σ ∧ wruns (ser v w) w σ) →
  ∀ cnt w σ, writing w σ → counted pos w → wruns (serialize_pairs ser pos kv cnt w) w σ.
Proof.
  intros Hser. induction kv as [|[k v] kv IH]; intros cnt w σ W Hc; [by apply patch_runs|].
  cbn [serialize_pairs].
  apply wruns_bind; [apply (Hser k v); [left|done]|]. intros rc w1 σ1 W1 X1. cbn [fst snd].
  destruct (negb (rc =? 0)); [by apply wruns_ret|].
  apply wruns_bind; [apply (Hser k v); [left|done]|]. intros rc2 w2 σ2 W2 X2. cbn [fst snd].
  destruct (negb (rc2 =? 0)); [by apply wruns_ret|]. apply IH; [|done|].
  - intros k' v' w' σ' Hin. apply Hser. by right.
  - unfold counted in *. pose proof (we_len _ _ X1). pose proof (we_len _ _ X2). lia.
Qed.

Lemma tab_head w σ : wbuf_ok w → k_szbits σ = bits →
  ∃ rc w1 σ1, (let! r := wbyte w tag_tab in wthen r (λ w, wput w (le_bytes 4 0))) σ = Ok ((rc, w1), σ1) ∧
    amove σ σ1 ∧ wsame w w1 ∧ (rc = 0 → counted (length (w_data w)) w1).
Proof.
  intros Hok Hsz. destruct (wput_spec w [u8 tag_tab] σ Hok) as (rc & w1 & σ1 & E & A & Hok1 & H);
    [rewrite Hsz; apply room_small; [done|cbn; lia]|].
  unfold wbyte. rewrite (bind_ok _ _ _ _ _ E). unfold wthen. cbn [fst snd].
  destruct H as [[-> (D1 & R1 & B1 & O1 & _)]|(-> & -> & _)].
  - cbn [Z.eqb]. destruct (wput_spec w1 (le_bytes 4 0) σ1 Hok1) as (rc2 & w2 & σ2 & E2 & A2 & Hok2 & H2).
    { destruct A as (a & n & -> & _). simpl. rewrite Hsz. apply room_small; [done|cbn; lia]. }
    exists rc2, w2, σ2. split; [done|]. split; [by eapply amove_trans|].
    unfold wsame, counted. destruct H2 as [[-> (D2 & R2 & B2 & O2 & _)]|(-> & -> & _)].
    + rewrite R2, B2, O2, D2, D1, !length_app, le_bytes_length. cbn [length].
      repeat match goal with |- _ ∧ _ => split end; try done; lia.
    + rewrite D1, length_app. cbn [length].
      repeat match goal with |- _ ∧ _ => split end; try done; lia.
  - change (-1 =? 0) with false. cbv iota. exists (-1), w, σ1. unfold wsame.
    repeat match goal with |- _ ∧ _ => split end; done.
Qed.

Lemma serialize_runs n : ∀ v w σ, (∀ u, has_user u v → P u) → (∀ s, has_bytes s v → room bits s) → writing w σ →
  wruns (serialize n sender v w) w σ.
Proof.
  induction n as [|n IH]; intros v w σ HP HB W; [by apply wruns_ret|]. cbn [serialize].
  destruct (checkstack_amove σ) as (ok & σ0 & E0 & A0). 
  assert (writing w σ0) as W0 by by eapply writing_amove.
  unfold wruns. rewrite (lbind_val _ _ _ _ _ E0).
  apply (wruns_step _ _ _ w); [by apply wext_refl|by apply smove_amove|].
  destruct ok; cbn [negb]; [|by apply wruns_ret].
  destruct v as [|b|z|z|x|kv|u|].
  - apply wruns_lk, word_runs; [done|cbn; lia].
  - apply wruns_lk, word_runs; [done|cbn; lia].
  - apply wruns_lk, kruns_bind; [apply word_runs; [done|cbn; lia]|]. intros. apply kruns_wthen, word_runs; [done|done|by rewrite le_bytes_length].
  - apply wruns_lk, kruns_bind; [apply word_runs; [done|cbn; lia]|]. intros. apply kruns_wthen, word_runs; [done|done|by rewrite le_bytes_length].
  - apply wruns_lk, write_str_runs; [done|apply HB; constructor].
  - destruct (rawget_str kv (bytes_of "__right")) eqn:Er; try by apply wruns_lk, write_right_runs.
    destruct (rawget_str kv (bytes_of "__buf")) eqn:Eb;
      try (rewrite <-Eb; by apply wruns_lk, write_buf_runs).
    destruct (tab_head w σ0 (wg_ok _ (wr_good _ _ W0)) (wr_bits _ _ W0)) as (rc & w1 & σ1 & E1 & A1 & S1 & C1).
    assert (writing w1 σ1) as W1 by by eapply writing_same, writing_amove.
    unfold wruns. rewrite (lbind_val _ _ _ _ _ (lk_val _ _ _ _ E1)). cbn [fst snd].
    apply (wruns_step _ _ _ w1); [by apply wext_same|by apply smove_amove|].
    destruct (Z.eqb_spec rc 0) as [->|]; cbn [negb]; [|by apply wruns_ret].
    apply spairs_runs; [|done|by apply C1]. intros k v w' σ' Hin W'.
    split; (apply IH; [intros u Hu; apply HP|intros x Hx; apply HB|done]);
      first [by eapply hu_key|by eapply hu_val|by eapply hb_key|by eapply hb_val].
  - unfold luabuf_bytes. destruct (ub_chunk u) eqn:Ec.
    + unfold wruns. rewrite (lbind_val _ _ _ _ _ eq_refl). apply wruns_lk, write_str_runs; [done|apply HB; by constructor].
    + eexists (Raise _), σ0. split; [done|]. split; [apply smove_amove, amove_refl|]. split; [done|].
      split; [exists u; split; [apply HP; constructor|done]|]. exists []. rewrite app_nil_r. split; [done|apply W0].
  - by apply wruns_ret.
Qed.

End any_value.
