(* ===== verification/Wire.v ===== *)
(** The wire format of src/src/serialize.c, as a grammar, and the reader against it: a
    value [deserialize] returns is the one the bytes spell, each right in it a handle of the
    receiver for the port and the kind of right the bytes name, each buffer one the message
    carries. *)

From S2P Require Import Prelude Clock Sched Ports PortInv KInv PortWake PortRef PortOps.
From S2P Require Import Serialize SerializeOk SerializeInv.
From stdpp Require Import prelude list gmap strings.
From Stdlib Require Import ZArith Lia.
Open Scope Z_scope.

(** * The grammar *)

#[local] Set Warnings "-register-all".

(** What a message spells: a right is a slot of the port table and its receive flag, a
    buffer a position among those the message carries. *)
Inductive wire : Type :=
| WNil
| WBool (b : bool)
| WInt (z : Z)
| WNum (z : Z)
| WStr (s : list Z)
| WTab (kv : list (wire * wire))
| WRight (pi : nat) (recv : bool)
| WBuf (i : nat).

(** The first [k] bytes as a number. *)
Definition wfield (k : nat) (l : list Z) : option (Z * list Z) :=
  if (length l <? k)%nat then None else Some (le_val (take k l), drop k l).

Section pairs.
Context (par : list Z → option (wire * list Z)).

Fixpoint parse_pairs (k : nat) (l : list Z) : option (list (wire * wire) * list Z) :=
  match k with
  | O => Some ([], l)
  | S k =>
      match par l with
      | None => None
      | Some (a, l) =>
          match par l with
          | None => None
          | Some (b, l) =>
              match parse_pairs k l with
              | None => None
              | Some (kv, l) => Some ((a, b) :: kv, l)
              end
          end
      end
  end.
End pairs.

(** What follows the tag; [par] is a value one level down. *)
Definition parse_tag (par : list Z → option (wire * list Z)) (tag : Z) (l : list Z) : option (wire * list Z) :=
  if tag =? tag_nil then Some (WNil, l)
  else if tag =? tag_true then Some (WBool true, l)
  else if tag =? tag_false then Some (WBool false, l)
  else if tag =? tag_int then
    match wfield 8 l with Some (z, l) => Some (WInt (sint 64 z), l) | None => None end
  else if tag =? tag_num then
    match wfield 8 l with Some (z, l) => Some (WNum z, l) | None => None end
  else if tag =? tag_str then
    match wfield 4 l with
    | Some (n, l) => if (length l <? Z.to_nat n)%nat then None else Some (WStr (take (Z.to_nat n) l), drop (Z.to_nat n) l)
    | None => None
    end
  else if tag =? tag_tab then
    match wfield 4 l with
    | Some (n, l) =>
        match parse_pairs par (Z.to_nat n) l with Some (kv, l) => Some (WTab kv, l) | None => None end
    | None => None
    end
  else if tag =? tag_buf then
    match wfield 1 l with Some (i, l) => Some (WBuf (Z.to_nat i), l) | None => None end
  else if tag =? tag_right then
    match wfield 2 l with
    | Some (pi, l) =>
        match wfield 1 l with Some (b, l) => Some (WRight (Z.to_nat pi) (negb (b =? 0)), l) | None => None end
    | None => None
    end
  else None.

(** A value of at most [n] levels, and what follows it. *)
Fixpoint parse (n : nat) (l : list Z) : option (wire * list Z) :=
  match n, l with
  | S n, tag :: l => parse_tag (parse n) tag l
  | _, _ => None
  end.

(** The rights a value names, in the order of the bytes. *)
Fixpoint rights_of (w : wire) : list (nat * bool) :=
  match w with
  | WRight pi recv => [(pi, recv)]
  | WTab kv =>
      (fix go kv := match kv with [] => [] | (a, b) :: kv => rights_of a ++ rights_of b ++ go kv end) kv
  | _ => []
  end.
Definition rights_of_pairs (kv : list (wire * wire)) : list (nat * bool) :=
  flat_map (λ p, rights_of (fst p) ++ rights_of (snd p)) kv.
Lemma rights_of_tab kv : rights_of (WTab kv) = rights_of_pairs kv.
Proof. induction kv as [|[a b] kv IH]; [done|]. cbn in *. by rewrite IH, <-(assoc_L (++)). Qed.

(** * What a receiver is shown *)

Section shown.
Context (settable : list (lv * lv) → lv → lv → option (list (lv * lv))).
(** The buffers the message carries, and the contents of the chunks. *)
Context (B : msgbufs) (mem : gmap nat (list Z)).

(** Buffer [i] of the message, in the receiver's hands. *)
Definition took (i : nat) (u : ubuf) : Prop :=
  ∃ c n, B !! i = Some (Some c, n) ∧ ub_chunk u = Some c ∧ ub_bytes u = default [] (mem !! c) ∧
    ub_ro u = false ∧ ub_owned u = true ∧ ub_views u = 0.

(** [v] is what the bytes spell, with the handles [mt] for its rights, in order. *)
Inductive shows : wire → list Z → lv → Prop :=
| sh_nil : shows WNil [] LNil
| sh_bool b : shows (WBool b) [] (LBool b)
| sh_int z : shows (WInt z) [] (LInt z)
| sh_num z : shows (WNum z) [] (LNum z)
| sh_str s : shows (WStr s) [] (LStr s)
| sh_right pi recv h : shows (WRight pi recv) [h] (LTab [(LStr (bytes_of "__right"), LInt h)])
| sh_buf i u : took i u → shows (WBuf i) [] (LUser u)
| sh_tab kv mt tab : shows_pairs [] kv mt tab → shows (WTab kv) mt (LTab tab)
with shows_pairs : list (lv * lv) → list (wire * wire) → list Z → list (lv * lv) → Prop :=
| sp_nil tab : shows_pairs tab [] [] tab
| sp_cons tab a b kv m1 m2 m3 k v tab1 tab2 :
    shows a m1 k → shows b m2 v → settable tab k v = Some tab1 → shows_pairs tab1 kv m3 tab2 →
    shows_pairs tab ((a, b) :: kv) (m1 ++ m2 ++ m3) tab2.
End shown.

(** Handle [h] is a right to the port of that slot, of that kind. *)
Definition right_at (ip : iproc) (V : gmap nat nat) (h : Z) (ref : nat * bool) : Prop :=
  ∃ r, used_at ip h r ∧ r_recv r = snd ref ∧ V !! fst ref = Some (r_port r).
Definition holds_right (receiver : nat) (σ : kst) (h : Z) (ref : nat * bool) : Prop :=
  ∃ ip, k_procs σ !! receiver = Some ip ∧ right_at ip (k_portv σ) h ref.

Lemma holds_right_dmove receiver mt σ σ' h ref :
  dmove receiver mt σ σ' → holds_right receiver σ h ref → holds_right receiver σ' h ref.
Proof.
  intros D (ip & Hp & r & Hu & Hr & Hv). destruct (dm_self _ _ _ _ D ip Hp) as (ip' & Hp' & (M & _) & _).
  exists ip'. destruct (frame_d_eqs _ _ (dm_frame _ _ _ _ D)) as (Ev & _). rewrite Ev.
  split; [done|]. exists r. split_and!; [by apply M|done..].
Qed.

(** The new right is in its slot. *)
Lemma right_new_holds X Y σ p q recv ip pt h σ' :
  kinv X Y σ → k_procs σ !! p = Some ip → k_ports σ !! q = Some pt → right_new p q recv σ = Ok (h, σ') → 0 <= h →
  holds_right p σ' h (pt_idx pt, recv).
Proof.
  intros K Hp Hq E Hh. destruct (right_new_spec X Y σ p q recv ip pt K Hp Hq) as (h' & σ1 & E' & K' & Hf & _ & Hm).
  rewrite E in E'. injection E' as <- <-. unfold right_made in Hm. destruct (Z.ltb_spec h 0); [lia|].
  destruct Hm as (_ & _ & ip0 & old & Hg & Hold & _ & Ep & _).
  destruct (grown_ok ip ip0 Hg (ki_proc X Y σ K p ip Hp)) as (Hok0 & _).
  destruct (right_taken_frame h q recv ip0) as (_ & Er & Ex & _).
  destruct (frame_r_d _ _ Hf) as [Hd _]. destruct (frame_d_eqs _ _ Hd) as (Ev & _).
  exists (right_taken h q recv ip0). rewrite Ep, lookup_insert_eq, Ev. split; [done|].
  exists (mkRight q recv true). cbn. split_and!; [|done|apply (ro_portv X σ (ki_refs _ _ _ K)); by exists pt].
  split; [|done]. destruct (put_right_all ip0 h (mkRight q recv true) old (pr_tab _ Hok0) Hold) as [E1 T].
  assert (right_slot (right_taken h q recv ip0) h = right_slot (put_right h (mkRight q recv true) ip0) h) as ->
    by (unfold right_slot; by rewrite Er, Ex).
  pose proof (right_slot_range _ _ _ Hold) as Hr. rewrite right_slot_all, E1 by done.
  destruct (Z.leb_spec 0 h), (Z.ltb_spec h MAXRIGHTS); [|lia..]. cbn [andb]. apply list_lookup_insert_eq.
  eapply lookup_lt_Some, right_slot_elem; [apply Hok0|exact Hold].
Qed.

(** * Running backwards *)

Lemma lbind_inv {A C} (m : LM A) (k : A → LM C) σ x σ' :
  lbind m k σ = Ok (Val x, σ') → ∃ a σ1, m σ = Ok (Val a, σ1) ∧ k a σ1 = Ok (Val x, σ').
Proof.
  unfold lbind, st_bind. destruct (m σ) as [[[a|e] σ1]|] eqn:E; [|by intros [=]..]. intros H. by exists a, σ1.
Qed.
Lemma lk_inv {A} (m : KM A) σ a σ' : lk m σ = Ok (Val a, σ') → m σ = Ok (a, σ').
Proof. unfold lk, st_bind, st_ret. destruct (m σ) as [[b σ1]|]; [|done]. by intros [= -> ->]. Qed.

(** * The reader *)

Section any_bytes.
Context (settable : list (lv * lv) → lv → lv → option (list (lv * lv))).
Context (p : list Z) (receiver : nat) (X : list (nat * bool)) (Y : msgbufs) (B : msgbufs) (mem : gmap nat (list Z)).
Hypothesis p_bytes : bytes_ok p.
Hypothesis p_small : Z.of_nat (length p) <= MAXMSG.

#[local] Abbreviation ready := (ready p receiver X Y).

(** The bytes still to read. *)
Definition remaining (d : dst) : list Z := drop (Z.to_nat (d_off d)) p.

(** The buffers left are of those the message carries. *)
Record rdy (d : dst) (σ : kst) : Prop := mkRdy {
  ry_ready : ready d σ;
  ry_mem : k_bytes σ = mem;
  ry_bufs : ∀ i c n, d_bufs d !! i = Some (Some c, n) → B !! i = Some (Some c, n)
}.

(** What has been read is [v], spelled as [par] reads it. *)
Definition spelled (par : list Z → option (wire * list Z)) (d : dst) (σ : kst) (v : lv) (d' : dst) (σ' : kst) : Prop :=
  rdy d' σ' ∧ ∃ w mt, par (remaining d) = Some (w, remaining d') ∧ d_mt d' = d_mt d ++ mt ∧ dmove receiver mt σ σ' ∧
    shows settable B mem w mt v ∧ Forall2 (holds_right receiver σ') mt (rights_of w).

Lemma remaining_length d σ : ready d σ → Z.of_nat (length (remaining d)) = m_len p - d_off d.
Proof. intros R. pose proof (rd_off _ _ _ _ _ _ R). unfold remaining, m_len. rewrite length_drop. unfold m_len in *. lia. Qed.
Lemma remaining_moved d σ k : ready d σ → 0 <= k → remaining (moved k d) = drop (Z.to_nat k) (remaining d).
Proof. intros R Hk. pose proof (rd_off _ _ _ _ _ _ R). unfold remaining. rewrite drop_drop. cbn. f_equal. lia. Qed.

Lemma rdy_moved k d σ : rdy d σ → ready (moved k d) σ → rdy (moved k d) σ.
Proof. intros [R M Bf] R'. by split. Qed.

Lemma rd_le_wfield d σ k x σ1 :
  rdy d σ → 0 <= k <= 8 → lk (rd_le p k d) σ = Ok (Val x, σ1) →
  σ1 = σ ∧ match x with
           | None => True
           | Some (z, d') => d' = moved k d ∧ rdy d' σ ∧ 0 <= z < 256 ^ k ∧ wfield (Z.to_nat k) (remaining d) = Some (z, remaining d')
           end.
Proof.
  intros Ry Hk E. pose proof (ry_ready _ _ Ry) as R.
  destruct (rd_le_run p receiver X Y p_bytes p_small d σ k R Hk) as (y & E' & Hy). rewrite E in E'. injection E' as Ex Es. subst y σ1.
  split; [done|]. destruct x as [[z d']|]; [|done]. destruct Hy as (-> & R' & Hz).
  split_and!; [done|by apply rdy_moved|lia|lia|].
  apply lk_inv in E. unfold rd_le, past, rd, adv in E. unfold st_bind, st_get, st_ret in E. cbn in E.
  destruct (m_len p <? size_t σ (d_off d + k)); [done|].
  destruct ((0 <=? d_off d) && (d_off d + k <=? m_len p)) eqn:Eb; [|done]. injection E as <- _.
  apply andb_true_iff in Eb as [_ Eb%Z.leb_le]. pose proof (remaining_length d σ R) as Hl.
  unfold wfield. destruct (Nat.ltb_spec (length (remaining d)) (Z.to_nat k)); [lia|]. by rewrite (remaining_moved d σ) by (done || lia).
Qed.

(** A value with no rights, read without touching the kernel. *)
Lemma spelled_leaf par d σ w v d' :
  rdy d' σ → d_mt d' = d_mt d → par (remaining d) = Some (w, remaining d') → shows settable B mem w [] v → rights_of w = [] →
  spelled par d σ v d' σ.
Proof.
  intros Ry Em Hp Hs Hr. split; [done|]. exists w, []. rewrite app_nil_r, Hr.
  split_and!; [done..|apply dmove_refl|done|constructor].
Qed.

Lemma read_str_spelled par d σ v d' σ' :
  rdy d σ → read_str p d σ = Ok (Val (inr v, d'), σ') → spelled (parse_tag par tag_str) d σ v d' σ'.
Proof.
  intros Ry E. apply lbind_inv in E as (x & σ1 & E1 & E). apply rd_le_wfield in E1 as [-> Hx]; [|done|lia].
  destruct x as [[n d1]|]; [|done]. destruct Hx as (-> & Ry1 & Hn & Hf). change (256 ^ 4) with (2 ^ 32) in Hn.
  pose proof (ry_ready _ _ Ry1) as R1. pose proof (rd_off _ _ _ _ _ _ R1) as Ho.
  rewrite (lbind_val _ _ _ _ _ (past_run p receiver X Y p_small _ σ n R1 Hn)) in E.
  destruct (Z.ltb_spec (m_len p) (d_off (moved 4 d) + n)); [done|].
  rewrite (lbind_val _ _ _ _ _ (rd_run p (d_off (moved 4 d)) n σ ltac:(lia) ltac:(lia) ltac:(lia))) in E.
  destruct (adv_run p receiver X Y p_small (moved 4 d) σ n R1 Hn ltac:(lia)) as [E2 R2].
  rewrite (lbind_val _ _ _ _ _ E2) in E. injection E as <- <- <-. pose proof (remaining_length _ _ R1) as Hl.
  eapply spelled_leaf; [by apply rdy_moved|done| |constructor|done].
  cbn [parse_tag Z.eqb Pos.eqb tag_nil tag_true tag_false tag_int tag_num tag_str]. change (Z.to_nat 4) with 4%nat in Hf. rewrite Hf.
  destruct (Nat.ltb_spec (length (remaining (moved 4 d))) (Z.to_nat n)); [lia|]. by rewrite (remaining_moved (moved 4 d) σ) by (done || lia).
Qed.

Lemma num_spelled k (f : Z → lv) (g : Z → wire) par d σ v d' σ' :
  rdy d σ → 0 <= k <= 8 → (∀ z, shows settable B mem (g z) [] (f z)) → (∀ z, rights_of (g z) = []) →
  (∀ l, par l = match wfield (Z.to_nat k) l with Some (z, l) => Some (g z, l) | None => None end) →
  (do! x := lk (rd_le p k d) in match x with None => dfail (-1) d | Some (z, d) => dval (f z) d end) σ = Ok (Val (inr v, d'), σ') →
  spelled par d σ v d' σ'.
Proof.
  intros Ry Hk Hs Hr Hp E. apply lbind_inv in E as (x & σ1 & E1 & E). apply rd_le_wfield in E1 as [-> Hx]; [|done|done].
  destruct x as [[z d1]|]; [|done]. destruct Hx as (-> & Ry1 & _ & Hf). injection E as <- <- <-.
  eapply spelled_leaf; [done|done| |apply Hs|apply Hr]. by rewrite Hp, Hf.
Qed.

Lemma luabuf_give_some c n σ u σ' :
  is_Some (k_acct σ !! receiver) → luabuf_give receiver c n σ = Ok (Some u, σ') →
  ub_chunk u = Some c ∧ ub_bytes u = default [] (k_bytes σ !! c) ∧ ub_ro u = false ∧ ub_owned u = true ∧ ub_views u = 0.
Proof.
  intros Ha E. destruct (charge_run receiver n σ Ha) as (b & a & Ec). unfold luabuf_give in E.
  rewrite (bind_ok _ _ _ _ _ Ec) in E. destruct b; cbn [negb] in E; [|done]. rewrite bind_get, bind_modify in E. by injection E as <- _.
Qed.

Lemma read_buf_spelled par d σ v d' σ' :
  rdy d σ → read_buf p receiver d σ = Ok (Val (inr v, d'), σ') → spelled (parse_tag par tag_buf) d σ v d' σ'.
Proof.
  intros Ry E. pose proof (ry_ready _ _ Ry) as R. pose proof (rd_off _ _ _ _ _ _ R) as Ho. unfold read_buf in E.
  destruct (read_buf_runs settable p receiver X Y p_small d σ R) as (out & σ2 & E0 & Hpost). unfold read_buf in E0.
  rewrite E in E0. injection E0 as <- <-. destruct Hpost as (mt & Emt & D & R').
  destruct (Z.leb_spec (m_len p) (d_off d)); [done|].
  rewrite (lbind_val _ _ _ _ _ (rd_run p (d_off d) 1 σ ltac:(lia) ltac:(lia) ltac:(lia))) in E.
  destruct (adv_run p receiver X Y p_small d σ 1 R ltac:(lia) ltac:(lia)) as [E1 R1].
  rewrite (lbind_val _ _ _ _ _ E1) in E. set (i := Z.to_nat _) in E.
  destruct (d_bufs (moved 1 d) !! i) as [[[c|] n]|] eqn:Hi; [|done..].
  apply lbind_inv in E as (u & σ1 & Eg & E). apply lk_inv in Eg.
  destruct u as [u|]; [|apply lbind_inv in E as (? & ? & _ & E); done]. injection E as <- <- <-.
  destruct (luabuf_give_some _ _ _ _ _ (rd_acct _ _ _ _ _ _ R) Eg) as (U1 & U2 & U3 & U4 & U5).
  cbn [d_mt moved] in Emt. assert (mt = []) as -> by (apply (app_inv_head (d_mt d)); by rewrite app_nil_r).
  pose proof (ry_bufs _ _ Ry) as HB. cbn [d_bufs moved] in Hi.
  split; [split; [done| |]|].
  - rewrite <-(ry_mem _ _ Ry). pose proof (dm_frame _ _ _ _ D) as F. unfold frame_d in F. by injection F.
  - intros j c' n' Hj. cbn [d_bufs] in Hj. destruct (decide (j = i)) as [->|N].
    + rewrite list_lookup_insert_eq in Hj by (by eapply lookup_lt_Some). done.
    + rewrite list_lookup_insert_ne in Hj by done. by apply HB.
  - exists (WBuf i), []. split_and!; [|done|exact D| |constructor].
    + cbn [parse_tag Z.eqb Pos.eqb tag_nil tag_true tag_false tag_int tag_num tag_str tag_tab tag_buf]. unfold wfield.
      pose proof (remaining_length d σ R). destruct (Nat.ltb_spec (length (remaining d)) 1); [lia|].
      change (remaining (mkDst _ _ _)) with (remaining (moved 1 d)). by rewrite (remaining_moved d σ) by (done || lia).
    + constructor. exists c, n. rewrite <-(ry_mem _ _ Ry). split_and!; try done. by apply HB.
Qed.

Lemma read_right_spelled par d σ v d' σ' :
  rdy d σ → read_right p receiver d σ = Ok (Val (inr v, d'), σ') → spelled (parse_tag par tag_right) d σ v d' σ'.
Proof.
  intros Ry E. pose proof (ry_ready _ _ Ry) as R. pose proof (rd_off _ _ _ _ _ _ R) as Ho.
  destruct (read_right_runs settable p receiver X Y p_bytes p_small d σ R) as (out & σ2 & E0 & Hpost).
  rewrite E in E0. injection E0 as <- <-. destruct Hpost as (mt & Emt & D & R').
  unfold read_right in E. rewrite (lbind_val _ _ _ _ _ (past_run p receiver X Y p_small d σ 3 R ltac:(lia))) in E.
  destruct (Z.ltb_spec (m_len p) (d_off d + 3)); [done|].
  apply lbind_inv in E as (x & σ1 & E1 & E). apply rd_le_wfield in E1 as [-> Hx]; [|done|lia].
  destruct x as [[pi d1]|]; [|done]. destruct Hx as (-> & Ry1 & Hpi & Hf). pose proof (ry_ready _ _ Ry1) as R1.
  rewrite (lbind_val _ _ _ _ _ (rd_run p (d_off (moved 2 d)) 1 σ ltac:(cbn; lia) ltac:(lia) ltac:(cbn; lia))) in E.
  destruct (adv_run p receiver X Y p_small (moved 2 d) σ 1 R1 ltac:(lia) ltac:(cbn; lia)) as [E1 R2].
  rewrite (lbind_val _ _ _ _ _ E1), (lbind_val (lk st_get) _ σ σ σ) in E by done. set (recv := negb _) in E.
  destruct (Z.of_nat (k_maxports σ) <=? pi); [done|].
  destruct (k_portv σ !! Z.to_nat pi) as [q|] eqn:Hv; [|done]. destruct (MAXMSGRIGHTS <=? _); [done|].
  apply lbind_inv in E as (h & σ1 & E2 & E). apply lk_inv in E2. destruct (Z.ltb_spec h 0); [done|]. injection E as <- <- <-.
  cbn [d_mt moved] in Emt. apply app_inv_head in Emt as <-.
  pose proof Hv as Hv'. apply (ro_portv X σ (ki_refs _ _ _ (rd_kinv _ _ _ _ _ _ R))) in Hv' as (pt & Hq & Hidx).
  destruct (rd_proc _ _ _ _ _ _ R) as [ip Hp].
  pose proof (right_new_holds _ _ _ _ _ _ _ _ _ _ (rd_kinv _ _ _ _ _ _ R) Hp Hq E2 ltac:(done)) as Hin. rewrite Hidx in Hin.
  split; [split; [done| |exact (ry_bufs _ _ Ry)]|].
  - rewrite <-(ry_mem _ _ Ry). pose proof (dm_frame _ _ _ _ D) as F. unfold frame_d in F. by injection F.
  - exists (WRight (Z.to_nat pi) recv), [h]. split_and!; [|done|exact D|constructor|by repeat constructor].
    cbn [parse_tag Z.eqb Pos.eqb tag_nil tag_true tag_false tag_int tag_num tag_str tag_tab tag_buf tag_right].
    change (Z.to_nat 2) with 2%nat in Hf. rewrite Hf. unfold wfield at 1. pose proof (remaining_length _ _ R1) as Hl. cbn [d_off moved] in Hl.
    destruct (Nat.ltb_spec (length (remaining (moved 2 d))) 1); [lia|].
    change (remaining (mkDst _ _ _)) with (remaining (moved 1 (moved 2 d))). by rewrite (remaining_moved (moved 2 d) σ) by (done || lia).
Qed.

Definition spells (des : dst → LM ((Z + lv) * dst)) (par : list Z → option (wire * list Z)) : Prop :=
  ∀ d σ v d' σ', rdy d σ → des d σ = Ok (Val (inr v, d'), σ') → spelled par d σ v d' σ'.

Lemma holds_right_all mt refs mt' σ σ' :
  dmove receiver mt' σ σ' → Forall2 (holds_right receiver σ) mt refs → Forall2 (holds_right receiver σ') mt refs.
Proof. intros D H. eapply Forall2_impl; [exact H|]. intros h ref. by eapply holds_right_dmove. Qed.

Lemma pairs_spelled des par : spells des par → ∀ k tab d σ v d' σ',
  rdy d σ → deserialize_pairs settable des k tab d σ = Ok (Val (inr v, d'), σ') →
  rdy d' σ' ∧ ∃ kv mt tab', v = LTab tab' ∧ parse_pairs par k (remaining d) = Some (kv, remaining d') ∧ d_mt d' = d_mt d ++ mt ∧
    dmove receiver mt σ σ' ∧ shows_pairs settable B mem tab kv mt tab' ∧ Forall2 (holds_right receiver σ') mt (rights_of_pairs kv).
Proof.
  intros Hdes. induction k as [|k IH]; intros tab d σ v d' σ' Ry E; cbn [deserialize_pairs] in E.
  { injection E as <- <- <-. split; [done|]. exists [], [], tab. rewrite app_nil_r.
    split_and!; [done..|apply dmove_refl|constructor|constructor]. }
  apply lbind_inv in E as ([[rc|key] d1] & σ1 & E1 & E); [done|].
  destruct (Hdes _ _ _ _ _ Ry E1) as (Ry1 & wa & m1 & P1 & M1 & D1 & S1 & I1).
  apply lbind_inv in E as ([[rc|val] d2] & σ2 & E2 & E); [done|].
  destruct (Hdes _ _ _ _ _ Ry1 E2) as (Ry2 & wb & m2 & P2 & M2 & D2 & S2 & I2).
  destruct (settable tab key val) as [tab1|] eqn:Es; [|done].
  destruct (IH tab1 d2 σ2 v d' σ' Ry2 E) as (Ry3 & kv & m3 & tab' & -> & P3 & M3 & D3 & S3 & I3).
  split; [done|]. exists ((wa, wb) :: kv), (m1 ++ m2 ++ m3), tab'. cbn [parse_pairs]. rewrite P1, P2, P3, M3, M2, M1.
  split_and!; [done|done|by rewrite !(assoc_L (++))| |by eapply sp_cons|].
  - by do 2 (eapply dmove_trans; [done|]).
  - cbn. rewrite <-(assoc_L (++)). apply Forall2_app; [|apply Forall2_app; [|done]].
    + by eapply holds_right_all, holds_right_all.
    + by eapply holds_right_all.
Qed.

Lemma tag_spelled des par tag : spells des par →
  spells (deserialize_tag settable p des receiver tag) (parse_tag par tag).
Proof.
  intros Hdes d σ v d' σ' Ry E. unfold deserialize_tag in E.
  destruct (Z.eqb_spec tag tag_nil) as [->|N1]; [injection E as <- <- <-; by eapply spelled_leaf; [..|constructor|]|].
  destruct (Z.eqb_spec tag tag_true) as [->|N2]; [injection E as <- <- <-; by eapply spelled_leaf; [..|constructor|]|].
  destruct (Z.eqb_spec tag tag_false) as [->|N3]; [injection E as <- <- <-; by eapply spelled_leaf; [..|constructor|]|].
  destruct (Z.eqb_spec tag tag_int) as [->|N4].
  { eapply (num_spelled 8 (λ z, LInt (sint 64 z)) (λ z, WInt (sint 64 z))); try done; [intros; constructor]. }
  destruct (Z.eqb_spec tag tag_num) as [->|N5].
  { eapply (num_spelled 8 LNum WNum); try done; [intros; constructor]. }
  destruct (Z.eqb_spec tag tag_str) as [->|N6]; [by apply read_str_spelled|].
  destruct (Z.eqb_spec tag tag_tab) as [->|N7].
  2:{ destruct (Z.eqb_spec tag tag_buf) as [->|N8]; [by apply read_buf_spelled|].
      destruct (Z.eqb_spec tag tag_right) as [->|N9]; [by apply read_right_spelled|done]. }
  apply lbind_inv in E as (x & σ1 & E1 & E). apply rd_le_wfield in E1 as [-> Hx]; [|done|lia].
  destruct x as [[z d1]|]; [|done]. destruct Hx as (-> & Ry1 & _ & Hf). destruct (_ <? z); [done|].
  destruct (pairs_spelled des par Hdes _ _ _ _ _ _ _ Ry1 E) as (Ry' & kv & mt & tab' & -> & P & M & D & S & I).
  split; [done|]. exists (WTab kv), mt. rewrite rights_of_tab. split_and!; [|done..|by constructor|done].
  cbn [parse_tag Z.eqb Pos.eqb tag_nil tag_true tag_false tag_int tag_num tag_str tag_tab].
  change (Z.to_nat 4) with 4%nat in Hf. by rewrite Hf, P.
Qed.

Lemma rdy_amove d σ σ' : amove σ σ' → rdy d σ → rdy d σ'.
Proof.
  intros A [R M Bf]. split; [|by destruct A as (a & n & -> & _)|done].
  eapply ready_dmove; [exact R|by apply dmove_amove|]. eapply amove_kinv; [done|apply R].
Qed.

(** A value the reader returns is the one the bytes spell. *)
Lemma deserialize_spells n : spells (deserialize settable p n receiver) (parse n).
Proof.
  induction n as [|n IH]; intros d σ v d' σ' Ry E; [done|]. cbn [deserialize] in E.
  destruct (checkstack_amove σ) as (ok & σ1 & E1 & A). rewrite (lbind_val _ _ _ _ _ E1) in E.
  destruct ok; cbn [negb] in E; [|done]. pose proof (rdy_amove _ _ _ A Ry) as Ry1. pose proof (ry_ready _ _ Ry1) as R1.
  pose proof (rd_off _ _ _ _ _ _ R1) as Ho. destruct (Z.leb_spec (m_len p) (d_off d)); [done|].
  rewrite (lbind_val _ _ _ _ _ (rd_run p (d_off d) 1 σ1 ltac:(lia) ltac:(lia) ltac:(lia))) in E.
  destruct (adv_run p receiver X Y p_small d σ1 1 R1 ltac:(lia) ltac:(lia)) as [E2 R2].
  rewrite (lbind_val _ _ _ _ _ E2) in E. pose proof (remaining_length _ _ R1) as Hl. pose proof (remaining_moved d σ1 1 R1 ltac:(lia)) as Hm.
  destruct (tag_spelled _ _ _ IH _ _ _ _ _ (rdy_moved 1 d σ1 Ry1 R2) E) as (Ry' & w & mt & P & M & D & S & I).
  split; [done|]. exists w, mt. fold (remaining d) in P. destruct (remaining d) as [|tag l] eqn:Er; [cbn in Hl; lia|].
  change (Z.to_nat 1) with 1%nat in *. rewrite Hm in P. cbn [take drop le_val] in P. rewrite take_0, drop_0 in P.
  replace (tag + 256 * le_val []) with tag in P by (cbn; lia).
  split_and!; [exact P|exact M| |exact S|exact I]. change mt with ([] ++ mt). eapply dmove_trans; [by apply dmove_amove|done].
Qed.

End any_bytes.
