(* ===== verification/Syscall.v ===== *)
(** The ipc calls of src/src/sysapi.c over ports (Ports.v), timers (Timer.v) and the
    serializer (Serialize.v).

    A call runs for the proc [p] and gets its arguments already checked by the lua
    api; [top] says whether the calling coroutine is the one the kernel resumed.
    A call that gives the cpu away returns [Yield]; an error it raises is the
    [Raise] of [LM]. *)

From S2P Require Import Prelude Clock Sched Ports Timer Serialize.
From stdpp Require Import prelude list gmap strings.
From Stdlib Require Import ZArith Lia.
Open Scope Z_scope.

Inductive sysret : Type :=
| Ret (vs : list lv)
| Yield.

Inductive send_rc : Type :=
| SEND_OK | SEND_UNSERIALIZABLE | SEND_DEAD | SEND_FULL | SEND_NOMEM.

Definition lstr (s : string) : lv := LStr (bytes_of s).
Definition BLOCKED_TWICE_MSG : string := "already blocked (sys.block from a coroutine? use los.thread's park)".

(** nopark. *)
Definition nopark (top : bool) : LM unit :=
  if top then lret tt else lraise "illegal parking".

(** * Sending *)

(** The guess at a serialized size, one level deep. *)
Definition sizehint_field (v : lv) : Z :=
  match v with LStr s => Z.of_nat (length s) + 8 | _ => 16 end.
Definition sizehint (v : lv) : Z :=
  match v with
  | LStr s => Z.of_nat (length s) + 16
  | LTab kv => 16 + zsum (λ p, sizehint_field (snd p) + sizehint_field (fst p)) kv
  | _ => 0
  end.

Definition wreserve (w : wbuf) (n : Z) : KM wbuf :=
  if (n <? 256) || (MAXMSG <? n) || (n <=? w_cap w) then st_ret w else
  let! a := malloc in
  st_ret (match a with Some _ => set_w_cap n w | None => w end).

(** The discard path: the references the message carried go back. *)
Definition send_discard (w : wbuf) : KM unit :=
  match w_refs w with
  | [] => st_ret tt
  | refs => ipclock_enter ;;; release_inflight refs ;;; ipclock_leave
  end.

(** port_send_from_lua: the outcome, the size it reports, and the handles of the
    buffers it detached. *)
Definition port_send_from_lua (p : nat) (r : right) (v : lv) : LM (send_rc * Z * list nat) :=
  do! w := lk (wreserve wbuf0 (sizehint v)) in
  do! x := serialize_top p v w in
  let w := snd x in
  if negb (fst x =? 0) then
    do! _ := lk (send_discard w) in lret (SEND_UNSERIALIZABLE, 0, [])
  else
    let len := w_len w + msgbufs_bytes (w_bufs w) in
    do! _ := lk (ipclock_enter_port (r_port r)) in
    do! rc := lk (port_push_owned (r_port r) (w_data w) (w_refs w) (w_bufs w)) in
    do! _ := lk (ipclock_leave_port (r_port r)) in
    if rc =? 0 then
      do! _ := lk (st_iter (λ b, luabuf_detach p (snd b)) (w_bufs w)) in
      lret (SEND_OK, len, w_own w)
    else
      do! _ := lk (send_discard w) in
      lret (if rc =? -2 then SEND_FULL else if rc =? -3 then SEND_DEAD else SEND_NOMEM, len, []).

Definition api_send (p : nat) (h : Z) (v : lv) : LM sysret :=
  do! ip := lk (get_iproc p) in
  match right_get ip h with
  | None => lraise "bad right"
  | Some (_, r) =>
      do! x := port_send_from_lua p r v in
      match fst (fst x) with
      | SEND_UNSERIALIZABLE => lraise "unserializable message"
      | SEND_DEAD => lret (Ret [LBool false; lstr "dead"])
      | SEND_FULL => lret (Ret [LBool false; lstr "full"; LInt (snd (fst x))])
      | SEND_NOMEM => lraise "out of memory queueing message"
      | SEND_OK => lret (Ret [LBool true])
      end
  end.

(** [qbytes + (size_t)need <= MAXQUEUE]. *)
Definition has_room (σ : kst) (pt : kport) (need : Z) : bool :=
  size_t σ (pt_qbytes pt + size_t σ need) <=? MAXQUEUE.

Definition api_sendblock (top : bool) (p : nat) (h need : Z) : LM sysret :=
  if need <? 0 then lraise "negative size" else
  do! _ := nopark top in
  do! ip := lk (get_iproc p) in
  match right_get ip h with
  | None => lraise "bad right"
  | Some (_, r) =>
      let q := r_port r in
      do! _ := lk (ipclock_enter_port q) in
      do! pt := lk (get_port q) in
      do! σ := lk st_get in
      match ip_waiters ip with
      | _ :: _ => do! _ := lk (ipclock_leave_port q) in lraise BLOCKED_TWICE_MSG
      | [] =>
          if pt_dead pt || (MAXQUEUE <? size_t σ need) || has_room σ pt need
          then do! _ := lk (ipclock_leave_port q) in lret (Ret [])
          else
            do! ok := lk (wait_add p q true) in
            if negb ok then do! _ := lk (ipclock_leave_port q) in lraise "out of waiters"
            else do! _ := lk (proc_block_ipc p ;;; ipclock_leave_port q) in lret Yield
      end
  end.

(** * Receiving *)

(** sole_holder: does [p] hold every right there is to the port? *)
Fixpoint count_mine (n : nat) (i : Z) (ip : iproc) (q : nat) : Z :=
  match n with
  | O => 0
  | S n =>
      match right_slot ip i with
      | Some r => if r_used r && (r_port r =? q)%nat then 1 else 0
      | None => 0
      end + count_mine n (i + 1) ip q
  end.
Definition sole_holder (ip : iproc) (q : nat) (pt : kport) : bool :=
  pt_nrights pt <=? count_mine (Z.to_nat (ip_rhigh ip)) 0 ip q.

Definition api_hungup (p : nat) (h : Z) : LM sysret :=
  do! ip := lk (get_iproc p) in
  match right_get ip h with
  | None => lraise "bad right"
  | Some (_, r) =>
      do! pt := lk (get_port (r_port r)) in
      lret (Ret [LBool (sole_holder ip (r_port r) pt)])
  end.

(** api_anyready: the scan of the proc's own receive rights. *)
Fixpoint anyready_scan (n : nat) (i : Z) (ip : iproc) : KM bool :=
  match n with
  | O => st_ret false
  | S n =>
      match right_slot ip i with
      | Some r =>
          if r_used r && r_recv r then
            let! pt := get_port (r_port r) in
            match pt_queue pt with
            | [] => anyready_scan n (i + 1) ip
            | _ :: _ => st_ret true
            end
          else anyready_scan n (i + 1) ip
      | None => anyready_scan n (i + 1) ip
      end
  end.
Definition api_anyready (p : nat) : LM sysret :=
  do! ip := lk (get_iproc p) in
  do! b := lk (anyready_scan (Z.to_nat (ip_rhigh ip)) 0 ip) in
  lret (Ret [LBool b]).

Section receive.
(** lua_settable, as the reader needs it. *)
Context (settable : list (lv * lv) → lv → lv → option (list (lv * lv))).

(** msg_to_lua: a message arrives whole, or the rights it minted go back. *)
Definition msg_to_lua (p : nat) (m : kmsg) : LM (Z + lv) :=
  do! x := deserialize_top settable (m_data m) p (mkDst 0 (m_bufs m) []) in
  let d := snd x in
  do! _ := lk (match fst x with inl _ => minted_undo p (d_mt d) | inr _ => st_ret tt end) in
  do! _ := lk (msg_dispose (mkKmsg (m_data m) (d_bufs d) (m_qcost m) (m_refs m))) in
  lret (fst x).

Definition popfail {A} (p : nat) (rc : Z) : LM A :=
  if rc =? -2 then
    do! ip := lk (get_iproc p) in
    if ip_bufdenied ip then
      do! _ := lk (upd_iproc p (set_ip_bufdenied false)) in
      lraise "no room for a transferred buffer"
    else lraise "out of rights"
  else lraise "corrupt message".

Definition api_tryrecv (p : nat) (h : Z) : LM sysret :=
  do! ip := lk (get_iproc p) in
  match right_get ip h with
  | Some (_, r) =>
      if r_recv r then
        do! m := lk (port_pop (r_port r)) in
        match m with
        | None => lret (Ret [LBool false])
        | Some m =>
            do! x := msg_to_lua p m in
            match x with
            | inl rc => popfail p rc
            | inr v => lret (Ret [LBool true; v])
            end
        end
      else lraise "bad receive right"
  | None => lraise "bad receive right"
  end.

Definition api_block (top : bool) (p : nat) (h : Z) : LM sysret :=
  do! _ := nopark top in
  do! ip := lk (get_iproc p) in
  match right_get ip h with
  | Some (_, r) =>
      if r_recv r then
        let q := r_port r in
        do! _ := lk (ipclock_enter_port q) in
        do! pt := lk (get_port q) in
        match pt_queue pt, ip_waiters ip with
        | _ :: _, _ => do! _ := lk (ipclock_leave_port q) in lret (Ret [])
        | [], _ :: _ => do! _ := lk (ipclock_leave_port q) in lraise BLOCKED_TWICE_MSG
        | [], [] =>
            do! ok := lk (wait_add p q false) in
            if negb ok then do! _ := lk (ipclock_leave_port q) in lraise "out of waiters"
            else do! _ := lk (proc_block_ipc p ;;; ipclock_leave_port q) in lret Yield
        end
      else lraise "bad receive right"
  | None => lraise "bad receive right"
  end.

(** call_k: the reply, a hangup, or another park. *)
Definition call_k (p : nat) (rh : Z) : LM sysret :=
  do! _ := lk ipclock_enter in
  do! ip := lk (get_iproc p) in
  match right_get ip (to_int rh) with
  | Some (_, r) =>
      if r_recv r then
        let q := r_port r in
        do! pt := lk (get_port q) in
        match pt_queue pt with
        | [] =>
            if sole_holder ip q pt then
              do! _ := lk ipclock_leave in lret (Ret [LNil; lstr "hungup"])
            else
              do! ok := lk (wait_add p q false) in
              if negb ok then do! _ := lk ipclock_leave in lraise "out of waiters"
              else do! _ := lk (proc_block_ipc p ;;; ipclock_leave) in lret Yield
        | _ :: _ =>
            do! m := lk (port_pop q) in
            do! _ := lk ipclock_leave in
            match m with
            | None => lk (st_fail NullDeref)
            | Some m =>
                do! x := msg_to_lua p m in
                match x with
                | inl rc => popfail p rc
                | inr v => lret (Ret [v])
                end
            end
        end
      else do! _ := lk ipclock_leave in lraise "call: reply right went away"
  | None => do! _ := lk ipclock_leave in lraise "call: reply right went away"
  end.

Definition api_call (top : bool) (p : nat) (sh : Z) (v : lv) (rh : Z) : LM sysret :=
  do! _ := nopark top in
  do! _ := lk ipclock_enter in
  do! ip := lk (get_iproc p) in
  do! _ := lk ipclock_leave in
  match right_get ip sh, right_get ip rh with
  | None, _ => lraise "call: bad right"
  | Some _, None => lraise "call: bad reply right"
  | Some (_, r), Some (_, rr) =>
      if negb (r_recv rr) then lraise "call: bad reply right" else
      match ip_waiters ip with
      | _ :: _ => lraise BLOCKED_TWICE_MSG
      | [] =>
          do! _ := lk ipclock_enter in
          do! x := port_send_from_lua p r v in
          do! _ := lk ipclock_leave in
          match fst (fst x) with
          | SEND_UNSERIALIZABLE => lraise "unserializable message"
          | SEND_NOMEM => lraise "out of memory queueing message"
          | SEND_DEAD => lret (Ret [LNil; lstr "dead"])
          | SEND_FULL => lret (Ret [LNil; lstr "full"; LInt (snd (fst x))])
          | SEND_OK => call_k p rh
          end
      end
  end.

End receive.

(** * Rights *)

Definition api_close (p : nat) (h : Z) : LM sysret :=
  do! _ := lk ipclock_enter in
  do! ip := lk (get_iproc p) in
  do! _ := lk (match right_get ip h with
               | Some (i, r) => st_when (negb (h =? 0)) (right_drop p i r)
               | None => st_ret tt
               end) in
  do! _ := lk ipclock_leave in
  match right_get ip h with
  | None => lraise "bad right"
  | Some _ =>
      if h =? 0 then lraise "cannot close self port" else
      do! _ := lk (upd_iproc p (λ ip, if to_int h <? ip_rhint ip
                                      then set_ip_rhint (to_int h) ip else ip)) in
      lret (Ret [])
  end.

(** owned_close on the guard's handle; what the guard holds afterwards. *)
Definition owned_close (p : nat) (ud : Z) : LM Z :=
  if ud <? 0 then lret ud else
  do! _ := lk ipclock_enter in
  do! ip := lk (get_iproc p) in
  do! _ := lk (match right_get ip ud with
               | Some (i, r) => st_when (negb (ud =? 0)) (right_drop p i r)
               | None => st_ret tt
               end) in
  do! _ := lk ipclock_leave in
  do! _ := lk (match right_get ip ud with
               | Some _ => st_when (negb (ud =? 0))
                   (upd_iproc p (λ ip, if ud <? ip_rhint ip then set_ip_rhint ud ip else ip))
               | None => st_ret tt
               end) in
  lret (-1).

Definition api_newport (p : nat) : LM sysret :=
  do! _ := lk ipclock_enter in
  do! ip := lk (get_iproc p) in
  let over := negb (port_budget_left ip) in
  do! port := lk (if over then st_ret None else port_new) in
  do! h := lk (match port with
               | Some q => right_new p q true
               | None => st_ret (-1)
               end) in
  do! _ := lk ipclock_leave in
  if over then lraise "port limit"
  else match port with
       | None => lraise "out of ports"
       | Some _ => if h <? 0 then lraise "out of rights" else lret (Ret [LInt h])
       end.

Definition api_sendright (p : nat) (arg : Z) : LM sysret :=
  do! _ := lk ipclock_enter in
  do! ip := lk (get_iproc p) in
  do! h := lk (match right_get ip arg with
               | Some (_, r) => right_new p (r_port r) false
               | None => st_ret (-1)
               end) in
  do! _ := lk ipclock_leave in
  match right_get ip arg with
  | None => lraise "bad right"
  | Some _ => if h <? 0 then lraise "out of rights" else lret (Ret [LInt h])
  end.

(** api_timer; [now] is the uptime_ms reading timer_arm takes. *)
Definition api_timer (p : nat) (now ms : Z) : LM sysret :=
  let ms := if ms <? 0 then 0 else ms in
  do! _ := lk ipclock_enter in
  do! ip := lk (get_iproc p) in
  do! port := lk (if port_budget_left ip then port_new else st_ret None) in
  match port with
  | None => do! _ := lk ipclock_leave in lret (Ret [])
  | Some q =>
      do! h := lk (right_new p q true) in
      if h <? 0 then
        do! _ := lk (upd_port q (set_pt_used false)) in
        do! _ := lk ipclock_leave in lret (Ret [])
      else
        do! rc := lk (timer_arm q now ms) in
        if rc <? 0 then
          do! ip := lk (get_iproc p) in
          do! _ := lk (match right_slot ip h with
                       | Some r => right_drop p h r
                       | None => st_fail NullDeref
                       end) in
          do! _ := lk ipclock_leave in lret (Ret [])
        else do! _ := lk ipclock_leave in lret (Ret [LInt h])
  end.

(** may_control: a right to the target's own port is the authority over it. *)
Definition may_control (p target : nat) : KM bool :=
  let! t := get_iproc target in
  let! ip := get_iproc p in
  let! port := proc_selfport t in
  st_ret (match port with Some q => proc_has_port ip q | None => false end).

(** * Waiting on several ports *)

(** One case as althandle, altneed and althup read it: the handle or -1, the room
    wanted or -1 for a receive, and whether a hangup is to be reported. *)
Record altcase : Type := mkAltcase {
  ac_port : Z;
  ac_need : Z;
  ac_hup : bool
}.

(** The return of alt_take and alt_hup: nothing, a failure code, or the three values
    sys.alt speaks. *)
Inductive got : Type :=
| GNone
| GFail (rc : Z)
| GSome (i : Z) (msg why : lv).

Section alt.
Context (settable : list (lv * lv) → lv → lv → option (list (lv * lv))).

Definition case_right (ip : iproc) (c : altcase) : option right :=
  match right_get ip (to_int (ac_port c)) with Some (_, r) => Some r | None => None end.

(** altready: the first ready case, counting from [i]. *)
Fixpoint altready (ip : iproc) (i : Z) (cs : list altcase) : KM (option (Z * altcase)) :=
  match cs with
  | [] => st_ret None
  | c :: cs =>
      match case_right ip c with
      | None => altready ip (i + 1) cs
      | Some r =>
          let! pt := get_port (r_port r) in
          let! σ := st_get in
          if 0 <=? ac_need c then
            if pt_dead pt || has_room σ pt (ac_need c) then st_ret (Some (i, c))
            else altready ip (i + 1) cs
          else if r_recv r && negb (bool_decide (pt_queue pt = [])) then st_ret (Some (i, c))
          else altready ip (i + 1) cs
      end
  end.

Definition alt_take_at (p : nat) (i : Z) (c : altcase) : LM got :=
  do! ip := lk (get_iproc p) in
  match case_right ip c with
  | None => lret GNone
  | Some r =>
      do! pt := lk (get_port (r_port r)) in
      if negb (r_recv r) || bool_decide (pt_queue pt = []) then lret GNone else
      do! m := lk (port_pop (r_port r)) in
      match m with
      | None => lret (GFail (-1))
      | Some m =>
          do! x := msg_to_lua settable p m in
          match x with
          | inl rc => lret (GFail (if rc <? -1 then -2 else -1))
          | inr v => lret (GSome i v LNil)
          end
      end
  end.

Definition alt_take (p : nat) (wake : bool) (cs : list altcase) : LM got :=
  do! ip := lk (get_iproc p) in
  do! x := lk (altready ip 1 cs) in
  match x with
  | None => lret GNone
  | Some (i, c) =>
      if wake then lret (GSome i LNil (lstr "ready"))
      else if 0 <=? ac_need c then lret (GSome i LNil (lstr "send"))
      else alt_take_at p i c
  end.

Fixpoint alt_hup (ip : iproc) (i : Z) (cs : list altcase) : KM got :=
  match cs with
  | [] => st_ret GNone
  | c :: cs =>
      if negb (ac_hup c) || (0 <=? ac_need c) then alt_hup ip (i + 1) cs else
      match case_right ip c with
      | None => alt_hup ip (i + 1) cs
      | Some r =>
          let! pt := get_port (r_port r) in
          if r_recv r && bool_decide (pt_queue pt = []) && sole_holder ip (r_port r) pt
          then st_ret (GSome i LNil (lstr "hungup"))
          else alt_hup ip (i + 1) cs
      end
  end.

(** The end of an early return from the scan. *)
Definition alt_out (p : nat) : LM unit := lk (wait_clear p ;;; ipclock_leave).

(** Is this proc already waiting on the port, for the same thing? *)
Fixpoint alt_seen (ws : list wid) (q : nat) (send : bool) : KM bool :=
  match ws with
  | [] => st_ret false
  | w :: ws =>
      let! x := get_waiter w in
      if (w_port x =? q)%nat && Bool.eqb (w_send x) send then st_ret true
      else alt_seen ws q send
  end.

(** The scan that joins each port's waiter list; [None] when it ran to its end. *)
Fixpoint alt_scan (p : nat) (wake : bool) (i : Z) (cs : list altcase) : LM (option sysret) :=
  match cs with
  | [] => lret None
  | c :: cs =>
      let send := 0 <=? ac_need c in
      if ac_port c <? 0 then do! _ := alt_out p in lraise "alt: bad receive right" else
      do! ip := lk (get_iproc p) in
      match right_get ip (ac_port c) with
      | None => do! _ := alt_out p in
                lraise (if send then "alt: bad right" else "alt: bad receive right")
      | Some (_, r) =>
          if negb send && negb (r_recv r)
          then do! _ := alt_out p in lraise "alt: bad receive right" else
          do! pt := lk (get_port (r_port r)) in
          do! σ := lk st_get in
          if send && (pt_dead pt || has_room σ pt (ac_need c)) then
            do! _ := alt_out p in
            lret (Some (Ret [LInt i; LNil; lstr (if wake then "ready" else "send")]))
          else if negb send && negb (bool_decide (pt_queue pt = [])) then
            if wake then
              do! _ := alt_out p in lret (Some (Ret [LInt i; LNil; lstr "ready"]))
            else
              do! g := alt_take_at p i c in
              do! _ := alt_out p in
              match g with
              | GFail rc => popfail p rc
              | GSome i v why => lret (Some (Ret [LInt i; v; why]))
              | GNone => lret (Some (Ret []))
              end
          else
            do! seen := lk (alt_seen (ip_waiters ip) (r_port r) send) in
            do! ok := lk (if seen then st_ret true else wait_add p (r_port r) send) in
            if negb ok then do! _ := alt_out p in lraise "alt: out of waiters"
            else alt_scan p wake (i + 1) cs
      end
  end.

(** The take and the hangup test, one region. *)
Definition alt_try (p : nat) (wake : bool) (cs : list altcase) : LM got :=
  do! g := alt_take p wake cs in
  match g with
  | GNone => do! ip := lk (get_iproc p) in lk (alt_hup ip 1 cs)
  | g => lret g
  end.

Definition got_ret (p : nat) (g : got) : LM sysret :=
  match g with
  | GNone => lret (Ret [])
  | GFail rc => popfail p rc
  | GSome i v why => lret (Ret [LInt i; v; why])
  end.

Definition api_alt (top : bool) (p : nat) (cs : list altcase) (wake : bool) : LM sysret :=
  do! _ := nopark top in
  match cs with
  | [] => lraise "alt: need at least one case"
  | _ =>
      do! _ := lk ipclock_enter in
      do! g := alt_try p wake cs in
      match g with
      | GNone =>
          do! _ := lk (wait_clear p) in
          do! x := alt_scan p wake 1 cs in
          match x with
          | Some r => lret r
          | None => do! _ := lk (proc_block_ipc p ;;; ipclock_leave) in lret Yield
          end
      | g => do! _ := lk ipclock_leave in got_ret p g
      end
  end.

(** alt_k: the answer after a wake. *)
Definition alt_k (p : nat) (cs : list altcase) (wake : bool) : LM sysret :=
  do! _ := lk ipclock_enter in
  do! g := alt_try p wake cs in
  do! _ := lk ipclock_leave in
  got_ret p g.

Definition api_altpoll (p : nat) (cs : list altcase) : LM sysret :=
  do! ip := lk (get_iproc p) in
  do! x := lk (altready ip 1 cs) in
  lret (Ret (match x with Some (i, _) => [LInt i] | None => [] end)).

End alt.
