(* ===== verification/SyscallOk.v ===== *)
(** The ipc calls keep the kernel whole: no call faults, whatever its arguments,
    every bucket it takes is given back, the reference counts stay exact, and no
    wakeup is lost. *)

From S2P Require Import Prelude Clock Sched Ports PortInv KInv PortWake PortRef PortOps WaitOps.
From S2P Require Import Timer Serialize SerializeOk SerializeInv Wire Syscall.
From stdpp Require Import prelude list gmap strings.
From Stdlib Require Import ZArith Lia.
Open Scope Z_scope.

(** What holds between calls.  [X] and [Y] are the references and buffers held by
    code outside the model, [rk] an order on ports witnessing that no cycle of
    queued rights exists. *)
Record settled (rk : nat → nat) (X : list (nat * bool)) (Y : msgbufs) (σ : kst) : Prop := mkSettled {
  se_kinv : kinv X Y σ;
  se_ranked : ranked rk σ;
  se_ipc : unlocked σ;
  se_wake : no_lost_wakeup σ
}.

(** A proc running a call. *)
Record calling (p : nat) (ip : iproc) (σ : kst) : Prop := mkCalling {
  ca_proc : k_procs σ !! p = Some ip;
  ca_idle : ip_waiters ip = [];
  ca_woken : ip_woken ip = false;
  ca_run : ¬ blocked σ p;
  ca_acct : is_Some (k_acct σ !! p);
  ca_sz : 33 <= k_szbits σ
}.

Lemma lk_step {A B} (m : KM A) (k : A → LM B) σ a σ' :
  m σ = Ok (a, σ') → lbind (lk m) k σ = k a σ'.
Proof. intros E. apply lbind_val. by apply lk_val. Qed.

Lemma lk_iproc {B} p ip (k : iproc → LM B) σ :
  k_procs σ !! p = Some ip → lbind (lk (get_iproc p)) k σ = k ip σ.
Proof. intros H. apply lk_step. unfold get_iproc. by rewrite H. Qed.

Lemma lk_port {B} q pt (k : kport → LM B) σ :
  k_ports σ !! q = Some pt → lbind (lk (get_port q)) k σ = k pt σ.
Proof. intros H. apply lk_step. unfold get_port. by rewrite H. Qed.

(** A region that did nothing. *)
Lemma leave_entered {B} (k : unit → LM B) σ :
  lockable σ → lbind (lk ipclock_leave) k (with_ipc (List.map S (k_ipc σ)) σ) = k tt σ.
Proof.
  intros L. rewrite (lk_step _ _ _ tt (with_ipc (k_ipc σ) (with_ipc (List.map S (k_ipc σ)) σ))).
  - by destruct σ.
  - by apply leave_any.
Qed.

Lemma no_lost_uwake σ σ' : uwake (λ _, True) σ σ' → no_lost_wakeup σ → no_lost_wakeup σ'.
Proof. intros W H q. apply W; [done|apply H]. Qed.

Lemma right_get_Some ip h i r : right_get ip h = Some (i, r) → i = to_int h ∧ used_at ip i r.
Proof.
  unfold right_get, used_at. destruct (right_slot ip (to_int h)) as [r0|] eqn:E; [|done].
  destruct (r_used r0) eqn:Eu; [|done]. intros H. by simplify_eq.
Qed.

Lemma used_elem ip h r : proc_ok ip → used_at ip h r → r ∈ all_rights ip ∧ r_used r = true.
Proof.
  intros [T] [Hs Hu]. split; [|done]. apply right_slot_elem in Hs; [|done].
  by eapply list_elem_of_lookup_2.
Qed.

Lemma used_port X Y σ p ip h r :
  kinv X Y σ → k_procs σ !! p = Some ip → used_at ip h r → ∃ pt, k_ports σ !! r_port r = Some pt.
Proof.
  intros K Hp Hu. destruct (used_elem ip h r) as [Hin Hr]; [by apply (ki_proc _ _ _ K p)|done|].
  by eapply (ro_held _ _ (ki_refs _ _ _ K) p).
Qed.

(** A reference taken into the hand. *)
Lemma kinv_take X Y σ q pt r :
  kinv X Y σ → k_ports σ !! q = Some pt →
  kinv ((pt_idx pt, r) :: X) Y (put q (port_taken r pt) σ).
Proof.
  intros K Hq. eapply kinv_put; [exact K|exact Hq| | |by destruct r|by destruct r].
  - apply (refs_take Hq); [apply K|by destruct r..| |]; destruct r; simpl; lia.
  - apply port_taken_ok. by apply (ki_port X Y σ K q).
Qed.

Lemma ranked_put rk σ q pt pt' :
  ranked rk σ → k_ports σ !! q = Some pt → pt_queue pt' = pt_queue pt → ranked rk (put q pt' σ).
Proof.
  intros R Hq Eq q0 p0 m ref q' H0 Hm Hr Hv. simpl in *.
  apply lookup_insert_Some in H0 as [[<- <-]|[_ H0]]; [|by eapply (R q0 p0)].
  rewrite Eq in Hm. by eapply (R q pt).
Qed.

Lemma ranked_ipc rk l σ : ranked rk σ → ranked rk (with_ipc l σ).
Proof. done. Qed.

(** * Closing a right *)

Lemma ranked_puti rk p ip σ : ranked rk σ → ranked rk (puti p ip σ).
Proof. done. Qed.

Lemma uwake_puti p ip σ : uwake (λ _, True) σ (puti p ip σ).
Proof. by intros q _ H. Qed.

Lemma base_ipc σ σ' : base σ' = base σ → k_ipc σ' = k_ipc σ.
Proof. unfold base. intros E. by injection E. Qed.

(** [i] freed under the wide lock, and the lock given back. *)
Lemma drop_region rk X Y σ p ip i r :
  settled rk X Y σ → k_procs σ !! p = Some ip → ip_waiters ip = [] → used_at ip i r →
  ∃ σ1 σ' ip', ipclock_enter σ = Ok (tt, with_ipc (List.map S (k_ipc σ)) σ) ∧
    right_drop p i r (with_ipc (List.map S (k_ipc σ)) σ) = Ok (tt, σ1) ∧
    ipclock_leave σ1 = Ok (tt, σ') ∧ settled rk X Y σ' ∧ k_procs σ' !! p = Some ip' ∧
    (∀ j x, used_at ip' j x ↔ used_at ip j x ∧ j ≠ i) ∧ ip_waiters ip' = [].
Proof.
  intros [K R U W] Hp Hw [Hs Hu]. set (σ0 := with_ipc _ σ).
  assert (lockable σ) as L by by left.
  destruct (right_drop_spec rk X Y σ0 p ip i r) as (σ1 & w & E & K1 & R1 & B1 & P1 & W1 & _); try done.
  { by apply kinv_ipc. }
  { by eapply entered_ipcheld. }
  exists σ1, (with_ipc (k_ipc σ) σ1), (set_ip_woken w (right_gone i r ip)).
  split_and!; [by apply enter_any|done| | |done| |].
  - apply leave_any; [done|]. by rewrite (base_ipc _ _ B1).
  - split; [by apply kinv_ipc|done|done|]. by apply (no_lost_uwake σ0).
  - intros j x. apply (right_gone_used i r ip j x); [by apply (ki_proc _ _ _ K p)|done].
  - cbn [ip_waiters set_ip_woken]. destruct (right_gone_frame i r ip) as (_ & _ & _ & _ & -> & _). done.
Qed.

Lemma to_int_range i h : right_slot i (to_int h) ≠ None → 0 <= to_int h.
Proof.
  unfold right_slot. destruct (Z.ltb_spec (to_int h) 0); [done|]. lia.
Qed.

Lemma rhint_settled rk X Y σ p ip h :
  settled rk X Y σ → k_procs σ !! p = Some ip → 0 <= h →
  settled rk X Y (puti p (if h <? ip_rhint ip then set_ip_rhint h ip else ip) σ).
Proof.
  intros [K R U W] Hp Hh. split; [|done..].
  destruct (h <? ip_rhint ip); [by apply kinv_rhint|].
  replace (puti p ip σ) with σ; [done|]. unfold puti. rewrite insert_id by done. by destruct σ.
Qed.

Lemma rhint_used h ip j x :
  used_at (if h <? ip_rhint ip then set_ip_rhint h ip else ip) j x ↔ used_at ip j x.
Proof. by destruct (h <? ip_rhint ip). Qed.

Lemma api_close_spec rk X Y σ p ip h :
  settled rk X Y σ → calling p ip σ →
  ∃ out σ', api_close p h σ = Ok (out, σ') ∧ settled rk X Y σ' ∧
    match right_get ip h with
    | None => out = Raise "bad right" ∧ σ' = σ
    | Some (i, r) =>
        if h =? 0 then out = Raise "cannot close self port" ∧ σ' = σ
        else out = Val (Ret []) ∧ ∃ ip', k_procs σ' !! p = Some ip' ∧
          ∀ j x, used_at ip' j x ↔ used_at ip j x ∧ j ≠ i
    end.
Proof.
  intros Se C. pose proof (ca_proc _ _ _ C) as Hp. unfold api_close.
  assert (lockable σ) as L by (left; apply Se).
  rewrite (lk_step _ _ _ _ _ (enter_any σ L)), (lk_iproc p ip) by done.
  destruct (right_get ip h) as [[i r]|] eqn:Hg.
  2:{ rewrite (lk_step (st_ret tt) _ _ tt _ eq_refl), leave_entered by done. by eexists _, σ. }
  destruct (right_get_Some _ _ _ _ Hg) as [Ei Hu].
  destruct (Z.eqb_spec h 0) as [->|Hne]; cbn [negb st_when].
  { rewrite (lk_step (st_ret tt) _ _ tt _ eq_refl), leave_entered by done. by eexists _, σ. }
  destruct (drop_region rk X Y σ p ip i r Se Hp (ca_idle _ _ _ C) Hu)
    as (σ1 & σ2 & ip2 & _ & E1 & E2 & S2 & Hp2 & Hused & _).
  rewrite (lk_step _ _ _ _ _ E1), (lk_step _ _ _ _ _ E2).
  rewrite (lk_step _ _ _ _ _ (upd_iproc_eq p ip2 _ σ2 Hp2)).
  eexists _, _. split; [done|]. split.
  - apply rhint_settled; [done|done|]. destruct Hu as [Hs _]. rewrite Ei in Hs.
    apply (to_int_range ip). by rewrite Hs.
  - split; [done|]. eexists. split; [simpl; apply lookup_insert_eq|].
    intros j x. rewrite rhint_used. apply Hused.
Qed.

(** * Making rights *)

Lemma dmove_settled rk X Y p mt σ σ' :
  settled rk X Y σ → dmove p mt σ σ' → kinv X Y σ' → settled rk X Y σ'.
Proof.
  intros [K R U W] D K'. destruct (frame_d_eqs _ _ (dm_frame _ _ _ _ D)) as (_ & _ & _ & _ & Ei & _).
  split; [done|by eapply dmove_ranked|unfold unlocked; congruence|].
  eapply no_lost_uwake; [by eapply dmove_uwake|done].
Qed.

(** [right_new] between taking the wide lock and giving it back. *)
Lemma mint_region X Y σ p ip q pt recv :
  kinv X Y σ → lockable σ → k_procs σ !! p = Some ip → k_ports σ !! q = Some pt →
  ∃ h σ1, right_new p q recv (with_ipc (List.map S (k_ipc σ)) σ) = Ok (h, σ1) ∧
    ipclock_leave σ1 = Ok (tt, with_ipc (k_ipc σ) σ1) ∧
    kinv X Y (with_ipc (k_ipc σ) σ1) ∧ h < MAXRIGHTS ∧
    dmove p (if h <? 0 then [] else [h]) σ (with_ipc (k_ipc σ) σ1) ∧
    (0 <= h → k_ports σ1 = <[q := port_taken recv pt]> (k_ports σ) ∧
       ∃ ip', k_procs σ1 !! p = Some ip' ∧ used_at ip' h (mkRight q recv true)).
Proof.
  intros K L Hp Hq. set (σ0 := with_ipc _ σ).
  destruct (right_new_dmove X Y σ0 p q recv ip pt) as (h & σ1 & E & K1 & D & Hh); try done.
  { by apply kinv_ipc. }
  destruct (frame_d_eqs _ _ (dm_frame _ _ _ _ D)) as (_ & _ & _ & _ & Ei & _).
  exists h, σ1. split_and!; [done| |by apply kinv_ipc|done| |].
  - by apply leave_any.
  - destruct D as [D1 D2 D3 D4 D5 D6 D7]. split; try done.
    unfold frame_d in *. simpl in *. injection D1. intros. congruence.
  - intros Hpos. destruct (right_new_spec X Y σ0 p q recv ip pt) as (h' & σ1' & E' & _ & _ & _ & Hm);
      try done; [by apply kinv_ipc|]. rewrite E in E'. injection E' as <- <-.
    unfold right_made in Hm. destruct (Z.ltb_spec h 0); [lia|].
    destruct Hm as (Hr & Eport & ip0 & old & Hg & Hs & _ & Ep & _). split; [done|]. exists (right_taken h q recv ip0).
    rewrite Ep. split; [apply lookup_insert_eq|].
    destruct (right_taken_frame h q recv ip0) as (_ & Er & Ex & _).
    destruct (grown_ok ip ip0 Hg (ki_proc _ _ _ K p ip Hp)) as [[T] _].
    split; [|done]. unfold right_slot. rewrite Er, Ex.
    change (right_slot (put_right h (mkRight q recv true) ip0) h = Some (mkRight q recv true)).
    destruct (put_right_all ip0 h (mkRight q recv true) old T Hs) as [Ea T'].
    pose proof (right_slot_range _ _ _ Hs). pose proof (right_slot_elem _ _ _ T Hs) as Hel.
    rewrite right_slot_all by done. rewrite Ea.
    destruct (Z.leb_spec 0 h); [|lia]. destruct (Z.ltb_spec h MAXRIGHTS); [|lia]. simpl.
    apply list_lookup_insert_eq. by apply lookup_lt_Some in Hel.
Qed.

(** sys.sendright: a new handle to the same port, never a receive right. *)
Lemma api_sendright_spec rk X Y σ p ip arg :
  settled rk X Y σ → calling p ip σ →
  ∃ out σ', api_sendright p arg σ = Ok (out, σ') ∧ settled rk X Y σ' ∧
    match right_get ip arg with
    | None => out = Raise "bad right" ∧ σ' = σ
    | Some (_, r) =>
        out = Raise "out of rights" ∧ dmove p [] σ σ' ∨
        ∃ h ip', out = Val (Ret [LInt h]) ∧ dmove p [h] σ σ' ∧ k_procs σ' !! p = Some ip' ∧
          used_at ip' h (mkRight (r_port r) false true)
    end.
Proof.
  intros Se C. pose proof (ca_proc _ _ _ C) as Hp. unfold api_sendright.
  assert (lockable σ) as L by (left; apply Se).
  rewrite (lk_step _ _ _ _ _ (enter_any σ L)), (lk_iproc p ip) by done.
  destruct (right_get ip arg) as [[i r]|] eqn:Hg.
  2:{ rewrite (lk_step (st_ret (-1)) _ _ (-1) _ eq_refl), leave_entered by done. by eexists _, σ. }
  destruct (right_get_Some _ _ _ _ Hg) as [_ Hu].
  destruct (used_port X Y σ p ip i r (se_kinv _ _ _ _ Se) Hp Hu) as [pt Hq].
  destruct (mint_region X Y σ p ip (r_port r) pt false (se_kinv _ _ _ _ Se) L Hp Hq)
    as (h & σ1 & E1 & E2 & K2 & _ & D & Hnew).
  rewrite (lk_step _ _ _ _ _ E1), (lk_step _ _ _ _ _ E2).
  assert (settled rk X Y (with_ipc (k_ipc σ) σ1)) as S2 by by eapply dmove_settled.
  destruct (Z.ltb_spec h 0).
  - eexists _, _. split; [done|]. split; [done|]. by left.
  - eexists _, _. split; [done|]. split; [done|]. right.
    destruct (Hnew ltac:(done)) as (_ & ip' & Hp' & Hu'). by exists h, ip'.
Qed.

Lemma port_new_ranked rk X Y σ q i gen σ' :
  kinv X Y σ → ranked rk σ → k_portv σ !! i = None →
  k_ports σ' = <[q := fresh_port i gen]> (k_ports σ) → k_portv σ' = <[i := q]> (k_portv σ) →
  ranked rk σ'.
Proof.
  intros K R Hi Ep Ev q0 p0 m ref q' H0 Hm Hr Hv. rewrite Ep in H0.
  apply lookup_insert_Some in H0 as [[<- <-]|[_ H0]]; [by apply elem_of_nil in Hm|].
  destruct (ro_msg _ _ (ki_refs _ _ _ K) q0 p0 m ref H0 Hm Hr) as [x Hx].
  rewrite Ev, lookup_insert_ne in Hv by congruence. by eapply (R q0 p0).
Qed.

Lemma port_new_uwake σ σ' q i gen :
  k_ports σ' = <[q := fresh_port i gen]> (k_ports σ) → rest σ' = rest σ → uwake (λ _, True) σ σ'.
Proof.
  intros Ep Er. unfold rest in Er. injection Er. intros. apply wake_ok_same; try congruence.
  intros q0 pt' Hq. rewrite Ep in Hq. apply lookup_insert_Some in Hq as [[<- <-]|[_ Hq]]; [by left|].
  right. eauto.
Qed.

(** sys.newport: within its budget, the one receive right to a port nobody else
    holds. *)
Lemma api_newport_spec rk X Y σ p ip :
  settled rk X Y σ → calling p ip σ →
  ∃ out σ', api_newport p σ = Ok (out, σ') ∧ settled rk X Y σ' ∧
    (port_budget_left ip = false → out = Raise "port limit" ∧ σ' = σ) ∧
    (∀ vs, out = Val (Ret vs) → port_budget_left ip = true ∧
       ∃ h q pt ip', vs = [LInt h] ∧ k_ports σ !! q = None ∧ k_ports σ' !! q = Some pt ∧
         pt_nrights pt = 1 ∧ pt_nrecv pt = 1 ∧ pt_queue pt = [] ∧ pt_dead pt = false ∧
         k_procs σ' !! p = Some ip' ∧ used_at ip' h (mkRight q true true)).
Proof.
  intros Se C. pose proof (ca_proc _ _ _ C) as Hp. unfold api_newport.
  assert (lockable σ) as L by (left; apply Se).
  rewrite (lk_step _ _ _ _ _ (enter_any σ L)), (lk_iproc p ip) by done.
  destruct (port_budget_left ip) eqn:Hb; cbn [negb].
  2:{ rewrite (lk_step (st_ret None) _ _ None _ eq_refl), (lk_step (st_ret (-1)) _ _ (-1) _ eq_refl).
      rewrite leave_entered by done. by eexists _, σ. }
  set (σ0 := with_ipc _ σ).
  destruct (port_new_spec X Y σ0) as (o & σ1 & E1 & K1 & Hrest & Ho).
  { apply kinv_ipc, Se. }
  rewrite (lk_step _ _ _ _ _ E1).
  assert (k_ipc σ1 = List.map S (k_ipc σ) ∧ k_procs σ1 = k_procs σ) as [Ei Epr]
    by (unfold rest in Hrest; injection Hrest; by intros).
  set (σ2 := with_ipc (k_ipc σ) σ1).
  assert (with_ipc (List.map S (k_ipc σ2)) σ2 = σ1) as E12
    by (unfold σ2, with_ipc; simpl; rewrite <-Ei; by destruct σ1).
  assert (lockable σ2) as L2 by (left; apply Se).
  destruct o as [q|].
  2:{ rewrite (lk_step (st_ret (-1)) _ _ (-1) _ eq_refl). rewrite <-E12, leave_entered by done.
      eexists _, σ2. destruct Ho as (Eport & Ev & _). split_and!; [done| |done|done].
      split; [by apply kinv_ipc| |apply Se|].
      - intros q0 p0 m ref q' H0 Hm Hr Hv. simpl in *. rewrite Eport in H0. rewrite Ev in Hv.
        by eapply (se_ranked _ _ _ _ Se q0 p0).
      - apply (no_lost_uwake σ); [|apply Se]. unfold rest in Hrest. injection Hrest. intros.
        apply wake_ok_same; try done. intros q0 p0 Hq0. right. simpl in Hq0. rewrite Eport in Hq0. eauto. }
  destruct Ho as (i & gen & Hq0 & Hi & _ & Eport & Ev & _). simpl in Hq0, Hi, Eport, Ev.
  assert (settled rk X Y σ2) as S2.
  { split; [by apply kinv_ipc| |apply Se|].
    - by eapply (port_new_ranked rk X Y σ q i gen σ2); [apply Se|apply Se|..].
    - apply (no_lost_uwake σ); [|apply Se]. unfold rest in Hrest. injection Hrest. intros.
      eapply (port_new_uwake σ σ2 q i gen); [done|]. unfold rest. simpl. congruence. }
  destruct (mint_region X Y σ2 p ip q (fresh_port i gen) true) as (h & σ3 & E3 & E4 & K4 & _ & D & Hnew).
  { apply S2. }
  { done. }
  { simpl. by rewrite Epr. }
  { simpl. rewrite Eport. apply lookup_insert_eq. }
  rewrite E12 in E3. rewrite (lk_step _ _ _ _ _ E3), (lk_step _ _ _ _ _ E4).
  assert (settled rk X Y (with_ipc (k_ipc σ2) σ3)) as S4 by by eapply dmove_settled.
  destruct (Z.ltb_spec h 0); eexists _, _; (split; [done|]); split_and!; try done.
  intros vs Hvs. split; [done|]. injection Hvs as <-.
  destruct (Hnew ltac:(done)) as (Ep3 & ip' & Hp' & Hu').
  exists h, q, (port_taken true (fresh_port i gen)), ip'. split_and!; try done.
  simpl. rewrite Ep3. apply lookup_insert_eq.
Qed.

(** * Going to sleep *)

Lemma ranked_waiters rk σ σ' :
  (∀ q pt', k_ports σ' !! q = Some pt' → ∃ pt, k_ports σ !! q = Some pt ∧ pt_queue pt' = pt_queue pt) →
  k_portv σ' = k_portv σ → ranked rk σ → ranked rk σ'.
Proof.
  intros Hp Ev R q pt' m ref q' H Hm Hr Hv. destruct (Hp q pt' H) as (pt & H0 & Eq).
  rewrite Eq in Hm. rewrite Ev in Hv. by eapply (R q pt).
Qed.

(** The state a sleeping call leaves: [p] waits on [q] and on nothing else. *)
Definition asleep (p q : nat) (send : bool) (σ : kst) : Prop :=
  blocked σ p ∧ ∃ (w : wid) (ip' : iproc) (pt' : kport), k_procs σ !! p = Some ip' ∧ ip_waiters ip' = [w] ∧
    k_ports σ !! q = Some pt' ∧ w ∈ pt_waiters pt' ∧
    k_waiters σ !! w = Some (mkWaiter p q send true) ∧
    if send then pt_dead pt' = false else pt_queue pt' = [].

(** Joining a port's list and descheduling, under the bucket of that port: nothing
    can be pushed in between. *)
Lemma sleep_region rk X Y σ p ip i r pt (send : bool) :
  settled rk X Y σ → calling p ip σ → used_at ip i r → k_ports σ !! r_port r = Some pt →
  (if send then pt_dead pt = false else pt_queue pt = []) →
  let σ0 := with_ipc (entered (ipcbucket_of pt) (k_ipc σ)) σ in
  ∃ (b : bool) σ1 σ', wait_add p (r_port r) send σ0 = Ok (b, σ1) ∧ settled rk X Y σ' ∧
    if b then (proc_block_ipc p ;;; ipclock_leave_port (r_port r)) σ1 = Ok (tt, σ') ∧
              asleep p (r_port r) send σ'
    else ipclock_leave_port (r_port r) σ1 = Ok (tt, σ').
Proof.
  intros [K R U W] C Hu Hq Hc σ0. set (q := r_port r) in *.
  destruct (enter_port_any q pt σ Hq) as (_ & Hheld & Hleave); [by left|].
  assert (kinv X Y σ0) as K0 by by apply kinv_ipc.
  destruct (used_elem ip i r) as [Hin Hur]; [by apply (ki_proc _ _ _ K p), C|done|].
  destruct (wait_add_spec X Y σ0 p q send ip pt) as (b & σ1 & E & K1 & W1 & I1 & Sc & V1 & Hb).
  { done. }
  { apply C. }
  { done. }
  { by apply Hheld. }
  { by eapply rights_n_elem. }
  { apply C. }
  destruct b.
  - destruct Hb as (w & ip1 & Ep & Eport & Ew & Hnew & Ewt & _ & Ewk).
    rewrite (ca_idle _ _ _ C) in Ewt. rewrite (ca_woken _ _ _ C) in Ewk.
    assert (k_procs σ1 !! p = Some ip1) as Hp1 by (rewrite Ep; apply lookup_insert_eq).
    destruct (proc_block_ipc_spec X Y σ1 p ip1 K1 Hp1 Ewk) as (s & E2 & K2 & Hbl & _ & W2).
    { apply (ipcheld_one_any (ipcbucket_of pt)); [apply bucket_lt|]. by apply Hheld; rewrite I1. }
    assert (k_ports σ1 !! q = Some (set_pt_waiters (pt_waiters pt ++ [w]) pt)) as Hq1
      by (rewrite Eport; apply lookup_insert_eq).
    exists true, σ1, (with_ipc (k_ipc σ) (set_k_sch s σ1)). split_and!; [done| | |].
    + split; [by apply kinv_ipc| |done|].
      * apply (ranked_waiters rk σ0); [|done|done]. intros q0 p0 H0. simpl in H0. rewrite Eport in H0.
        apply lookup_insert_Some in H0 as [[<- <-]|[_ H0]]; eauto.
      * apply (no_lost_uwake σ1); [|by apply (no_lost_uwake σ0)]. apply W2.
        intros q0 p0 w0 x0 H0 Hw0 Hx0 Hpx. 
        destruct (wo_port _ (ki_wait _ _ _ K1) q0 p0 w0 H0 Hw0) as (x1 & ip2 & Hx1 & Eq & _ & Hip2 & Hl).
        rewrite Hx0 in Hx1. injection Hx1 as <-.
        rewrite Hpx, Hp1 in Hip2. injection Hip2 as <-. rewrite Ewt in Hl.
        apply list_elem_of_singleton in Hl as ->. rewrite Ew, lookup_insert_eq in Hx0.
        injection Hx0 as <-. cbn [w_port w_send] in *. rewrite <-Eq, Hq1 in H0. injection H0 as <-.
        by destruct send.
    + rewrite (bind_ok _ _ _ _ _ E2). by eapply Hleave.
    + split; [done|]. exists w, ip1, (set_pt_waiters (pt_waiters pt ++ [w]) pt). simpl.
      split; [done|]. split; [done|]. split; [done|]. split; [|split].
      * apply elem_of_app. right. by apply list_elem_of_singleton.
      * rewrite Ew. apply lookup_insert_eq.
      * by destruct send.
  - destruct Hb as (-> & _ & _). exists false, (failed_st σ0), (with_ipc (k_ipc σ) (failed_st σ0)).
    split_and!; [done| |by eapply Hleave].
    split; [by apply kinv_ipc|done|done|]. by apply (no_lost_uwake σ0).
Qed.

(** sys.block: the caller sleeps on an empty queue it will be woken for, or learns
    why not. *)
Lemma api_block_spec rk X Y σ top p ip h :
  settled rk X Y σ → calling p ip σ →
  ∃ out σ', api_block top p h σ = Ok (out, σ') ∧ settled rk X Y σ' ∧
    (out = Val Yield → top = true ∧ ∃ i r, right_get ip h = Some (i, r) ∧ r_recv r = true ∧
       asleep p (r_port r) false σ') ∧
    (out = Val (Ret []) → σ' = σ ∧ ∃ i r pt, right_get ip h = Some (i, r) ∧
       k_ports σ !! r_port r = Some pt ∧ pt_queue pt ≠ []).
Proof.
  intros Se C. unfold api_block. destruct top; cbn [nopark].
  2:{ eexists _, σ. split; [done|]. by split_and!. }
  rewrite (lbind_val (lret tt) _ _ tt σ), (lk_iproc p ip) by (done || apply C).
  destruct (right_get ip h) as [[i r]|] eqn:Hg; [|by eexists _, σ; split_and!].
  destruct (right_get_Some _ _ _ _ Hg) as [_ Hu].
  destruct (r_recv r) eqn:Hr; [|by eexists _, σ; split_and!].
  destruct (used_port X Y σ p ip i r (se_kinv _ _ _ _ Se) (ca_proc _ _ _ C) Hu) as [pt Hq].
  destruct (enter_port_any (r_port r) pt σ Hq) as (Eent & _ & Hleave); [left; apply Se|].
  rewrite (lk_step _ _ _ _ _ Eent), (lk_port (r_port r) pt) by done.
  assert (ipclock_leave_port (r_port r) (with_ipc (entered (ipcbucket_of pt) (k_ipc σ)) σ) = Ok (tt, σ))
    as Eback.
  { rewrite (Hleave _ pt) by done. by destruct σ. }
  destruct (pt_queue pt) as [|m l] eqn:Hqueue; rewrite ?(ca_idle _ _ _ C).
  2:{ rewrite (lk_step _ _ _ _ _ Eback). eexists _, σ. split_and!; try done.
      intros _. split; [done|]. exists i, r, pt. by rewrite Hqueue. }
  destruct (sleep_region rk X Y σ p ip i r pt false Se C Hu Hq Hqueue) as (b & σ1 & σ' & E & S' & Hb).
  rewrite (lk_step _ _ _ _ _ E). destruct b; cbn [negb].
  - destruct Hb as [E2 A]. rewrite (lk_step _ _ _ _ _ E2). eexists _, σ'. split_and!; try done.
    intros _. split; [done|]. by exists i, r.
  - rewrite (lk_step _ _ _ _ _ Hb). by eexists _, σ'; split_and!.
Qed.

(** sys.sendblock, the same for room. *)
Lemma api_sendblock_spec rk X Y σ top p ip h need :
  settled rk X Y σ → calling p ip σ →
  ∃ out σ', api_sendblock top p h need σ = Ok (out, σ') ∧ settled rk X Y σ' ∧
    (out = Val Yield → top = true ∧ ∃ i r pt, right_get ip h = Some (i, r) ∧ asleep p (r_port r) true σ' ∧
       k_ports σ !! r_port r = Some pt ∧ pt_dead pt = false ∧ size_t σ need <= MAXQUEUE ∧
       MAXQUEUE < size_t σ (pt_qbytes pt + size_t σ need)) ∧
    (out = Val (Ret []) → σ' = σ ∧ ∃ i r pt, right_get ip h = Some (i, r) ∧ k_ports σ !! r_port r = Some pt ∧
       (pt_dead pt = true ∨ MAXQUEUE < size_t σ need ∨ size_t σ (pt_qbytes pt + size_t σ need) <= MAXQUEUE)).
Proof.
  intros Se C. unfold api_sendblock. destruct (need <? 0); [by eexists _, σ; split_and!|].
  destruct top; cbn [nopark].
  2:{ eexists _, σ. split; [done|]. by split_and!. }
  rewrite (lbind_val (lret tt) _ _ tt σ), (lk_iproc p ip) by (done || apply C).
  destruct (right_get ip h) as [[i r]|] eqn:Hg; [|by eexists _, σ; split_and!].
  destruct (right_get_Some _ _ _ _ Hg) as [_ Hu].
  destruct (used_port X Y σ p ip i r (se_kinv _ _ _ _ Se) (ca_proc _ _ _ C) Hu) as [pt Hq].
  destruct (enter_port_any (r_port r) pt σ Hq) as (Eent & _ & Hleave); [left; apply Se|].
  rewrite (lk_step _ _ _ _ _ Eent), (lk_port (r_port r) pt) by done.
  set (σ0 := with_ipc _ σ) in *.
  assert (ipclock_leave_port (r_port r) σ0 = Ok (tt, σ)) as Eback.
  { rewrite (Hleave _ pt) by done. by destruct σ. }
  rewrite (lk_step st_get _ σ0 σ0 σ0), (ca_idle _ _ _ C) by done.
  destruct (pt_dead pt || _ || _) eqn:Hgo.
  { rewrite (lk_step _ _ _ _ _ Eback). eexists _, σ. split_and!; try done. intros _. split; [done|].
    exists i, r, pt. split_and!; try done. unfold has_room in Hgo.
    apply orb_true_iff in Hgo as [[?|?%Z.ltb_lt]%orb_true_iff|?%Z.leb_le]; [by left|by right; left|by right; right]. }
  apply orb_false_iff in Hgo as [[Hd Hbig%Z.ltb_ge]%orb_false_iff Hroom%Z.leb_gt].
  destruct (sleep_region rk X Y σ p ip i r pt true Se C Hu Hq Hd) as (b & σ1 & σ' & E & S' & Hb).
  rewrite (lk_step _ _ _ _ _ E). destruct b; cbn [negb].
  - destruct Hb as [E2 A]. rewrite (lk_step _ _ _ _ _ E2). eexists _, σ'. split_and!; try done.
    intros _. split; [done|]. by exists i, r, pt.
  - rewrite (lk_step _ _ _ _ _ Hb). by eexists _, σ'; split_and!.
Qed.

(** * Sending *)

(** The storage of a buffer, as a message or the kernel's books name it. *)
Definition store (u : ubuf) : option nat * Z := (ub_chunk u, Z.of_nat (length (ub_bytes u))).
Definition stores (L : list ubuf) : msgbufs := List.map store L.

(** [L] is every buffer [v] could give away. *)
Definition gives (v : lv) (L : list ubuf) : Prop :=
  ∀ u, has_user u v → is_Some (luabuf_borrow (LUser u)) → u ∈ L.

Lemma borrow_store u c n h :
  luabuf_borrow (LUser u) = Some (c, n, h) → (Some c, n) = store u ∧ h = ub_handle u.
Proof.
  unfold luabuf_borrow, store. destruct (ub_chunk u) as [c0|]; [|done].
  destruct (_ || _); [done|]. intros H. by simplify_eq.
Qed.

(** What a message lends is some of the buffers, each once. *)
Lemma lent_split v L nb no :
  gives v L → Forall2 (lent (λ u, has_user u v)) nb no → NoDup no →
  ∃ L1 L2, L ≡ₚ L1 ++ L2 ∧ nb = stores L1 ∧ no = List.map ub_handle L1.
Proof.
  intros HL HF Hnd.
  assert (∃ L1, nb = stores L1 ∧ no = List.map ub_handle L1 ∧ Forall (λ u, u ∈ L) L1)
    as (L1 & En & Eo & HL1).
  { clear Hnd. induction HF as [|b o nb no (u & c & HP & Hb & Hc) _ (L1 & -> & -> & IH)].
    - by exists [].
    - destruct (borrow_store _ _ _ _ Hb) as [Es Eh]. exists (u :: L1). cbn [stores List.map].
      split_and!.
      + f_equal. rewrite <-Es, <-Hc. by destruct b.
      + by rewrite Eh.
      + constructor; [|done]. apply HL; [done|by rewrite Hb]. }
  assert (L1 ⊆+ L) as Hsub.
  { apply NoDup_submseteq.
    - rewrite Eo in Hnd. clear -Hnd. induction L1 as [|u L1 IH]; [constructor|].
      apply NoDup_cons in Hnd as [Hn Hnd]. constructor; [|by apply IH].
      intros Hin. apply Hn. apply list_elem_of_In, in_map, list_elem_of_In, Hin.
    - intros u Hu. rewrite Forall_forall in HL1. by apply HL1. }
  apply submseteq_Permutation in Hsub as [L2 HP]. by exists L1, L2.
Qed.

Lemma bufs_n_perm c (l l' : msgbufs) : l ≡ₚ l' → bufs_n c l = bufs_n c l'.
Proof. unfold bufs_n, zsum. induction 1; simpl in *; lia. Qed.

Lemma kinv_bufs_perm X Y Y' σ : Y ≡ₚ Y' → kinv X Y σ → kinv X Y' σ.
Proof. intros HP. apply kinv_bufs. intros c. by rewrite (bufs_n_perm c _ _ HP). Qed.

Lemma stores_perm L L1 L2 : L ≡ₚ L1 ++ L2 → stores L ≡ₚ stores L1 ++ stores L2.
Proof. intros H. unfold stores. rewrite <-map_app. by apply Permutation_map. Qed.

Lemma store_nonneg L b : b ∈ stores L → 0 <= snd b.
Proof.
  unfold stores. intros H. apply list_elem_of_In, in_map_iff in H as (u & <- & _). simpl. lia.
Qed.

Lemma wreserve_run n σ : ∃ w σ', wreserve wbuf0 n σ = Ok (w, σ') ∧ amove σ σ' ∧
  wbuf_ok w ∧ w_data w = [] ∧ w_refs w = [] ∧ w_bufs w = [] ∧ w_own w = [].
Proof.
  unfold wreserve. destruct ((n <? 256) || (MAXMSG <? n) || (n <=? w_cap wbuf0)) eqn:E.
  { exists wbuf0, σ. split_and!; try done. auto with nlos. }
  apply orb_false_iff in E as [[E1%Z.ltb_ge E2%Z.ltb_ge]%orb_false_iff _].
  destruct (amove_alloc σ) as [Ha Hf]. destruct (k_mem σ (k_nalloc σ)) eqn:Em.
  - rewrite (bind_ok _ _ σ (Some (k_next σ)) (alloc_st σ)) by by rewrite malloc_eq, Em.
    eexists _, _. split; [done|]. split; [done|]. split; [|done].
    unfold wbuf_ok, w_len. simpl. lia.
  - rewrite (bind_ok _ _ σ None (failed_st σ)) by by rewrite malloc_eq, Em.
    eexists _, _. split; [done|]. by split_and!.
Qed.

Lemma gave_refl rk X Y σ : kinv X Y σ → ranked rk σ → gave rk X Y σ σ.
Proof.
  intros K R. split_and!; try done; [by intros q _ H| |apply queues_kept_refl].
  by apply same_procs_refl.
Qed.

Lemma send_discard_spec rk X Y σ w :
  kinv (w_refs w ++ X) Y σ → ranked rk σ → lockable σ →
  ∃ σ', send_discard w σ = Ok (tt, σ') ∧ gave rk X Y σ σ'.
Proof.
  intros K R L. unfold send_discard. destruct (w_refs w) as [|ref refs] eqn:Er.
  - exists σ. split; [done|by apply gave_refl].
  - apply locked_spec; [done|]. intros σ1 -> Hl. apply release_inflight_spec; [by apply kinv_ipc|done|done].
Qed.

Lemma detach_run p (bufs : msgbufs) σ :
  is_Some (k_acct σ !! p) →
  ∃ a, st_iter (λ b, luabuf_detach p (snd b)) bufs σ = Ok (tt, set_k_acct a σ) ∧
    ∀ p, is_Some (k_acct σ !! p) → is_Some (a !! p).
Proof.
  revert σ. induction bufs as [|b bufs IH]; intros σ Ha.
  { exists (k_acct σ). split; [by destruct σ|done]. }
  destruct Ha as [a0 Ha]. cbn [st_iter].
  set (a1 := set_buf_used (size_t σ (buf_used a0 - snd b)) (set_mem_used (size_t σ (mem_used a0 - snd b)) a0)).
  set (σ1 := set_k_acct (<[p := a1]> (k_acct σ)) σ).
  assert (∀ p', is_Some (k_acct σ !! p') → is_Some (k_acct σ1 !! p')) as Hk.
  { intros p' H. simpl. destruct (decide (p' = p)) as [->|]; [by rewrite lookup_insert_eq|].
    by rewrite lookup_insert_ne. }
  destruct (IH σ1) as (a & E & Hs); [by apply Hk|].
  exists a. split; [|auto].
  assert (luabuf_detach p (snd b) σ = Ok (tt, σ1)) as E1.
  { unfold luabuf_detach, kbuf_uncharge. rewrite (bind_ok _ _ σ a0 σ) by (unfold get_acct; by rewrite Ha). done. }
  rewrite (bind_ok _ _ _ _ _ E1), E. by destruct σ.
Qed.

Lemma smove_lockable σ σ' : smove σ σ' → lockable σ → lockable σ'.
Proof.
  intros [D _]. destruct (frame_d_eqs _ _ (dm_frame _ _ _ _ D)) as (_ & _ & _ & _ & Ei & _).
  unfold lockable, unlocked, wide. by rewrite Ei.
Qed.

(** Serializing for a send. *)
Definition message (p : nat) (v : lv) : LM (Z * wbuf) :=
  do! w := lk (wreserve wbuf0 (sizehint v)) in serialize_top p v w.

(** The message, its references taken, its buffers lent; a raise, which only a buffer
    already given away brings about, leaves the references taken until then. *)
Lemma message_run X Y σ p ip v :
  kinv X Y σ → k_procs σ !! p = Some ip → fits (k_szbits σ) v →
  ∃ out σ', message p v σ = Ok (out, σ') ∧
    smove σ σ' ∧
    match out with
    | Raise e => e = "buffer has been given away"%string ∧ (∃ u, has_user u v ∧ ub_chunk u = None) ∧
        ∃ refs, Forall (held_ref ip (k_portv σ)) refs ∧ kinv (refs ++ X) Y σ'
    | Val (_, w) => kinv (w_refs w ++ X) Y σ' ∧ wgood w ∧
        Forall (held_ref ip (k_portv σ)) (w_refs w) ∧
        Forall2 (lent (λ u, has_user u v)) (w_bufs w) (w_own w)
    end.
Proof.
  intros K Hp [Hwide Hfit]. destruct (wreserve_run (sizehint v) σ) as (w & σ1 & E1 & A1 & Hok & Ed & Er & Eb & Eo).
  unfold message. rewrite (lk_step _ _ _ _ _ E1).
  assert (writing p ip (k_portv σ) (k_szbits σ) X Y w σ1) as W1.
  { destruct A1 as (a & n & -> & Hn). split; [|done|done|done|].
    - rewrite Er. eapply kinv_ext; [exact K|done..].
    - split; [done|by rewrite Er|by rewrite Eb|]. rewrite Eo. constructor. }
  destruct (serialize_runs p ip (k_portv σ) (k_szbits σ) X Y (λ u, has_user u v) Hwide (Z.to_nat (MAXDEPTH + 1)) v w σ1)
    as (out & σ2 & E2 & H2); [done..|].
  exists out, σ2. split; [done|]. pose proof (smove_amove _ _ A1) as S1.
  destruct out as [[rc w2]|e].
  - destruct H2 as (X2 & S2 & [K2 _ _ _ G2]). split; [by eapply smove_trans|].
    destruct X2 as [_ (l & El & Fl) (nb & no & Enb & Eno & Fb)].
    rewrite Er in El. rewrite Eb in Enb. rewrite Eo in Eno. simpl in El, Enb, Eno. subst. auto.
  - destruct H2 as (S2 & He & Hu & l & Fl & K2). split; [by eapply smove_trans|]. split_and!; [done..|].
    exists l. rewrite Er in K2. done.
Qed.

(** The queues of all ports but [q]. *)
Definition others_kept (q : nat) (σ σ' : kst) : Prop :=
  ∀ q' pt, q' ≠ q → k_ports σ !! q' = Some pt → ∃ pt', k_ports σ' !! q' = Some pt' ∧
    pt_queue pt' = pt_queue pt ∧ pt_dead pt' = pt_dead pt.

(** Why a send was refused; [pt] is the port and [len] the size reported. *)
Definition refusal (rc : send_rc) (len : Z) (pt : kport) : Prop :=
  match rc with
  | SEND_DEAD => pt_dead pt = true
  | SEND_FULL => pt_dead pt = false ∧ MAXQUEUE < pt_qbytes pt + len
  | _ => True
  end.

(** What becomes of a send: [m] is the message the serializer made of [v], and [L] the
    buffers [v] could give away. *)
Definition sent (rk : nat → nat) (X : list (nat * bool)) (Y : msgbufs) (L : list ubuf) (p : nat) (ip : iproc) (v : lv)
    (q : nat) (σ σ' : kst) (out : lout (send_rc * Z * list nat)) : Prop :=
  same_procs σ σ' ∧ ∃ pt, k_ports σ !! q = Some pt ∧
  match out with
  | Raise e => e = "buffer has been given away"%string ∧ (∃ u, has_user u v ∧ ub_chunk u = None) ∧
      ranked rk σ' ∧ queues_kept σ σ' ∧
      ∃ refs, Forall (held_ref ip (k_portv σ)) refs ∧ kinv (refs ++ X) (stores L ++ Y) σ'
  | Val (SEND_OK, _, det) =>
      ∃ L1 L2 m w σ1 pt', message p v σ = Ok (Val (0, w), σ1) ∧
        m = mkKmsg (w_data w) (w_bufs w) (msg_cost (w_data w) (w_bufs w)) (w_refs w) ∧
        L ≡ₚ L1 ++ L2 ∧ det = List.map ub_handle L1 ∧ m_bufs m = stores L1 ∧
        kinv X (stores L2 ++ Y) σ' ∧ Forall (held_ref ip (k_portv σ)) (m_refs m) ∧
        k_ports σ' !! q = Some pt' ∧ pt_queue pt' = pt_queue pt ++ [m] ∧ others_kept q σ σ' ∧
        (Forall (λ ref, ∀ q', k_portv σ !! fst ref = Some q' → rk q' < rk q)%nat (m_refs m) →
         ranked rk σ')
  | Val (rc, len, det) => det = [] ∧ kinv X (stores L ++ Y) σ' ∧ ranked rk σ' ∧ queues_kept σ σ' ∧ refusal rc len pt
  end.

Lemma gave_uwake rk X Y σ σ' : gave rk X Y σ σ' → uwake (λ _, True) σ σ'.
Proof. by intros (_ & _ & _ & W & _). Qed.

(** A message queued: only [q] changed, and by one message at its tail. *)
Lemma ranked_push rk σ1 σ' q pt data refs bufs :
  ranked rk σ1 → k_ports σ1 !! q = Some pt → wframe q (put q (pushed data refs bufs pt) (alloc_st σ1)) σ' →
  Forall (λ ref, ∀ q', k_portv σ1 !! fst ref = Some q' → rk q' < rk q)%nat refs → ranked rk σ'.
Proof.
  intros R Hq F HF q0 p0 m ref q' H0 Hm Hr Hv.
  pose proof (wfr_core _ _ _ F) as C. unfold core in C. injection C. intros.
  assert (k_portv σ1 !! fst ref = Some q') as Hv' by congruence.
  destruct (decide (q0 = q)) as [->|Hne].
  - destruct (wfr_self q _ _ F (pushed data refs bufs pt)) as (l & Hq' & _).
    { simpl. apply lookup_insert_eq. }
    rewrite Hq' in H0. injection H0 as <-. cbn [pt_queue set_pt_waiters] in Hm.
    destruct (pushed_frame data refs bufs pt) as (_ & _ & _ & _ & _ & _ & _ & Eq). rewrite Eq in Hm.
    apply elem_of_app in Hm as [Hm|Hm%list_elem_of_singleton]; [by eapply (R q pt)|].
    subst m. rewrite Forall_forall in HF. by apply (HF ref).
  - rewrite (wfr_port _ _ _ F q0 Hne) in H0. simpl in H0. rewrite lookup_insert_ne in H0 by done.
    by eapply (R q0 p0).
Qed.

Lemma ranked_refused rk σ1 σ' q pt rc :
  ranked rk σ1 → k_ports σ1 !! q = Some pt → k_ports σ' = <[q := refused rc pt]> (k_ports σ1) →
  k_portv σ' = k_portv σ1 → ranked rk σ'.
Proof.
  intros R Hq Ep Ev. eapply ranked_waiters; [|exact Ev|exact R]. intros q0 p0 H0. rewrite Ep in H0.
  apply lookup_insert_Some in H0 as [[<- <-]|[_ H0]]; [|eauto].
  exists pt. split; [done|]. unfold refused. by repeat case_match.
Qed.

Lemma lbind_assoc {A B C} (m : LM A) (f : A → LM B) (k : B → LM C) σ :
  lbind m (λ a, lbind (f a) k) σ = lbind (lbind m f) k σ.
Proof.
  unfold lbind. rewrite bind_assoc. unfold st_bind. destruct (m σ) as [[[a|e] σ']|]; done.
Qed.

Lemma lbind_raise {A B} (m : LM A) (k : A → LM B) σ e σ' :
  m σ = Ok (Raise e, σ') → lbind m k σ = Ok (Raise e, σ').
Proof. intros E. unfold lbind. by rewrite (bind_ok _ _ _ _ _ E). Qed.

Lemma refused_queues_kept σ σ' q pt rc :
  k_ports σ !! q = Some pt → k_ports σ' = <[q := refused rc pt]> (k_ports σ) → queues_kept σ σ'.
Proof.
  intros Hq Ep q0 pt0 H0 _. rewrite Ep. destruct (decide (q = q0)) as [<-|N].
  - rewrite lookup_insert_eq. simplify_eq. eexists. split; [done|]. unfold refused. by repeat case_match.
  - rewrite lookup_insert_ne by done. by exists pt0.
Qed.

(** The bucket of the port entered, the message offered, the bucket left. *)
Lemma push_region rk X Y σ q pt data refs bufs :
  kinv (refs ++ X) (bufs ++ Y) σ → ranked rk σ → lockable σ → k_ports σ !! q = Some pt →
  (∀ b, b ∈ bufs → 0 <= snd b) →
  ∃ rc σ1 σ', ipclock_enter_port q σ = Ok (tt, with_ipc (entered (ipcbucket_of pt) (k_ipc σ)) σ) ∧
    port_push_owned q data refs bufs (with_ipc (entered (ipcbucket_of pt) (k_ipc σ)) σ) = Ok (rc, σ1) ∧
    ipclock_leave_port q σ1 = Ok (tt, σ') ∧ k_ipc σ' = k_ipc σ ∧ k_acct σ' = k_acct σ ∧
    k_portv σ' = k_portv σ ∧ uwake (λ _, True) σ σ' ∧
    (rc = push_rc data bufs pt (k_mem σ (k_nalloc σ))) ∧
    (k_mem σ' = k_mem σ ∧ k_szbits σ' = k_szbits σ ∧
     ∀ p ip, k_procs σ !! p = Some ip → ∃ b, k_procs σ' !! p = Some (set_ip_woken b ip)) ∧
    if rc =? 0 then kinv X Y σ' ∧
        (∃ pt', k_ports σ' !! q = Some pt' ∧
           pt_queue pt' = pt_queue pt ++ [mkKmsg data bufs (msg_cost data bufs) refs]) ∧
        (Forall (λ ref, ∀ q', k_portv σ !! fst ref = Some q' → rk q' < rk q)%nat refs → ranked rk σ') ∧
        (∀ q', q' ≠ q → k_ports σ' !! q' = k_ports σ !! q')
    else kinv (refs ++ X) (bufs ++ Y) σ' ∧ ranked rk σ' ∧ queues_kept σ σ'.
Proof.
  intros K R L Hq Hb. destruct (enter_port_any q pt σ Hq L) as (Eent & Hheld & Hleave).
  set (σ0 := with_ipc _ σ) in *. assert (kinv (refs ++ X) (bufs ++ Y) σ0) as K0 by by apply kinv_ipc.
  destruct (port_push_owned_spec X Y σ0 q pt data refs bufs K0 Hq) as (σ1 & E & W & I & _ & H);
    [by apply Hheld|done|].
  set (rc := push_rc data bufs pt _) in *.
  exists rc, σ1, (with_ipc (k_ipc σ) σ1).
  destruct (rc =? 0) eqn:Erc.
  - destruct H as (K1 & _ & F). destruct (pushed_frame data refs bufs pt) as (Ei & _ & _ & _ & _ & _ & _ & Eq).
    destruct (wfr_self q _ _ F (pushed data refs bufs pt)) as (l & Hq' & _).
    { simpl. apply lookup_insert_eq. }
    pose proof (wfr_core _ _ _ F) as C. unfold core in C. injection C. intros.
    split; [done|]. split; [done|]. split; [by eapply Hleave|].
    split; [done|]. split; [done|]. split; [done|]. split; [done|]. split; [done|].
    split; [split; [done|split; [done|exact (wfr_proc _ _ _ F)]]|].
    split; [by apply kinv_ipc|]. split; [by eexists; split; [exact Hq'|exact Eq]|].
    split; [intros HF; by eapply (ranked_push rk σ0 σ1 q pt data refs bufs)|].
    intros q' N. simpl. rewrite (wfr_port _ _ _ F q' N). simpl. by rewrite lookup_insert_ne.
  - destruct H as (K1 & Ep & F). unfold frame_p in F. injection F. intros.
    split; [done|]. split; [done|].
    split; [eapply (Hleave _ (refused rc pt)); [by rewrite Ep, lookup_insert_eq|
              unfold refused; by repeat case_match|done]|].
    split; [done|]. split; [done|]. split; [done|]. split; [done|]. split; [done|].
    split; [split; [done|split; [done|by apply same_woken]]|].
    split; [by apply kinv_ipc|]. split; [by eapply (ranked_refused rk σ0 σ1 q pt rc)|].
    by apply (refused_queues_kept σ _ q pt rc).
Qed.

(** After the message is made: all the ports as they were, but for the references. *)
Lemma smove_kept σ σ' q pt : smove σ σ' → k_ports σ !! q = Some pt →
  ∃ pt', k_ports σ' !! q = Some pt' ∧ pt_queue pt' = pt_queue pt ∧ pt_dead pt' = pt_dead pt ∧ pt_qbytes pt' = pt_qbytes pt.
Proof. intros [D _] Hq. destruct (dm_port _ _ _ _ D q pt Hq) as (pt' & H & _ & _ & _ & ? & ? & ?). by exists pt'. Qed.

Lemma push_refusal data bufs pt b : (push_rc data bufs pt b =? 0) = false →
  refusal (if push_rc data bufs pt b =? -2 then SEND_FULL else if push_rc data bufs pt b =? -3 then SEND_DEAD else SEND_NOMEM)
    (msg_cost data bufs) pt.
Proof.
  unfold push_rc. destruct (pt_dead pt) eqn:Ed; [done|]. destruct (Z.ltb_spec MAXQUEUE (pt_qbytes pt + msg_cost data bufs)); [done|].
  by destruct b.
Qed.

Lemma port_send_spec rk X Y L σ p ip i r v :
  kinv X (stores L ++ Y) σ → ranked rk σ → lockable σ → k_procs σ !! p = Some ip →
  is_Some (k_acct σ !! p) → used_at ip i r → gives v L → fits (k_szbits σ) v →
  ∃ out σ', port_send_from_lua p r v σ = Ok (out, σ') ∧ k_ipc σ' = k_ipc σ ∧
    uwake (λ _, True) σ σ' ∧ sent rk X Y L p ip v (r_port r) σ σ' out.
Proof.
  intros K R Lk Hp Ha Hu HL Hfit. unfold port_send_from_lua. rewrite lbind_assoc. fold (message p v).
  destruct (message_run X (stores L ++ Y) σ p ip v K Hp Hfit) as (out & σ1 & E1 & S1 & H1).
  pose proof S1 as [D1 [Ep1 Ea1]]. destruct (used_port _ _ σ p ip i r K Hp Hu) as [pt Hq].
  destruct (frame_d_eqs _ _ (dm_frame _ _ _ _ D1)) as (Ev & _ & _ & _ & Ei & _).
  assert (ranked rk σ1) as R1 by by eapply dmove_ranked.
  assert (uwake (λ _, True) σ σ1) as W1 by by eapply dmove_uwake.
  pose proof (same_procs_refl _ _ Ep1) as Sp1. pose proof (dmove_queues_kept _ _ _ _ D1) as Kp1.
  destruct out as [[rc w]|e].
  2:{ rewrite (lbind_raise _ _ _ _ _ E1). destruct H1 as (He & Hg & refs & HF & K1). exists (Raise e), σ1.
      split_and!; [done..|]. split; [done|]. exists pt. split_and!; [done..|]. by exists refs. }
  rewrite (lbind_val _ _ _ _ _ E1). cbn [fst snd]. destruct H1 as (K1 & G & HR & HB).
  destruct (lent_split v L _ _ HL HB (wg_own _ G)) as (L1 & L2 & HP & Eb & Eo).
  assert (lockable σ1) as Lk1 by by eapply smove_lockable.
  destruct (negb (rc =? 0)) eqn:Erc.
  { destruct (send_discard_spec rk X (stores L ++ Y) σ1 w K1 R1 Lk1) as (σ2 & E2 & G2). rewrite (lk_step _ _ _ _ _ E2).
    eexists _, σ2. pose proof G2 as (K2 & R2 & B2 & W2 & _ & P2 & Kp2).
    split; [done|]. split; [by rewrite (base_ipc _ _ B2)|]. split; [by eapply uwake_trans|].
    split; [by eapply same_procs_trans|]. exists pt. split_and!; try done.
    eapply queues_kept_comp; [intros q; by apply same_procs_receivable|done..]. }
  apply negb_false_iff, Z.eqb_eq in Erc as ->.
  destruct (smove_kept _ _ _ _ S1 Hq) as (pt1 & Hq1 & Eq1 & Ed1 & Eb1).
  destruct (push_region rk X (stores L2 ++ Y) σ1 (r_port r) pt1 (w_data w) (w_refs w) (w_bufs w))
    as (rc2 & σ2 & σ3 & E2 & E3 & E4 & I3 & A3 & V3 & W3 & Hrc & (_ & _ & P3) & H3); try done.
  { eapply kinv_bufs_perm; [|exact K1]. rewrite Eb, (assoc_L (++)). f_equiv. by apply stores_perm. }
  { intros b. rewrite Eb. apply store_nonneg. }
  rewrite (lk_step _ _ _ _ _ E2), (lk_step _ _ _ _ _ E3), (lk_step _ _ _ _ _ E4).
  pose proof (same_procs_trans _ _ _ Sp1 P3) as Sp3. destruct (rc2 =? 0) eqn:Erc2.
  - destruct H3 as (K3 & (pt' & Hq' & Eq) & HR3 & Ho).
    destruct (detach_run p (w_bufs w) σ3) as (a & E5 & _); [by rewrite A3, Ea1|].
    rewrite (lk_step _ _ _ _ _ E5). eexists _, _. split; [done|].
    split; [simpl; congruence|]. split; [eapply uwake_trans; [exact W1|exact W3]|]. split; [exact Sp3|].
    exists pt. split; [done|].
    exists L1, L2, (mkKmsg (w_data w) (w_bufs w) (msg_cost (w_data w) (w_bufs w)) (w_refs w)), w, σ1, pt'.
    split_and!; try done.
    + eapply kinv_ext; [exact K3|done..].
    + by rewrite Eq, Eq1.
    + intros q' pt0 N H0. destruct (smove_kept _ _ _ _ S1 H0) as (pt2 & H2 & ? & ? & _). exists pt2. simpl. by rewrite Ho.
    + intros HF. apply HR3. by rewrite Ev.
  - destruct H3 as (K3 & R3 & Kp3).
    destruct (send_discard_spec rk X (stores L ++ Y) σ3 w) as (σ4 & E5 & G4); [|done| |].
    { eapply kinv_bufs_perm; [|exact K3]. rewrite Eb, (assoc_L (++)). f_equiv. symmetry. by apply stores_perm. }
    { unfold lockable, unlocked, wide. by rewrite I3. }
    rewrite (lk_step _ _ _ _ _ E5). eexists _, σ4. pose proof G4 as (K4 & R4 & B4 & W4 & _ & P4 & Kp4).
    split; [done|]. split; [rewrite (base_ipc _ _ B4); congruence|].
    split; [eapply uwake_trans; [exact W1|by eapply uwake_trans]|]. split; [by eapply same_procs_trans|].
    exists pt. split; [done|].
    assert (queues_kept σ σ4) as Kp.
    { apply (queues_kept_comp σ σ1 σ4); [intros q; by apply same_procs_receivable|exact Kp1|].
      apply (queues_kept_comp σ1 σ3 σ4); [intros q; by apply same_procs_receivable|done..]. }
    rewrite Hrc in Erc2. pose proof (push_refusal _ _ _ _ Erc2) as Hw. rewrite <-Hrc in Hw. unfold refusal in Hw.
    rewrite Ed1, Eb1 in Hw. change (msg_cost (w_data w) (w_bufs w)) with (w_len w + msgbufs_bytes (w_bufs w)) in Hw.
    destruct (rc2 =? -2); [done|]. by destruct (rc2 =? -3).
Qed.

Definition send_answer (out : lout (send_rc * Z * list nat)) : lout sysret :=
  match out with
  | Raise e => Raise e
  | Val (SEND_OK, _, _) => Val (Ret [LBool true])
  | Val (SEND_UNSERIALIZABLE, _, _) => Raise "unserializable message"
  | Val (SEND_NOMEM, _, _) => Raise "out of memory queueing message"
  | Val (SEND_DEAD, _, _) => Val (Ret [LBool false; lstr "dead"])
  | Val (SEND_FULL, len, _) => Val (Ret [LBool false; lstr "full"; LInt len])
  end.

Lemma api_send_spec rk X Y L σ p ip h v :
  settled rk X (stores L ++ Y) σ → calling p ip σ → gives v L → fits (k_szbits σ) v →
  ∃ out σ', api_send p h v σ = Ok (out, σ') ∧ unlocked σ' ∧ no_lost_wakeup σ' ∧
    match right_get ip h with
    | None => out = Raise "bad right" ∧ σ' = σ
    | Some (_, r) => ∃ o, out = send_answer o ∧ sent rk X Y L p ip v (r_port r) σ σ' o
    end.
Proof.
  intros [K R U W] C HL Hfit. unfold api_send. rewrite (lk_iproc p ip) by apply C.
  destruct (right_get ip h) as [[i r]|] eqn:Hg; [|by eexists _, σ].
  destruct (right_get_Some _ _ _ _ Hg) as [_ Hu].
  destruct (port_send_spec rk X Y L σ p ip i r v K R) as (o & σ' & E & I & W' & Hs);
    [by left|apply C|apply C|done|done|done|].
  exists (send_answer o), σ'. split_and!; [|unfold unlocked; by rewrite I|by eapply no_lost_uwake|by exists o].
  destruct o as [[[rc len] det]|e]; [|by rewrite (lbind_raise _ _ _ _ _ E)].
  rewrite (lbind_val _ _ _ _ _ E). by destruct rc.
Qed.

(** * Receiving *)

(** The same rights in the same slots. *)
Definition same_rights (ip ip' : iproc) : Prop := ∀ h r, used_at ip' h r ↔ used_at ip h r.

Lemma minted_forall mt ip ip' : minted mt ip ip' → Forall (λ h, 0 <= h) mt.
Proof. by intros (_ & _ & H). Qed.

Lemma undone_lockable rk X Y p mt σ σ' : undone rk X Y p mt σ σ' → lockable σ → lockable σ'.
Proof.
  intros (_ & _ & B & _). unfold lockable, unlocked, wide. by rewrite (base_ipc _ _ B).
Qed.

Lemma dmove_lockable p mt σ σ' : dmove p mt σ σ' → lockable σ → lockable σ'.
Proof.
  intros D. destruct (frame_d_eqs _ _ (dm_frame _ _ _ _ D)) as (_ & _ & _ & _ & Ei & _).
  unfold lockable, unlocked, wide. by rewrite Ei.
Qed.

Lemma slot_lookup ip k : tab_ok ip → right_slot ip (Z.of_nat k) = all_rights ip !! k.
Proof.
  intros T. rewrite right_slot_all by done. destruct (Z.leb_spec 0 (Z.of_nat k)); [|lia].
  rewrite Nat2Z.id. destruct (Z.ltb_spec (Z.of_nat k) MAXRIGHTS) as [|Hk]; [done|]. simpl.
  symmetry. apply lookup_ge_None_2. destruct T as [T1 T2]. unfold all_rights. rewrite length_app, T1.
  unfold MAXRIGHTS, NRIGHTS_INLINE in *. destruct (ip_xrights ip) as [xs|]; simpl in *; [|lia].
  rewrite (T2 xs eq_refl). lia.
Qed.

Lemma all_rights_used ip r : tab_ok ip → r_used r = true → r ∈ all_rights ip ↔ ∃ h, used_at ip h r.
Proof.
  intros T Hu. split.
  - intros [k Hk]%list_elem_of_lookup. exists (Z.of_nat k). split; [by rewrite slot_lookup|done].
  - intros (h & Hh & _). by eapply list_elem_of_lookup_2, right_slot_elem.
Qed.

(** Minting takes no right from anybody. *)
Lemma dmove_receivable p mt X Y Y' σ σ' q :
  kinv X Y σ → kinv X Y' σ' → dmove p mt σ σ' → receivable σ q → receivable σ' q.
Proof.
  intros K K' D (p0 & ip & r & Hp & Hr & Hu & Hv & Hq). destruct (decide (p0 = p)) as [->|N].
  2:{ exists p0, ip, r. by rewrite (dm_other _ _ _ _ D). }
  destruct (dm_self _ _ _ _ D ip Hp) as (ip' & Hp' & (M & _) & _). exists p, ip', r. split_and!; try done.
  pose proof (pr_tab _ (ki_proc _ _ _ K p ip Hp)). pose proof (pr_tab _ (ki_proc _ _ _ K' p ip' Hp')).
  apply (all_rights_used ip') ; [done..|]. apply all_rights_used in Hr as [h Hh]; [|done..]. exists h. by apply M.
Qed.

(** The value the bytes of [m] spell, its rights the new handles [mt] of [ip'], each to the
    port and of the kind the bytes name, its buffers those the message carries. *)
Definition delivered (settable : list (lv * lv) → lv → lv → option (list (lv * lv))) (m : kmsg) (σ : kst)
    (ip ip' : iproc) (v : lv) : Prop :=
  ∃ w mt tail, parse (Z.to_nat (MAXDEPTH + 1)) (m_data m) = Some (w, tail) ∧
    shows settable (m_bufs m) (k_bytes σ) w mt v ∧ minted mt ip ip' ∧
    Forall2 (right_at ip' (k_portv σ)) mt (rights_of w) ∧ Z.of_nat (length mt) <= MAXMSGRIGHTS.

(** A popped message reaches lua whole, or leaves the receiver's rights as they
    were; either way its references and the buffers nobody took are given back.
    Only a raise from lua_settable escapes, with the message still in hand and the rights
    minted until then still installed. *)
Definition received (settable : list (lv * lv) → lv → lv → option (list (lv * lv))) (rk : nat → nat)
    (X : list (nat * bool)) (Y : msgbufs) (p : nat) (ip : iproc)
    (m : kmsg) (σ σ' : kst) (out : lout (Z + lv)) : Prop :=
  ranked rk σ' ∧ ∃ ip', k_procs σ' !! p = Some ip' ∧
  match out with
  | Raise _ => (∃ tab k v, settable tab k v = None) ∧ (∃ mt, minted mt ip ip') ∧ queues_kept σ σ' ∧
      ∃ B, kinv (m_refs m ++ X) (B ++ Y) σ'
  | Val (inl _) => kinv X Y σ' ∧ same_rights ip ip'
  | Val (inr v) => kinv X Y σ' ∧ queues_kept σ σ' ∧ delivered settable m σ ip ip' v
  end.

(** A value the walk of a whole message returned. *)
Lemma msg_spelled settable X Y σ p ip m x d σ1 :
  kinv X (m_bufs m ++ Y) σ → k_procs σ !! p = Some ip → is_Some (k_acct σ !! p) → 33 <= k_szbits σ →
  bytes_ok (m_data m) → Z.of_nat (length (m_data m)) <= MAXMSG →
  deserialize settable (m_data m) (Z.to_nat (MAXDEPTH + 1)) p (mkDst 0 (m_bufs m) []) σ = Ok (Val (x, d), σ1) →
  ∀ v, x = inr v → ∃ w tail, parse (Z.to_nat (MAXDEPTH + 1)) (m_data m) = Some (w, tail) ∧
    shows settable (m_bufs m) (k_bytes σ) w (d_mt d) v ∧ Forall2 (holds_right p σ1) (d_mt d) (rights_of w).
Proof.
  intros K Hp Ha Hsz Hb Hlen E v ->.
  assert (rdy (m_data m) p X Y (m_bufs m) (k_bytes σ) (mkDst 0 (m_bufs m) []) σ) as Ry.
  { split; [|done|done]. split; try done. simpl. unfold m_len. lia. }
  destruct (deserialize_spells settable (m_data m) p X Y (m_bufs m) (k_bytes σ) Hb Hlen _ _ _ _ _ _ Ry E)
    as (_ & w & mt & P & M & _ & S & H).
  cbn in M. subst mt. exists w, (remaining (m_data m) d). by split_and!.
Qed.

Lemma msg_to_lua_spec settable rk X Y σ p ip m :
  kinv (m_refs m ++ X) (m_bufs m ++ Y) σ → ranked rk σ → lockable σ →
  k_procs σ !! p = Some ip → ip_waiters ip = [] → is_Some (k_acct σ !! p) → 33 <= k_szbits σ →
  bytes_ok (m_data m) → Z.of_nat (length (m_data m)) <= MAXMSG →
  ∃ out σ', msg_to_lua settable p m σ = Ok (out, σ') ∧ k_ipc σ' = k_ipc σ ∧
    uwake (λ _, True) σ σ' ∧ received settable rk X Y p ip m σ σ' out.
Proof.
  intros K R L Hp Hw Ha Hsz Hb Hlen. unfold msg_to_lua.
  destruct (deserialize_runs settable (m_data m) p (m_refs m ++ X) Y Hb Hlen
              (Z.to_nat (MAXDEPTH + 1)) (mkDst 0 (m_bufs m) []) σ) as (out & σ1 & E1 & H1).
  { split; try done. simpl. unfold m_len. lia. }
  destruct out as [[x d]|e].
  2:{ destruct H1 as (Hs & mt & B & D & K1). exists (Raise e), σ1.
      split; [by apply lbind_raise|].
      destruct (frame_d_eqs _ _ (dm_frame _ _ _ _ D)) as (_ & _ & _ & _ & Ei & _).
      destruct (dm_self _ _ _ _ D ip Hp) as (ip1 & Hp1 & Mt & _).
      split; [done|]. split; [by eapply dmove_uwake|]. split; [by eapply dmove_ranked|]. exists ip1. split; [done|].
      split_and!; [done|by exists mt|by eapply dmove_queues_kept|by exists B]. }
  unfold deserialize_top. rewrite (lbind_val _ _ _ _ _ E1). cbn [fst snd].
  pose proof (msg_spelled settable (m_refs m ++ X) Y σ p ip m x d σ1 K Hp Ha Hsz Hb Hlen E1) as Sp.
  destruct H1 as (mt & Emt & D & [K1 _ _ _ _ Hmt]). simpl in Emt. subst mt.
  destruct (frame_d_eqs _ _ (dm_frame _ _ _ _ D)) as (_ & _ & _ & _ & Ei & _).
  destruct (dm_self _ _ _ _ D ip Hp) as (ip1 & Hp1 & Mt & Ew & _).
  pose proof (dmove_ranked rk _ _ _ _ D R) as R1. pose proof (dmove_uwake _ _ _ _ D) as W1.
  pose proof (dmove_lockable _ _ _ _ D L) as L1.
  assert (∃ σ2, (match x with inl _ => minted_undo p (d_mt d) | inr _ => st_ret tt end) σ1 = Ok (tt, σ2) ∧
    undone rk (m_refs m ++ X) (d_bufs d ++ Y) p (match x with inl _ => d_mt d | inr _ => [] end) σ1 σ2)
    as (σ2 & E2 & U2).
  { destruct x; [|exists σ1; split; [done|by apply undone_refl]].
    eapply minted_undo_spec; try done; [by rewrite Ew|by eapply minted_forall]. }
  rewrite (lk_step _ _ _ _ _ E2). pose proof (undone_lockable _ _ _ _ _ _ _ U2 L1) as L2.
  destruct U2 as (K2 & R2 & B2 & W2 & _ & P2).
  destruct (msg_dispose_spec rk X Y σ2 (mkKmsg (m_data m) (d_bufs d) (m_qcost m) (m_refs m)))
    as (σ3 & E3 & G3); try done.
  rewrite (lk_step _ _ _ _ _ E3). destruct G3 as (K3 & R3 & B3 & W3 & _ & P3 & Kp3).
  exists (Val x), σ3. split; [done|].
  split; [rewrite (base_ipc _ _ B3), (base_ipc _ _ B2); done|].
  split; [eapply uwake_trans; [exact W1|by eapply uwake_trans]|].
  split; [done|]. destruct (P2 ip1 Hp1) as (ip2 & Hp2 & _ & U).
  destruct (P3 p ip2 Hp2) as [w Hp3]. exists (set_ip_woken w ip2). split; [done|].
  destruct Mt as (M1 & M2 & M3). destruct x as [rc|v].
  - split; [done|]. intros h r. change (used_at (set_ip_woken w ip2) h r) with (used_at ip2 h r). rewrite U. split.
    + intros [Hu Hn]. by destruct (M2 h r Hu).
    + intros Hu. by apply M1.
  - cbn in E2. injection E2 as <-. rewrite Hp1 in Hp2. injection Hp2 as <-. split; [done|]. split.
    { eapply queues_kept_comp; [|by eapply dmove_queues_kept|exact Kp3]. intros q. by eapply dmove_receivable. }
    destruct (Sp v eq_refl) as (wr & tail & Pw & Sw & Rw). exists wr, (d_mt d), tail. split_and!; try done.
    eapply Forall2_impl; [exact Rw|]. intros h ref (ip0 & Hp0 & H0). rewrite Hp1 in Hp0. injection Hp0 as <-.
    by rewrite (proj1 (frame_d_eqs _ _ (dm_frame _ _ _ _ D))) in H0.
Qed.

(** Queued messages hold bytes, at most MAXMSG of them. *)
Definition msgs_ok (σ : kst) : Prop := ∀ q pt m, k_ports σ !! q = Some pt → m ∈ pt_queue pt →
  bytes_ok (m_data m) ∧ Z.of_nat (length (m_data m)) <= MAXMSG.

Lemma popfail_run {A} X Y σ p ip rc :
  kinv X Y σ → k_procs σ !! p = Some ip →
  ∃ e σ' ip', popfail (A := A) p rc σ = Ok (Raise e, σ') ∧ kinv X Y σ' ∧
    k_procs σ' !! p = Some ip' ∧ same_rights ip ip' ∧ k_ipc σ' = k_ipc σ ∧
    uwake (λ _, True) σ σ' ∧ ∀ rk, ranked rk σ → ranked rk σ'.
Proof.
  intros K Hp. assert (same_rights ip ip) as Hsame by done.
  assert (uwake (λ _, True) σ σ) as Hw by by intros q _ H.
  unfold popfail. destruct (rc =? -2); [|by eexists _, σ, ip].
  rewrite (lk_iproc p ip) by done. destruct (ip_bufdenied ip); [|by eexists _, σ, ip].
  rewrite (lk_step _ _ _ _ _ (upd_iproc_eq p ip _ σ Hp)).
  eexists _, _, _. split; [done|]. split; [|by split; [simpl; apply lookup_insert_eq|]].
  eapply kinv_puti; [exact K|exact Hp| |by destruct (ki_proc X Y σ K _ _ Hp) as [[? ?] ? ? ? ?];
                                        repeat (split; try assumption)|done..].
  eapply refs_ok_proc; [apply K|exact Hp|done| |apply (ki_refs X Y σ K)].
  intros r Hr Hu. by eapply (ro_held X σ (ki_refs X Y σ K)).
Qed.

Lemma ranked_popped rk σ σ' q pt m l :
  ranked rk σ → k_ports σ !! q = Some pt → pt_queue pt = m :: l →
  wframe q (put q (popped m l pt) σ) σ' → ranked rk σ'.
Proof.
  intros R Hq Eq F. pose proof (wfr_core _ _ _ F) as C. unfold core in C. injection C. intros.
  intros q0 p0 m0 ref q' Hq0 Hm Hr Hv.
  assert (k_portv σ !! fst ref = Some q') as Hv' by congruence.
  destruct (decide (q0 = q)) as [->|Hne].
  - destruct (wfr_self q _ _ F (popped m l pt)) as (l' & Hq' & _).
    { simpl. apply lookup_insert_eq. }
    rewrite Hq' in Hq0. injection Hq0 as <-. cbn [pt_queue set_pt_waiters popped set_pt_qbytes set_pt_queue] in Hm.
    eapply (R q pt); [done| |done|done]. rewrite Eq. by right.
  - rewrite (wfr_port _ _ _ F q0 Hne) in Hq0. simpl in Hq0. rewrite lookup_insert_ne in Hq0 by done.
    by eapply (R q0 p0).
Qed.

Lemma core_acct σ σ' : core σ' = core σ → k_acct σ' = k_acct σ ∧ k_szbits σ' = k_szbits σ.
Proof. unfold core. intros E. injection E. by intros. Qed.

(** The head of [q]'s queue is gone and [l] is left; the other ports somebody can receive
    on keep theirs. *)
Definition taken_off (q : nat) (l : list kmsg) (σ σ' : kst) : Prop :=
  (∃ pt', k_ports σ' !! q = Some pt' ∧ pt_queue pt' = l) ∧
  ∀ q' pt, q' ≠ q → k_ports σ !! q' = Some pt → receivable σ q' →
    ∃ pt', k_ports σ' !! q' = Some pt' ∧ pt_queue pt' = pt_queue pt.

(** What sys.tryrecv answers when [m] is at the head of [q]'s queue: the value; an error,
    the caller's rights as they were; or what lua_settable raised. *)
Definition answered (settable : list (lv * lv) → lv → lv → option (list (lv * lv))) (rk : nat → nat)
    (X : list (nat * bool)) (Y : msgbufs) (p : nat) (ip : iproc) (q : nat) (m : kmsg) (l : list kmsg)
    (σ σ' : kst) (out : lout sysret) : Prop :=
  ranked rk σ' ∧ ∃ ip', k_procs σ' !! p = Some ip' ∧
  ((∃ v, out = Val (Ret [LBool true; v]) ∧ kinv X Y σ' ∧ taken_off q l σ σ' ∧ delivered settable m σ ip ip' v) ∨
   (∃ e, out = Raise e ∧ kinv X Y σ' ∧ same_rights ip ip') ∨
   (∃ e, out = Raise e ∧ (∃ tab k v, settable tab k v = None) ∧ (∃ mt, minted mt ip ip') ∧ taken_off q l σ σ' ∧
      ∃ B, kinv (m_refs m ++ X) (B ++ Y) σ')).

(** Popped, and then kept. *)
Lemma popped_taken_off σ σ1 σ2 q pt m l :
  k_ports σ !! q = Some pt → receivable σ q → wframe q (put q (popped m l pt) σ) σ1 → queues_kept σ1 σ2 → taken_off q l σ σ2.
Proof.
  intros Hq Hr F Kp.
  assert (∀ q', receivable σ q' → receivable σ1 q') as Hrv.
  { intros q'. apply same_procs_receivable. exact (wfr_proc _ _ _ F). }
  destruct (wfr_self q _ _ F (popped m l pt)) as (w & Hq1 & _); [simpl; apply lookup_insert_eq|]. split.
  - destruct (Kp q _ Hq1 (Hrv q Hr)) as (pt' & H & E & _). by exists pt'.
  - intros q' pt0 N H0 Hr0. destruct (Kp q' pt0) as (pt' & H & E & _); [|by apply Hrv|by exists pt'].
    rewrite (wfr_port _ _ _ F q' N). simpl. by rewrite lookup_insert_ne.
Qed.

(** sys.tryrecv: the head of the queue, whole, with the rights it carried; on a
    failure the caller's rights are as they were. *)
Lemma api_tryrecv_spec settable rk X Y σ p ip h :
  settled rk X Y σ → calling p ip σ → msgs_ok σ →
  ∃ out σ', api_tryrecv settable p h σ = Ok (out, σ') ∧ unlocked σ' ∧ no_lost_wakeup σ' ∧
    match right_get ip h with
    | Some (_, r) =>
        if r_recv r then ∃ pt, k_ports σ !! r_port r = Some pt ∧
          match pt_queue pt with
          | [] => out = Val (Ret [LBool false]) ∧ σ' = σ
          | m :: l => answered settable rk X Y p ip (r_port r) m l σ σ' out
          end
        else out = Raise "bad receive right" ∧ σ' = σ
    | None => out = Raise "bad receive right" ∧ σ' = σ
    end.
Proof.
  intros [K R U W] C Hm. unfold api_tryrecv. rewrite (lk_iproc p ip) by apply C.
  destruct (right_get ip h) as [[i r]|] eqn:Hg; [|by eexists _, σ].
  destruct (right_get_Some _ _ _ _ Hg) as [_ Hu].
  destruct (r_recv r) eqn:Erv; [|by eexists _, σ].
  destruct (used_port X Y σ p ip i r K (ca_proc _ _ _ C) Hu) as [pt Hq].
  destruct (port_pop_spec X Y σ (r_port r) pt K Hq) as (σ1 & E1 & I1 & W1 & _ & H1); [by left|].
  rewrite (lk_step _ _ _ _ _ E1). destruct (pt_queue pt) as [|m l] eqn:Eq; cbn [head].
  { subst σ1. eexists _, σ. split_and!; try done. exists pt. by rewrite Eq. }
  destruct H1 as (K1 & _ & F). destruct (wfr_proc _ _ _ F p ip) as [b Hp1]; [apply C|].
  destruct (core_acct _ _ (wfr_core _ _ _ F)) as [Ea Es].
  destruct (Hm (r_port r) pt m Hq) as [Hmb Hml]; [rewrite Eq; left|].
  destruct (msg_to_lua_spec settable rk X Y σ1 p (set_ip_woken b ip) m) as (o & σ2 & E2 & I2 & W2 & H2); try done.
  { by eapply ranked_popped. }
  { unfold lockable, unlocked, wide. rewrite I1. by left. }
  { apply C. }
  { rewrite Ea. apply C. }
  { rewrite Es. apply C. }
  assert (unlocked σ2) as U2 by (unfold unlocked; congruence).
  assert (no_lost_wakeup σ2) as N2 by by eapply no_lost_uwake, no_lost_uwake.
  destruct H2 as (R2 & ip2 & Hp2 & H2).
  assert (receivable σ (r_port r)) as Hrv.
  { exists p, ip, r. split_and!; [apply C| |apply Hu|done|done].
    apply all_rights_used; [apply (ki_proc _ _ _ K p ip), C|apply Hu|by exists i]. }
  destruct o as [[rc|v]|e].
  - rewrite (lbind_val _ _ _ _ _ E2). destruct H2 as (K2 & Hs2).
    destruct (popfail_run (A := sysret) X Y σ2 p ip2 rc K2 Hp2) as (e & σ3 & ip3 & E3 & K3 & Hp3 & Hs3 & I3 & W3 & R3).
    rewrite E3. exists (Raise e), σ3. split_and!; [done|unfold unlocked; congruence|by eapply no_lost_uwake|].
    exists pt. split; [done|]. rewrite Eq. split; [by apply R3|]. exists ip3. split; [done|]. right. left.
    exists e. split_and!; [done..|]. intros j x. rewrite (Hs3 j x). apply Hs2.
  - rewrite (lbind_val _ _ _ _ _ E2). destruct H2 as (K2 & Kp & w & mt & tail & Hd). eexists _, σ2. split_and!; try done.
    exists pt. split; [done|]. rewrite Eq. split; [done|]. exists ip2. split; [done|]. left. exists v.
    split_and!; [done..|by eapply popped_taken_off|]. exists w, mt, tail.
    assert (k_portv σ1 = k_portv σ ∧ k_bytes σ1 = k_bytes σ) as [<- <-]; [|done].
    pose proof (wfr_core _ _ _ F) as Cr. unfold core in Cr. injection Cr. by intros.
  - rewrite (lbind_raise _ _ _ _ _ E2). destruct H2 as (Hs & Hmt & Kp & B & K2). eexists _, σ2. split_and!; try done.
    exists pt. split; [done|]. rewrite Eq. split; [done|]. exists ip2. split; [done|]. right. right. exists e.
    split_and!; [done..|by eapply popped_taken_off|by exists B].
Qed.

(** * Hangup *)

Lemma count_mine_take ip q n : ∀ k, tab_ok ip →
  count_mine n (Z.of_nat k) ip q = zsum (right1 false q) (take n (drop k (all_rights ip))).
Proof.
  induction n as [|n IH]; intros k T; [done|]. cbn [count_mine]. rewrite slot_lookup by done.
  replace (Z.of_nat k + 1) with (Z.of_nat (S k)) by lia. rewrite IH by done.
  destruct (all_rights ip !! k) as [r|] eqn:E.
  - rewrite (drop_S _ _ _ E). cbn [take]. rewrite zsum_cons. f_equal.
    unfold right1. simpl. rewrite andb_true_r. by destruct (r_used r && _).
  - apply lookup_ge_None_1 in E. rewrite !drop_ge by lia. by destruct n.
Qed.

(** The walk below rhigh counts every right the proc holds to the port. *)
Lemma count_mine_all ip q : proc_ok ip →
  count_mine (Z.to_nat (ip_rhigh ip)) 0 ip q = rights_n false q ip.
Proof.
  intros [T Hh Hhi _ _]. rewrite (count_mine_take ip q _ 0 T), drop_0.
  unfold rights_n. rewrite <-(take_drop (Z.to_nat (ip_rhigh ip)) (all_rights ip)) at 2.
  rewrite zsum_app. rewrite (zsum_zero _ (drop _ _)); [lia|].
  intros r Hr. apply list_elem_of_lookup in Hr as [j Hj]. rewrite lookup_drop in Hj.
  unfold right1. destruct (r_used r) eqn:Hu; [|done]. exfalso.
  rewrite <-slot_lookup in Hj by done. pose proof (Hhi _ _ Hj Hu). lia.
Qed.

(** sys.hungup and the eof of a pipe: true exactly when every reference to the port
    is one of the caller's own rights. *)
Lemma sole_holder_spec X Y σ p ip q pt :
  kinv X Y σ → k_procs σ !! p = Some ip → k_ports σ !! q = Some pt →
  sole_holder ip q pt = true ↔
    (∀ p' ip', p' ≠ p → k_procs σ !! p' = Some ip' → rights_n false q ip' = 0) ∧
    inflight false (pt_idx pt) (k_ports σ) = 0 ∧ refs_n false (pt_idx pt) X = 0 ∧
    timers_n q (k_timers σ) = 0 ∧ krefs_n q (k_krefs σ) = 0.
Proof.
  intros K Hp Hq. unfold sole_holder. rewrite count_mine_all by by apply (ki_proc _ _ _ K p).
  rewrite Z.leb_le. pose proof (ro_count _ _ (ki_refs _ _ _ K) false q pt Hq) as Hc.
  cbn [nr] in Hc. rewrite Hc. unfold count. cbn [pinned].
  assert (held false q (k_procs σ) = rights_n false q ip +
          msum (λ _ ip, rights_n false q ip) (delete p (k_procs σ))) as Hh.
  { unfold held. rewrite (msum_delete _ _ _ _ Hp). lia. }
  assert (∀ p' (ip' : iproc), delete p (k_procs σ) !! p' = Some ip' → 0 <= rights_n false q ip') as Hnn
    by (intros; apply rights_n_nonneg).
  pose proof (msum_nonneg (λ _ ip, rights_n false q ip) (delete p (k_procs σ)) Hnn).
  pose proof (inflight_nonneg false (pt_idx pt) (k_ports σ)).
  pose proof (refs_n_nonneg false (pt_idx pt) X). pose proof (timers_n_nonneg q (k_timers σ)).
  pose proof (krefs_n_nonneg q (k_krefs σ)). split.
  - intros Hle. split_and!; [|lia..]. intros p' ip' Hne Hp'.
    assert (delete p (k_procs σ) !! p' = Some ip') as Hd by by rewrite lookup_delete_ne.
    pose proof (msum_elem_le (λ _ ip, rights_n false q ip) _ _ _ Hnn Hd) as Hle'. simpl in Hle'.
    pose proof (rights_n_nonneg false q ip'). lia.
  - intros (Ho & ? & ? & ? & ?). rewrite Hh, (msum_zero _ (delete p (k_procs σ))); [lia|].
    intros p' ip' [Hne Hp']%lookup_delete_Some. by apply (Ho p' ip').
Qed.

(** * End to end *)

(** The state a plain message leaves behind at the sender, and the queue it joins. *)
Lemma send_plain rk X Y σ p ip h i r pt v :
  settled rk X Y σ → calling p ip σ → right_get ip h = Some (i, r) →
  k_ports σ !! r_port r = Some pt → pt_dead pt = false → plenty σ →
  plain (Z.to_nat (MAXDEPTH + 1)) v → Z.of_nat (length (enc v)) <= MAXMSG →
  pt_qbytes pt + Z.of_nat (length (enc v)) <= MAXQUEUE →
  ∃ σ' pt', api_send p h v σ = Ok (Val (Ret [LBool true]), σ') ∧ settled rk X Y σ' ∧
    k_ports σ' !! r_port r = Some pt' ∧
    pt_queue pt' = pt_queue pt ++ [mkKmsg (enc v) [] (Z.of_nat (length (enc v))) []] ∧
    (k_mem σ' = k_mem σ ∧ k_szbits σ' = k_szbits σ ∧ k_acct σ' = k_acct σ ∧
     ∀ p ip, k_procs σ !! p = Some ip → ∃ b, k_procs σ' !! p = Some (set_ip_woken b ip)).
Proof.
  intros [K R U W] C Hg Hq Hd Hm Hpl Hlen Hroom. unfold api_send.
  rewrite (lk_iproc p ip) by apply C. rewrite Hg. unfold port_send_from_lua.
  destruct (wreserve_run (sizehint v) σ) as (w0 & σ0 & E0 & A0 & Hok0 & Ed0 & Er0 & Eb0 & Eo0).
  destruct (serialize_fit p (Z.to_nat (MAXDEPTH + 1)) v w0 σ0) as (w & σ1 & E1 & A1 & Hw); try done.
  { by eapply amove_plenty. }
  { eapply amove_szok; [exact A0|]. unfold szok. pose proof (ca_sz _ _ _ C). lia. }
  { unfold w_len. rewrite Ed0. simpl. lia. }
  destruct Hw as (Dw & Rw & Bw & Ow & _). rewrite Ed0 in Dw. rewrite Er0 in Rw. rewrite Eb0 in Bw.
  rewrite Eo0 in Ow. simpl in Dw.
  assert (amove σ σ1) as A by by eapply amove_trans. pose proof (amove_plenty _ _ A Hm) as Hm1.
  assert (k_ports σ1 = k_ports σ ∧ k_procs σ1 = k_procs σ ∧ k_ipc σ1 = k_ipc σ ∧ k_acct σ1 = k_acct σ ∧
    k_mem σ1 = k_mem σ ∧ k_szbits σ1 = k_szbits σ) as (Ep & Epr & Ei & Ea & Em & Es)
    by (by destruct A as (a & n & -> & _)).
  assert (kinv X Y σ1) as K1 by by eapply amove_kinv.
  assert (ranked rk σ1) as R1 by (by destruct A as (a & n & -> & _)).
  assert (uwake (λ _, True) σ σ1) as W1 by (by destruct A as (a & n & -> & _); intros q _ H).
  destruct (push_region rk X Y σ1 (r_port r) pt (w_data w) [] [])
    as (rc & σ2 & σ3 & E2 & E3 & E4 & I3 & A3 & V3 & W3 & Hrc & (M3 & S3 & P3) & H3); try done.
  { unfold lockable, unlocked, wide. rewrite Ei. by left. }
  { by rewrite Ep. }
  { by intros b ?%elem_of_nil. }
  assert (msg_cost (w_data w) [] = Z.of_nat (length (enc v))) as Ec
    by (rewrite Dw; unfold msg_cost, msgbufs_bytes, zsum; simpl; lia).
  assert (rc = 0) as ->.
  { rewrite Hrc. unfold push_rc. rewrite Hd, Ec. destruct (Z.ltb_spec MAXQUEUE (pt_qbytes pt + Z.of_nat (length (enc v)))); [lia|].
    by rewrite Hm1. }
  cbn [Z.eqb] in H3. destruct H3 as (K3 & (pt' & Hq3 & Eq3) & R3 & _).
  exists σ3, pt'. split_and!.
  - assert (port_send_from_lua p r v σ = Ok (Val (SEND_OK, w_len w + 0, []), σ3)) as E.
    { unfold port_send_from_lua, serialize_top. rewrite (lk_step _ _ _ _ _ E0), (lbind_val _ _ _ _ _ E1).
      cbn [fst snd Z.eqb negb]. rewrite Rw, Bw, Ow.
      rewrite (lk_step _ _ _ _ _ E2), (lk_step _ _ _ _ _ E3), (lk_step _ _ _ _ _ E4). done. }
    fold (port_send_from_lua p r v). by rewrite (lbind_val _ _ _ _ _ E).
  - split; [done|by apply R3|unfold unlocked; congruence|].
    eapply no_lost_uwake; [|exact W]. by eapply uwake_trans.
  - done.
  - by rewrite Eq3, Ec, Dw.
  - congruence.
  - congruence.
  - congruence.
  - intros p' ip' Hp'. apply P3. by rewrite Epr.
Qed.

Section plain_recv.
Context (settable : list (lv * lv) → lv → lv → option (list (lv * lv))) (keyed : lv → Prop).
Hypothesis settable_new : ∀ tab k v,
  keyed k → v ≠ LNil → k ∉ List.map fst tab →
  ∃ tab', settable tab k v = Some tab' ∧ (k, v) :: tab ≡ₚ tab'.

Lemma recv_plain rk X Y σ p ip h i r pt v c l :
  settled rk X Y σ → k_procs σ !! p = Some ip → 32 <= k_szbits σ →
  right_get ip h = Some (i, r) → r_recv r = true → k_ports σ !! r_port r = Some pt →
  pt_queue pt = mkKmsg (enc v) [] c [] :: l → plenty σ →
  plain (Z.to_nat (MAXDEPTH + 1)) v → keys_ok keyed (Z.to_nat (MAXDEPTH + 1)) v →
  Z.of_nat (length (enc v)) <= MAXMSG →
  ∃ v' σ' pt', api_tryrecv settable p h σ = Ok (Val (Ret [LBool true; v']), σ') ∧
    lsim (image v) v' ∧ settled rk X Y σ' ∧ k_ports σ' !! r_port r = Some pt' ∧ pt_queue pt' = l.
Proof.
  intros [K R U W] Hp Hsz Hg Hr Hq Eq Hm Hpl Hk Hlen. unfold api_tryrecv.
  rewrite (lk_iproc p ip) by done. rewrite Hg, Hr.
  destruct (port_pop_spec X Y σ (r_port r) pt K Hq) as (σ1 & E1 & I1 & W1 & _ & H1); [by left|].
  rewrite (lk_step _ _ _ _ _ E1). rewrite Eq in *. cbn [head]. destruct H1 as (K1 & _ & F). simpl in K1.
  pose proof (wfr_core _ _ _ F) as Cr. destruct (core_acct _ _ Cr) as [_ Es].
  assert (k_mem σ1 = k_mem σ) as Em by (unfold core in Cr; injection Cr; by intros).
  destruct (deserialize_at settable keyed settable_new (enc v) p [] [] Hlen (Z.to_nat (MAXDEPTH + 1))
              v [] [] σ1) as (v' & σ2 & E2 & A2 & S2); try done.
  { intros j. rewrite Em. apply Hm. }
  { unfold szok. by rewrite Es. }
  { by rewrite app_nil_r. }
  assert (msg_to_lua settable p (mkKmsg (enc v) [] c []) σ1 = Ok (Val (inr v'), σ2)) as EM.
  { unfold msg_to_lua, deserialize_top. cbn [m_data m_bufs]. unfold pos in E2. simpl in E2.
    rewrite (lbind_val _ _ _ _ _ E2). done. }
  rewrite (lbind_val _ _ _ _ _ EM).
  destruct (wfr_self (r_port r) _ _ F _ (lookup_insert_eq _ _ _)) as (l' & Hq1 & _).
  eexists v', σ2, _. split; [done|]. split; [done|].
  assert (ranked rk σ1) as R1 by by eapply ranked_popped.
  destruct A2 as (a & n & -> & Hn). split; [|split; [exact Hq1|done]].
  split; [by eapply kinv_ext; [exact K1|..]|done|by unfold unlocked; simpl; rewrite I1|].
  by apply (no_lost_uwake σ1); [intros q _ H|by eapply no_lost_uwake].
Qed.

(** What one proc sends another receives: the same value, buffers as their bytes,
    tables with their pairs in whatever order. *)
Lemma send_recv_plain rk X Y σ p ip h i r p' ip' h' i' r' pt v :
  settled rk X Y σ → calling p ip σ → k_procs σ !! p' = Some ip' →
  right_get ip h = Some (i, r) → right_get ip' h' = Some (i', r') →
  r_port r' = r_port r → r_recv r' = true →
  k_ports σ !! r_port r = Some pt → pt_dead pt = false → pt_queue pt = [] → plenty σ →
  plain (Z.to_nat (MAXDEPTH + 1)) v → keys_ok keyed (Z.to_nat (MAXDEPTH + 1)) v →
  Z.of_nat (length (enc v)) <= MAXMSG →
  ∃ σ1 v' σ2, api_send p h v σ = Ok (Val (Ret [LBool true]), σ1) ∧
    api_tryrecv settable p' h' σ1 = Ok (Val (Ret [LBool true; v']), σ2) ∧
    lsim (image v) v' ∧ settled rk X Y σ2.
Proof.
  intros Se C Hp' Hg Hg' Er Hr Hq Hd Eq Hm Hpl Hk Hlen.
  assert (pt_qbytes pt = 0) as Hz.
  { rewrite (po_qbytes _ (ki_port _ _ _ (se_kinv _ _ _ _ Se) _ _ Hq)), Eq. done. }
  destruct (send_plain rk X Y σ p ip h i r pt v) as (σ1 & pt1 & E1 & S1 & Hq1 & Eq1 & Em & Es & _ & P1);
    try done.
  { rewrite Hz. unfold MAXQUEUE, MAXMSG in *. lia. }
  destruct (P1 p' ip' Hp') as [b Hp1].
  destruct (recv_plain rk X Y σ1 p' (set_ip_woken b ip') h' i' r' pt1 v (Z.of_nat (length (enc v))) [])
    as (v' & σ2 & pt2 & E2 & Sv & S2 & _); try done.
  { rewrite Es. pose proof (ca_sz _ _ _ C). lia. }
  { by rewrite Er. }
  { by rewrite Eq1, Eq. }
  { intros j. by rewrite Em. }
  by exists σ1, v', σ2.
Qed.

End plain_recv.
