(* ===== verification/Demo.v ===== *)
(** A small machine to evaluate the calls on: two procs just after boot, with no
    ports yet, and the states a few calls take it to. *)

From S2P Require Import Prelude Clock Sched Ports PortInv KInv PortWake PortRef PortOps WaitOps.
From S2P Require Import Timer Serialize SerializeOk SerializeInv Syscall SyscallOk.
From stdpp Require Import prelude list gmap strings.
From Stdlib Require Import ZArith Lia.
Open Scope Z_scope.

Definition demo_iproc : iproc :=
  mkIproc (replicate 8 right_zero) None 0 0 0 0 16 0 0 [] false false [] false.
Definition boot_sched : sched :=
  rq_init (mkSched {[0%nat := demo_sproc READY; 1%nat := demo_sproc READY]}
    rqset_empty rqset_empty false true [mkScpu None false; mkScpu None true] 0 false
    clock_boot 0 []).
Definition demo_acct : acct := mkAcct 0 0 0 0 0 0.
Definition boot : kst :=
  mkKst ∅ ∅ 64 64 0 0 0 0 0 0 {[0%nat := demo_iproc; 1%nat := demo_iproc]} ∅ ∅ ∅
    {[0%nat := demo_acct; 1%nat := demo_acct]} (replicate MAXTIMERS (None, 0)) []
    (replicate NIPCLOCK 0%nat) 0 0 (λ _, true) 0 0 boot_sched.

Definition after {A} (m : KM A) (σ : kst) : kst :=
  match m σ with Ok (_, σ') => σ' | Err _ => σ end.

(** No message carries a right on the machines below, so any order will do. *)
Definition demo_rank (q : nat) : nat := 0%nat.

Lemma boot_procs p ip : k_procs boot !! p = Some ip → ip = demo_iproc ∧ (p = 0%nat ∨ p = 1%nat).
Proof.
  simpl. rewrite lookup_insert_Some, lookup_singleton_Some. naive_solver.
Qed.

Lemma demo_iproc_ok : proc_ok demo_iproc.
Proof.
  assert (∀ h r, right_slot demo_iproc h = Some r → r = right_zero) as Hz.
  { intros h r. unfold right_slot. destruct (_ || _); [done|]. destruct (h <? NRIGHTS_INLINE); [|done].
    intros H. by apply lookup_replicate in H as [-> _]. }
  split; try done.
  - intros h r H Hu. apply Hz in H as ->. done.
  - constructor.
Qed.

Lemma demo_rights r : r ∈ all_rights demo_iproc → r = right_zero.
Proof. unfold all_rights. cbn [ip_rights ip_xrights demo_iproc default]. rewrite app_nil_r. by intros [-> _]%elem_of_replicate. Qed.

Lemma boot_sched_ok : sched_ok boot.
Proof.
  split; try done.
  - apply rq_init_wf. intros p sp. cbn [s_procs].
    rewrite lookup_insert_Some, lookup_singleton_Some. naive_solver.
  - intros p ip Hp. apply boot_procs in Hp as [_ [->| ->]]; by eexists.
  - intros p ip Hp Hw. apply boot_procs in Hp as [-> _]. done.
Qed.

Lemma boot_kinv : kinv [] [] boot.
Proof.
  split; [split| | | | | | | |]; try done.
  - intros i q. split; [done|]. by intros (pt & H & _).
  - intros p ip r Hp Hr Hu. apply boot_procs in Hp as [-> _].
    apply demo_rights in Hr as ->. done.
  - by intros ref H%elem_of_nil.
  - intros q d H. by apply elem_of_replicate in H as [? _].
  - by intros q H%elem_of_nil.
  - intros p ip Hp. apply boot_procs in Hp as [-> _]. apply demo_iproc_ok.
  - split; try done.
    + intros p ip w Hp Hw. apply boot_procs in Hp as [-> _]. by apply elem_of_nil in Hw.
    + intros p ip p' Hp Hw. apply boot_procs in Hp as [-> _]. by apply elem_of_nil in Hw.
  - apply boot_sched_ok.
  - by intros q [pt H].
  - by intros a [x H].
Qed.

Lemma boot_settled : settled demo_rank [] [] boot.
Proof. split; [apply boot_kinv|done|done|done]. Qed.

(** * After a few calls *)

Definition ip_of (p : nat) (σ : kst) : iproc := default demo_iproc (k_procs σ !! p).

(** Proc 0 with its own port in slot 0, then a second port in slot 1. *)
Definition one_port : kst := after (api_newport 0) boot.
Definition two_ports : kst := after (api_newport 0) one_port.

Lemma boot_calling : calling 0 demo_iproc boot.
Proof. split; try done. intros (sp & H & Hb). vm_compute in H. by simplify_eq. Qed.

Lemma one_port_settled : settled demo_rank [] [] one_port.
Proof.
  destruct (api_newport_spec demo_rank [] [] boot 0 demo_iproc boot_settled boot_calling)
    as (out & σ' & E & S & _).
  unfold one_port, after. by rewrite E.
Qed.

Lemma one_port_calling : calling 0 (ip_of 0 one_port) one_port.
Proof.
  split; [by vm_compute..| |by vm_compute; eexists|by vm_compute].
  intros (sp & H & Hb). vm_compute in H. by simplify_eq.
Qed.

Lemma two_ports_settled : settled demo_rank [] [] two_ports.
Proof.
  destruct (api_newport_spec demo_rank [] [] one_port 0 _ one_port_settled one_port_calling)
    as (out & σ' & E & S & _).
  unfold two_ports, after. by rewrite E.
Qed.

Lemma two_ports_calling : calling 0 (ip_of 0 two_ports) two_ports.
Proof.
  split; [by vm_compute..| |by vm_compute; eexists|by vm_compute].
  intros (sp & H & Hb). vm_compute in H. by simplify_eq.
Qed.

(** [msgs_ok] by evaluation. *)
Definition msg_okb (m : kmsg) : bool :=
  forallb (λ b, (0 <=? b) && (b <? 256)) (m_data m) && (Z.of_nat (length (m_data m)) <=? MAXMSG).
Definition msgs_okb (σ : kst) : bool :=
  forallb (λ e, forallb msg_okb (pt_queue (snd e))) (map_to_list (k_ports σ)).

Lemma msgs_okb_ok σ : msgs_okb σ = true → msgs_ok σ.
Proof.
  intros H q pt m Hq Hm. unfold msgs_okb in H. rewrite forallb_forall in H.
  specialize (H (q, pt)). rewrite <-list_elem_of_In, elem_of_map_to_list in H. specialize (H Hq).
  cbn [snd] in H. rewrite forallb_forall in H. specialize (H m). rewrite <-list_elem_of_In in H.
  specialize (H Hm). apply andb_true_iff in H as [Hb Hl]. split; [|lia].
  apply Forall_forall. intros b Hin. rewrite forallb_forall in Hb. specialize (Hb b).
  rewrite <-list_elem_of_In in Hb. specialize (Hb Hin). unfold byte_ok. lia.
Qed.
