(* ===== verification/Guarantees.v ===== *)
(** What the ipc of the kernel guarantees: the properties of ports, rights, messages,
    waits and timers, each instantiated on the machine of Demo.v. *)

From S2P Require Import Prelude Clock Sched Ports PortInv KInv PortWake PortRef PortOps WaitOps.
From S2P Require Import Timer Serialize SerializeOk SerializeInv Wire Syscall SyscallOk Demo.
From stdpp Require Import prelude list gmap strings.
From Stdlib Require Import ZArith Lia.
Open Scope Z_scope.

(** * Messages *)

(** lua_settable on a table as a list of pairs. *)
Definition demo_settable (tab : list (lv * lv)) (k v : lv) : option (list (lv * lv)) :=
  match k with LNil => None | _ => Some ((k, v) :: tab) end.
Definition demo_keyed (k : lv) : Prop := k ≠ LNil.

Lemma demo_settable_new tab k v :
  demo_keyed k → v ≠ LNil → k ∉ List.map fst tab →
  ∃ tab', demo_settable tab k v = Some tab' ∧ (k, v) :: tab ≡ₚ tab'.
Proof. intros Hk _ _. exists ((k, v) :: tab). by destruct k. Qed.

(** { op = "read", n = 7 } *)
Definition demo_msg : lv := LTab [(lstr "op", lstr "read"); (lstr "n", LInt 7)].

(** C1: what one proc sends, another receives.  With memory to hand, a live port and
    an empty queue, sys.send of a plain value (no rights, no buffers given away, at
    most MAXDEPTH deep, at most MAXMSG bytes on the wire) answers true, and
    sys.tryrecv by any proc with the receive right then answers true and the same
    value, up to the order of the pairs of a table and with a buffer arriving as its
    bytes; the kernel invariant holds afterwards. *)
Theorem send_recv_roundtrip settable (keyed : lv → Prop) rk X Y σ p ip h i r p' ip' h' i' r' pt v :
  (∀ tab k v, keyed k → v ≠ LNil → k ∉ List.map fst tab →
     ∃ tab', settable tab k v = Some tab' ∧ (k, v) :: tab ≡ₚ tab') →
  settled rk X Y σ → calling p ip σ → k_procs σ !! p' = Some ip' →
  right_get ip h = Some (i, r) → right_get ip' h' = Some (i', r') →
  r_port r' = r_port r → r_recv r' = true →
  k_ports σ !! r_port r = Some pt → pt_dead pt = false → pt_queue pt = [] → plenty σ →
  plain (Z.to_nat (MAXDEPTH + 1)) v → keys_ok keyed (Z.to_nat (MAXDEPTH + 1)) v →
  Z.of_nat (length (enc v)) <= MAXMSG →
  ∃ σ1 v' σ2, api_send p h v σ = Ok (Val (Ret [LBool true]), σ1) ∧
    api_tryrecv settable p' h' σ1 = Ok (Val (Ret [LBool true; v']), σ2) ∧
    lsim (image v) v' ∧ settled rk X Y σ2.
Proof. intros Hs. by apply (send_recv_plain settable keyed Hs). Qed.

Lemma demo_str_ok s : forallb (λ b, (0 <=? b) && (b <? 256)) s = true →
  Z.of_nat (length s) < 2 ^ 32 → str_ok s.
Proof.
  intros H Hl. split; [|done]. apply Forall_forall. intros b Hb.
  rewrite forallb_forall in H. specialize (H b). rewrite <-list_elem_of_In in H.
  specialize (H Hb). unfold byte_ok. lia.
Qed.

Lemma demo_msg_plain : plain (Z.to_nat (MAXDEPTH + 1)) demo_msg.
Proof.
  change (Z.to_nat (MAXDEPTH + 1)) with 17%nat.
  apply plain_tab; [reflexivity|reflexivity|reflexivity|].
  repeat (apply Forall_cons; split; [split|]); [..|apply Forall_nil; exact I]; cbn [fst snd].
  - apply plain_str. by apply demo_str_ok.
  - apply plain_str. by apply demo_str_ok.
  - apply plain_str. by apply demo_str_ok.
  - apply plain_int. lia.
Qed.

Lemma demo_msg_keys : keys_ok demo_keyed (Z.to_nat (MAXDEPTH + 1)) demo_msg.
Proof.
  change (Z.to_nat (MAXDEPTH + 1)) with 17%nat. unfold demo_msg, lstr.
  cbn [keys_ok]. split.
  - apply NoDup_cons. split; [|apply NoDup_singleton]. by rewrite list_elem_of_singleton.
  - by repeat constructor.
Qed.

Lemma send_recv_roundtrip_witness :
  ∃ σ1 v' σ2, api_send 0 1 demo_msg two_ports = Ok (Val (Ret [LBool true]), σ1) ∧
    api_tryrecv demo_settable 0 1 σ1 = Ok (Val (Ret [LBool true; v']), σ2) ∧ lsim demo_msg v'.
Proof.
  destruct (k_ports two_ports !! 1%nat) as [pt|] eqn:Hq; [|by vm_compute in Hq].
  destruct (send_recv_roundtrip demo_settable demo_keyed demo_rank [] [] two_ports 0
              (ip_of 0 two_ports) 1 1 (mkRight 1 true true) 0 (ip_of 0 two_ports) 1 1
              (mkRight 1 true true) pt demo_msg demo_settable_new two_ports_settled two_ports_calling)
    as (σ1 & v' & σ2 & E1 & E2 & Hs & _).
  - by vm_compute.
  - by vm_compute.
  - by vm_compute.
  - done.
  - done.
  - exact Hq.
  - vm_compute in Hq. by injection Hq as <-.
  - vm_compute in Hq. by injection Hq as <-.
  - by vm_compute.
  - apply demo_msg_plain.
  - apply demo_msg_keys.
  - by vm_compute.
  - exists σ1, v', σ2. split; [exact E1|]. split; [exact E2|exact Hs].
Defined.

(** * Sending *)





(** * Receiving *)

(** The second port with the message queued. *)
Definition one_queued : kst := after (api_send 0 1 demo_msg) two_ports.

Lemma one_queued_settled : settled demo_rank [] [] one_queued.
Proof.
  destruct (k_ports two_ports !! 1%nat) as [pt|] eqn:Hq; [|by vm_compute in Hq].
  destruct (send_plain demo_rank [] [] two_ports 0 (ip_of 0 two_ports) 1 1 (mkRight 1 true true) pt
              demo_msg two_ports_settled two_ports_calling) as (σ' & pt' & E & S & _).
  - by vm_compute.
  - exact Hq.
  - vm_compute in Hq. by injection Hq as <-.
  - by vm_compute.
  - apply demo_msg_plain.
  - by vm_compute.
  - vm_compute in Hq. injection Hq as <-. by vm_compute.
  - unfold one_queued, after. by rewrite E.
Qed.

Lemma one_queued_calling : calling 0 (ip_of 0 one_queued) one_queued.
Proof.
  split; [by vm_compute..| |by vm_compute; eexists|by vm_compute].
  intros (sp & H & Hb). vm_compute in H. by simplify_eq.
Qed.



(** * Rights *)

(** C5: sys.close frees exactly the slot it names and gives its reference back: no
    fault, the counts exact, every bucket free, no wakeup lost.  A handle that names
    no right, and handle 0, are refused with nothing changed.  Under the condition
    that no cycle of queued rights exists ([settled]). *)
Theorem api_close_correct rk X Y σ p ip h :
  settled rk X Y σ → calling p ip σ →
  ∃ out σ', api_close p h σ = Ok (out, σ') ∧ settled rk X Y σ' ∧
    match right_get ip h with
    | None => out = Raise "bad right" ∧ σ' = σ
    | Some (i, r) =>
        if h =? 0 then out = Raise "cannot close self port" ∧ σ' = σ
        else out = Val (Ret []) ∧ ∃ ip', k_procs σ' !! p = Some ip' ∧
          ∀ j x, used_at ip' j x ↔ used_at ip j x ∧ j ≠ i
    end.
Proof. apply api_close_spec. Qed.

Lemma api_close_correct_witness :
  ∃ out σ', api_close 0 1 two_ports = Ok (out, σ') ∧ settled demo_rank [] [] σ'.
Proof.
  destruct (api_close_correct demo_rank [] [] two_ports 0 (ip_of 0 two_ports) 1
              two_ports_settled two_ports_calling) as (out & σ' & E & S & _).
  exists out, σ'. split; [exact E|exact S].
Defined.

(** Sys.newport keeps the invariant and the budget: over its port limit the proc is
    refused with nothing changed, and an answer is a handle to the one receive right,
    and the only right, to a live port with nothing queued that did not exist before. *)
Theorem api_newport_correct rk X Y σ p ip :
  settled rk X Y σ → calling p ip σ →
  ∃ out σ', api_newport p σ = Ok (out, σ') ∧ settled rk X Y σ' ∧
    (port_budget_left ip = false → out = Raise "port limit" ∧ σ' = σ) ∧
    (∀ vs, out = Val (Ret vs) → port_budget_left ip = true ∧
       ∃ h q pt ip', vs = [LInt h] ∧ k_ports σ !! q = None ∧ k_ports σ' !! q = Some pt ∧
         pt_nrights pt = 1 ∧ pt_nrecv pt = 1 ∧ pt_queue pt = [] ∧ pt_dead pt = false ∧
         k_procs σ' !! p = Some ip' ∧ used_at ip' h (mkRight q true true)).
Proof. apply api_newport_spec. Qed.

Lemma api_newport_correct_witness :
  ∃ out σ', api_newport 0 boot = Ok (out, σ') ∧ settled demo_rank [] [] σ'.
Proof.
  destruct (api_newport_correct demo_rank [] [] boot 0 demo_iproc boot_settled boot_calling)
    as (out & σ' & E & S & _).
  exists out, σ'. split; [exact E|exact S].
Defined.

(** Sys.sendright attenuates: from any right it mints a handle to the same port
    without the receive flag, changes no other right of the caller, and keeps the
    invariant. *)
Theorem api_sendright_correct rk X Y σ p ip arg :
  settled rk X Y σ → calling p ip σ →
  ∃ out σ', api_sendright p arg σ = Ok (out, σ') ∧ settled rk X Y σ' ∧
    match right_get ip arg with
    | None => out = Raise "bad right" ∧ σ' = σ
    | Some (_, r) =>
        out = Raise "out of rights" ∧ dmove p [] σ σ' ∨
        ∃ h ip', out = Val (Ret [LInt h]) ∧ dmove p [h] σ σ' ∧ k_procs σ' !! p = Some ip' ∧
          used_at ip' h (mkRight (r_port r) false true)
    end.
Proof. apply api_sendright_spec. Qed.

Lemma api_sendright_correct_witness :
  ∃ out σ', api_sendright 0 1 two_ports = Ok (out, σ') ∧ settled demo_rank [] [] σ'.
Proof.
  destruct (api_sendright_correct demo_rank [] [] two_ports 0 (ip_of 0 two_ports) 1
              two_ports_settled two_ports_calling) as (out & σ' & E & S & _).
  exists out, σ'. split; [exact E|exact S].
Defined.

(** C8: [sole_holder], behind sys.hungup and the eof of a pipe, is exact: it is true
    if and only if no other proc holds a right to the port, no queued message carries
    one, none is held by the timer table or by the kernel, and none is in flight. *)
Theorem sole_holder_correct X Y σ p ip q pt :
  kinv X Y σ → k_procs σ !! p = Some ip → k_ports σ !! q = Some pt →
  sole_holder ip q pt = true ↔
    (∀ p' ip', p' ≠ p → k_procs σ !! p' = Some ip' → rights_n false q ip' = 0) ∧
    inflight false (pt_idx pt) (k_ports σ) = 0 ∧ refs_n false (pt_idx pt) X = 0 ∧
    timers_n q (k_timers σ) = 0 ∧ krefs_n q (k_krefs σ) = 0.
Proof. apply sole_holder_spec. Qed.

Lemma sole_holder_correct_witness :
  ∃ pt, k_ports two_ports !! 1%nat = Some pt ∧
    inflight false (pt_idx pt) (k_ports two_ports) = 0 ∧ timers_n 1 (k_timers two_ports) = 0.
Proof.
  destruct (k_ports two_ports !! 1%nat) as [pt|] eqn:Hq; [|by vm_compute in Hq].
  destruct (sole_holder_correct [] [] two_ports 0 (ip_of 0 two_ports) 1 pt) as [H _].
  - apply two_ports_settled.
  - by vm_compute.
  - exact Hq.
  - exists pt. split; [done|]. destruct H as (_ & H1 & _ & H2 & _).
    + vm_compute in Hq. injection Hq as <-. by vm_compute.
    + split; [exact H1|exact H2].
Defined.

(** * Waiting *)

(** C6: sys.block has no window: it puts the caller to sleep only with its receive
    right's queue empty and the caller on that port's list, so that the next push
    finds it; with a message there it returns at once with nothing changed.  The
    machine afterwards has no proc asleep on a message it will not be told of. *)
Theorem api_block_correct rk X Y σ top p ip h :
  settled rk X Y σ → calling p ip σ →
  ∃ out σ', api_block top p h σ = Ok (out, σ') ∧ settled rk X Y σ' ∧
    (out = Val Yield → top = true ∧ ∃ i r, right_get ip h = Some (i, r) ∧ r_recv r = true ∧
       asleep p (r_port r) false σ') ∧
    (out = Val (Ret []) → σ' = σ ∧ ∃ i r pt, right_get ip h = Some (i, r) ∧
       k_ports σ !! r_port r = Some pt ∧ pt_queue pt ≠ []).
Proof. apply api_block_spec. Qed.

Lemma api_block_correct_witness :
  ∃ σ', api_block true 0 1 two_ports = Ok (Val Yield, σ') ∧ asleep 0 1 false σ'.
Proof.
  destruct (api_block_correct demo_rank [] [] two_ports true 0 (ip_of 0 two_ports) 1
              two_ports_settled two_ports_calling) as (out & σ' & E & _ & H & _).
  assert (out = Val Yield) as ->.
  { vm_compute in E. by injection E as <- _. }
  exists σ'. split; [exact E|]. destruct (H eq_refl) as (_ & i & r & Hg & _ & A).
  vm_compute in Hg. injection Hg as _ <-. exact A.
Defined.

(** C7: sys.sendblock sleeps only on a live port without the room asked for, already
    on its list, so no drain in between is missed; it comes straight back, with nothing
    changed, when the port is dead, has the room or could never have it. *)
Theorem api_sendblock_correct rk X Y σ top p ip h need :
  settled rk X Y σ → calling p ip σ →
  ∃ out σ', api_sendblock top p h need σ = Ok (out, σ') ∧ settled rk X Y σ' ∧
    (out = Val Yield → top = true ∧ ∃ i r pt, right_get ip h = Some (i, r) ∧ asleep p (r_port r) true σ' ∧
       k_ports σ !! r_port r = Some pt ∧ pt_dead pt = false ∧ size_t σ need <= MAXQUEUE ∧
       MAXQUEUE < size_t σ (pt_qbytes pt + size_t σ need)) ∧
    (out = Val (Ret []) → σ' = σ ∧ ∃ i r pt, right_get ip h = Some (i, r) ∧ k_ports σ !! r_port r = Some pt ∧
       (pt_dead pt = true ∨ MAXQUEUE < size_t σ need ∨ size_t σ (pt_qbytes pt + size_t σ need) <= MAXQUEUE)).
Proof. apply api_sendblock_spec. Qed.

Lemma api_sendblock_correct_witness :
  ∃ out σ', api_sendblock true 0 1 MAXQUEUE one_queued = Ok (out, σ') ∧ settled demo_rank [] [] σ' ∧
    (out = Val Yield → asleep 0 1 true σ').
Proof.
  destruct (api_sendblock_correct demo_rank [] [] one_queued true 0 (ip_of 0 one_queued) 1 MAXQUEUE
              one_queued_settled one_queued_calling) as (out & σ' & E & S & H & _).
  exists out, σ'. split; [exact E|]. split; [exact S|]. intros Hy.
  destruct (H Hy) as (_ & i & r & pt & Hg & A & _). vm_compute in Hg. injection Hg as _ <-. exact A.
Defined.

(** * Ports underneath *)

(** C4: [port_unref] terminates and is safe: giving up one reference to a port, with
    no cycle of queued rights below it, never touches a freed port however far the
    flush cascades, leaves the counts exact for everything else, and loses no
    wakeup; ports ranked above it are untouched.  The last reference frees the port and
    its slot in the table; with others left the port stays with one reference less, marked
    dead and its queue flushed if no receive right is left and it was not dead yet, its
    queue as it was otherwise, and nobody is left asleep on it whose condition holds. *)
Theorem port_unref_correct rk X Y q pt σ :
  kinv ((pt_idx pt, false) :: X) Y σ → k_ports σ !! q = Some pt →
  ranked rk σ → ipcheld σ = true →
  ∃ σ', port_unref q σ = Ok (tt, σ') ∧ kinv X Y σ' ∧ uframe rk (S (rk q)) σ σ' ∧
    uwake (λ _, True) σ σ' ∧ unref_fate q pt σ'.
Proof. apply port_unref_full. Qed.

(** The wide lock held over the machine with two ports, a reference in hand. *)
Definition held_ports : kst := with_ipc (replicate NIPCLOCK 1%nat) two_ports.
Definition demo_port (q : nat) (σ : kst) : kport := default (fresh_port 0 0) (k_ports σ !! q).
Definition in_hand : kst := put 1 (port_taken false (demo_port 1 held_ports)) held_ports.

Lemma held_port : k_ports held_ports !! 1%nat = Some (demo_port 1 held_ports).
Proof. by vm_compute. Qed.

Lemma held_kinv : kinv [] [] held_ports.
Proof. apply kinv_ipc, two_ports_settled. Qed.

Lemma in_hand_kinv : kinv [(1%nat, false)] [] in_hand.
Proof.
  assert (pt_idx (demo_port 1 held_ports) = 1%nat) as <- by by vm_compute.
  apply kinv_take; [exact held_kinv|exact held_port].
Qed.

Lemma in_hand_idx : pt_idx (demo_port 1 in_hand) = 1%nat.
Proof. by vm_compute. Qed.

Lemma in_hand_ranked : ranked demo_rank in_hand.
Proof.
  eapply ranked_put; [apply ranked_ipc, two_ports_settled|exact held_port|].
  by vm_compute.
Qed.

Lemma port_unref_correct_witness :
  ∃ σ', port_unref 1 in_hand = Ok (tt, σ') ∧ kinv [] [] σ' ∧ unref_fate 1 (demo_port 1 in_hand) σ'.
Proof.
  destruct (port_unref_correct demo_rank [] [] 1 (demo_port 1 in_hand) in_hand) as (σ' & E & K & _ & _ & H).
  - rewrite in_hand_idx. exact in_hand_kinv.
  - by vm_compute.
  - exact in_hand_ranked.
  - by vm_compute.
  - exists σ'. split; [exact E|]. split; [exact K|exact H].
Defined.

(** [port_push_owned] queues at the tail or says why not.  The answer is -3 on a
    dead port, -2 past MAXQUEUE, -1 out of memory and 0 otherwise; on 0 the message
    owns its references and buffers and no receiver of the port is left asleep, and
    on anything else they are still the caller's. *)
Theorem port_push_owned_correct X Y σ q pt data refs bufs :
  kinv (refs ++ X) (bufs ++ Y) σ → k_ports σ !! q = Some pt →
  ipcheld_one_port pt σ = true → (∀ b, b ∈ bufs → 0 <= snd b) →
  ∃ σ', let rc := push_rc data bufs pt (k_mem σ (k_nalloc σ)) in
    port_push_owned q data refs bufs σ = Ok (rc, σ') ∧
    uwake (λ _, True) σ σ' ∧ k_ipc σ' = k_ipc σ ∧ (∀ p, blocked σ' p → blocked σ p) ∧
    if rc =? 0 then kinv X Y σ' ∧ (∀ w, ¬ sleeping false q w σ') ∧
      wframe q (put q (pushed data refs bufs pt) (alloc_st σ)) σ'
    else kinv (refs ++ X) (bufs ++ Y) σ' ∧ k_ports σ' = <[q := refused rc pt]> (k_ports σ) ∧
      frame_p σ' = frame_p σ.
Proof. apply port_push_owned_spec. Qed.

Lemma port_push_owned_correct_witness :
  ∃ σ', port_push_owned 1 [84] [(1%nat, false)] [] in_hand = Ok (0, σ') ∧ kinv [] [] σ'.
Proof.
  destruct (port_push_owned_correct [] [] in_hand 1 (demo_port 1 in_hand) [84] [(1%nat, false)] [])
    as (σ' & E & _ & _ & _ & H).
  - exact in_hand_kinv.
  - by vm_compute.
  - by vm_compute.
  - by intros b ?%elem_of_nil.
  - assert (push_rc [84] [] (demo_port 1 in_hand) (k_mem in_hand (k_nalloc in_hand)) = 0) as Hrc
      by by vm_compute.
    rewrite Hrc in E, H. exists σ'. split; [exact E|apply H].
Defined.

(** [port_pop] takes the head of the queue, first in first out, with its references
    and buffers passing to the caller, uncharges its bytes and wakes every proc
    waiting for room; on an empty queue it changes nothing.  Entered with nothing held
    or under the wide lock, it leaves the buckets as it found them. *)
Theorem port_pop_correct X Y σ q pt :
  kinv X Y σ → k_ports σ !! q = Some pt → lockable σ →
  ∃ σ', port_pop q σ = Ok (head (pt_queue pt), σ') ∧ k_ipc σ' = k_ipc σ ∧
    uwake (λ _, True) σ σ' ∧ (∀ p, blocked σ' p → blocked σ p) ∧
    match pt_queue pt with
    | [] => σ' = σ
    | m :: l => kinv (m_refs m ++ X) (m_bufs m ++ Y) σ' ∧ (∀ w, ¬ sleeping true q w σ') ∧
        wframe q (put q (popped m l pt) σ) σ'
    end.
Proof. apply port_pop_spec. Qed.

Lemma port_pop_correct_witness :
  ∃ σ', port_pop 1 one_queued = Ok (head (pt_queue (demo_port 1 one_queued)), σ') ∧ k_ipc σ' = k_ipc one_queued.
Proof.
  destruct (port_pop_correct [] [] one_queued 1 (demo_port 1 one_queued)) as (σ' & E & I & _).
  - apply one_queued_settled.
  - by vm_compute.
  - left. apply one_queued_settled.
  - exists σ'. split; [exact E|exact I].
Defined.

(** [wait_reap], which the dispatcher runs before a proc, takes the proc off every
    list it is still on one bucket at a time, frees every waiter and clears the woken
    mark, with the invariant kept and no lock left held. *)
Theorem wait_reap_correct X Y σ p ip :
  kinv X Y σ → k_procs σ !! p = Some ip → unlocked σ →
  ∃ σ' ip', wait_reap p σ = Ok (tt, σ') ∧ kinv X Y σ' ∧ unlocked σ' ∧
    uwake (λ _, True) σ σ' ∧ k_procs σ' !! p = Some ip' ∧ ip_waiters ip' = [] ∧
    ip_woken ip' = false ∧ unlisted ip ip' ∧ k_sch σ' = k_sch σ.
Proof. apply wait_reap_spec. Qed.

(** Proc 0 parked on its second port. *)
Definition parked : kst := after (api_block true 0 1) two_ports.

Lemma parked_settled : settled demo_rank [] [] parked.
Proof.
  destruct (api_block_spec demo_rank [] [] two_ports true 0 (ip_of 0 two_ports) 1
              two_ports_settled two_ports_calling) as (out & σ' & E & S & _).
  unfold parked, after. by rewrite E.
Qed.

Lemma wait_reap_correct_witness :
  ∃ σ' ip', wait_reap 0 parked = Ok (tt, σ') ∧ k_procs σ' !! 0%nat = Some ip' ∧ ip_waiters ip' = [].
Proof.
  destruct (wait_reap_correct [] [] parked 0 (ip_of 0 parked)) as (σ' & ip' & E & _ & _ & _ & Hp & Hw & _).
  - apply parked_settled.
  - by vm_compute.
  - apply parked_settled.
  - exists σ', ip'. split; [exact E|]. split; [exact Hp|exact Hw].
Defined.

(** * Timers *)

(** A timer on the second port, due at 5ms. *)
Definition ticking : kst := armed 1 (demo_port 1 two_ports) 0 5 two_ports.

Lemma two_ports_port : k_ports two_ports !! 1%nat = Some (demo_port 1 two_ports).
Proof. by vm_compute. Qed.

Lemma ticking_kinv : kinv [] [] ticking.
Proof. apply kinv_armed; [apply two_ports_settled|exact two_ports_port|by vm_compute]. Qed.

Lemma ticking_ranked : ranked demo_rank ticking.
Proof. apply ranked_armed; [exact two_ports_port|apply two_ports_settled]. Qed.

(** Somebody can receive on the timer's port. *)
Lemma ticking_receivable : receivable ticking 1.
Proof.
  destruct (right_get (ip_of 0 two_ports) 1) as [[i r]|] eqn:E; [|by vm_compute in E].
  exists 0%nat, (ip_of 0 two_ports), r. vm_compute in E. injection E as <- <-. split_and!; [by vm_compute| |done..].
  vm_compute. right. left.
Qed.

(** C11: [expire_timers] frees exactly the slots that are due or whose port is dead and
    leaves the others as they are, gives back the table's reference for each it frees, and
    keeps the invariant: no fault, no lock left held, no wakeup lost.  On every port some
    proc can receive on, the queue grows by ticks (the byte T, which decodes as true) and
    nothing else, no more than the port has due timers; and by exactly one for each due timer
    when the port is live, has room for them and memory does not run out. *)
Theorem expire_timers_correct rk X Y σ now :
  kinv X Y σ → ranked rk σ → unlocked σ → length (k_timers σ) = MAXTIMERS →
  ∃ σ', expire_timers now σ = Ok (tt, σ') ∧ tstep rk X Y σ σ' ∧
    k_timers σ' = expired now σ <$> k_timers σ ∧ delivers now (k_timers σ) σ σ'.
Proof. apply expire_timers_spec. Qed.

Lemma expire_timers_correct_witness :
  ∃ σ' pt', expire_timers 7 ticking = Ok (tt, σ') ∧ k_timers σ' !! 0%nat = Some (None, 5) ∧
    k_ports σ' !! 1%nat = Some pt' ∧ pt_queue pt' = [tick].
Proof.
  destruct (expire_timers_correct demo_rank [] [] ticking 7) as (σ' & E & _ & L & D).
  - exact ticking_kinv.
  - exact ticking_ranked.
  - by vm_compute.
  - by vm_compute.
  - destruct (D 1%nat (demo_port 1 ticking)) as (pt' & k & Hq & _ & Q & _ & _ & Hk); [by vm_compute|exact ticking_receivable|].
    assert (k = 1%nat) as -> by (apply Hk; by vm_compute).
    assert (pt_queue (demo_port 1 ticking) = []) as Hnil by by vm_compute. rewrite Hnil in Q.
    exists σ', pt'. split; [exact E|]. split; [rewrite L; by vm_compute|]. split; [exact Hq|exact Q].
Defined.

(** a due timer fires.  When its turn of the loop comes with somebody still able to
    receive, room on the port and memory for the message, exactly one message, the
    byte T that decodes as true, joins the port's queue, and the slot is free. *)
Theorem expire_one_delivers rk X Y σ now i q due pt :
  kinv X Y σ → ranked rk σ → ipcheld σ = true → k_timers σ !! i = Some (Some q, due) →
  due <= now → k_ports σ !! q = Some pt → pt_dead pt = false → 1 <= pt_nrecv pt →
  pt_qbytes pt + 1 <= MAXQUEUE → k_mem σ (k_nalloc σ) = true → k_mem σ (S (k_nalloc σ)) = true →
  ∃ σ' pt', expire_one now i σ = Ok (tt, σ') ∧ k_timers σ' !! i = Some (None, due) ∧
    k_ports σ' !! q = Some pt' ∧ pt_queue pt' = pt_queue pt ++ [mkKmsg [84] [] 1 []].
Proof. apply expire_one_fires. Qed.

Lemma expire_one_delivers_witness :
  ∃ σ' pt', expire_one 7 0 (with_ipc (replicate NIPCLOCK 1%nat) ticking) = Ok (tt, σ') ∧
    k_ports σ' !! 1%nat = Some pt' ∧ pt_queue pt' = [mkKmsg [84] [] 1 []].
Proof.
  destruct (expire_one_delivers demo_rank [] [] (with_ipc (replicate NIPCLOCK 1%nat) ticking) 7 0 1 5
              (demo_port 1 ticking)) as (σ' & pt' & E & _ & Hq & Eq).
  - apply kinv_ipc, ticking_kinv.
  - apply ranked_ipc, ticking_ranked.
  - by vm_compute.
  - by vm_compute.
  - done.
  - by vm_compute.
  - by vm_compute.
  - by vm_compute.
  - by vm_compute.
  - by vm_compute.
  - by vm_compute.
  - exists σ', pt'. split; [exact E|]. split; [exact Hq|].
    assert (pt_queue (demo_port 1 ticking) = []) as Hnil by by vm_compute.
    rewrite Hnil in Eq. exact Eq.
Defined.

(** [timer_arm] finds the first free slot, reaping the timers whose port died if
    there is none, and then fails only with 128 timers still running; on success the
    port gains the table's reference and the slot the deadline. *)
Theorem timer_arm_correct rk X Y σ q pt now ms :
  kinv X Y σ → ranked rk σ → ipcheld σ = true → length (k_timers σ) = MAXTIMERS →
  k_ports σ !! q = Some pt →
  (∃ p ip r, k_procs σ !! p = Some ip ∧ r ∈ all_rights ip ∧ r_used r = true ∧ r_port r = q) →
  ∃ rc σ1 σ', timer_arm q now ms σ = Ok (rc, σ') ∧ tstep rk X Y σ σ1 ∧
    kinv X Y σ' ∧ ranked rk σ' ∧
    ((rc = -1 ∧ σ' = σ1 ∧ ∀ i t, k_timers σ' !! i = Some t → is_Some (fst t)) ∨
     (rc = 0 ∧ ∃ pt1 slot, k_ports σ1 !! q = Some pt1 ∧ timer_free (k_timers σ1) = Some slot ∧
        σ' = armed q pt1 slot (u64 (now + ms)) σ1)).
Proof. apply timer_arm_spec. Qed.

Lemma timer_arm_correct_witness :
  ∃ rc σ', timer_arm 1 3 20 held_ports = Ok (rc, σ') ∧ kinv [] [] σ'.
Proof.
  destruct (timer_arm_correct demo_rank [] [] held_ports 1 (demo_port 1 held_ports) 3 20)
    as (rc & σ1 & σ' & E & _ & K & _).
  - exact held_kinv.
  - apply ranked_ipc, two_ports_settled.
  - by vm_compute.
  - by vm_compute.
  - exact held_port.
  - exists 0%nat, (ip_of 0 two_ports), (mkRight 1 true true).
    split; [by vm_compute|]. split; [|done]. apply (list_elem_of_lookup_2 _ 1). by vm_compute.
  - exists rc, σ'. split; [exact E|exact K].
Defined.

(** * The serializer *)

(** C9: [deserialize] on any bytes.  For a size_t wider than 32 bits it never reads
    outside the message and never faults, at any depth and whatever the tags say: it
    returns a value or an error code with the offset inside the message, at most
    MAXMSGRIGHTS rights minted and all of them recorded, and each buffer taken at most
    once; the kernel invariant holds and no other proc is changed. *)
Theorem deserialize_safe settable p receiver X Y n d σ :
  bytes_ok p → Z.of_nat (length p) <= MAXMSG → ready p receiver X Y d σ →
  ∃ out σ', deserialize settable p n receiver d σ = Ok (out, σ') ∧ rpost settable p receiver X Y d σ out σ'.
Proof. intros Hb Hl. apply (deserialize_runs settable p receiver X Y Hb Hl). Qed.

Lemma two_ports_ready p : ready p 0 [] [] (mkDst 0 [] []) two_ports.
Proof.
  split; [apply two_ports_settled|eexists; apply two_ports_calling|apply two_ports_calling|
          apply two_ports_calling|simpl; unfold m_len; lia|done].
Qed.

(** The bytes are a table claiming a pair it does not have. *)
Lemma deserialize_safe_witness :
  ∃ out σ', deserialize_top demo_settable [66; 1; 0; 0; 0; 82] 0 (mkDst 0 [] []) two_ports = Ok (out, σ') ∧
    rpost demo_settable [66; 1; 0; 0; 0; 82] 0 [] [] (mkDst 0 [] []) two_ports out σ'.
Proof.
  destruct (deserialize_safe demo_settable [66; 1; 0; 0; 0; 82] 0 [] [] (Z.to_nat (MAXDEPTH + 1))
              (mkDst 0 [] []) two_ports) as (out & σ' & E & H).
  - repeat constructor; unfold byte_ok; lia.
  - done.
  - apply two_ports_ready.
  - exists out, σ'. split; [exact E|exact H].
Defined.

(** C10: [serialize] on any value whose strings leave room for a message in the address
    space never faults and never writes past MAXMSG; every
    reference the message records is one it took, to a port the sender holds, with that
    right's receive flag; at most MAXMSGRIGHTS of them and MAXMSGBUFS buffers, each
    buffer once and each one the value named.  It raises only on a buffer given away. *)
Theorem serialize_confined sender ip V bits X Y (P : ubuf → Prop) n v w σ :
  (∀ u, has_user u v → P u) → fits bits v → writing sender ip V bits X Y w σ →
  ∃ out σ', serialize n sender v w σ = Ok (out, σ') ∧ wpost sender ip V bits X Y P w σ out σ'.
Proof. intros HP [Hw Hf]. by apply serialize_runs. Qed.

Lemma serialize_confined_witness :
  ∃ out σ', serialize_top 0 (LTab [(lstr "__right", LInt 1)]) wbuf0 two_ports = Ok (out, σ') ∧
    wpost 0 (ip_of 0 two_ports) (k_portv two_ports) 64 [] [] (λ _, True) wbuf0 two_ports out σ'.
Proof.
  destruct (serialize_confined 0 (ip_of 0 two_ports) (k_portv two_ports) 64 [] [] (λ _, True)
              (Z.to_nat (MAXDEPTH + 1)) (LTab [(lstr "__right", LInt 1)]) wbuf0 two_ports)
    as (out & σ' & E & H).
  - done.
  - split; [by vm_compute|]. intros s Hs. assert (length s <= 8)%nat; [|unfold room, MAXMSG; lia].
    inversion Hs as [| |kv k v Hin H|kv k v Hin H]; subst; (apply elem_of_cons in Hin as [[= -> ->]|Hin];
      [inversion H; subst; cbn; lia|by apply elem_of_nil in Hin]).
  - split; [apply two_ports_settled|apply two_ports_calling|reflexivity|reflexivity|].
    split; [done|done|done|constructor].
  - exists out, σ'. split; [exact E|exact H].
Defined.
