(* ===== verification/Findings.v ===== *)
(** Evaluations of the model on the inputs where the ipc code does not do what its
    comments say: each statement is a run of the calls of Syscall.v from the machine of
    Demo.v. *)

From S2P Require Import Prelude Clock Sched Ports PortInv KInv PortWake PortRef PortOps WaitOps.
From S2P Require Import Timer Serialize SerializeOk SerializeInv Syscall SyscallOk Demo.
From stdpp Require Import prelude list gmap strings.
From Stdlib Require Import ZArith Lia.
Open Scope Z_scope.

Definition any_settable (tab : list (lv * lv)) (k v : lv) : option (list (lv * lv)) := Some ((k, v) :: tab).
Definition right_msg (h : Z) : lv := LTab [(lstr "__right", LInt h)].

(** * A port whose queue holds a right to it *)

(** h = sys.newport(); s = sys.sendright(h); sys.send(h, {__right = s}); sys.close(s). *)
Definition self_queued : kst :=
  after (api_close 0 2) (after (api_send 0 1 (right_msg 2)) (after (api_sendright 0 1) two_ports)).

(** sys.close(h) then marks the port dead and flushes it; the message's reference was
    the last, so the inner port_unref frees the port, and the outer one goes on to wake
    the waiters of freed memory. *)
Theorem close_self_queued_use_after_free : api_close 0 1 self_queued = Err UseAfterFree.
Proof. by vm_compute. Qed.

(** With the receive right queued instead the port is simply never freed: nobody holds
    it, and its own queue does. *)
Definition recv_queued : kst := after (api_close 0 1) (after (api_send 0 1 (right_msg 1)) two_ports).
Theorem close_recv_queued_leaks :
  ∃ pt, k_ports recv_queued !! 1%nat = Some pt ∧ pt_nrights pt = 1 ∧ pt_dead pt = false ∧
    rights_n false 1 (ip_of 0 recv_queued) = 0.
Proof. eexists. by vm_compute. Qed.

(** * Handles are truncated *)

(** sys.close(2^32) passes the test for handle 0 and closes handle 0. *)
Theorem close_truncates_handle :
  ∃ σ', api_close 0 (2 ^ 32) two_ports = Ok (Val (Ret []), σ') ∧
    is_Some (right_get (ip_of 0 two_ports) 0) ∧ right_get (ip_of 0 σ') 0 = None.
Proof. eexists. vm_compute. split; [reflexivity|]. split; [by eexists|reflexivity]. Qed.

(** * A raise in the middle of a message *)

Definition given_away : lv := LUser (mkUbuf 7 None [] false true 0).
(** { {__right = 1}, <a buffer that was sent before> } *)
Definition half_msg : lv := LTab [(LInt 1, right_msg 1); (LInt 2, given_away)].

(** sys.send raises, and the reference it had taken to the port is never given back:
    one right, two references counted. *)
Theorem send_raise_leaks_reference :
  ∃ e σ' pt, api_send 0 1 half_msg two_ports = Ok (Raise e, σ') ∧
    k_ports σ' !! 1%nat = Some pt ∧ pt_nrights pt = 2 ∧ pt_nrecv pt = 2 ∧
    rights_n false 1 (ip_of 0 σ') = 1.
Proof. eexists _, _, _. by vm_compute. Qed.

(** sys.call raises from inside its region: every ipc bucket stays taken. *)
Theorem call_raise_keeps_ipclock :
  ∃ e σ', api_call any_settable true 0 1 (LTab [(LInt 1, given_away)]) 1 two_ports = Ok (Raise e, σ') ∧
    k_ipc σ' = replicate NIPCLOCK 1%nat.
Proof. eexists _, _. by vm_compute. Qed.

(** * A port nobody can name *)

Definition eight_ports : kst := Nat.iter 8 (after (api_newport 0)) boot.
(** The ninth right needs the overflow table, and there is no memory for it. *)
Definition no_table : kst := set_k_mem (λ i, (i <? 9)%nat) eight_ports.

(** sys.newport reports that it is out of rights; the port it made keeps its slot of the
    port table, with no reference to it. *)
Theorem newport_leaks_slot :
  ∃ σ' q pt, api_newport 0 no_table = Ok (Raise "out of rights", σ') ∧
    k_portv σ' !! 8%nat = Some q ∧ k_ports σ' !! q = Some pt ∧ pt_nrights pt = 0 ∧
    k_portv no_table !! 8%nat = None.
Proof. eexists _, _, _. by vm_compute. Qed.

(** * A length that wraps *)

(** With a 32-bit size_t the bounds test on a string's length wraps, and the copy that
    follows reads outside the message. *)
Theorem deserialize_wraps_32bit :
  deserialize_top any_settable [83; 255; 255; 255; 255] 0 (mkDst 0 [] []) (set_k_szbits 32 boot) =
  Err OutOfBounds.
Proof. by vm_compute. Qed.

(** * A kill while the proc waits *)

(** A proc killed while it waits on its own port: the finalizers run first, and one that
    closes the port frees it (sys.close, as a handle's finalizer calls it); the wait on it
    is cleared after that. *)
Definition killed_waiting : kst := after (api_close 0 1) (after (api_block true 0 1) two_ports).
Theorem kill_finalizer_use_after_free : (ipclock_enter ;;; wait_clear 0) killed_waiting = Err UseAfterFree.
Proof. by vm_compute. Qed.
