(* ===== verification/Pmm.v ===== *)
(** The physical allocator: src/src/platform/microvm/pmm.c.

    One list of holes in address order, its links stored in the holes themselves.
    Memory is bytes; a block header is two words of [ws] bytes, 8 on microvm and 4 on
    wasm, whose pmm.c is the same code.  The whole of each operation runs under one
    lock, so it is one step here.

    [chain] relates the bytes to the list of holes they encode, and the theorems speak
    of that list: what each byte belongs to ([cnt]), that holes are ordered, aligned
    and never adjacent ([gaps]), and that memory outside the holes is not written. *)

From S2P Require Import Prelude.
From stdpp Require Import prelude list.
From Stdlib Require Import ZArith Lia.
Open Scope Z_scope.

(** * State *)

Record pmm : Type := mkPmm {
  m_mem : Z → Z;
  freelist : Z;
  arena_bytes : Z
}.

Abbreviation PM := (ST pmm).

Definition ALIGN : Z := 16.

Section code.
Context (ws : Z).

(** size_t arithmetic. *)
Definition sz (z : Z) : Z := wrap (8 * ws) z.
(** sizeof(struct pmm_block). *)
Definition hdr : Z := 2 * ws.

Definition load (m : Z → Z) (a : Z) : Z :=
  le_val (List.map (λ i, m (a + Z.of_nat i)) (seq 0 (Z.to_nat ws))).
Definition store (m : Z → Z) (a v : Z) : Z → Z := λ x,
  if (a <=? x) && (x <? a + ws) then (v / 256 ^ (x - a)) mod 256 else m x.

Definition ld (a : Z) : PM Z := λ σ, Ok (load (m_mem σ) a, σ).
Definition sto (a v : Z) : PM unit :=
  st_modify (λ σ, mkPmm (store (m_mem σ) a v) (freelist σ) (arena_bytes σ)).
Definition set_freelist (b : Z) : PM unit :=
  st_modify (λ σ, mkPmm (m_mem σ) b (arena_bytes σ)).

(** The fields of a block. *)
Definition size_of (b : Z) : PM Z := ld b.
Definition next_of (b : Z) : PM Z := ld (b + ws).
Definition set_size (b v : Z) : PM unit := sto b v.
Definition set_next (b v : Z) : PM unit := sto (b + ws) v.

(** A walk of the list is bounded by the cells of the arena. *)
Definition fuel (σ : pmm) : nat := S (Z.to_nat (arena_bytes σ / ALIGN)).

(** * Operations *)

(** (n + 15) & ~15 *)
Definition align_up (n : Z) : Z := Z.ldiff (sz (n + (ALIGN - 1))) (ALIGN - 1).

(** The walk to the first block not below [b], with the one before it; 0 is null. *)
Fixpoint insert_find (k : nat) (b prev cur : Z) : PM (Z * Z) :=
  match k with
  | O => st_fail OutOfFuel
  | S k =>
      if negb (cur =? 0) && (cur <? b) then
        let! nx := next_of cur in insert_find k b cur nx
      else st_ret (prev, cur)
  end.

(** The block [b] linked in front of [cur], or merged with it. *)
Definition link_next (b cur : Z) : PM unit :=
  let! bs := size_of b in
  if negb (cur =? 0) && (sz (b + bs) =? cur) then
    let! cs := size_of cur in
    set_size b (sz (bs + cs)) ;;;
    let! cn := next_of cur in set_next b cn
  else set_next b cur.

(** The block [b] linked after [prev], or merged into it. *)
Definition link_prev (prev b : Z) : PM unit :=
  if prev =? 0 then set_freelist b
  else
    let! ps := size_of prev in
    if sz (prev + ps) =? b then
      let! bs := size_of b in
      set_size prev (sz (ps + bs)) ;;;
      let! bn := next_of b in set_next prev bn
    else set_next prev b.

Definition freelist_insert (b : Z) : PM unit :=
  let! σ := st_get in
  let! (prev, cur) := insert_find (fuel σ) b 0 (freelist σ) in
  link_next b cur ;;; link_prev prev b.

Definition pmm_add (base len : Z) : PM unit :=
  let end_ := sz (base + len) in
  let base := align_up base in
  let end_ := Z.ldiff end_ (ALIGN - 1) in
  if (end_ <=? base) || (end_ - base <? hdr) then st_ret tt
  else
    set_size base (end_ - base) ;;;
    st_modify (λ σ, mkPmm (m_mem σ) (freelist σ) (sz (arena_bytes σ + (end_ - base)))) ;;;
    freelist_insert base.

Fixpoint meminfo_scan (k : nat) (b a m : Z) : PM (Z * Z) :=
  match k with
  | O => st_fail OutOfFuel
  | S k =>
      if b =? 0 then st_ret (a, m) else
      let! bs := size_of b in
      let! bn := next_of b in
      meminfo_scan k bn (sz (a + bs)) (if m <? bs then bs else m)
  end.

(** (total, avail, largest) *)
Definition pmm_meminfo : PM (Z * Z * Z) :=
  let! σ := st_get in
  let! (a, m) := meminfo_scan (fuel σ) (freelist σ) 0 0 in
  st_ret (arena_bytes σ, a, m).

(** The size a request is served with. *)
Definition rounded (n : Z) : Z := let n := align_up n in if n <? hdr then hdr else n.

(** [*pp]: [pp] is 0 for the list head and otherwise the block whose next field it
    points at. *)
Definition get_link (pp : Z) : PM Z :=
  if pp =? 0 then let! σ := st_get in st_ret (freelist σ) else next_of pp.
Definition set_link (pp v : Z) : PM unit :=
  if pp =? 0 then set_freelist v else set_next pp v.

Fixpoint alloc_scan (k : nat) (n pp : Z) : PM Z :=
  match k with
  | O => st_fail OutOfFuel
  | S k =>
      let! b := get_link pp in
      if b =? 0 then st_ret 0 else
      let! bs := size_of b in
      if n <=? bs then
        (if sz (n + hdr) <=? bs then
           let rem := sz (b + n) in
           set_size rem (sz (bs - n)) ;;;
           (let! bn := next_of b in set_next rem bn) ;;;
           set_link pp rem
         else let! bn := next_of b in set_link pp bn) ;;;
        st_ret b
      else alloc_scan k n b
  end.

Definition pmm_alloc (n : Z) : PM Z :=
  let! σ := st_get in alloc_scan (fuel σ) (rounded n) 0.

Definition pmm_free (p n : Z) : PM unit :=
  set_size p (rounded n) ;;; freelist_insert p.
End code.

(** * Memory *)

Definition wide (ws : Z) : Prop := ws = 4 ∨ ws = 8.

Lemma le_bytes_map n z :
  le_bytes n z = List.map (λ i, (z / 256 ^ Z.of_nat i) mod 256) (seq 0 n).
Proof.
  revert z. induction n as [|n IH]; intros z; [done|].
  cbn [le_bytes seq List.map]. rewrite Z.pow_0_r, Z.div_1_r, IH. f_equal.
  rewrite <-seq_shift, List.map_map. apply List.map_ext. intros i.
  rewrite Nat2Z.inj_succ, Z.pow_succ_r by lia. by rewrite Z.div_div by lia.
Qed.

Section memory.
Context (ws : Z) (Hws : wide ws).

Lemma load_ext m m' a : (∀ x, a <= x < a + ws → m x = m' x) → load ws m a = load ws m' a.
Proof.
  intros H. unfold load. f_equal. apply List.map_ext_in. intros i [_ Hi]%in_seq.
  apply H. destruct Hws; subst; simpl in Hi; lia.
Qed.

Lemma load_store m a v : 0 <= v < 2 ^ (8 * ws) → load ws (store ws m a v) a = v.
Proof.
  intros Hv. unfold load, store.
  rewrite (List.map_ext_in _ (λ i, (v / 256 ^ Z.of_nat i) mod 256)).
  - rewrite <-le_bytes_map. apply le_val_bytes_small.
    replace (256 ^ Z.of_nat (Z.to_nat ws)) with (2 ^ (8 * ws)); [done|].
    by destruct Hws as [->| ->].
  - intros i [_ Hi]%in_seq. destruct Hws as [->| ->]; simpl in Hi;
      rewrite (proj2 (Z.leb_le _ _)), (proj2 (Z.ltb_lt _ _)) by lia;
      simpl; do 3 f_equal; lia.
Qed.

Lemma store_out m a v x : ¬ (a <= x < a + ws) → store ws m a v x = m x.
Proof.
  intros H. unfold store.
  destruct (Z.leb_spec a x), (Z.ltb_spec x (a + ws)); simpl; [lia|done..].
Qed.

Lemma load_store_ne m a b v : a + ws <= b ∨ b + ws <= a →
  load ws (store ws m a v) b = load ws m b.
Proof. intros H. apply load_ext. intros x Hx. apply store_out. lia. Qed.
End memory.

(** * The list of holes *)

Abbreviation hole := (Z * Z)%type.

(** Is byte [x] in the block? *)
Definition hit (x : Z) (h : hole) : Z :=
  if (fst h <=? x) && (x <? fst h + snd h) then 1 else 0.
(** How many blocks of the list hold byte [x]. *)
Definition cnt (l : list hole) (x : Z) : Z := zsum (hit x) l.
Definition bytes_in (l : list hole) : Z := zsum snd l.

(** Address order, alignment, no block ending past the address space, and a gap
    between neighbours: two adjacent holes would be one.  [lo] is where the previous
    block ended. *)
Fixpoint gaps (top lo : Z) (l : list hole) : Prop :=
  match l with
  | [] => True
  | (a, s) :: l =>
      lo < a ∧ a mod ALIGN = 0 ∧ 0 < s ∧ s mod ALIGN = 0 ∧ a + s < top ∧ gaps top (a + s) l
  end.

(** The block [(b, s)] put in front of [l], merged with the first block of it if they
    touch. *)
Definition front (b s : Z) (l : list hole) : list hole :=
  match l with
  | (c, t) :: l' => if b + s =? c then (b, s + t) :: l' else (b, s) :: l
  | [] => [(b, s)]
  end.

Fixpoint insert_hole (b s : Z) (l : list hole) : list hole :=
  match l with
  | [] => [(b, s)]
  | (a, t) :: l' =>
      if a <? b then
        if a + t =? b then front a t (front b s l') else (a, t) :: insert_hole b s l'
      else front b s l
  end.

Fixpoint take_hole (n : Z) (l : list hole) : option (Z * list hole) :=
  match l with
  | [] => None
  | (a, t) :: l' =>
      if n <=? t then Some (a, if n <? t then (a + n, t - n) :: l' else l')
      else match take_hole n l' with
           | Some (b, r) => Some (b, (a, t) :: r)
           | None => None
           end
  end.

Lemma hit_range x h : 0 <= hit x h <= 1.
Proof. unfold hit. destruct (_ && _); lia. Qed.

Lemma cnt_nonneg l x : 0 <= cnt l x.
Proof. apply zsum_nonneg. intros. apply hit_range. Qed.

Lemma cnt_cons h l x : cnt (h :: l) x = hit x h + cnt l x.
Proof. apply zsum_cons. Qed.

Lemma cnt_app l1 l2 x : cnt (l1 ++ l2) x = cnt l1 x + cnt l2 x.
Proof. apply zsum_app. Qed.

Lemma hit_join x a s t : 0 <= s → 0 <= t → hit x (a, s + t) = hit x (a, s) + hit x (a + s, t).
Proof.
  intros Hs Ht. unfold hit. simpl.
  destruct (Z.leb_spec a x), (Z.ltb_spec x (a + (s + t))), (Z.ltb_spec x (a + s)),
    (Z.leb_spec (a + s) x), (Z.ltb_spec x (a + s + t)); simpl; lia.
Qed.

Lemma hit_1 x a s : a <= x < a + s → hit x (a, s) = 1.
Proof.
  intros H. unfold hit. simpl.
  destruct (Z.leb_spec a x), (Z.ltb_spec x (a + s)); simpl; lia.
Qed.

Lemma hit_0 x a s : ¬ (a <= x < a + s) → hit x (a, s) = 0.
Proof.
  intros H. unfold hit. simpl.
  destruct (Z.leb_spec a x), (Z.ltb_spec x (a + s)); simpl; lia.
Qed.

Lemma gaps_weaken top lo lo' l : lo' <= lo → gaps top lo l → gaps top lo' l.
Proof. destruct l as [|[a s] l]; simpl; [done|]. intros ? (? & ?). split; [lia|done]. Qed.

Lemma cnt_elem a s l x : (a, s) ∈ l → a <= x < a + s → 0 < cnt l x.
Proof.
  intros Hin Hx. unfold cnt. pose proof (hit_1 x a s Hx).
  assert (hit x (a, s) <= zsum (hit x) l); [|lia].
  apply zsum_elem_le; [|done]. intros. apply hit_range.
Qed.

Lemma cnt_below top lo l x : gaps top lo l → x <= lo → cnt l x = 0.
Proof.
  revert lo. induction l as [|[a s] l IH]; intros lo G Hx; [done|].
  destruct G as (? & _ & ? & _ & _ & G). rewrite cnt_cons, hit_0 by lia.
  rewrite (IH _ G); lia.
Qed.

(** Holes do not overlap. *)
Lemma cnt_le_1 top lo l x : gaps top lo l → cnt l x <= 1.
Proof.
  revert lo. induction l as [|[a s] l IH]; intros lo G; [done|].
  destruct G as (_ & _ & ? & _ & _ & G). rewrite cnt_cons.
  destruct (decide (a <= x < a + s)) as [Hin|Hout].
  - rewrite hit_1, (cnt_below _ _ _ _ G) by lia. done.
  - rewrite hit_0 by done. specialize (IH _ G). lia.
Qed.

(** A block that shares no byte with the list lies wholly before its first hole or
    wholly after it. *)
Lemma apart top lo a t l b s :
  gaps top lo ((a, t) :: l) → 0 < s → (∀ x, b <= x < b + s → cnt ((a, t) :: l) x = 0) →
  (a < b → a + t <= b) ∧ (b <= a → b + s <= a).
Proof.
  intros (? & _ & ? & _) Hs Hd. split; intros.
  - destruct (Z.le_gt_cases (a + t) b); [done|]. specialize (Hd b ltac:(lia)).
    pose proof (cnt_elem a t ((a, t) :: l) b ltac:(left) ltac:(lia)). lia.
  - destruct (Z.le_gt_cases (b + s) a); [done|]. specialize (Hd a ltac:(lia)).
    pose proof (cnt_elem a t ((a, t) :: l) a ltac:(left) ltac:(lia)). lia.
Qed.

Lemma cnt_tail_0 h l x : cnt (h :: l) x = 0 → cnt l x = 0.
Proof. rewrite cnt_cons. pose proof (hit_range x h). pose proof (cnt_nonneg l x). lia. Qed.

Lemma cnt_front b s l x top lo : gaps top lo l → 0 < s →
  cnt (front b s l) x = hit x (b, s) + cnt l x.
Proof.
  destruct l as [|[c t] l]; intros G Hs; [done|]. destruct G as (_ & _ & ? & _).
  simpl. destruct (Z.eqb_spec (b + s) c) as [<-|].
  - rewrite !cnt_cons, hit_join by lia. lia.
  - by rewrite !cnt_cons.
Qed.

Lemma bytes_front b s l : bytes_in (front b s l) = s + bytes_in l.
Proof.
  destruct l as [|[c t] l]; [done|]. simpl. destruct (_ =? _); unfold bytes_in;
    rewrite !zsum_cons; simpl; lia.
Qed.

Lemma gaps_front top lo b s l :
  gaps top (b + s) l ∨ (∃ c t l', l = (c, t) :: l' ∧ c = b + s ∧ gaps top lo l) →
  lo < b → b mod ALIGN = 0 → 0 < s → s mod ALIGN = 0 → b + s < top → gaps top lo (front b s l).
Proof.
  unfold ALIGN. intros [G|(c & t & l' & -> & -> & G)] Hlo Hb Hs Hm Ht.
  - destruct l as [|[c t] l]; simpl in *; [done|]. unfold ALIGN in *.
    destruct (Z.eqb_spec (b + s) c); [lia|]. simpl. unfold ALIGN. tauto.
  - simpl in G. destruct G as (_ & _ & Ht0 & Htm & Hte & G). unfold front.
    rewrite Z.eqb_refl. simpl. unfold ALIGN in *. split_and!; try lia.
    + rewrite Z.add_mod, Hm, Htm by lia. done.
    + by replace (b + (s + t)) with (b + s + t) by lia.
Qed.

#[global] Arguments front : simpl never.

Lemma front_head b s l : ∃ u r, front b s l = (b, u) :: r.
Proof. unfold front. destruct l as [|[c u] l]; [by eauto|]. destruct (_ =? _); eauto. Qed.

(** Freeing next to what follows: [lo] bounds [b] and the rest of the list. *)
Lemma gaps_front_free top lo b s l :
  gaps top lo l → lo < b → b mod ALIGN = 0 → 0 < s → s mod ALIGN = 0 → b + s < top →
  (∀ c t l', l = (c, t) :: l' → b + s <= c) → gaps top lo (front b s l).
Proof.
  intros G Hlo Hb Hs Hm Ht Hd. apply gaps_front; try done.
  destruct l as [|[c u] l]; [by left|]. specialize (Hd c u l eq_refl).
  destruct (Z.eq_dec c (b + s)) as [->|].
  - right. by exists (b + s), u, l.
  - left. destruct G as (_ & G). split; [lia|done].
Qed.

Lemma insert_between top lo a t b s l :
  gaps top lo ((a, t) :: l) → a + t = b → 0 < s → s mod ALIGN = 0 → b mod ALIGN = 0 → b + s < top →
  (∀ x, b <= x < b + s → cnt l x = 0) →
  gaps top lo (front a t (front b s l)) ∧
  ∀ x, cnt (front a t (front b s l)) x = hit x (b, s) + cnt ((a, t) :: l) x.
Proof.
  intros (G1 & G2 & G3 & G4 & G5 & G6) E Hs Hm Hb Ht Hd.
  assert (gaps top (b - 1) (front b s l)) as Gf.
  { apply gaps_front_free; try done; [|lia|].
    - eapply gaps_weaken; [|exact G6]. lia.
    - intros c u l' ->. destruct (apart _ _ _ _ _ b s G6 Hs Hd) as [_ A].
      apply A. destruct G6. lia. }
  destruct (front_head b s l) as (u & r & Ef). split.
  - apply gaps_front; try done. right. exists b, u, r. rewrite Ef in *.
    split_and!; [done..|]. eapply gaps_weaken; [|exact Gf]. lia.
  - intros x. rewrite (cnt_front _ _ _ _ _ _ Gf), (cnt_front _ _ _ _ _ _ G6), cnt_cons by lia.
    lia.
Qed.

Lemma insert_hole_ok top lo b s l :
  gaps top lo l → lo < b → b mod ALIGN = 0 → 0 < s → s mod ALIGN = 0 → b + s < top →
  (∀ x, b <= x < b + s → cnt l x = 0) →
  gaps top lo (insert_hole b s l) ∧ bytes_in (insert_hole b s l) = s + bytes_in l ∧
  ∀ x, cnt (insert_hole b s l) x = hit x (b, s) + cnt l x.
Proof.
  revert lo. induction l as [|[a t] l IH]; intros lo G Hlo Hb Hs Hm Ht Hd.
  { simpl. by split_and!. }
  destruct (apart _ _ _ _ _ _ _ G Hs Hd) as [A1 A2].
  pose proof G as (G1 & G2 & G3 & G4 & G5 & G6). simpl insert_hole.
  destruct (Z.ltb_spec a b) as [Hab|Hab].
  - assert (∀ x, b <= x < b + s → cnt l x = 0) as Hd' by (intros; by eapply cnt_tail_0, Hd).
    destruct (Z.eqb_spec (a + t) b) as [E|E].
    + destruct (insert_between _ _ _ _ _ _ _ G E Hs Hm Hb Ht Hd') as [I1 I2].
      split_and!; [done| |done].
      rewrite !bytes_front. unfold bytes_in. rewrite zsum_cons. simpl. lia.
    + destruct (IH (a + t)) as (I1 & I2 & I3); try done; [specialize (A1 Hab); lia|].
      split_and!.
      * simpl. by split_and!.
      * unfold bytes_in in *. rewrite !zsum_cons, I2. lia.
      * intros x. rewrite !cnt_cons, I3. lia.
  - specialize (A2 Hab). split_and!.
    + apply gaps_front_free; try done. intros c u l' [= <- <- <-]. done.
    + apply bytes_front.
    + intros x. by rewrite (cnt_front _ _ _ _ _ _ G).
Qed.

Lemma take_hole_ok top lo n l : gaps top lo l → 0 < n → n mod ALIGN = 0 →
  match take_hole n l with
  | None => ∀ a t, (a, t) ∈ l → t < n
  | Some (b, l') =>
      lo < b ∧ b mod ALIGN = 0 ∧ b + n < top ∧ gaps top lo l' ∧
      bytes_in l = n + bytes_in l' ∧ ∀ x, cnt l x = hit x (b, n) + cnt l' x
  end.
Proof.
  unfold ALIGN. revert lo. induction l as [|[a t] l IH]; intros lo G Hn Hm.
  { simpl. intros a t H. by apply elem_of_nil in H. }
  pose proof G as (G1 & G2 & G3 & G4 & G5 & G6). unfold ALIGN in *. simpl take_hole.
  destruct (Z.leb_spec n t) as [Hle|Hgt].
  - split_and!; [done|done|lia|..]; destruct (Z.ltb_spec n t).
    + simpl. unfold ALIGN. split_and!; try lia.
      * by rewrite Z.add_mod, G2, Hm by lia.
      * by rewrite Zminus_mod, G4, Hm by lia.
      * by replace (a + n + (t - n)) with (a + t) by lia.
    + eapply gaps_weaken; [|exact G6]. lia.
    + unfold bytes_in. rewrite !zsum_cons. simpl. lia.
    + unfold bytes_in. rewrite zsum_cons. simpl. lia.
    + intros x. rewrite !cnt_cons. replace t with (n + (t - n)) at 1 by lia.
      rewrite hit_join by lia. lia.
    + intros x. rewrite cnt_cons. by replace t with n by lia.
  - specialize (IH (a + t) G6 Hn Hm). destruct (take_hole n l) as [[b r]|].
    + destruct IH as (I1 & I2 & I3 & I4 & I5 & I6). split_and!; [lia|done|done|..].
      * simpl. unfold ALIGN. by split_and!.
      * unfold bytes_in in *. rewrite !zsum_cons, I5. lia.
      * intros x. rewrite !cnt_cons, I6. lia.
    + intros a' t' [[= -> ->]|Hin]%elem_of_cons; [lia|by eapply IH].
Qed.

(** * The bytes and the list they encode *)

Lemma gaps_size top lo l a t : gaps top lo l → (a, t) ∈ l → ALIGN <= t ∧ lo < a ∧ a + t < top.
Proof.
  unfold ALIGN. revert lo. induction l as [|[a' t'] l IH]; intros lo G Hin.
  { by apply elem_of_nil in Hin. }
  destruct G as (? & _ & ? & Hm & ? & G). unfold ALIGN in Hm.
  apply elem_of_cons in Hin as [[= -> ->]|Hin].
  - split; [|done]. apply Z.mod_divide in Hm as [k ->]; lia.
  - destruct (IH _ G Hin) as (? & ? & ?). split_and!; lia.
Qed.

Lemma gaps_length top lo l : gaps top lo l → ALIGN * Z.of_nat (length l) <= bytes_in l.
Proof.
  revert lo. induction l as [|[a t] l IH]; intros lo G; [done|].
  destruct (gaps_size _ _ _ a t G ltac:(left)) as (Ht & _).
  destruct G as (_ & _ & _ & _ & _ & G). specialize (IH _ G).
  unfold bytes_in in *. rewrite zsum_cons, length_cons. simpl snd. lia.
Qed.

Section chains.
Context (ws : Z) (Hws : wide ws).

Fixpoint chain (m : Z → Z) (h : Z) (l : list hole) : Prop :=
  match l with
  | [] => h = 0
  | (a, s) :: l => h = a ∧ load ws m a = s ∧ chain m (load ws m (a + ws)) l
  end.

(** Two views of memory that agree on the holes encode the same list. *)
Lemma chain_ext top lo m m' h l : gaps top lo l → (∀ x, 0 < cnt l x → m' x = m x) →
  chain m h l → chain m' h l.
Proof.
  revert lo h. induction l as [|[a s] l IH]; intros lo h G H; [done|].
  intros (-> & E & C). destruct (gaps_size _ _ _ a s G ltac:(left)) as (Hs & _).
  assert (∀ x, a <= x < a + s → m' x = m x) as H1.
  { intros x Hx. apply H. eapply cnt_elem; [left|done]. }
  unfold ALIGN in Hs. split_and!; [done| |].
  - rewrite <-E. apply load_ext; [done|]. intros. apply H1. destruct Hws; lia.
  - rewrite (load_ext ws Hws m' m) by (intros; apply H1; destruct Hws; lia).
    destruct G as (_ & _ & _ & _ & _ & G). eapply IH; [exact G| |done].
    intros x Hx. apply H. rewrite cnt_cons. pose proof (hit_range x (a, s)). lia.
Qed.

Definition head_addr (l : list hole) : Z := match l with (c, _) :: _ => c | [] => 0 end.

Lemma chain_head m h l : chain m h l → h = head_addr l.
Proof. destruct l as [|[a s] l]; [done|]. by intros (-> & _). Qed.

(** The walk of freelist_insert stops at the first block not below [b]. *)
Lemma insert_find_spec top b σ l :
  ∀ lo k prev h, gaps top lo l → 0 <= lo → chain (m_mem σ) h l → (length l < k)%nat →
  ∃ l1 l2, l = l1 ++ l2 ∧ (∀ a t, (a, t) ∈ l1 → a < b) ∧
    (∀ c t r, l2 = (c, t) :: r → b <= c) ∧
    insert_find ws k b prev h σ = Ok ((default prev (fst <$> last l1), head_addr l2), σ).
Proof.
  induction l as [|[a t] l IH]; intros lo k prev h G Hlo C Hk; destruct k as [|k]; simpl in Hk; try lia.
  { exists [], []. simpl in C. subst h. split_and!; try done. intros a t H. by apply elem_of_nil in H. }
  destruct C as (-> & E & C). pose proof G as (G1 & _ & G3 & _ & _ & G6).
  cbn [insert_find]. rewrite (proj2 (Z.eqb_neq a 0)) by lia. simpl negb.
  destruct (Z.ltb_spec a b) as [Hab|Hab].
  - destruct (IH (a + t) k a (load ws (m_mem σ) (a + ws)) G6 ltac:(lia) C ltac:(lia))
      as (l1 & l2 & -> & H1 & H2 & E').
    exists ((a, t) :: l1), l2. split_and!; [done| |done|].
    + intros a' t' [[= -> ->]|Hin]%elem_of_cons; [done|by eapply H1].
    + simpl. unfold next_of, ld, st_bind. rewrite E'. by destruct l1 as [|? ? _] using rev_ind;
        [|rewrite ?last_snoc, app_comm_cons, last_snoc].
  - exists [], ((a, t) :: l). split_and!; try done.
    + intros a' t' H. by apply elem_of_nil in H.
    + by intros c u r [= <- <- <-].
Qed.
End chains.

Section inserting.
Context (ws : Z) (Hws : wide ws).
Abbreviation top := (2 ^ (8 * ws)).

Lemma sz_small z : 0 <= z < top → sz ws z = z.
Proof. apply wrap_small. Qed.

Lemma top_big : 4294967296 <= top.
Proof. by destruct Hws as [->| ->]. Qed.

(** Bytes outside a header keep their value when it is written. *)
Definition same_but (P : Z → Prop) (m m' : Z → Z) : Prop := ∀ x, ¬ P x → m' x = m x.

Lemma store_hdr m b v v' :
  0 <= v < top → 0 <= v' < top →
  let m' := store ws (store ws m b v) (b + ws) v' in
  load ws m' b = v ∧ load ws m' (b + ws) = v' ∧ same_but (λ x, b <= x < b + hdr ws) m m'.
Proof.
  unfold hdr. intros Hv Hv'. simpl. split_and!.
  - rewrite load_store_ne by (done || lia). by apply load_store.
  - by apply load_store.
  - intros x Hx. rewrite !store_out; [done|lia|destruct Hws; lia].
Qed.

Lemma store_next m b v : 0 <= v < top →
  let m' := store ws m (b + ws) v in
  load ws m' b = load ws m b ∧ load ws m' (b + ws) = v ∧ same_but (λ x, b <= x < b + hdr ws) m m'.
Proof.
  unfold hdr. intros Hv. simpl. split_and!.
  - apply load_store_ne; [done|lia].
  - by apply load_store.
  - intros x Hx. apply store_out. destruct Hws; lia.
Qed.

Lemma chain_next m h a t l lo : 0 <= lo → gaps top lo ((a, t) :: l) → chain ws m h ((a, t) :: l) →
  0 <= load ws m (a + ws) < top.
Proof.
  pose proof top_big. intros Hlo (? & _ & ? & _ & _ & G) (_ & _ & C).
  destruct l as [|[c u] l]; simpl in C; [lia|].
  destruct C as (-> & _). destruct G as (? & _ & ? & _ & ? & _). lia.
Qed.

Lemma link_next_spec σ b s l lo :
  chain ws (m_mem σ) (head_addr l) l → gaps top lo l → 0 <= lo → load ws (m_mem σ) b = s →
  ALIGN <= s → 0 < b → b + s < top → (∀ x, b <= x < b + s → cnt l x = 0) →
  (∀ c t r, l = (c, t) :: r → b <= c) →
  ∃ m, link_next ws b (head_addr l) σ = Ok (tt, mkPmm m (freelist σ) (arena_bytes σ)) ∧
    chain ws m b (front b s l) ∧ same_but (λ x, b <= x < b + hdr ws) (m_mem σ) m.
Proof.
  unfold ALIGN. intros C G Hlo E Hs Hb Ht Hd Hc. pose proof top_big. unfold link_next, size_of, next_of, ld, st_bind.
  assert (∀ m', same_but (λ x, b <= x < b + hdr ws) (m_mem σ) m' → ∀ x, 0 < cnt l x → m' x = m_mem σ x) as Hsame.
  { intros m' Hm x Hx. apply Hm. intros Hin. unfold hdr in Hin.
    specialize (Hd x ltac:(destruct Hws; lia)). lia. }
  rewrite E. destruct l as [|[c t] l].
  - simpl. eexists. split; [done|].
    destruct (store_next (m_mem σ) b 0 ltac:(lia)) as (L1 & L2 & L3).
    split; [|exact L3]. simpl. split_and!; [done|by rewrite L1|exact L2].
  - pose proof G as (? & _ & ? & _ & ? & G'). specialize (Hc c t l eq_refl).
    pose proof (chain_next _ _ _ _ _ _ Hlo G C) as Hnx.
    pose proof C as (_ & Ec & C'). cbn [head_addr].
    rewrite (proj2 (Z.eqb_neq c 0)), sz_small by lia. simpl negb. unfold front.
    destruct (Z.eqb_spec (b + s) c) as [Ebc|Ebc]; cbn [andb negb]; cbv beta iota.
    + rewrite Ec, sz_small by lia. unfold set_size, set_next, sto, st_modify. simpl m_mem.
      rewrite load_store_ne by (done || (destruct Hws; lia)).
      eexists. split; [done|].
      destruct (store_hdr (m_mem σ) b (s + t) (load ws (m_mem σ) (c + ws)) ltac:(lia) Hnx) as (L1 & L2 & L3).
      split; [|exact L3]. cbn [chain]. split_and!; [done|exact L1|]. rewrite L2.
      eapply chain_ext; [done|exact G'| |exact C'].
      intros x Hx. apply Hsame; [exact L3|]. rewrite cnt_cons. pose proof (hit_range x (c, t)). lia.
    + eexists. split; [done|].
      destruct (store_next (m_mem σ) b c ltac:(lia)) as (L1 & L2 & L3).
      split; [|exact L3]. split; [done|]. split; [by rewrite L1|]. simpl m_mem. rewrite L2.
      apply (chain_ext ws Hws top lo (m_mem σ)); [exact G| |exact C]. intros x Hx. by apply Hsame.
Qed.

Lemma gaps_snoc lo l a t r : gaps top lo (l ++ (a, t) :: r) →
  gaps top (a + t) r ∧ lo < a ∧ a mod ALIGN = 0 ∧ ALIGN <= t ∧ a + t < top.
Proof.
  revert lo. induction l as [|[c u] l IH]; intros lo G.
  - destruct (gaps_size _ _ _ a t G ltac:(left)) as (? & _). simpl in *. naive_solver.
  - destruct G as (G1 & G2 & G3 & G4 & G5 & G6). destruct (IH _ G6) as (I2 & I3 & I).
    split_and!; try naive_solver; lia.
Qed.

(** A list ending at [prev] with its last link redirected. *)
Lemma chain_relink m m' h l a t t' r0 r lo :
  gaps top lo (l ++ (a, t) :: r0) → chain ws m h (l ++ (a, t) :: r0) →
  (∀ x, 0 < cnt l x → m' x = m x) → load ws m' a = t' → chain ws m' (load ws m' (a + ws)) r →
  chain ws m' h (l ++ (a, t') :: r).
Proof.
  revert h lo. induction l as [|[c u] l IH]; intros h lo G C Hs E Hr.
  - destruct C as (-> & _). by split_and!.
  - destruct C as (-> & Ec & C). destruct (gaps_size _ _ _ c u G ltac:(left)) as (Hu & _).
    unfold ALIGN in Hu. destruct G as (_ & _ & _ & _ & _ & G).
    assert (∀ x, c <= x < c + u → m' x = m x) as H1.
    { intros x Hx. apply Hs. eapply cnt_elem; [left|done]. }
    split; [done|]. split.
    + rewrite <-Ec. apply load_ext; [done|]. intros. apply H1. destruct Hws; lia.
    + fold (app l ((a, t') :: r)). eapply IH; [exact G| | |done|done].
      * rewrite (load_ext ws Hws m' m) by (intros; apply H1; destruct Hws; lia). done.
      * intros x Hx. apply Hs. rewrite cnt_cons. pose proof (hit_range x (c, u)). lia.
Qed.

Lemma insert_hole_app b s l a t r lo :
  gaps top lo (l ++ (a, t) :: r) → a < b → (∀ c u, (c, u) ∈ l → c < b) →
  (∀ c u r', r = (c, u) :: r' → b <= c) →
  insert_hole b s (l ++ (a, t) :: r) =
  l ++ (if a + t =? b then front a t (front b s r) else (a, t) :: front b s r).
Proof.
  revert lo. induction l as [|[c u] l IH]; intros lo G Hab Hl Hr.
  - simpl. rewrite (proj2 (Z.ltb_lt a b)) by done. destruct (a + t =? b); [done|].
    f_equal. destruct r as [|[c u] r]; [done|]. simpl.
    specialize (Hr c u r eq_refl). by rewrite (proj2 (Z.ltb_ge c b)).
  - simpl. rewrite (proj2 (Z.ltb_lt c b)) by (eapply Hl; left).
    destruct G as (_ & _ & _ & _ & _ & G).
    destruct (gaps_snoc _ _ _ _ _ G) as (_ & ? & _).
    rewrite (proj2 (Z.eqb_neq _ _)) by lia. f_equal. eapply IH; [done|done| |done].
    intros c' u' Hin. eapply Hl. by right.
Qed.

Lemma last_split (l : list hole) : l = [] ∨ ∃ l' a t, l = l' ++ [(a, t)].
Proof. destruct l as [|[a t] l _] using rev_ind; [by left|]. right. by exists l, a, t. Qed.

(** Bytes of a block before [b] are not bytes of [(b, s)], nor of what follows it. *)
Lemma cnt_before lo l a t r x : gaps top lo (l ++ (a, t) :: r) → 0 < cnt l x → x < a.
Proof.
  revert lo. induction l as [|[c u] l IH]; intros lo G Hx; [unfold cnt, zsum in Hx; simpl in Hx; lia|].
  destruct G as (_ & _ & ? & _ & _ & G). destruct (gaps_snoc _ _ _ _ _ G) as (_ & ? & _).
  rewrite cnt_cons in Hx. destruct (decide (c <= x < c + u)) as [Hin|Hout]; [lia|].
  rewrite hit_0 in Hx by done. eapply IH; [done|lia].
Qed.

Lemma chain_mid m h l a t r : chain ws m h (l ++ (a, t) :: r) → load ws m a = t.
Proof.
  revert h. induction l as [|[c v] l IH]; intros h C; [by destruct C as (_ & E & _)|].
  destruct C as (_ & _ & C). by eapply IH.
Qed.

Lemma link_prev_spec σ m b s l a t r :
  chain ws (m_mem σ) (freelist σ) (l ++ (a, t) :: r) → gaps top 0 (l ++ (a, t) :: r) →
  same_but (λ x, b <= x < b + hdr ws) (m_mem σ) m → chain ws m b (front b s r) →
  a + t <= b → gaps top (a + t - 1) (front b s r) →
  ∃ m', link_prev ws a b (mkPmm m (freelist σ) (arena_bytes σ))
        = Ok (tt, mkPmm m' (freelist σ) (arena_bytes σ)) ∧
    chain ws m' (freelist σ) (l ++ (if a + t =? b then front a t (front b s r) else (a, t) :: front b s r)) ∧
    same_but (λ x, a <= x < a + hdr ws) m m'.
Proof.
  intros C G Sm Cb Hab Gf. pose proof top_big.
  destruct (gaps_snoc _ _ _ _ _ G) as (_ & Ha & _ & Hat & Htop).
  assert (hdr ws <= 16) as Hh by (unfold hdr; destruct Hws; lia). unfold ALIGN in Hat.
  destruct (front_head b s r) as (u & r' & Ef). rewrite Ef in *.
  pose proof (chain_next m b b u r' (a + t - 1) ltac:(lia) Gf Cb) as Hnx.
  pose proof Gf as (_ & _ & Hu & _ & Hbu & Gr).
  assert (load ws m a = t) as Et.
  { rewrite (load_ext ws Hws m (m_mem σ)) by (intros; apply Sm; destruct Hws; lia). by eapply chain_mid. }
  assert (∀ m', same_but (λ x, a <= x < a + hdr ws) m m' → ∀ x, 0 < cnt l x → m' x = m_mem σ x) as Hl.
  { intros m' Sm' x Hx. pose proof (cnt_before _ _ _ _ _ _ G Hx).
    rewrite Sm' by lia. apply Sm. lia. }
  assert (∀ m' lo h l', same_but (λ x, a <= x < a + hdr ws) m m' → a + t - 1 <= lo →
            gaps top lo l' → chain ws m h l' → chain ws m' h l') as Hc.
  { intros m' lo h l' Sm' Hlo G' C'. eapply chain_ext; [done|exact G'| |exact C'].
    intros x Hx. apply Sm'. intros ?. rewrite (cnt_below _ _ _ _ G') in Hx by lia. lia. }
  unfold link_prev. rewrite (proj2 (Z.eqb_neq a 0)) by lia.
  unfold size_of, next_of, ld, st_bind. cbn [m_mem]. rewrite Et, sz_small by lia.
  destruct (Z.eqb_spec (a + t) b) as [E|E].
  - destruct Cb as (_ & Eu & Cr). unfold set_size, set_next, sto, st_modify. cbn [m_mem freelist arena_bytes].
    rewrite Eu, sz_small by lia. rewrite load_store_ne by (done || (destruct Hws; lia)).
    eexists. split; [done|].
    destruct (store_hdr m a (t + u) (load ws m (b + ws)) ltac:(lia) Hnx) as (L1 & L2 & L3).
    split; [|exact L3]. unfold front. rewrite (proj2 (Z.eqb_eq _ _) E).
    eapply chain_relink; [exact G|exact C|by apply Hl|exact L1|]. rewrite L2.
    eapply (Hc _ (b + u)); [exact L3|lia|exact Gr|exact Cr].
  - eexists. split; [done|]. destruct (store_next m a b ltac:(lia)) as (L1 & L2 & L3).
    split; [|exact L3]. cbn [m_mem].
    eapply chain_relink; [exact G|exact C|by apply Hl|by rewrite L1|]. rewrite L2.
    eapply Hc; [exact L3| |exact Gf|exact Cb]. lia.
Qed.

(** ** freelist_insert *)

Lemma chain_drop m h l a t r : chain ws m h (l ++ (a, t) :: r) → chain ws m (head_addr r) r.
Proof.
  revert h. induction l as [|[c u] l IH]; intros h (_ & _ & C); [|by eapply IH].
  by pose proof (chain_head _ _ _ _ C) as <-.
Qed.

Record encodes (σ : pmm) (l : list hole) : Prop := mkEncodes {
  enc_chain : chain ws (m_mem σ) (freelist σ) l;
  enc_gaps : gaps top 0 l;
  enc_bytes : bytes_in l <= arena_bytes σ
}.

Lemma encodes_fuel σ l : encodes σ l → (length l < fuel σ)%nat.
Proof.
  intros [_ G B]. pose proof (gaps_length _ _ _ G) as H. unfold fuel, ALIGN in *.
  assert (Z.of_nat (length l) <= arena_bytes σ / 16); [apply Z.div_le_lower_bound|]; lia.
Qed.

(** The link stored in a block put on the list is null or the address of a block, so
    never the mark of one in use. *)
Lemma front_next lo m b s l : gaps top lo l → chain ws m b (front b s l) →
  load ws m (b + ws) mod ALIGN = 0.
Proof.
  intros G. unfold front. destruct l as [|[c t] l].
  - by intros (_ & _ & ->).
  - destruct G as (_ & Hc & _ & _ & _ & G).
    destruct (b + s =? c); intros (_ & _ & C); [|by destruct C as (-> & _)].
    destruct l as [|[d u] l]; [by simpl in C; rewrite C|].
    destruct C as (-> & _). by destruct G as (_ & ? & _).
Qed.

Lemma freelist_insert_spec σ b s l :
  encodes σ l → load ws (m_mem σ) b = s → 0 < b → b mod ALIGN = 0 → 0 < s → s mod ALIGN = 0 →
  b + s < top → (∀ x, b <= x < b + s → cnt l x = 0) →
  ∃ σ', freelist_insert ws b σ = Ok (tt, σ') ∧ arena_bytes σ' = arena_bytes σ ∧
    chain ws (m_mem σ') (freelist σ') (insert_hole b s l) ∧
    same_but (λ x, b <= x < b + s ∨ 0 < cnt l x) (m_mem σ) (m_mem σ') ∧
    load ws (m_mem σ') (b + ws) mod ALIGN = 0.
Proof.
  intros En E Hb Hba Hs Hsa Ht Hd. pose proof (encodes_fuel _ _ En) as Hf. destruct En as [C G B].
  assert (ALIGN <= s) as Hs16.
  { unfold ALIGN in *. apply Z.mod_divide in Hsa as [k ->]; lia. }
  assert (hdr ws <= ALIGN) as Hh by (unfold hdr, ALIGN; destruct Hws; lia).
  destruct (insert_find_spec ws top b σ l 0 (fuel σ) 0 (freelist σ) G ltac:(lia) C Hf)
    as (l1 & l2 & Hl & H1 & H2 & Ef).
  unfold freelist_insert, st_get, st_bind. rewrite Ef.
  destruct (last_split l1) as [->|(l' & a & t & ->)].
  - simpl in Hl. subst l. pose proof (chain_head _ _ _ _ C) as Eh.
    destruct (link_next_spec σ b s l2 0) as (m & El & Cm & Sm); try done; [by rewrite <-Eh|].
    rewrite El. eexists. split; [done|]. split; [done|]. split; [|split].
    + simpl. destruct l2 as [|[c u] l2]; [done|]. simpl.
      specialize (H2 c u l2 eq_refl). by rewrite (proj2 (Z.ltb_ge c b)).
    + intros x Hx. apply Sm. lia.
    + by eapply front_next.
  - rewrite <-app_assoc in Hl. simpl in Hl. subst l. rewrite last_snoc. simpl.
    destruct (gaps_snoc _ _ _ _ _ G) as (G2 & Ha & Ha16 & Hat & Htop).
    assert (a + t <= b) as Hab.
    { specialize (H1 a t ltac:(set_solver)). destruct (Z.le_gt_cases (a + t) b); [done|].
      specialize (Hd b ltac:(lia)).
      pose proof (cnt_elem a t (l' ++ (a, t) :: l2) b ltac:(set_solver) ltac:(lia)). lia. }
    assert (∀ x, b <= x < b + s → cnt l2 x = 0) as Hd2.
    { intros x Hx. specialize (Hd x Hx). rewrite cnt_app in Hd.
      pose proof (cnt_nonneg l' x). apply (cnt_tail_0 (a, t)). pose proof (cnt_nonneg ((a, t) :: l2) x). lia. }
    pose proof (chain_drop _ _ _ _ _ _ C) as C2.
    destruct (link_next_spec σ b s l2 (a + t)) as (m & El & Cm & Sm); try done; [unfold ALIGN in *; lia|].
    rewrite El.
    destruct (link_prev_spec σ m b s l' a t l2) as (m' & Ep & Cm' & Sm'); try done.
    { apply gaps_front_free; try done; [eapply gaps_weaken; [|exact G2]; lia|lia|].
      intros c u r ->. destruct (apart _ _ _ _ _ b s G2 Hs Hd2) as [_ A]. eauto. }
    rewrite Ep. eexists. split; [done|]. split; [done|]. split; [|split].
    + simpl. rewrite (insert_hole_app _ _ _ _ _ _ _ G); try done; [unfold ALIGN in *; lia|].
      intros c u Hin. apply (H1 c u). set_solver.
    + intros x Hx. simpl. rewrite Sm'; [apply Sm; lia|]. intros ?. apply Hx. right.
      apply (cnt_elem a t); [set_solver|lia].
    + simpl. rewrite (load_ext ws Hws m' m); [by eapply front_next|].
      intros x Hx. apply Sm'. unfold ALIGN, wide in *. lia.
Qed.

(** ** pmm_alloc *)

Definition link (σ : pmm) (pp : Z) : Z :=
  if pp =? 0 then freelist σ else load ws (m_mem σ) (pp + ws).

Lemma get_link_eq pp σ : get_link ws pp σ = Ok (link σ pp, σ).
Proof. unfold get_link, link. by destruct (pp =? 0). Qed.

(** [pp] is the list head, or the block before what starts after [lo]. *)
Definition link_at (pp lo : Z) : Prop := pp = 0 ∨ 0 < pp ∧ pp + ALIGN <= lo.

Lemma set_link_spec σ pp v : 0 <= v < top →
  ∃ σ', set_link ws pp v σ = Ok (tt, σ') ∧ arena_bytes σ' = arena_bytes σ ∧ link σ' pp = v ∧
    (pp ≠ 0 → freelist σ' = freelist σ) ∧
    same_but (λ x, pp ≠ 0 ∧ pp + ws <= x < pp + hdr ws) (m_mem σ) (m_mem σ').
Proof.
  intros Hv. unfold set_link, link. destruct (Z.eqb_spec pp 0) as [->|Hpp].
  - eexists. split_and!; try done.
  - eexists. split; [done|]. split; [done|]. split; [by apply load_store|]. split; [done|].
    intros x Hx. simpl. apply store_out. unfold hdr in Hx. lia.
Qed.

(** At the first hole large enough the walk ends: the block is its front. *)
Lemma alloc_scan_hit σ k pp n a t l lo :
  0 < n → n mod ALIGN = 0 → gaps top lo ((a, t) :: l) → 0 <= lo →
  chain ws (m_mem σ) (link σ pp) ((a, t) :: l) → n <= t →
  (n < t → ALIGN <= n ∧ n + hdr ws <= t) ∧
  alloc_scan ws (S k) n pp σ =
  ((if n <? t
    then set_size ws (a + n) (t - n) ;;; set_next ws (a + n) (load ws (m_mem σ) (a + ws)) ;;;
         set_link ws pp (a + n)
    else set_link ws pp (load ws (m_mem σ) (a + ws))) ;;; st_ret a) σ.
Proof.
  intros Hn Hna G Hlo C Hnt. pose proof (chain_head _ _ _ _ C) as Eh. simpl in Eh.
  destruct C as (_ & Et & C). pose proof G as (Ha & Haa & _ & Hta & Hat & _). pose proof top_big.
  assert (n < t → ALIGN <= n ∧ n + hdr ws <= t) as Hcut.
  { unfold ALIGN, hdr in *. apply Z.mod_divide in Hna as [u ->]; [|done].
    apply Z.mod_divide in Hta as [v ->]; [|done]. destruct Hws; lia. }
  assert (0 <= hdr ws <= ALIGN) as Hh by (unfold hdr, ALIGN; destruct Hws; lia).
  assert (n + hdr ws < top) as Hsum.
  { unfold ALIGN in *. apply Z.mod_divide in Haa as [u ->]; [|done]. lia. }
  split; [done|]. cbn [alloc_scan]. unfold st_bind at 1. rewrite get_link_eq, Eh. cbv beta iota.
  rewrite (proj2 (Z.eqb_neq a 0)) by lia. unfold size_of, next_of, ld, st_bind.
  rewrite Et, (proj2 (Z.leb_le n t) Hnt), sz_small by lia.
  destruct (Z.ltb_spec n t) as [Hlt|Hge].
  - destruct (Hcut Hlt) as [Hn16 Hle]. rewrite (proj2 (Z.leb_le _ _) Hle), !sz_small by lia.
    unfold set_size, set_next, sto, st_modify. cbn [m_mem freelist arena_bytes].
    by rewrite load_store_ne by (done || (unfold ALIGN in *; destruct Hws; lia)).
  - rewrite (proj2 (Z.leb_gt _ _)); [done|]. unfold hdr. destruct Hws; lia.
Qed.

(** What a step of pmm_alloc leaves behind: the list [l'] from [pp], written nowhere
    but in the holes of [l'] and in the link itself. *)
Definition relinked (pp : Z) (l' : list hole) (σ σ' : pmm) : Prop :=
  arena_bytes σ' = arena_bytes σ ∧ chain ws (m_mem σ') (link σ' pp) l' ∧
  (pp ≠ 0 → freelist σ' = freelist σ) ∧
  same_but (λ x, 0 < cnt l' x ∨ pp ≠ 0 ∧ pp + ws <= x < pp + hdr ws) (m_mem σ) (m_mem σ').

Lemma above_link pp lo σ σ' x : link_at pp lo → lo <= x →
  same_but (λ x, pp ≠ 0 ∧ pp + ws <= x < pp + hdr ws) (m_mem σ) (m_mem σ') → m_mem σ' x = m_mem σ x.
Proof.
  intros Hpp Hx S. apply S. unfold link_at, ALIGN, hdr in *. intros [? ?].
  destruct Hpp as [->|[? ?]]; [done|]. destruct Hws; lia.
Qed.

Lemma alloc_exact σ k pp a t l lo :
  t mod ALIGN = 0 → gaps top lo ((a, t) :: l) → 0 <= lo → link_at pp lo →
  chain ws (m_mem σ) (link σ pp) ((a, t) :: l) →
  ∃ σ', alloc_scan ws (S k) t pp σ = Ok (a, σ') ∧ relinked pp l σ σ'.
Proof.
  intros Hta G Hlo Hpp C. pose proof (chain_next _ _ _ _ _ _ Hlo G C) as Hnx.
  pose proof G as (Ha & _ & Ht & _ & _ & G').
  destruct (alloc_scan_hit σ k pp t a t l lo) as [_ E]; try done. rewrite E, Z.ltb_irrefl.
  destruct (set_link_spec σ pp _ Hnx) as (σ2 & E2 & B2 & L2 & F2 & S2).
  unfold st_bind. rewrite E2. exists σ2. split; [done|]. split; [done|].
  split; [|split; [done|]; intros x Hx; apply S2; tauto].
  rewrite L2. destruct C as (_ & _ & C). eapply chain_ext; [done|exact G'| |exact C].
  intros x Hx. eapply above_link; [done| |done].
  destruct (Z.le_gt_cases lo x) as [|Hlt]; [done|].
  rewrite (cnt_below _ _ _ _ G') in Hx by lia. lia.
Qed.

Lemma alloc_split σ k pp n a t l lo :
  0 < n → n mod ALIGN = 0 → gaps top lo ((a, t) :: l) → 0 <= lo → link_at pp lo →
  chain ws (m_mem σ) (link σ pp) ((a, t) :: l) → n < t →
  ∃ σ', alloc_scan ws (S k) n pp σ = Ok (a, σ') ∧ relinked pp ((a + n, t - n) :: l) σ σ'.
Proof.
  intros Hn Hna G Hlo Hpp C Hnt. pose proof (chain_next _ _ _ _ _ _ Hlo G C) as Hnx.
  pose proof G as (Ha & _ & _ & _ & Hat & G').
  destruct (alloc_scan_hit σ k pp n a t l lo) as [Hcut E]; try done; [lia|].
  destruct (Hcut Hnt) as [Hn16 Hle]. rewrite E, (proj2 (Z.ltb_lt n t)) by done.
  unfold set_size, set_next, sto, st_modify, st_bind. cbn [m_mem freelist arena_bytes].
  set (σ1 := mkPmm _ _ _).
  destruct (store_hdr (m_mem σ) (a + n) (t - n) (load ws (m_mem σ) (a + ws)) ltac:(lia) Hnx)
    as (R1 & R2 & R3).
  destruct (set_link_spec σ1 pp (a + n) ltac:(lia)) as (σ2 & E2 & B2 & L2 & F2 & S2).
  rewrite E2. exists σ2. split; [done|]. split; [done|]. split; [|split; [done|]].
  - assert (∀ x, a < x → m_mem σ2 x = m_mem σ1 x) as Hs.
    { intros x Hx. eapply above_link; [done| |done]. lia. }
    rewrite L2. split; [done|]. unfold ALIGN in Hn16.
    split; [rewrite <-R1; apply load_ext; [done|]; intros; apply Hs; lia|].
    rewrite (load_ext ws Hws (m_mem σ2) (m_mem σ1)) by (intros; apply Hs; destruct Hws; lia).
    unfold σ1. cbn [m_mem]. rewrite R2. destruct C as (_ & _ & C).
    eapply chain_ext; [done|exact G'| |exact C].
    intros x Hx. destruct (Z.le_gt_cases x (a + t)) as [Hxt|Hgt].
    { rewrite (cnt_below _ _ _ _ G' Hxt) in Hx. lia. }
    rewrite Hs by lia. apply R3. lia.
  - intros x Hx. rewrite S2 by tauto. apply R3. intros ?. apply Hx. left.
    eapply cnt_elem; [left|]. lia.
Qed.

Lemma relinked_cons pp lo a t r σ σ' :
  0 <= lo → lo < a → ALIGN <= t → gaps top (a + t) r → link_at pp lo → link σ pp = a →
  load ws (m_mem σ) a = t → relinked a r σ σ' → relinked pp ((a, t) :: r) σ σ'.
Proof.
  intros Hlo Ha Ht G Hpp Eh Et (B & C & F & S). unfold link_at, ALIGN in *.
  assert (∀ x, x < a + ws → m_mem σ' x = m_mem σ x) as Hs.
  { intros x Hx. apply S. intros [Hc|[_ ?]]; [|lia].
    rewrite (cnt_below _ _ _ _ G) in Hc by (destruct Hws; lia). lia. }
  assert (link σ' a = load ws (m_mem σ') (a + ws)) as Ea.
  { unfold link. by rewrite (proj2 (Z.eqb_neq a 0)) by lia. }
  split; [done|]. split; [|split; [intros _; apply F; lia|]].
  - split; [|split; [|by rewrite <-Ea]].
    + rewrite <-Eh. unfold link. destruct (Z.eqb_spec pp 0); [apply F; lia|].
      apply load_ext; [done|]. intros x Hx. apply Hs. destruct Hpp, Hws; lia.
    + rewrite <-Et. apply load_ext; [done|]. intros x Hx. apply Hs. lia.
  - intros x Hx. apply S. intros [Hc|[_ Hc]]; apply Hx; left.
    + rewrite cnt_cons. pose proof (hit_range x (a, t)). lia.
    + eapply cnt_elem; [left|]. unfold hdr in Hc. destruct Hws; lia.
Qed.

Lemma alloc_scan_spec n l : 0 < n → n mod ALIGN = 0 →
  ∀ σ k pp lo, gaps top lo l → 0 <= lo → link_at pp lo → chain ws (m_mem σ) (link σ pp) l →
  (length l < k)%nat →
  match take_hole n l with
  | None => alloc_scan ws k n pp σ = Ok (0, σ)
  | Some (b, l') => ∃ σ', alloc_scan ws k n pp σ = Ok (b, σ') ∧ relinked pp l' σ σ'
  end.
Proof.
  intros Hn Hna. induction l as [|[a t] l IH]; intros σ k pp lo G Hlo Hpp C Hk;
    destruct k as [|k]; simpl in Hk; try lia.
  { simpl. unfold st_bind. rewrite get_link_eq. simpl in C. by rewrite C. }
  simpl take_hole. destruct (Z.leb_spec n t) as [Hle|Hgt].
  { destruct (Z.ltb_spec n t); [by eapply alloc_split|]. replace n with t in * by lia.
    by eapply alloc_exact. }
  pose proof G as (Ha & Haa & Ht & Hta & Hat & G'). pose proof C as (Eh & Et & C').
  destruct (gaps_size _ _ _ a t G ltac:(left)) as (Ht16 & _).
  assert (link_at a (a + t)) as Hla by (right; lia).
  assert (link σ a = load ws (m_mem σ) (a + ws)) as Ela.
  { unfold link. by rewrite (proj2 (Z.eqb_neq a 0)) by lia. }
  assert (alloc_scan ws (S k) n pp σ = alloc_scan ws k n a σ) as ->.
  { cbn [alloc_scan]. unfold st_bind at 1. rewrite get_link_eq, Eh. cbv beta iota.
    rewrite (proj2 (Z.eqb_neq a 0)) by lia. unfold size_of, ld, st_bind. rewrite Et.
    by rewrite (proj2 (Z.leb_gt n t)) by done. }
  rewrite <-Ela in C'. specialize (IH σ k a (a + t) G' ltac:(lia) Hla C' ltac:(lia)).
  pose proof (take_hole_ok top (a + t) n l G' Hn Hna) as Htake.
  destruct (take_hole n l) as [[b r]|]; [|done].
  destruct IH as (σ' & E & R). exists σ'. split; [done|].
  destruct Htake as (_ & _ & _ & Gr & _). by eapply relinked_cons.
Qed.

(** ** Sizes *)

Lemma ldiff_align z : Z.ldiff z (ALIGN - 1) = ALIGN * (z / ALIGN).
Proof.
  change (ALIGN - 1) with (Z.ones 4). rewrite Z.ldiff_ones_r, Z.shiftl_mul_pow2, Z.shiftr_div_pow2 by lia.
  change (2 ^ 4) with ALIGN. lia.
Qed.

Lemma align_up_spec n : 0 <= n → n + (ALIGN - 1) < top →
  n <= align_up ws n < n + ALIGN ∧ align_up ws n mod ALIGN = 0.
Proof.
  unfold ALIGN. intros H0 Hn. unfold align_up. rewrite ldiff_align, sz_small by (unfold ALIGN; lia).
  unfold ALIGN. split; [|by rewrite Z.mul_comm, Z.mod_mul].
  pose proof (Z.div_mod (n + (16 - 1)) 16 ltac:(lia)). pose proof (Z.mod_pos_bound (n + (16 - 1)) 16 ltac:(lia)).
  lia.
Qed.

Lemma rounded_spec n : 0 < n → n + (ALIGN - 1) < top →
  n <= rounded ws n < n + ALIGN ∧ rounded ws n mod ALIGN = 0.
Proof.
  intros H0 Hn. destruct (align_up_spec n ltac:(lia) Hn) as [H1 H2]. unfold rounded.
  rewrite (proj2 (Z.ltb_ge _ _)); [done|]. unfold hdr, ALIGN in *.
  apply Z.mod_divide in H2 as [k Ek]; [|done]. destruct Hws; lia.
Qed.

(** * What the operations do to the list *)

Lemma relinked_encodes l' σ σ' : relinked 0 l' σ σ' → gaps top 0 l' → bytes_in l' <= arena_bytes σ →
  encodes σ' l' ∧ arena_bytes σ' = arena_bytes σ ∧ same_but (λ x, 0 < cnt l' x) (m_mem σ) (m_mem σ').
Proof.
  intros (B & C & _ & S) G Hb. split_and!; [split; [exact C|done|lia]|done|].
  intros x Hx. apply S. tauto.
Qed.

Lemma bytes_in_nonneg lo l : gaps top lo l → 0 <= bytes_in l.
Proof. intros G. pose proof (gaps_length _ _ _ G). unfold ALIGN in *. lia. Qed.

Lemma pmm_alloc_spec σ l n : encodes σ l → 0 < n → n + (ALIGN - 1) < top →
  match take_hole (rounded ws n) l with
  | None => pmm_alloc ws n σ = Ok (0, σ)
  | Some (b, l') => ∃ σ', pmm_alloc ws n σ = Ok (b, σ') ∧ encodes σ' l' ∧
      arena_bytes σ' = arena_bytes σ ∧ same_but (λ x, 0 < cnt l' x) (m_mem σ) (m_mem σ')
  end.
Proof.
  intros En Hn Hnt. pose proof (encodes_fuel _ _ En) as Hf. destruct En as [C G B].
  destruct (rounded_spec n Hn Hnt) as [Hr Hra].
  pose proof (alloc_scan_spec (rounded ws n) l ltac:(lia) Hra σ (fuel σ) 0 0 G ltac:(lia)
                (or_introl eq_refl) C Hf) as HS.
  pose proof (take_hole_ok top 0 (rounded ws n) l G ltac:(lia) Hra) as HT.
  unfold pmm_alloc, st_bind, st_get. destruct (take_hole _ l) as [[b l']|]; [|done].
  destruct HS as (σ' & E & R). destruct HT as (_ & _ & _ & G' & HB & _).
  exists σ'. split; [done|]. apply relinked_encodes; [done|done|lia].
Qed.

Lemma pmm_free_spec σ l p n : encodes σ l → 0 < n → n + (ALIGN - 1) < top →
  0 < p → p mod ALIGN = 0 → p + rounded ws n < top →
  (∀ x, p <= x < p + rounded ws n → cnt l x = 0) →
  bytes_in l + rounded ws n <= arena_bytes σ →
  ∃ σ', pmm_free ws p n σ = Ok (tt, σ') ∧ encodes σ' (insert_hole p (rounded ws n) l) ∧
    arena_bytes σ' = arena_bytes σ ∧
    same_but (λ x, p <= x < p + rounded ws n ∨ 0 < cnt l x) (m_mem σ) (m_mem σ') ∧
    load ws (m_mem σ') (p + ws) mod ALIGN = 0.
Proof.
  intros [C G B] Hn Hnt Hp Hpa Hpt Hd Hb. destruct (rounded_spec n Hn Hnt) as [Hr Hra].
  unfold ALIGN in Hr. assert (ws <= rounded ws n) as Hw.
  { unfold ALIGN in Hra. apply Z.mod_divide in Hra as [k Ek]; [|done]. destruct Hws; lia. }
  set (σ1 := mkPmm (store ws (m_mem σ) p (rounded ws n)) (freelist σ) (arena_bytes σ)).
  assert (encodes σ1 l) as En1.
  { split; [|done|done]. eapply chain_ext; [done|exact G| |exact C]. intros x Hx. simpl.
    apply store_out. intros ?. rewrite Hd in Hx by lia. lia. }
  destruct (freelist_insert_spec σ1 p (rounded ws n) l) as (σ' & E & B' & C' & S' & N'); try done; try lia.
  { apply load_store; [done|]. lia. }
  destruct (insert_hole_ok top 0 p (rounded ws n) l) as (I1 & I2 & I3); try done; try lia.
  exists σ'. split; [exact E|]. split; [split; [done|done|rewrite B'; simpl; lia]|].
  split; [done|]. split; [|done]. intros x Hx. rewrite S' by done. simpl. apply store_out. lia.
Qed.

Lemma pmm_add_spec σ l base len : encodes σ l → 0 < base → 0 <= len → base + len + (ALIGN - 1) < top →
  let b := align_up ws base in
  let s := ALIGN * ((base + len) / ALIGN) - b in
  arena_bytes σ + s < top → (∀ x, b <= x < b + s → cnt l x = 0) → 0 <= arena_bytes σ →
  ∃ σ', pmm_add ws base len σ = Ok (tt, σ') ∧
    (s <= 0 ∧ σ' = σ ∨
     0 < s ∧ encodes σ' (insert_hole b s l) ∧ arena_bytes σ' = arena_bytes σ + s ∧
     same_but (λ x, b <= x < b + s ∨ 0 < cnt l x) (m_mem σ) (m_mem σ')).
Proof.
  intros [C G B] Hb Hl Ht b s Ha Hd Ha0.
  destruct (align_up_spec base ltac:(lia)) as [Hba Hbm]; [lia|]. fold b in Hba, Hbm.
  unfold ALIGN in *. assert (s mod 16 = 0) as Hsm.
  { unfold s. by rewrite Zminus_mod, Hbm, Z.mul_comm, Z.mod_mul by lia. }
  assert (b + s <= base + len) as Hbs.
  { unfold s. pose proof (Z.mul_div_le (base + len) 16 ltac:(lia)). lia. }
  unfold pmm_add. fold b. rewrite (sz_small (base + len)), ldiff_align by lia. unfold ALIGN.
  replace (16 * ((base + len) / 16)) with (b + s) by (unfold s; lia).
  replace (b + s - b) with s by lia.
  destruct (Z.leb_spec (b + s) b) as [Hle|Hgt]; [exists σ; split; [done|]; left; split; [lia|done]|].
  assert (16 <= s) as Hs16 by (apply Z.mod_divide in Hsm as [k ->]; lia).
  rewrite (proj2 (Z.ltb_ge s _)) by (unfold hdr; destruct Hws; lia).
  unfold st_bind at 1, set_size, sto, st_modify, st_bind. cbn [orb m_mem freelist arena_bytes].
  rewrite sz_small by lia. set (σ1 := mkPmm _ _ _).
  assert (encodes σ1 l) as En1.
  { split; [|done|simpl; lia]. eapply chain_ext; [done|exact G| |exact C]. intros x Hx. simpl.
    apply store_out. intros ?. rewrite Hd in Hx by (destruct Hws; lia). lia. }
  destruct (freelist_insert_spec σ1 b s l) as (σ' & E & B' & C' & S' & N'); try done; try lia.
  { apply load_store; [done|]. lia. }
  destruct (insert_hole_ok top 0 b s l) as (I1 & I2 & I3); try done; try lia.
  exists σ'. split; [exact E|]. right. split; [lia|].
  split; [split; [done|done|rewrite B'; simpl; lia]|]. split; [done|].
  intros x Hx. rewrite S' by done. simpl. apply store_out. destruct Hws; lia.
Qed.

(** Freeing what was just allocated restores the list. *)
Lemma take_hole_insert lo n l b l' : gaps top lo l → 0 < n → take_hole n l = Some (b, l') →
  insert_hole b n l' = l.
Proof.
  revert lo b l'. induction l as [|[a t] l IH]; intros lo b l' G Hn E; [done|].
  pose proof G as (? & _ & ? & _ & _ & G'). simpl in E. destruct (Z.leb_spec n t) as [Hle|Hgt].
  - injection E as <- <-. destruct (Z.ltb_spec n t).
    + simpl. rewrite (proj2 (Z.ltb_ge (a + n) a)) by lia. unfold front.
      rewrite Z.eqb_refl. do 2 f_equal. lia.
    + replace t with n by lia. destruct l as [|[c u] l]; [done|]. simpl.
      destruct G' as (? & _). rewrite (proj2 (Z.ltb_ge c a)) by lia. unfold front.
      by rewrite (proj2 (Z.eqb_neq _ _)) by lia.
  - destruct (take_hole n l) as [[b0 r]|] eqn:Et; [|done]. injection E as <- <-. simpl.
    assert (a + t < b0) as Hb.
    { clear -Et G' Hn. revert G' b0 r Et. generalize (a + t). induction l as [|[c u] l IH]; intros z G b0 r E; [done|].
      simpl in E. destruct G as (? & _ & ? & _ & _ & G). destruct (n <=? u); [by injection E as <- _; lia|].
      destruct (take_hole n l) as [[b1 r1]|] eqn:E1; [|done]. injection E as <- _.
      specialize (IH _ G _ _ eq_refl). lia. }
    rewrite (proj2 (Z.ltb_lt a b0)), (proj2 (Z.eqb_neq _ _)) by lia. f_equal. by eapply IH.
Qed.

Lemma meminfo_scan_spec σ l : ∀ k h a m lo, gaps top lo l → chain ws (m_mem σ) h l → (length l < k)%nat →
  0 <= lo → 0 <= a → a + bytes_in l < top →
  meminfo_scan ws k h a m σ = Ok ((a + bytes_in l, foldl (λ z b, Z.max z (snd b)) m l), σ).
Proof.
  induction l as [|[b t] l IH]; intros k h a m lo G C Hk Hlo Ha Ht; destruct k as [|k]; simpl in Hk; try lia.
  { simpl in C. subst h. simpl. unfold bytes_in, zsum. simpl. by rewrite Z.add_0_r. }
  pose proof (bytes_in_nonneg _ _ (proj2 (proj2 (proj2 (proj2 (proj2 G)))))) as Hb.
  destruct C as (-> & Et & C). pose proof G as (? & _ & ? & _ & _ & G').
  unfold bytes_in in *. rewrite zsum_cons in *. simpl snd in *.
  cbn [meminfo_scan]. rewrite (proj2 (Z.eqb_neq b 0)) by lia.
  unfold size_of, next_of, ld, st_bind. rewrite Et, sz_small by lia.
  erewrite IH; [|done|done|lia..]. simpl. do 2 f_equal. f_equal; [lia|].
  f_equal. destruct (Z.ltb_spec m t); lia.
Qed.

Lemma pmm_meminfo_spec σ l : encodes σ l → arena_bytes σ < top →
  pmm_meminfo ws σ =
  Ok ((arena_bytes σ, bytes_in l, foldl (λ z b, Z.max z (snd b)) 0 l), σ).
Proof.
  intros En Ht. pose proof (encodes_fuel _ _ En) as Hf. destruct En as [C G B].
  unfold pmm_meminfo, st_bind, st_get.
  by rewrite (meminfo_scan_spec σ l (fuel σ) (freelist σ) 0 0 0) by (done || lia).
Qed.
End inserting.
