(* ===== verification/Chunks.v ===== *)
(** The chunk source: what platform.h promises its clients of platform_chunk_alloc and
    platform_chunk_free (src/src/platform.h), as an interface.

    A source owns memory; a client holds blocks of it, each an address and the size it
    was asked for.  The laws are what a client may rely on: blocks handed out lie in the
    address space, are aligned and share no byte, and neither an allocation nor a free
    writes into a block the client keeps.  Malloc.v implements the interface, LuaHeap.v is
    proved against it. *)

From S2P Require Import Prelude Pmm.
From stdpp Require Import prelude list.
From Stdlib Require Import ZArith Lia.
Open Scope Z_scope.

(** [ws] is the width of a word in bytes. *)
Class ChunkOps (T : Type) : Type := {
  chunk_alloc : Z → ST T Z;
  chunk_free : Z → Z → ST T unit;
  (** The bytes of memory, and the memory after the client wrote to it. *)
  chunk_mem : T → Z → Z;
  chunk_write : (Z → Z) → T → T;
  (** The blocks held by clients. *)
  chunk_own : T → list hole → Prop
}.

(** Every byte of a held block is as it was. *)
Definition keeps `{ChunkOps T} (L : list hole) (s s' : T) : Prop :=
  ∀ x, 0 < cnt L x → chunk_mem s' x = chunk_mem s x.

Class ChunkLaws (ws : Z) (T : Type) `{ChunkOps T} : Prop := {
  chunk_alloc_ok s L n : chunk_own s L → 0 <= n → n + 64 < 2 ^ (8 * ws) →
    ∃ p s', chunk_alloc n s = Ok (p, s') ∧ keeps L s s' ∧
      (p = 0 ∧ chunk_own s' L ∨ 0 < p ∧ chunk_own s' ((p, n) :: L));
  chunk_free_ok s L L' p n : chunk_own s L → L ≡ₚ (p, n) :: L' →
    ∃ s', chunk_free p n s = Ok (tt, s') ∧ keeps L' s s' ∧ chunk_own s' L';
  chunk_own_perm s L L' : L ≡ₚ L' → chunk_own s L → chunk_own s L';
  chunk_own_apart s L x : chunk_own s L → cnt L x <= 1;
  chunk_own_range s L p n : chunk_own s L → (p, n) ∈ L → 0 < p ∧ p mod 8 = 0 ∧ 0 <= n ∧ p + n < 2 ^ (8 * ws);
  chunk_write_ok s L m : chunk_own s L → (∀ x, cnt L x = 0 → m x = chunk_mem s x) →
    chunk_own (chunk_write m s) L ∧ chunk_mem (chunk_write m s) = m
}.

Lemma cnt_perm L L' x : L ≡ₚ L' → cnt L x = cnt L' x.
Proof. induction 1; rewrite ?cnt_cons; lia. Qed.

Lemma keeps_trans `{ChunkOps T} L s1 s2 s3 : keeps L s1 s2 → keeps L s2 s3 → keeps L s1 s3.
Proof. intros H1 H2 x Hx. by rewrite H2, H1. Qed.

Lemma keeps_refl `{ChunkOps T} L s : keeps L s s.
Proof. done. Qed.
#[export] Hint Resolve keeps_refl : nlos.
