(* ===== verification/Malloc.v ===== *)
(** malloc over the physical allocator: src/src/platform/microvm/malloc.c.

    A block carries the size asked for and a mark in the two words before it.  The
    mark is checked by free and realloc, which abort without it. *)

From S2P Require Import Prelude Pmm Chunks.
From stdpp Require Import prelude list.
From Stdlib Require Import ZArith Lia.
Open Scope Z_scope.

(** The arena, and the four counters of the file. *)
Record hst : Type := mkHst {
  h_pmm : pmm;
  live_bytes : Z;
  peak_bytes : Z;
  live_blocks : Z;
  total_blocks : Z
}.

Abbreviation HM := (ST hst).

Section code.
Context (ws : Z).

(** MAGIC: five letters where a word has room for them, four otherwise. *)
Definition MAGIC : Z := if ws =? 8 then 0x6c75616f73 else 0x6c756f73.

Definition lift_p {A} (m : PM A) : HM A := λ σ,
  match m (h_pmm σ) with
  | Ok (a, q) => Ok (a, mkHst q (live_bytes σ) (peak_bytes σ) (live_blocks σ) (total_blocks σ))
  | Err e => Err e
  end.

Definition note_peak (live : Z) : HM unit :=
  st_modify (λ σ, mkHst (h_pmm σ) (live_bytes σ)
                    (if peak_bytes σ <? live then live else peak_bytes σ)
                    (live_blocks σ) (total_blocks σ)).

(** (live, peak, blocks, total) *)
Definition kheap_stats : HM (Z * Z * Z * Z) :=
  let! σ := st_get in st_ret (live_bytes σ, peak_bytes σ, live_blocks σ, total_blocks σ).

Definition malloc (n : Z) : HM Z :=
  let! h := lift_p (pmm_alloc ws (sz ws (n + hdr ws))) in
  if h =? 0 then st_ret 0 else
  lift_p (sto ws h n ;;; sto ws (h + ws) MAGIC) ;;;
  let! old := (λ σ, Ok (live_bytes σ, mkHst (h_pmm σ) (sz ws (live_bytes σ + sz ws (n + hdr ws)))
                                        (peak_bytes σ) (live_blocks σ) (total_blocks σ))) in
  note_peak (sz ws (old + n + hdr ws)) ;;;
  st_modify (λ σ, mkHst (h_pmm σ) (live_bytes σ) (peak_bytes σ)
                    (sz ws (live_blocks σ + 1)) (sz ws (total_blocks σ + 1))) ;;;
  st_ret (h + hdr ws).

(** The check free and realloc make before they trust a header. *)
Definition check_magic (h : Z) : HM unit :=
  let! g := lift_p (ld ws (h + ws)) in
  if negb (g =? MAGIC) then st_fail AbortHeapMagic else st_ret tt.

Definition free (p : Z) : HM unit :=
  if p =? 0 then st_ret tt else
  let h := p - hdr ws in
  check_magic h ;;;
  lift_p (sto ws (h + ws) 0) ;;;
  let! n := lift_p (ld ws h) in
  st_modify (λ σ, mkHst (h_pmm σ) (sz ws (live_bytes σ - sz ws (n + hdr ws))) (peak_bytes σ)
                    (sz ws (live_blocks σ - 1)) (total_blocks σ)) ;;;
  lift_p (pmm_free ws h (sz ws (n + hdr ws))).

Definition platform_meminfo : HM (Z * Z * Z) := lift_p (pmm_meminfo ws).

Definition set_mem (f : (Z → Z) → Z → Z) : HM unit :=
  lift_p (st_modify (λ q, mkPmm (f (m_mem q)) (freelist q) (arena_bytes q))).
Definition memset (a v n : Z) (m : Z → Z) : Z → Z := λ x,
  if (a <=? x) && (x <? a + n) then v else m x.
Definition memcpy (d s n : Z) (m : Z → Z) : Z → Z := λ x,
  if (d <=? x) && (x <? d + n) then m (s + (x - d)) else m x.

Definition calloc (nmemb size : Z) : HM Z :=
  if negb (size =? 0) && ((2 ^ (8 * ws) - 1) / size <? nmemb) then st_ret 0 else
  let n := sz ws (nmemb * size) in
  let! p := malloc n in
  (if p =? 0 then st_ret tt else set_mem (memset p 0 n)) ;;;
  st_ret p.

Definition realloc (p n : Z) : HM Z :=
  if p =? 0 then malloc n else
  if n =? 0 then free p ;;; st_ret 0 else
  let h := p - hdr ws in
  check_magic h ;;;
  let! q := malloc n in
  if q =? 0 then st_ret 0 else
  let! old := lift_p (ld ws h) in
  set_mem (memcpy q p (if old <? n then old else n)) ;;;
  free p ;;;
  st_ret q.

Definition platform_chunk_alloc (n : Z) : HM Z := malloc n.
Definition platform_chunk_free (p n : Z) : HM unit := free p.
Definition platform_chunkinfo : HM (Z * Z * Z) := platform_meminfo.
End code.

(** * The invariant *)

Section facts.
Context (ws : Z) (Hws : wide ws).
Abbreviation top := (2 ^ (8 * ws)).

(** The block behind a pointer malloc returned for [n] bytes. *)
Definition blk (b : hole) : hole := (fst b - hdr ws, rounded ws (snd b + hdr ws)).
Abbreviation blks L := (List.map blk L).

Definition mem (σ : hst) : Z → Z := m_mem (h_pmm σ).

(** A block in use: in range, aligned, its header intact. *)
Definition in_use (m : Z → Z) (b : hole) : Prop :=
  0 <= snd b ∧ snd b + hdr ws + (ALIGN - 1) < top ∧ hdr ws < fst b ∧
  (fst b - hdr ws) mod ALIGN = 0 ∧ fst b - hdr ws + rounded ws (snd b + hdr ws) < top ∧
  load ws m (fst b - hdr ws) = snd b ∧ load ws m (fst b - ws) = MAGIC ws.

(** [R] is the memory pmm_add was given, [l] the holes, [L] the blocks in use, as the
    pointer and the size asked for.  Every byte of [R] is in exactly one of them. *)
Record heap_at (R : list hole) (σ : hst) (l L : list hole) : Prop := mkHeapAt {
  ha_enc : encodes ws (h_pmm σ) l;
  ha_tile : ∀ x, cnt l x + cnt (blks L) x = cnt R x;
  ha_once : ∀ x, cnt R x <= 1;
  ha_bytes : bytes_in l + bytes_in (blks L) = arena_bytes (h_pmm σ);
  ha_top : arena_bytes (h_pmm σ) < top;
  ha_live : Forall (in_use (mem σ)) L;
  ha_count : live_bytes σ = zsum (λ b, snd b + hdr ws) L;
  ha_blocks : live_blocks σ = Z.of_nat (length L);
  ha_peak : live_bytes σ <= peak_bytes σ
}.

Definition heap_ok (R : list hole) (σ : hst) (L : list hole) : Prop := ∃ l, heap_at R σ l L.

Lemma hdr_le : 0 < ws ∧ hdr ws = 2 * ws ∧ hdr ws <= ALIGN.
Proof. unfold hdr, ALIGN. destruct Hws; lia. Qed.

Lemma rounded_hdr n : 0 <= n → n + hdr ws + (ALIGN - 1) < top →
  n + hdr ws <= rounded ws (n + hdr ws) ∧ ALIGN <= rounded ws (n + hdr ws) ∧
  rounded ws (n + hdr ws) mod ALIGN = 0.
Proof.
  intros H0 Hn. pose proof hdr_le. destruct (rounded_spec ws Hws (n + hdr ws) ltac:(lia) Hn) as [H1 H2].
  split_and!; [lia| |done]. unfold ALIGN in *. apply Z.mod_divide in H2 as [k Ek]; lia.
Qed.

Lemma blks_bytes m L : Forall (in_use m) L →
  zsum (λ b, snd b + hdr ws) L <= bytes_in (blks L) ∧ Z.of_nat (length L) * ALIGN <= bytes_in (blks L).
Proof.
  induction 1 as [|[p n] L (H1 & H2 & _) HL [I1 I2]]; [done|]. simpl in *.
  destruct (rounded_hdr n H1 H2) as (? & ? & _). unfold bytes_in in *.
  rewrite !zsum_cons. simpl. unfold ALIGN in *. lia.
Qed.

(** A change of memory outside the holes and the headers keeps the invariant. *)
Lemma heap_mem R σ l L m :
  heap_at R σ l L → (∀ x, 0 < cnt l x → m x = mem σ x) →
  (∀ p n x, (p, n) ∈ L → p - hdr ws <= x < p → m x = mem σ x) →
  heap_at R (mkHst (mkPmm m (freelist (h_pmm σ)) (arena_bytes (h_pmm σ))) (live_bytes σ)
               (peak_bytes σ) (live_blocks σ) (total_blocks σ)) l L.
Proof.
  intros [[C G B] T O Hb Ht HL Hc Hk Hp] Hl Hh. split; try done.
  - split; [|done|done]. by eapply chain_ext.
  - apply Forall_forall. intros [p n] Hin. rewrite Forall_forall in HL.
    destruct (HL _ Hin) as (H1 & H2 & H3 & H4 & H5 & H6 & H7). pose proof hdr_le.
    unfold in_use. simpl in *. split_and!; try done.
    + rewrite <-H6. apply load_ext; [done|]. intros x Hx. apply (Hh p n); [done|lia].
    + rewrite <-H7. apply load_ext; [done|]. intros x Hx. apply (Hh p n); [done|lia].
Qed.

Lemma heap_perm R σ l L L' : L ≡ₚ L' → heap_at R σ l L → heap_at R σ l L'.
Proof.
  intros HP [E T O Hb Ht HL Hc Hk Hp].
  assert (∀ f : hole → Z, zsum f L = zsum f L') as Hz.
  { intros f. clear -HP. induction HP; rewrite ?zsum_cons; lia. }
  assert (blks L ≡ₚ blks L') as HB by by apply Permutation_map.
  split; try done.
  - intros x. by rewrite <-(cnt_perm _ _ _ HB).
  - rewrite <-Hb. f_equal. clear -HB. unfold bytes_in. induction HB; rewrite ?zsum_cons; lia.
  - by rewrite <-HP.
  - by rewrite Hc, Hz.
  - by rewrite <-HP.
Qed.

(** Bytes of distinct blocks, and of blocks and holes, are distinct. *)
Lemma in_blk m L p n x : Forall (in_use m) L → (p, n) ∈ L → p - hdr ws <= x < p + n → 0 < cnt (blks L) x.
Proof.
  rewrite Forall_forall. intros HL Hin Hx. destruct (HL _ Hin) as (H1 & H2 & _). simpl in *.
  destruct (rounded_hdr n H1 H2) as (? & _).
  apply (cnt_elem (p - hdr ws) (rounded ws (n + hdr ws))); [|lia].
  apply list_elem_of_In, in_map_iff. exists (p, n). split; [done|by apply list_elem_of_In].
Qed.

Lemma hole_not_blk R σ l L x : heap_at R σ l L → 0 < cnt l x → cnt (blks L) x = 0.
Proof.
  intros H Hx. pose proof (ha_tile _ _ _ _ H x). pose proof (ha_once _ _ _ _ H x).
  pose proof (cnt_nonneg (blks L) x). lia.
Qed.

(** * malloc *)

Lemma magic_range : 0 <= MAGIC ws < top ∧ MAGIC ws mod ALIGN ≠ 0.
Proof. by destruct Hws as [->| ->]. Qed.

(** The block cut from the holes, with its header written. *)
Lemma heap_grow R σ l l' L n q b m :
  heap_at R σ l L → 0 <= n → n + hdr ws + (ALIGN - 1) < top →
  0 < b → b mod ALIGN = 0 → b + rounded ws (n + hdr ws) < top →
  encodes ws q l' → arena_bytes q = arena_bytes (h_pmm σ) →
  bytes_in l = rounded ws (n + hdr ws) + bytes_in l' →
  (∀ x, cnt l x = hit x (b, rounded ws (n + hdr ws)) + cnt l' x) →
  same_but (λ x, 0 < cnt l' x) (mem σ) (m_mem q) →
  load ws m b = n → load ws m (b + ws) = MAGIC ws → same_but (λ x, b <= x < b + hdr ws) (m_mem q) m →
  heap_at R (mkHst (mkPmm m (freelist q) (arena_bytes q)) (live_bytes σ + (n + hdr ws))
               (Z.max (peak_bytes σ) (live_bytes σ + (n + hdr ws)))
               (live_blocks σ + 1) (sz ws (total_blocks σ + 1))) l' ((b + hdr ws, n) :: L) ∧
  ∀ x, 0 < cnt (blks L) x → m x = mem σ x.
Proof.
  intros H Hn Hnt Hb Hba Hbt [C G B] Ea EB EC Sq L1 L2 Sm. pose proof hdr_le as (Hw & Eh & Hh).
  destruct (rounded_hdr n Hn Hnt) as (Hr1 & Hr2 & _).
  assert (∀ x, b <= x < b + hdr ws → cnt l' x = 0 ∧ cnt (blks L) x = 0) as Hnew.
  { intros x Hx. pose proof (EC x) as E. rewrite hit_1 in E by lia.
    pose proof (ha_tile _ _ _ _ H x). pose proof (ha_once _ _ _ _ H x).
    pose proof (cnt_nonneg l' x). pose proof (cnt_nonneg (blks L) x). lia. }
  assert (∀ x, 0 < cnt (blks L) x → m x = mem σ x) as Hkeep.
  { intros x Hx. rewrite Sm, Sq; [done| |].
    - pose proof (EC x). pose proof (ha_tile _ _ _ _ H x). pose proof (ha_once _ _ _ _ H x).
      pose proof (hit_range x (b, rounded ws (n + hdr ws))). lia.
    - intros Hin. destruct (Hnew x Hin). lia. }
  assert (blk (b + hdr ws, n) = (b, rounded ws (n + hdr ws))) as Eb.
  { unfold blk. simpl. f_equal. lia. }
  split; [|done]. destruct H as [[C0 G0 B0] T O Hbytes Ht HL Hc Hk Hp]. split; try done; simpl.
  - split; [|done|done]. eapply chain_ext; [done|exact G| |exact C].
    intros x Hx. apply Sm. intros Hin. destruct (Hnew x Hin). lia.
  - intros x. rewrite Eb, cnt_cons, <-(T x), EC. lia.
  - rewrite Eb. unfold bytes_in in *. rewrite zsum_cons. simpl. rewrite Ea. lia.
  - lia.
  - constructor.
    + unfold in_use. simpl. replace (b + hdr ws - hdr ws) with b by lia.
      replace (b + hdr ws - ws) with (b + ws) by lia. split_and!; try done; lia.
    + rewrite Forall_forall in HL |- *. intros [p k] Hin. pose proof (HL _ Hin) as (H1 & H2 & H3 & H4 & H5 & H6 & H7).
      unfold in_use. simpl in *. split_and!; try done; [rewrite <-H6|rewrite <-H7]; apply load_ext; try done;
        intros x Hx; apply Hkeep; (eapply in_blk; [by apply Forall_forall|exact Hin|lia]).
  - rewrite zsum_cons, Hc. simpl. lia.
  - rewrite Hk. lia.
  - lia.
Qed.

(** The counters cannot wrap: they count bytes of the arena. *)
Lemma heap_room R σ l l' L n :
  heap_at R σ l L → 0 <= n → n + hdr ws + (ALIGN - 1) < top → gaps top 0 l' →
  bytes_in l = rounded ws (n + hdr ws) + bytes_in l' →
  0 <= live_bytes σ ∧ live_bytes σ + (n + hdr ws) < top ∧ 0 <= live_blocks σ < top - 1.
Proof.
  intros H Hn Hnt G EB. destruct (blks_bytes _ _ (ha_live _ _ _ _ H)) as [B1 B2].
  destruct (rounded_hdr n Hn Hnt) as (? & ? & _). pose proof (bytes_in_nonneg ws _ _ G) as ?.
  destruct H as [_ _ _ Hb Ht HL Hc Hk _]. unfold ALIGN in *.
  assert (0 <= live_bytes σ); [|lia]. rewrite Hc. apply zsum_nonneg. intros [p k] Hin.
  rewrite Forall_forall in HL. destruct (HL _ Hin) as (? & _). pose proof hdr_le. simpl in *. lia.
Qed.

Lemma malloc_spec R σ L n : heap_ok R σ L → 0 <= n → n + hdr ws + (ALIGN - 1) < top →
  ∃ p σ', malloc ws n σ = Ok (p, σ') ∧ (∀ x, 0 < cnt (blks L) x → mem σ' x = mem σ x) ∧
    (p = 0 ∧ σ' = σ ∨ hdr ws < p ∧ heap_ok R σ' ((p, n) :: L)).
Proof.
  intros [l H] Hn Hnt. pose proof hdr_le as (Hw & Eh & Hh). destruct (rounded_hdr n Hn Hnt) as (Hr1 & Hr2 & Hr3).
  unfold malloc, lift_p, st_bind. rewrite (sz_small ws (n + hdr ws)) by (unfold ALIGN in *; lia).
  pose proof (pmm_alloc_spec ws Hws _ _ (n + hdr ws) (ha_enc _ _ _ _ H) ltac:(lia) Hnt) as HA.
  pose proof (take_hole_ok top 0 (rounded ws (n + hdr ws)) l (enc_gaps _ _ _ (ha_enc _ _ _ _ H)) ltac:(unfold ALIGN in *; lia) Hr3) as HT.
  destruct (take_hole _ l) as [[b l']|].
  - destruct HA as (q & -> & En & Ea & Sq). destruct HT as (Hb & Hba & Hbt & _ & EB & EC).
    destruct (heap_room R σ l l' L n H Hn Hnt (enc_gaps _ _ _ En) EB) as (Hc0 & Hc1 & Hc2).
    rewrite (proj2 (Z.eqb_neq b 0)) by lia. unfold sto, st_modify. cbn [m_mem freelist arena_bytes h_pmm live_bytes].
    destruct (store_hdr ws Hws (m_mem q) b n (MAGIC ws) ltac:(unfold ALIGN in *; lia) (proj1 magic_range)) as (L1 & L2 & Sm).
    destruct (heap_grow R σ l l' L n q b _ H Hn Hnt Hb Hba Hbt En Ea EB EC Sq L1 L2 Sm) as [H' Hkeep].
    eexists _, _. split; [reflexivity|]. simpl. split; [exact Hkeep|]. right. split; [lia|].
    exists l'. rewrite !sz_small by lia.
    replace (if peak_bytes σ <? live_bytes σ + n + hdr ws then live_bytes σ + n + hdr ws else peak_bytes σ)
      with (Z.max (peak_bytes σ) (live_bytes σ + (n + hdr ws))) by (destruct (Z.ltb_spec (peak_bytes σ) (live_bytes σ + n + hdr ws)); lia).
    exact H'.
  - rewrite HA. simpl. exists 0, σ. split; [by destruct σ|]. split; [done|]. by left.
Qed.

(** * free *)

(** The bytes of the block at the head of the list belong to no hole and to no other. *)
Lemma head_apart R σ l L p n x : heap_at R σ l ((p, n) :: L) →
  p - hdr ws <= x < p - hdr ws + rounded ws (n + hdr ws) → cnt l x = 0 ∧ cnt (blks L) x = 0.
Proof.
  intros H Hx. pose proof (ha_tile _ _ _ _ H x) as T. pose proof (ha_once _ _ _ _ H x) as O.
  simpl in T. rewrite cnt_cons in T. unfold blk at 1 in T. simpl in T. rewrite hit_1 in T by done.
  pose proof (cnt_nonneg l x). pose proof (cnt_nonneg (blks L) x). lia.
Qed.

Lemma heap_shrink R σ l L p n q :
  heap_at R σ l ((p, n) :: L) →
  let r := rounded ws (n + hdr ws) in
  encodes ws q (insert_hole (p - hdr ws) r l) → arena_bytes q = arena_bytes (h_pmm σ) →
  same_but (λ x, p - hdr ws <= x < p - hdr ws + r ∨ 0 < cnt l x) (mem σ) (m_mem q) →
  heap_at R (mkHst q (live_bytes σ - (n + hdr ws)) (peak_bytes σ) (live_blocks σ - 1) (total_blocks σ))
    (insert_hole (p - hdr ws) r l) L ∧
  ∀ x, 0 < cnt (blks L) x → m_mem q x = mem σ x.
Proof.
  intros H r En Ea Sq. pose proof hdr_le as (Hw & Eh & Hh).
  pose proof (ha_live _ _ _ _ H) as HL. apply Forall_cons in HL as [(H1 & H2 & H3 & H4 & H5 & H6 & H7) HL].
  simpl in *. destruct (rounded_hdr n H1 H2) as (Hr1 & Hr2 & Hr3). fold r in Hr1, Hr2, Hr3, H5.
  unfold ALIGN in Hr2. assert (∀ x, 0 < cnt (blks L) x → m_mem q x = mem σ x) as Hkeep.
  { intros x Hx. apply Sq. intros [Hin|Hin].
    - destruct (head_apart _ _ _ _ _ _ _ H Hin). lia.
    - pose proof (hole_not_blk _ _ _ _ _ H Hin) as E. simpl in E. rewrite cnt_cons in E.
      pose proof (hit_range x (blk (p, n))). lia. }
  destruct (insert_hole_ok top 0 (p - hdr ws) r l) as (I1 & I2 & I3); try done; try lia.
  { by destruct (ha_enc _ _ _ _ H). }
  { intros x Hx. by destruct (head_apart _ _ _ _ _ _ _ H Hx). }
  split; [|done]. destruct H as [[C0 G0 B0] T O Hbytes Ht _ Hc Hk Hp]. split; try done; simpl.
  - intros x. rewrite I3. specialize (T x). simpl in T. rewrite cnt_cons in T. unfold blk at 1 in T.
    simpl in T. fold r in T. lia.
  - rewrite Ea, <-Hbytes. simpl. unfold bytes_in in *. rewrite zsum_cons, I2. unfold blk at 2. simpl.
    fold r. lia.
  - lia.
  - rewrite Forall_forall in HL |- *. intros [p' k] Hin. pose proof (HL _ Hin) as (J1 & J2 & J3 & J4 & J5 & J6 & J7).
    unfold in_use. simpl in *. split_and!; try done; [rewrite <-J6|rewrite <-J7]; apply load_ext; try done;
      intros x Hx; apply Hkeep; (eapply in_blk; [by apply Forall_forall|exact Hin|lia]).
  - rewrite Hc, zsum_cons. simpl. lia.
  - rewrite Hk. simpl. lia.
  - lia.
Qed.

Lemma counts_bound R σ l L : heap_at R σ l L → 0 <= live_bytes σ < top ∧ 0 <= live_blocks σ < top.
Proof.
  intros H. destruct (blks_bytes _ _ (ha_live _ _ _ _ H)) as [B1 B2].
  pose proof (bytes_in_nonneg ws _ _ (enc_gaps _ _ _ (ha_enc _ _ _ _ H))).
  destruct H as [_ _ _ Hb Ht HL Hc Hk _]. unfold ALIGN in *.
  assert (0 <= live_bytes σ); [|lia]. rewrite Hc. apply zsum_nonneg. intros [p k] Hin.
  rewrite Forall_forall in HL. destruct (HL _ Hin) as (? & _). pose proof hdr_le. simpl in *. lia.
Qed.

Lemma free_run σ p n : in_use (mem σ) (p, n) →
  free ws p σ =
  match pmm_free ws (p - hdr ws) (n + hdr ws)
          (mkPmm (store ws (mem σ) (p - ws) 0) (freelist (h_pmm σ)) (arena_bytes (h_pmm σ))) with
  | Ok (_, q) => Ok (tt, mkHst q (sz ws (live_bytes σ - (n + hdr ws))) (peak_bytes σ)
                          (sz ws (live_blocks σ - 1)) (total_blocks σ))
  | Err e => Err e
  end.
Proof.
  pose proof hdr_le as (Hw & Eh & Hh). intros (H1 & H2 & H3 & _ & _ & H6 & H7). simpl in *.
  assert (load ws (mem σ) (p - hdr ws + ws) = MAGIC ws) as Hm by (by replace (p - hdr ws + ws) with (p - ws) by lia).
  unfold free, check_magic, lift_p, ld, sto, st_modify, st_bind.
  rewrite (proj2 (Z.eqb_neq p 0)) by lia. cbv beta iota zeta. fold (mem σ). rewrite Hm, Z.eqb_refl.
  cbn [negb h_pmm m_mem freelist arena_bytes live_bytes peak_bytes live_blocks total_blocks st_ret].
  replace (p - hdr ws + ws) with (p - ws) by lia. fold (mem σ).
  rewrite load_store_ne by (done || lia). rewrite H6, (sz_small ws (n + hdr ws)) by (unfold ALIGN in *; lia).
  by destruct (pmm_free _ _ _ _) as [[[] q]|].
Qed.

Lemma free_spec R σ L p n : heap_ok R σ ((p, n) :: L) →
  ∃ σ', free ws p σ = Ok (tt, σ') ∧ heap_ok R σ' L ∧
    (∀ x, 0 < cnt (blks L) x → mem σ' x = mem σ x) ∧ load ws (mem σ') (p - ws) mod ALIGN = 0.
Proof.
  intros [l H]. pose proof hdr_le as (Hw & Eh & Hh). pose proof (ha_live _ _ _ _ H) as HL.
  apply Forall_cons in HL as [HU HL]. rewrite (free_run σ p n HU).
  destruct HU as (H1 & H2 & H3 & H4 & H5 & _ & _). simpl in H1, H2, H3, H4, H5.
  destruct (blks_bytes _ _ HL) as [_ B3]. destruct (rounded_hdr n H1 H2) as (Hr1 & Hr2 & Hr3).
  unfold bytes_in, ALIGN in *. set (q1 := mkPmm _ _ _).
  assert (encodes ws q1 l) as En1.
  { destruct (ha_enc _ _ _ _ H) as [C G B]. split; [|done|done]. eapply chain_ext; [done|exact G| |exact C].
    intros x Hx. apply store_out. intros Hin.
    destruct (head_apart _ _ _ _ _ _ x H) as [E _]; lia. }
  destruct (pmm_free_spec ws Hws q1 l (p - hdr ws) (n + hdr ws)) as (q & Eq & En & Ea & Sq & Nq); try done; try lia.
  { intros x Hx. by destruct (head_apart _ _ _ _ _ _ x H Hx). }
  { pose proof (ha_bytes _ _ _ _ H) as Hb. unfold bytes_in in *. simpl in Hb. rewrite zsum_cons in Hb.
    unfold blk at 1 in Hb. simpl in Hb. simpl. lia. }
  destruct (heap_shrink R σ l L p n q H En Ea) as [H' Hkeep].
  { intros x Hx. rewrite Sq by done. apply store_out. lia. }
  rewrite Eq. eexists. split; [reflexivity|]. split; [|split; [exact Hkeep|]].
  - destruct (counts_bound _ _ _ _ H') as [K1 K2]. simpl in K1, K2.
    rewrite !sz_small by lia. by eexists.
  - unfold mem. simpl. by replace (p - ws) with (p - hdr ws + ws) by lia.
Qed.

(** A pointer freed twice in a row is caught. *)
Lemma free_twice R σ L p n σ' : heap_ok R σ ((p, n) :: L) → free ws p σ = Ok (tt, σ') →
  free ws p σ' = Err AbortHeapMagic.
Proof.
  intros H E. destruct (free_spec R σ L p n H) as (σ1 & E1 & _ & _ & N).
  rewrite E in E1. injection E1 as <-.
  destruct H as [l H]. pose proof (ha_live _ _ _ _ H) as HL. pose proof hdr_le as (? & ? & ?).
  apply Forall_cons in HL as [(_ & _ & H3 & _) _]. simpl in H3.
  unfold free, check_magic, lift_p, ld, st_bind. rewrite (proj2 (Z.eqb_neq p 0)) by lia.
  replace (p - hdr ws + ws) with (p - ws) by lia. cbv zeta. fold (mem σ').
  destruct (Z.eqb_spec (load ws (mem σ') (p - ws)) (MAGIC ws)) as [E2|]; [|done].
  rewrite E2 in N. by destruct magic_range.
Qed.

Lemma heap_ok_perm R σ L L' : L ≡ₚ L' → heap_ok R σ L → heap_ok R σ L'.
Proof. intros HP [l H]. exists l. by eapply heap_perm. Qed.

(** Bytes handed out belong to the block behind them. *)
Lemma cnt_le m L x : Forall (in_use m) L → cnt L x <= cnt (blks L) x.
Proof.
  induction 1 as [|[p n] L (H1 & H2 & _) HL IH]; [done|]. simpl. rewrite !cnt_cons.
  assert (hit x (p, n) <= hit x (blk (p, n))); [|lia]. simpl in *.
  destruct (rounded_hdr n H1 H2) as (? & _). pose proof hdr_le.
  destruct (decide (p <= x < p + n)).
  - rewrite hit_1 by done. unfold blk. simpl. rewrite hit_1 by lia. done.
  - rewrite hit_0 by done. apply hit_range.
Qed.

(** A header is no byte handed out. *)
Lemma hdr_not_payload R σ l L p n x : heap_at R σ l L → (p, n) ∈ L → p - hdr ws <= x < p → cnt L x = 0.
Proof.
  intros H Hin Hx. apply elem_of_Permutation in Hin as [L' HP].
  apply (heap_perm _ _ _ _ _ HP) in H. rewrite (cnt_perm _ _ _ HP), cnt_cons, hit_0 by lia.
  pose proof (ha_live _ _ _ _ H) as HL. apply Forall_cons in HL as [(H1 & H2 & _) HL]. simpl in *.
  destruct (rounded_hdr n H1 H2) as (? & _).
  destruct (head_apart _ _ _ _ _ _ x H) as [_ E]; [lia|].
  pose proof (cnt_le _ _ x HL). pose proof (cnt_nonneg L' x). lia.
Qed.

Definition with_mem (m : Z → Z) (σ : hst) : hst :=
  mkHst (mkPmm m (freelist (h_pmm σ)) (arena_bytes (h_pmm σ))) (live_bytes σ) (peak_bytes σ)
    (live_blocks σ) (total_blocks σ).

(** The client writes to its own bytes. *)
Lemma heap_ok_write R σ L m : heap_ok R σ L → (∀ x, cnt L x = 0 → m x = mem σ x) →
  heap_ok R (with_mem m σ) L.
Proof.
  intros [l H] Hm. exists l. apply heap_mem; [done|..].
  - intros x Hx. apply Hm. pose proof (hole_not_blk _ _ _ _ _ H Hx).
    pose proof (cnt_le _ _ x (ha_live _ _ _ _ H)). pose proof (cnt_nonneg L x). lia.
  - intros p n x Hin Hx. apply Hm. by eapply hdr_not_payload.
Qed.

Lemma set_mem_run f σ : set_mem f σ = Ok (tt, with_mem (f (mem σ)) σ).
Proof. done. Qed.

(** * realloc and calloc *)

Lemma memcpy_in d s k m x : d <= x < d + k → memcpy d s k m x = m (s + (x - d)).
Proof. intros H. unfold memcpy. by rewrite (proj2 (Z.leb_le _ _)), (proj2 (Z.ltb_lt _ _)) by lia. Qed.

Lemma memcpy_out d s k m x : ¬ (d <= x < d + k) → memcpy d s k m x = m x.
Proof.
  intros H. unfold memcpy. destruct (Z.leb_spec d x), (Z.ltb_spec x (d + k)); simpl; [lia|done..].
Qed.

Lemma payload_once R σ L x : heap_ok R σ L → cnt L x <= 1.
Proof.
  intros [l H]. pose proof (cnt_le _ _ x (ha_live _ _ _ _ H)). pose proof (ha_tile _ _ _ _ H x).
  pose proof (ha_once _ _ _ _ H x). pose proof (cnt_nonneg l x). lia.
Qed.

Lemma heap_in_use R σ L p n : heap_ok R σ L → (p, n) ∈ L → in_use (mem σ) (p, n).
Proof. intros [l H] Hin. pose proof (ha_live _ _ _ _ H) as HL. rewrite Forall_forall in HL. by apply HL. Qed.

Lemma payload_keep m σ σ' L : Forall (in_use m) L →
  (∀ x, 0 < cnt (blks L) x → mem σ' x = mem σ x) → ∀ x, 0 < cnt L x → mem σ' x = mem σ x.
Proof. intros HL Hk x Hx. apply Hk. pose proof (cnt_le _ _ x HL). lia. Qed.

Lemma heap_live R σ L : heap_ok R σ L → Forall (in_use (mem σ)) L.
Proof. intros [l H]. by apply (ha_live _ _ _ _ H). Qed.

Lemma check_magic_run σ p n : in_use (mem σ) (p, n) → check_magic ws (p - hdr ws) σ = Ok (tt, σ).
Proof.
  pose proof hdr_le as (Hw & Eh & Hh). intros (_ & _ & _ & _ & _ & _ & H7). simpl in H7.
  unfold check_magic, lift_p, ld, st_bind. replace (p - hdr ws + ws) with (p - ws) by lia.
  cbv beta iota. fold (mem σ). rewrite H7, Z.eqb_refl. by destruct σ.
Qed.

(** The second half of realloc, once the new block is had: copy and free. *)
Lemma realloc_move R σ L p k q n c : heap_ok R σ ((p, k) :: (q, n) :: L) → c <= k → c <= n →
  ∃ σ', (set_mem (memcpy q p c) ;;; free ws p) σ = Ok (tt, σ') ∧ heap_ok R σ' ((q, n) :: L) ∧
    (∀ x, 0 < cnt L x → mem σ' x = mem σ x) ∧ ∀ i, 0 <= i < c → mem σ' (q + i) = mem σ (p + i).
Proof.
  intros H Hk Hn. unfold st_bind. rewrite set_mem_run. set (σ2 := with_mem _ σ).
  assert (heap_ok R σ2 ((p, k) :: (q, n) :: L)) as H2.
  { apply heap_ok_write; [done|]. intros x Hx. apply memcpy_out. intros Hin.
    rewrite !cnt_cons, (hit_1 x q n) in Hx by lia.
    pose proof (hit_range x (p, k)). pose proof (cnt_nonneg L x). lia. }
  destruct (free_spec R σ2 _ p k H2) as (σ3 & E3 & H3 & K3 & _). rewrite E3.
  pose proof (heap_live _ _ _ H2) as HL. apply Forall_cons in HL as [_ HL].
  pose proof (payload_keep _ _ _ _ HL K3) as K. exists σ3. split; [done|]. split; [done|]. split.
  - intros x Hx. pose proof (payload_once _ _ _ x H3) as O. rewrite cnt_cons in O.
    rewrite K by (rewrite cnt_cons; pose proof (hit_range x (q, n)); lia). apply memcpy_out. intros Hin.
    rewrite hit_1 in O by lia. lia.
  - intros i Hi. rewrite K by (rewrite cnt_cons, hit_1 by lia; pose proof (cnt_nonneg L (q + i)); lia).
    unfold σ2, mem. simpl. rewrite memcpy_in by lia. f_equal. lia.
Qed.

Lemma realloc_spec R σ L p k n : heap_ok R σ ((p, k) :: L) → 0 < n → n + hdr ws + (ALIGN - 1) < top →
  ∃ q σ', realloc ws p n σ = Ok (q, σ') ∧ (∀ x, 0 < cnt L x → mem σ' x = mem σ x) ∧
    (q = 0 ∧ σ' = σ ∨
     hdr ws < q ∧ heap_ok R σ' ((q, n) :: L) ∧
     ∀ i, 0 <= i < Z.min k n → mem σ' (q + i) = mem σ (p + i)).
Proof.
  intros H Hn Hnt. pose proof (heap_in_use _ _ _ p k H ltac:(left)) as HU. pose proof hdr_le as (Hw & Eh & Hh).
  pose proof HU as (H1 & _ & H3 & _). simpl in H1, H3.
  destruct (malloc_spec R σ _ n H ltac:(lia) Hnt) as (q & σ1 & E1 & K1 & HR).
  pose proof (payload_keep _ _ _ _ (heap_live _ _ _ H) K1) as K.
  unfold realloc. rewrite (proj2 (Z.eqb_neq p 0)), (proj2 (Z.eqb_neq n 0)) by lia. cbv zeta.
  unfold st_bind at 1. rewrite (check_magic_run _ _ _ HU). unfold st_bind at 1. rewrite E1.
  destruct HR as [[-> ->]|[Hq HO]].
  { exists 0, σ. split; [done|]. split; [done|]. by left. }
  rewrite (proj2 (Z.eqb_neq q 0)) by lia. unfold st_bind at 1, lift_p at 1, ld.
  assert (heap_ok R σ1 ((p, k) :: (q, n) :: L)) as HO' by (eapply heap_ok_perm; [apply perm_swap|done]).
  pose proof (heap_in_use _ _ _ p k HO' ltac:(left)) as (_ & _ & _ & _ & _ & H6 & _). simpl in H6.
  fold (mem σ1). rewrite H6. replace (mkHst (h_pmm σ1) _ _ _ _) with σ1 by by destruct σ1.
  replace (if k <? n then k else n) with (Z.min k n) by (destruct (Z.ltb_spec k n); lia).
  destruct (realloc_move R σ1 L p k q n (Z.min k n) HO') as (σ2 & E2 & H2 & K2 & C2); [lia..|].
  unfold st_bind in E2 |- *. rewrite set_mem_run in E2 |- *. rewrite E2.
  exists q, σ2. split; [done|]. split.
  { intros x Hx. rewrite K2, K; [done| |done]. rewrite cnt_cons. pose proof (hit_range x (p, k)). lia. }
  right. split; [done|]. split; [done|]. intros i Hi. rewrite C2, K; [done| |done].
  rewrite cnt_cons, hit_1 by lia. pose proof (cnt_nonneg L (p + i)). lia.
Qed.

Lemma calloc_spec R σ L nmemb size : heap_ok R σ L → 0 <= nmemb → 0 <= size →
  nmemb * size + hdr ws + (ALIGN - 1) < top →
  ∃ p σ', calloc ws nmemb size σ = Ok (p, σ') ∧ (∀ x, 0 < cnt L x → mem σ' x = mem σ x) ∧
    (p = 0 ∧ σ' = σ ∨
     hdr ws < p ∧ heap_ok R σ' ((p, nmemb * size) :: L) ∧
     ∀ i, 0 <= i < nmemb * size → mem σ' (p + i) = 0).
Proof.
  intros H Hm Hs Ht. pose proof hdr_le as (Hw & Eh & Hh). unfold ALIGN in Ht.
  destruct (malloc_spec R σ L (nmemb * size) H) as (p & σ1 & E1 & K1 & HR); [lia|unfold ALIGN; lia|].
  pose proof (payload_keep _ _ _ _ (heap_live _ _ _ H) K1) as K. unfold calloc.
  assert (negb (size =? 0) && ((top - 1) / size <? nmemb) = false) as ->.
  { destruct (Z.eqb_spec size 0) as [|Hs0]; [done|]. simpl. apply Z.ltb_ge, Z.div_le_lower_bound; lia. }
  rewrite sz_small by lia. cbv zeta. unfold st_bind at 1. rewrite E1.
  destruct HR as [[-> ->]|[Hp HO]].
  { exists 0, σ. split; [done|]. split; [done|]. by left. }
  rewrite (proj2 (Z.eqb_neq p 0)) by lia. unfold st_bind. rewrite set_mem_run.
  exists p, (with_mem (memset p 0 (nmemb * size) (mem σ1)) σ1). split; [done|].
  assert (∀ x, ¬ (p <= x < p + nmemb * size) → memset p 0 (nmemb * size) (mem σ1) x = mem σ1 x) as Hout.
  { intros x Hx. unfold memset. destruct (Z.leb_spec p x), (Z.ltb_spec x (p + nmemb * size)); simpl; [lia|done..]. }
  split; [|right; split; [done|]; split].
  - intros x Hx. unfold mem at 1. simpl. rewrite Hout; [by apply K|]. intros Hin.
    pose proof (payload_once _ _ _ x HO) as O. rewrite cnt_cons, hit_1 in O by done. lia.
  - apply heap_ok_write; [done|]. intros x Hx. apply Hout. intros Hin.
    rewrite cnt_cons, hit_1 in Hx by done. pose proof (cnt_nonneg L x). lia.
  - intros i Hi. unfold mem. simpl. unfold memset.
    by rewrite (proj2 (Z.leb_le _ _)), (proj2 (Z.ltb_lt _ _)) by lia.
Qed.

(** * malloc as the chunk source *)

#[global] Instance malloc_chunks : ChunkOps hst := {|
  chunk_alloc := platform_chunk_alloc ws;
  chunk_free := platform_chunk_free ws;
  chunk_mem := mem;
  chunk_write := with_mem;
  chunk_own σ L := ∃ R, heap_ok R σ L
|}.

#[global] Instance malloc_laws : ChunkLaws ws hst.
Proof.
  pose proof hdr_le as (Hw & Eh & Hh). split.
  - intros σ L n [R H] Hn Ht. destruct (malloc_spec R σ L n H Hn) as (p & σ' & E & K & HR).
    { unfold ALIGN in *. lia. }
    pose proof (payload_keep _ _ _ _ (heap_live _ _ _ H) K) as K'.
    exists p, σ'. split; [exact E|]. split; [exact K'|].
    destruct HR as [[-> ->]|[Hp HO]]; [left; split; [done|by exists R]|].
    right. split; [lia|by exists R].
  - intros σ L L' p n [R H] HP. apply (heap_ok_perm _ _ _ _ HP) in H.
    destruct (free_spec R σ L' p n H) as (σ' & E & H' & K & _).
    exists σ'. split; [exact E|]. split; [|by exists R].
    pose proof (heap_live _ _ _ H) as HL. apply Forall_cons in HL as [_ HL].
    exact (payload_keep _ _ _ _ HL K).
  - intros σ L L' HP [R H]. exists R. by apply (heap_ok_perm _ _ _ _ HP).
  - intros σ L x [R H]. by eapply payload_once.
  - intros σ L p n [R H] Hin. destruct (heap_in_use _ _ _ p n H Hin) as (H1 & H2 & H3 & H4 & H5 & _).
    simpl in *. destruct (rounded_hdr n H1 H2) as (? & _). assert (p mod 8 = 0); [|lia].
    unfold ALIGN in H4. apply Z.mod_divide in H4 as [k Hk]; [|lia]. apply Z.mod_divide; [lia|].
    destruct Hws as [-> | ->]; unfold hdr in Hk; [exists (2 * k + 1)|exists (2 * k + 2)]; lia.
  - intros σ L m [R H] Hm. split; [|done]. exists R. by apply heap_ok_write.
Qed.
End facts.
