(* ===== verification/Memory.v ===== *)
(** What the allocators guarantee: the physical allocator of pmm.c as a refinement of
    a list of holes, and malloc.c as a heap in which blocks in use never overlap, keep
    their bytes, and are freed once. *)

From S2P Require Import Prelude Pmm Chunks Malloc.
From stdpp Require Import prelude list.
From Stdlib Require Import ZArith Lia.
Open Scope Z_scope.

(** A machine with one region of usable memory. *)
Definition pmm0 : pmm := mkPmm (λ _, 0) 0 0.
Definition boot_pmm (base len : Z) : pmm :=
  match pmm_add 8 base len pmm0 with Ok (_, σ) => σ | Err _ => pmm0 end.
Definition boot_heap (base len : Z) : hst := mkHst (boot_pmm base len) 0 0 0 0.

(** The value a computation returns, its state dropped. *)
Definition returns {S A} (r : result (A * S)) : option A :=
  match r with Ok (a, _) => Some a | Err _ => None end.

Lemma returns_Some {S A} (r : result (A * S)) a : returns r = Some a → ∃ s, r = Ok (a, s).
Proof. destruct r as [[a' s]|e]; intros [= ->]. by exists s. Qed.

Lemma wide8 : wide 8.
Proof. by right. Qed.

Lemma demo_encodes : encodes 8 (boot_pmm 4096 8192) [(4096, 8192)].
Proof.
  split; [|by vm_compute|by vm_compute].
  split; [by vm_compute|]. split; [by vm_compute|by vm_compute].
Qed.

(** C17: [pmm_alloc] is first fit on the list of holes.  The walk always ends.  It fails,
    changing nothing, only when no hole is large enough; otherwise it answers the front
    of the first hole that is, the bytes of that block leave the holes and no others do,
    the list stays ordered, aligned and without adjacent holes, and no byte outside the
    remaining holes is written. *)
Theorem pmm_alloc_correct ws σ l n :
  wide ws → encodes ws σ l → 0 < n → n + (ALIGN - 1) < 2 ^ (8 * ws) →
  match take_hole (rounded ws n) l with
  | None => pmm_alloc ws n σ = Ok (0, σ) ∧ ∀ a t, (a, t) ∈ l → t < rounded ws n
  | Some (b, l') => ∃ σ', pmm_alloc ws n σ = Ok (b, σ') ∧ encodes ws σ' l' ∧ b ≠ 0 ∧
      (∀ x, cnt l x = hit x (b, rounded ws n) + cnt l' x) ∧
      same_but (λ x, 0 < cnt l' x) (m_mem σ) (m_mem σ')
  end.
Proof.
  intros Hw En Hn Ht. destruct (rounded_spec ws Hw n Hn Ht) as [Hr Hra].
  pose proof (pmm_alloc_spec ws Hw σ l n En Hn Ht) as H.
  pose proof (take_hole_ok _ 0 (rounded ws n) l (enc_gaps _ _ _ En) ltac:(lia) Hra) as T.
  destruct (take_hole _ l) as [[b l']|]; [|by split].
  destruct H as (σ' & E & En' & _ & S). destruct T as (Hb & _ & _ & _ & _ & C).
  exists σ'. split_and!; try done. lia.
Qed.

Lemma pmm_alloc_correct_witness :
  ∃ σ', pmm_alloc 8 100 (boot_pmm 4096 8192) = Ok (4096, σ') ∧ encodes 8 σ' [(4208, 8080)].
Proof.
  destruct (pmm_alloc_correct 8 (boot_pmm 4096 8192) [(4096, 8192)] 100 wide8 demo_encodes)
    as (σ' & E & En & _); [lia|by vm_compute|].
  exists σ'. split; [exact E|exact En].
Defined.

(** [pmm_free] puts a block back in address order and merges it with both
    neighbours: afterwards the holes are the old ones and the block's bytes, still
    ordered, aligned and without two adjacent holes, and nothing outside them is
    written. *)
Theorem pmm_free_correct ws σ l p n :
  wide ws → encodes ws σ l → 0 < n → n + (ALIGN - 1) < 2 ^ (8 * ws) →
  0 < p → p mod ALIGN = 0 → p + rounded ws n < 2 ^ (8 * ws) →
  (∀ x, p <= x < p + rounded ws n → cnt l x = 0) →
  bytes_in l + rounded ws n <= arena_bytes σ →
  ∃ σ', pmm_free ws p n σ = Ok (tt, σ') ∧ encodes ws σ' (insert_hole p (rounded ws n) l) ∧
    (∀ x, cnt (insert_hole p (rounded ws n) l) x = hit x (p, rounded ws n) + cnt l x) ∧
    same_but (λ x, p <= x < p + rounded ws n ∨ 0 < cnt l x) (m_mem σ) (m_mem σ').
Proof.
  intros Hw En Hn Ht Hp Hpa Hpt Hd Hb. destruct (rounded_spec ws Hw n Hn Ht) as [Hr Hra].
  destruct (pmm_free_spec ws Hw σ l p n) as (σ' & E & En' & _ & S & _); try done.
  exists σ'. split_and!; try done.
  destruct (insert_hole_ok _ 0 p (rounded ws n) l (enc_gaps _ _ _ En)) as (_ & _ & C); try done. lia.
Qed.

Definition one_block : pmm :=
  match pmm_alloc 8 100 (boot_pmm 4096 8192) with Ok (_, σ) => σ | Err _ => pmm0 end.

Lemma one_block_encodes : encodes 8 one_block [(4208, 8080)].
Proof.
  split; [|by vm_compute|by vm_compute].
  split; [by vm_compute|]. split; [by vm_compute|by vm_compute].
Qed.

Lemma pmm_free_correct_witness :
  ∃ σ', pmm_free 8 4096 100 one_block = Ok (tt, σ') ∧ encodes 8 σ' [(4096, 8192)].
Proof.
  destruct (pmm_free_correct 8 one_block [(4208, 8080)] 4096 100 wide8 one_block_encodes)
    as (σ' & E & En & _).
  - lia.
  - by vm_compute.
  - lia.
  - by vm_compute.
  - by vm_compute.
  - change (rounded 8 100) with 112. intros x Hx. rewrite cnt_cons, hit_0 by lia. done.
  - by vm_compute.
  - exists σ'. split; [exact E|exact En].
Defined.

(** C19: allocating and giving back leaves no trace in the list of holes: no amount of it
    makes the list longer. *)
Theorem alloc_free_restores ws σ l n b σ1 :
  wide ws → encodes ws σ l → 0 < n → n + (ALIGN - 1) < 2 ^ (8 * ws) →
  pmm_alloc ws n σ = Ok (b, σ1) → b ≠ 0 →
  ∃ σ2, pmm_free ws b n σ1 = Ok (tt, σ2) ∧ encodes ws σ2 l.
Proof.
  intros Hw En Hn Ht E Hb. destruct (rounded_spec ws Hw n Hn Ht) as [Hr Hra].
  pose proof (pmm_alloc_spec ws Hw σ l n En Hn Ht) as H.
  pose proof (take_hole_ok _ 0 (rounded ws n) l (enc_gaps _ _ _ En) ltac:(lia) Hra) as T.
  destruct (take_hole _ l) as [[b' l']|] eqn:Et; [|congruence].
  destruct H as (σ' & E' & En' & Ea & S). rewrite E in E'. injection E' as <- <-.
  destruct T as (Hb0 & Hba & Hbt & G' & HB & C). pose proof (enc_bytes _ _ _ En).
  destruct (pmm_free_spec ws Hw σ1 l' b n) as (σ2 & E2 & En2 & _); try done; [| |].
  - intros x Hx. pose proof (C x) as Cx. rewrite hit_1 in Cx by done.
    pose proof (cnt_le_1 _ _ _ x (enc_gaps _ _ _ En)). pose proof (cnt_nonneg l' x). lia.
  - lia.
  - exists σ2. split; [done|]. by rewrite (take_hole_insert ws 0 _ l b l' (enc_gaps _ _ _ En)) in En2 by (done || lia).
Qed.

Lemma alloc_free_restores_witness :
  ∃ σ1 σ2, pmm_alloc 8 100 (boot_pmm 4096 8192) = Ok (4096, σ1) ∧
    pmm_free 8 4096 100 σ1 = Ok (tt, σ2) ∧ encodes 8 σ2 [(4096, 8192)].
Proof.
  destruct (returns_Some (pmm_alloc 8 100 (boot_pmm 4096 8192)) 4096) as (σ1 & E); [by vm_compute|].
  destruct (alloc_free_restores 8 _ [(4096, 8192)] 100 4096 σ1 wide8 demo_encodes) as (σ2 & E2 & En);
    [lia|by vm_compute|exact E|done|].
  exists σ1, σ2. split; [exact E|]. split; [exact E2|exact En].
Defined.

(** * malloc *)

Lemma boot_heap_ok : heap_ok 8 [(4096, 8192)] (boot_heap 4096 8192) [].
Proof.
  exists [(4096, 8192)].
  apply (mkHeapAt 8 [(4096, 8192)] (boot_heap 4096 8192) [(4096, 8192)] []).
  - exact demo_encodes.
  - intros x. unfold cnt at 2, zsum. simpl. lia.
  - intros x. rewrite cnt_cons. unfold cnt, zsum. simpl. pose proof (hit_range x (4096, 8192)). lia.
  - by vm_compute.
  - by vm_compute.
  - apply Forall_nil_2.
  - by vm_compute.
  - by vm_compute.
  - by vm_compute.
Qed.

(** [malloc] hands out memory nobody else has: it always returns, a null answer
    changes nothing, and any other is a block whose bytes are in no other block in use,
    with the header, the counters and the tiling of the arena intact and not a byte of
    another block touched.  The bound is the one the code does not check: a size within
    a header and an alignment of the top of the address space. *)
Theorem malloc_correct ws R σ L n :
  wide ws → heap_ok ws R σ L → 0 <= n → n + hdr ws + (ALIGN - 1) < 2 ^ (8 * ws) →
  ∃ p σ', malloc ws n σ = Ok (p, σ') ∧ (∀ x, 0 < cnt L x → mem σ' x = mem σ x) ∧
    (p = 0 ∧ σ' = σ ∨
     p ≠ 0 ∧ heap_ok ws R σ' ((p, n) :: L) ∧ ∀ x, p <= x < p + n → cnt L x = 0).
Proof.
  intros Hw H Hn Ht. destruct (malloc_spec ws Hw R σ L n H Hn Ht) as (p & σ' & E & K & HR).
  exists p, σ'. split; [done|].
  split; [exact (payload_keep ws Hw _ _ _ _ (heap_live ws _ _ _ H) K)|].
  destruct HR as [HR|[Hp HO]]; [by left|right]. split; [destruct Hw; unfold hdr in *; lia|]. split; [done|].
  intros x Hx. pose proof (payload_once ws Hw _ _ _ x HO) as O. rewrite cnt_cons, hit_1 in O by done.
  pose proof (cnt_nonneg L x). lia.
Qed.

Lemma malloc_correct_witness :
  ∃ σ', malloc 8 100 (boot_heap 4096 8192) = Ok (4112, σ') ∧ heap_ok 8 [(4096, 8192)] σ' [(4112, 100)].
Proof.
  destruct (malloc_correct 8 _ _ [] 100 wide8 boot_heap_ok) as (p & σ' & E & _ & HR); [lia|by vm_compute|].
  destruct (returns_Some (malloc 8 100 (boot_heap 4096 8192)) 4112) as (s & E'); [by vm_compute|].
  rewrite E in E'. injection E' as -> _. exists σ'. split; [exact E|].
  destruct HR as [[HR _]|(_ & H & _)]; [discriminate HR|exact H].
Defined.

(** [free] of a block in use always succeeds, gives back exactly its bytes, and
    touches no other block; a second free of the same pointer is caught by the mark
    and aborts. *)
Theorem free_correct ws R σ L p n :
  wide ws → heap_ok ws R σ ((p, n) :: L) →
  ∃ σ', free ws p σ = Ok (tt, σ') ∧ heap_ok ws R σ' L ∧
    (∀ x, 0 < cnt L x → mem σ' x = mem σ x) ∧ free ws p σ' = Err AbortHeapMagic.
Proof.
  intros Hw H. destruct (free_spec ws Hw R σ L p n H) as (σ' & E & H' & K & _).
  pose proof (heap_live ws _ _ _ H) as HL. apply Forall_cons in HL as [_ HL].
  exists σ'. split; [done|]. split; [done|].
  split; [exact (payload_keep ws Hw _ _ _ _ HL K)|by eapply free_twice].
Qed.

Definition one_malloc : hst :=
  match malloc 8 100 (boot_heap 4096 8192) with Ok (_, σ) => σ | Err _ => boot_heap 4096 8192 end.

Lemma one_malloc_ok : heap_ok 8 [(4096, 8192)] one_malloc [(4112, 100)].
Proof.
  destruct (malloc_spec 8 wide8 _ _ [] 100 boot_heap_ok) as (p & σ' & E & _ & HR); [lia|by vm_compute|].
  destruct (returns_Some (malloc 8 100 (boot_heap 4096 8192)) 4112) as (s & E'); [by vm_compute|].
  unfold one_malloc. rewrite E. rewrite E in E'. injection E' as -> _.
  destruct HR as [[HR _]|(_ & H)]; [discriminate HR|exact H].
Qed.

Lemma free_correct_witness :
  ∃ σ', free 8 4112 one_malloc = Ok (tt, σ') ∧ heap_ok 8 [(4096, 8192)] σ' [] ∧
    free 8 4112 σ' = Err AbortHeapMagic.
Proof.
  destruct (free_correct 8 _ _ _ _ _ wide8 one_malloc_ok) as (σ' & E & H & _ & D).
  exists σ'. split; [exact E|]. split; [exact H|exact D].
Defined.

(** C20: [realloc] keeps the bytes: the block it answers begins with the bytes of the old
    one, as many as both have, the old block is given back and no other is touched; a
    null answer leaves the old block as it was. *)
Theorem realloc_correct ws R σ L p k n :
  wide ws → heap_ok ws R σ ((p, k) :: L) → 0 < n → n + hdr ws + (ALIGN - 1) < 2 ^ (8 * ws) →
  ∃ q σ', realloc ws p n σ = Ok (q, σ') ∧ (∀ x, 0 < cnt L x → mem σ' x = mem σ x) ∧
    (q = 0 ∧ σ' = σ ∨
     q ≠ 0 ∧ heap_ok ws R σ' ((q, n) :: L) ∧
     ∀ i, 0 <= i < Z.min k n → mem σ' (q + i) = mem σ (p + i)).
Proof.
  intros Hw H Hn Ht. destruct (realloc_spec ws Hw R σ L p k n H Hn Ht) as (q & σ' & E & K & HR).
  exists q, σ'. split; [done|]. split; [done|]. destruct HR as [HR|[Hq HR]]; [by left|right].
  split; [destruct Hw; unfold hdr in *; lia|done].
Qed.

Lemma realloc_correct_witness :
  ∃ q σ', realloc 8 4112 200 one_malloc = Ok (q, σ') ∧ q ≠ 0 ∧
    heap_ok 8 [(4096, 8192)] σ' [(q, 200)].
Proof.
  destruct (realloc_correct 8 _ _ [] 4112 100 200 wide8 one_malloc_ok) as (q & σ' & E & _ & HR);
    [lia|by vm_compute|].
  destruct (returns_Some (realloc 8 4112 200 one_malloc) 4240) as (s & E'); [by vm_compute|].
  rewrite E in E'. injection E' as -> _.
  exists 4240, σ'. split; [exact E|]. split; [done|]. destruct HR as [[HR _]|(_ & H & _)]; [discriminate HR|exact H].
Defined.

(** * Any use of the heap *)

(** The heap in use, and its history: how many blocks were ever made, and the most that was
    ever held at once, headers included. *)
Record heap_use : Type := mkUse {
  u_heap : hst;
  u_live : list hole;
  u_made : Z;
  u_high : Z
}.
Definition held (ws : Z) (L : list hole) : Z := zsum (λ b, snd b + hdr ws) L.

(** What the kernel does with the heap: each block in use was allocated and not freed
    since, a holder writes to its own bytes, and no request comes within a header and a cell of
    the top of the address space.  realloc holds both blocks while it copies. *)
Inductive heap_step (ws : Z) : heap_use → heap_use → Prop :=
| HMalloc σ σ' L n p t m :
    0 <= n → n + hdr ws + (ALIGN - 1) < 2 ^ (8 * ws) → malloc ws n σ = Ok (p, σ') → p ≠ 0 →
    heap_step ws (mkUse σ L t m) (mkUse σ' ((p, n) :: L) (t + 1) (Z.max m (held ws ((p, n) :: L))))
| HFail σ σ' L n t m :
    0 <= n → n + hdr ws + (ALIGN - 1) < 2 ^ (8 * ws) → malloc ws n σ = Ok (0, σ') →
    heap_step ws (mkUse σ L t m) (mkUse σ' L t m)
| HFree σ σ' L L' p n t m :
    L ≡ₚ (p, n) :: L' → free ws p σ = Ok (tt, σ') → heap_step ws (mkUse σ L t m) (mkUse σ' L' t m)
| HRealloc σ σ' L L' p k q n t m :
    L ≡ₚ (p, k) :: L' → 0 < n → n + hdr ws + (ALIGN - 1) < 2 ^ (8 * ws) →
    realloc ws p n σ = Ok (q, σ') → q ≠ 0 →
    heap_step ws (mkUse σ L t m) (mkUse σ' ((q, n) :: L') (t + 1) (Z.max m (held ws ((q, n) :: L))))
| HReallocFail σ σ' L L' p k n t m :
    L ≡ₚ (p, k) :: L' → 0 < n → n + hdr ws + (ALIGN - 1) < 2 ^ (8 * ws) →
    realloc ws p n σ = Ok (0, σ') → heap_step ws (mkUse σ L t m) (mkUse σ' L t m)
| HWrite σ L m' t m :
    (∀ x, cnt L x = 0 → m' x = mem σ x) → heap_step ws (mkUse σ L t m) (mkUse (with_mem m' σ) L t m).

Lemma held_perm ws L L' : L ≡ₚ L' → held ws L = held ws L'.
Proof. unfold held, zsum. induction 1; simpl in *; lia. Qed.

(** What each call does to the two counters that only grow. *)
Lemma malloc_counts ws n σ p σ' : malloc ws n σ = Ok (p, σ') → p ≠ 0 →
  total_blocks σ' = sz ws (total_blocks σ + 1) ∧ peak_bytes σ' = Z.max (peak_bytes σ) (live_bytes σ').
Proof.
  unfold malloc, lift_p, note_peak, sto, st_modify, st_bind, st_ret.
  destruct (pmm_alloc _ _ _) as [[h q]|]; [|done].
  destruct (h =? 0); [by intros [= <- _]|]. intros [= <- <-] _. cbn. split; [done|].
  assert (sz ws (live_bytes σ + sz ws (n + hdr ws)) = sz ws (live_bytes σ + n + hdr ws)) as ->.
  { unfold sz, wrap. rewrite Zplus_mod_idemp_r. f_equal. lia. }
  destruct (Z.ltb_spec (peak_bytes σ) (sz ws (live_bytes σ + n + hdr ws))); lia.
Qed.
Lemma free_counts ws p σ σ' : free ws p σ = Ok (tt, σ') →
  total_blocks σ' = total_blocks σ ∧ peak_bytes σ' = peak_bytes σ.
Proof.
  unfold free, check_magic, lift_p, ld, sto, st_modify, st_bind, st_ret, st_fail.
  destruct (p =? 0); [by intros [= <-]|]. destruct (negb _); [done|]. cbv beta iota zeta.
  destruct (Pmm.pmm_free _ _ _ _) as [[[] q]|]; [|done]. by intros [= <-].
Qed.

Section counts.
Context (ws : Z) (Hw : wide ws) (R : list hole).

Lemma malloc_made σ L n p σ' : heap_ok ws R σ L → 0 <= n → n + hdr ws + (ALIGN - 1) < 2 ^ (8 * ws) →
  malloc ws n σ = Ok (p, σ') → p ≠ 0 →
  heap_ok ws R σ' ((p, n) :: L) ∧ total_blocks σ' = sz ws (total_blocks σ + 1) ∧
  peak_bytes σ' = Z.max (peak_bytes σ) (held ws ((p, n) :: L)).
Proof.
  intros H Hn Ht E Hp. destruct (malloc_counts _ _ _ _ _ E Hp) as [C1 C2].
  destruct (malloc_spec ws Hw R σ L n H Hn Ht) as (p' & s & E' & _ & HR). rewrite E in E'.
  injection E' as <- <-. destruct HR as [[? _]|[_ H']]; [done|]. split; [done|]. split; [done|].
  destruct H' as [l H']. by rewrite C2, (ha_count _ _ _ _ _ H').
Qed.

Lemma realloc_made σ L p k q n σ' : heap_ok ws R σ ((p, k) :: L) → 0 < n →
  n + hdr ws + (ALIGN - 1) < 2 ^ (8 * ws) → realloc ws p n σ = Ok (q, σ') → q ≠ 0 →
  heap_ok ws R σ' ((q, n) :: L) ∧ total_blocks σ' = sz ws (total_blocks σ + 1) ∧
  peak_bytes σ' = Z.max (peak_bytes σ) (held ws ((q, n) :: (p, k) :: L)).
Proof.
  intros H Hn Ht E Hq. destruct (realloc_spec ws Hw R σ L p k n H Hn Ht) as (q' & s & E' & _ & HR).
  rewrite E in E'. injection E' as <- <-. destruct HR as [[? _]|(_ & H' & _)]; [done|]. split; [done|].
  assert (hdr ws < p) as Hp by by destruct (heap_in_use ws R σ _ p k H ltac:(left)) as (_ & _ & ? & _).
  revert E. unfold realloc. rewrite (proj2 (Z.eqb_neq n 0)) by lia.
  rewrite (proj2 (Z.eqb_neq p 0)) by (destruct Hw; unfold hdr in *; lia). cbv zeta. unfold st_bind at 1.
  rewrite (check_magic_run ws Hw σ p k) by (eapply heap_in_use; [done|left]). unfold st_bind at 1.
  destruct (malloc ws n σ) as [[q1 σ1]|] eqn:E1; [|done]. destruct (Z.eqb_spec q1 0) as [->|Hq1].
  { by intros [= <- _]. }
  destruct (malloc_made σ _ n q1 σ1 H ltac:(lia) Ht E1 Hq1) as (_ & C1 & C2).
  unfold lift_p at 1, ld, st_bind, st_ret. rewrite set_mem_run. cbn.
  destruct (free ws p _) as [[[] σ2]|] eqn:E2; [|done]. intros [= -> ->].
  destruct (free_counts _ _ _ _ E2) as [-> ->]. done.
Qed.
End counts.

(** The history a heap keeps in its counters: [t0] blocks had been made before. *)
Definition heap_told (ws : Z) (R : list hole) (t0 : Z) (u : heap_use) : Prop :=
  heap_ok ws R (u_heap u) (u_live u) ∧ total_blocks (u_heap u) = sz ws (t0 + u_made u) ∧
  peak_bytes (u_heap u) = u_high u.

Lemma sz_succ ws a : sz ws (sz ws a + 1) = sz ws (a + 1).
Proof. unfold sz, wrap. by rewrite Zplus_mod_idemp_l. Qed.

Lemma heap_step_told ws R t0 u u' : wide ws → heap_step ws u u' → heap_told ws R t0 u → heap_told ws R t0 u'.
Proof.
  intros Hw Hs. unfold heap_told.
  destruct Hs as [σ σ' L n p t m Hn Ht E Hp|σ σ' L n t m Hn Ht E|σ σ' L L' p n t m HP E
                 |σ σ' L L' p k q n t m HP Hn Ht E Hq|σ σ' L L' p k n t m HP Hn Ht E|σ L m' t m Hm];
    simpl; intros (H & T & P).
  - destruct (malloc_made ws Hw R σ L n p σ' H Hn Ht E Hp) as (H' & -> & ->). rewrite T, sz_succ, P.
    split; [done|]. split; [f_equal; lia|done].
  - destruct (malloc_spec ws Hw R σ L n H Hn Ht) as (p' & s & E' & _ & HR). rewrite E in E'.
    injection E' as <- <-. destruct HR as [[_ ->]|[Hp _]]; [done|]. destruct Hw; unfold hdr in *; lia.
  - apply (heap_ok_perm ws _ _ _ _ HP) in H. destruct (free_spec ws Hw R σ L' p n H) as (s & E' & H' & _).
    rewrite E in E'. injection E' as <-. destruct (free_counts _ _ _ _ E) as [-> ->]. done.
  - apply (heap_ok_perm ws _ _ _ _ HP) in H.
    destruct (realloc_made ws Hw R σ L' p k q n σ' H Hn Ht E Hq) as (H' & -> & ->). rewrite T, sz_succ, P.
    split; [done|]. split; [f_equal; lia|]. f_equal. apply held_perm. by rewrite HP.
  - apply (heap_ok_perm ws _ _ _ _ HP) in H as HQ.
    destruct (realloc_spec ws Hw R σ L' p k n HQ Hn Ht) as (q' & s & E' & _ & HR). rewrite E in E'.
    injection E' as <- <-. destruct HR as [[_ ->]|[Hp _]]; [done|]. destruct Hw; unfold hdr in *; lia.
  - split; [by apply heap_ok_write|]. done.
Qed.

(** C18: take any sequence of malloc, free, realloc and writes to blocks in use, in which
    nothing is freed twice and every request leaves a header and a cell below the top of
    the address space.  Blocks in use never overlap, every byte of the arena is in one hole
    or behind one block, and the four counters kheap_stats reports are exact: the blocks
    and bytes in use, the most bytes ever in use at once (realloc holds both its blocks
    while it copies), and the blocks ever made, modulo the word. *)
Theorem heap_reachable_safe ws R σ L u :
  wide ws → heap_ok ws R σ L → sz ws (total_blocks σ) = total_blocks σ →
  rtc (heap_step ws) (mkUse σ L 0 (peak_bytes σ)) u →
  (∀ x, cnt (u_live u) x <= 1) ∧
  returns (kheap_stats (u_heap u)) =
    Some (held ws (u_live u), u_high u, Z.of_nat (length (u_live u)), sz ws (total_blocks σ + u_made u)) ∧
  held ws (u_live u) <= u_high u ∧
  ∃ l, encodes ws (h_pmm (u_heap u)) l ∧ ∀ x, cnt l x + cnt (List.map (blk ws) (u_live u)) x = cnt R x.
Proof.
  intros Hw H HT Hr. assert (heap_told ws R (total_blocks σ) u) as (H' & T & P).
  { assert (heap_told ws R (total_blocks σ) (mkUse σ L 0 (peak_bytes σ))) as H0.
    { split; [done|]. split; [simpl; by rewrite Z.add_0_r|done]. }
    clear HT H. revert H0. induction Hr as [|s1 s2 s3 Hs _ IH]; [done|].
    intros H0. apply IH. by eapply heap_step_told. }
  split; [intros x; by eapply payload_once|]. destruct H' as [l H'].
  unfold kheap_stats, returns, st_bind, st_get, st_ret.
  rewrite T, (ha_count _ _ _ _ _ H'), (ha_blocks _ _ _ _ _ H'), P. split; [done|]. split.
  - rewrite <- P. unfold held. rewrite <- (ha_count _ _ _ _ _ H'). apply (ha_peak _ _ _ _ _ H').
  - exists l. split; [apply (ha_enc _ _ _ _ _ H')|apply (ha_tile _ _ _ _ _ H')].
Qed.

(** A block made, grown and freed: nothing is in use, 332 bytes were at the worst, and two
    blocks were made. *)
Definition then_run {A} (m : HM A) (σ : hst) : hst := match m σ with Ok (_, σ') => σ' | Err _ => σ end.
Definition grown : hst := then_run (realloc 8 4112 200) one_malloc.
Definition emptied : hst := then_run (free 8 4240) grown.

Lemma then_run_ok {A} (m : HM A) σ a : returns (m σ) = Some a → m σ = Ok (a, then_run m σ).
Proof. unfold then_run. intros (s & E)%returns_Some. by rewrite E. Qed.

Lemma grown_run : realloc 8 4112 200 one_malloc = Ok (4240, grown).
Proof. unfold grown. apply (then_run_ok (realloc 8 4112 200)). by vm_compute. Qed.
Lemma emptied_run : free 8 4240 grown = Ok (tt, emptied).
Proof. unfold emptied. apply (then_run_ok (free 8 4240)). by vm_compute. Qed.
Lemma one_malloc_run : malloc 8 100 (boot_heap 4096 8192) = Ok (4112, one_malloc).
Proof.
  destruct (returns_Some (malloc 8 100 (boot_heap 4096 8192)) 4112) as (s & E); [by vm_compute|].
  unfold one_malloc. by rewrite E.
Qed.

Lemma heap_reachable_safe_witness : returns (kheap_stats emptied) = Some (0, 332, 0, 2).
Proof.
  assert (rtc (heap_step 8) (mkUse (boot_heap 4096 8192) [] 0 0) (mkUse emptied [] 2 332)) as Hr.
  { pose proof (HMalloc 8 _ _ [] 100 4112 0 0 ltac:(lia) ltac:(by vm_compute) one_malloc_run ltac:(done)) as S1.
    pose proof (HRealloc 8 _ _ [(4112, 100)] [] 4112 100 4240 200 1 116 (Permutation_refl _) ltac:(lia)
                  ltac:(by vm_compute) grown_run ltac:(done)) as S2.
    pose proof (HFree 8 _ _ _ [] 4240 200 2 332 (Permutation_refl _) emptied_run) as S3.
    eapply rtc_l; [exact S1|]. eapply rtc_l; [exact S2|]. apply rtc_once. exact S3. }
  destruct (heap_reachable_safe 8 _ (boot_heap 4096 8192) [] _ wide8 boot_heap_ok eq_refl Hr) as (_ & H & _).
  exact H.
Defined.

(** A request within a header of the top of the address space wraps: malloc answers a
    block, of one cell, for all but one byte of it. *)
Theorem malloc_wraps :
  returns (malloc 8 (2 ^ 64 - 1) (boot_heap 4096 8192)) = Some 4112 ∧
  match malloc 8 (2 ^ 64 - 1) (boot_heap 4096 8192) with
  | Ok (_, σ) => returns (platform_meminfo 8 σ) = Some (8192, 8176, 8176)
  | Err _ => False
  end.
Proof. by vm_compute. Qed.
