(* ===== verification/KLog.v ===== *)
(** The kernel's transcript: the log ring of src/src/kernel.c and the calls that read
    it (sys.dmesg and sys.loginfo in src/src/sysapi.c).

    The ring is a list of bytes; a copy past its end is a fault.  What the ring means is
    [keeps_tail]: the last bytes of everything ever logged, each at its sequence number
    modulo the size. *)

From S2P Require Import Prelude.
From stdpp Require Import prelude list.
From Stdlib Require Import ZArith Lia.
Open Scope Z_scope.

Definition LOGRING : Z := 32 * 1024.
Definition LOGEARLY : Z := 1024.
Definition LOGCHUNK : Z := 2048.

(** The file-scope variables; [logsize] is the length of the ring. *)
Record klog : Type := mkKlog {
  logring : list Z;
  logsize : Z;
  logseq : Z;
  loglost : Z
}.

Definition klog_boot : klog := mkKlog (replicate (Z.to_nat LOGEARLY) 0) LOGEARLY 0 0.

Abbreviation LGM := (ST klog).

Definition logoldest (k : klog) : Z :=
  if logsize k <? logseq k then logseq k - logsize k else 0.

(** memcpy(logring + w, s, length s) *)
Definition ring_write (w : Z) (s : list Z) : LGM unit := λ k,
  if Z.of_nat (length (logring k)) <? w + Z.of_nat (length s) then Err OutOfBounds
  else Ok (tt, mkKlog (take (Z.to_nat w) (logring k) ++ s ++
                       drop (Z.to_nat w + length s) (logring k))
                 (logsize k) (logseq k) (loglost k)).

(** [n] bytes of the ring from [o]. *)
Definition ring_read (o n : Z) : LGM (list Z) := λ k,
  if Z.of_nat (length (logring k)) <? o + n then Err OutOfBounds
  else Ok (take (Z.to_nat n) (drop (Z.to_nat o) (logring k)), k).

Definition logput (s : list Z) : LGM unit :=
  let! k := st_get in
  if bool_decide (s = []) then st_ret tt else
  let s := if logsize k <? Z.of_nat (length s)
           then drop (length s - Z.to_nat (logsize k)) s else s in
  let n := Z.of_nat (length s) in
  let before := logoldest k in
  let w := logseq k mod logsize k in
  let first := if logsize k - w <? n then logsize k - w else n in
  ring_write w (take (Z.to_nat first) s) ;;;
  st_when (first <? n) (ring_write 0 (drop (Z.to_nat first) s)) ;;;
  st_modify (λ k, mkKlog (logring k) (logsize k) (u64 (logseq k + n)) (loglost k)) ;;;
  st_modify (λ k, mkKlog (logring k) (logsize k) (logseq k)
                    (u64 (loglost k + (logoldest k - before)))).

(** The loop of loginit: bytes [i] up to [logseq] copied into the new ring. *)
Fixpoint log_move (n : nat) (i : Z) (p : list Z) (k : klog) : result (list Z) :=
  match n with
  | O => Ok p
  | S n =>
      match logring k !! Z.to_nat (i mod logsize k) with
      | None => Err OutOfBounds
      | Some b => log_move n (i + 1) (<[Z.to_nat (i mod LOGRING):=b]> p) k
      end
  end.

(** [fresh] is what platform_chunk_alloc(LOGRING) answered, with the bytes it held. *)
Definition loginit (fresh : option (list Z)) : LGM unit :=
  match fresh with
  | None => st_ret tt
  | Some p => λ k,
      match log_move (Z.to_nat (logseq k - logoldest k)) (logoldest k) p k with
      | Err e => Err e
      | Ok p => Ok (tt, mkKlog p LOGRING (logseq k) (loglost k))
      end
  end.

(** (the bytes, where to read next, how many were overwritten first) *)
Definition kernel_dmesg (from max : Z) : LGM (list Z * Z * Z) :=
  let max := if LOGCHUNK <? max then LOGCHUNK else max in
  let! k := st_get in
  let oldest := logoldest k in
  let '(start, dropped) :=
    if (from <? 0) || (from <? oldest) then
      (oldest, if 0 <=? from then oldest - from else 0)
    else if logseq k <? from then (logseq k, 0)
    else (from, 0) in
  let n := logseq k - start in
  let n := if max <? n then max else n in
  let! out :=
    (if n =? 0 then st_ret [] else
     let o := start mod logsize k in
     let first := if logsize k - o <? n then logsize k - o else n in
     let! a := ring_read o first in
     if first <? n then let! b := ring_read 0 (n - first) in st_ret (a ++ b)
     else st_ret a) in
  st_ret (out, start + n, dropped).

(** (seq, size, oldest, lost) *)
Definition kernel_loginfo : LGM (Z * Z * Z * Z) :=
  let! k := st_get in st_ret (logseq k, logsize k, logoldest k, loglost k).

Definition api_dmesg (from max : Z) : LGM (list Z * Z * Z) :=
  kernel_dmesg from (if (max <=? 0) || (LOGCHUNK <? max) then LOGCHUNK else max).

(** * What the ring holds *)

(** [hist] is everything ever logged.  The ring holds its tail. *)
Record keeps_tail (hist : list Z) (k : klog) : Prop := mkKeepsTail {
  kt_len : Z.of_nat (length (logring k)) = logsize k;
  kt_pos : 0 < logsize k;
  kt_seq : logseq k = Z.of_nat (length hist);
  kt_lost : loglost k = logoldest k;
  kt_ring : ∀ i, logoldest k <= i < logseq k →
    logring k !! Z.to_nat (i mod logsize k) = hist !! Z.to_nat i
}.

Lemma klog_boot_ok : keeps_tail [] klog_boot.
Proof. split; try done. intros i Hi. unfold logoldest in Hi. simpl in Hi. lia. Qed.

Lemma ring_write_ok w s k : 0 <= w → w + Z.of_nat (length s) <= Z.of_nat (length (logring k)) →
  ∃ r, ring_write w s k = Ok (tt, mkKlog r (logsize k) (logseq k) (loglost k)) ∧
    length r = length (logring k) ∧
    ∀ j, 0 <= j → r !! Z.to_nat j =
      if (w <=? j) && (j <? w + Z.of_nat (length s)) then s !! Z.to_nat (j - w) else logring k !! Z.to_nat j.
Proof.
  intros Hw Hl. unfold ring_write. rewrite (proj2 (Z.ltb_ge _ _)) by lia. eexists. split; [done|].
  assert (length (take (Z.to_nat w) (logring k)) = Z.to_nat w) as Ht by (rewrite length_take; lia).
  split; [rewrite !length_app, length_drop, Ht; lia|].
  intros j Hj. destruct (Z.leb_spec w j) as [Hwj|Hwj]; simpl.
  - rewrite lookup_app_r, Ht by lia. destruct (Z.ltb_spec j (w + Z.of_nat (length s))) as [Hjs|Hjs].
    + rewrite lookup_app_l by lia. f_equal. lia.
    + rewrite lookup_app_r by lia. rewrite lookup_drop. f_equal. lia.
  - rewrite lookup_app_l by (rewrite Ht; lia). rewrite lookup_take_lt by lia. done.
Qed.

Lemma ring_read_ok o n k : 0 <= o → 0 <= n → o + n <= Z.of_nat (length (logring k)) →
  ring_read o n k = Ok (take (Z.to_nat n) (drop (Z.to_nat o) (logring k)), k).
Proof. intros. unfold ring_read. by rewrite (proj2 (Z.ltb_ge _ _)) by lia. Qed.

(** A step of at most one turn round a ring of [m]. *)
Lemma mod_turn a t m : 0 < m → 0 <= a mod m + t < 2 * m →
  (a + t) mod m = if a mod m + t <? m then a mod m + t else a mod m + t - m.
Proof.
  intros Hm Ht. rewrite (Z.div_mod a m) at 1 by lia.
  replace (m * (a / m) + a mod m + t) with (a mod m + t + (a / m) * m) by lia. rewrite Z.mod_add by lia.
  destruct (Z.ltb_spec (a mod m + t) m); [by apply Z.mod_small; lia|].
  replace (a mod m + t) with (a mod m + t - m + 1 * m) by lia. rewrite Z.mod_add, Z.mod_small by lia. lia.
Qed.

Lemma mod_back a u m : 0 < m → 0 < u <= m →
  (a - u) mod m = if u <=? a mod m then a mod m - u else a mod m - u + m.
Proof.
  intros Hm Hu. pose proof (Z.mod_pos_bound a m Hm).
  replace ((a - u) mod m) with ((a + (m - u)) mod m).
  - rewrite mod_turn by lia. destruct (Z.ltb_spec (a mod m + (m - u)) m), (Z.leb_spec u (a mod m)); lia.
  - replace (a + (m - u)) with (a - u + 1 * m) by lia. by rewrite Z.mod_add by lia.
Qed.

(** The two copies of logput: the bytes [s] land at the next positions of the ring, and
    the positions after them keep what they had. *)
Lemma log_copies k s :
  Z.of_nat (length (logring k)) = logsize k → 0 < Z.of_nat (length s) <= logsize k → 0 <= logseq k →
  let n := Z.of_nat (length s) in
  let w := logseq k mod logsize k in
  let first := if logsize k - w <? n then logsize k - w else n in
  ∃ r, (ring_write w (take (Z.to_nat first) s) ;;;
        st_when (first <? n) (ring_write 0 (drop (Z.to_nat first) s))) k
       = Ok (tt, mkKlog r (logsize k) (logseq k) (loglost k)) ∧
    length r = length (logring k) ∧
    (∀ t, 0 <= t < n → r !! Z.to_nat ((logseq k + t) mod logsize k) = s !! Z.to_nat t) ∧
    (∀ i, logseq k + n - logsize k <= i < logseq k →
       r !! Z.to_nat (i mod logsize k) = logring k !! Z.to_nat (i mod logsize k)).
Proof.
  intros Hl Hn Hs n w first. pose proof (Z.mod_pos_bound (logseq k) (logsize k) ltac:(lia)) as Hw. fold w in Hw.
  assert (0 < first <= n ∧ first <= logsize k - w ∧ (first < n → first = logsize k - w)) as Hf.
  { unfold first. destruct (Z.ltb_spec (logsize k - w) n); lia. }
  assert (Z.of_nat (length (take (Z.to_nat first) s)) = first) as Ht by (rewrite length_take; lia).
  destruct (ring_write_ok w (take (Z.to_nat first) s) k) as (r1 & E1 & L1 & R1); [lia|lia|].
  unfold st_bind. rewrite E1. rewrite Ht in R1.
  assert (∃ r, st_when (first <? n) (ring_write 0 (drop (Z.to_nat first) s))
                 (mkKlog r1 (logsize k) (logseq k) (loglost k))
               = Ok (tt, mkKlog r (logsize k) (logseq k) (loglost k)) ∧ length r = length r1 ∧
            ∀ j, 0 <= j → r !! Z.to_nat j =
              if j <? n - first then s !! Z.to_nat (first + j) else r1 !! Z.to_nat j) as (r & E & L & R).
  { destruct (Z.ltb_spec first n) as [Hlt|Hge].
    - destruct (ring_write_ok 0 (drop (Z.to_nat first) s) (mkKlog r1 (logsize k) (logseq k) (loglost k)))
        as (r & E & L & R); [lia|rewrite length_drop; simpl; lia|].
      exists r. split; [exact E|]. split; [exact L|]. intros j Hj. rewrite R by done.
      rewrite length_drop, (proj2 (Z.leb_le 0 j)) by lia. cbn [andb logring].
      replace (0 + Z.of_nat (length s - Z.to_nat first)) with (n - first) by lia.
      destruct (j <? n - first); [|done]. rewrite lookup_drop. f_equal. lia.
    - exists r1. split; [done|]. split; [done|]. intros j Hj.
      by rewrite (proj2 (Z.ltb_ge j (n - first))) by lia. }
  rewrite E. exists r. split; [done|]. split; [lia|]. split.
  - intros t Ht0. rewrite mod_turn by lia. fold w.
    destruct (Z.ltb_spec (w + t) (logsize k)) as [Hin|Hout].
    + rewrite R, (proj2 (Z.ltb_ge _ _)), R1 by lia.
      destruct (Z.ltb_spec (w + t) (w + first)) as [Hlt|]; [|lia].
      rewrite (proj2 (Z.leb_le _ _)) by lia. simpl. rewrite lookup_take_lt by lia. f_equal. lia.
    + rewrite R, (proj2 (Z.ltb_lt _ _)) by lia. f_equal. lia.
  - intros i Hi. replace i with (logseq k - (logseq k - i)) by lia. rewrite mod_back by lia. fold w.
    destruct (Z.leb_spec (logseq k - i) w) as [Hin|Hout].
    + rewrite R, (proj2 (Z.ltb_ge _ _)), R1, (proj2 (Z.leb_gt _ _)) by lia. done.
    + rewrite R, (proj2 (Z.ltb_ge _ _)), R1 by lia.
      rewrite (proj2 (Z.ltb_ge _ (w + first))) by lia. by rewrite andb_false_r.
Qed.

Lemma logoldest_range k : 0 <= logseq k → 0 < logsize k →
  0 <= logoldest k <= logseq k ∧ logseq k - logoldest k <= logsize k.
Proof. intros. unfold logoldest. destruct (Z.ltb_spec (logsize k) (logseq k)); lia. Qed.

(** What logput keeps of a line: all of it, or its end if it is longer than the ring. *)
Definition kept (size : Z) (s : list Z) : list Z := drop (length s - Z.to_nat size) s.

Lemma kept_length size s : 0 <= size → Z.of_nat (length (kept size s)) = Z.min size (Z.of_nat (length s)).
Proof. intros. unfold kept. rewrite length_drop. lia. Qed.

Lemma logput_spec hist k s : keeps_tail hist k →
  logseq k + Z.of_nat (length s) < 2 ^ 64 →
  ∃ k', logput s k = Ok (tt, k') ∧ keeps_tail (hist ++ kept (logsize k) s) k' ∧ logsize k' = logsize k.
Proof.
  intros [Hlen Hpos Hseq Hlost Hring] Hbig. unfold logput, st_bind at 1, st_get.
  case_bool_decide as Hs.
  { subst s. exists k. unfold kept. simpl. rewrite app_nil_r. by split_and!. }
  assert (0 < length s)%nat as Hs0 by (destruct s; [done|simpl; lia]).
  replace (if _ <? _ then drop (length s - Z.to_nat (logsize k)) s else s) with (kept (logsize k) s)
    by (unfold kept; destruct (Z.ltb_spec (logsize k) (Z.of_nat (length s))); [done|];
        by replace (length s - Z.to_nat (logsize k))%nat with 0%nat by lia).
  pose proof (kept_length (logsize k) s ltac:(lia)) as Hk. set (s' := kept (logsize k) s) in *. cbv zeta.
  destruct (log_copies k s' Hlen) as (r & E & L & R1 & R2); [lia..|].
  set (n := Z.of_nat (length s')) in *. unfold st_bind in E |- *.
  destruct (ring_write _ _ k) as [[[] k1]|e]; [|done]. rewrite E. unfold st_modify.
  eexists. split; [reflexivity|]. split; [|done].
  pose proof (logoldest_range k ltac:(lia) Hpos) as Ho. cbn [logring logsize logseq loglost].
  unfold u64. rewrite (wrap_small 64 (logseq k + n)) by lia.
  set (k2 := mkKlog r (logsize k) (logseq k + n) (loglost k)).
  assert (logoldest k <= logoldest k2 ∧ logoldest k2 <= logseq k + n) as Ho2.
  { unfold logoldest, k2. simpl. destruct (Z.ltb_spec (logsize k) (logseq k)),
      (Z.ltb_spec (logsize k) (logseq k + n)); lia. }
  split; simpl; try lia.
  - rewrite length_app. lia.
  - fold k2. rewrite wrap_small by lia. rewrite Hlost. unfold logoldest in *. simpl in *. lia.
  - unfold logoldest. simpl. fold (logoldest k2). intros i Hi.
    destruct (Z.lt_ge_cases i (logseq k)) as [Hlt|Hge].
    + rewrite R2, Hring, lookup_app_l by (unfold logoldest, k2 in *; simpl in *;
        destruct (Z.ltb_spec (logsize k) (logseq k + n)); lia). done.
    + replace i with (logseq k + (i - logseq k)) at 1 by lia. rewrite R1 by lia.
      rewrite lookup_app_r by lia. f_equal. lia.
Qed.

(** * Reading *)

Lemma slice_lookup (l : list Z) (a n j : Z) : 0 <= a → 0 <= j < n →
  take (Z.to_nat n) (drop (Z.to_nat a) l) !! Z.to_nat j = l !! Z.to_nat (a + j).
Proof. intros. rewrite lookup_take_lt, lookup_drop by lia. f_equal. lia. Qed.

Lemma slice_length (l : list Z) (a n : Z) : 0 <= a → 0 <= n → a + n <= Z.of_nat (length l) →
  Z.of_nat (length (take (Z.to_nat n) (drop (Z.to_nat a) l))) = n.
Proof. intros. rewrite length_take, length_drop. lia. Qed.

(** Reading [n] bytes of the transcript out of the ring, in one or two copies. *)
Lemma read_slice hist k start n :
  keeps_tail hist k → logoldest k <= start → 0 < n → start + n <= logseq k →
  let o := start mod logsize k in
  let first := if logsize k - o <? n then logsize k - o else n in
  (let! a := ring_read o first in
   if first <? n then let! b := ring_read 0 (n - first) in st_ret (a ++ b) else st_ret a) k
  = Ok (take (Z.to_nat n) (drop (Z.to_nat start) hist), k).
Proof.
  intros [Hlen Hpos Hseq _ Hring] Hst Hn Hend o first.
  pose proof (logoldest_range k ltac:(lia) Hpos) as Ho.
  pose proof (Z.mod_pos_bound start (logsize k) Hpos) as Hb. fold o in Hb.
  assert (0 < first <= n ∧ first <= logsize k - o ∧ (first < n → first = logsize k - o)) as Hf.
  { unfold first. destruct (Z.ltb_spec (logsize k - o) n); lia. }
  assert (∀ j, 0 <= j < n → hist !! Z.to_nat (start + j) =
            logring k !! Z.to_nat (if o + j <? logsize k then o + j else o + j - logsize k)) as Hpt.
  { intros j Hj. rewrite <-Hring by lia. rewrite mod_turn by (fold o; lia). done. }
  unfold st_bind. rewrite ring_read_ok by lia.
  assert (∀ l, Z.of_nat (length l) = n →
            (∀ j, 0 <= j < n → l !! Z.to_nat j = hist !! Z.to_nat (start + j)) →
            l = take (Z.to_nat n) (drop (Z.to_nat start) hist)) as Heq.
  { intros l Hl Hj. apply list_eq_same_length with (n := length l);
      [pose proof (slice_length hist start n); lia|done|].
    - intros i x y Hi Ex Ey. specialize (Hj (Z.of_nat i) ltac:(lia)).
      replace i with (Z.to_nat (Z.of_nat i)) in Ex, Ey by lia.
      rewrite slice_lookup in Ey by lia. rewrite Nat2Z.id in *. congruence. }
  destruct (Z.ltb_spec first n) as [Hlt|Hge].
  - rewrite ring_read_ok by lia. unfold st_ret. do 2 f_equal. apply Heq.
    + rewrite length_app, Nat2Z.inj_add. rewrite !slice_length by lia. lia.
    + intros j Hj. rewrite Hpt by done. pose proof (slice_length (logring k) o first) as Hla.
      destruct (Z.ltb_spec j first).
      * rewrite lookup_app_l by lia. rewrite slice_lookup by lia.
        by rewrite (proj2 (Z.ltb_lt _ _)) by lia.
      * rewrite lookup_app_r by lia.
        replace (Z.to_nat j - _)%nat with (Z.to_nat (j - first)) by lia.
        rewrite slice_lookup by lia. rewrite (proj2 (Z.ltb_ge _ _)) by lia. f_equal. lia.
  - unfold st_ret. do 2 f_equal. replace first with n by lia. apply Heq.
    + rewrite slice_length by lia. done.
    + intros j Hj. rewrite Hpt by done. rewrite slice_lookup by lia.
      by rewrite (proj2 (Z.ltb_lt _ _)) by lia.
Qed.

(** Where a read from [from] starts: the oldest byte kept, the end, or [from] itself. *)
Definition dmesg_start (k : klog) (from : Z) : Z :=
  if (from <? 0) || (from <? logoldest k) then logoldest k
  else if logseq k <? from then logseq k else from.

Lemma kernel_dmesg_spec hist k from max : keeps_tail hist k → 0 < max →
  let start := dmesg_start k from in
  let n := Z.min (Z.min max LOGCHUNK) (logseq k - start) in
  kernel_dmesg from max k =
  Ok ((take (Z.to_nat n) (drop (Z.to_nat start) hist), start + n,
       if (0 <=? from) && (from <? logoldest k) then logoldest k - from else 0), k).
Proof.
  intros H Hmax start n. pose proof (kt_seq _ _ H). pose proof (kt_pos _ _ H).
  pose proof (logoldest_range k ltac:(lia) ltac:(lia)) as Ho.
  unfold kernel_dmesg, st_bind at 1, st_get.
  replace (if (from <? 0) || (from <? logoldest k) then (logoldest k, if 0 <=? from then logoldest k - from else 0)
           else if logseq k <? from then (logseq k, 0) else (from, 0))
    with (start, if (0 <=? from) && (from <? logoldest k) then logoldest k - from else 0).
  2: { unfold start, dmesg_start. destruct (Z.ltb_spec from 0), (Z.ltb_spec from (logoldest k)),
         (Z.leb_spec 0 from), (Z.ltb_spec (logseq k) from); simpl; try lia; done. }
  assert (logoldest k <= start <= logseq k) as Hst.
  { unfold start, dmesg_start. destruct (Z.ltb_spec from 0), (Z.ltb_spec from (logoldest k)),
      (Z.ltb_spec (logseq k) from); simpl; lia. }
  replace (if (if LOGCHUNK <? max then LOGCHUNK else max) <? logseq k - start
           then if LOGCHUNK <? max then LOGCHUNK else max else logseq k - start) with n.
  2: { unfold n. destruct (Z.ltb_spec LOGCHUNK max); 
         [destruct (Z.ltb_spec LOGCHUNK (logseq k - start))|destruct (Z.ltb_spec max (logseq k - start))]; lia. }
  assert (0 <= n <= logseq k - start) as Hn by (unfold n, LOGCHUNK in *; lia).
  cbv zeta. unfold st_bind at 1. destruct (Z.eqb_spec n 0) as [->|Hn0]; [done|].
  pose proof (read_slice hist k start n H ltac:(lia) ltac:(lia) ltac:(lia)) as E. cbv zeta in E.
  by rewrite E.
Qed.

(** * Growing the ring *)

Lemma log_move_spec hist k : keeps_tail hist k → logseq k <= LOGRING →
  ∀ n i p, length p = Z.to_nat LOGRING → logoldest k <= i → i + Z.of_nat n <= logseq k →
  ∃ p', log_move n i p k = Ok p' ∧ length p' = length p ∧
    ∀ j, 0 <= j < LOGRING → p' !! Z.to_nat j =
      if (i <=? j) && (j <? i + Z.of_nat n) then hist !! Z.to_nat j else p !! Z.to_nat j.
Proof.
  intros [Hlen Hpos Hseq _ Hring] Hbig. pose proof (logoldest_range k ltac:(lia) Hpos) as Ho.
  unfold LOGRING in *. induction n as [|n IH]; intros i p Hp Hi Hend.
  { exists p. split_and!; [done..|]. intros j Hj. destruct (Z.leb_spec i j), (Z.ltb_spec j (i + Z.of_nat 0)); simpl; [lia|done..]. }
  cbn [log_move]. rewrite Hring by lia.
  destruct (lookup_lt_is_Some_2 hist (Z.to_nat i)) as [b Eb]; [lia|]. rewrite Eb.
  destruct (IH (i + 1) (<[Z.to_nat (i mod LOGRING):=b]> p)) as (p' & E & L & R);
    [by rewrite length_insert|lia|lia|].
  exists p'. split; [done|]. split; [by rewrite L, length_insert|]. intros j Hj. rewrite R by done.
  unfold LOGRING. rewrite (Z.mod_small i) by lia.
  destruct (Z.leb_spec (i + 1) j), (Z.ltb_spec j (i + 1 + Z.of_nat n)), (Z.leb_spec i j),
    (Z.ltb_spec j (i + Z.of_nat (S n))); simpl; try lia; try done.
  - rewrite list_lookup_insert_ne by lia. done.
  - replace j with i by lia. rewrite list_lookup_insert_eq by lia. done.
  - rewrite list_lookup_insert_ne by lia. done.
Qed.

Lemma loginit_spec hist k fresh : keeps_tail hist k → logseq k <= logsize k → logsize k <= LOGRING →
  length fresh = Z.to_nat LOGRING →
  ∃ k', loginit (Some fresh) k = Ok (tt, k') ∧ keeps_tail hist k' ∧ logsize k' = LOGRING.
Proof.
  intros H Hnew Hsz Hf. destruct H as [Hlen Hpos Hseq Hlost Hring] eqn:EH. clear EH.
  assert (logoldest k = 0) as Ho.
  { unfold logoldest. by rewrite (proj2 (Z.ltb_ge _ _)) by lia. }
  destruct (log_move_spec hist k H ltac:(lia) (Z.to_nat (logseq k - logoldest k)) (logoldest k) fresh Hf)
    as (p' & E & L & R); [lia..|].
  unfold loginit. rewrite E. eexists. split; [done|]. split; [|done].
  assert (logoldest (mkKlog p' LOGRING (logseq k) (loglost k)) = 0) as Ho'.
  { unfold logoldest. simpl. by rewrite (proj2 (Z.ltb_ge _ _)) by lia. }
  split; simpl; [rewrite L, Hf; unfold LOGRING; lia|done|done|by rewrite Ho', Hlost|].
  rewrite Ho'. intros i Hi. rewrite Z.mod_small by lia. rewrite R by lia.
  by rewrite (proj2 (Z.leb_le _ _)), (proj2 (Z.ltb_lt _ _)) by lia.
Qed.

(** C23: what is logged is what sys.dmesg reads.  Logging a line never writes outside the
    ring; afterwards the transcript is the old one and the line (its end, if the line is
    longer than the ring), and a read from any cursor answers a contiguous run of it:
    from the cursor, or from the oldest byte kept with exactly the count of bytes lost
    in between, at most LOGCHUNK of them, with the cursor to continue from. *)
Theorem log_reads_back hist k s from max :
  keeps_tail hist k → logseq k + Z.of_nat (length s) < 2 ^ 64 →
  ∃ k', logput s k = Ok (tt, k') ∧
    let hist' := hist ++ kept (logsize k) s in
    let start := dmesg_start k' from in
    let n := Z.min (if (max <=? 0) || (LOGCHUNK <? max) then LOGCHUNK else max) (logseq k' - start) in
    keeps_tail hist' k' ∧ logseq k' = Z.of_nat (length hist') ∧
    api_dmesg from max k' =
    Ok ((take (Z.to_nat n) (drop (Z.to_nat start) hist'), start + n,
         if (0 <=? from) && (from <? logoldest k') then logoldest k' - from else 0), k').
Proof.
  intros H Hbig. destruct (logput_spec hist k s H Hbig) as (k' & E & H' & _).
  exists k'. split; [done|]. cbv zeta. split; [done|]. split; [apply (kt_seq _ _ H')|].
  unfold api_dmesg. set (m := if (max <=? 0) || (LOGCHUNK <? max) then LOGCHUNK else max).
  assert (0 < m <= LOGCHUNK) as Hm.
  { unfold m, LOGCHUNK in *. destruct (Z.leb_spec max 0), (Z.ltb_spec 2048 max); simpl; lia. }
  pose proof (kernel_dmesg_spec _ k' from m H' ltac:(lia)) as D. cbv zeta in D.
  by replace (Z.min m LOGCHUNK) with m in D by lia.
Qed.

Lemma log_reads_back_witness :
  ∃ k', logput [104; 105] klog_boot = Ok (tt, k') ∧ api_dmesg (-1) 0 k' = Ok (([104; 105], 2, 0), k').
Proof.
  destruct (log_reads_back [] klog_boot [104; 105] (-1) 0 klog_boot_ok) as (k' & E & H).
  - by vm_compute.
  - cbv zeta in H. destruct H as (_ & Hs & D). exists k'. split; [exact E|].
    change (kept (logsize klog_boot) [104; 105]) with [104; 105] in *. simpl in Hs.
    assert (logoldest k' = 0) as Ho.
    { unfold logput in E. vm_compute in E. by injection E as <-. }
    unfold dmesg_start in D. simpl in D. rewrite Ho, Hs in D. exact D.
Defined.

(** The ring grows with nothing lost only while nothing has been lost: after more than
    LOGEARLY early bytes, the grown ring counts the bytes that were overwritten as kept,
    and sys.dmesg answers whatever the fresh memory held. *)
Theorem loginit_exposes :
  match (logput (replicate 1000 65) ;;; logput (replicate 1000 66) ;;;
         loginit (Some (replicate (Z.to_nat LOGRING) 7)) ;;; kernel_dmesg (-1) 3) klog_boot with
  | Ok (out, _) => out = ([7; 7; 7], 3, 0)
  | Err _ => False
  end.
Proof. by vm_compute. Qed.
