(* ===== verification/Crc.v ===== *)
(** The zmodem check sums and escaping: src/src/crc.c, with the encoder of
    src/lib/zmodem.lua that the C decodes.

    Strings are lists of bytes.  The tables are built by the loops of [mktabs]; the
    theorems relate them to the polynomials shifted a bit at a time, show the residues
    the receiver compares against, and that a data subpacket decodes to what was
    encoded. *)

From S2P Require Import Prelude.
From stdpp Require Import prelude list.
From Stdlib Require Import ZArith Lia.
Open Scope Z_scope.

(** * The code *)

Fixpoint iter (n : nat) (f : Z → Z) (c : Z) : Z :=
  match n with O => c | S n => iter n f (f c) end.

(** One turn of each inner loop of mktabs; unsigned int is 32 bits. *)
Definition step16 (c : Z) : Z :=
  if negb (Z.land c 0x8000 =? 0) then Z.lxor (u32 (Z.shiftl c 1)) 0x1021 else u32 (Z.shiftl c 1).
Definition step32 (c : Z) : Z :=
  if negb (Z.land c 1 =? 0) then Z.lxor (Z.shiftr c 1) 0xedb88320 else Z.shiftr c 1.

Definition crc16tab : list Z :=
  List.map (λ i, u16 (iter 8 step16 (Z.shiftl (Z.of_nat i) 8))) (seq 0 256).
Definition crc32tab : list Z :=
  List.map (λ i, iter 8 step32 (Z.of_nat i)) (seq 0 256).

Definition tab (t : list Z) (i : Z) : Z := nth (Z.to_nat i) t 0.

(** The loop bodies of l_crc16 and l_crc32. *)
Definition crc16_byte (crc b : Z) : Z :=
  Z.land (Z.lxor (u32 (Z.shiftl crc 8)) (tab crc16tab (Z.land (Z.lxor (Z.shiftr crc 8) b) 0xff))) 0xffff.
Definition crc32_byte (crc b : Z) : Z :=
  Z.lxor (Z.shiftr crc 8) (tab crc32tab (Z.land (Z.lxor crc b) 0xff)).

(** The seed is a lua integer. *)
Definition l_crc16 (s : list Z) (seed : Z) : Z := foldl crc16_byte (Z.land (u32 seed) 0xffff) s.
Definition l_crc32 (s : list Z) (seed : Z) : Z := foldl crc32_byte (u32 seed) s.

Definition ZDLE : Z := 0x18.
Definition ZRUB0 : Z := 0x6c.
Definition ZRUB1 : Z := 0x6d.

(** What l_unzdle answers: the data with the terminator, if one was reached, and the
    position to go on from, or a bad escape. *)
Inductive unz : Type :=
| UData (data : list Z) (term : option Z) (next : Z)
| UBad.

(** The plain run at the head of [p]. *)
Fixpoint plain_run (p : list Z) : list Z :=
  match p with
  | c :: p => if c =? ZDLE then [] else c :: plain_run p
  | [] => []
  end.

(** The loop of l_unzdle from index [i]; [p] is the input from there on, [b] what is in
    the buffer. *)
Fixpoint unzdle_loop (k : nat) (i : Z) (p b : list Z) : option unz :=
  match k with
  | O => None
  | S k =>
      match p with
      | [] => Some (UData b None (i + 1))
      | c :: p' =>
          if negb (c =? ZDLE) then
            let run := plain_run p in
            unzdle_loop k (i + Z.of_nat (length run)) (drop (length run) p) (b ++ run)
          else
            match p' with
            | [] => Some (UData b None (i + 1))
            | c :: p'' =>
                if (0x68 <=? c) && (c <=? 0x6b) then Some (UData b (Some c) (i + 3))
                else if c =? ZRUB0 then unzdle_loop k (i + 2) p'' (b ++ [0x7f])
                else if c =? ZRUB1 then unzdle_loop k (i + 2) p'' (b ++ [0xff])
                else if Z.land c 0x60 =? 0x40 then unzdle_loop k (i + 2) p'' (b ++ [Z.lxor c 0x40])
                else Some UBad
            end
      end
  end.

(** [at] is one-based; None is a raise. *)
Definition l_unzdle (s : list Z) (at_ : Z) : option unz :=
  if at_ <? 1 then None
  else unzdle_loop (S (length s)) (at_ - 1) (drop (Z.to_nat (at_ - 1)) s) [].

(** ** lib/zmodem.lua *)

(** Is the byte escaped, by default and with ESCCTL ([all])? *)
Definition escaped (all : bool) (b : Z) : bool :=
  if all then Z.land b 0x60 =? 0
  else existsb (Z.eqb b) [0x18; 0x10; 0x11; 0x13; 0x90; 0x91; 0x93].

Definition esc (all : bool) (s : list Z) : list Z :=
  List.flat_map (λ b, if escaped all b then [ZDLE; Z.lxor b 0x40] else [b]) s.

Definition pos4 (n : Z) : list Z :=
  [Z.land n 0xff; Z.land (Z.shiftr n 8) 0xff; Z.land (Z.shiftr n 16) 0xff; Z.land (Z.shiftr n 24) 0xff].

Definition crc32of (s : list Z) : Z := Z.land (Z.lnot (l_crc32 s 0xffffffff)) 0xffffffff.

Definition subpkt_tail (body : list Z) (use32 : bool) : list Z :=
  if use32 then pos4 (crc32of body)
  else let c := l_crc16 body 0 in [Z.shiftr c 8; Z.land c 0xff].

Definition subpkt (data : list Z) (term : Z) (use32 all : bool) : list Z :=
  esc all data ++ [ZDLE; term] ++ esc all (subpkt_tail (data ++ [term]) use32).

(** The receiving half of a machine: what has arrived, where it reads, and what the
    driver will feed it while it waits, after which the deadline passes. *)
Record mach : Type := mkMach {
  inbuf : list Z;
  pos : Z;
  reads : list (list Z);
}.

Definition feed (s : list Z) (m : mach) : mach :=
  match s with
  | [] => m
  | _ =>
      let buf := if 1 <? pos m then drop (Z.to_nat (pos m - 1)) (inbuf m) else inbuf m in
      let p := if 1 <? pos m then 1 else pos m in
      mkMach (buf ++ s) p (reads m)
  end.

(** Parked until a feed that brings something; None when the wait expires. *)
Fixpoint wait_reads (rs : list (list Z)) (m : mach) : option mach :=
  match rs with
  | [] => None
  | [] :: rs => wait_reads rs m
  | s :: rs => Some (feed s (mkMach (inbuf m) (pos m) rs))
  end.
Definition wait (m : mach) : option mach := wait_reads (reads m) m.

(** while self.pos > #self.inbuf do wait end *)
Fixpoint fill (k : nat) (m : mach) : option mach :=
  match k with
  | O => None
  | S k =>
      if Z.of_nat (length (inbuf m)) <? pos m then
        match wait m with None => None | Some m => fill k m end
      else Some m
  end.
Definition turns (m : mach) : nat := S (length (reads m)).

Definition byte (m : mach) : option (Z * mach) :=
  match fill (turns m) m with
  | None => None
  | Some m => Some (nth (Z.to_nat (pos m - 1)) (inbuf m) 0, mkMach (inbuf m) (pos m + 1) (reads m))
  end.

(** One decoded byte; None for the end of the input, a terminator or garbage. *)
Definition ebyte (m : mach) : option (Z * mach) :=
  match byte m with
  | None => None
  | Some (b, m) =>
      if negb (b =? ZDLE) then Some (b, m) else
      match byte m with
      | None => None
      | Some (c, m) =>
          if c =? ZRUB0 then Some (0x7f, m)
          else if c =? ZRUB1 then Some (0xff, m)
          else if Z.land c 0x60 =? 0x40 then Some (Z.lxor c 0x40, m)
          else None
      end
  end.

Fixpoint ebytes (n : nat) (m : mach) : option (list Z * mach) :=
  match n with
  | O => Some ([], m)
  | S n =>
      match ebyte m with
      | None => None
      | Some (b, m) =>
          match ebytes n m with None => None | Some (l, m) => Some (b :: l, m) end
      end
  end.

Inductive subres : Type :=
| SubOk (data : list Z) (term : Z) (m : mach)
| SubTimeout
| SubBadEscape
| SubCrc.

(** The decoding loop of Mach:subpacket, with los.crc. *)
Fixpoint subpacket_data (k : nat) (m : mach) (parts : list Z) : subres :=
  match k with
  | O => SubTimeout
  | S k =>
      match fill (turns m) m with
      | None => SubTimeout
      | Some m =>
          match l_unzdle (inbuf m) (pos m) with
          | Some (UData s term nxt) =>
              let parts := parts ++ s in
              let m := mkMach (inbuf m) nxt (reads m) in
              match term with
              | Some c => SubOk parts c m
              | None => match wait m with None => SubTimeout | Some m => subpacket_data k m parts end
              end
          | _ => SubBadEscape
          end
      end
  end.

Definition ZCRCE : Z := 0x68.
Definition ZCRCG : Z := 0x69.
Definition ZCRCQ : Z := 0x6a.
Definition ZCRCW : Z := 0x6b.

Definition subpacket (crc32 : bool) (m : mach) : subres :=
  match subpacket_data (turns m) m [] with
  | SubOk data c m =>
      if negb (c =? ZCRCE) && negb (c =? ZCRCG) && negb (c =? ZCRCQ) && negb (c =? ZCRCW) then SubBadEscape else
      match ebytes (if crc32 then 4 else 2) m with
      | None => SubTimeout
      | Some (tail, m) =>
          let body := data ++ [c] in
          if crc32 then
            if negb (l_crc32 (body ++ tail) 0xffffffff =? 0xdebb20e3) then SubCrc else SubOk data c m
          else if negb (l_crc16 (body ++ tail) 0 =? 0) then SubCrc else SubOk data c m
      end
  | r => r
  end.

(** * Bits *)

Ltac bits :=
  let i := fresh "i" in let Hi := fresh "Hi" in
  apply Z.bits_inj'; intros i Hi; repeat (rewrite ?Z.lxor_spec, ?Z.land_spec);
  repeat match goal with |- context [Z.testbit ?a i] => destruct (Z.testbit a i) end; reflexivity.

Lemma land_lxor a b m : Z.land (Z.lxor a b) m = Z.lxor (Z.land a m) (Z.land b m).
Proof. bits. Qed.

Lemma land_ones_mod a k : 0 <= k → Z.land a (2 ^ k - 1) = a mod 2 ^ k.
Proof. intros. rewrite <-Z.land_ones by lia. f_equal. rewrite Z.ones_equiv. lia. Qed.

(** An integer split at bit [k]. *)
Lemma split_bits a k : 0 <= k → a = Z.lxor (Z.shiftl (Z.shiftr a k) k) (a mod 2 ^ k).
Proof.
  intros Hk. apply Z.bits_inj'. intros n Hn. rewrite Z.lxor_spec.
  destruct (Z.lt_ge_cases n k).
  - rewrite Z.shiftl_spec_low, Z.mod_pow2_bits_low by lia. by destruct (Z.testbit a n).
  - rewrite Z.shiftl_spec_high, Z.shiftr_spec, Z.mod_pow2_bits_high by lia.
    replace (n - k + k) with n by lia. by destruct (Z.testbit a n).
Qed.

Definition linear (f : Z → Z) : Prop := ∀ a b, f (Z.lxor a b) = Z.lxor (f a) (f b).

Lemma iter_linear n f : linear f → linear (iter n f).
Proof. intros Hf. induction n as [|n IH]; intros a b; [done|]. simpl. by rewrite Hf, IH. Qed.

Lemma iter_add n m f c : iter (n + m) f c = iter m f (iter n f c).
Proof. revert c. induction n as [|n IH]; intros c; [done|]. simpl. apply IH. Qed.

(** A step that shifts [sh] and folds in [P] when the bit [top] says so. *)
Definition fold_step (sh : Z → Z) (top P c : Z) : Z :=
  Z.lxor (sh c) (if Z.testbit c top then P else 0).

Lemma fold_step_linear sh top P : linear sh → linear (fold_step sh top P).
Proof.
  intros Hs a b. unfold fold_step. rewrite Hs, Z.lxor_spec.
  assert (∀ w x y z, Z.lxor (Z.lxor w x) (Z.lxor y z) = Z.lxor (Z.lxor w y) (Z.lxor x z)) as E.
  { intros. bits. }
  rewrite <-E. f_equal. destruct (Z.testbit a top), (Z.testbit b top); simpl;
    by rewrite ?Z.lxor_nilpotent, ?Z.lxor_0_l, ?Z.lxor_0_r.
Qed.

Lemma shiftr_linear k : linear (λ c, Z.shiftr c k).
Proof. intros a b. apply Z.shiftr_lxor. Qed.

Lemma shiftl_linear k : linear (λ c, Z.shiftl c k).
Proof. intros a b. apply Z.shiftl_lxor. Qed.

Lemma tab_map f i : 0 <= i < 256 → tab (List.map f (seq 0 256)) i = f (Z.to_nat i).
Proof.
  intros Hi. unfold tab. rewrite (List.nth_indep _ 0 (f 0%nat)) by (rewrite List.length_map, List.length_seq; lia).
  rewrite List.map_nth, List.seq_nth by lia. done.
Qed.

Lemma land_ff c : Z.land c 0xff = c mod 2 ^ 8.
Proof. apply (land_ones_mod c 8). lia. Qed.

Lemma byte_range c : 0 <= Z.land c 0xff < 256.
Proof. rewrite land_ff. apply Z.mod_pos_bound. lia. Qed.

(** * CRC-32 *)

Definition fold32 : Z → Z := fold_step (λ c, Z.shiftr c 1) 0 0xedb88320.

Lemma step32_fold c : step32 c = fold32 c.
Proof.
  unfold step32, fold32, fold_step. rewrite Z.bit0_odd.
  assert (Z.land c 1 = c mod 2) as -> by (apply (land_ones_mod c 1); lia). rewrite Zmod_odd.
  destruct (Z.odd c); simpl; [done|]. by rewrite Z.lxor_0_r.
Qed.

Lemma iter_ext n f g c : (∀ c, f c = g c) → iter n f c = iter n g c.
Proof. intros H. revert c. induction n as [|n IH]; intros c; [done|]. simpl. by rewrite H, IH. Qed.

Lemma fold32_linear : linear fold32.
Proof. apply fold_step_linear, shiftr_linear. Qed.

(** Bits above the ones shifted out only move. *)
Lemma iter_fold32_high n y : iter n fold32 (Z.shiftl y (Z.of_nat n)) = y.
Proof.
  revert y. induction n as [|n IH]; intros y; [apply Z.shiftl_0_r|].
  cbn [iter]. replace (fold32 _) with (Z.shiftl y (Z.of_nat n)); [apply IH|].
  unfold fold32, fold_step. rewrite Z.shiftl_spec_low by lia. rewrite Z.lxor_0_r.
  rewrite Z.shiftr_shiftl_l by lia. f_equal. lia.
Qed.

Definition bits32 (n : nat) (c : Z) : Z := iter n fold32 c.

Lemma bits32_high n a y : bits32 n (Z.lxor a (Z.shiftl y (Z.of_nat n))) = Z.lxor (bits32 n a) y.
Proof. unfold bits32. by rewrite (iter_linear n fold32 fold32_linear), iter_fold32_high. Qed.

Lemma crc32_byte_bits c b : 0 <= b < 256 → crc32_byte c b = bits32 8 (Z.lxor c b).
Proof.
  intros Hb. unfold crc32_byte, crc32tab. rewrite tab_map by apply byte_range.
  pose proof (byte_range (Z.lxor c b)). rewrite Z2Nat.id by lia. rewrite (iter_ext 8 step32 fold32) by apply step32_fold.
  assert (bits32 8 (Z.lxor c b) =
          Z.lxor (bits32 8 (Z.lxor c b mod 2 ^ 8)) (Z.shiftr (Z.lxor c b) 8)) as ->.
  { rewrite (split_bits (Z.lxor c b) 8) at 1 by lia. rewrite Z.lxor_comm. apply (bits32_high 8). }
  rewrite Z.lxor_comm. unfold bits32.
  rewrite land_ff. f_equal. rewrite Z.shiftr_lxor.
  rewrite (Z.shiftr_div_pow2 b), (Z.div_small b) by lia. by rewrite Z.lxor_0_r.
Qed.

(** The bitwise reference: each byte folded in, eight turns of the register. *)
Definition crc32_ref (s : list Z) (c : Z) : Z := foldl (λ c b, iter 8 step32 (Z.lxor c b)) c s.

Lemma foldl_ext_bytes (f g : Z → Z → Z) s c : bytes_ok s → (∀ c b, byte_ok b → f c b = g c b) →
  foldl f c s = foldl g c s.
Proof.
  intros Hs H. revert c. induction Hs as [|b s Hb Hs IH]; intros c; [done|]. simpl. by rewrite H, IH.
Qed.

Lemma crc32_tables s c : bytes_ok s → foldl crc32_byte c s = crc32_ref s c.
Proof.
  intros Hs. apply foldl_ext_bytes; [done|]. intros c' b Hb. rewrite crc32_byte_bits by done.
  symmetry. apply iter_ext, step32_fold.
Qed.

Lemma lxor_mod a b k : 0 <= k → Z.lxor a b mod 2 ^ k = Z.lxor (a mod 2 ^ k) (b mod 2 ^ k).
Proof. intros. rewrite <-!land_ones_mod by lia. apply land_lxor. Qed.

Lemma lxor_range a b k : 0 <= k → 0 <= a < 2 ^ k → 0 <= b < 2 ^ k → 0 <= Z.lxor a b < 2 ^ k.
Proof.
  intros Hk Ha Hb. replace (Z.lxor a b) with (Z.lxor a b mod 2 ^ k).
  - apply Z.mod_pos_bound. lia.
  - by rewrite lxor_mod, !Z.mod_small by lia.
Qed.

Lemma iter_range n f k : (∀ c, 0 <= c < 2 ^ k → 0 <= f c < 2 ^ k) →
  ∀ c, 0 <= c < 2 ^ k → 0 <= iter n f c < 2 ^ k.
Proof. intros Hf. induction n as [|n IH]; intros c Hc; [done|]. simpl. auto. Qed.

Lemma fold32_range c : 0 <= c < 2 ^ 32 → 0 <= fold32 c < 2 ^ 32.
Proof.
  intros Hc. unfold fold32, fold_step. apply lxor_range; [lia| |destruct (Z.testbit c 0); lia].
  rewrite Z.shiftr_div_pow2 by lia. split; [apply Z.div_pos; lia|]. apply Z.div_lt_upper_bound; lia.
Qed.

Lemma crc32_byte_range c b : 0 <= c < 2 ^ 32 → byte_ok b → 0 <= crc32_byte c b < 2 ^ 32.
Proof.
  intros Hc Hb. unfold byte_ok in Hb. rewrite crc32_byte_bits by done. apply iter_range; [apply fold32_range|].
  apply lxor_range; lia.
Qed.

Lemma foldl_range (f : Z → Z → Z) s c k : bytes_ok s → 0 <= c < 2 ^ k →
  (∀ c b, 0 <= c < 2 ^ k → byte_ok b → 0 <= f c b < 2 ^ k) → 0 <= foldl f c s < 2 ^ k.
Proof.
  intros Hs Hc Hf. revert c Hc. induction Hs as [|b s Hb Hs IH]; intros c Hc; [done|]. simpl. auto.
Qed.

(** One byte more: [n] turns and a byte are [n + 8] turns of the two together. *)
Lemma crc32_byte_more n a b : 0 <= b < 256 →
  crc32_byte (bits32 n a) b = bits32 (n + 8) (Z.lxor a (Z.shiftl b (Z.of_nat n))).
Proof.
  intros Hb. rewrite crc32_byte_bits by done. rewrite <-bits32_high. unfold bits32. by rewrite iter_add.
Qed.

(** Byte [k] of [v], in place. *)
Lemma byte_bits v k n : 0 <= k → 0 <= n →
  Z.testbit (Z.shiftl (Z.shiftr v k mod 2 ^ 8) k) n = Z.testbit v n && ((k <=? n) && (n <? k + 8)).
Proof.
  intros Hk Hn. destruct (Z.leb_spec k n); cbn [andb].
  - rewrite Z.shiftl_spec_high by lia. destruct (Z.ltb_spec n (k + 8)).
    + rewrite Z.mod_pow2_bits_low, Z.shiftr_spec, andb_true_r by lia. f_equal. lia.
    + by rewrite Z.mod_pow2_bits_high, andb_false_r by lia.
  - by rewrite Z.shiftl_spec_low, andb_false_r by lia.
Qed.

Lemma word_bytes v :
  Z.lxor (Z.lxor (Z.lxor (Z.shiftl (Z.shiftr v 0 mod 2 ^ 8) 0) (Z.shiftl (Z.shiftr v 8 mod 2 ^ 8) 8))
    (Z.shiftl (Z.shiftr v 16 mod 2 ^ 8) 16)) (Z.shiftl (Z.shiftr v 24 mod 2 ^ 8) 24) = v mod 2 ^ 32.
Proof.
  apply Z.bits_inj'. intros n Hn. rewrite !Z.lxor_spec, !byte_bits by lia.
  destruct (Z.lt_ge_cases n 32); [rewrite (Z.mod_pow2_bits_low _ 32) by lia|rewrite (Z.mod_pow2_bits_high _ 32) by lia];
  destruct (Z.testbit v n), (Z.leb_spec 0 n), (Z.ltb_spec n (0 + 8)), (Z.leb_spec 8 n), (Z.ltb_spec n (8 + 8)),
    (Z.leb_spec 16 n), (Z.ltb_spec n (16 + 8)), (Z.leb_spec 24 n), (Z.ltb_spec n (24 + 8)); simpl; try done; lia.
Qed.

(** Four bytes at once: the register after the low bytes of [v] is what thirty-two turns
    make of the two together. *)
Lemma crc32_word c v : foldl crc32_byte c (pos4 v) = bits32 32 (Z.lxor c (v mod 2 ^ 32)).
Proof.
  unfold pos4. cbn [foldl]. change c with (bits32 0 c) at 1.
  rewrite !crc32_byte_more by apply byte_range. rewrite !land_ff, <-word_bytes.
  rewrite Z.shiftr_0_r. cbn [Nat.add]. f_equal. rewrite !Z.lxor_assoc. done.
Qed.

(** What the receiver compares against: the register after a string and its own
    check. *)
Lemma crc32_residue s : bytes_ok s → l_crc32 (s ++ pos4 (crc32of s)) 0xffffffff = 0xdebb20e3.
Proof.
  intros Hs. unfold crc32of. set (c := l_crc32 s 0xffffffff).
  assert (0 <= c < 2 ^ 32) as Hc by (apply foldl_range; [done|by vm_compute|apply crc32_byte_range]).
  unfold l_crc32. rewrite foldl_app. fold (l_crc32 s 0xffffffff). fold c. rewrite crc32_word.
  replace (Z.lxor c _) with (2 ^ 32 - 1); [by vm_compute|].
  rewrite <-land_ones_mod by lia. apply Z.bits_inj'. intros n Hn.
  rewrite Z.lxor_spec, !Z.land_spec, Z.lnot_spec by done. change 0xffffffff with (2 ^ 32 - 1).
  rewrite <-(Z.mod_small c (2 ^ 32)) by done. rewrite <-land_ones_mod, Z.land_spec by lia.
  by destruct (Z.testbit c n), (Z.testbit (2 ^ 32 - 1) n).
Qed.

(** * CRC-16 *)

Definition fold16 : Z → Z := fold_step (λ c, Z.shiftl c 1) 15 0x1021.

Lemma fold16_linear : linear fold16.
Proof. apply fold_step_linear, shiftl_linear. Qed.

Lemma step16_fold c : 0 <= c < 2 ^ 31 → step16 c = fold16 c.
Proof.
  intros Hc. unfold step16, fold16, fold_step, u32. rewrite wrap_small by (rewrite Z.shiftl_mul_pow2; lia).
  assert (Z.land c 0x8000 = if Z.testbit c 15 then 0x8000 else 0) as ->.
  { apply Z.bits_inj'. intros n Hn. rewrite Z.land_spec. change 0x8000 with (2 ^ 15).
    rewrite (Z.pow2_bits_eqb 15) by lia. destruct (Z.eqb_spec 15 n) as [<-|Hne].
    - destruct (Z.testbit c 15); [by rewrite Z.pow2_bits_true|by rewrite Z.bits_0].
    - rewrite andb_false_r. destruct (Z.testbit c 15); [by rewrite Z.pow2_bits_false by lia|by rewrite Z.bits_0]. }
  destruct (Z.testbit c 15); simpl; [done|]. by rewrite Z.lxor_0_r.
Qed.

Lemma fold16_range c k : 13 <= k → 0 <= c < 2 ^ k → 0 <= fold16 c < 2 ^ (k + 1).
Proof.
  intros Hk Hc. unfold fold16, fold_step. assert (2 ^ 13 <= 2 ^ k) by (apply Z.pow_le_mono_r; lia).
  assert (2 ^ (k + 1) = 2 * 2 ^ k) as E by (rewrite Z.pow_add_r by lia; lia).
  apply lxor_range; [lia| |]; [rewrite Z.shiftl_mul_pow2 by lia; lia|].
  destruct (Z.testbit c 15); lia.
Qed.

Lemma iter_step16 n c : (n <= 8)%nat → 0 <= c < 2 ^ (24 - Z.of_nat n) → iter n step16 c = iter n fold16 c.
Proof.
  revert c. induction n as [|n IH]; intros c Hn Hc; [done|]. cbn [iter].
  assert (2 ^ (24 - Z.of_nat (S n)) <= 2 ^ 31) by (apply Z.pow_le_mono_r; lia).
  rewrite step16_fold by lia. apply IH; [lia|].
  replace (24 - Z.of_nat n) with (24 - Z.of_nat (S n) + 1) by lia. apply fold16_range; lia.
Qed.

(** One turn of the 16-bit register. *)
Definition ref16 (c : Z) : Z := u16 (if Z.testbit c 15 then Z.lxor (Z.shiftl c 1) 0x1021 else Z.shiftl c 1).
Definition crc16_ref (s : list Z) (c : Z) : Z := foldl (λ c b, iter 8 ref16 (Z.lxor c (Z.shiftl b 8))) c s.

Lemma ref16_fold c : ref16 (c mod 2 ^ 16) = fold16 c mod 2 ^ 16.
Proof.
  unfold ref16, u16, wrap. set (d := c mod 2 ^ 16).
  replace (if Z.testbit d 15 then Z.lxor (Z.shiftl d 1) 0x1021 else Z.shiftl d 1) with (fold16 d)
    by (unfold fold16, fold_step; destruct (Z.testbit _ 15); [done|by rewrite Z.lxor_0_r]).
  rewrite (split_bits c 16) by lia. fold d. rewrite fold16_linear, lxor_mod by lia.
  replace (fold16 (Z.shiftl _ _) mod 2 ^ 16) with 0; [by rewrite Z.lxor_0_l|].
  unfold fold16, fold_step. rewrite Z.shiftl_spec_low by lia. rewrite Z.lxor_0_r, Z.shiftl_shiftl by lia.
  rewrite Z.shiftl_mul_pow2 by lia. change (2 ^ (16 + 1)) with (2 * 2 ^ 16).
  by rewrite Z.mul_assoc, Z.mod_mul by lia.
Qed.

Lemma iter_ref16 n c : iter n ref16 (c mod 2 ^ 16) = iter n fold16 c mod 2 ^ 16.
Proof. revert c. induction n as [|n IH]; intros c; [done|]. cbn [iter]. by rewrite ref16_fold, IH. Qed.

(** Bits that do not reach the top only move. *)
Lemma iter_fold16_low n c : (n <= 16)%nat → 0 <= c < 2 ^ (16 - Z.of_nat n) →
  iter n fold16 c = Z.shiftl c (Z.of_nat n).
Proof.
  revert c. induction n as [|n IH]; intros c Hn Hc; [by rewrite Z.shiftl_0_r|]. cbn [iter].
  assert (2 ^ (16 - Z.of_nat n) = 2 * 2 ^ (16 - Z.of_nat (S n))) as E.
  { rewrite <-Z.pow_succ_r by lia. f_equal. lia. }
  assert (fold16 c = Z.shiftl c 1) as ->.
  { unfold fold16, fold_step. replace (Z.testbit c 15) with false; [by rewrite Z.lxor_0_r|]. symmetry.
    rewrite <-(Z.mod_small c (2 ^ (16 - Z.of_nat (S n)))) by done. apply Z.mod_pow2_bits_high. lia. }
  rewrite IH by (rewrite ?Z.shiftl_mul_pow2 by lia; lia). rewrite Z.shiftl_shiftl by lia. f_equal. lia.
Qed.

Lemma land_ffff c : Z.land c 0xffff = c mod 2 ^ 16.
Proof. apply (land_ones_mod c 16). lia. Qed.

Lemma high_range c : 0 <= c < 2 ^ 16 → 0 <= Z.shiftr c 8 < 2 ^ 8.
Proof.
  intros Hc. rewrite Z.shiftr_div_pow2 by lia. split; [apply Z.div_pos; lia|]. apply Z.div_lt_upper_bound; lia.
Qed.

Lemma crc16_byte_bits c b : 0 <= c < 2 ^ 16 → byte_ok b →
  crc16_byte c b = iter 8 fold16 (Z.lxor c (Z.shiftl b 8)) mod 2 ^ 16.
Proof.
  intros Hc Hb. unfold byte_ok in Hb. pose proof (high_range c Hc) as Hh.
  unfold crc16_byte, crc16tab. rewrite tab_map by apply byte_range.
  rewrite Z2Nat.id by apply byte_range. rewrite land_ff, (Z.mod_small (Z.lxor _ _)) by (apply lxor_range; lia).
  pose proof (lxor_range (Z.shiftr c 8) b 8 ltac:(lia) ltac:(lia) ltac:(lia)) as Hi.
  rewrite iter_step16 by (rewrite ?Z.shiftl_mul_pow2 by lia; lia).
  rewrite land_ffff, lxor_mod by lia. unfold u32, u16. rewrite (wrap_small 32) by (rewrite Z.shiftl_mul_pow2; lia).
  unfold wrap. rewrite Z.mod_mod by lia.
  assert (Z.lxor c (Z.shiftl b 8) =
          Z.lxor (Z.shiftl (Z.lxor (Z.shiftr c 8) b) 8) (c mod 2 ^ 8)) as ->.
  { rewrite (split_bits c 8) at 1 by lia. rewrite Z.shiftl_lxor.
    generalize (Z.shiftl (Z.shiftr c 8) 8) (c mod 2 ^ 8) (Z.shiftl b 8). intros x y z. bits. }
  rewrite (iter_linear 8 fold16 fold16_linear), lxor_mod by lia.
  pose proof (Z.mod_pos_bound c (2 ^ 8) ltac:(lia)).
  rewrite (iter_fold16_low 8 (c mod 2 ^ 8)) by (simpl; lia). rewrite Z.lxor_comm. f_equal.
  rewrite !Z.shiftl_mul_pow2 by lia. change (2 ^ 16) with (2 ^ 8 * 2 ^ 8).
  rewrite !Z.mul_mod_distr_r by lia. by rewrite Z.mod_mod by lia.
Qed.

Lemma crc16_byte_range c b : 0 <= c < 2 ^ 16 → byte_ok b → 0 <= crc16_byte c b < 2 ^ 16.
Proof. intros Hc Hb. rewrite crc16_byte_bits by done. apply Z.mod_pos_bound. lia. Qed.

Lemma crc16_tables s c : bytes_ok s → 0 <= c < 2 ^ 16 → foldl crc16_byte c s = crc16_ref s c.
Proof.
  intros Hs. revert c. induction Hs as [|b s Hb Hs IH]; intros c Hc; [done|]. cbn [foldl crc16_ref].
  rewrite IH by (by apply crc16_byte_range). unfold crc16_ref. f_equal. rewrite crc16_byte_bits by done.
  rewrite <-iter_ref16. f_equal. apply Z.mod_small. unfold byte_ok in Hb.
  apply lxor_range; [lia|done|]. rewrite Z.shiftl_mul_pow2; lia.
Qed.

Lemma crc16_range s : bytes_ok s → 0 <= l_crc16 s 0 < 2 ^ 16.
Proof. intros Hs. apply foldl_range; [done|by vm_compute|apply crc16_byte_range]. Qed.

Lemma crc16_residue s : bytes_ok s →
  l_crc16 (s ++ [Z.shiftr (l_crc16 s 0) 8; Z.land (l_crc16 s 0) 0xff]) 0 = 0.
Proof.
  intros Hs. set (c := l_crc16 s 0).
  pose proof (crc16_range s Hs) as Hc. fold c in Hc.
  pose proof (high_range c Hc) as Hh. pose proof (byte_range c) as Hl.
  unfold l_crc16. rewrite foldl_app. fold (l_crc16 s 0). fold c. cbn [foldl].
  assert (crc16_byte c (Z.shiftr c 8) = Z.shiftl (Z.land c 0xff) 8) as ->.
  { rewrite crc16_byte_bits by (done || (unfold byte_ok; lia)).
    replace (Z.lxor c _) with (Z.land c 0xff).
    - rewrite (iter_fold16_low 8) by (simpl; lia). apply Z.mod_small. rewrite Z.shiftl_mul_pow2; lia.
    - rewrite land_ff. rewrite (split_bits c 8) at 2 by lia.
      generalize (Z.shiftl (Z.shiftr c 8) 8) (c mod 2 ^ 8). intros x y. bits. }
  rewrite crc16_byte_bits by (unfold byte_ok; rewrite ?Z.shiftl_mul_pow2; lia).
  rewrite Z.lxor_nilpotent. by vm_compute.
Qed.

(** * Escaping *)

(** The escape of a byte decodes to it, and is none of the terminators. *)
Definition esc_good (all : bool) (b : Z) : bool :=
  let c := Z.lxor b 0x40 in
  implb (escaped all b)
    (negb ((0x68 <=? c) && (c <=? 0x6b)) && negb (c =? ZRUB0) && negb (c =? ZRUB1) &&
     (Z.land c 0x60 =? 0x40) && (Z.lxor c 0x40 =? b)) &&
  implb (negb (escaped all b)) (negb (b =? ZDLE)).

Lemma esc_good_all all b : byte_ok b → esc_good all b = true.
Proof.
  intros Hb. unfold byte_ok in Hb.
  assert (forallb (λ n, esc_good all (Z.of_nat n)) (seq 0 256) = true) as H by (by destruct all; vm_compute).
  rewrite List.forallb_forall in H. specialize (H (Z.to_nat b) ltac:(apply List.in_seq; lia)).
  by rewrite Z2Nat.id in H by lia.
Qed.

Lemma escaped_byte all b : byte_ok b → escaped all b = true →
  ((0x68 <=? Z.lxor b 0x40) && (Z.lxor b 0x40 <=? 0x6b)) = false ∧
  (Z.lxor b 0x40 =? ZRUB0) = false ∧ (Z.lxor b 0x40 =? ZRUB1) = false ∧
  (Z.land (Z.lxor b 0x40) 0x60 =? 0x40) = true ∧ Z.lxor (Z.lxor b 0x40) 0x40 = b.
Proof.
  intros Hb He. pose proof (esc_good_all all b Hb) as H. unfold esc_good in H. rewrite He in H.
  cbn [implb negb] in H. rewrite andb_true_r in H.
  repeat match type of H with _ && _ = true => apply andb_true_iff in H as [H ?] end.
  repeat match goal with H : negb _ = true |- _ => apply negb_true_iff in H end.
  split_and!; try done. by apply Z.eqb_eq.
Qed.

Lemma unescaped_byte all b : byte_ok b → escaped all b = false → (b =? ZDLE) = false.
Proof.
  intros Hb He. pose proof (esc_good_all all b Hb) as H. unfold esc_good in H. rewrite He in H.
  cbn [implb negb andb] in H. by apply negb_true_iff.
Qed.

Lemma esc_app all s t : esc all (s ++ t) = esc all s ++ esc all t.
Proof. apply List.flat_map_app. Qed.

Lemma esc_cons all b s :
  esc all (b :: s) = (if escaped all b then [ZDLE; Z.lxor b 0x40] else [b]) ++ esc all s.
Proof. done. Qed.

(** The loop, a byte or an escape at a time. *)
Fixpoint unz_ref (i : Z) (p b : list Z) : unz :=
  match p with
  | [] => UData b None (i + 1)
  | c :: p' =>
      if negb (c =? ZDLE) then unz_ref (i + 1) p' (b ++ [c])
      else
        match p' with
        | [] => UData b None (i + 1)
        | c :: p'' =>
            if (0x68 <=? c) && (c <=? 0x6b) then UData b (Some c) (i + 3)
            else if c =? ZRUB0 then unz_ref (i + 2) p'' (b ++ [0x7f])
            else if c =? ZRUB1 then unz_ref (i + 2) p'' (b ++ [0xff])
            else if Z.land c 0x60 =? 0x40 then unz_ref (i + 2) p'' (b ++ [Z.lxor c 0x40])
            else UBad
        end
  end.

Lemma unz_ref_run p : ∀ i b,
  unz_ref i p b = unz_ref (i + Z.of_nat (length (plain_run p))) (drop (length (plain_run p)) p) (b ++ plain_run p).
Proof.
  induction p as [|c p IH]; intros i b; [by rewrite app_nil_r; simpl; rewrite Z.add_0_r|].
  cbn [plain_run]. destruct (c =? ZDLE) eqn:E; [by rewrite app_nil_r; cbn [length drop]; rewrite Z.add_0_r|].
  cbn [length drop]. cbn [unz_ref]. rewrite E. cbn [negb]. rewrite IH, <-app_assoc. simpl. f_equal. lia.
Qed.

(** The loop computes it within its fuel. *)
Lemma unzdle_loop_ref k : ∀ i p b, (length p < k)%nat → unzdle_loop k i p b = Some (unz_ref i p b).
Proof.
  induction k as [|k IH]; intros i p b Hk; [lia|]. cbn [unzdle_loop].
  destruct p as [|c p]; [done|]. destruct (negb (c =? ZDLE)) eqn:E.
  - rewrite IH; [by rewrite <-unz_ref_run|]. rewrite length_drop. cbn [plain_run].
    apply negb_true_iff in E. rewrite E. cbn [length] in *. lia.
  - cbn [unz_ref]. rewrite E. destruct p as [|d p]; [done|]. cbn [length] in Hk.
    repeat case_match; try done; rewrite IH by lia; done.
Qed.

Lemma l_unzdle_ref s at_ : 1 <= at_ →
  l_unzdle s at_ = Some (unz_ref (at_ - 1) (drop (Z.to_nat (at_ - 1)) s) []).
Proof.
  intros Ha. unfold l_unzdle. rewrite (proj2 (Z.ltb_ge _ _)) by lia. apply unzdle_loop_ref. rewrite length_drop. lia.
Qed.

(** * The machine's input *)

(** The bytes still to come, and a position inside the buffer or just past it. *)
Definition unread (m : mach) : list Z := drop (Z.to_nat (pos m - 1)) (inbuf m) ++ concat (reads m).
Definition mach_ok (m : mach) : Prop := 1 <= pos m <= Z.of_nat (length (inbuf m)) + 1.

Lemma feed_ok s m : mach_ok m → s ≠ [] →
  mach_ok (feed s m) ∧ pos (feed s m) <= Z.of_nat (length (inbuf (feed s m))) ∧ reads (feed s m) = reads m ∧
  drop (Z.to_nat (pos (feed s m) - 1)) (inbuf (feed s m)) = drop (Z.to_nat (pos m - 1)) (inbuf m) ++ s.
Proof.
  intros [Hp1 Hp2] Hs. destruct s as [|c s]; [done|]. unfold feed, mach_ok. cbn [pos inbuf reads].
  destruct (1 <? pos m) eqn:E.
  - apply Z.ltb_lt in E. rewrite length_app, length_drop. cbn [length]. split_and!; try lia; done.
  - apply Z.ltb_ge in E. assert (pos m = 1) as -> by lia. rewrite length_app. cbn [length].
    split_and!; try lia; done.
Qed.

Lemma wait_reads_ok m : mach_ok m → ∀ rs, concat rs ≠ [] →
  ∃ m', wait_reads rs m = Some m' ∧ mach_ok m' ∧ pos m' <= Z.of_nat (length (inbuf m')) ∧
        (length (reads m') < length rs)%nat ∧
        unread m' = drop (Z.to_nat (pos m - 1)) (inbuf m) ++ concat rs.
Proof.
  intros Hm. induction rs as [|s rs IH]; intros Hr; [done|]. destruct s as [|c s].
  - destruct (IH Hr) as (m' & E & H1 & H2 & H3 & H4). exists m'. cbn [wait_reads length concat app]. split_and!; (done || lia).
  - cbn [wait_reads]. eexists. split; [done|].
    destruct (feed_ok (c :: s) (mkMach (inbuf m) (pos m) rs)) as (H1 & H2 & H3 & H4); [done|done|].
    unfold unread. rewrite H3, H4. cbn [pos inbuf reads] in *. split_and!; try done; [cbn; lia|].
    by rewrite <-app_assoc.
Qed.

Lemma wait_ok m : mach_ok m → concat (reads m) ≠ [] →
  ∃ m', wait m = Some m' ∧ mach_ok m' ∧ pos m' <= Z.of_nat (length (inbuf m')) ∧
        (length (reads m') < length (reads m))%nat ∧ unread m' = unread m.
Proof. intros Hm Hr. apply (wait_reads_ok m Hm _ Hr). Qed.

Lemma fill_ok m : mach_ok m → unread m ≠ [] →
  ∃ m', fill (turns m) m = Some m' ∧ mach_ok m' ∧ pos m' <= Z.of_nat (length (inbuf m')) ∧
        (length (reads m') <= length (reads m))%nat ∧ unread m' = unread m.
Proof.
  intros Hm Hu. unfold turns. cbn [fill]. destruct (_ <? pos m) eqn:E.
  - apply Z.ltb_lt in E. unfold unread in Hu. rewrite drop_ge in Hu by lia.
    destruct (wait_ok m Hm Hu) as (m' & -> & H1 & H2 & H3 & H4). exists m'.
    destruct (length (reads m)) as [|k]; [lia|]. cbn [fill]. rewrite (proj2 (Z.ltb_ge _ _)) by done.
    split_and!; (done || lia).
  - apply Z.ltb_ge in E. exists m. split_and!; (done || lia || apply Hm).
Qed.

Lemma byte_spec m b s : mach_ok m → unread m = b :: s →
  ∃ m', byte m = Some (b, m') ∧ mach_ok m' ∧ unread m' = s.
Proof.
  intros Hm Hu. unfold byte.
  destruct (fill_ok m Hm) as (m1 & -> & [H1 H1'] & H2 & _ & H3); [by rewrite Hu|].
  rewrite <-H3 in Hu. unfold unread in Hu. destruct (drop (Z.to_nat (pos m1 - 1)) (inbuf m1)) as [|c l] eqn:Ed.
  { apply (f_equal length) in Ed. rewrite length_drop in Ed. cbn [length] in Ed. lia. }
  cbn [app] in Hu. injection Hu as -> <-.
  assert (inbuf m1 !! Z.to_nat (pos m1 - 1) = Some b) as Hl.
  { rewrite <-(Nat.add_0_r (Z.to_nat _)), <-lookup_drop, Ed. done. }
  rewrite (nth_lookup_Some _ _ _ _ Hl). eexists. split; [done|]. unfold mach_ok, unread. cbn [pos inbuf reads].
  split; [lia|]. f_equal. replace (Z.to_nat (pos m1 + 1 - 1)) with (Z.to_nat (pos m1 - 1) + 1)%nat by lia.
  by rewrite <-drop_drop, Ed.
Qed.

Lemma ebyte_spec all b p m : byte_ok b → mach_ok m →
  unread m = (if escaped all b then [ZDLE; Z.lxor b 0x40] else [b]) ++ p →
  ∃ m', ebyte m = Some (b, m') ∧ mach_ok m' ∧ unread m' = p.
Proof.
  intros Hb Hm Hu. unfold ebyte. destruct (escaped all b) eqn:E; cbn [app] in Hu.
  - destruct (escaped_byte all b Hb E) as (_ & E2 & E3 & E4 & E5).
    destruct (byte_spec m _ _ Hm Hu) as (m1 & -> & Hm1 & Hu1). change (negb (ZDLE =? ZDLE)) with false. cbn iota.
    destruct (byte_spec m1 _ _ Hm1 Hu1) as (m2 & -> & Hm2 & Hu2). rewrite E2, E3, E4, E5. by exists m2.
  - destruct (byte_spec m _ _ Hm Hu) as (m1 & -> & Hm1 & Hu1). rewrite (unescaped_byte all b Hb E). by exists m1.
Qed.

Lemma ebytes_spec all s p : bytes_ok s → ∀ m, mach_ok m → unread m = esc all s ++ p →
  ∃ m', ebytes (length s) m = Some (s, m') ∧ mach_ok m' ∧ unread m' = p.
Proof.
  induction 1 as [|b s Hb Hs IH]; intros m Hm Hu; [by exists m|].
  rewrite esc_cons, <-app_assoc in Hu. cbn [length ebytes].
  destruct (ebyte_spec all b _ m Hb Hm Hu) as (m1 & -> & Hm1 & Hu1).
  destruct (IH m1 Hm1 Hu1) as (m2 & -> & Hm2 & Hu2). by exists m2.
Qed.

(** What the decoder makes of [p], a first part of the encoding of [data] and [term] with
    [q] still to come: it reaches the terminator, or stops between two bytes of the data. *)
Definition decoded (all : bool) (data : list Z) (term i : Z) (b p q : list Z) : Prop :=
  (unz_ref i p b = UData (b ++ data) (Some term) (i + Z.of_nat (length (esc all data)) + 3) ∧
   (length (esc all data) + 2 <= length p)%nat) ∨
  ∃ d1 d2, data = d1 ++ d2 ∧ unz_ref i p b = UData (b ++ d1) None (i + Z.of_nat (length (esc all d1)) + 1) ∧
           (length (esc all d1) <= length p)%nat ∧ q ≠ [].

Lemma decoded_stop all data term i b p q :
  unz_ref i p b = UData b None (i + 1) → q ≠ [] → decoded all data term i b p q.
Proof.
  intros E Hq. right. exists [], data. cbn. rewrite app_nil_r, Z.add_0_r. split_and!; (done || lia).
Qed.

Lemma decoded_step all c data term i b e p q :
  e = (if escaped all c then [ZDLE; Z.lxor c 0x40] else [c]) →
  unz_ref i (e ++ p) b = unz_ref (i + Z.of_nat (length e)) p (b ++ [c]) →
  decoded all data term (i + Z.of_nat (length e)) (b ++ [c]) p q →
  decoded all (c :: data) term i b (e ++ p) q.
Proof.
  intros He E [[H Hl]|(d1 & d2 & -> & H & Hl & Hq)]; rewrite H in E.
  - left. rewrite E, esc_cons, <-He, !length_app, <-app_assoc. split; [cbn [app]; f_equal; lia|lia].
  - right. exists (c :: d1), d2. rewrite E, esc_cons, <-He, !length_app, <-app_assoc.
    split_and!; try done; [cbn [app]; f_equal; lia|lia].
Qed.

Lemma unz_ref_prefix all data term t : bytes_ok data → 0x68 <= term <= 0x6b → ∀ p q i b,
  p ++ q = esc all data ++ ZDLE :: term :: t → decoded all data term i b p q.
Proof.
  intros Hd Ht. induction Hd as [|c data Hc Hd IH]; intros p q i b E.
  - destruct p as [|x [|y p]]; cbn in E; [apply decoded_stop; by subst| |]; simplify_eq; [by apply decoded_stop|].
    left. cbn [unz_ref]. change (negb (ZDLE =? ZDLE)) with false. cbn iota.
    rewrite (proj2 (Z.leb_le _ _)), (proj2 (Z.leb_le _ _)) by lia. cbn. rewrite app_nil_r.
    split; [f_equal; lia|lia].
  - rewrite esc_cons, <-app_assoc in E. destruct (escaped all c) eqn:Ee; cbn [app] in E.
    + destruct (escaped_byte all c Hc Ee) as (E1 & E2 & E3 & E4 & E5).
      destruct p as [|x [|y p]]; cbn in E; [apply decoded_stop; by subst| |]; simplify_eq; [by apply decoded_stop|].
      apply (decoded_step all c data term i b [ZDLE; Z.lxor c 0x40] p q); [by rewrite Ee| |by apply IH].
      cbn [app unz_ref]. change (negb (ZDLE =? ZDLE)) with false. cbn iota. by rewrite E1, E2, E3, E4, E5.
    + destruct p as [|x p]; cbn in E; [apply decoded_stop; by subst|]. simplify_eq.
      apply (decoded_step all c data term i b [c] p q); [by rewrite Ee| |by apply IH].
      cbn [app unz_ref]. by rewrite (unescaped_byte all c Hc Ee).
Qed.

(** The loop takes the data out of whatever reads it comes in. *)
Lemma subpacket_data_spec all term t : 0x68 <= term <= 0x6b → ∀ k m parts data,
  bytes_ok data → mach_ok m → unread m = esc all data ++ ZDLE :: term :: t → (length (reads m) < k)%nat →
  ∃ m', subpacket_data k m parts = SubOk (parts ++ data) term m' ∧ mach_ok m' ∧ unread m' = t.
Proof.
  intros Ht. induction k as [|k IH]; intros m parts data Hd Hm Hu Hk; [lia|]. cbn [subpacket_data].
  destruct (fill_ok m Hm) as (m1 & -> & Hm1 & Hp1 & Hr1 & Hu1); [rewrite Hu; by destruct (esc all data)|].
  rewrite Hu in Hu1. unfold unread in Hu1. destruct Hm1 as [Hm1 Hm1'].
  rewrite l_unzdle_ref by lia.
  pose proof (length_drop (inbuf m1) (Z.to_nat (pos m1 - 1))) as Hlen.
  destruct (unz_ref_prefix all data term t Hd Ht _ _ (pos m1 - 1) [] Hu1) as [[-> Hl]|(d1 & d2 & -> & -> & Hl & Hq)].
  - eexists. split; [done|]. unfold mach_ok, unread. cbn [pos inbuf reads]. split; [lia|].
    apply (f_equal (drop (length (esc all data) + 2))) in Hu1. rewrite drop_app_le in Hu1 by lia.
    rewrite <-(drop_drop (esc all data ++ _)), drop_app_length, drop_drop in Hu1. change (drop 2 _) with t in Hu1. rewrite <-Hu1.
    f_equal. f_equal. lia.
  - rewrite esc_app in Hu1. apply Forall_app in Hd as [_ Hd2].
    assert (mach_ok (mkMach (inbuf m1) (pos m1 - 1 + Z.of_nat (length (esc all d1)) + 1) (reads m1))) as Hm2
      by (unfold mach_ok; cbn [pos inbuf]; lia).
    destruct (wait_ok _ Hm2 Hq) as (m3 & -> & Hm3 & _ & Hr3 & Hu3). cbn [reads app] in *.
    destruct (IH m3 (parts ++ d1) d2 Hd2 Hm3) as (m' & -> & H1 & H2); [|lia|].
    + rewrite Hu3. unfold unread. cbn [pos inbuf reads].
      apply (f_equal (drop (length (esc all d1)))) in Hu1. rewrite drop_app_le, drop_drop in Hu1 by lia.
      rewrite <-app_assoc, drop_app_length in Hu1. rewrite <-Hu1. f_equal. f_equal. lia.
    + exists m'. by rewrite <-app_assoc.
Qed.

Lemma subpkt_tail_bytes body use32 : bytes_ok body → bytes_ok (subpkt_tail body use32).
Proof.
  intros Hb. pose proof byte_range as R. pose proof (crc16_range body Hb) as Hc.
  destruct use32; unfold subpkt_tail, pos4.
  - repeat (apply Forall_cons_2; [apply R|]). apply Forall_nil_2.
  - apply Forall_cons_2; [by apply high_range|]. apply Forall_cons_2; [apply R|apply Forall_nil_2].
Qed.

(** The receiver takes a subpacket for what the sender put in it, whatever follows. *)
Lemma subpacket_spec data term use32 all rest m :
  bytes_ok data → 0x68 <= term <= 0x6b → mach_ok m →
  unread m = subpkt data term use32 all ++ rest →
  ∃ m', subpacket use32 m = SubOk data term m' ∧ mach_ok m' ∧ unread m' = rest.
Proof.
  intros Hd Ht Hm Hu. unfold subpacket, subpkt in *. set (tail := subpkt_tail (data ++ [term]) use32) in *.
  assert (bytes_ok (data ++ [term])) as Hb.
  { apply Forall_app. split; [done|]. constructor; [unfold byte_ok; lia|constructor]. }
  rewrite <-!app_assoc in Hu.
  destruct (subpacket_data_spec all term (esc all tail ++ rest) Ht (turns m) m [] data)
    as (m1 & -> & Hm1 & Hu1); [done..|unfold turns; lia|].
  assert (negb (term =? ZCRCE) && negb (term =? ZCRCG) && negb (term =? ZCRCQ) && negb (term =? ZCRCW) = false) as ->.
  { assert (term = 0x68 ∨ term = 0x69 ∨ term = 0x6a ∨ term = 0x6b) as H by lia.
    by destruct H as [->|[->|[->| ->]]]. }
  destruct (ebytes_spec all tail rest) with (m := m1) as (m2 & E & Hm2 & Hu2);
    [by apply subpkt_tail_bytes|done..|].
  replace (if use32 then 4%nat else 2%nat) with (length tail) by (by unfold tail; destruct use32).
  rewrite E. exists m2. cbn [app]. split; [|done]. unfold tail, subpkt_tail. destruct use32.
  - by rewrite (crc32_residue _ Hb).
  - by rewrite (crc16_residue _ Hb).
Qed.

(** * What is shown *)

(** C22: for every string and every seed, the table-driven CRC-16 and CRC-32 of los.crc
    are the polynomials 0x1021 (high bit first, 16 bits) and 0xedb88320 (low bit first)
    divided one bit at a time; both stay inside their width, so nothing above it leaks
    from one byte to the next. *)
Theorem crc_tables_correct s seed : bytes_ok s →
  l_crc16 s seed = crc16_ref s (seed mod 2 ^ 16) ∧ 0 <= l_crc16 s seed < 2 ^ 16 ∧
  l_crc32 s seed = crc32_ref s (seed mod 2 ^ 32) ∧ 0 <= l_crc32 s seed < 2 ^ 32.
Proof.
  intros Hs. unfold l_crc16, l_crc32. rewrite land_ffff. unfold u32, wrap.
  rewrite Z.mod_mod_divide by (by exists (2 ^ 16)).
  pose proof (Z.mod_pos_bound seed (2 ^ 16) ltac:(lia)). pose proof (Z.mod_pos_bound seed (2 ^ 32) ltac:(lia)).
  split; [by apply crc16_tables|]. split; [apply foldl_range; [done|done|apply crc16_byte_range]|].
  split; [by apply crc32_tables|]. apply foldl_range; [done|done|apply crc32_byte_range].
Qed.

(** The check vectors of the two polynomials: the string 123456789. *)
Lemma crc_tables_correct_witness :
  (l_crc16 (List.map Z.of_nat (seq 49 9)) 0 = 0x31c3 ∧ crc32of (List.map Z.of_nat (seq 49 9)) = 0xcbf43926) ∧
  l_crc16 (List.map Z.of_nat (seq 49 9)) 0 = crc16_ref (List.map Z.of_nat (seq 49 9)) (0 mod 2 ^ 16).
Proof.
  split; [by split; vm_compute|].
  apply (crc_tables_correct (List.map Z.of_nat (seq 49 9)) 0). repeat constructor; unfold byte_ok; lia.
Defined.

(** C21: a data subpacket built by lib/zmodem.lua, with either check sum and either set
    of escapes, any data and any of the four terminators, is taken by the receiver for
    exactly that data and terminator, however the transport cuts it into reads (in the
    middle of an escape or of the check sum too), and what follows it stays to be read. *)
Theorem subpacket_roundtrip data term use32 all rest m :
  bytes_ok data → 0x68 <= term <= 0x6b → mach_ok m →
  unread m = subpkt data term use32 all ++ rest →
  ∃ m', subpacket use32 m = SubOk data term m' ∧ mach_ok m' ∧ unread m' = rest.
Proof. apply subpacket_spec. Qed.

(** The input comes a byte at a time, with an empty read between. *)
Lemma subpacket_roundtrip_witness :
  ∃ m', subpacket true
          (mkMach [] 1 (flat_map (λ b, [[b]; []]) (subpkt [0x18; 0x41; 0x93; 0x7f] 0x69 true false ++ [0x2a]))) =
        SubOk [0x18; 0x41; 0x93; 0x7f] 0x69 m' ∧ mach_ok m' ∧ unread m' = [0x2a].
Proof.
  apply (subpacket_roundtrip _ _ true false [0x2a]);
    [repeat constructor; unfold byte_ok; lia|lia|unfold mach_ok; cbn; lia|by vm_compute].
Defined.
