(* ===== verification/Lock.v ===== *)
(** The ticket lock of src/src/lock.h, taken by any number of cpus at once.

    Every atomic access of [lock], [unlock] and [canlock] is one step, and cpus step in any
    order.  A cpu's program counter says which access comes next and what its locals hold.
    Two fields of the state are no variables of the code: [order], the cpus that hold a
    ticket as they took it, and [served], how many tickets were handed back. *)

From S2P Require Import Prelude.
From stdpp Require Import prelude list relations.
From Stdlib Require Import ZArith Lia.
Open Scope Z_scope.

(** * The code *)

Record tlock : Type := mkTlock {
  l_next : Z;
  l_owner : Z;
  l_held : Z;
  l_nlock : Z;
  l_ncontend : Z;
  l_spin : Z;
}.
Definition LOCK_INIT : tlock := mkTlock 0 0 0 0 0 0.

Definition set_next (v : Z) (l : tlock) : tlock :=
  mkTlock v (l_owner l) (l_held l) (l_nlock l) (l_ncontend l) (l_spin l).
Definition set_owner (v : Z) (l : tlock) : tlock :=
  mkTlock (l_next l) v (l_held l) (l_nlock l) (l_ncontend l) (l_spin l).
Definition set_held (v : Z) (l : tlock) : tlock :=
  mkTlock (l_next l) (l_owner l) v (l_nlock l) (l_ncontend l) (l_spin l).
Definition set_nlock (v : Z) (l : tlock) : tlock :=
  mkTlock (l_next l) (l_owner l) (l_held l) v (l_ncontend l) (l_spin l).
Definition set_ncontend (v : Z) (l : tlock) : tlock :=
  mkTlock (l_next l) (l_owner l) (l_held l) (l_nlock l) v (l_spin l).
Definition set_spin (v : Z) (l : tlock) : tlock :=
  mkTlock (l_next l) (l_owner l) (l_held l) (l_nlock l) (l_ncontend l) v.


(** Where a cpu is. *)
Inductive pc : Type :=
| Out                      (* in none of the three *)
| Queued (t : Z)           (* lock: has a ticket, about to read owner *)
| Missed (t : Z)           (* lock: owner was another's, about to read the clock *)
| Spins (t t0 : Z)         (* lock: in the loop *)
| Won (t0 : Z)             (* owner is ours, or canlock's exchange won: about to set held *)
| Marked (t0 : Z)          (* about to read nlock *)
| Counts (t0 v : Z)        (* about to write it *)
| Waited (t0 : Z)          (* about to read ncontend *)
| CountsW (t0 v : Z)
| Times (t0 : Z)           (* about to read spin *)
| CountsS (v : Z)
| Inside                   (* lock or canlock has returned *)
| Leaves (t : Z)           (* unlock: has read owner, about to clear held *)
| Frees (t : Z)            (* unlock: about to write owner *)
| Tries (t s : Z).         (* canlock: has read owner, when s tickets had been served *)

(** What a cpu outside asks for; one inside always asks for unlock. *)
Inductive call : Type := CLock | CCanlock.

(** One access of a cpu; [c] is what machine_cycles reads, [s] the tickets served. *)
Definition turn (k : call) (c s : Z) (l : tlock) (p : pc) : tlock * pc :=
  match p with
  | Out =>
      match k with
      | CLock => (set_next (u32 (l_next l + 1)) l, Queued (l_next l))
      | CCanlock => (l, Tries (l_owner l) s)
      end
  | Queued t => (l, if negb (l_owner l =? t) then Missed t else Won 0)
  | Missed t => (l, Spins t c)
  | Spins t t0 => (l, if negb (l_owner l =? t) then Spins t t0 else Won t0)
  | Won t0 => (set_held 1 l, Marked t0)
  | Marked t0 => (l, Counts t0 (l_nlock l))
  | Counts t0 v => (set_nlock (u64 (v + 1)) l, if t0 =? 0 then Inside else Waited t0)
  | Waited t0 => (l, CountsW t0 (l_ncontend l))
  | CountsW t0 v => (set_ncontend (u64 (v + 1)) l, Times t0)
  | Times t0 => (l, CountsS (u64 (l_spin l + (c - t0))))
  | CountsS v => (set_spin v l, Inside)
  | Inside => (l, Leaves (l_owner l))
  | Leaves t => (set_held 0 l, Frees t)
  | Frees t => (set_owner (u32 (t + 1)) l, Out)
  | Tries t _ => if l_next l =? t then (set_next (u32 (t + 1)) l, Won 0) else (l, Out)
  end.

(** * The machine *)

Record mstate : Type := mkM {
  m_lock : tlock;
  m_pc : nat → pc;
  order : list nat;
  served : Z;
}.

Definition boot_lock : mstate := mkM LOCK_INIT (λ _, Out) [] 0.

Definition set_pc (i : nat) (p : pc) (f : nat → pc) : nat → pc := λ j, if decide (j = i) then p else f j.

(** Does the access take a ticket, or hand one back? *)
Definition takes (k : call) (l : tlock) (p : pc) : bool :=
  match p with
  | Out => match k with CLock => true | CCanlock => false end
  | Tries t _ => l_next l =? t
  | _ => false
  end.
Definition gives_back (p : pc) : bool := match p with Frees _ => true | _ => false end.

Definition advance (i : nat) (k : call) (c : Z) (s : mstate) : mstate :=
  let p := m_pc s i in
  let '(l', p') := turn k c (served s) (m_lock s) p in
  mkM l' (set_pc i p' (m_pc s))
    (if takes k (m_lock s) p then order s ++ [i]
     else if gives_back p then List.tl (order s) else order s)
    (if gives_back p then served s + 1 else served s).

(** Tickets are 32 bits.  A canlock that stood still between its two accesses while 2^32
    tickets went by could take a stale owner for the current one: runs have no such step. *)
Definition timely (p : pc) (s : mstate) : Prop :=
  match p with Tries _ s0 => served s + Z.of_nat (length (order s)) - s0 < 2 ^ 32 | _ => True end.

Inductive timely_step (n : nat) : mstate → mstate → Prop :=
| MStep i k c s : (i < n)%nat → timely (m_pc s i) s → timely_step n s (advance i k c s).

(** Between winning the lock and the write that hands it on. *)
Definition inside (p : pc) : bool :=
  match p with Out | Queued _ | Missed _ | Spins _ _ | Tries _ _ => false | _ => true end.

(** The ticket a waiting cpu holds. *)
Definition waits_for (p : pc) : option Z :=
  match p with Queued t | Missed t | Spins t _ => Some t | _ => None end.

Definition counted (p : pc) : bool :=
  match p with
  | Waited _ | CountsW _ _ | Times _ | CountsS _ | Inside | Leaves _ | Frees _ => true
  | _ => false
  end.

(** What a local of the holder's must still be. *)
Definition local_ok (l : tlock) (p : pc) : Prop :=
  match p with
  | Won _ => l_held l = 0
  | Marked _ | Waited _ | CountsW _ _ | Times _ | CountsS _ | Inside => l_held l = 1
  | Counts _ v => l_held l = 1 ∧ v = l_nlock l
  | Leaves t => l_held l = 1 ∧ t = l_owner l
  | Frees t => l_held l = 0 ∧ t = l_owner l
  | _ => True
  end.

Record lock_inv (n : nat) (s : mstate) : Prop := mkLockInv {
  li_nodup : NoDup (order s);
  li_cpus : ∀ i, i ∈ order s → (i < n)%nat;
  li_served : 0 <= served s;
  li_owner : l_owner (m_lock s) = u32 (served s);
  li_next : l_next (m_lock s) = u32 (served s + Z.of_nat (length (order s)));
  li_wait : ∀ j i t, order s !! j = Some i → waits_for (m_pc s i) = Some t → t = u32 (served s + Z.of_nat j);
  li_in : ∀ i, i ∈ order s ↔ inside (m_pc s i) = true ∨ is_Some (waits_for (m_pc s i));
  li_head : ∀ i, inside (m_pc s i) = true → order s !! 0%nat = Some i;
  li_try : ∀ i t s0, m_pc s i = Tries t s0 → 0 <= s0 <= served s ∧ t = u32 s0;
  li_local : ∀ i, local_ok (m_lock s) (m_pc s i);
  li_held : (∀ i, inside (m_pc s i) = false) → l_held (m_lock s) = 0;
  li_nlock : l_nlock (m_lock s) =
             u64 (served s + match order s with i :: _ => if counted (m_pc s i) then 1 else 0 | [] => 0 end);
}.

(** * The invariant is kept *)

Lemma set_pc_eq i p f : set_pc i p f i = p.
Proof. unfold set_pc. by rewrite decide_True. Qed.

Lemma set_pc_ne i j p f : j ≠ i → set_pc i p f j = f j.
Proof. intros. unfold set_pc. by rewrite decide_False. Qed.

Ltac pc_cases j i :=
  destruct (decide (j = i)) as [->|?]; [rewrite ?set_pc_eq in *|rewrite ?set_pc_ne in * by done].

Lemma local_out l p : inside p = false → local_ok l p.
Proof. by destruct p. Qed.

Lemma counted_inside p : counted p = true → inside p = true.
Proof. by destruct p. Qed.

Section keep.
Context (n : nat) (Hn : Z.of_nat n < 2 ^ 32).

(** Nobody else is inside with the one at the head. *)
Lemma inside_alone s i j : lock_inv n s → inside (m_pc s i) = true → j ≠ i → inside (m_pc s j) = false.
Proof.
  intros H Hi Hj. destruct (inside (m_pc s j)) eqn:E; [|done].
  pose proof (li_head _ _ H i Hi) as H1. pose proof (li_head _ _ H j E) as H2. congruence.
Qed.

Lemma few_tickets s : lock_inv n s → Z.of_nat (length (order s)) < 2 ^ 32.
Proof.
  intros H. assert (length (order s) <= n)%nat; [|lia]. transitivity (length (seq 0 n)); [|by rewrite length_seq].
  apply submseteq_length, NoDup_submseteq; [apply H|]. intros i Hi. apply elem_of_seq.
  pose proof (li_cpus _ _ H i Hi). lia.
Qed.

(** A step that takes no ticket and hands none back. *)
Lemma inv_quiet s i l' p' :
  lock_inv n s → l_next l' = l_next (m_lock s) → l_owner l' = l_owner (m_lock s) →
  (i ∈ order s ↔ inside p' = true ∨ is_Some (waits_for p')) →
  (∀ t, waits_for p' = Some t → waits_for (m_pc s i) = Some t) →
  (inside p' = true → order s !! 0%nat = Some i) →
  (∀ t s0, p' = Tries t s0 → 0 <= s0 <= served s ∧ t = u32 s0) →
  local_ok l' p' →
  (inside (m_pc s i) = true ∧ inside p' = true ∧ l_nlock l' = u64 (served s + if counted p' then 1 else 0)) ∨
  (l' = m_lock s ∧ counted p' = counted (m_pc s i) ∧ inside (m_pc s i) = false) →
  lock_inv n (mkM l' (set_pc i p' (m_pc s)) (order s) (served s)).
Proof.
  intros H En Eo Hin Hw Hh Ht Hl Hc.
  split; cbn [m_lock m_pc order served]; try apply H; try (by rewrite ?En, ?Eo; apply H).
  - intros j k t Hk. pc_cases k i; [|by apply (li_wait _ _ H)]. intros Hwt. by eapply (li_wait _ _ H), Hw.
  - intros k. pc_cases k i; [done|apply H].
  - intros k. pc_cases k i; [done|apply H].
  - intros k t s0. pc_cases k i; [apply Ht|apply H].
  - intros k. pc_cases k i; [done|]. destruct Hc as [(Hi & _ & _)|(-> & _ & _)]; [|apply H].
    by apply local_out, (inside_alone s i).
  - intros Ho. pose proof (Ho i) as Hoi. rewrite set_pc_eq in Hoi. destruct Hc as [(_ & Hi & _)|(-> & _ & Hi)]; [congruence|].
    apply (li_held _ _ H). intros k. pose proof (Ho k) as Hk. by pc_cases k i.
  - destruct Hc as [(Hi & _ & ->)|(-> & Hcc & _)].
    + pose proof (li_head _ _ H i Hi) as Hhd. destruct (order s) as [|k ks]; [done|].
      cbn in Hhd. injection Hhd as ->. by rewrite set_pc_eq.
    + rewrite (li_nlock _ _ H). destruct (order s) as [|k ks]; [done|]. pc_cases k i; [by rewrite Hcc|done].
Qed.

Lemma u32_succ z : u32 (u32 z + 1) = u32 (z + 1).
Proof. unfold u32, wrap. by rewrite Z.add_mod_idemp_l by lia. Qed.

(** Tickets less than a turn apart differ. *)
Lemma u32_same a d : 0 <= d < 2 ^ 32 → u32 a = u32 (a + d) → d = 0.
Proof.
  unfold u32, wrap. intros Hd E. pose proof (Z.div_mod a (2 ^ 32)). pose proof (Z.div_mod (a + d) (2 ^ 32)).
  assert (d = 2 ^ 32 * ((a + d) / 2 ^ 32 - a / 2 ^ 32)) by lia. nia.
Qed.

Lemma no_ticket s i : lock_inv n s → inside (m_pc s i) = false → waits_for (m_pc s i) = None → i ∉ order s.
Proof. intros H Hi Hw [?|[? ?]]%(li_in _ _ H); congruence. Qed.

(** A step that takes a ticket: the new cpu waits behind the others, or is the only one. *)
Lemma inv_take s i p' :
  lock_inv n s → (i < n)%nat → inside (m_pc s i) = false → waits_for (m_pc s i) = None →
  p' = Queued (l_next (m_lock s)) ∨ (p' = Won 0 ∧ order s = []) →
  lock_inv n (mkM (set_next (u32 (l_next (m_lock s) + 1)) (m_lock s)) (set_pc i p' (m_pc s)) (order s ++ [i]) (served s)).
Proof.
  intros H Hin Hi Hw Hp. pose proof (no_ticket s i H Hi Hw) as Hno.
  assert (counted p' = false) as Hc by (by destruct Hp as [->|[-> _]]).
  assert (∀ j k, (order s ++ [i]) !! j = Some k → k ≠ i → order s !! j = Some k) as Hold.
  { intros j k [?|[? E]]%lookup_app_Some Hk; [done|]. apply list_lookup_singleton_Some in E as [_ <-]. done. }
  split; cbn [m_lock m_pc order served set_next l_owner l_next l_held l_nlock]; try apply H.
  - apply NoDup_app. split_and!; [apply H| |apply NoDup_singleton]. intros k Hk ->%list_elem_of_singleton. done.
  - intros k [Hk|Hk%list_elem_of_singleton]%elem_of_app; [by apply H|by subst].
  - rewrite (li_next _ _ H), u32_succ, length_app. f_equal. cbn [length]. lia.
  - intros j k t Hj. pc_cases k i; [|by apply (li_wait _ _ H), Hold].
    intros Ht. destruct Hp as [->|[-> _]]; [|done]. cbn in Ht. injection Ht as <-. rewrite (li_next _ _ H). do 2 f_equal.
    apply lookup_app_Some in Hj as [Hj|[Hj E]]; [exfalso; apply Hno; by eapply list_elem_of_lookup_2|].
    apply list_lookup_singleton_Some in E as [E _]. lia.
  - intros k. rewrite elem_of_app, list_elem_of_singleton. pc_cases k i.
    + destruct Hp as [->|[-> _]]; cbn; split; intros _; auto; right; by eexists.
    + rewrite (li_in _ _ H). tauto.
  - intros k. pc_cases k i.
    + intros Hk. destruct Hp as [->|[-> ->]]; done.
    + intros Hk. apply lookup_app_l_Some. by apply H.
  - intros k t s0. pc_cases k i; [by destruct Hp as [->|[-> _]]|apply H].
  - intros k. pc_cases k i; [|by pose proof (li_local _ _ H k); destruct (m_pc s k)].
    destruct Hp as [->|[-> Ho]]; [done|]. cbn. apply (li_held _ _ H). intros j.
    destruct (inside (m_pc s j)) eqn:E; [|done]. apply (li_head _ _ H) in E. by rewrite Ho in E.
  - intros Ho. apply (li_held _ _ H). intros k. pose proof (Ho k) as Hk. by pc_cases k i.
  - rewrite (li_nlock _ _ H). destruct (order s) as [|k ks]; cbn [app].
    + by rewrite set_pc_eq, Hc.
    + rewrite set_pc_ne; [done|]. intros ->. apply Hno. left.
Qed.

(** A step that hands a ticket back. *)
Lemma inv_give s i t : lock_inv n s → m_pc s i = Frees t →
  lock_inv n (mkM (set_owner (u32 (t + 1)) (m_lock s)) (set_pc i Out (m_pc s)) (List.tl (order s)) (served s + 1)).
Proof.
  intros H Ei. assert (inside (m_pc s i) = true) as Hi by (by rewrite Ei).
  pose proof (li_head _ _ H i Hi) as Hh. pose proof (li_local _ _ H i) as Hl. rewrite Ei in Hl. destruct Hl as [Hl0 ->].
  pose proof (li_nodup _ _ H) as Hnd. pose proof (li_nlock _ _ H) as Hnl. pose proof (li_next _ _ H) as Hnx.
  destruct (order s) as [|i' ks] eqn:Eo; [done|]. cbn in Hh. injection Hh as ->. apply NoDup_cons in Hnd as [Hni Hnd].
  rewrite Ei in Hnl. cbn [counted] in Hnl.
  assert (∀ k, k ∈ ks → k ≠ i) as Hne by (by intros k Hk ->).
  split; cbn [m_lock m_pc order served set_owner l_owner l_next l_held l_nlock List.tl]; try apply H.
  - done.
  - intros k Hk. apply (li_cpus _ _ H). rewrite Eo. by right.
  - pose proof (li_served _ _ H). lia.
  - by rewrite (li_owner _ _ H), u32_succ.
  - rewrite Hnx. f_equal. cbn [length]. lia.
  - intros j k u Hj. rewrite set_pc_ne by (apply Hne; by eapply list_elem_of_lookup_2). intros Hu.
    rewrite (li_wait _ _ H (S j) k u); [f_equal; lia| |done]. by rewrite Eo.
  - intros k. pc_cases k i.
    + split; [done|]. cbn. intros [?|[? ?]]; done.
    + rewrite <-(li_in _ _ H), Eo, elem_of_cons. tauto.
  - intros k. pc_cases k i; [done|]. intros Hk. apply (li_head _ _ H) in Hk. rewrite Eo in Hk. cbn in Hk. congruence.
  - intros k u s0. pc_cases k i; [done|]. intros Ek. destruct (li_try _ _ H k u s0 Ek). split; [lia|done].
  - intros k. pc_cases k i; [done|]. apply local_out. by apply (inside_alone s i).
  - done.
  - rewrite Hnl. f_equal. destruct ks as [|k ks]; [lia|].
    rewrite set_pc_ne by (apply Hne; left). destruct (counted (m_pc s k)) eqn:E; [|lia].
    apply counted_inside in E. rewrite (inside_alone s i k H Hi) in E; [done|]. apply Hne. left.
Qed.

(** The owner's ticket is the one at the head. *)
Lemma first_ticket s j i t : lock_inv n s → order s !! j = Some i → waits_for (m_pc s i) = Some t →
  (l_owner (m_lock s) =? t) = bool_decide (j = 0%nat).
Proof.
  intros H Hj Ht. rewrite (li_wait _ _ H j i t Hj Ht), (li_owner _ _ H).
  pose proof (few_tickets s H). apply lookup_lt_Some in Hj. case_bool_decide as E.
  - subst. rewrite Z.add_0_r. apply Z.eqb_refl.
  - apply Z.eqb_neq. intros Em. apply u32_same in Em; lia.
Qed.

(** The three kinds of quiet step: the holder's, a waiter's that goes on waiting, and the
    one that wins. *)
Lemma inv_hold s i l' p' :
  lock_inv n s → inside (m_pc s i) = true → inside p' = true →
  l_next l' = l_next (m_lock s) → l_owner l' = l_owner (m_lock s) → local_ok l' p' →
  l_nlock l' = u64 (served s + if counted p' then 1 else 0) →
  lock_inv n (mkM l' (set_pc i p' (m_pc s)) (order s) (served s)).
Proof.
  intros H Hi Hp En Eo Hl Hc. apply inv_quiet; auto.
  - rewrite (li_in _ _ H), Hi, Hp. tauto.
  - by destruct p'.
  - intros _. by apply H.
  - by destruct p'.
Qed.

Lemma inv_stay s i t p' :
  lock_inv n s → waits_for (m_pc s i) = Some t → waits_for p' = Some t →
  lock_inv n (mkM (m_lock s) (set_pc i p' (m_pc s)) (order s) (served s)).
Proof.
  intros H Hi Hp. assert (inside p' = false ∧ counted p' = false) as [Hp1 Hp2] by (by destruct p').
  assert (inside (m_pc s i) = false ∧ counted (m_pc s i) = false) as [Hi1 Hi2] by (by destruct (m_pc s i)).
  apply inv_quiet; auto.
  - rewrite (li_in _ _ H), Hi, Hp, Hi1, Hp1. tauto.
  - congruence.
  - congruence.
  - by destruct p'.
  - by apply local_out.
  - right. split_and!; congruence.
Qed.

Lemma inv_win s i t t0 :
  lock_inv n s → waits_for (m_pc s i) = Some t → order s !! 0%nat = Some i →
  lock_inv n (mkM (m_lock s) (set_pc i (Won t0) (m_pc s)) (order s) (served s)).
Proof.
  intros H Hi Hh. assert (inside (m_pc s i) = false ∧ counted (m_pc s i) = false) as [Hi1 Hi2] by (by destruct (m_pc s i)).
  apply inv_quiet; auto.
  - split; [by left|]. intros _. by eapply list_elem_of_lookup_2.
  - done.
  - done.
  - apply (li_held _ _ H). intros j. destruct (inside (m_pc s j)) eqn:E; [|done].
    pose proof (li_head _ _ H j E). congruence.
Qed.

Lemma inv_aside s i p' :
  lock_inv n s → inside (m_pc s i) = false → waits_for (m_pc s i) = None →
  p' = Out ∨ p' = Tries (l_owner (m_lock s)) (served s) →
  lock_inv n (mkM (m_lock s) (set_pc i p' (m_pc s)) (order s) (served s)).
Proof.
  intros H Hi Hw Hp. pose proof (no_ticket s i H Hi Hw) as Hno.
  assert (counted (m_pc s i) = false) as Hc.
  { destruct (counted (m_pc s i)) eqn:E; [|done]. apply counted_inside in E. congruence. }
  assert (inside p' = false ∧ waits_for p' = None ∧ counted p' = false) as (Hp1 & Hp2 & Hp3)
    by (by destruct Hp as [->| ->]).
  apply inv_quiet; auto; rewrite ?Hp1, ?Hp2; try done.
  - split; [done|]. intros [?|[? ?]]; done.
  - intros t s0 ->. destruct Hp as [?|Hp]; [done|]. injection Hp as -> ->.
    split; [|apply H]. pose proof (li_served _ _ H). lia.
  - by apply local_out.
  - right. split_and!; congruence.
Qed.

Lemma advance_keeps i k c s : lock_inv n s → (i < n)%nat → timely (m_pc s i) s → lock_inv n (advance i k c s).
Proof.
  intros H Hi Htm. unfold advance. pose proof (li_local _ _ H i) as Hl.
  assert (∀ t, waits_for (m_pc s i) = Some t → ∃ j, order s !! j = Some i ∧
            (l_owner (m_lock s) =? t) = bool_decide (j = 0%nat)) as Hw.
  { intros t Ht. assert (i ∈ order s) as [j Hj]%list_elem_of_lookup by (apply H; right; by eexists).
    exists j. split; [done|]. by eapply first_ticket. }
  assert (inside (m_pc s i) = true →
    l_nlock (m_lock s) = u64 (served s + if counted (m_pc s i) then 1 else 0)) as Hh.
  { intros E. pose proof (li_head _ _ H i E) as E0. rewrite (li_nlock _ _ H).
    destruct (order s); [done|]. cbn in E0. by injection E0 as ->. }
  destruct (m_pc s i) as [|t|t|t t0|t0|t0|t0 v|t0|t0 v|t0|v| |t|t|t s0] eqn:Ei; cbn [turn takes gives_back] in *.
  - destruct k; [by apply inv_take; rewrite ?Ei; auto|by apply inv_aside; rewrite ?Ei; auto].
  - destruct (Hw t eq_refl) as (j & Hj & ->). case_bool_decide; subst; cbn [negb].
    + eapply inv_win; [done|by rewrite Ei|done].
    + eapply inv_stay; [done|by rewrite Ei|done].
  - eapply inv_stay; [done|by rewrite Ei|done].
  - destruct (Hw t eq_refl) as (j & Hj & ->). case_bool_decide; subst; cbn [negb].
    + eapply inv_win; [done|by rewrite Ei|done].
    + eapply inv_stay; [done|by rewrite Ei|done].
  - apply inv_hold; rewrite ?Ei; auto; done.
  - apply inv_hold; rewrite ?Ei; auto; done.
  - destruct Hl as [Hl ->]. apply inv_hold; rewrite ?Ei; try done; [by destruct (t0 =? 0)..|].
    cbn [set_nlock l_nlock]. rewrite Hh by done. unfold u64, wrap. rewrite Z.add_mod_idemp_l by lia.
    destruct (t0 =? 0); cbn [counted]; f_equal; lia.
  - apply inv_hold; rewrite ?Ei; auto; done.
  - apply inv_hold; rewrite ?Ei; auto; done.
  - apply inv_hold; rewrite ?Ei; auto; done.
  - apply inv_hold; rewrite ?Ei; auto; done.
  - apply inv_hold; rewrite ?Ei; auto; done.
  - apply inv_hold; rewrite ?Ei; auto. by destruct Hl.
  - by apply (inv_give s i t).
  - destruct (li_try _ _ H i t s0 Ei) as [Hs0 ->]. destruct (_ =? _) eqn:E.
    + apply Z.eqb_eq in E. rewrite <-E. apply inv_take; rewrite ?Ei; auto. right. split; [done|].
      rewrite (li_next _ _ H) in E. symmetry in E. cbn [timely] in Htm.
      replace (served s + _) with (s0 + (served s + Z.of_nat (length (order s)) - s0)) in E by lia.
      apply u32_same in E; [|lia]. apply length_zero_iff_nil. lia.
    + apply inv_aside; rewrite ?Ei; auto.
Qed.

Lemma boot_lock_inv : lock_inv n boot_lock.
Proof.
  split; cbn; try done; try (by intros ? ?; set_solver); try constructor.
  - by intros ?%elem_of_nil.
  - intros [?|[? ?]]; done.
Qed.

Lemma run_keeps s s' : rtc (timely_step n) s s' → lock_inv n s → lock_inv n s'.
Proof. induction 1 as [|? ? ? [i k c s1 Hi Ht] _ IH]; [done|]. intros H. by apply IH, advance_keeps. Qed.

(** How the line moves in a step. *)
Lemma line_moves s s' : timely_step n s s' → lock_inv n s →
  (served s' = served s ∧ ∃ more, order s' = order s ++ more) ∨
  (served s' = served s + 1 ∧ ∃ i, order s = i :: order s').
Proof.
  intros [i k c s1 Hi Ht] H. unfold advance. destruct (turn _ _ _ _ _) as [l' p']. cbn [order served].
  destruct (gives_back (m_pc s1 i)) eqn:Eg.
  - destruct (m_pc s1 i) eqn:Ei; try done. right. split; [done|]. exists i. cbn [takes].
    pose proof (li_head _ _ H i ltac:(by rewrite Ei)) as E. destruct (order s1); [done|]. cbn in E. by injection E as ->.
  - left. split; [done|]. destruct (takes _ _ _); [by exists [i]|exists []; by rewrite app_nil_r].
Qed.

Lemma served_mono s s' : rtc (timely_step n) s s' → lock_inv n s → served s <= served s'.
Proof.
  induction 1 as [s|s s1 s2 Hs Hr IH]; intros H; [lia|].
  assert (lock_inv n s1) as H1 by (apply (run_keeps s); [by apply rtc_once|done]). specialize (IH H1).
  destruct (line_moves s s1 Hs H) as [(? & _)|(? & _)]; lia.
Qed.

(** A cpu keeps its place in the line until those before it are done. *)
Lemma keeps_place i j s s' : rtc (timely_step n) s s' → lock_inv n s → order s !! j = Some i →
  served s <= served s' ∧
  (served s' <= served s + Z.of_nat j → order s' !! Z.to_nat (served s + Z.of_nat j - served s') = Some i).
Proof.
  intros Hr. revert j. induction Hr as [s|s s1 s2 Hs Hr IH]; intros j H Hj.
  - split; [lia|]. intros _. by replace (Z.to_nat _) with j by lia.
  - assert (lock_inv n s1) as H1 by (apply (run_keeps s); [by apply rtc_once|done]).
    destruct (line_moves s s1 Hs H) as [(Es & more & Eo)|(Es & k & Eo)].
    + destruct (IH j H1) as [Hle Hp]; [rewrite Eo; by apply lookup_app_l_Some|]. rewrite <-Es. done.
    + rewrite Eo in Hj. destruct j as [|j].
      * pose proof (served_mono s1 s2 Hr H1). split; lia.
      * destruct (IH j H1 Hj) as [Hle Hp]. split; [lia|]. intros Hd.
        replace (Z.to_nat (served s + _ - _)) with (Z.to_nat (served s1 + Z.of_nat j - served s2)) by lia.
        apply Hp. lia.
Qed.
End keep.

(** A schedule: which cpu, what it asks for if it is outside, and its clock. *)
Fixpoint play (l : list (nat * call * Z)) (s : mstate) : mstate :=
  match l with [] => s | (i, k, c) :: l => play l (advance i k c s) end.

(** A cpu that calls only lock is never in canlock. *)
Lemma no_try i s : (∀ i t s0, m_pc s i ≠ Tries t s0) → timely (m_pc s i) s.
Proof. intros Hs. pose proof (Hs i) as Hsi. destruct (m_pc s i); cbn; (done || by edestruct Hsi). Qed.
Lemma no_try_advance i c s : (∀ i t s0, m_pc s i ≠ Tries t s0) → ∀ j t s0, m_pc (advance i CLock c s) j ≠ Tries t s0.
Proof.
  intros Hs j t s0. unfold advance. destruct (turn _ _ _ _ _) as [l' p'] eqn:E. cbn [m_pc]. unfold set_pc. case_decide; [|apply Hs].
  intros ->. pose proof (Hs i) as Hsi. destruct (m_pc s i); cbn in E; repeat case_match; simplify_eq; by edestruct Hsi.
Qed.

Lemma play_runs n l s :
  Forall (λ x, (x.1.1 < n)%nat ∧ x.1.2 = CLock) l → (∀ i t s0, m_pc s i ≠ Tries t s0) → rtc (timely_step n) s (play l s).
Proof.
  intros Hl. revert s. induction Hl as [|[[i k] c] l [Hi Hk] Hl IH]; intros s Hs; [done|]. cbn in Hi, Hk. subst k.
  eapply rtc_l; [apply (MStep n i CLock c); [done|by apply no_try]|]. apply IH. by apply no_try_advance.
Qed.

(** * The waiting that is counted *)








Section tallies.
Context (n : nat) (Hn : Z.of_nat n < 2 ^ 32).






End tallies.

(** * What is shown *)


(** Two cpus race for the lock; the first to take a ticket is let in. *)
Definition demo_race : mstate :=
  play ((0%nat, CLock, 5) :: (1%nat, CLock, 5) :: (1%nat, CLock, 6) :: (1%nat, CLock, 7) ::
        replicate 4 (0%nat, CLock, 5)) boot_lock.



(** C14: the lock serves in arrival order, in the same runs.  A cpu that took its ticket with [j] cpus in the
    line before it is let in after exactly [j] of them handed the lock on: until then it
    stays in line with one less before it each time and is not inside; then it is the
    first, the only one that can be inside, and unless it is already its next read of
    [owner] lets it in. *)
Theorem lock_in_turn n s s' i j k c :
  Z.of_nat n < 2 ^ 32 → rtc (timely_step n) boot_lock s → order s !! j = Some i → rtc (timely_step n) s s' →
  (served s' < served s + Z.of_nat j → is_Some (waits_for (m_pc s' i)) ∧
     order s' !! Z.to_nat (served s + Z.of_nat j - served s') = Some i) ∧
  (served s' = served s + Z.of_nat j → order s' !! 0%nat = Some i ∧
     (∀ i', inside (m_pc s' i') = true → i' = i) ∧
     match m_pc s' i with
     | Queued _ | Spins _ _ => inside (m_pc (advance i k c s') i) = true
     | Missed t => m_pc (advance i k c s') i = Spins t c
     | p => inside p = true
     end).
Proof.
  intros Hn Hr Hj Hr'. pose proof (run_keeps n Hn _ _ Hr (boot_lock_inv n Hn)) as H.
  pose proof (run_keeps n Hn _ _ Hr' H) as H'. destruct (keeps_place n Hn i j s s' Hr' H Hj) as [Hle Hp]. split.
  - intros Hs. specialize (Hp ltac:(lia)). split; [|done].
    destruct (proj1 (li_in _ _ H' i)) as [E|E]; [by eapply list_elem_of_lookup_2| |done].
    apply (li_head _ _ H') in E. pose proof (NoDup_lookup _ _ _ _ (li_nodup _ _ H') Hp E). lia.
  - intros Hs. specialize (Hp ltac:(lia)). replace (Z.to_nat _) with 0%nat in Hp by lia. split; [done|]. split.
    { intros i' E%(li_head _ _ H'). congruence. }
    assert (∀ t, waits_for (m_pc s' i) = Some t → (l_owner (m_lock s') =? t) = true) as Hf.
    { intros t Ht. by rewrite (first_ticket n Hn s' 0 i t H' Hp Ht). }
    assert (i ∈ order s') as Hin%(li_in _ _ H') by (by eapply list_elem_of_lookup_2).
    unfold advance. destruct (m_pc s' i) as [|t|t|t t0|t0|t0|t0 v|t0|t0 v|t0|v| |t|t|t s0] eqn:Ei; try done;
      try (by destruct Hin as [?|[? ?]]); cbn; rewrite set_pc_eq; rewrite ?(Hf t) by done; done.
Qed.

Lemma lock_in_turn_witness :
  order demo_race !! 1%nat = Some 1%nat ∧
  let s' := play (replicate 3 (0%nat, CLock, 0)) demo_race in
  served s' = served demo_race + 1 ∧ inside (m_pc (advance 1 CLock 0 s') 1) = true.
Proof.
  split; [by vm_compute|]. split; [by vm_compute|].
  assert (rtc (timely_step 2) boot_lock demo_race) as Hr by (apply play_runs; [repeat constructor; simpl; lia|done]).
  destruct (lock_in_turn 2 demo_race (play (replicate 3 (0%nat, CLock, 0)) demo_race) 1 1 CLock 0) as [_ H];
    [lia|done|by vm_compute| |].
  - apply play_runs; [repeat constructor; simpl; lia|].
    intros [|[|i]] t s0; by vm_compute.
  - destruct H as (_ & _ & H); [by vm_compute|]. exact H.
Defined.
