(* ===== verification/Buf.v ===== *)
(** los.buf, the mutable run of bytes of src/src/buf.c, over the chunks and the accounting
    of the kernel (Ports.v, Serialize.v).

    A buffer is a userdata that points into a chunk: one owns it, and any number of views
    look at part of it.  The store is explicit, so that two buffers over the same bytes
    see each other's writes, and reading or writing outside a chunk, or in one already
    freed, is a fault. *)

From S2P Require Import Prelude Ports Serialize.
From stdpp Require Import prelude list gmap strings.
From Stdlib Require Import ZArith Lia.
Open Scope Z_scope.

(** * The state *)

(** struct luabuf, with the uservalue a view keeps its parent by; a pointer is a chunk and
    an offset into it. *)
Record luabuf : Type := mkBuf {
  b_p : option (nat * Z);
  b_len : Z;
  b_ro : bool;
  b_owned : bool;
  b_views : Z;
  b_parent : option nat;
}.
Definition set_b_p (v : option (nat * Z)) (b : luabuf) : luabuf :=
  mkBuf v (b_len b) (b_ro b) (b_owned b) (b_views b) (b_parent b).
Definition set_b_views (v : Z) (b : luabuf) : luabuf :=
  mkBuf (b_p b) (b_len b) (b_ro b) (b_owned b) v (b_parent b).

Record bst : Type := mkBst {
  b_k : kst;
  b_objs : gmap nat luabuf;
  b_nallocs : Z;
}.
Definition set_b_k (v : kst) (s : bst) : bst := mkBst v (b_objs s) (b_nallocs s).
Definition set_b_objs (v : gmap nat luabuf) (s : bst) : bst := mkBst (b_k s) v (b_nallocs s).

Definition BM (A : Type) : Type := ST bst (lout A).
Definition bret {A} (a : A) : BM A := st_ret (Val a).
Definition braise {A} (msg : string) : BM A := st_ret (Raise msg).
Definition bbind {A B} (m : BM A) (k : A → BM B) : BM B :=
  st_bind m (λ r, match r with Val a => k a | Raise e => st_ret (Raise e) end).
Notation "'go!' x ':=' m 'in' k" := (bbind m (λ x, k))
  (at level 10, x pattern, m at level 100, k at level 200) : nlos_scope.

(** A step of the kernel. *)
Definition kb {A} (m : KM A) : BM A := λ s,
  match m (b_k s) with Ok (a, σ) => Ok (Val a, set_b_k σ s) | Err e => Err e end.
Definition get_obj (o : nat) : BM luabuf := λ s,
  match b_objs s !! o with Some b => Ok (Val b, s) | None => Err UseAfterFree end.
Definition put_obj (o : nat) (b : luabuf) : BM unit := λ s,
  Ok (Val tt, set_b_objs (<[o:=b]> (b_objs s)) s).

(** ** Memory *)

(** [n] bytes at index [i] of a pointer. *)
Definition in_chunk (σ : kst) (q : nat * Z) (i n : Z) : result (list Z) :=
  if decide (fst q ∈ k_chunks σ) then
    match k_bytes σ !! fst q with
    | Some l =>
        if (0 <=? snd q + i) && (snd q + i + n <=? Z.of_nat (length l)) then Ok l else Err OutOfBounds
    | None => Err UseAfterFree
    end
  else Err UseAfterFree.

Definition peek (q : nat * Z) (i n : Z) : KM (list Z) := λ σ,
  match in_chunk σ q i n with
  | Ok l => Ok (take (Z.to_nat n) (drop (Z.to_nat (snd q + i)) l), σ)
  | Err e => Err e
  end.

Definition poke (q : nat * Z) (i : Z) (v : list Z) : KM unit := λ σ,
  match in_chunk σ q i (Z.of_nat (length v)) with
  | Ok l =>
      let k := Z.to_nat (snd q + i) in
      Ok (tt, set_k_bytes (<[fst q := take k l ++ v ++ drop (k + length v) l]> (k_bytes σ)) σ)
  | Err e => Err e
  end.

(** platform_chunk_alloc, which is malloc: null, or a block of size_t(n + sizeof struct hdr)
    bytes less the header.  The sum wraps for a request within a header of the top of the
    address space, and the block then has no byte for the caller.  [junk] is what the
    memory held. *)
Definition hdr_size (σ : kst) : Z := 2 * (k_szbits σ / 8).
Definition block_bytes (σ : kst) (n : Z) : Z := size_t σ (n + hdr_size σ) - hdr_size σ.
Definition chunk_alloc (junk : nat → Z) (n : Z) : KM (option nat) :=
  let! c := malloc in
  match c with
  | None => st_ret None
  | Some c =>
      st_modify (λ σ, set_k_bytes (<[c := List.map junk (seq 0 (Z.to_nat (block_bytes σ n)))]> (k_bytes σ))
                        (set_k_chunks (k_chunks σ ∪ {[c]}) σ)) ;;;
      st_ret (Some c)
  end.

(** platform_chunk_free of a pointer. *)
Definition free_at (q : nat * Z) : KM unit := if snd q =? 0 then chunk_free (fst q) else st_fail DoubleFree.

(** memmove and memcpy of [n] bytes; memcpy of bytes that overlap has no meaning. *)
Definition memmove (d s : nat * Z) (n : Z) : KM unit := let! v := peek s 0 n in poke d 0 v.
Definition overlaps (d s : nat * Z) (n : Z) : bool :=
  (fst d =? fst s)%nat && (snd s <? snd d + n) && (snd d <? snd s + n).
Definition memcpy (d s : nat * Z) (n : Z) : KM unit :=
  if overlaps d s n then st_fail OutOfBounds else memmove d s n.

(** * The code *)

Definition i64 (z : Z) : Z := sint 64 z.
Definition GCDEBT : Z := 64 * 1024.

(** src/proc.c *)
Definition kbuf_step_due (p : nat) (n : Z) : KM bool :=
  let! a := get_acct p in
  let! σ := st_get in
  let d := size_t σ (buf_debt a + n) in
  if d <? GCDEBT then put_acct p (set_buf_debt d a) ;;; st_ret false
  else put_acct p (set_buf_debt 0 a) ;;; st_ret true.

(** lua's own allocations, drawn from the same sequence as malloc; they raise. *)
Definition lua_mem : BM nat :=
  go! a := kb malloc in match a with None => braise "not enough memory" | Some o => bret o end.

Definition lua_newuserdatauv (b : luabuf) : BM nat :=
  go! o := lua_mem in go! _ := put_obj o b in bret o.

Section buf.
(** The proc that runs; what fresh memory holds; what a collector step does, finalizers
    included, with these userdata on the stack. *)
Context (p : nat) (junk : nat → Z) (gc : list nat → bst → bst).

Definition gcpressure (stack : list nat) (n : Z) : BM unit :=
  go! due := kb (kbuf_step_due p n) in
  if due then λ s, Ok (Val tt, gc stack s) else bret tt.

Definition checkbuf (o : nat) : BM luabuf :=
  go! b := get_obj o in
  match b_p b with None => braise "buffer has been given away" | Some _ => bret b end.

Definition checkwritable (o : nat) : BM luabuf :=
  go! b := checkbuf o in
  if b_ro b then braise "buffer is read-only" else bret b.

(** b->p where the code has just checked it. *)
Definition ptr (b : luabuf) : BM (nat * Z) :=
  match b_p b with Some q => bret q | None => λ _, Err NullDeref end.

(** What a payload argument can be. *)
Inductive payload : Type := PStr (s : list Z) | PBuf (o : nat) | POther.

(** luabuf_bytes: the pointer and length, a string's being storage of its own. *)
Definition luabuf_bytes (v : payload) : BM (option ((nat * Z + list Z) * Z)) :=
  match v with
  | PStr s => bret (Some (inr s, Z.of_nat (length s)))
  | PBuf o =>
      go! b := get_obj o in
      match b_p b with
      | None => braise "buffer has been given away"
      | Some q => bret (Some (inl q, b_len b))
      end
  | POther => bret None
  end.

Definition luabuf_check (v : payload) : BM ((nat * Z + list Z) * Z) :=
  go! r := luabuf_bytes v in
  match r with None => braise "bad argument (string or buffer expected)" | Some x => bret x end.

(** string.sub's reading of [i] and [j]: a zero-based offset and a length. *)
Definition range (len i j : Z) : Z * Z :=
  let i := if i <? 0 then i64 (len + i + 1) else i in
  let j := if j <? 0 then i64 (len + j + 1) else j in
  let i := if i <? 1 then 1 else i in
  let j := if len <? j then len else j in
  if j <? i then (0, 0) else (i - 1, j - i + 1).

(** Called with [stack] below its own result. *)
Definition buf_new (stack : list nat) (n fill : Z) : BM nat :=
  go! σ := kb st_get in
  let n := size_t σ n in
  if n =? 0 then braise "a buffer of no bytes" else
  go! ok := kb (kbuf_charge p n) in
  if negb ok then braise "not enough memory for %d bytes" else
  go! c := kb (chunk_alloc junk n) in
  match c with
  | None => go! _ := kb (kbuf_uncharge p n) in braise "not enough memory for %d bytes"
  | Some c =>
      go! _ := kb (poke (c, 0) 0 (replicate (Z.to_nat n) (Z.land (sint 32 fill) 0xff))) in
      go! o := lua_newuserdatauv (mkBuf (Some (c, 0)) n false true 0 None) in
      go! _ := (λ s, Ok (Val tt, mkBst (b_k s) (b_objs s) (u64 (b_nallocs s + 1)))) in
      go! _ := gcpressure (o :: stack) n in
      bret o
  end.

Definition buf_gc (o : nat) : BM unit :=
  go! b := get_obj o in
  go! _ :=
    match b_p b, b_owned b with
    | Some q, true => go! _ := kb (free_at q) in kb (kbuf_uncharge p (b_len b))
    | _, false =>
        match b_parent b with
        | Some o' =>
            go! par := get_obj o' in
            if 0 <? b_views par then put_obj o' (set_b_views (b_views par - 1) par) else bret tt
        | None => bret tt
        end
    | None, true => bret tt
    end in
  go! b := get_obj o in
  put_obj o (set_b_p None b).

Definition buf_len (o : nat) : BM Z := go! b := checkbuf o in bret (b_len b).

Definition buf_sub (o : nat) (i j : Z) : BM (list Z) :=
  go! b := checkbuf o in
  let (off, n) := range (b_len b) i j in
  go! q := ptr b in
  go! _ := lua_mem in
  kb (peek q off n).

Definition buf_byte (o : nat) (i j : Z) : BM (list Z) :=
  go! b := checkbuf o in
  let (off, n) := range (b_len b) i j in
  if n =? 0 then bret [] else
  if 250 <? n then braise "byte: %d is too many at once" else
  go! ok := kb lua_checkstack in
  if negb ok then braise "stack overflow (buffer bytes)" else
  go! q := ptr b in
  kb (peek q off n).

(** The bytes are checked as they are written; None is an argument that is no integer. *)
Fixpoint set_bytes (q : nat * Z) (i : Z) (vals : list (option Z)) : BM unit :=
  match vals with
  | [] => bret tt
  | None :: _ => braise "bad argument (number expected)"
  | Some v :: vals => go! _ := kb (poke q i [Z.land v 0xff]) in set_bytes q (i + 1) vals
  end.

Definition buf_set (o : nat) (i : Z) (vals : list (option Z)) : BM unit :=
  go! b := checkwritable o in
  go! σ := kb st_get in
  if (i <? 1) || (b_len b <? size_t σ (size_t σ (i - 1) + Z.of_nat (length vals)))
  then braise "set: outside the buffer"
  else go! q := ptr b in set_bytes q (i - 1) vals.

(** A run of a payload copied to [i] of a pointer. *)
Definition copy_run (q : nat * Z) (i : Z) (s : nat * Z + list Z) (from n : Z) : KM unit :=
  let dst := (fst q, snd q + i) in
  match s with
  | inr s => poke dst 0 (take (Z.to_nat n) (drop (Z.to_nat from) s))
  | inl s =>
      let src := (fst s, snd s + from) in
      if overlaps dst src n then memmove dst src n else memcpy dst src n
  end.

(** 0 results, or the number of bytes. *)
Definition buf_copy (o : nat) (i : Z) (src : payload) (from to : Z) : BM (option Z) :=
  go! b := checkwritable o in
  go! s := luabuf_bytes src in
  match s with
  | None => braise "copy: a string or a buffer"
  | Some (s, slen) =>
      let from := if from <? 0 then i64 (slen + from + 1) else from in
      let to := if to <? 0 then i64 (slen + to + 1) else to in
      let from := if from <? 1 then 1 else from in
      let to := if slen <? to then slen else to in
      if to <? from then bret None else
      go! σ := kb st_get in
      let n := size_t σ (to - from + 1) in
      if (i <? 1) || (b_len b <? size_t σ (size_t σ (i - 1) + n))
      then braise "copy: %d bytes at %d is outside the buffer (%d)"
      else
        go! q := ptr b in
        go! _ := kb (copy_run q (i - 1) s (from - 1) n) in
        bret (Some n)
  end.

Definition buf_fill (o : nat) (v i j : Z) : BM unit :=
  go! b := checkwritable o in
  let (off, n) := range (b_len b) i j in
  go! q := ptr b in
  kb (poke q off (replicate (Z.to_nat n) (Z.land (sint 32 v) 0xff))).

(** The loops of getint and setint, from byte [k] on. *)
Fixpoint get_loop (q : nat * Z) (i nbytes : Z) (be : bool) (m : nat) (k v : Z) : KM Z :=
  match m with
  | O => st_ret v
  | S m =>
      let! c := peek q (i + (if be then k else nbytes - 1 - k)) 1 in
      get_loop q i nbytes be m (k + 1) (Z.lor (u64 (Z.shiftl v 8)) (nth 0 c 0))
  end.
Fixpoint set_loop (q : nat * Z) (i nbytes : Z) (be : bool) (m : nat) (k v : Z) : KM unit :=
  match m with
  | O => st_ret tt
  | S m =>
      poke q (i + (if be then nbytes - 1 - k else k)) [u8 (Z.shiftr v (8 * k))] ;;;
      set_loop q i nbytes be m (k + 1) v
  end.

Definition getint (o : nat) (i nbytes : Z) (be : bool) : BM Z :=
  go! b := checkbuf o in
  go! σ := kb st_get in
  if (i <? 1) || (b_len b <? size_t σ (size_t σ (i - 1) + nbytes))
  then braise "%d bytes at %d is outside the buffer (%d)"
  else go! q := ptr b in kb (get_loop q (i - 1) nbytes be (Z.to_nat nbytes) 0 0).

Definition setint (o : nat) (i v nbytes : Z) (be : bool) : BM unit :=
  go! b := checkwritable o in
  go! σ := kb st_get in
  if (i <? 1) || (b_len b <? size_t σ (size_t σ (i - 1) + nbytes))
  then braise "%d bytes at %d is outside the buffer (%d)"
  else go! q := ptr b in kb (set_loop q (i - 1) nbytes be (Z.to_nat nbytes) 0 (u64 v)).

Definition GETTER (n : Z) (be : bool) (o : nat) (i : Z) : BM Z :=
  go! v := getint o i n be in bret (i64 v).
Definition SETTER (n : Z) (be : bool) (o : nat) (i v : Z) : BM unit := setint o i v n be.
Definition buf_u8 := GETTER 1 false.
Definition buf_u16le := GETTER 2 false.
Definition buf_u16be := GETTER 2 true.
Definition buf_u32le := GETTER 4 false.
Definition buf_u32be := GETTER 4 true.
Definition buf_u64le := GETTER 8 false.
Definition buf_u64be := GETTER 8 true.
Definition buf_setu8 := SETTER 1 false.
Definition buf_setu16le := SETTER 2 false.
Definition buf_setu16be := SETTER 2 true.
Definition buf_setu32le := SETTER 4 false.
Definition buf_setu32be := SETTER 4 true.
Definition buf_setu64le := SETTER 8 false.
Definition buf_setu64be := SETTER 8 true.

(** A view of [n] bytes from [off]: the userdata, then the parent's count. *)
Definition new_view (o : nat) (b : luabuf) (off n : Z) (ro : bool) : BM nat :=
  go! q := ptr b in
  go! v := lua_newuserdatauv (mkBuf (Some (fst q, snd q + off)) n ro false 0 (Some o)) in
  go! b := get_obj o in
  go! _ := put_obj o (set_b_views (b_views b + 1) b) in
  bret v.

Definition buf_view (o : nat) (i j : Z) : BM nat :=
  go! b := checkbuf o in
  let (off, n) := range (b_len b) i j in
  new_view o b off n (b_ro b).

Definition buf_ro (o : nat) : BM nat :=
  go! b := checkbuf o in new_view o b 0 (b_len b) true.

Definition luabuf_pushview (o : nat) (off len : Z) : BM nat :=
  go! b := checkbuf o in
  go! σ := kb st_get in
  if (b_len b <? off) || (b_len b <? size_t σ (off + len)) then braise "view outside the buffer"
  else new_view o b off len (b_ro b).

Definition buf_is (v : payload) : bool := match v with PBuf _ => true | _ => false end.
Definition luabuf_isbuf (v : payload) : bool := match v with PBuf _ => true | _ => false end.

Definition movable (b : luabuf) : bool :=
  match b_p b with Some _ => b_owned b && negb (b_ro b) && (b_views b =? 0) | None => false end.
Definition buf_movable (o : nat) : BM bool := go! b := get_obj o in bret (movable b).

Definition buf_clone (o : nat) : BM nat :=
  go! b := checkbuf o in
  go! c := buf_new [o] (b_len b) 0 in
  go! bc := get_obj c in
  go! b := get_obj o in
  go! d := ptr bc in
  go! s := ptr b in
  go! _ := kb (memcpy d s (b_len b)) in
  bret c.

(** __eq: both sides are userdata, None one that is no buffer. *)
Definition buf_eq (x y : option nat) : BM bool :=
  match x, y with
  | Some x, Some y =>
      go! a := get_obj x in
      go! b := get_obj y in
      match b_p a, b_p b with
      | Some qa, Some qb =>
          if negb (b_len a =? b_len b) then bret false else
          go! va := kb (peek qa 0 (b_len a)) in
          go! vb := kb (peek qb 0 (b_len b)) in
          bret (bool_decide (va = vb))
      | _, _ => bret false
      end
  | _, _ => bret false
  end.

(** ** Transfer *)

(** luabuf_borrow: the storage and its length, with the userdata as the handle. *)
Definition luabuf_borrow (v : payload) : BM (option (nat * Z * Z * nat)) :=
  match v with
  | PBuf o =>
      go! b := get_obj o in
      match b_p b with
      | Some q => if negb (b_owned b) || b_ro b || negb (b_views b =? 0) then bret None
                  else bret (Some (q, b_len b, o))
      | None => bret None
      end
  | _ => bret None
  end.

Definition luabuf_detach (o : nat) : BM unit :=
  go! b := get_obj o in
  go! _ := kb (kbuf_uncharge p (b_len b)) in
  put_obj o (set_b_p None b).

Definition luabuf_give (c : nat) (len : Z) : BM (option nat) :=
  go! ok := kb (kbuf_charge p len) in
  if negb ok then bret None else
  go! o := lua_newuserdatauv (mkBuf (Some (c, 0)) len false true 0 None) in
  bret (Some o).

Definition luabuf_alloc (n : Z) : BM (option nat) :=
  if n =? 0 then bret None else kb (chunk_alloc junk n).

Definition luabuf_free (c : option nat) : BM unit :=
  match c with Some c => kb (free_at (c, 0)) | None => bret tt end.

Definition luabuf_push (n : Z) : BM (option (nat * nat)) :=
  if n =? 0 then bret None else
  go! c := kb (chunk_alloc junk n) in
  match c with
  | None => bret None
  | Some c =>
      go! o := luabuf_give c n in
      match o with
      | None => go! _ := kb (free_at (c, 0)) in bret None
      | Some o =>
          go! _ := (λ s, Ok (Val tt, mkBst (b_k s) (b_objs s) (u64 (b_nallocs s + 1)))) in
          bret (Some (c, o))
      end
  end.

Definition luabuf_writable (v : payload) : BM (option (nat * Z * Z)) :=
  match v with
  | PBuf o =>
      go! b := get_obj o in
      if b_ro b then bret None else
      match b_p b with
      | None => braise "buffer has been given away"
      | Some q => bret (Some (q, b_len b))
      end
  | _ => bret None
  end.

End buf.
