(* ===== verification/BufOk.v ===== *)
(** Buffers and their views are safe: the invariant of los.buf, that every operation keeps
    it and touches no byte outside a live chunk, that a transfer leaves no view behind, and
    what the operations compute. *)

From S2P Require Import Prelude Ports Serialize Buf.
From stdpp Require Import prelude list gmap strings relations.
From Stdlib Require Import ZArith Lia.
Open Scope Z_scope.

(** * The invariant *)

(** The size of a live chunk. *)
Definition csize (σ : kst) (c : nat) : option Z :=
  if decide (c ∈ k_chunks σ) then Z.of_nat ∘ length <$> k_bytes σ !! c else None.

(** Is [v] a view of [o] that can still be used? *)
Definition looks_at (o : nat) (v : luabuf) : Z :=
  match b_p v with Some _ => if decide (b_parent v = Some o) then 1 else 0 | None => 0 end.
Definition live_views (o : nat) (m : gmap nat luabuf) : Z := msum (λ _ v, looks_at o v) m.

Record buf_ok (p : nat) (s : bst) : Prop := mkBufOk {
  bo_wide : k_szbits (b_k s) = 64;
  bo_acct : is_Some (k_acct (b_k s) !! p);
  bo_size : ∀ c n, csize (b_k s) c = Some n → 0 <= n < 2 ^ 63 ∧ (c < k_next (b_k s))%nat;
  bo_ptr : ∀ o b q, b_objs s !! o = Some b → b_p b = Some q →
    ∃ n, csize (b_k s) (fst q) = Some n ∧ 0 <= snd q ∧ 0 <= b_len b ∧ snd q + b_len b <= n ∧
         (b_owned b = true → snd q = 0 ∧ b_len b = n);
  bo_one : ∀ o1 o2 b1 b2 q1 q2, b_objs s !! o1 = Some b1 → b_objs s !! o2 = Some b2 →
    b_owned b1 = true → b_owned b2 = true → b_p b1 = Some q1 → b_p b2 = Some q2 → fst q1 = fst q2 → o1 = o2;
  bo_root : ∀ o b, b_objs s !! o = Some b → b_owned b = true → b_parent b = None;
  bo_view : ∀ o b, b_objs s !! o = Some b → b_owned b = false →
    ∃ o' b', b_parent b = Some o' ∧ b_objs s !! o' = Some b' ∧ (o' < o)%nat ∧
             ∀ q, b_p b = Some q → ∃ q', b_p b' = Some q' ∧ fst q' = fst q;
  bo_count : ∀ o b, b_objs s !! o = Some b → b_views b = live_views o (b_objs s);
  bo_id : ∀ o b, b_objs s !! o = Some b → (o < k_next (b_k s))%nat;
}.

(** The kernel under it may move on. *)
Record kmove (p : nat) (σ σ' : kst) : Prop := mkKmove {
  km_wide : k_szbits σ' = k_szbits σ;
  km_acct : is_Some (k_acct σ !! p) → is_Some (k_acct σ' !! p);
  km_size : ∀ c, csize σ' c = csize σ c;
  km_next : (k_next σ <= k_next σ')%nat;
}.

Lemma buf_ok_k p s σ' : buf_ok p s → kmove p (b_k s) σ' → buf_ok p (set_b_k σ' s).
Proof.
  intros H [K1 K2 K3 K4]. split; cbn [b_k b_objs set_b_k]; try apply H.
  - rewrite K1. apply H.
  - apply K2, H.
  - intros c n. rewrite K3. intros Hc%(bo_size _ _ H). split; [apply Hc|]. destruct Hc. lia.
  - intros o b q Ho Hq. rewrite K3. by apply (bo_ptr _ _ H o).
  - intros o b Ho%(bo_id _ _ H). lia.
Qed.

(** Who points into a chunk whose owner has no views: nobody else. *)
Lemma owner_alone p s o b q : buf_ok p s → b_objs s !! o = Some b → b_owned b = true → b_p b = Some q →
  b_views b = 0 → ∀ o2 b2 q2, b_objs s !! o2 = Some b2 → b_p b2 = Some q2 → fst q2 = fst q → o2 = o.
Proof.
  intros H Ho Hw Hq Hv o2. induction o2 as [o2 IH] using lt_wf_ind. intros b2 q2 Ho2 Hq2 E.
  destruct (b_owned b2) eqn:Hw2; [by apply (bo_one _ _ H o2 o b2 b q2 q)|].
  destruct (bo_view _ _ H o2 b2 Ho2 Hw2) as (o' & b' & Hp & Ho' & Hlt & Hf).
  destruct (Hf q2 Hq2) as (q' & Hq' & E'). assert (o' = o) as ->.
  { apply (IH o' Hlt b' q' Ho' Hq'). congruence. }
  exfalso. assert (1 <= live_views o (b_objs s)); [|rewrite <-(bo_count _ _ H o b Ho) in *; lia].
  unfold live_views. transitivity (looks_at o b2).
  - unfold looks_at. by rewrite Hq2, decide_True.
  - apply (msum_elem_le (λ _ v, looks_at o v) _ o2 b2); [|done]. intros k a _. unfold looks_at. repeat case_match; lia.
Qed.

(** * Memory *)

Lemma csize_Some σ c n : csize σ c = Some n →
  ∃ l, c ∈ k_chunks σ ∧ k_bytes σ !! c = Some l ∧ n = Z.of_nat (length l).
Proof.
  unfold csize. case_decide; [|done]. destruct (k_bytes σ !! c) as [l|]; [|done]. cbn. intros [= <-]. by exists l.
Qed.

Lemma in_chunk_ok σ q i n m l : csize σ (fst q) = Some m → k_bytes σ !! fst q = Some l →
  0 <= snd q + i → snd q + i + n <= m → in_chunk σ q i n = Ok l.
Proof.
  intros (l' & Hc & Hl & ->)%csize_Some Hl' H1 H2. unfold in_chunk. rewrite decide_True, Hl' by done.
  assert (l' = l) as -> by congruence. by rewrite (proj2 (Z.leb_le _ _)), (proj2 (Z.leb_le _ _)) by lia.
Qed.

Lemma peek_ok σ q i n m : csize σ (fst q) = Some m → 0 <= snd q + i → 0 <= n → snd q + i + n <= m →
  ∃ l, k_bytes σ !! fst q = Some l ∧ m = Z.of_nat (length l) ∧
       peek q i n σ = Ok (take (Z.to_nat n) (drop (Z.to_nat (snd q + i)) l), σ).
Proof.
  intros Hm H1 Hn H2. destruct (csize_Some _ _ _ Hm) as (l & Hc & Hl & ->). exists l. split; [done|]. split; [done|].
  unfold peek. by rewrite (in_chunk_ok σ q i n (Z.of_nat (length l)) l).
Qed.

(** The bytes after a write. *)
Definition patch (k : nat) (v l : list Z) : list Z := take k l ++ v ++ drop (k + length v) l.

Lemma patch_length k v l : (k + length v <= length l)%nat → length (patch k v l) = length l.
Proof. intros. unfold patch. rewrite !length_app, length_take, length_drop. lia. Qed.

Lemma poke_ok p σ q i v m : csize σ (fst q) = Some m → 0 <= snd q + i → snd q + i + Z.of_nat (length v) <= m →
  ∃ l, k_bytes σ !! fst q = Some l ∧ m = Z.of_nat (length l) ∧
       let σ' := set_k_bytes (<[fst q := patch (Z.to_nat (snd q + i)) v l]> (k_bytes σ)) σ in
       poke q i v σ = Ok (tt, σ') ∧ kmove p σ σ'.
Proof.
  intros Hm H1 H2. destruct (csize_Some _ _ _ Hm) as (l & Hc & Hl & ->). exists l. split; [done|]. split; [done|].
  cbn. unfold poke. rewrite (in_chunk_ok σ q i _ (Z.of_nat (length l)) l) by done. split; [done|].
  split; [done|done| |reflexivity]. intros c. unfold csize. cbn [k_chunks k_bytes set_k_bytes]. case_decide; [|done].
  destruct (decide (c = fst q)) as [->|?]; [|by rewrite lookup_insert_ne].
  rewrite lookup_insert_eq, Hl. cbn. rewrite patch_length by lia. done.
Qed.

(** * Running *)

Section ok.
Context (p : nat).

(** [m] returns, keeps the invariant and every userdata, and gives [Q] unless it raises. *)
Definition bruns {A} (P : bst → Prop) (m : BM A) (Q : A → bst → Prop) : Prop :=
  ∀ s, buf_ok p s → P s → ∃ r s', m s = Ok (r, s') ∧ buf_ok p s' ∧ dom (b_objs s) ⊆ dom (b_objs s') ∧
    match r with Val a => Q a s' | Raise _ => True end.

Definition has (o : nat) (s : bst) : Prop := o ∈ dom (b_objs s).

Lemma bruns_ret {A} (P : bst → Prop) (a : A) Q : (∀ s, P s → Q a s) → bruns P (bret a) Q.
Proof. intros H s Hs HP. exists (Val a), s. auto. Qed.

Lemma bruns_raise {A} (P : bst → Prop) e (Q : A → bst → Prop) : bruns P (braise e) Q.
Proof. intros s Hs _. exists (Raise e), s. auto. Qed.

Lemma bruns_bind {A B} (P : bst → Prop) (m : BM A) R (k : A → BM B) Q :
  bruns P m R → (∀ a, bruns (R a) (k a) Q) → bruns P (bbind m k) Q.
Proof.
  intros Hm Hk s Hs HP. destruct (Hm s Hs HP) as (r & s1 & E & H1 & D1 & HR).
  unfold bbind, st_bind. rewrite E. destruct r as [a|e].
  - destruct (Hk a s1 H1 HR) as (r & s2 & E2 & H2 & D2 & HQ). exists r, s2. split_and!; try done. set_solver.
  - by exists (Raise e), s1.
Qed.

Lemma bruns_conseq {A} (P P' : bst → Prop) (m : BM A) (Q Q' : A → bst → Prop) :
  bruns P' m Q' → (∀ s, P s → P' s) → (∀ a s, Q' a s → Q a s) → bruns P m Q.
Proof.
  intros Hm HP HQ s Hs Hp. destruct (Hm s Hs (HP s Hp)) as (r & s' & E & H1 & D & H).
  exists r, s'. split_and!; try done. destruct r; auto.
Qed.

(** A step of the kernel that moves on, from states that say enough. *)
Lemma bruns_kb {A} (P : bst → Prop) (m : KM A) (Q : A → bst → Prop) :
  (∀ s, buf_ok p s → P s → ∃ a σ', m (b_k s) = Ok (a, σ') ∧ kmove p (b_k s) σ' ∧ Q a (set_b_k σ' s)) →
  bruns P (kb m) Q.
Proof.
  intros H s Hs HP. destruct (H s Hs HP) as (a & σ' & E & Hk & HQ). unfold kb. rewrite E.
  exists (Val a), (set_b_k σ' s). split_and!; try done. by apply buf_ok_k.
Qed.

Lemma kmove_refl σ : kmove p σ σ.
Proof. by split. Qed.

(** ** The kernel's steps *)

Lemma malloc_move σ : ∃ a σ', malloc σ = Ok (a, σ') ∧ kmove p σ σ' ∧
  match a with Some o => o = k_next σ ∧ (o < k_next σ')%nat | None => True end.
Proof.
  unfold malloc. destruct (k_mem σ (k_nalloc σ)); eexists _, _; (split; [done|]); split_and!; try done.
  - split; try done. cbn. lia.
  - cbn. lia.
Qed.

Lemma acct_move σ a a' : k_acct σ !! p = Some a → kmove p σ (set_k_acct (<[p:=a']> (k_acct σ)) σ).
Proof. intros Ha. split; try done. intros _. cbn. by rewrite lookup_insert_eq. Qed.

Lemma charge_move σ n : is_Some (k_acct σ !! p) → ∃ ok σ', kbuf_charge p n σ = Ok (ok, σ') ∧ kmove p σ σ'.
Proof.
  intros [a Ha]. unfold kbuf_charge, get_acct, st_bind, st_get. rewrite Ha.
  destruct (_ && _); eexists _, _; (split; [done|]); [apply kmove_refl|by eapply acct_move].
Qed.

Lemma uncharge_move σ n : is_Some (k_acct σ !! p) → ∃ σ', kbuf_uncharge p n σ = Ok (tt, σ') ∧ kmove p σ σ'.
Proof.
  intros [a Ha]. unfold kbuf_uncharge, get_acct, st_bind, st_get. rewrite Ha.
  eexists. split; [done|]. by eapply acct_move.
Qed.

Lemma step_due_move σ n : is_Some (k_acct σ !! p) → ∃ due σ', kbuf_step_due p n σ = Ok (due, σ') ∧ kmove p σ σ'.
Proof.
  intros [a Ha]. unfold kbuf_step_due, get_acct, st_bind, st_get. rewrite Ha.
  destruct (_ <? _); eexists _, _; (split; [done|]); by eapply acct_move.
Qed.

Lemma checkstack_move σ : ∃ ok σ', lua_checkstack σ = Ok (ok, σ') ∧ kmove p σ σ'.
Proof.
  destruct (malloc_move σ) as (a & σ' & E & K & _). unfold lua_checkstack, st_bind. rewrite E.
  by eexists _, σ'.
Qed.

(** ** Checks *)

Definition is_buf (o : nat) (b : luabuf) (s : bst) : Prop := b_objs s !! o = Some b.

Lemma get_obj_runs o (P : bst → Prop) : (∀ s, P s → has o s) →
  bruns P (get_obj o) (λ b s, is_buf o b s ∧ P s).
Proof.
  intros Hh s Hs HP. pose proof (Hh s HP) as [b Hb]%elem_of_dom.
  exists (Val b), s. unfold get_obj. rewrite Hb. by split_and!.
Qed.

Definition pointed (o : nat) (b : luabuf) (s : bst) : Prop := is_buf o b s ∧ is_Some (b_p b).

Lemma checkbuf_runs o : bruns (has o) (checkbuf o) (pointed o).
Proof.
  eapply bruns_bind; [by apply get_obj_runs|]. intros b. cbn. destruct (b_p b) as [q|] eqn:E.
  - apply bruns_ret. intros s [H _]. split; [done|]. rewrite E. by eexists.
  - apply bruns_raise.
Qed.

Lemma checkwritable_runs o : bruns (has o) (checkwritable o) (λ b s, pointed o b s ∧ b_ro b = false).
Proof.
  eapply bruns_bind; [apply checkbuf_runs|]. intros b. destruct (b_ro b) eqn:E; [apply bruns_raise|].
  by apply bruns_ret.
Qed.

Lemma ptr_runs o b (P : bst → Prop) : (∀ s, P s → pointed o b s) →
  bruns P (ptr b) (λ q s, b_p b = Some q ∧ P s).
Proof.
  intros HP s Hs Hp. destruct (HP s Hp) as [Hb [q Hq]]. exists (Val q), s. unfold ptr. rewrite Hq. by split_and!.
Qed.

(** Reading the kernel's state changes nothing. *)
Lemma kget_runs (P : bst → Prop) : bruns P (kb st_get) (λ σ s, P s ∧ σ = b_k s ∧ k_szbits σ = 64).
Proof.
  intros s Hs HP. exists (Val (b_k s)), s. split; [by destruct s|]. split_and!; try done. apply Hs.
Qed.

(** A pointed buffer's bytes, read and written in range. *)
Lemma peek_runs o b q i n (P : bst → Prop) :
  (∀ s, P s → is_buf o b s) → b_p b = Some q → 0 <= i → 0 <= n → i + n <= b_len b →
  bruns P (kb (peek q i n)) (λ v s, P s ∧ length v = Z.to_nat n).
Proof.
  intros HP Hq Hi Hn Hl s Hs Hp. destruct (bo_ptr _ _ Hs o b q (HP s Hp) Hq) as (m & Hm & H1 & H2 & H3 & _).
  destruct (peek_ok (b_k s) q i n m Hm) as (l & Hl' & -> & E); [lia..|]. unfold kb. rewrite E.
  eexists (Val _), s. split; [by destruct s|]. split_and!; try done. rewrite length_take, length_drop. lia.
Qed.

Lemma poke_runs o b q i v (P : bst → Prop) :
  (∀ s, P s → is_buf o b s) → (∀ s σ', P s → P (set_b_k σ' s)) →
  b_p b = Some q → 0 <= i → i + Z.of_nat (length v) <= b_len b →
  bruns P (kb (poke q i v)) (λ _ s, P s).
Proof.
  intros HP Hst Hq Hi Hl. apply bruns_kb. intros s Hs Hp.
  destruct (bo_ptr _ _ Hs o b q (HP s Hp) Hq) as (m & Hm & H1 & H2 & H3 & _).
  destruct (poke_ok p (b_k s) q i v m Hm) as (l & _ & _ & E & K); [lia..|].
  eexists tt, _. split; [exact E|]. split; [exact K|]. by apply Hst.
Qed.

(** ** Indices *)

Definition luaint (z : Z) : Prop := - 2 ^ 63 <= z < 2 ^ 63.

Lemma i64_small z : luaint z → i64 z = z.
Proof.
  unfold luaint. intros Hz. unfold i64, sint, wrap. change (64 - 1) with 63. destruct (Z.lt_ge_cases z 0).
  - rewrite <-(Z.mod_unique z (2 ^ 64) (-1) (z + 2 ^ 64)) by lia.
    rewrite (proj2 (Z.ltb_ge _ _)) by lia. lia.
  - rewrite Z.mod_small by lia. by rewrite (proj2 (Z.ltb_lt _ _)) by lia.
Qed.

(** A negative index counts from the end. *)
Definition from_end (len i : Z) : Z := if i <? 0 then len + i + 1 else i.

Lemma from_end_i64 len i : 0 <= len < 2 ^ 63 → luaint i →
  (if i <? 0 then i64 (len + i + 1) else i) = from_end len i.
Proof.
  intros Hl Hi. unfold from_end, luaint in *. destruct (i <? 0) eqn:E; [|done]. apply Z.ltb_lt in E.
  apply i64_small. unfold luaint. lia.
Qed.

Lemma clamp_lo x : (if x <? 1 then 1 else x) = Z.max 1 x.
Proof. destruct (x <? 1) eqn:E; [apply Z.ltb_lt in E|apply Z.ltb_ge in E]; lia. Qed.
Lemma clamp_hi n x : (if n <? x then n else x) = Z.min n x.
Proof. destruct (n <? x) eqn:E; [apply Z.ltb_lt in E|apply Z.ltb_ge in E]; lia. Qed.

(** What range answers: the bytes from the larger of [i] and 1 to the smaller of [j] and
    the length, none if there are none. *)
Lemma range_spec len i j : 0 <= len < 2 ^ 63 → luaint i → luaint j →
  let lo := Z.max 1 (from_end len i) in let hi := Z.min len (from_end len j) in
  range len i j = if hi <? lo then (0, 0) else (lo - 1, hi - lo + 1).
Proof.
  intros Hl Hi Hj. unfold range. rewrite !from_end_i64 by done.
  by rewrite clamp_lo, clamp_hi.
Qed.

Lemma range_within len i j off n : 0 <= len < 2 ^ 63 → luaint i → luaint j → range len i j = (off, n) →
  0 <= off ∧ 0 <= n ∧ off + n <= len.
Proof.
  intros Hl Hi Hj. rewrite range_spec by done. destruct (_ <? _) eqn:E; intros [= <- <-]; [lia|].
  apply Z.ltb_ge in E. lia.
Qed.

(** The bound check of set, copy, getint and setint, with a 64-bit size_t. *)
Lemma bound_check σ b i n : k_szbits σ = 64 → luaint i → 0 <= n < 2 ^ 63 →
  (i <? 1) || (b_len b <? size_t σ (size_t σ (i - 1) + n)) = false → 0 <= i - 1 ∧ i - 1 + n <= b_len b.
Proof.
  unfold luaint, size_t. intros -> Hi Hn [E1%Z.ltb_ge E2%Z.ltb_ge]%orb_false_iff.
  rewrite (wrap_small 64 (i - 1)) in E2 by lia. rewrite wrap_small in E2 by lia. lia.
Qed.

Lemma pointed_len s o b : buf_ok p s → pointed o b s → 0 <= b_len b < 2 ^ 63.
Proof.
  intros Hs [Hb [q Hq]]. destruct (bo_ptr _ _ Hs o b q Hb Hq) as (n & Hn & ? & ? & ? & _).
  destruct (bo_size _ _ Hs _ _ Hn). lia.
Qed.

(** What is known of the state may be used before going on. *)
Lemma bruns_know {A} (P : bst → Prop) (F : Prop) (m : BM A) Q :
  (∀ s, buf_ok p s → P s → F) → (F → bruns P m Q) → bruns P m Q.
Proof. intros HF Hm s Hs HP. by apply (Hm (HF s Hs HP)). Qed.

Lemma lua_mem_runs (P : bst → Prop) : (∀ s σ', P s → P (set_b_k σ' s)) →
  bruns P lua_mem (λ o s, P s ∧ (o ∉ dom (b_objs s)) ∧ (o < k_next (b_k s))%nat).
Proof.
  intros Hst s Hs HP. destruct (malloc_move (b_k s)) as (a & σ' & E & K & Ha).
  unfold lua_mem, bbind, st_bind, kb. rewrite E. pose proof (buf_ok_k p s σ' Hs K). destruct a as [o|].
  - destruct Ha as [-> Hlt]. eexists (Val _), _. split; [done|]. split_and!; try done; [by apply Hst|].
    intros [b Hb]%elem_of_dom. apply (bo_id _ _ Hs) in Hb. lia.
  - by eexists (Raise _), _.
Qed.

(** ** The operations on bytes *)

Lemma checkbuf_bind {B} o (k : luabuf → BM B) Q :
  (∀ b, 0 <= b_len b < 2 ^ 63 → bruns (pointed o b) (k b) Q) → bruns (has o) (bbind (checkbuf o) k) Q.
Proof.
  intros Hk. eapply bruns_bind; [apply checkbuf_runs|]. intros b.
  eapply bruns_know; [intros s Hs Hp; exact (pointed_len s o b Hs Hp)|apply Hk].
Qed.

Lemma checkwritable_bind {B} o (k : luabuf → BM B) Q :
  (∀ b, 0 <= b_len b < 2 ^ 63 → bruns (pointed o b) (k b) Q) → bruns (has o) (bbind (checkwritable o) k) Q.
Proof.
  intros Hk. eapply bruns_bind; [apply checkwritable_runs|]. intros b.
  eapply bruns_conseq; [|by intros s [H _]; exact H|done].
  eapply bruns_know; [intros s Hs Hp; exact (pointed_len s o b Hs Hp)|apply Hk].
Qed.

Lemma ptr_bind {B} o b (P : bst → Prop) (k : nat * Z → BM B) Q :
  (∀ s, P s → pointed o b s) → (∀ q, b_p b = Some q → bruns P (k q) Q) → bruns P (bbind (ptr b) k) Q.
Proof.
  intros HP Hk. eapply bruns_bind; [by apply (ptr_runs o)|]. intros q. cbn.
  apply (bruns_know _ (b_p b = Some q)); [by intros s Hs [? ?]|]. intros Hq.
  eapply bruns_conseq; [by apply Hk|by intros s [_ ?]|done].
Qed.

Lemma kget_bind {B} (P : bst → Prop) (k : kst → BM B) Q :
  (∀ σ, k_szbits σ = 64 → bruns P (k σ) Q) → bruns P (bbind (kb st_get) k) Q.
Proof.
  intros Hk. eapply bruns_bind; [apply kget_runs|]. intros σ. cbn.
  apply (bruns_know _ (k_szbits σ = 64)); [by intros s Hs (? & ? & ?)|]. intros Hw.
  eapply bruns_conseq; [by apply Hk|by intros s [? _]|done].
Qed.

Lemma pointed_k o b s σ' : pointed o b s → pointed o b (set_b_k σ' s).
Proof. done. Qed.
Hint Resolve pointed_k : core.

Lemma pointed_buf o b s : pointed o b s → is_buf o b s.
Proof. by intros [? _]. Qed.
Hint Resolve pointed_buf : core.

Lemma buf_len_runs o : bruns (has o) (buf_len o) (λ n s, ∃ b, pointed o b s ∧ n = b_len b).
Proof. apply checkbuf_bind. intros b Hb. apply bruns_ret. intros s H. by exists b. Qed.

Lemma buf_sub_runs o i j : luaint i → luaint j → bruns (has o) (buf_sub o i j) (λ _ _, True).
Proof.
  intros Hi Hj. apply checkbuf_bind. intros b Hlen. destruct (range (b_len b) i j) as [off n] eqn:Er.
  pose proof (range_within _ _ _ _ _ Hlen Hi Hj Er) as (H1 & H2 & H3). apply (ptr_bind o); [done|]. intros q Hq.
  eapply bruns_bind; [apply lua_mem_runs; eauto|]. intros x. cbn.
  eapply bruns_conseq; [apply (peek_runs o b q off n (pointed o b)); eauto| |done]. by intros s [? _].
Qed.

Lemma buf_byte_runs o i j : luaint i → luaint j → bruns (has o) (buf_byte o i j) (λ _ _, True).
Proof.
  intros Hi Hj. apply checkbuf_bind. intros b Hlen. destruct (range (b_len b) i j) as [off n] eqn:Er.
  pose proof (range_within _ _ _ _ _ Hlen Hi Hj Er) as (H1 & H2 & H3).
  destruct (n =? 0); [by apply bruns_ret|]. destruct (250 <? n); [apply bruns_raise|].
  eapply bruns_bind.
  { apply (bruns_kb (pointed o b) _ (λ _, pointed o b)). intros s Hs Hp.
    destruct (checkstack_move (b_k s)) as (ok & σ' & E & K). exists ok, σ'. eauto. }
  intros ok. destruct (negb ok); [apply bruns_raise|]. apply (ptr_bind o); [done|]. intros q Hq.
  eapply bruns_conseq; [apply (peek_runs o b q off n (pointed o b)); eauto|done|done].
Qed.

Lemma set_bytes_runs o b q vals : b_p b = Some q → ∀ i, 0 <= i → i + Z.of_nat (length vals) <= b_len b →
  bruns (pointed o b) (set_bytes q i vals) (λ _, pointed o b).
Proof.
  intros Hq. induction vals as [|[v|] vals IH]; intros i Hi Hl; cbn [set_bytes]; cbn [length] in Hl.
  - by apply bruns_ret.
  - eapply bruns_bind; [apply (poke_runs o b q i [_] (pointed o b)); eauto; cbn; lia|]. intros []. apply IH; lia.
  - apply bruns_raise.
Qed.

Lemma buf_set_runs o i vals : luaint i → Z.of_nat (length vals) < 2 ^ 31 →
  bruns (has o) (buf_set o i vals) (λ _ _, True).
Proof.
  intros Hi Hv. apply checkwritable_bind. intros b Hlen. apply kget_bind. intros σ Hw.
  destruct (_ || _) eqn:E; [apply bruns_raise|]. apply bound_check in E as [E1 E2]; [|done..|lia].
  apply (ptr_bind o); [done|]. intros q Hq. eapply bruns_conseq; [by apply set_bytes_runs|done|done].
Qed.

Lemma buf_fill_runs o v i j : luaint i → luaint j → bruns (has o) (buf_fill o v i j) (λ _ _, True).
Proof.
  intros Hi Hj. apply checkwritable_bind. intros b Hlen. destruct (range (b_len b) i j) as [off n] eqn:Er.
  pose proof (range_within _ _ _ _ _ Hlen Hi Hj Er) as (H1 & H2 & H3). apply (ptr_bind o); [done|]. intros q Hq.
  eapply bruns_conseq; [apply (poke_runs o b q off _ (pointed o b)); eauto|done|done].
  rewrite length_replicate. lia.
Qed.

Lemma get_loop_runs o b q i n be : b_p b = Some q → 0 <= i → i + n <= b_len b → ∀ m k v,
  0 <= k → k + Z.of_nat m = n → bruns (pointed o b) (kb (get_loop q i n be m k v)) (λ _, pointed o b).
Proof.
  intros Hq Hi Hl. induction m as [|m IH]; intros k v Hk Hm; cbn [get_loop].
  - intros s Hs Hp. exists (Val v), s. split; [by destruct s|]. done.
  - intros s Hs Hp. set (x := i + _). destruct (bo_ptr _ _ Hs o b q (pointed_buf _ _ _ Hp) Hq) as (sz & Hsz & H1 & H2 & H3 & _).
    destruct (peek_ok (b_k s) q x 1 sz Hsz) as (l & _ & -> & E); [unfold x; destruct be; lia..|].
    unfold kb, st_bind at 1. rewrite E. apply (IH (k + 1) _); [lia..|done|done].
Qed.

Lemma getint_runs o i n be : luaint i → 0 <= n <= 8 → bruns (has o) (getint o i n be) (λ _ _, True).
Proof.
  intros Hi Hn. apply checkbuf_bind. intros b Hlen. apply kget_bind. intros σ Hw.
  destruct (_ || _) eqn:E; [apply bruns_raise|]. apply bound_check in E as [E1 E2]; [|done..|lia].
  apply (ptr_bind o); [done|]. intros q Hq. eapply bruns_conseq; [apply get_loop_runs|done|done]; eauto; lia.
Qed.

Lemma set_loop_runs o b q i n be v : b_p b = Some q → 0 <= i → i + n <= b_len b → ∀ m k,
  0 <= k → k + Z.of_nat m = n → bruns (pointed o b) (kb (set_loop q i n be m k v)) (λ _, pointed o b).
Proof.
  intros Hq Hi Hl. induction m as [|m IH]; intros k Hk Hm; cbn [set_loop].
  - intros s Hs Hp. exists (Val tt), s. split; [by destruct s|]. done.
  - intros s Hs Hp. set (x := i + _). set (w := [_]).
    destruct (poke_runs o b q x w (pointed o b)) with (s := s) as (r & s1 & E & H1 & D1 & HR); eauto;
      [unfold x; destruct be; lia|unfold x, w; destruct be; cbn; lia|].
    unfold kb in E |- *. unfold st_bind at 1. destruct (poke q x w (b_k s)) as [[[] σ1]|]; [|done].
    injection E as <- <-. destruct (IH (k + 1) ltac:(lia) ltac:(lia) _ H1 HR) as (r & s2 & E2 & H2 & D2 & HQ).
    exists r, s2. by split_and!.
Qed.

Lemma setint_runs o i v n be : luaint i → 0 <= n <= 8 → bruns (has o) (setint o i v n be) (λ _ _, True).
Proof.
  intros Hi Hn. apply checkwritable_bind. intros b Hlen. apply kget_bind. intros σ Hw.
  destruct (_ || _) eqn:E; [apply bruns_raise|]. apply bound_check in E as [E1 E2]; [|done..|lia].
  apply (ptr_bind o); [done|]. intros q Hq. eapply bruns_conseq; [apply set_loop_runs|done|done]; eauto; lia.
Qed.

(** ** Copying *)

(** The [n] bytes of a payload from [from] on. *)
Definition run_of (σ : kst) (s : nat * Z + list Z) (from n : Z) : list Z :=
  match s with
  | inr l => take (Z.to_nat n) (drop (Z.to_nat from) l)
  | inl q => take (Z.to_nat n) (drop (Z.to_nat (snd q + from)) (default [] (k_bytes σ !! fst q)))
  end.

(** The payload is there for [from] to [from + n]. *)
Definition run_ok (σ : kst) (s : nat * Z + list Z) (from n : Z) : Prop :=
  0 <= from ∧ 0 <= n ∧
  match s with
  | inr l => from + n <= Z.of_nat (length l)
  | inl q => ∃ m, csize σ (fst q) = Some m ∧ 0 <= snd q ∧ snd q + from + n <= m
  end.

Lemma run_length σ s from n : run_ok σ s from n → length (run_of σ s from n) = Z.to_nat n.
Proof.
  intros (H1 & H2 & H3). unfold run_of. destruct s as [q|l]; rewrite length_take, length_drop; [|lia].
  destruct H3 as (m & (l & _ & Hl & ->)%csize_Some & H3 & H4). rewrite Hl. cbn. lia.
Qed.

Lemma copy_run_ok σ q i s from n m :
  csize σ (fst q) = Some m → 0 <= snd q + i → snd q + i + n <= m → run_ok σ s from n →
  ∃ l, k_bytes σ !! fst q = Some l ∧ m = Z.of_nat (length l) ∧
    let σ' := set_k_bytes (<[fst q := patch (Z.to_nat (snd q + i)) (run_of σ s from n) l]> (k_bytes σ)) σ in
    copy_run q i s from n σ = Ok (tt, σ') ∧ kmove p σ σ'.
Proof.
  intros Hm H1 H2 Hs. pose proof (run_length _ _ _ _ Hs) as Hlen. destruct Hs as (Hf & Hn & Hs).
  destruct (poke_ok p σ (fst q, snd q + i) 0 (run_of σ s from n) m) as (l & Hl & -> & E & K); [done|cbn; lia..|].
  cbn [fst snd] in *. rewrite Z.add_0_r in E, K. exists l. split; [done|]. split; [done|]. cbn zeta. split; [|done].
  unfold copy_run. destruct s as [q2|l2]; cbn [fst snd]; [|exact E].
  assert (memmove (fst q, snd q + i) (fst q2, snd q2 + from) n σ =
          Ok (tt, set_k_bytes (<[fst q:=patch (Z.to_nat (snd q + i)) (run_of σ (inl q2) from n) l]> (k_bytes σ)) σ)) as Em.
  { destruct Hs as (m2 & Hm2 & H3 & H4).
    destruct (peek_ok σ (fst q2, snd q2 + from) 0 n m2) as (l2 & Hl2 & -> & E2); [done|cbn; lia..|].
    unfold memmove, st_bind. rewrite E2. cbn [fst snd] in *. rewrite Z.add_0_r.
    unfold run_of in E. cbn in E. rewrite Hl2 in E. cbn in E. unfold run_of. rewrite Hl2. exact E. }
  unfold memcpy. by destruct (overlaps _ _ _).
Qed.

Definition payload_ok (v : payload) (s : bst) : Prop :=
  match v with PBuf o => has o s | PStr l => Z.of_nat (length l) < 2 ^ 63 | POther => True end.

(** Any run inside the length reported can be read. *)
Definition readable (r : option ((nat * Z + list Z) * Z)) (s : bst) : Prop :=
  ∀ x n, r = Some (x, n) → 0 <= n < 2 ^ 63 ∧
    ∀ from k, 0 <= from → 0 <= k → from + k <= n → run_ok (b_k s) x from k.

Lemma luabuf_bytes_runs v (P : bst → Prop) : (∀ s, P s → payload_ok v s) →
  bruns P (luabuf_bytes v) (λ r s, P s ∧ readable r s).
Proof.
  intros HP. destruct v as [l|o|]; cbn [luabuf_bytes].
  - apply bruns_ret. intros s Hs. split; [done|]. intros x n [= <- <-]. pose proof (HP s Hs) as Hl. cbn in Hl.
    split; [lia|]. intros from k ? ? ?. by split_and!.
  - eapply bruns_bind; [apply (get_obj_runs o P HP)|]. intros b. cbn. destruct (b_p b) as [q|] eqn:E; [|apply bruns_raise].
    intros s Hs [Hb Hp]. exists (Val (Some (inl q, b_len b))), s. split_and!; try done.
    intros x n [= <- <-]. destruct (bo_ptr _ _ Hs o b q Hb E) as (m & Hm & H1 & H2 & H3 & _).
    destruct (bo_size _ _ Hs _ _ Hm). split; [lia|]. intros from k ? ? ?. split_and!; try lia. exists m. split_and!; (done || lia).
  - by apply bruns_ret.
Qed.

Lemma buf_copy_runs o i src from to : luaint i → luaint from → luaint to →
  bruns (λ s, has o s ∧ payload_ok src s) (buf_copy o i src from to) (λ _ _, True).
Proof.
  intros Hi Hf Ht. unfold buf_copy.
  eapply (bruns_bind _ _ (λ b s, pointed o b s ∧ payload_ok src s)).
  { intros s Hs [Ho Hp]. destruct (checkwritable_runs o s Hs Ho) as (r & s1 & E & H1 & D & HR).
    exists r, s1. split_and!; try done. destruct r as [b|]; [|done]. split; [apply HR|].
    destruct src as [l|o2|]; cbn in *; try done. unfold has in *. set_solver. }
  intros b. eapply bruns_bind; [apply luabuf_bytes_runs; by intros s [_ ?]|]. intros [[x n]|]; [|apply bruns_raise].
  eapply (bruns_know _ (0 <= n < 2 ^ 63)); [intros s Hs [_ Hr]; by apply (Hr x n)|]. intros Hn.
  rewrite !from_end_i64, clamp_lo, clamp_hi by done.
  set (lo := Z.max 1 _). set (hi := Z.min n _). destruct (hi <? lo) eqn:E; [by apply bruns_ret|].
  apply Z.ltb_ge in E. apply kget_bind. intros σ Hw. assert (1 <= lo ∧ hi <= n) as [Hlo Hhi] by lia.
  assert (size_t σ (hi - lo + 1) = hi - lo + 1) as -> by (unfold size_t; rewrite Hw; apply wrap_small; lia).
  destruct (_ || _) eqn:Eb; [apply bruns_raise|].
  assert (0 <= i - 1 ∧ i - 1 + (hi - lo + 1) <= b_len b) as [E1 E2] by (apply (bound_check σ); (done || lia)).
  apply (ptr_bind o); [by intros s [[? _] _]|]. intros q Hq.
  eapply bruns_bind; [|intros []; by apply bruns_ret].
  apply (bruns_kb _ _ (λ _ _, True)). intros s Hs [[Hp _] Hr].
  destruct (bo_ptr _ _ Hs o b q (pointed_buf _ _ _ Hp) Hq) as (m & Hm & H1 & H2 & H3 & _).
  destruct (copy_run_ok (b_k s) q (i - 1) x (lo - 1) (hi - lo + 1) m Hm) as (l & _ & _ & Ec & K); [lia..| |].
  - apply (Hr x n eq_refl); lia.
  - eexists tt, _. split; [exact Ec|]. done.
Qed.

(** ** Userdata made and emptied *)

Lemma looks_at_range o v : 0 <= looks_at o v <= 1.
Proof. unfold looks_at. repeat case_match; lia. Qed.

Lemma no_lookers s o b : buf_ok p s → b_objs s !! o = Some b → b_views b = 0 →
  ∀ v bv, b_objs s !! v = Some bv → b_parent bv = Some o → b_p bv = None.
Proof.
  intros H Ho Hv v bv Hb Hp. destruct (b_p bv) as [q|] eqn:E; [|done]. exfalso.
  pose proof (msum_elem_le (λ _ v, looks_at o v) (b_objs s) v bv) as Hle. cbn in Hle.
  specialize (Hle (λ k a _, proj1 (looks_at_range o a)) Hb).
  pose proof (bo_count _ _ H o b Ho) as Hc. unfold live_views in Hc.
  assert (looks_at o bv = 1) by (unfold looks_at; by rewrite E, decide_True). lia.
Qed.

Lemma parent_there s o b o' : buf_ok p s → b_objs s !! o = Some b → b_parent b = Some o' → is_Some (b_objs s !! o').
Proof.
  intros H Ho Hp. destruct (b_owned b) eqn:E.
  - rewrite (bo_root _ _ H o b Ho E) in Hp. done.
  - destruct (bo_view _ _ H o b Ho E) as (o1 & b1 & Hp1 & Ho1 & _). rewrite Hp in Hp1. injection Hp1 as <-. by eexists.
Qed.

Lemma new_unseen s o : buf_ok p s → b_objs s !! o = None → live_views o (b_objs s) = 0.
Proof.
  intros H Ho. apply msum_zero. intros v b Hb. unfold looks_at. destruct (b_p b); [|done]. case_decide as E; [|done].
  destruct (parent_there s v b o H Hb E). congruence.
Qed.

(** An owner of storage nobody points at. *)
Lemma ok_add_root s o c n : buf_ok p s → b_objs s !! o = None → (o < k_next (b_k s))%nat →
  csize (b_k s) c = Some n → (∀ v b q, b_objs s !! v = Some b → b_p b = Some q → fst q ≠ c) →
  buf_ok p (set_b_objs (<[o := mkBuf (Some (c, 0)) n false true 0 None]> (b_objs s)) s).
Proof.
  intros H Ho Hlt Hc Hno. destruct (bo_size _ _ H c n Hc) as [Hn _].
  assert (∀ k, live_views k (<[o := mkBuf (Some (c, 0)) n false true 0 None]> (b_objs s)) = live_views k (b_objs s)) as Hlv.
  { intros k. unfold live_views, looks_at. rewrite msum_insert_None by done. cbn. by rewrite decide_False. }
  split; cbn [b_k b_objs set_b_objs]; try apply H.
  - intros v b q [[<- <-]|[? Hv]]%lookup_insert_Some Hq; [|by apply (bo_ptr _ _ H v)].
    cbn in Hq. injection Hq as <-. exists n. cbn. split_and!; (done || lia).
  - intros v1 v2 b1 b2 q1 q2 [[<- <-]|[? H1]]%lookup_insert_Some [[<- <-]|[? H2]]%lookup_insert_Some W1 W2 P1 P2 E.
    + done.
    + cbn in P1. injection P1 as <-. exfalso. by eapply (Hno v2).
    + cbn in P2. injection P2 as <-. exfalso. by eapply (Hno v1).
    + by eapply (bo_one _ _ H v1 v2).
  - intros v b [[<- <-]|[? Hv]]%lookup_insert_Some W; [done|by apply (bo_root _ _ H v)].
  - intros v b [[<- <-]|[? Hv]]%lookup_insert_Some W; [done|].
    destruct (bo_view _ _ H v b Hv W) as (o' & b' & Hp & Ho' & Hlt' & Hf). exists o', b'. split_and!; try done.
    rewrite lookup_insert_ne; [done|]. congruence.
  - intros v b [[<- <-]|[? Hv]]%lookup_insert_Some; rewrite Hlv; [by rewrite new_unseen|by apply (bo_count _ _ H)].
  - intros v b [[<- <-]|[? Hv]]%lookup_insert_Some; [done|by apply (bo_id _ _ H v b)].
Qed.

(** A view of [n] bytes from [off] of a live buffer. *)
Lemma ok_add_view s o b q v off n ro : buf_ok p s → b_objs s !! o = Some b → b_p b = Some q →
  b_objs s !! v = None → (o < v)%nat → (v < k_next (b_k s))%nat → 0 <= off → 0 <= n → off + n <= b_len b →
  buf_ok p (set_b_objs (<[o := set_b_views (b_views b + 1) b]>
              (<[v := mkBuf (Some (fst q, snd q + off)) n ro false 0 (Some o)]> (b_objs s))) s).
Proof.
  intros H Ho Hq Hv Hov Hlt H1 H2 H3. destruct (bo_ptr _ _ H o b q Ho Hq) as (m & Hm & Q1 & Q2 & Q3 & _).
  set (w := mkBuf _ _ _ _ _ _). set (b1 := set_b_views _ b). assert (v ≠ o) as Hvo by lia.
  assert (∀ k, live_views k (<[o := b1]> (<[v := w]> (b_objs s))) = looks_at k w + live_views k (b_objs s)) as Hlv.
  { intros k. unfold live_views. rewrite (msum_insert_Some _ _ o b) by (by rewrite lookup_insert_ne).
    rewrite msum_insert_None by done. change (looks_at k b1) with (looks_at k b). lia. }
  assert (∀ x bx, <[o := b1]> (<[v := w]> (b_objs s)) !! x = Some bx →
            (x = v ∧ bx = w) ∨ (x ≠ v ∧ ∃ b0, b_objs s !! x = Some b0 ∧ bx = (if decide (x = o) then b1 else b0) ∧
               b_p bx = b_p b0 ∧ b_len bx = b_len b0 ∧ b_owned bx = b_owned b0 ∧ b_parent bx = b_parent b0)) as Hin.
  { intros x bx [[<- <-]|[? [[<- <-]|[? Hx]]%lookup_insert_Some]]%lookup_insert_Some; [|by left|].
    - right. split; [done|]. exists b. by rewrite decide_True.
    - right. split; [done|]. exists bx. by rewrite decide_False. }
  split; cbn [b_k b_objs set_b_objs]; try apply H.
  - intros x bx qx [[-> ->]|(_ & b0 & Hx & _ & -> & -> & -> & _)]%Hin Hqx; [|by apply (bo_ptr _ _ H x)].
    cbn in Hqx. injection Hqx as <-. exists m. cbn. split_and!; (done || lia).
  - intros x1 x2 c1 c2 q1 q2 [[-> ->]|(_ & d1 & X1 & _ & -> & _ & -> & _)]%Hin; [done|].
    intros [[-> ->]|(_ & d2 & X2 & _ & -> & _ & -> & _)]%Hin; [done|]. by eapply (bo_one _ _ H).
  - intros x bx [[-> ->]|(_ & b0 & Hx & _ & _ & _ & -> & ->)]%Hin; [done|]. by apply (bo_root _ _ H x).
  - intros x bx [[-> ->]|(_ & b0 & Hx & _ & -> & _ & -> & ->)]%Hin W.
    + exists o, b1. cbn. rewrite lookup_insert_eq. split_and!; try done. intros qx [= <-]. exists q. done.
    + destruct (bo_view _ _ H x b0 Hx W) as (o' & b' & Hp & Ho' & Hlt' & Hf). exists o'.
      destruct (decide (o' = o)) as [->|Hne].
      * exists b1. rewrite lookup_insert_eq. split_and!; try done. intros qx Hqx. destruct (Hf qx Hqx) as (q' & Hq' & E).
        exists q'. split; [|done]. change (b_p b1) with (b_p b). congruence.
      * exists b'. rewrite !lookup_insert_ne by congruence. done.
  - intros x bx [[-> ->]|(Hxv & b0 & Hx & -> & _)]%Hin; rewrite Hlv.
    + rewrite new_unseen by done. cbn. rewrite decide_False by congruence. done.
    + rewrite <-(bo_count _ _ H x b0 Hx). unfold w, looks_at. cbn [b_p b_parent]. case_decide as E.
      * subst x. rewrite decide_True by done. assert (b0 = b) as -> by congruence. cbn. lia.
      * rewrite decide_False by congruence. lia.
  - intros x bx [[-> ->]|(_ & b0 & Hx & _)]%Hin; [done|]. by apply (bo_id _ _ H x b0).
Qed.

(** An owner without views lets go of its storage. *)
Lemma ok_drop_root s o b : buf_ok p s → b_objs s !! o = Some b → b_owned b = true → b_views b = 0 →
  buf_ok p (set_b_objs (<[o := set_b_p None b]> (b_objs s)) s).
Proof.
  intros H Ho Hw Hv. pose proof (no_lookers s o b H Ho Hv) as Hno.
  assert (∀ k, live_views k (<[o := set_b_p None b]> (b_objs s)) = live_views k (b_objs s)) as Hlv.
  { intros k. unfold live_views. rewrite (msum_insert_Some _ _ o b) by done. unfold looks_at. cbn.
    rewrite (bo_root _ _ H o b Ho Hw). destruct (b_p b); [rewrite decide_False by done|]; lia. }
  split; cbn [b_k b_objs set_b_objs]; try apply H.
  - intros v bv q [[<- <-]|[? Hb]]%lookup_insert_Some Hq; [done|by apply (bo_ptr _ _ H v)].
  - intros v1 v2 b1 b2 q1 q2 [[<- <-]|[? H1]]%lookup_insert_Some [[<- <-]|[? H2]]%lookup_insert_Some W1 W2 P1 P2; try done.
    by eapply (bo_one _ _ H v1 v2).
  - intros v bv [[<- <-]|[? Hb]]%lookup_insert_Some; [exact (bo_root _ _ H o b Ho)|by apply (bo_root _ _ H v)].
  - intros v bv [[<- <-]|[? Hb]]%lookup_insert_Some W; [cbn in W; congruence|].
    destruct (bo_view _ _ H v bv Hb W) as (o' & b' & Hp & Ho' & Hlt' & Hf). exists o'.
    destruct (decide (o' = o)) as [->|Hne].
    + exists (set_b_p None b). rewrite lookup_insert_eq. split_and!; try done. intros q Hq.
      rewrite (Hno v bv Hb Hp) in Hq. done.
    + exists b'. rewrite lookup_insert_ne by done. done.
  - intros v bv [[<- <-]|[? Hb]]%lookup_insert_Some; rewrite Hlv; [exact (bo_count _ _ H o b Ho)|by apply (bo_count _ _ H)].
  - intros v bv [[<- <-]|[? Hb]]%lookup_insert_Some; by eapply (bo_id _ _ H).
Qed.

(** A view without views is gone, and its parent has one less. *)
Lemma ok_drop_view s o b o' b' q : buf_ok p s → b_objs s !! o = Some b → b_owned b = false → b_p b = Some q →
  b_views b = 0 → b_parent b = Some o' → b_objs s !! o' = Some b' →
  buf_ok p (set_b_objs (<[o := set_b_p None b]> (<[o' := set_b_views (b_views b' - 1) b']> (b_objs s))) s) ∧ o' ≠ o.
Proof.
  intros H Ho Hw Hq Hv Hp Ho'. pose proof (no_lookers s o b H Ho Hv) as Hno.
  assert (o' ≠ o) as Hne.
  { destruct (bo_view _ _ H o b Ho Hw) as (o1 & b1 & Hp1 & _ & Hlt & _). rewrite Hp in Hp1. injection Hp1 as <-. lia. }
  set (b0 := set_b_p None b). set (b1 := set_b_views _ b'). split; [|done].
  assert (∀ k, live_views k (<[o := b0]> (<[o' := b1]> (b_objs s))) = live_views k (b_objs s) - looks_at k b) as Hlv.
  { intros k. unfold live_views. rewrite (msum_insert_Some _ _ o b) by (by rewrite lookup_insert_ne).
    rewrite (msum_insert_Some _ _ o' b') by done. change (looks_at k b1) with (looks_at k b').
    change (looks_at k b0) with 0. lia. }
  assert (∀ x bx, <[o := b0]> (<[o' := b1]> (b_objs s)) !! x = Some bx →
            (x = o ∧ bx = b0) ∨ (x ≠ o ∧ ∃ c, b_objs s !! x = Some c ∧ bx = (if decide (x = o') then b1 else c) ∧
               b_p bx = b_p c ∧ b_len bx = b_len c ∧ b_owned bx = b_owned c ∧ b_parent bx = b_parent c)) as Hin.
  { intros x bx [[<- <-]|[? [[<- <-]|[? Hx]]%lookup_insert_Some]]%lookup_insert_Some; [by left| |].
    - right. split; [done|]. exists b'. by rewrite decide_True.
    - right. split; [done|]. exists bx. by rewrite decide_False. }
  split; cbn [b_k b_objs set_b_objs]; try apply H.
  - intros x bx qx [[-> ->]|(_ & c & Hx & _ & -> & -> & -> & _)]%Hin Hqx; [done|by apply (bo_ptr _ _ H x)].
  - intros x1 x2 c1 c2 q1 q2 [[-> ->]|(_ & d1 & X1 & _ & -> & _ & -> & _)]%Hin; [done|].
    intros [[-> ->]|(_ & d2 & X2 & _ & -> & _ & -> & _)]%Hin; [done|]. by eapply (bo_one _ _ H).
  - intros x bx [[-> ->]|(_ & c & Hx & _ & _ & _ & -> & ->)]%Hin; [exact (bo_root _ _ H o b Ho)|by apply (bo_root _ _ H x)].
  - intros x bx [[-> ->]|(Hxo & c & Hx & _ & -> & _ & -> & ->)]%Hin W.
    + destruct (bo_view _ _ H o b Ho W) as (o1 & c1 & Hp1 & Ho1 & Hlt & _). rewrite Hp in Hp1. injection Hp1 as <-.
      exists o', b1. rewrite lookup_insert_ne, lookup_insert_eq by done. done.
    + destruct (bo_view _ _ H x c Hx W) as (o1 & c1 & Hp1 & Ho1 & Hlt & Hf). exists o1.
      destruct (decide (o1 = o)) as [->|]; [|destruct (decide (o1 = o')) as [->|]].
      * exists b0. rewrite lookup_insert_eq. split_and!; try done. intros qx Hqx.
        rewrite (Hno x c Hx Hp1) in Hqx. done.
      * exists b1. rewrite lookup_insert_ne, lookup_insert_eq by done. split_and!; try done.
        assert (c1 = b') as -> by congruence. done.
      * exists c1. rewrite !lookup_insert_ne by done. done.
  - intros x bx [[-> ->]|(Hxo & c & Hx & -> & _)]%Hin; rewrite Hlv.
    + rewrite <-(bo_count _ _ H o b Ho). unfold looks_at. rewrite Hq, decide_False by congruence. cbn. lia.
    + rewrite <-(bo_count _ _ H x c Hx). unfold looks_at. rewrite Hq. case_decide as E.
      * subst x. rewrite decide_True by done. assert (c = b') as -> by congruence. cbn. lia.
      * rewrite decide_False by congruence. lia.
  - intros x bx [[-> ->]|(_ & c & Hx & _)]%Hin; by eapply (bo_id _ _ H).
Qed.

(** A chunk nobody points into can be freed. *)
Lemma ok_free s c : buf_ok p s → (∀ v b q, b_objs s !! v = Some b → b_p b = Some q → fst q ≠ c) →
  buf_ok p (set_b_k (set_k_chunks (k_chunks (b_k s) ∖ {[c]}) (b_k s)) s).
Proof.
  intros H Hno. assert (∀ d, d ≠ c → csize (set_k_chunks (k_chunks (b_k s) ∖ {[c]}) (b_k s)) d = csize (b_k s) d) as Hsz.
  { intros d Hd. unfold csize. cbn [k_chunks k_bytes set_k_chunks]. destruct (decide (d ∈ k_chunks (b_k s))).
    - by rewrite decide_True by set_solver.
    - by rewrite decide_False by set_solver. }
  split; cbn [b_k b_objs set_b_k k_szbits k_acct k_next set_k_chunks]; try apply H.
  - intros d n Hd. apply (bo_size _ _ H). destruct (decide (d = c)) as [->|?]; [|by rewrite <-Hsz].
    unfold csize in Hd. cbn [k_chunks set_k_chunks] in Hd. rewrite decide_False in Hd by set_solver. done.
  - intros o b q Ho Hq. rewrite Hsz by (by eapply Hno). by apply (bo_ptr _ _ H o).
Qed.

(** ** Userdata and where they point *)

Definition unpointed (c : nat) (s : bst) : Prop :=
  ∀ v b q, b_objs s !! v = Some b → b_p b = Some q → fst q ≠ c.

Lemma pointed_size s v b q : buf_ok p s → b_objs s !! v = Some b → b_p b = Some q → (fst q < k_next (b_k s))%nat.
Proof.
  intros H Hv Hq. destruct (bo_ptr _ _ H v b q Hv Hq) as (n & Hn & _). by apply (bo_size _ _ H _ n).
Qed.

(** These userdata point where they did. *)
Definition pinned (pins : list (nat * (nat * Z) * Z)) (s : bst) : Prop :=
  ∀ o q n, (o, q, n) ∈ pins → ∃ b, b_objs s !! o = Some b ∧ b_p b = Some q ∧ b_len b = n.

(** lua_newuserdatauv of an owner. *)
Lemma new_root_runs pins c n :
  bruns (λ s, pinned pins s ∧ csize (b_k s) c = Some n ∧ unpointed c s)
    (lua_newuserdatauv (mkBuf (Some (c, 0)) n false true 0 None))
    (λ o, pinned ((o, (c, 0), n) :: pins)).
Proof.
  intros s Hs (Hp & Hc & Hu). destruct (malloc_move (b_k s)) as (a & σ1 & E & K & Ha).
  pose proof (buf_ok_k p s σ1 Hs K) as H1.
  unfold lua_newuserdatauv, lua_mem, bbind, st_bind, kb. rewrite E. destruct a as [o|]; [|by eexists (Raise _), _].
  destruct Ha as [-> Hlt]. set (o := k_next (b_k s)) in *.
  assert (b_objs s !! o = None) as Ho.
  { destruct (b_objs s !! o) as [b|] eqn:Eo; [|done]. apply (bo_id _ _ Hs) in Eo. lia. }
  eexists (Val o), _. split; [done|]. split; [|split].
  - apply (ok_add_root (set_b_k σ1 s) o c n); try done. cbn [b_k set_b_k]. by rewrite (km_size _ _ _ K).
  - cbn [b_objs set_b_objs set_b_k]. rewrite dom_insert_L. set_solver.
  - intros o' q' n' [[= -> -> ->]|Hin]%elem_of_cons; cbn [b_objs set_b_objs set_b_k].
    + eexists. rewrite lookup_insert_eq. done.
    + destruct (Hp o' q' n' Hin) as (b & Hb & ?). exists b. rewrite lookup_insert_ne; [done|]. congruence.
Qed.

(** ** Views *)

Lemma new_view_runs o b off n ro : 0 <= off → 0 <= n → off + n <= b_len b →
  bruns (pointed o b) (new_view o b off n ro) (λ v s, has v s).
Proof.
  intros H1 H2 H3. apply (ptr_bind o); [done|]. intros q Hq s Hs [Hb _].
  destruct (malloc_move (b_k s)) as (a & σ1 & E & K & Ha). pose proof (buf_ok_k p s σ1 Hs K) as Hs1.
  unfold lua_newuserdatauv, lua_mem, bbind, st_bind, kb. rewrite E. destruct a as [v|]; [|by eexists (Raise _), _].
  destruct Ha as [-> Hlt]. set (v := k_next (b_k s)) in *. pose proof (bo_id _ _ Hs o b Hb) as Hov.
  assert (b_objs s !! v = None) as Hv.
  { destruct (b_objs s !! v) as [bv|] eqn:Ev; [|done]. apply (bo_id _ _ Hs) in Ev. lia. }
  cbn [put_obj bret st_ret]. unfold get_obj. cbn [b_objs set_b_objs set_b_k].
  rewrite lookup_insert_ne, Hb by lia. cbn [put_obj]. eexists (Val v), _. split; [done|].
  cbn [b_objs set_b_objs set_b_k]. split; [|split].
  - by apply (ok_add_view (set_b_k σ1 s) o b q v off n ro).
  - cbn. rewrite !dom_insert_L. set_solver.
  - unfold has. cbn. rewrite !dom_insert_L. set_solver.
Qed.

Lemma buf_view_runs o i j : luaint i → luaint j → bruns (has o) (buf_view o i j) (λ v s, has v s).
Proof.
  intros Hi Hj. apply checkbuf_bind. intros b Hlen. destruct (range (b_len b) i j) as [off n] eqn:Er.
  pose proof (range_within _ _ _ _ _ Hlen Hi Hj Er) as (H1 & H2 & H3). by apply new_view_runs.
Qed.

Lemma buf_ro_runs o : bruns (has o) (buf_ro o) (λ v s, has v s).
Proof. apply checkbuf_bind. intros b Hlen. apply new_view_runs; lia. Qed.

Lemma pushview_runs o off n : 0 <= off < 2 ^ 63 → 0 <= n < 2 ^ 63 →
  bruns (has o) (luabuf_pushview o off n) (λ v s, has v s).
Proof.
  intros Ho Hn. apply checkbuf_bind. intros b Hlen. apply kget_bind. intros σ Hw. unfold size_t. rewrite Hw, wrap_small by lia.
  destruct (_ || _) eqn:E; [apply bruns_raise|]. apply orb_false_iff in E as [E1%Z.ltb_ge E2%Z.ltb_ge].
  apply new_view_runs; lia.
Qed.

(** ** Transfer and collection *)

(** Storage in the kernel's hands: live, and no userdata points at it. *)
Definition in_flight (c : nat) (n : Z) (s : bst) : Prop := csize (b_k s) c = Some n ∧ unpointed c s.

(** What a send does once the message is queued. *)
Definition send_buf (v : payload) : BM (option (nat * Z)) :=
  go! r := luabuf_borrow v in
  match r with
  | Some (q, n, o) => go! _ := luabuf_detach p o in bret (Some (fst q, n))
  | None => bret None
  end.

Lemma send_buf_runs v :
  bruns (payload_ok v) (send_buf v) (λ r s, ∀ c n, r = Some (c, n) → in_flight c n s).
Proof.
  destruct v as [l|o|]; cbn [luabuf_borrow send_buf]; try by apply bruns_ret.
  intros s Hs [b Hb]%elem_of_dom. unfold send_buf, luabuf_borrow, bbind, st_bind, get_obj. rewrite Hb.
  destruct (b_p b) as [q|] eqn:Hq; [|by eexists (Val None), s].
  destruct (negb (b_owned b) || _ || _) eqn:E; [by eexists (Val None), s|].
  apply orb_false_iff in E as [[Hw Hr]%orb_false_iff Hv]. apply negb_false_iff in Hw. apply negb_false_iff, Z.eqb_eq in Hv.
  unfold luabuf_detach, bbind, st_bind, get_obj. cbn [bret st_ret]. rewrite Hb.
  destruct (uncharge_move (b_k s) (b_len b) (bo_acct _ _ Hs)) as (σ1 & Eu & K). unfold kb. rewrite Eu.
  pose proof (buf_ok_k p s σ1 Hs K) as Hs1. cbn [put_obj]. eexists (Val _), _. split; [done|].
  split; [by apply (ok_drop_root (set_b_k σ1 s) o b)|]. split; [cbn; rewrite dom_insert_L; set_solver|].
  intros c n [= <- <-]. destruct (bo_ptr _ _ Hs o b q Hb Hq) as (m & Hm & _ & _ & _ & Hown).
  destruct (Hown Hw) as [_ ->]. split; [cbn; by rewrite (km_size _ _ _ K)|].
  intros v' b' q' Hv' Hq'. cbn in Hv'. apply lookup_insert_Some in Hv' as [[<- <-]|[Hne Hv']]; [done|].
  intros Ec. apply Hne. symmetry. by eapply (owner_alone p s o b q).
Qed.

Lemma luabuf_give_runs c n : bruns (in_flight c n) (luabuf_give p c n)
  (λ r s, match r with Some o => pinned [(o, (c, 0), n)] s | None => in_flight c n s end).
Proof.
  unfold luabuf_give. eapply (bruns_bind _ _ (λ _, in_flight c n)).
  { apply bruns_kb. intros s Hs [H1 H2]. destruct (charge_move (b_k s) n (bo_acct _ _ Hs)) as (ok & σ' & E & K).
    exists ok, σ'. split_and!; try done. split; [|done]. cbn. by rewrite (km_size _ _ _ K). }
  intros ok. destruct (negb ok); [by apply bruns_ret|].
  eapply bruns_bind; [eapply bruns_conseq; [apply (new_root_runs [])| |by intros a s H; exact H]|].
  - intros s [H1 H2]. split_and!; try done. by intros ? ? ? ?%elem_of_nil.
  - intros o. by apply bruns_ret.
Qed.

Lemma free_at_runs c n : bruns (in_flight c n) (kb (free_at (c, 0))) (λ _ _, True).
Proof.
  intros s Hs [(l & Hc & _)%csize_Some Hu]. unfold kb, free_at, chunk_free. cbn [fst snd Z.eqb]. rewrite decide_True by done.
  eexists (Val tt), _. split; [done|]. split; [by apply ok_free|done].
Qed.

(** The collector calls a finalizer once, after those of the views on it. *)
Definition finalizable (o : nat) (s : bst) : Prop :=
  ∃ b, b_objs s !! o = Some b ∧ b_views b = 0 ∧ (b_owned b = false → is_Some (b_p b)).

Lemma buf_gc_runs o : bruns (finalizable o) (buf_gc p o) (λ _ _, True).
Proof.
  intros s Hs (b & Hb & Hv & Hf). unfold buf_gc, bbind, st_bind, get_obj. rewrite Hb.
  destruct (b_owned b) eqn:Hw.
  - destruct (b_p b) as [q|] eqn:Hq.
    + destruct (bo_ptr _ _ Hs o b q Hb Hq) as (m & Hm & _ & _ & _ & Hown). destruct (Hown Hw) as [Hq0 _].
      destruct (csize_Some _ _ _ Hm) as (l & Hc & _).
      unfold kb, free_at, chunk_free. rewrite Hq0. cbn [Z.eqb]. rewrite decide_True by done.
      pose proof (ok_drop_root s o b Hs Hb Hw Hv) as H1.
      assert (unpointed (fst q) (set_b_objs (<[o:=set_b_p None b]> (b_objs s)) s)) as Hu.
      { intros v' b' q' Hv' Hq'. cbn in Hv'. apply lookup_insert_Some in Hv' as [[<- <-]|[Hne Hv']]; [done|].
        intros Ec. apply Hne. symmetry. by eapply (owner_alone p s o b q). }
      pose proof (ok_free _ _ H1 Hu) as H2. cbn [b_k set_b_k set_b_objs] in *.
      destruct (uncharge_move (set_k_chunks (k_chunks (b_k s) ∖ {[fst q]}) (b_k s)) (b_len b)) as (σ1 & Eu & K);
        [apply (bo_acct _ _ H2)|].
      rewrite Eu. cbn [b_objs set_b_k]. rewrite Hb. cbn [put_obj]. eexists (Val tt), _. split; [done|].
      split; [apply (buf_ok_k p _ σ1 H2 K)|]. split; [cbn; rewrite dom_insert_L; set_solver|done].
    + cbn [bret st_ret]. rewrite Hb. cbn [put_obj]. eexists (Val tt), _. split; [done|].
      split; [by apply ok_drop_root|]. split; [cbn; rewrite dom_insert_L; set_solver|done].
  - destruct (Hf eq_refl) as [q Hq]. destruct (bo_view _ _ Hs o b Hb Hw) as (o' & b' & Hp & Ho' & _).
    rewrite Hq, Hp. rewrite Ho'.
    destruct (ok_drop_view s o b o' b' q Hs Hb Hw Hq Hv Hp Ho') as [H1 Hne].
    assert (1 <= b_views b') as Hpos.
    { rewrite (bo_count _ _ Hs o' b' Ho'). unfold live_views. transitivity (looks_at o' b).
      - unfold looks_at. by rewrite Hq, decide_True.
      - apply (msum_elem_le (λ _ v, looks_at o' v) _ o b); [|done]. intros k a _. apply looks_at_range. }
    rewrite (proj2 (Z.ltb_lt _ _)) by lia. cbn [put_obj b_objs set_b_objs]. rewrite lookup_insert_ne, Hb by done.
    eexists (Val tt), _. split; [done|]. split; [exact H1|]. split; [cbn; rewrite !dom_insert_L; set_solver|done].
Qed.

(** ** Making buffers *)

Context (junk : nat → Z) (gc : list nat → bst → bst).

Lemma block_bytes_id σ n : k_szbits σ = 64 → 0 <= n < 2 ^ 63 → block_bytes σ n = n.
Proof. intros Hw Hn. unfold block_bytes, hdr_size, size_t. rewrite Hw. change (2 * (64 / 8)) with 16. rewrite wrap_small; lia. Qed.

Lemma chunk_alloc_runs n (P : bst → Prop) : 0 <= n < 2 ^ 63 → (∀ s σ', P s → P (set_b_k σ' s)) →
  bruns P (kb (chunk_alloc junk n)) (λ r s, P s ∧ ∀ c, r = Some c → csize (b_k s) c = Some n ∧ unpointed c s).
Proof.
  intros Hn Hst s Hs HP. destruct (malloc_move (b_k s)) as (a & σ1 & E & K & Ha).
  pose proof (buf_ok_k p s σ1 Hs K) as H1. unfold kb, chunk_alloc, st_bind, st_modify. rewrite E.
  destruct a as [c|]; [|by eexists (Val None), _; split_and!; [done|done|done| |done]; apply Hst].
  destruct Ha as [-> Hlt]. set (c := k_next (b_k s)) in *.
  set (σ2 := set_k_bytes _ _). eexists (Val (Some c)), (set_b_k σ2 s). split; [done|].
  assert (csize σ2 c = Some n) as Hc.
  { unfold csize, σ2. cbn [k_chunks k_bytes set_k_bytes set_k_chunks]. rewrite decide_True by set_solver.
    rewrite lookup_insert_eq. cbn. rewrite List.length_map, List.length_seq, block_bytes_id; [f_equal; lia| |done].
    rewrite (km_wide _ _ _ K). apply Hs. }
  assert (∀ d, d ≠ c → csize σ2 d = csize (b_k s) d) as Hd.
  { intros d Hd. rewrite <-(km_size _ _ _ K). unfold csize, σ2. cbn [k_chunks k_bytes set_k_bytes set_k_chunks].
    rewrite lookup_insert_ne by done. destruct (decide (d ∈ k_chunks σ1)).
    - by rewrite decide_True by set_solver.
    - by rewrite decide_False by set_solver. }
  assert (unpointed c s) as Hun by (intros v b q Hv Hq; pose proof (pointed_size s v b q Hs Hv Hq); lia).
  split_and!; try done; [|by apply Hst|by intros ? [= <-]].
  split; cbn [b_k b_objs set_b_k]; try apply H1.
  - intros d m Hm. destruct (decide (d = c)) as [->|Hne].
    + rewrite Hc in Hm. injection Hm as <-. by split.
    + rewrite Hd in Hm by done. destruct (bo_size _ _ Hs d m Hm). split; [done|]. cbn. lia.
  - intros o b q Ho Hq. rewrite Hd by (by eapply Hun). by apply (bo_ptr _ _ Hs o).
Qed.

(** What a collector step may do: finalizers use buffers as lua code can, and a userdata on
    the stack is neither collected nor given away. *)
Definition gc_ok : Prop := ∀ L s, buf_ok p s →
  buf_ok p (gc L s) ∧ dom (b_objs s) ⊆ dom (b_objs (gc L s)) ∧
  ∀ o b, o ∈ L → b_objs s !! o = Some b →
    ∃ b', b_objs (gc L s) !! o = Some b' ∧ b_p b' = b_p b ∧ b_len b' = b_len b.

Lemma gcpressure_runs L pins n : gc_ok → (∀ o q m, (o, q, m) ∈ pins → o ∈ L) →
  bruns (pinned pins) (gcpressure p gc L n) (λ _, pinned pins).
Proof.
  intros Hgc HL. eapply bruns_bind.
  { apply (bruns_kb _ _ (λ _, pinned pins)). intros s Hs Hp.
    destruct (step_due_move (b_k s) n (bo_acct _ _ Hs)) as (due & σ' & E & K). exists due, σ'. done. }
  intros []; [|by apply bruns_ret]. intros s Hs Hp. destruct (Hgc L s Hs) as (H1 & D & Hk).
  exists (Val tt), (gc L s). split_and!; try done. intros o q m Hin. destruct (Hp o q m Hin) as (b & Hb & Hq & Hm).
  destruct (Hk o b (HL _ _ _ Hin) Hb) as (b' & Hb' & E1 & E2). exists b'. split; [done|]. by rewrite E1, E2.
Qed.

Lemma buf_new_runs pins n fill : gc_ok → 0 <= n < 2 ^ 63 →
  bruns (pinned pins) (buf_new p junk gc (List.map (fst ∘ fst) pins) n fill)
    (λ o s, ∃ c, pinned ((o, (c, 0), n) :: pins) s ∧ ∀ o' q' n', (o', q', n') ∈ pins → fst q' ≠ c).
Proof.
  intros Hgc HN. unfold buf_new. apply kget_bind. intros σ Hw. unfold size_t. rewrite Hw, wrap_small by lia.
  rename n into N.
  destruct (N =? 0); [apply bruns_raise|]. eapply bruns_bind.
  { apply (bruns_kb _ _ (λ _, pinned pins)). intros s Hs Hp.
    destruct (charge_move (b_k s) N (bo_acct _ _ Hs)) as (ok & σ' & E & K). by exists ok, σ'. }
  intros ok. destruct (negb ok); [apply bruns_raise|].
  eapply bruns_bind; [by apply (chunk_alloc_runs N (pinned pins))|]. intros [c|]; cbn.
  2: { eapply bruns_bind; [|intros []; apply bruns_raise]. apply (bruns_kb _ _ (λ _ _, True)). intros s Hs _.
       destruct (uncharge_move (b_k s) N (bo_acct _ _ Hs)) as (σ' & E & K). by exists tt, σ'. }
  eapply (bruns_bind _ _ (λ _ s, pinned pins s ∧ csize (b_k s) c = Some N ∧ unpointed c s)).
  { apply bruns_kb. intros s Hs (Hp & Hc). destruct (Hc c eq_refl) as [Hc1 Hc2].
    destruct (poke_ok p (b_k s) (c, 0) 0 (replicate (Z.to_nat N) (Z.land (sint 32 fill) 255)) N) as (l & _ & _ & E & K);
      [done|cbn; lia|rewrite length_replicate; cbn; lia|].
    eexists tt, _. split; [exact E|]. split; [exact K|]. split_and!; try done. cbn [b_k set_b_k]. by rewrite (km_size _ _ _ K). }
  intros []. apply (bruns_know _ (∀ o' q' n', (o', q', n') ∈ pins → fst q' ≠ c)).
  { intros s Hs (Hp & _ & Hu) o' q' n' Hin. destruct (Hp o' q' n' Hin) as (b & Hb & Hq & _). by eapply Hu. }
  intros Hne. eapply bruns_bind; [apply new_root_runs|]. intros o.
  eapply (bruns_bind _ _ (λ _, pinned ((o, (c, 0), N) :: pins))).
  { intros s Hs Hp. eexists (Val tt), _. split; [done|]. split; [|done]. by destruct Hs. }
  intros []. eapply bruns_bind; [apply gcpressure_runs; [done|]|].
  { intros o' q' n' [[= -> -> ->]|Hin]%elem_of_cons; [left|]. right. apply list_elem_of_In.
    apply (List.in_map (fst ∘ fst) _ (o', q', n')), list_elem_of_In, Hin. }
  intros []. apply bruns_ret. intros s Hp. by exists c.
Qed.

Lemma buf_clone_runs o : gc_ok → bruns (has o) (buf_clone p junk gc o) (λ _ _, True).
Proof.
  intros Hgc. apply checkbuf_bind. intros b Hlen.
  intros s Hs [Hb [q Hq]]. set (pins := [(o, q, b_len b)]).
  assert (pinned pins s) as Hp by (intros o' q' n' [= -> -> ->]%list_elem_of_singleton; by exists b).
  revert s Hs Hp Hb. change [o] with (List.map (fst ∘ fst) pins).
  enough (bruns (pinned pins) (go! c := buf_new p junk gc (List.map (fst ∘ fst) pins) (b_len b) 0 in
    go! bc := get_obj c in go! b0 := get_obj o in go! d := ptr bc in go! s := ptr b0 in
    go! _ := kb (memcpy d s (b_len b0)) in bret c) (λ _ _, True)) as H.
  { intros s Hs Hp _. by apply H. }
  eapply bruns_bind; [by apply buf_new_runs|]. intros c.
  intros s Hs (x & Hp & Hne). destruct (Hp c (x, 0) (b_len b)) as (bc & Hbc & Hqc & Hlc); [left|].
  destruct (Hp o q (b_len b)) as (b0 & Hb0 & Hq0 & Hl0); [right; left|].
  unfold bbind, st_bind, get_obj, ptr. rewrite Hbc, Hb0, Hqc, Hq0.
  assert (fst q ≠ x) as Hx by (apply (Hne o q (b_len b)); left).
  destruct (bo_ptr _ _ Hs c bc _ Hbc Hqc) as (m & Hm & _ & _ & H3 & _). cbn [fst snd] in *.
  destruct (bo_ptr _ _ Hs o b0 _ Hb0 Hq0) as (m0 & Hm0 & ? & ? & H4 & _). rewrite Hlc in H3. rewrite Hl0 in *.
  destruct (copy_run_ok (b_k s) (x, 0) 0 (inl q) 0 (b_len b) m) as (l & _ & _ & E & K);
    [done|cbn; lia..| |].
  { split_and!; try lia. exists m0. split_and!; (done || lia). }
  unfold copy_run in E. cbn [fst snd] in E. rewrite !Z.add_0_r in E.
  assert (overlaps (x, 0) (fst q, snd q) (b_len b) = false) as Eo.
  { unfold overlaps. cbn [fst snd]. by rewrite (proj2 (Nat.eqb_neq _ _)). }
  rewrite Eo in E. rewrite <-surjective_pairing in E. unfold kb, bret, st_ret. rewrite ?Hl0, E. eexists (Val c), _. split; [done|].
  split_and!; try done. by apply buf_ok_k.
Qed.

Lemma luabuf_push_runs n : 0 <= n < 2 ^ 63 → bruns (λ _, True) (luabuf_push p junk n) (λ _ _, True).
Proof.
  intros Hn. unfold luabuf_push. destruct (n =? 0); [by apply bruns_ret|].
  eapply bruns_bind; [by apply (chunk_alloc_runs n (λ _, True))|]. intros [c|]; cbn; [|by apply bruns_ret].
  eapply bruns_bind; [eapply bruns_conseq; [apply (luabuf_give_runs c n)| |by intros a s H; exact H]|].
  { intros s [_ H]. by apply H. }
  intros [o|]; cbn.
  - eapply (bruns_bind _ _ (λ _ _, True)); [|intros []; by apply bruns_ret].
    intros s Hs Hp. eexists (Val tt), _. split; [done|]. split; [|done]. by destruct Hs.
  - eapply bruns_bind; [apply free_at_runs|]. intros []. by apply bruns_ret.
Qed.
End ok.
