(* ===== verification/Buffers.v ===== *)
(** What los.buf guarantees: no call reads or writes outside live storage, a transfer leaves
    nothing pointing at what was sent, fields read back as they were written, and a copy
    moves exactly the bytes string.sub would select. *)

From S2P Require Import Prelude Clock Sched Ports PortInv KInv PortWake PortRef PortOps WaitOps.
From S2P Require Import Timer Serialize SerializeOk SerializeInv Syscall SyscallOk Demo Buf BufOk.
From stdpp Require Import prelude list gmap strings relations.
From Stdlib Require Import ZArith Lia.
Open Scope Z_scope.

(** * Fields *)

Lemma patch_nil k l : patch k [] l = l.
Proof. unfold patch. cbn. rewrite Nat.add_0_r. apply take_drop. Qed.

(** Two writes side by side are one. *)
Lemma patch_app k v w l : (k + length v + length w <= length l)%nat →
  patch (k + length v) w (patch k v l) = patch k (v ++ w) l.
Proof.
  intros H. unfold patch. rewrite !length_app.
  assert (length (take k l ++ v) = k + length v)%nat as E by (rewrite length_app, length_take; lia).
  rewrite !(app_assoc (take k l)). rewrite <-E at 1. rewrite take_app_length.
  rewrite <-!app_assoc. f_equal. f_equal. f_equal.
  rewrite (app_assoc (take k l)), drop_app_ge by lia. rewrite drop_drop. f_equal. lia.
Qed.

Lemma patch_app_r k v w l : (k + length v + length w <= length l)%nat →
  patch k v (patch (k + length v) w l) = patch k (v ++ w) l.
Proof.
  intros H. unfold patch at 1 3. rewrite <-!app_assoc. f_equal.
  - unfold patch. rewrite take_app_le, take_take by (rewrite length_take; lia). f_equal. lia.
  - f_equal. unfold patch. rewrite drop_app_length' by (rewrite length_take; lia). rewrite length_app.
    by rewrite Nat.add_assoc.
Qed.

Lemma set_k_bytes_same σ c l : k_bytes σ !! c = Some l → set_k_bytes (<[c:=l]> (k_bytes σ)) σ = σ.
Proof. intros H. rewrite insert_id by done. by destruct σ. Qed.

(** Bytes [k] to [k + m] of a value, least first. *)
Lemma shift_bytes m v k : 0 <= k → le_bytes (S m) (Z.shiftr v (8 * k)) =
  u8 (Z.shiftr v (8 * k)) :: le_bytes m (Z.shiftr v (8 * (k + 1))).
Proof.
  intros Hk. cbn [le_bytes]. f_equal. f_equal. rewrite !Z.shiftr_div_pow2 by lia.
  replace (8 * (k + 1)) with (8 * k + 8) by lia. rewrite Z.pow_add_r by lia. by rewrite Z.div_div by lia.
Qed.

(** Where setint puts them. *)
Definition field (be : bool) (l : list Z) : list Z := if be then rev l else l.

Lemma set_loop_spec q i n be v l : ∀ m k σ,
  fst q ∈ k_chunks σ → k_bytes σ !! fst q = Some l → 0 <= snd q + i → 0 <= k → k + Z.of_nat m = n →
  snd q + i + n <= Z.of_nat (length l) →
  set_loop q i n be m k v σ =
    Ok (tt, set_k_bytes (<[fst q := patch (Z.to_nat (snd q + i + if be then 0 else k))
                                     (field be (le_bytes m (Z.shiftr v (8 * k)))) l]> (k_bytes σ)) σ).
Proof.
  intros m. revert l. induction m as [|m IH]; intros l k σ Hc Hl Hi Hk Hm Hb.
  - cbn [set_loop]. unfold st_ret. repeat f_equal. symmetry.
    replace (field be _) with (@nil Z) by (by destruct be). rewrite patch_nil. by apply set_k_bytes_same.
  - cbn [set_loop]. set (x := i + _). set (b := u8 _).
    assert (csize σ (fst q) = Some (Z.of_nat (length l))) as Hsz.
    { unfold csize. rewrite decide_True by done. by rewrite Hl. }
    destruct (poke_ok 0 σ q x [b] (Z.of_nat (length l))) as (l' & Hl' & _ & E & _);
      [done|unfold x; destruct be; cbn; lia..|].
    assert (l' = l) as -> by congruence. unfold st_bind. rewrite E.
    set (l1 := patch _ _ l).
    assert (length l1 = length l) as Hl1 by (unfold l1; rewrite patch_length; [done|unfold x; destruct be; cbn; lia]).
    rewrite (IH l1) by (cbn [k_chunks k_bytes set_k_bytes]; rewrite ?lookup_insert_eq, ?Hl1; done || lia).
    cbn [k_bytes set_k_bytes]. rewrite insert_insert_eq.
    match goal with |- Ok (tt, set_k_bytes (<[_ := ?a]> _) _) = Ok (tt, set_k_bytes (<[_ := ?b]> _) _) =>
      enough (a = b) as -> by done end.
    rewrite shift_bytes by done. fold b. unfold l1, x. destruct be; cbn [field].
    + cbn [rev]. set (r := rev _). assert (length r = m) as Hr by (unfold r; rewrite List.length_rev, le_bytes_length; done).
      rewrite <-patch_app_r by (rewrite Hr; cbn; lia). rewrite Hr. f_equal. f_equal. lia.
    + set (r := le_bytes m _). assert (length r = m) as Hr by apply le_bytes_length.
      change (b :: r) with ([b] ++ r). rewrite <-patch_app by (rewrite Hr; cbn; lia).
      cbn [length]. f_equal; [lia|]. f_equal. lia.
Qed.

(** The bytes a pointer shows. *)
Definition shown (σ : kst) (q : nat * Z) (n : Z) : list Z :=
  take (Z.to_nat n) (drop (Z.to_nat (snd q)) (default [] (k_bytes σ !! fst q))).

Lemma slice_nth (l : list Z) a n k : (k < n)%nat → (a + n <= length l)%nat →
  nth 0 (take 1 (drop (a + k) l)) 0 = nth k (take n (drop a l)) 0.
Proof.
  intros Hk Hl. destruct (lookup_lt_is_Some_2 l (a + k)) as [x Hx]; [lia|].
  rewrite (nth_lookup_Some _ k 0 x).
  - rewrite (nth_lookup_Some _ 0 0 x); [done|]. rewrite lookup_take_lt by lia. by rewrite lookup_drop, Nat.add_0_r.
  - rewrite lookup_take_lt by lia. by rewrite lookup_drop.
Qed.

Lemma get_loop_spec q i n be l : ∀ m k v σ,
  fst q ∈ k_chunks σ → k_bytes σ !! fst q = Some l → 0 <= snd q + i → 0 <= k → k + Z.of_nat m = n →
  snd q + i + n <= Z.of_nat (length l) →
  let B := field (negb be) (take (Z.to_nat n) (drop (Z.to_nat (snd q + i)) l)) in
  get_loop q i n be m k v σ = Ok (foldl (λ v c, Z.lor (u64 (Z.shiftl v 8)) c) v (drop (Z.to_nat k) B), σ).
Proof.
  induction m as [|m IH]; intros k v σ Hc Hl Hi Hk Hm Hb; cbn zeta; set (w := take _ (drop _ l)).
  - assert (length w = Z.to_nat n) as Hw by (unfold w; rewrite length_take, length_drop; lia).
    rewrite drop_ge; [done|]. destruct be; cbn [field negb]; rewrite ?List.length_rev; lia.
  - cbn [get_loop]. set (x := i + _). assert (length w = Z.to_nat n) as Hw by (unfold w; rewrite length_take, length_drop; lia).
    assert (csize σ (fst q) = Some (Z.of_nat (length l))) as Hsz.
    { unfold csize. rewrite decide_True by done. by rewrite Hl. }
    destruct (peek_ok σ q x 1 (Z.of_nat (length l))) as (l' & Hl' & _ & E); [done|unfold x; destruct be; lia..|].
    assert (l' = l) as -> by congruence. unfold st_bind. rewrite E, IH by (done || lia). fold w.
    assert (drop (Z.to_nat k) (field (negb be) w) =
            nth 0 (take (Z.to_nat 1) (drop (Z.to_nat (snd q + x)) l)) 0 :: drop (Z.to_nat (k + 1)) (field (negb be) w)) as ->; [|done].
    destruct (lookup_lt_is_Some_2 (field (negb be) w) (Z.to_nat k)) as [y Hy].
    { destruct be; cbn [field negb]; rewrite ?List.length_rev; lia. }
    rewrite (drop_S _ y) by done. replace (Z.to_nat (k + 1)) with (S (Z.to_nat k)) by lia. f_equal.
    apply (nth_lookup_Some _ _ 0) in Hy. rewrite <-Hy. change (Z.to_nat 1) with 1%nat.
    destruct be; cbn [field negb] in *.
    + replace (Z.to_nat (snd q + x)) with (Z.to_nat (snd q + i) + Z.to_nat k)%nat by (unfold x; lia).
      symmetry. apply slice_nth; lia.
    + rewrite List.rev_nth by lia. rewrite Hw.
      replace (Z.to_nat (snd q + x)) with (Z.to_nat (snd q + i) + (Z.to_nat n - S (Z.to_nat k)))%nat by (unfold x; lia).
      symmetry. apply slice_nth; lia.
Qed.

Lemma lor_byte v c : 0 <= v → byte_ok c → Z.lor (Z.shiftl v 8) c = 256 * v + c.
Proof.
  intros Hv Hc. unfold byte_ok in Hc. assert (Z.land (Z.shiftl v 8) c = 0) as E.
  { apply Z.bits_inj'. intros k Hk. rewrite Z.land_spec, Z.bits_0. destruct (Z.lt_ge_cases k 8).
    - by rewrite Z.shiftl_spec_low.
    - rewrite (Z.bits_above_log2 c); [apply andb_false_r|lia|]. destruct (decide (c = 0)) as [->|]; [cbn; lia|].
      apply Z.log2_lt_pow2; [lia|]. apply Z.lt_le_trans with (2 ^ 8); [lia|]. apply Z.pow_le_mono_r; lia. }
  rewrite <-Z.lxor_lor, <-Z.add_nocarry_lxor by done. rewrite Z.shiftl_mul_pow2; lia.
Qed.

(** getint's accumulation is the value of the bytes, the first the most significant. *)
Lemma accumulate B : bytes_ok B → ∀ v, 0 <= v → v * 256 ^ Z.of_nat (length B) + 256 ^ Z.of_nat (length B) <= 2 ^ 64 →
  foldl (λ v c, Z.lor (u64 (Z.shiftl v 8)) c) v B = v * 256 ^ Z.of_nat (length B) + le_val (rev B).
Proof.
  induction 1 as [|c B Hc HB IH]; intros v Hv Hm; [cbn; lia|]. cbn [foldl length] in *.
  rewrite Nat2Z.inj_succ, Z.pow_succ_r in * by lia. set (P := 256 ^ Z.of_nat (length B)) in *.
  assert (0 < P) by (apply Z.pow_pos_nonneg; lia).
  unfold byte_ok in Hc. assert (u64 (Z.shiftl v 8) = Z.shiftl v 8) as ->.
  { apply wrap_small. rewrite Z.shiftl_mul_pow2 by lia. nia. }
  rewrite lor_byte by done. rewrite IH; [|lia|nia].
  cbn [rev]. enough (le_val (rev B ++ [c]) = le_val (rev B) + P * c) as -> by lia.
  assert (∀ l, le_val (l ++ [c]) = le_val l + 256 ^ Z.of_nat (length l) * c) as ->.
  { induction l as [|x l IHl]; [cbn; lia|]. cbn [app le_val length]. rewrite IHl, Nat2Z.inj_succ, Z.pow_succ_r by lia. lia. }
  by rewrite List.length_rev.
Qed.

(** Where the machine starts: no buffers, no storage. *)
Definition no_bufs : bst := mkBst boot ∅ 0.

Lemma no_bufs_ok : buf_ok 0 no_bufs.
Proof.
  split; cbn [b_k b_objs no_bufs]; [done|by eexists|intros c n; unfold csize; by rewrite decide_False by set_solver|..].
  all: intros; by match goal with H : ∅ !! _ = Some _ |- _ => rewrite lookup_empty in H end.
Qed.

(** * Every call *)

Lemma buf_eq_runs p x y : bruns p (λ s, (∀ o, x = Some o → has o s) ∧ (∀ o, y = Some o → has o s))
  (buf_eq x y) (λ _ _, True).
Proof.
  destruct x as [x|]; [|by apply bruns_ret]. destruct y as [y|]; [|by apply bruns_ret].
  intros s Hs [Hx Hy]. pose proof (Hx x eq_refl) as [a Ha]%elem_of_dom. pose proof (Hy y eq_refl) as [b Hb]%elem_of_dom.
  unfold buf_eq, bbind, st_bind, get_obj. rewrite Ha, Hb.
  destruct (b_p a) as [qa|] eqn:Ea; [|by eexists (Val _), s].
  destruct (b_p b) as [qb|] eqn:Eb; [|by eexists (Val _), s]. destruct (negb _); [by eexists (Val _), s|].
  destruct (bo_ptr _ _ Hs x a qa Ha Ea) as (m & Hm & ? & ? & ? & _).
  destruct (bo_ptr _ _ Hs y b qb Hb Eb) as (m' & Hm' & ? & ? & ? & _).
  destruct (peek_ok (b_k s) qa 0 (b_len a) m Hm) as (l & _ & _ & E1); [lia..|].
  destruct (peek_ok (b_k s) qb 0 (b_len b) m' Hm') as (l' & _ & _ & E2); [lia..|].
  unfold kb. rewrite E1. cbn [b_k set_b_k]. rewrite E2. eexists (Val _), _. split; [by destruct s|]. by destruct s.
Qed.

(** What lua code, the kernel and the collector do with buffers. *)
Inductive bcall : Type :=
| BNew (n fill : Z) | BLen (o : nat) | BSub (o : nat) (i j : Z) | BByte (o : nat) (i j : Z)
| BSet (o : nat) (i : Z) (vals : list (option Z)) | BCopy (o : nat) (i : Z) (src : payload) (from to : Z)
| BFill (o : nat) (v i j : Z) | BGetint (o : nat) (i nbytes : Z) (be : bool)
| BSetint (o : nat) (i v nbytes : Z) (be : bool) | BView (o : nat) (i j : Z) | BRo (o : nat) | BClone (o : nat)
| BEq (x y : nat) | BMovable (o : nat) | BPushview (o : nat) (off n : Z) | BSend (v : payload)
| BGive (c : nat) (n : Z) | BPush (n : Z) | BGc (o : nat).

Definition quietly {A} (m : BM A) : BM unit := bbind m (λ _, bret tt).

Section calls.
Context (p : nat) (junk : nat → Z) (gc : list nat → bst → bst).

Definition exec (c : bcall) : BM unit :=
  match c with
  | BNew n fill => quietly (buf_new p junk gc [] n fill)
  | BLen o => quietly (buf_len o)
  | BSub o i j => quietly (buf_sub o i j)
  | BByte o i j => quietly (buf_byte o i j)
  | BSet o i vals => buf_set o i vals
  | BCopy o i src from to => quietly (buf_copy o i src from to)
  | BFill o v i j => buf_fill o v i j
  | BGetint o i n be => quietly (getint o i n be)
  | BSetint o i v n be => setint o i v n be
  | BView o i j => quietly (buf_view o i j)
  | BRo o => quietly (buf_ro o)
  | BClone o => quietly (buf_clone p junk gc o)
  | BEq x y => quietly (buf_eq (Some x) (Some y))
  | BMovable o => quietly (buf_movable o)
  | BPushview o off n => quietly (luabuf_pushview o off n)
  | BSend v => quietly (send_buf p v)
  | BGive c n => quietly (luabuf_give p c n)
  | BPush n => quietly (luabuf_push p junk n)
  | BGc o => buf_gc p o
  end.

(** Userdata are handles lua still has, integers are lua's, no size asked for is negative
    (negative_new_overruns), storage given was in the kernel's hands, and __gc is called by
    the collector alone (gc_by_hand_frees_under_view), once and after the views. *)
Definition valid (c : bcall) (s : bst) : Prop :=
  match c with
  | BNew n fill => 0 <= n < 2 ^ 63 ∧ luaint fill
  | BLen o | BRo o | BClone o | BMovable o => has o s
  | BSub o i j | BByte o i j | BView o i j => has o s ∧ luaint i ∧ luaint j
  | BSet o i vals => has o s ∧ luaint i ∧ Z.of_nat (length vals) < 2 ^ 31
  | BCopy o i src from to => (has o s ∧ payload_ok src s) ∧ luaint i ∧ luaint from ∧ luaint to
  | BFill o v i j => has o s ∧ luaint i ∧ luaint j
  | BGetint o i n be => has o s ∧ luaint i ∧ 0 <= n <= 8
  | BSetint o i v n be => has o s ∧ luaint i ∧ 0 <= n <= 8
  | BEq x y => has x s ∧ has y s
  | BPushview o off n => has o s ∧ 0 <= off < 2 ^ 63 ∧ 0 <= n < 2 ^ 63
  | BSend v => payload_ok v s
  | BGive c n => in_flight c n s
  | BPush n => 0 <= n < 2 ^ 63
  | BGc o => finalizable o s
  end.


Lemma quietly_runs {A} P (m : BM A) Q : bruns p P m Q → bruns p P (quietly m) (λ _ _, True).
Proof. intros H. eapply bruns_bind; [exact H|]. intros a. by apply bruns_ret. Qed.

Lemma bruns_pure {A} (P : bst → Prop) (F : Prop) (m : BM A) Q :
  (F → bruns p P m Q) → bruns p (λ s, P s ∧ F) m Q.
Proof. intros H s Hs [HP HF]. by apply H. Qed.

Lemma exec_runs c : gc_ok p gc → bruns p (valid c) (exec c) (λ _ _, True).
Proof.
  intros Hgc. destruct c; cbn [exec]; unfold valid.
  - intros s Hs [Hn _]. apply (quietly_runs _ _ _ (buf_new_runs p junk gc [] n fill Hgc Hn) s Hs).
    by intros ? ? ? ?%elem_of_nil.
  - eapply quietly_runs, buf_len_runs.
  - apply bruns_pure. intros [? ?]. by eapply quietly_runs, buf_sub_runs.
  - apply bruns_pure. intros [? ?]. by eapply quietly_runs, buf_byte_runs.
  - apply bruns_pure. intros [? ?]. by apply buf_set_runs.
  - apply bruns_pure. intros (? & ? & ?). by eapply quietly_runs, buf_copy_runs.
  - apply bruns_pure. intros [? ?]. by apply buf_fill_runs.
  - apply bruns_pure. intros [? ?]. by eapply quietly_runs, getint_runs.
  - apply bruns_pure. intros [? ?]. by apply setint_runs.
  - apply bruns_pure. intros [? ?]. by eapply quietly_runs, buf_view_runs.
  - eapply quietly_runs, buf_ro_runs.
  - by eapply quietly_runs, buf_clone_runs.
  - eapply bruns_conseq; [eapply quietly_runs, (buf_eq_runs p (Some x) (Some y))| |done].
    intros s [? ?]. by split; intros ? [= <-].
  - eapply (quietly_runs _ _ (λ _ _, True)), bruns_bind; [by apply (get_obj_runs p o (has o))|]. intros b. by apply bruns_ret.
  - apply bruns_pure. intros [? ?]. by eapply quietly_runs, pushview_runs.
  - eapply quietly_runs, send_buf_runs.
  - eapply quietly_runs, luabuf_give_runs.
  - intros s Hs Hn. by apply (quietly_runs _ _ _ (luabuf_push_runs p junk n Hn) s Hs).
  - apply buf_gc_runs.
Qed.
End calls.


Definition junk0 (i : nat) : Z := 0.
Definition no_gc (L : list nat) (s : bst) : bst := s.
Definition after_b {A} (m : BM A) (s : bst) : bst := match m s with Ok (_, s') => s' | Err _ => s end.

(** buf.new(4, 7) *)
Definition demo_buf : bst := after_b (exec 0 junk0 no_gc (BNew 4 7)) no_bufs.

Lemma no_gc_ok p : gc_ok p no_gc.
Proof. intros L s Hs. split_and!; try done. intros o b _ Hb. by exists b. Qed.



(** * Fields read back *)

(** The buffer [o] is writable and points to [q]. *)
Record writable (o : nat) (b : luabuf) (q : nat * Z) (s : bst) : Prop := mkWritable {
  wr_obj : b_objs s !! o = Some b;
  wr_ptr : b_p b = Some q;
  wr_ro : b_ro b = false;
}.

Lemma checkwritable_run o b q s : writable o b q s → checkwritable o s = Ok (Val b, s).
Proof. intros [H1 H2 H3]. unfold checkwritable, checkbuf, bbind, st_bind, get_obj. rewrite H1, H2. cbn. by rewrite H3. Qed.

Lemma checkbuf_run o b q s : b_objs s !! o = Some b → b_p b = Some q → checkbuf o s = Ok (Val b, s).
Proof. intros H1 H2. unfold checkbuf, bbind, st_bind, get_obj. by rewrite H1, H2. Qed.

Lemma inside_check σ b i n : k_szbits σ = 64 → 1 <= i → 0 <= n → i - 1 + n <= b_len b → b_len b < 2 ^ 63 →
  (i <? 1) || (b_len b <? size_t σ (size_t σ (i - 1) + n)) = false.
Proof.
  unfold size_t. intros -> H1 H2 H3 H4. rewrite (wrap_small 64 (i - 1)), wrap_small by lia.
  apply orb_false_iff. split; apply Z.ltb_ge; lia.
Qed.

Lemma kget_run s : kb st_get s = Ok (Val (b_k s), s).
Proof. by destruct s. Qed.

Lemma patch_slice k w l : (k + length w <= length l)%nat → take (length w) (drop k (patch k w l)) = w.
Proof.
  intros H. unfold patch. rewrite drop_app_length' by (rewrite length_take; lia). apply take_app_length.
Qed.

Lemma field_length be l : length (field be l) = length l.
Proof. destruct be; cbn; [apply List.length_rev|done]. Qed.

Lemma live_chunk p s o b q : buf_ok p s → b_objs s !! o = Some b → b_p b = Some q →
  ∃ l, fst q ∈ k_chunks (b_k s) ∧ k_bytes (b_k s) !! fst q = Some l ∧ 0 <= snd q ∧ 0 <= b_len b < 2 ^ 63 ∧
       snd q + b_len b <= Z.of_nat (length l).
Proof.
  intros Hs Ho Hq. destruct (bo_ptr _ _ Hs o b q Ho Hq) as (m & Hm & H1 & H2 & H3 & _).
  pose proof (bo_size _ _ Hs _ _ Hm). destruct (csize_Some _ _ _ Hm) as (l & Hc & Hl & ->). exists l. split_and!; (done || lia).
Qed.

(** C16: setu8 to setu64be, then the getter of the same name, at the same place: the value
    modulo its width comes back, whatever the byte order.  The bytes written are the
    little- or big-endian encoding, and no other byte of the machine changes. *)
Theorem buf_field_roundtrip p s o b q i v n be :
  buf_ok p s → writable o b q s → 1 <= i → 0 < n <= 8 → i - 1 + n <= b_len b → luaint v →
  ∃ l s', k_bytes (b_k s) !! fst q = Some l ∧
    setint o i v n be s = Ok (Val tt, s') ∧
    k_bytes (b_k s') = <[fst q := patch (Z.to_nat (snd q + (i - 1))) (field be (le_bytes (Z.to_nat n) v)) l]> (k_bytes (b_k s)) ∧
    getint o i n be s' = Ok (Val (v mod 2 ^ (8 * n)), s').
Proof.
  intros Hs W Hi Hn Hb Hv. destruct (live_chunk p s o b q Hs (wr_obj _ _ _ _ W) (wr_ptr _ _ _ _ W))
    as (l & Hc & Hl & Hq & Hlen & Hend).
  set (L := le_bytes (Z.to_nat n) v). assert (length L = Z.to_nat n) as HL by apply le_bytes_length.
  set (l' := patch (Z.to_nat (snd q + (i - 1))) (field be L) l).
  set (σ' := set_k_bytes (<[fst q := l']> (k_bytes (b_k s))) (b_k s)). exists l, (set_b_k σ' s). split; [done|].
  assert (length l' = length l) as Hl' by (unfold l'; rewrite patch_length; [done|rewrite field_length; lia]).
  split; [|split; [done|]].
  - unfold setint, bbind at 1, st_bind at 1. rewrite (checkwritable_run o b q s W).
    unfold bbind at 1, st_bind at 1. rewrite kget_run, inside_check by (apply Hs || lia).
    unfold ptr, bbind, st_bind. rewrite (wr_ptr _ _ _ _ W). unfold kb, bret, st_ret.
    rewrite (set_loop_spec q (i - 1) n be (u64 v) l (Z.to_nat n) 0 (b_k s)) by (done || lia).
    unfold σ', l', L. rewrite Z.mul_0_r, Z.shiftr_0_r. change (u64 v) with (v mod 256 ^ Z.of_nat 8).
    rewrite le_bytes_mod by lia. destruct be; by rewrite Z.add_0_r.
  - unfold getint, bbind at 1, st_bind at 1.
    rewrite (checkbuf_run o b q) by apply W. unfold bbind at 1, st_bind at 1. rewrite kget_run.
    rewrite inside_check by (apply Hs || lia). unfold ptr, bbind, st_bind. rewrite (wr_ptr _ _ _ _ W). unfold kb, bret, st_ret.
    rewrite (get_loop_spec q (i - 1) n be l') by (cbn; rewrite ?lookup_insert_eq; done || lia).
    unfold l'. rewrite <-HL at 1. rewrite <-(field_length be L) at 1. rewrite patch_slice by (rewrite field_length; lia).
    assert (field (negb be) (field be L) = rev L) as -> by (by destruct be). change (drop (Z.to_nat 0) ?x) with x.
    rewrite accumulate, List.rev_involutive, Z.mul_0_l, Z.add_0_l; [|by apply Forall_rev, le_bytes_ok|lia|].
    + unfold L. rewrite le_val_bytes, Z2Nat.id by lia. rewrite Z.pow_mul_r by lia. done.
    + rewrite List.length_rev, HL, Z2Nat.id by lia. change (2 ^ 64) with (256 ^ 8).
      rewrite Z.mul_0_l, Z.add_0_l. apply Z.pow_le_mono_r; lia.
Qed.

Lemma demo_buf_ok : buf_ok 0 demo_buf.
Proof.
  destruct (exec_runs 0 junk0 no_gc (BNew 4 7) (no_gc_ok 0) no_bufs no_bufs_ok) as (r & s' & E & H & _);
    [unfold valid, luaint; lia|]. unfold demo_buf, after_b. by rewrite E.
Qed.

Definition demo_luabuf : luabuf := mkBuf (Some (0%nat, 0)) 4 false true 0 None.
Lemma demo_writable : writable 1 demo_luabuf (0%nat, 0) demo_buf.
Proof. by split; vm_compute. Qed.

Lemma buf_field_roundtrip_witness :
  ∃ s', setint 1 2 0x1234 2 true demo_buf = Ok (Val tt, s') ∧ getint 1 2 2 true s' = Ok (Val 0x1234, s').
Proof.
  destruct (buf_field_roundtrip 0 demo_buf 1 demo_luabuf (0%nat, 0) 2 0x1234 2 true demo_buf_ok demo_writable)
    as (l & s' & _ & E & _ & G); [lia|lia|cbn; lia|unfold luaint; lia|]. exists s'. split; [exact E|exact G].
Defined.

(** * Copying *)

(** The bytes of a payload, if it has any. *)
Definition contents (s : bst) (v : payload) : option (list Z) :=
  match v with
  | PStr l => Some l
  | PBuf o => match b_objs s !! o with
              | Some b => match b_p b with Some q => Some (shown (b_k s) q (b_len b)) | None => None end
              | None => None
              end
  | POther => None
  end.

(** string.sub *)
Definition lua_sub (l : list Z) (i j : Z) : list Z :=
  let n := Z.of_nat (length l) in
  let lo := Z.max 1 (from_end n i) in let hi := Z.min n (from_end n j) in
  take (Z.to_nat (hi - lo + 1)) (drop (Z.to_nat (lo - 1)) l).

Lemma shown_length σ q n l : k_bytes σ !! fst q = Some l → 0 <= snd q → 0 <= n → snd q + n <= Z.of_nat (length l) →
  length (shown σ q n) = Z.to_nat n.
Proof. intros Hl ? ? ?. unfold shown. rewrite Hl, length_take, length_drop. cbn. lia. Qed.

(** luabuf_bytes hands out the contents. *)
Lemma luabuf_bytes_run p s v l : buf_ok p s → contents s v = Some l → Z.of_nat (length l) < 2 ^ 63 →
  ∃ x, luabuf_bytes v s = Ok (Val (Some (x, Z.of_nat (length l))), s) ∧
    ∀ from n, 0 <= from → 0 <= n → from + n <= Z.of_nat (length l) →
      run_ok (b_k s) x from n ∧ run_of (b_k s) x from n = take (Z.to_nat n) (drop (Z.to_nat from) l).
Proof.
  intros Hs Hv Hl. destruct v as [l'|o|]; cbn in Hv; [|destruct (b_objs s !! o) as [b|] eqn:Ho; [|done]; destruct (b_p b) as [q|] eqn:Hq; [|done]|done].
  - injection Hv as ->. exists (inr l). split; [done|]. intros from n ? ? ?. by split.
  - injection Hv as <-. destruct (live_chunk p s o b q Hs Ho Hq) as (l0 & Hc & Hl0 & Hq0 & Hlen & Hend).
    pose proof (shown_length (b_k s) q (b_len b) l0 Hl0 Hq0 ltac:(lia) Hend) as Hsl.
    exists (inl q). split; [unfold luabuf_bytes, bbind, st_bind, get_obj; rewrite Ho, Hq, Hsl, Z2Nat.id by lia; done|].
    intros from n Hf Hn Hfn. rewrite Hsl, Z2Nat.id in Hfn by lia. split.
    + split_and!; try lia. exists (Z.of_nat (length l0)). unfold csize. rewrite decide_True, Hl0 by done. split_and!; (done || lia).
    + unfold run_of, shown. rewrite Hl0. cbn.  rewrite skipn_firstn_comm, drop_drop, take_take. f_equal; [lia|]. f_equal. lia.
Qed.

Lemma patch_skip l1 l2 j v : patch (length l1 + j) v (l1 ++ l2) = l1 ++ patch j v l2.
Proof.
  unfold patch. rewrite take_app_add, <-Nat.add_assoc, drop_app_add. by rewrite <-app_assoc.
Qed.

Lemma patch_take m j v l : (j + length v <= m)%nat → (m <= length l)%nat → take m (patch j v l) = patch j v (take m l).
Proof.
  intros H Hm. unfold patch. rewrite take_take, Nat.min_l by lia.
  rewrite take_app_ge by (rewrite length_take; lia). f_equal. rewrite length_take, Nat.min_l by lia.
  rewrite take_app_ge by lia. f_equal. rewrite skipn_firstn_comm. f_equal. lia.
Qed.

Lemma shown_patch σ q n l k v : k_bytes σ !! fst q = Some l → 0 <= snd q → 0 <= n → snd q + n <= Z.of_nat (length l) →
  0 <= k → k + Z.of_nat (length v) <= n →
  take (Z.to_nat n) (drop (Z.to_nat (snd q)) (patch (Z.to_nat (snd q + k)) v l)) = patch (Z.to_nat k) v (shown σ q n).
Proof.
  intros Hl ? ? ? ? ?. unfold shown. rewrite Hl. change (default [] (Some l)) with l. set (a := Z.to_nat (snd q)).
  rewrite <-(take_drop a l) at 1. assert (length (take a l) = a) as Ha by (rewrite length_take; lia).
  replace (Z.to_nat (snd q + k)) with (length (take a l) + Z.to_nat k)%nat by lia.
  rewrite patch_skip. rewrite drop_app_length' by done. apply patch_take; [lia|]. rewrite length_drop. lia.
Qed.

(** C15: buf:copy(i, src, from, to) copies exactly src:sub(from, to), as string.sub reads
    its arguments, to the bytes from [i] on, even when [src] is the buffer itself or a
    view that overlaps the destination; no other byte changes and the number of bytes is
    answered.  With nothing to copy it does nothing; what would not fit is an error that
    changes nothing. *)
Theorem buf_copy_exact p s o b q src l i from to :
  buf_ok p s → writable o b q s → contents s src = Some l → Z.of_nat (length l) < 2 ^ 63 →
  luaint i → luaint from → luaint to →
  let v := lua_sub l from to in let n := Z.of_nat (length v) in
  (n = 0 → buf_copy o i src from to s = Ok (Val None, s)) ∧
  (0 < n → 1 <= i → i - 1 + n <= b_len b →
     ∃ s', buf_copy o i src from to s = Ok (Val (Some n), s') ∧ b_objs s' = b_objs s ∧
       contents s' (PBuf o) = patch (Z.to_nat (i - 1)) v <$> contents s (PBuf o) ∧
       ∀ c, c ≠ fst q → k_bytes (b_k s') !! c = k_bytes (b_k s) !! c) ∧
  (0 < n → i < 1 ∨ b_len b < i - 1 + n → ∃ e, buf_copy o i src from to s = Ok (Raise e, s)).
Proof.
  intros Hs W Hsrc Hl Hi Hf Ht. destruct (luabuf_bytes_run p s src l Hs Hsrc Hl) as (x & Ex & Hx).
  destruct (live_chunk p s o b q Hs (wr_obj _ _ _ _ W) (wr_ptr _ _ _ _ W)) as (l0 & Hc & Hl0 & Hq & Hlen & Hend).
  set (N := Z.of_nat (length l)) in *. set (lo := Z.max 1 (from_end N from)). set (hi := Z.min N (from_end N to)).
  assert (1 <= lo ∧ hi <= N) as [Hlo Hhi] by lia. cbn zeta. set (v := lua_sub l from to).
  assert (Z.of_nat (length v) = Z.max 0 (hi - lo + 1)) as Hn.
  { unfold v, lua_sub. fold N lo hi. rewrite length_take, length_drop. lia. }
  assert (buf_copy o i src from to s = if hi <? lo then Ok (Val None, s) else
    if (i <? 1) || (b_len b <? size_t (b_k s) (size_t (b_k s) (i - 1) + (hi - lo + 1)))
    then Ok (Raise "copy: %d bytes at %d is outside the buffer (%d)", s)
    else (go! _ := kb (copy_run q (i - 1) x (lo - 1) (hi - lo + 1)) in bret (Some (hi - lo + 1))) s) as ->.
  { unfold buf_copy, bbind at 1, st_bind at 1. rewrite (checkwritable_run o b q s W).
    unfold bbind at 1, st_bind at 1. rewrite Ex, !from_end_i64, clamp_lo, clamp_hi by (done || lia). fold lo hi.
    destruct (hi <? lo) eqn:E; [done|]. apply Z.ltb_ge in E. unfold bbind at 1, st_bind at 1. rewrite kget_run.
    assert (size_t (b_k s) (hi - lo + 1) = hi - lo + 1) as ->.
    { unfold size_t. rewrite (bo_wide _ _ Hs). apply wrap_small. lia. }
    destruct (_ || _); [done|]. unfold ptr, bbind at 1, st_bind at 1. by rewrite (wr_ptr _ _ _ _ W). }
  split_and!.
  - intros Hz. by rewrite (proj2 (Z.ltb_lt _ _)) by lia.
  - intros Hp H1 H2. rewrite (proj2 (Z.ltb_ge _ _)) by lia. rewrite inside_check by (apply Hs || lia).
    destruct (Hx (lo - 1) (hi - lo + 1)) as [Hok Hof]; [lia..|].
    assert (csize (b_k s) (fst q) = Some (Z.of_nat (length l0))) as Hsz by (unfold csize; by rewrite decide_True, Hl0).
    destruct (copy_run_ok p (b_k s) q (i - 1) x (lo - 1) (hi - lo + 1) _ Hsz) as (l1 & Hl1 & _ & E & _); [lia..|done|].
    assert (l1 = l0) as -> by congruence. unfold bbind, st_bind, kb. rewrite E, Hof. change (take _ (drop _ l)) with v.
    eexists. split; [unfold bret, st_ret; repeat f_equal; lia|]. split; [done|]. split.
    + cbn [contents b_objs b_k set_b_k]. rewrite (wr_obj _ _ _ _ W), (wr_ptr _ _ _ _ W). cbn. f_equal. unfold shown at 1.
      cbn [k_bytes set_k_bytes]. rewrite lookup_insert_eq. cbn. eapply shown_patch; (done || lia).
    + intros c Hcq. cbn. by rewrite lookup_insert_ne.
  - intros Hp Hout. rewrite (proj2 (Z.ltb_ge _ _)) by lia. unfold luaint in Hi.
    assert ((i <? 1) || (b_len b <? size_t (b_k s) (size_t (b_k s) (i - 1) + (hi - lo + 1))) = true) as ->; [|by eexists].
    apply orb_true_iff. destruct (Z.lt_ge_cases i 1); [left; by apply Z.ltb_lt|right]. unfold size_t. rewrite (bo_wide _ _ Hs).
    rewrite (wrap_small 64 (i - 1)), wrap_small by lia. apply Z.ltb_lt. lia.
Qed.

(** b:copy(2, b:view(1, 3)): the ranges overlap. *)
Definition demo_view : bst := after_b (exec 0 junk0 no_gc (BView 1 1 3)) (after_b (exec 0 junk0 no_gc (BSet 1 1 [Some 5; Some 6])) demo_buf).

Lemma demo_view_ok : buf_ok 0 demo_view.
Proof.
  destruct (exec_runs 0 junk0 no_gc (BSet 1 1 [Some 5; Some 6]) (no_gc_ok 0) demo_buf demo_buf_ok) as (r & s' & E & H & _).
  { split; [by vm_compute|unfold luaint; cbn; lia]. }
  unfold demo_view, after_b at 2. rewrite E.
  destruct (exec_runs 0 junk0 no_gc (BView 1 1 3) (no_gc_ok 0) s' H) as (r' & s2 & E' & H' & _).
  { split; [|unfold luaint; lia]. vm_compute in E. injection E as _ <-. by vm_compute. }
  unfold after_b. by rewrite E'.
Qed.

Lemma buf_copy_exact_witness :
  contents demo_view (PBuf 1) = Some [5; 6; 7; 7] ∧
  ∃ s', buf_copy 1 2 (PBuf 2) 1 (-1) demo_view = Ok (Val (Some 3), s') ∧ contents s' (PBuf 1) = Some [5; 5; 6; 7].
Proof.
  split; [by vm_compute|].
  destruct (buf_copy_exact 0 demo_view 1 (set_b_views 1 demo_luabuf) (0%nat, 0) (PBuf 2) [5; 6; 7] 2 1 (-1) demo_view_ok)
    as (_ & H & _); [by split; vm_compute|by vm_compute|cbn; lia|unfold luaint; lia..|].
  destruct H as (s' & E & _ & C & _); [by vm_compute|lia|by vm_compute|].
  exists s'. split; [exact E|]. rewrite C. by vm_compute.
Defined.

(** * Where the code falls short *)

(** The metatable is its own __index, so lua code can call the finalizer: b:__gc() on a
    buffer with a view frees the bytes under it. *)
Theorem gc_by_hand_frees_under_view :
  (match buf_gc 0 1 demo_view with Ok (_, s) => buf_byte 2 1 1 s | Err e => Err e end) = Err UseAfterFree.
Proof. by vm_compute. Qed.

(** buf.new(-1), by a proc without a memory limit: malloc's sum wraps and it answers a
    block for a request of all but one byte of the address space, and the memset runs off
    it. *)
Theorem negative_new_overruns : buf_new 0 junk0 no_gc [] (-1) 7 no_bufs = Err OutOfBounds.
Proof.
  set (N := 18446744073709551615). set (s1 := after_b (kb (kbuf_charge 0 N)) no_bufs).
  set (s2 := after_b (kb (chunk_alloc junk0 N)) s1).
  assert (kb (kbuf_charge 0 N) no_bufs = Ok (Val true, s1)) as E1 by by vm_compute.
  assert (kb (chunk_alloc junk0 N) s1 = Ok (Val (Some 0%nat), s2)) as E2 by by vm_compute.
  assert (k_bytes (b_k s2) !! 0%nat = Some [] ∧ 0%nat ∈ k_chunks (b_k s2)) as [E3 Hc] by by vm_compute.
  unfold buf_new, bbind, st_bind. rewrite kget_run. change (size_t (b_k no_bufs) (-1)) with N.
  change (N =? 0) with false. cbv beta iota zeta. rewrite E1. cbn [negb]. rewrite E2.
  unfold kb at 1, poke, in_chunk. cbn [fst snd]. rewrite decide_True, E3, length_replicate by done.
  by rewrite Z2Nat.id.
Qed.

(** With a 32-bit size_t the sum in the bound check wraps: b:set(2^32, 9) passes it and
    writes one byte before the buffer. *)
Theorem set_wraps_32bit :
  buf_set 1 (2 ^ 32) [Some 9] (set_b_k (set_k_szbits 32 (b_k demo_buf)) demo_buf) = Err OutOfBounds.
Proof. by vm_compute. Qed.

(** buf.new when lua has no memory for the userdata: the error leaves the chunk allocated
    and charged, and nothing refers to it. *)
Definition one_alloc : bst := mkBst (set_k_mem (λ i, (i <? 1)%nat) boot) ∅ 0.
Theorem new_leaks_chunk :
  let s := after_b (buf_new 0 junk0 no_gc [] 4 7) one_alloc in
  k_chunks (b_k s) = {[0%nat]} ∧ b_objs s = ∅ ∧ option_map mem_used (k_acct (b_k s) !! 0%nat) = Some 4.
Proof. by vm_compute. Qed.

(** buf:clone takes a collector step between checking the source and copying it: a
    finalizer that sends the source leaves memcpy a null pointer. *)
Definition sends_1 (L : list nat) (s : bst) : bst := after_b (send_buf 0 (PBuf 1)) s.
Definition owes_step : bst :=
  set_b_k (set_k_acct (<[0%nat := mkAcct 4 0 4 4 (64 * 1024) 0]> (k_acct (b_k demo_buf))) (b_k demo_buf)) demo_buf.
Theorem clone_source_sent : buf_clone 0 junk0 sends_1 1 owes_step = Err NullDeref.
Proof. by vm_compute. Qed.
