(* ===== verification/LuaHeap.v ===== *)
(** The heap of a lua_State: src/src/luaheap.c, over any chunk source (Chunks.v).

    A list threaded through memory (the chunks, the large blocks, the free lists) is the
    list of its addresses; the words that thread it share their bytes with the blocks
    handed out, so every word the code stores is stored here too.  Sizes wrap at the width
    of size_t.  The lock of the heap is one call at a time. *)

From S2P Require Import Prelude Pmm Chunks.
From stdpp Require Import prelude list.
From Stdlib Require Import ZArith Lia.
Open Scope Z_scope.

(** * The state *)

(** struct chunk, at its address. *)
Record chunk : Type := mkChunk {
  c_addr : Z;
  c_size : Z;
  c_freebytes : Z;
  c_lost : Z;
}.

(** struct luaheap at [h_self]; a struct large is its address and size. *)
Record luaheap (T : Type) : Type := mkHeap {
  h_src : T;
  h_self : Z;
  chunks : list chunk;
  larges : list hole;
  bump : Z;
  bumpleft : Z;
  freelist : list (list Z);
  largefree : list (list Z);
  nlargefree : list Z;
  largecached : Z;
  live : Z;
  peak : Z;
  mapped : Z;
  nchunks : Z;
  nlarges : Z;
  rounded_bytes : Z;
  large_asked : Z;
}.
Arguments mkHeap {T} _ _ _ _ _ _ _ _ _ _ _ _ _ _ _ _ _.
Arguments h_src {T} _.
Arguments h_self {T} _.
Arguments chunks {T} _.
Arguments larges {T} _.
Arguments bump {T} _.
Arguments bumpleft {T} _.
Arguments freelist {T} _.
Arguments largefree {T} _.
Arguments nlargefree {T} _.
Arguments largecached {T} _.
Arguments live {T} _.
Arguments peak {T} _.
Arguments mapped {T} _.
Arguments nchunks {T} _.
Arguments nlarges {T} _.
Arguments rounded_bytes {T} _.
Arguments large_asked {T} _.

Section setters.
Context {T : Type}.
Implicit Types (h : luaheap T).
Definition set_src (v : T) h := mkHeap v (h_self h) (chunks h) (larges h) (bump h) (bumpleft h) (freelist h) (largefree h) (nlargefree h) (largecached h) (live h) (peak h) (mapped h) (nchunks h) (nlarges h) (rounded_bytes h) (large_asked h).
Definition set_chunks (v : list chunk) h := mkHeap (h_src h) (h_self h) v (larges h) (bump h) (bumpleft h) (freelist h) (largefree h) (nlargefree h) (largecached h) (live h) (peak h) (mapped h) (nchunks h) (nlarges h) (rounded_bytes h) (large_asked h).
Definition set_larges (v : list hole) h := mkHeap (h_src h) (h_self h) (chunks h) v (bump h) (bumpleft h) (freelist h) (largefree h) (nlargefree h) (largecached h) (live h) (peak h) (mapped h) (nchunks h) (nlarges h) (rounded_bytes h) (large_asked h).
Definition set_bump (v w : Z) h := mkHeap (h_src h) (h_self h) (chunks h) (larges h) v w (freelist h) (largefree h) (nlargefree h) (largecached h) (live h) (peak h) (mapped h) (nchunks h) (nlarges h) (rounded_bytes h) (large_asked h).
Definition set_freelist (v : list (list Z)) h := mkHeap (h_src h) (h_self h) (chunks h) (larges h) (bump h) (bumpleft h) v (largefree h) (nlargefree h) (largecached h) (live h) (peak h) (mapped h) (nchunks h) (nlarges h) (rounded_bytes h) (large_asked h).
(** A bucket of the large cache, its count and the bytes cached change together. *)
Definition set_cache (v : list (list Z)) (n : list Z) (b : Z) h := mkHeap (h_src h) (h_self h) (chunks h) (larges h) (bump h) (bumpleft h) (freelist h) v n b (live h) (peak h) (mapped h) (nchunks h) (nlarges h) (rounded_bytes h) (large_asked h).
Definition set_live (v w : Z) h := mkHeap (h_src h) (h_self h) (chunks h) (larges h) (bump h) (bumpleft h) (freelist h) (largefree h) (nlargefree h) (largecached h) v w (mapped h) (nchunks h) (nlarges h) (rounded_bytes h) (large_asked h).
Definition set_mapped (v : Z) h := mkHeap (h_src h) (h_self h) (chunks h) (larges h) (bump h) (bumpleft h) (freelist h) (largefree h) (nlargefree h) (largecached h) (live h) (peak h) v (nchunks h) (nlarges h) (rounded_bytes h) (large_asked h).
Definition set_nchunks (v : Z) h := mkHeap (h_src h) (h_self h) (chunks h) (larges h) (bump h) (bumpleft h) (freelist h) (largefree h) (nlargefree h) (largecached h) (live h) (peak h) (mapped h) v (nlarges h) (rounded_bytes h) (large_asked h).
Definition set_nlarges (v : Z) h := mkHeap (h_src h) (h_self h) (chunks h) (larges h) (bump h) (bumpleft h) (freelist h) (largefree h) (nlargefree h) (largecached h) (live h) (peak h) (mapped h) (nchunks h) v (rounded_bytes h) (large_asked h).
Definition set_rounded (v : Z) h := mkHeap (h_src h) (h_self h) (chunks h) (larges h) (bump h) (bumpleft h) (freelist h) (largefree h) (nlargefree h) (largecached h) (live h) (peak h) (mapped h) (nchunks h) (nlarges h) v (large_asked h).
Definition set_asked (v : Z) h := mkHeap (h_src h) (h_self h) (chunks h) (larges h) (bump h) (bumpleft h) (freelist h) (largefree h) (nlargefree h) (largecached h) (live h) (peak h) (mapped h) (nchunks h) (nlarges h) (rounded_bytes h) v.
End setters.

(** * Sizes *)

Definition ALIGN8 : Z := 8.
Definition classes : list Z := [16; 24; 32; 40; 48; 56; 64; 80; 96; 128; 192; 256; 384; 512].
Definition NCLASS : nat := 14.
Definition LARGE_GRAIN : Z := 512.
Definition LARGE_MAXSIZE : Z := 64 * 1024.
Definition NLARGECLASS : nat := 128.

Definition class (ci : nat) : Z := nth ci classes 0.

(** classof's scan from index [i]. *)
Fixpoint classof_from (i : nat) (l : list Z) (n : Z) : nat :=
  match l with
  | [] => i
  | c :: l => if n <=? c then i else classof_from (S i) l n
  end.
Definition classof (n : Z) : nat := classof_from 0 classes n.

Section sizes.
Context (ws : Z).

Definition roundup (n a : Z) : Z := Z.ldiff (sz ws (n + a - 1)) (a - 1).

Definition largeclassof (want : Z) : nat :=
  if (want =? 0) || (LARGE_MAXSIZE <? want) || negb (want mod LARGE_GRAIN =? 0) then NLARGECLASS
  else Z.to_nat (want / LARGE_GRAIN - 1).

Definition large_want (need : Z) : Z :=
  if LARGE_MAXSIZE <? need then roundup need ALIGN8 else roundup need LARGE_GRAIN.

(** sizeof(struct chunk) and sizeof(struct large). *)
Definition chdr : Z := 4 * ws.
Definition lhdr : Z := 2 * ws.
End sizes.

(** * The code *)

Section code.
Context {T : Type} `{ChunkOps T}.
(** The width of a word; LUAHEAP_CHUNK, LUAHEAP_LARGE_CACHED and sizeof(struct luaheap). *)
Context (ws CHUNK LARGE_CACHED HEAPSZ : Z).
Abbreviation HM A := (ST (luaheap T) A).

Definition CHUNK_BYTES : Z := CHUNK - 128.

Definition on_src {A} (m : ST T A) : HM A := λ h,
  match m (h_src h) with Ok (a, s) => Ok (a, set_src s h) | Err e => Err e end.
Definition h_mem (h : luaheap T) : Z → Z := chunk_mem (h_src h).
Definition set_mem (m : Z → Z) (h : luaheap T) : luaheap T := set_src (chunk_write m (h_src h)) h.

(** The word at [a]; a null [bp] is a field of the heap, which the model keeps as a list. *)
Definition put_word (a v : Z) : HM unit := st_modify (λ h, set_mem (store ws (h_mem h) a v) h).
Definition put_link (bp : option Z) (v : Z) : HM unit :=
  match bp with Some a => put_word a v | None => st_ret tt end.
Definition first (l : list Z) : Z := match l with a :: _ => a | [] => 0 end.

Definition addr_of (l : list chunk) : Z := match l with c :: _ => c_addr c | [] => 0 end.

Definition list_of (ci : nat) (l : list (list Z)) : list Z := nth ci l [].

(** ** Giving memory back *)

(** Is the block in the chunk? *)
Definition in_data (c : chunk) (b : Z) : bool := (c_addr c + chdr ws <=? b) && (b <? c_addr c + c_size c).

Definition set_freebytes (v : Z) (c : chunk) : chunk := mkChunk (c_addr c) (c_size c) v (c_lost c).
Definition set_lost (v : Z) (c : chunk) : chunk := mkChunk (c_addr c) (c_size c) (c_freebytes c) v.

Definition put_freebytes (c : chunk) : HM unit := put_word (c_addr c + 2 * ws) (c_freebytes c).

(** The innermost loop of the tally: the chunk a free block is in, if any. *)
Fixpoint tally_in (b w : Z) (l : list chunk) : HM (list chunk) :=
  match l with
  | [] => st_ret []
  | c :: l =>
      if in_data c b then
        let c := set_freebytes (sz ws (c_freebytes c + w)) c in
        put_freebytes c ;;; st_ret (c :: l)
      else let! l := tally_in b w l in st_ret (c :: l)
  end.
Fixpoint tally_list (w : Z) (bs : list Z) (l : list chunk) : HM (list chunk) :=
  match bs with
  | [] => st_ret l
  | b :: bs => let! l := tally_in b w l in tally_list w bs l
  end.
Fixpoint tally (ci : nat) (fl : list (list Z)) (l : list chunk) : HM (list chunk) :=
  match fl with
  | [] => st_ret l
  | bs :: fl => let! l := tally_list (class ci) bs l in tally (S ci) fl l
  end.

Fixpoint clear_tally (l : list chunk) : HM (list chunk) :=
  match l with
  | [] => st_ret []
  | c :: l => let c := set_freebytes 0 c in put_freebytes c ;;; let! l := clear_tally l in st_ret (c :: l)
  end.

(** Take the blocks of [c] off a list. *)
Fixpoint unlink (c : chunk) (bp : option Z) (l : list Z) : HM (list Z) :=
  match l with
  | [] => st_ret []
  | b :: l =>
      if in_data c b then put_link bp (first l) ;;; unlink c bp l
      else let! l := unlink c (Some b) l in st_ret (b :: l)
  end.
Fixpoint unlink_all (c : chunk) (fl : list (list Z)) : HM (list (list Z)) :=
  match fl with
  | [] => st_ret []
  | l :: fl => let! l := unlink c None l in let! fl := unlink_all c fl in st_ret (l :: fl)
  end.

(** The sweep, from the chunk after [cp]. *)
Fixpoint sweep (cur : Z) (cp : option Z) (l : list chunk) : HM (list chunk * Z) :=
  match l with
  | [] => st_ret ([], 0)
  | c :: l =>
      if (c_addr c =? cur) || negb (sz ws (c_freebytes c + c_lost c) =? sz ws (c_size c - chdr ws)) then
        let! (l, freed) := sweep cur (Some (c_addr c)) l in st_ret (c :: l, freed)
      else
        let! h := st_get in
        let! fl := unlink_all c (freelist h) in
        st_modify (set_freelist fl) ;;;
        put_link cp (addr_of l) ;;;
        st_modify (λ h, set_nchunks (sz ws (nchunks h - 1)) (set_mapped (sz ws (mapped h - c_size c)) h)) ;;;
        on_src (chunk_free (c_addr c) (c_size c)) ;;;
        let! (l, freed) := sweep cur cp l in
        st_ret (l, sz ws (freed + c_size c))
  end.

Definition release_freechunks : HM Z :=
  let! h := st_get in
  let cur := if bumpleft h =? 0 then 0 else addr_of (chunks h) in
  let! l := clear_tally (chunks h) in
  let! l := tally 0 (freelist h) l in
  let! (l, freed) := sweep cur None l in
  st_modify (set_chunks l) ;;;
  st_ret freed.

Definition reclaim_locked : HM Z := release_freechunks.

(** The size in the header of the large block at [a]; a block that is not on the list is
    memory of somebody else's. *)
Fixpoint large_size (a : Z) (l : list hole) : option Z :=
  match l with [] => None | (b, s) :: l => if b =? a then Some s else large_size a l end.
Definition get_large (a : Z) : HM Z := λ h,
  match large_size a (larges h) with Some s => Ok (s, h) | None => Err UseAfterFree end.

(** The walk that unlinks a large block. *)
Fixpoint unlink_large (a : Z) (pp : option Z) (l : list hole) : HM (list hole) :=
  match l with
  | [] => st_ret []
  | (b, s) :: l =>
      if b =? a then put_link pp (match l with (n, _) :: _ => n | [] => 0 end) ;;; st_ret l
      else let! l := unlink_large a (Some b) l in st_ret ((b, s) :: l)
  end.

(** Give the large block at [a] back to the source. *)
Definition drop_large (a s : Z) : HM unit :=
  let! h := st_get in
  let! l := unlink_large a None (larges h) in
  st_modify (λ h, set_mapped (sz ws (mapped h - s)) (set_larges l h)) ;;;
  on_src (chunk_free a s).

(** One bucket of the cache emptied; [bs] is what it holds. *)
Fixpoint release_bucket (ci : nat) (bs : list Z) : HM Z :=
  match bs with
  | [] => st_ret 0
  | ptr :: bs =>
      let a := ptr - lhdr ws in
      let! s := get_large a in
      st_modify (λ h, set_cache (<[ci := bs]> (largefree h)) (<[ci := u8 (nth ci (nlargefree h) 0 - 1)]> (nlargefree h))
                        (sz ws (largecached h - s)) h) ;;;
      drop_large a s ;;;
      let! freed := release_bucket ci bs in
      st_ret (sz ws (freed + s))
  end.
Fixpoint release_buckets (n ci : nat) : HM Z :=
  match n with
  | O => st_ret 0
  | S n =>
      let! h := st_get in
      let! f := release_bucket ci (list_of ci (largefree h)) in
      let! fs := release_buckets n (S ci) in
      st_ret (sz ws (f + fs))
  end.
Definition release_largefree : HM Z := release_buckets NLARGECLASS 0.

Definition release_locked : HM Z :=
  let! a := release_largefree in let! b := release_freechunks in st_ret (sz ws (a + b)).

(** ** Small blocks *)

(** while (ci > 0 && classes[ci - 1] > bumpleft) ci--; *)
Fixpoint fit (ci : nat) (left : Z) : nat :=
  match ci with O => O | S ci' => if left <? class ci' then fit ci' left else ci end.

Fixpoint drain_loop (k ci : nat) : HM unit :=
  match k with
  | O => st_fail OutOfFuel
  | S k =>
      let! h := st_get in
      if bumpleft h <? class 0 then st_ret tt else
      match fit ci (bumpleft h) with
      | O => st_ret tt
      | S ci' =>
          let p := bump h in let w := class ci' in
          put_word p (first (list_of ci' (freelist h))) ;;;
          st_modify (λ h, set_bump (p + w) (bumpleft h - w)
                            (set_freelist (<[ci' := p :: list_of ci' (freelist h)]> (freelist h)) h)) ;;;
          drain_loop k (S ci')
      end
  end.

Definition drain_bump : HM unit :=
  let! h := st_get in
  drain_loop (S (Z.to_nat (bumpleft h))) NCLASS ;;;
  let! h := st_get in
  match chunks h with
  | [] => st_ret tt
  | c :: l =>
      let c := set_lost (sz ws (c_lost c + bumpleft h)) c in
      put_word (c_addr c + 3 * ws) (c_lost c) ;;;
      st_modify (set_chunks (c :: l))
  end ;;;
  st_modify (λ h, set_bump (bump h) 0 h).

(** A call of the source, tried again if [release] gave anything back. *)
Definition retry (p : Z) (release : HM Z) (want : Z) : HM Z :=
  if negb (p =? 0) then st_ret p else
  let! freed := release in
  if freed =? 0 then st_ret 0 else on_src (chunk_alloc want).

Definition newchunk (need : Z) : HM bool :=
  let want := if CHUNK_BYTES <? sz ws (need + chdr ws) then roundup ws (sz ws (need + chdr ws)) ALIGN8 else CHUNK_BYTES in
  let! c := on_src (chunk_alloc want) in
  let! c := retry c release_largefree want in
  let! c := retry c release_freechunks want in
  if c =? 0 then st_ret false else
  put_word (c + ws) want ;;;
  put_word (c + 2 * ws) 0 ;;;
  put_word (c + 3 * ws) 0 ;;;
  drain_bump ;;;
  let! h := st_get in
  put_word c (addr_of (chunks h)) ;;;
  st_modify (λ h, set_nchunks (sz ws (nchunks h + 1)) (set_mapped (sz ws (mapped h + want))
                    (set_bump (c + chdr ws) (want - chdr ws) (set_chunks (mkChunk c want 0 0 :: chunks h) h)))) ;;;
  st_ret true.

Definition small_alloc (ci : nat) : HM Z :=
  let want := class ci in
  let! h := st_get in
  match list_of ci (freelist h) with
  | p :: l =>
      st_modify (λ h, set_rounded (sz ws (rounded_bytes h + want)) (set_freelist (<[ci := l]> (freelist h)) h)) ;;;
      st_ret p
  | [] =>
      let! ok := if bumpleft h <? want then newchunk want else st_ret true in
      if negb ok then st_ret 0 else
      let! h := st_get in
      let p := bump h in
      st_modify (λ h, set_rounded (sz ws (rounded_bytes h + want)) (set_bump (p + want) (bumpleft h - want) h)) ;;;
      st_ret p
  end.

Definition small_free (ptr : Z) (ci : nat) : HM unit :=
  let! h := st_get in
  put_word ptr (first (list_of ci (freelist h))) ;;;
  st_modify (λ h, set_rounded (sz ws (rounded_bytes h - class ci))
                    (set_freelist (<[ci := ptr :: list_of ci (freelist h)]> (freelist h)) h)).

(** ** Large blocks *)

Definition large_alloc (n : Z) : HM Z :=
  let want := large_want ws (sz ws (n + lhdr ws)) in
  let ci := largeclassof want in
  let! h := st_get in
  match list_of ci (largefree h), (ci <? NLARGECLASS)%nat with
  | p :: l, true =>
      let! s := get_large (p - lhdr ws) in
      st_modify (λ h, set_asked (sz ws (large_asked h + n)) (set_nlarges (sz ws (nlarges h + 1))
        (set_cache (<[ci := l]> (largefree h)) (<[ci := u8 (nth ci (nlargefree h) 0 - 1)]> (nlargefree h))
           (sz ws (largecached h - s)) h))) ;;;
      st_ret p
  | _, _ =>
      let! l := on_src (chunk_alloc want) in
      let! l := retry l release_largefree want in
      if l =? 0 then st_ret 0 else
      put_word (l + ws) want ;;;
      let! h := st_get in
      put_word l (match larges h with (a, _) :: _ => a | [] => 0 end) ;;;
      st_modify (λ h, set_asked (sz ws (large_asked h + n)) (set_nlarges (sz ws (nlarges h + 1))
        (set_mapped (sz ws (mapped h + want)) (set_larges ((l, want) :: larges h) h)))) ;;;
      st_ret (l + lhdr ws)
  end.

Definition large_free (ptr asked : Z) : HM unit :=
  let a := ptr - lhdr ws in
  let! s := get_large a in
  let ci := largeclassof s in
  st_modify (λ h, let la := large_asked h in set_asked (la - (if asked <? la then asked else la)) h) ;;;
  let! h := st_get in
  if (ci <? NLARGECLASS)%nat && (nth ci (nlargefree h) 0 <? LARGE_CACHED) then
    put_word ptr (first (list_of ci (largefree h))) ;;;
    st_modify (λ h, set_nlarges (sz ws (nlarges h - 1))
      (set_cache (<[ci := ptr :: list_of ci (largefree h)]> (largefree h)) (<[ci := u8 (nth ci (nlargefree h) 0 + 1)]> (nlargefree h))
         (sz ws (largecached h + s)) h))
  else
    drop_large a s ;;;
    st_modify (λ h, set_nlarges (sz ws (nlarges h - 1)) h).

(** ** realloc *)

Definition note_live (v : Z) : HM unit :=
  st_modify (λ h, let l := sz ws (live h + v) in set_live l (if peak h <? l then l else peak h) h).

Definition alloc_any (n : Z) : HM Z :=
  let nc := classof n in if (nc <? NCLASS)%nat then small_alloc nc else large_alloc n.
Definition free_any (ptr n : Z) : HM unit :=
  let oc := classof n in if (oc <? NCLASS)%nat then small_free ptr oc else large_free ptr n.

Definition memcpy (d s n : Z) : HM unit :=
  st_modify (λ h, set_mem (λ x, if (d <=? x) && (x <? d + n) then h_mem h (s + (x - d)) else h_mem h x) h).

Definition realloc_locked (ptr osize nsize : Z) : HM Z :=
  if nsize =? 0 then
    (if ptr =? 0 then st_ret tt
     else free_any ptr osize ;;; st_modify (λ h, set_live (sz ws (live h - osize)) (peak h) h)) ;;;
    st_ret 0
  else if ptr =? 0 then
    let! p := alloc_any nsize in
    if p =? 0 then st_ret 0 else note_live nsize ;;; st_ret p
  else
    let oc := classof osize in
    let nc := classof nsize in
    if (oc =? nc)%nat && (oc <? NCLASS)%nat then note_live (nsize - osize) ;;; st_ret ptr else
    let! stays :=
      if negb (oc <? NCLASS)%nat && negb (nc <? NCLASS)%nat then
        let! s := get_large (ptr - lhdr ws) in
        st_ret (large_want ws (sz ws (nsize + lhdr ws)) =? s)
      else st_ret false in
    if stays : bool then
      st_modify (λ h, set_asked (sz ws (large_asked h + (nsize - osize))) h) ;;;
      note_live (nsize - osize) ;;;
      st_ret ptr
    else
      let! q := alloc_any nsize in
      if q =? 0 then st_ret 0 else
      memcpy q ptr (if osize <? nsize then osize else nsize) ;;;
      free_any ptr osize ;;;
      note_live (nsize - osize) ;;;
      st_ret q.

(** ** The entry points *)

Definition luaheap_new : ST T (option (luaheap T)) :=
  let! p := chunk_alloc HEAPSZ in
  if p =? 0 then st_ret None else
  let! s := st_get in
  let m := λ x, if (p <=? x) && (x <? p + HEAPSZ) then 0 else chunk_mem s x in
  st_ret (Some (mkHeap (chunk_write m s) p [] [] 0 0 (replicate NCLASS []) (replicate NLARGECLASS [])
                  (replicate NLARGECLASS 0) 0 0 0 HEAPSZ 0 0 0 0)).

Fixpoint free_all (l : list hole) : ST T unit :=
  match l with [] => st_ret tt | (a, s) :: l => chunk_free a s ;;; free_all l end.

Definition luaheap_destroy (h : luaheap T) : result T :=
  match (free_all (larges h) ;;; free_all (List.map (λ c, (c_addr c, c_size c)) (chunks h)) ;;;
         chunk_free (h_self h) HEAPSZ) (h_src h) with
  | Ok (_, s) => Ok s
  | Err e => Err e
  end.

Definition luaheap_realloc (ptr osize nsize : Z) : HM Z := realloc_locked ptr osize nsize.
Definition luaheap_reclaim : HM Z := reclaim_locked.
Definition luaheap_release : HM Z := release_locked.

Record luaheap_stats : Type := mkStats {
  st_live : Z; st_peak : Z; st_mapped : Z; st_waste : Z; st_chunks : Z; st_larges : Z;
  st_rounding : Z; st_headers : Z; st_unused : Z; st_cached : Z;
}.

Definition stats_locked (h : luaheap T) : luaheap_stats :=
  let waste := if live h <? mapped h then mapped h - live h else 0 in
  let headers := sz ws (nchunks h * chdr ws + nlarges h * lhdr ws) in
  let small_asked := if large_asked h <? live h then live h - large_asked h else 0 in
  let rounding := if small_asked <? rounded_bytes h then rounded_bytes h - small_asked else 0 in
  let unused := if sz ws (rounding + headers) <? waste then waste - rounding - headers else 0 in
  mkStats (live h) (peak h) (mapped h) waste (nchunks h) (nlarges h) rounding headers unused (largecached h).

End code.
