(* ===== verification/LuaHeapInv.v ===== *)
(** The invariant of the lua heap of luaheap.c, over any chunk source that keeps the laws of
    Chunks.v: the blocks handed out, the free ones and what is left of the bump area tile the
    chunks, every large block is cached or handed out, and the words in memory thread the
    lists.  What keeps it: storing a word, and moving a block from one part to another. *)

From S2P Require Import Prelude Pmm Chunks LuaHeap.
From stdpp Require Import prelude list.
From Stdlib Require Import ZArith Lia.
Open Scope Z_scope.

(** * Sizes *)

Lemma classof_from_spec n l : ∀ i,
  (i <= classof_from i l n <= i + length l)%nat ∧
  (∀ c, l !! (classof_from i l n - i)%nat = Some c → n <= c) ∧
  ((classof_from i l n < i + length l)%nat ∨ Forall (λ c, c < n) l).
Proof.
  induction l as [|c l IH]; intros i; cbn [classof_from length].
  - split_and!; [lia|lia| |by right]. intros c. by rewrite lookup_nil.
  - destruct (n <=? c) eqn:E.
    + apply Z.leb_le in E. split_and!; [lia|lia| |left; lia]. rewrite Nat.sub_diag. by intros ? [= <-].
    + apply Z.leb_gt in E. destruct (IH (S i)) as (H1 & H2 & H3). split_and!; [lia|lia| |].
      * intros d. replace (classof_from (S i) l n - i)%nat with (S (classof_from (S i) l n - S i)) by lia. apply H2.
      * destruct H3 as [H3|H3]; [left; lia|right; by constructor].
Qed.

Lemma classof_le n : (classof n <= NCLASS)%nat.
Proof. apply (classof_from_spec n classes 0). Qed.

Lemma class_range ci : (ci < NCLASS)%nat → 16 <= class ci <= 512 ∧ class ci mod 8 = 0.
Proof. intros H. unfold NCLASS in H. do 14 (destruct ci as [|ci]; [by vm_compute|]). lia. Qed.

Lemma classof_fits n : (classof n < NCLASS)%nat → n <= class (classof n).
Proof.
  intros H. destruct (classof_from_spec n classes 0) as (_ & H2 & _). rewrite Nat.sub_0_r in H2. apply H2.
  fold (classof n). destruct (lookup_lt_is_Some_2 classes (classof n)) as [c Hc]; [exact H|].
  unfold class. by rewrite (nth_lookup_Some _ _ _ _ Hc).
Qed.

Section sizes.
Context (ws : Z) (Hws : wide ws).

Lemma top_big20 : 2 ^ 20 < 2 ^ (8 * ws - 1).
Proof. destruct Hws as [-> | ->]; by vm_compute. Qed.

Lemma roundup_spec n k : 0 <= k → 0 <= n → n + 2 ^ k <= 2 ^ (8 * ws) →
  n <= roundup ws n (2 ^ k) < n + 2 ^ k ∧ roundup ws n (2 ^ k) mod 2 ^ k = 0.
Proof.
  intros Hk Hn Ht. unfold roundup. assert (0 < 2 ^ k) by (apply Z.pow_pos_nonneg; lia).
  unfold sz. rewrite wrap_small by lia. replace (2 ^ k - 1) with (Z.ones k) by (rewrite Z.ones_equiv; lia).
  rewrite Z.ldiff_ones_r, Z.shiftl_mul_pow2, Z.shiftr_div_pow2 by lia.
  rewrite Z.mod_mul by lia. split; [|done]. pose proof (Z.div_mod (n + 2 ^ k - 1) (2 ^ k) ltac:(lia)).
  pose proof (Z.mod_pos_bound (n + 2 ^ k - 1) (2 ^ k) ltac:(lia)). lia.
Qed.

(** What a request rounds to: room for it, and a bucket of its own size or none. *)
Lemma large_want_spec need : 0 < need → need + 512 <= 2 ^ (8 * ws) →
  need <= large_want ws need < need + 512 ∧ large_want ws need mod 8 = 0 ∧
  ((largeclassof (large_want ws need) < NLARGECLASS)%nat →
     large_want ws need = LARGE_GRAIN * (Z.of_nat (largeclassof (large_want ws need)) + 1)).
Proof.
  intros Hn Ht. unfold large_want. change ALIGN8 with (2 ^ 3). change LARGE_GRAIN with (2 ^ 9).
  assert (∀ w, 0 < w → (largeclassof w < NLARGECLASS)%nat → w = 2 ^ 9 * (Z.of_nat (largeclassof w) + 1)) as Hc.
  { intros w Hw. unfold largeclassof. destruct (_ || _ || _) eqn:E; [lia|]. intros _.
    apply orb_false_iff in E as [[E1 E2]%orb_false_iff E3]. apply Z.eqb_neq in E1. apply Z.ltb_ge in E2.
    apply negb_false_iff, Z.eqb_eq, Z.mod_divide in E3 as [k ->]; [|by vm_compute].
    unfold LARGE_GRAIN, LARGE_MAXSIZE in *. rewrite Z.div_mul by lia. lia. }
  destruct (_ <? need) eqn:E.
  - destruct (roundup_spec need 3) as [H1 H2]; [lia..|]. split; [lia|]. split; [exact H2|apply Hc; lia].
  - destruct (roundup_spec need 9) as [H1 H2]; [lia..|]. split; [lia|]. split; [|apply Hc; lia].
    apply Z.mod_divide in H2 as [k ->]; [|lia]. apply Z.mod_divide; [lia|]. exists (64 * k). lia.
Qed.
End sizes.

(** * Lists of lists *)

(** What an array of lists stands for: [g] of each list and its index. *)
Fixpoint tag {A} (g : nat → list Z → list A) (i : nat) (ls : list (list Z)) : list A :=
  match ls with [] => [] | l :: ls => g i l ++ tag g (S i) ls end.

Lemma tag_push {A} (g : nat → list Z → list A) pre i l ls : ∀ k, (i < length ls)%nat →
  g (k + i)%nat l ≡ₚ pre ++ g (k + i)%nat (nth i ls []) → tag g k (<[i := l]> ls) ≡ₚ pre ++ tag g k ls.
Proof.
  revert i. induction ls as [|l0 ls IH]; intros i k Hi E; cbn [length] in Hi; [lia|].
  destruct i as [|i]; cbn [insert list_insert tag nth] in *.
  - rewrite Nat.add_0_r in E. by rewrite E, <-app_assoc.
  - rewrite (IH i (S k)); [|lia|]; [|by replace (S k + i)%nat with (k + S i)%nat by lia].
    by rewrite !app_assoc, (Permutation_app_comm _ pre).
Qed.

Lemma tag_pop {A} (g : nat → list Z → list A) pre i l ls : ∀ k, (i < length ls)%nat →
  g (k + i)%nat (nth i ls []) ≡ₚ pre ++ g (k + i)%nat l → tag g k ls ≡ₚ pre ++ tag g k (<[i := l]> ls).
Proof.
  revert i. induction ls as [|l0 ls IH]; intros i k Hi E; cbn [length] in Hi; [lia|].
  destruct i as [|i]; cbn [insert list_insert tag nth] in *.
  - rewrite Nat.add_0_r in E. by rewrite E, <-app_assoc.
  - rewrite (IH i (S k)); [|lia|]; [|by replace (S k + i)%nat with (k + S i)%nat by lia].
    by rewrite !app_assoc, (Permutation_app_comm _ pre).
Qed.

(** * Tiles *)

Lemma hit_incl x a m b n : b <= a → a + m <= b + n → hit x (a, m) <= hit x (b, n).
Proof.
  intros. unfold hit. cbn [fst snd].
  destruct (Z.leb_spec a x), (Z.ltb_spec x (a + m)), (Z.leb_spec b x), (Z.ltb_spec x (b + n)); cbn; lia.
Qed.

Section tiles.
Context (ws : Z) (Hws : wide ws).
Implicit Types (C : list chunk) (B : list hole).

Definition cblk (c : chunk) : hole := (c_addr c, c_size c).
Definition hblk (c : chunk) : hole := (c_addr c, chdr ws).
Definition dblk (c : chunk) : hole := (c_addr c + chdr ws, c_size c - chdr ws).
Definition within (b : hole) (c : chunk) : Prop := c_addr c + chdr ws <= fst b ∧ fst b + snd b <= c_addr c + c_size c.

(** The bytes of the blocks that start in a chunk. *)
Definition held (c : chunk) B : Z := zsum (λ b, if in_data ws c (fst b) then snd b else 0) B.

(** The blocks [B] are the data of the chunks [C], cut up. *)
Record tiled C B : Prop := mkTiled {
  ti_chunk : ∀ c, c ∈ C → chdr ws <= c_size c;
  ti_apart : ∀ x, cnt (dblk <$> C) x <= 1;
  ti_cnt : ∀ x, cnt B x = cnt (dblk <$> C) x;
  ti_in : ∀ b, b ∈ B → 0 < snd b ∧ ∃ c, c ∈ C ∧ within b c;
  ti_held : ∀ c, c ∈ C → held c B = c_size c - chdr ws;
}.

Lemma zsum_perm {A} (f : A → Z) l l' : l ≡ₚ l' → zsum f l = zsum f l'.
Proof. induction 1; rewrite ?zsum_cons; lia. Qed.

Lemma tiled_perm C B B' : B ≡ₚ B' → tiled C B → tiled C B'.
Proof.
  intros P [T1 T0 T2 T3 T4]. split; [done|done| | |].
  - intros x. by rewrite <-(cnt_perm _ _ _ P).
  - intros b. rewrite <-P. apply T3.
  - intros c Hc. unfold held. rewrite <-(zsum_perm _ _ _ P). by apply T4.
Qed.
#[global] Instance tiled_proper C : Proper ((≡ₚ) ==> iff) (tiled C).
Proof. intros B B' P. split; apply tiled_perm; [done|by symmetry]. Qed.

Lemma held_cons c b B : held c (b :: B) = (if in_data ws c (fst b) then snd b else 0) + held c B.
Proof. apply zsum_cons. Qed.
Lemma held_app c B B' : held c (B ++ B') = held c B + held c B'.
Proof. apply zsum_app. Qed.

Lemma in_data_spec c a : in_data ws c a = true ↔ c_addr c + chdr ws <= a < c_addr c + c_size c.
Proof. unfold in_data. rewrite andb_true_iff, Z.leb_le, Z.ltb_lt. lia. Qed.

Lemma within_hit b c x : within b c → 0 < hit x b → hit x (dblk c) = 1.
Proof.
  intros [W1 W2] Hx. destruct b as [a n]. cbn [fst snd] in *. apply hit_1.
  destruct (decide (a <= x < a + n)); [lia|]. rewrite hit_0 in Hx by done. lia.
Qed.

Lemma cnt_pos_elem B x : 0 < cnt B x → ∃ b, b ∈ B ∧ hit x b = 1.
Proof.
  induction B as [|b B IH]; [unfold cnt, zsum; cbn; lia|]. rewrite cnt_cons. intros Hx. pose proof (hit_range x b).
  destruct (decide (hit x b = 1)); [exists b; split; [left|done]|].
  destruct IH as (b' & ? & ?); [lia|]. exists b'. split; [by right|done].
Qed.

Lemma cnt_elem' b B x : b ∈ B → hit x b <= cnt B x.
Proof.
  induction 1 as [b B|b b' B _ IH]; rewrite cnt_cons; [pose proof (cnt_nonneg B x)|pose proof (hit_range x b')]; lia.
Qed.

(** Two chunks whose data share an address are one. *)
Lemma same_chunk C c c' x : (∀ x, cnt (dblk <$> C) x <= 1) → c ∈ C → c' ∈ C →
  hit x (dblk c) = 1 → hit x (dblk c') = 1 → c = c'.
Proof.
  intros H1 [i Hi]%list_elem_of_lookup [j Hj]%list_elem_of_lookup Hx Hx'.
  destruct (decide (i = j)) as [->|Hij]; [by rewrite Hi in Hj; injection Hj|].
  exfalso. specialize (H1 x).
  assert ((dblk <$> C) !! i = Some (dblk c)) as Ei by by rewrite list_lookup_fmap, Hi.
  assert ((dblk <$> C) !! j = Some (dblk c')) as Ej by by rewrite list_lookup_fmap, Hj.
  rewrite (cnt_perm _ _ x (delete_Permutation _ _ _ Ei)), cnt_cons in H1.
  assert (dblk c' ∈ delete i (dblk <$> C)).
  { destruct (decide (j < i)%nat).
    - apply (list_elem_of_lookup_2 _ j). by rewrite list_lookup_delete_lt.
    - apply (list_elem_of_lookup_2 _ (pred j)). rewrite list_lookup_delete_ge by lia.
      by replace (S (pred j)) with j by lia. }
  pose proof (cnt_elem' _ _ x H). lia.
Qed.

Lemma within_in_data b c : 0 < snd b → within b c → in_data ws c (fst b) = true.
Proof. intros Hb [W1 W2]. apply in_data_spec. lia. Qed.
Lemma dblk_hit c a : in_data ws c a = true ↔ hit a (dblk c) = 1.
Proof.
  rewrite in_data_spec. unfold dblk. split; [intros; apply hit_1; lia|].
  intros Hh. destruct (decide (c_addr c + chdr ws <= a < c_addr c + chdr ws + (c_size c - chdr ws))); [lia|].
  rewrite hit_0 in Hh by done. lia.
Qed.

(** A block is cut in two. *)
Lemma tiled_split C a m n B : 0 < m < n → tiled C ((a, n) :: B) → tiled C ((a, m) :: (a + m, n - m) :: B).
Proof.
  intros Hm [T1 T0 T2 T3 T4]. destruct (T3 (a, n)) as (_ & c & Hc & W); [left|]. split; [done|done| | |].
  - intros x. rewrite <-T2, !cnt_cons, Z.add_assoc, <-hit_join by lia. do 2 f_equal. f_equal. lia.
  - intros b Hb. unfold within in *. cbn [fst snd] in *.
    rewrite !elem_of_cons in Hb. destruct Hb as [->|[->|Hb]]; [..|apply T3; by right]; cbn [fst snd];
      (split; [lia|]); exists c; (split; [done|lia]).
  - intros c' Hc'. rewrite <-(T4 c') by done. rewrite !held_cons. cbn [fst snd].
    assert (in_data ws c a = true ∧ in_data ws c (a + m) = true) as [Ia Im].
    { unfold within in W. cbn [fst snd] in W. rewrite !in_data_spec. unfold chdr in *. destruct Hws as [-> | ->]; lia. }
    destruct (in_data ws c' a) eqn:Ea, (in_data ws c' (a + m)) eqn:Em; try lia;
      (assert (c' = c) as -> by (eapply (same_chunk C); try done; by apply dblk_hit)); congruence.
Qed.

(** A chunk joins, its data one block. *)
Lemma tiled_new C B c : chdr ws < c_size c → (∀ x, cnt (dblk <$> (c :: C)) x <= 1) →
  tiled C B → tiled (c :: C) (dblk c :: B).
Proof.
  intros Hc H1 [T1 T0 T2 T3 T4].
  assert (within (dblk c) c) as Wc by (unfold within, dblk; cbn [fst snd]; lia).
  assert (in_data ws c (fst (dblk c)) = true) as Ec by (apply within_in_data; [cbn [dblk fst snd]; lia|done]).
  assert (∀ c' b, c' ∈ C → within b c' → 0 < snd b → in_data ws c (fst b) = false) as Hout.
  { intros c' b Hc' W Hb. destruct (in_data ws c (fst b)) eqn:E; [|done]. apply dblk_hit in E.
    pose proof (within_in_data b c' Hb W) as E'. apply dblk_hit in E'.
    pose proof (cnt_elem' (dblk c') (dblk <$> C) (fst b)) as Hle.
    specialize (H1 (fst b)). rewrite fmap_cons, cnt_cons in H1.
    specialize (Hle ltac:(apply list_elem_of_fmap; eauto)). lia. }
  split.
  - intros c' [->|?]%elem_of_cons; [lia|by apply T1].
  - done.
  - intros x. rewrite fmap_cons, !cnt_cons. by rewrite T2.
  - intros b [->|Hb]%elem_of_cons.
    + split; [cbn [dblk fst snd]; lia|]. exists c. split; [left|done].
    + destruct (T3 b Hb) as (? & c' & ? & ?). split; [done|]. exists c'. split; [by right|done].
  - intros c' Hc'. rewrite held_cons. apply elem_of_cons in Hc' as [->|Hc'].
    + rewrite Ec. replace (held c B) with 0; [cbn [dblk fst snd]; lia|]. symmetry. unfold held. apply zsum_zero. intros b Hb.
      destruct (T3 b Hb) as (Hb0 & c' & Hc1 & W). by rewrite (Hout c' b).
    + rewrite (T4 c' Hc'). destruct (in_data ws c' (fst (dblk c))) eqn:E; [|lia]. exfalso.
      specialize (H1 (fst (dblk c))). apply dblk_hit in E, Ec. rewrite fmap_cons, cnt_cons in H1.
      pose proof (cnt_elem' (dblk c') (dblk <$> C) (fst (dblk c)) ltac:(apply list_elem_of_fmap; eauto)). lia.
Qed.

(** A chunk leaves with every block in it. *)
Lemma tiled_drop C C' c B B1 B2 : tiled C B → C ≡ₚ c :: C' → B ≡ₚ B1 ++ B2 →
  (∀ b, b ∈ B1 → in_data ws c (fst b) = true) → (∀ b, b ∈ B2 → in_data ws c (fst b) = false) → tiled C' B2.
Proof.
  intros T PC PB H1 H2. rewrite PB in T. destruct T as [T1 T0 T2 T3 T4].
  assert (∀ x, cnt (dblk <$> C) x = hit x (dblk c) + cnt (dblk <$> C') x) as PD.
  { intros x. rewrite <-cnt_cons, <-fmap_cons. apply cnt_perm. by rewrite PC. }
  assert (∀ c', c' ∈ C' → c' ∈ C) as HC' by (intros c' ?; rewrite PC; by right).
  assert (∀ c' x, c' ∈ C' → hit x (dblk c') <= cnt (dblk <$> C') x) as HD.
  { intros c' x ?. apply cnt_elem', list_elem_of_fmap. eauto. }
  assert (∀ b, b ∈ B1 → 0 < snd b ∧ within b c) as HB1.
  { intros b Hb. destruct (T3 b) as (Hb0 & c' & Hc' & W); [apply elem_of_app; by left|]. split; [done|].
    rewrite PC in Hc'. apply elem_of_cons in Hc' as [->|Hc']; [done|]. exfalso.
    pose proof (within_in_data b c' Hb0 W) as E. pose proof (H1 b Hb) as E1. apply dblk_hit in E, E1.
    specialize (T0 (fst b)). rewrite PD in T0. specialize (HD c' (fst b) Hc'). lia. }
  assert (∀ b, b ∈ B2 → 0 < snd b ∧ ∃ c', c' ∈ C' ∧ within b c') as HB2.
  { intros b Hb. destruct (T3 b) as (Hb0 & c' & Hc' & W); [apply elem_of_app; by right|]. split; [done|].
    exists c'. split; [|done]. rewrite PC in Hc'. apply elem_of_cons in Hc' as [->|?]; [|done].
    pose proof (within_in_data b c Hb0 W). specialize (H2 b Hb). congruence. }
  assert (∀ x, 0 < cnt B1 x → hit x (dblk c) = 1) as X1.
  { intros x (b & Hb & Hx)%cnt_pos_elem. apply (within_hit b); [by apply HB1|lia]. }
  assert (∀ x, 0 < cnt B2 x → 0 < cnt (dblk <$> C') x) as X2.
  { intros x (b & Hb & Hx)%cnt_pos_elem. destruct (HB2 b Hb) as (_ & c' & Hc' & W).
    pose proof (within_hit b c' x W ltac:(lia)). specialize (HD c' x Hc'). lia. }
  split; [by intros; apply T1, HC'| | |done|].
  - intros x. specialize (T0 x). rewrite PD in T0. pose proof (hit_range x (dblk c)). lia.
  - intros x. specialize (T0 x). specialize (T2 x). rewrite PD in T0, T2. rewrite cnt_app in T2.
    specialize (X1 x). specialize (X2 x). pose proof (cnt_nonneg B1 x). pose proof (cnt_nonneg B2 x).
    pose proof (cnt_nonneg (dblk <$> C') x). pose proof (hit_range x (dblk c)). lia.
  - intros c' Hc'. rewrite <-(T4 c') by auto. rewrite held_app. replace (held c' B1) with 0; [lia|].
    symmetry. apply zsum_zero. intros b Hb. destruct (in_data ws c' (fst b)) eqn:E; [|done]. exfalso.
    apply dblk_hit in E. pose proof (H1 b Hb) as E1. apply dblk_hit in E1.
    specialize (T0 (fst b)). rewrite PD in T0. specialize (HD c' (fst b) Hc'). lia.
Qed.
End tiles.
Arguments ti_chunk {ws C B} _.
Arguments ti_apart {ws C B} _.
Arguments ti_cnt {ws C B} _.
Arguments ti_in {ws C B} _.
Arguments ti_held {ws C B} _.

(** * Words in memory *)

Section words.
Context (ws : Z) (Hws : wide ws).
Implicit Types (W : list (Z * Z)).

Definition wblk (w : Z * Z) : hole := (fst w, ws).
Definition says (m : Z → Z) W : Prop := ∀ a v, (a, v) ∈ W → load ws m a = v.

(** The words that thread a list of blocks, the chunks and the large blocks. *)
Fixpoint links (l : list Z) : list (Z * Z) :=
  match l with [] => [] | a :: l => (a, first l) :: links l end.
Fixpoint cwords (l : list chunk) : list (Z * Z) :=
  match l with
  | [] => []
  | c :: l => (c_addr c, addr_of l) :: (c_addr c + ws, c_size c) :: (c_addr c + 2 * ws, c_freebytes c) ::
              (c_addr c + 3 * ws, c_lost c) :: cwords l
  end.
Definition next_large (l : list hole) : Z := match l with (a, _) :: _ => a | [] => 0 end.
Fixpoint lwords (l : list hole) : list (Z * Z) :=
  match l with [] => [] | (a, s) :: l => (a, next_large l) :: (a + ws, s) :: lwords l end.

Lemma says_sub m W W' : (∀ w, w ∈ W' → w ∈ W) → says m W → says m W'.
Proof. intros HW Hs a v Ha. apply Hs, HW, Ha. Qed.
Lemma says_perm m W W' : W ≡ₚ W' → says m W → says m W'.
Proof. intros P. apply says_sub. intros w. by rewrite P. Qed.
#[global] Instance says_proper m : Proper ((≡ₚ) ==> iff) (says m).
Proof. intros W W' P. split; apply says_perm; [done|by symmetry]. Qed.

Lemma says_ext m m' W : (∀ x, 0 < cnt (wblk <$> W) x → m' x = m x) → says m W → says m' W.
Proof.
  intros Hm Hs a v Ha. rewrite <-(Hs a v Ha). apply (load_ext ws Hws). intros x Hx. apply Hm.
  apply (cnt_elem a ws); [|done]. apply list_elem_of_fmap. by exists (a, v).
Qed.

(** Storing a word that lies apart from the others. *)
Lemma says_store m W a v : (∀ x, cnt (wblk <$> (a, v) :: W) x <= 1) → 0 <= v < 2 ^ (8 * ws) →
  says m W → says (store ws m a v) ((a, v) :: W).
Proof.
  intros H1 Hv Hs a' v' [[= -> ->]|Ha]%elem_of_cons; [by apply load_store|].
  rewrite <-(Hs a' v' Ha). apply (load_ext ws Hws). intros x Hx. apply store_out. intros Hx'.
  specialize (H1 x). rewrite fmap_cons, cnt_cons in H1. unfold wblk at 1 in H1. cbn [fst] in H1.
  rewrite hit_1 in H1 by lia. pose proof (cnt_elem a' ws (wblk <$> W) x) as Hc. 
  specialize (Hc ltac:(apply list_elem_of_fmap; by exists (a', v')) ltac:(lia)). lia.
Qed.

Lemma cwords_cnt C x : cnt (wblk <$> cwords C) x = cnt (hblk ws <$> C) x.
Proof.
  induction C as [|c C IH]; [done|]. cbn [cwords]. rewrite !fmap_cons, !cnt_cons, IH. unfold wblk, hblk, chdr. cbn [fst].
  replace (4 * ws) with (ws + (ws + (ws + ws))) by lia. assert (0 <= ws) by (destruct Hws; lia).
  rewrite !hit_join by lia. replace (c_addr c + 2 * ws) with (c_addr c + ws + ws) by lia.
  replace (c_addr c + 3 * ws) with (c_addr c + ws + ws + ws) by lia. lia.
Qed.

Definition lh (b : hole) : hole := (fst b, lhdr ws).
Lemma lwords_cnt l x : cnt (wblk <$> lwords l) x = cnt (lh <$> l) x.
Proof.
  induction l as [|[a s] l IH]; [done|]. cbn [lwords]. rewrite !fmap_cons, !cnt_cons, IH. unfold wblk, lh, lhdr. cbn [fst].
  replace (2 * ws) with (ws + ws) by lia. rewrite hit_join by (destruct Hws; lia). lia.
Qed.

(** The free lists and the cache of large blocks. *)
Definition free_g (ci : nat) (l : list Z) : list hole := (λ a, (a, class ci)) <$> l.
Definition cache_g (ci : nat) (l : list Z) : list hole := (λ a, (a - lhdr ws, LARGE_GRAIN * (Z.of_nat ci + 1))) <$> l.
Definition link_g (ci : nat) (l : list Z) : list (Z * Z) := links l.

Lemma links_free_cnt ls x : ∀ k, (k + length ls <= NCLASS)%nat → cnt (wblk <$> tag link_g k ls) x <= cnt (tag free_g k ls) x.
Proof.
  induction ls as [|l ls IH]; intros k Hk; [done|]. cbn [tag length] in *. rewrite fmap_app, !cnt_app.
  specialize (IH (S k) ltac:(lia)). enough (cnt (wblk <$> link_g k l) x <= cnt (free_g k l) x) by lia.
  destruct (class_range k ltac:(lia)) as [? _]. clear -H Hws.
  induction l as [|a l IH]; [done|]. unfold link_g, free_g in *. cbn [links]. rewrite !fmap_cons, !cnt_cons.
  enough (hit x (wblk (a, first l)) <= hit x (a, class k)) by lia. apply hit_incl; cbn [fst]; destruct Hws; lia.
Qed.

(** A cached block holds its header and the word that threads the cache. *)
Lemma links_cache_cnt ls x : ∀ k,
  cnt (wblk <$> tag link_g k ls) x + cnt (lh <$> tag cache_g k ls) x <= cnt (tag cache_g k ls) x.
Proof.
  induction ls as [|l ls IH]; intros k; [done|]. cbn [tag]. rewrite !fmap_app, !cnt_app.
  specialize (IH (S k)).
  enough (cnt (wblk <$> link_g k l) x + cnt (lh <$> cache_g k l) x <= cnt (cache_g k l) x) by lia. clear -Hws.
  induction l as [|a l IH]; [done|]. unfold link_g, cache_g in *. cbn [links]. rewrite !fmap_cons, !cnt_cons.
  enough (hit x (a, ws) + hit x (a - lhdr ws, lhdr ws) <= hit x (a - lhdr ws, LARGE_GRAIN * (Z.of_nat k + 1)))
    by (unfold wblk at 1, lh at 1; cbn [fst]; lia).
  unfold lhdr, LARGE_GRAIN. pose proof (hit_join x (a - 2 * ws) (2 * ws) ws) as E.
  replace (a - 2 * ws + 2 * ws) with a in E by lia.
  pose proof (hit_incl x (a - 2 * ws) (2 * ws + ws) (a - 2 * ws) (512 * (Z.of_nat k + 1))). destruct Hws; lia.
Qed.
End words.

(** * The invariant *)

Section inv.
Context {T : Type} `{ChunkOps T} (ws LARGE_CACHED HEAPSZ : Z).
Implicit Types (h : luaheap T) (L R : list hole).

Definition small (b : hole) : bool := (classof (snd b) <? NCLASS)%nat.
(** The memory behind the blocks handed out: small ones, large ones with their header. *)
Definition Sblk L : list hole := flat_map (λ b, if small b then [(fst b, class (classof (snd b)))] else []) L.
Definition Bblk L : list hole :=
  flat_map (λ b, if small b then [] else [(fst b - lhdr ws, large_want ws (snd b + lhdr ws))]) L.

Definition free_of h : list hole := tag free_g 0 (freelist h).
Definition cached_of h : list hole := tag (cache_g ws) 0 (largefree h).
Definition bumps h : list hole := if 0 <? bumpleft h then [(bump h, bumpleft h)] else [].
Definition losts (C : list chunk) : list hole :=
  flat_map (λ c, if 0 <? c_lost c then [(c_addr c + c_size c - c_lost c, c_lost c)] else []) C.
Definition parts h L : list hole := bumps h ++ losts (chunks h) ++ Sblk L ++ free_of h.

(** What the heap holds of the source. *)
Definition own h : list hole := (h_self h, HEAPSZ) :: (cblk <$> chunks h) ++ larges h.

Definition words h : list (Z * Z) :=
  cwords ws (chunks h) ++ lwords ws (larges h) ++ tag link_g 0 (freelist h) ++ tag link_g 0 (largefree h).

(** [L] are the blocks handed out, [R] the blocks of the source that are somebody else's. *)
Record heap_inv R h L : Prop := mkHeapInv {
  hi_own : chunk_own (h_src h) (own h ++ R);
  hi_tiled : tiled ws (chunks h) (parts h L);
  hi_lost : ∀ c, c ∈ chunks h → 0 <= c_lost c;
  hi_bump : 0 <= bumpleft h ∧ (0 < bumpleft h → bump h mod 8 = 0 ∧ bumpleft h mod 8 = 0 ∧
              ∃ c l, chunks h = c :: l ∧ c_lost c = 0 ∧ bump h + bumpleft h = c_addr c + c_size c);
  hi_larges : larges h ≡ₚ cached_of h ++ Bblk L;
  hi_words : says ws (h_mem h) (words h);
  hi_free : length (freelist h) = NCLASS;
  hi_cache : length (largefree h) = NLARGECLASS ∧ nlargefree h = (Z.of_nat ∘ length) <$> largefree h ∧
             Forall (λ l, Z.of_nat (length l) <= LARGE_CACHED) (largefree h);
  hi_align : ∀ b, b ∈ free_of h ++ L → fst b mod 8 = 0;
  hi_live : ∀ b, b ∈ L → 0 < snd b < 2 ^ (8 * ws - 1);
  hi_mapped : mapped h = sz ws (bytes_in (own h));
}.

(** Bytes that must not change. *)
Definition hkeep (B : list hole) h h' : Prop := ∀ x, 0 < cnt B x → h_mem h' x = h_mem h x.

End inv.
Arguments hi_own {T _ ws LARGE_CACHED HEAPSZ R h L} _.
Arguments hi_tiled {T _ ws LARGE_CACHED HEAPSZ R h L} _.
Arguments hi_lost {T _ ws LARGE_CACHED HEAPSZ R h L} _.
Arguments hi_bump {T _ ws LARGE_CACHED HEAPSZ R h L} _.
Arguments hi_larges {T _ ws LARGE_CACHED HEAPSZ R h L} _.
Arguments hi_words {T _ ws LARGE_CACHED HEAPSZ R h L} _.
Arguments hi_free {T _ ws LARGE_CACHED HEAPSZ R h L} _.
Arguments hi_cache {T _ ws LARGE_CACHED HEAPSZ R h L} _.
Arguments hi_align {T _ ws LARGE_CACHED HEAPSZ R h L} _.
Arguments hi_live {T _ ws LARGE_CACHED HEAPSZ R h L} _.
Arguments hi_mapped {T _ ws LARGE_CACHED HEAPSZ R h L} _.

Section facts.
Context {T : Type} `{ChunkOps T} {ws : Z} `{!ChunkLaws ws T} {LARGE_CACHED HEAPSZ : Z} (Hws : wide ws).
Implicit Types (h : luaheap T) (L R : list hole).
#[local] Abbreviation own := (own HEAPSZ).
#[local] Abbreviation cached_of := (cached_of ws).
#[local] Abbreviation Bblk := (Bblk ws).
#[local] Abbreviation words := (words ws).
#[local] Abbreviation heap_inv := (heap_inv ws LARGE_CACHED HEAPSZ).

Lemma hkeep_trans B h1 h2 h3 : hkeep B h1 h2 → hkeep B h2 h3 → hkeep B h1 h3.
Proof. intros H1 H2 x Hx. by rewrite H2, H1. Qed.
Lemma hkeep_refl B h : hkeep B h h.
Proof. done. Qed.

Lemma chunk_split C x : (∀ c, c ∈ C → chdr ws <= c_size c) →
  cnt (cblk <$> C) x = cnt (hblk ws <$> C) x + cnt (dblk ws <$> C) x.
Proof.
  induction C as [|c C IH]; intros HC; [done|]. rewrite !fmap_cons, !cnt_cons, IH by (intros; apply HC; by right).
  specialize (HC c ltac:(left)). unfold cblk, hblk, dblk.
  replace (c_size c) with (chdr ws + (c_size c - chdr ws)) at 1 by lia.
  rewrite hit_join by (unfold chdr in *; destruct Hws; lia). lia.
Qed.

(** A block handed out lies in the memory behind it, clear of a large one's header. *)
Lemma payload_cover L x : (∀ b, b ∈ L → 0 < snd b < 2 ^ (8 * ws - 1)) →
  cnt L x + cnt (lh ws <$> Bblk L) x <= cnt (Sblk L) x + cnt (Bblk L) x.
Proof.
  induction L as [|[p n] L IH]; intros HL; [done|].
  specialize (IH ltac:(intros; apply HL; by right)). specialize (HL (p, n) ltac:(left)).
  unfold Sblk, Bblk in *. cbn [flat_map snd fst] in *. rewrite !fmap_app, !cnt_app, cnt_cons.
  destruct (small (p, n)) eqn:E; unfold small in E; cbn [snd] in E.
  - apply Nat.ltb_lt, classof_fits in E. rewrite !cnt_cons.
    pose proof (hit_incl x p n p (class (classof n))). cbn [fmap list_fmap] in *. unfold cnt, zsum in *. cbn in *. lia.
  - destruct (large_want_spec ws (n + lhdr ws)) as (H1 & _ & _).
    { unfold lhdr. destruct Hws; lia. }
    { unfold lhdr. destruct Hws as [-> | ->]; cbn in *; lia. }
    rewrite !fmap_cons, !cnt_cons. unfold lh at 1. cbn [fst].
    pose proof (hit_join x (p - lhdr ws) (lhdr ws) n) as Ej.
    pose proof (hit_incl x (p - lhdr ws) (lhdr ws + n) (p - lhdr ws) (large_want ws (n + lhdr ws))).
    replace (p - lhdr ws + lhdr ws) with p in Ej by lia.
    assert (0 <= lhdr ws) by (unfold lhdr; destruct Hws; lia).
    cbn [fmap list_fmap] in *. unfold cnt, zsum in *. cbn [foldr] in *. lia.
Qed.

(** What each byte belongs to. *)
Lemma inv_apart R h L x : heap_inv R h L →
  cnt (hblk ws <$> chunks h) x + cnt (bumps h) x + cnt (losts (chunks h)) x + cnt (Sblk L) x + cnt (free_of h) x +
  cnt (cached_of h) x + cnt (Bblk L) x + hit x (h_self h, HEAPSZ) + cnt R x <= 1 ∧
  cnt (own h) x = cnt (hblk ws <$> chunks h) x + cnt (bumps h) x + cnt (losts (chunks h)) x + cnt (Sblk L) x +
    cnt (free_of h) x + cnt (cached_of h) x + cnt (Bblk L) x + hit x (h_self h, HEAPSZ).
Proof.
  intros I. pose proof (chunk_own_apart _ _ x (hi_own I)) as H1. rewrite cnt_app in H1.
  assert (cnt (own h) x = cnt (hblk ws <$> chunks h) x + cnt (bumps h) x + cnt (losts (chunks h)) x + cnt (Sblk L) x +
    cnt (free_of h) x + cnt (cached_of h) x + cnt (Bblk L) x + hit x (h_self h, HEAPSZ)) as E; [|lia].
  unfold own. rewrite cnt_cons, cnt_app, (cnt_perm _ _ x (hi_larges I)), cnt_app.
  rewrite chunk_split by apply (ti_chunk (hi_tiled I)).
  rewrite <-(ti_cnt (hi_tiled I)). unfold parts. rewrite !cnt_app. lia.
Qed.

Lemma inv_words R h L x : heap_inv R h L →
  cnt (wblk ws <$> words h) x <=
  cnt (hblk ws <$> chunks h) x + cnt (free_of h) x + cnt (cached_of h) x + cnt (lh ws <$> Bblk L) x.
Proof.
  intros I. unfold words. rewrite !fmap_app, !cnt_app, cwords_cnt, lwords_cnt by done.
  rewrite (cnt_perm (lh ws <$> larges h) (lh ws <$> (cached_of h ++ Bblk L)) x) by (by rewrite (hi_larges I)).
  rewrite fmap_app, cnt_app.
  pose proof (links_free_cnt ws Hws (freelist h) x 0 ltac:(rewrite (hi_free I); lia)).
  pose proof (links_cache_cnt ws Hws (largefree h) x 0). fold (free_of h) in *. fold (cached_of h) in *. lia.
Qed.

(** All of it about one byte, for lia: [a] heads and [w] words, the parts of the chunks, the
    large blocks, what is handed out, what is others'. *)
Lemma regions R h L x : heap_inv R h L → ∃ a k b,
  cnt (own h) x = a + cnt (bumps h) x + cnt (losts (chunks h)) x + cnt (Sblk L) x + cnt (free_of h) x +
    cnt (cached_of h) x + cnt (Bblk L) x + k ∧
  cnt (own h) x + cnt R x <= 1 ∧ 0 <= k ∧
  cnt (wblk ws <$> words h) x <= a + cnt (free_of h) x + cnt (cached_of h) x + b ∧
  cnt L x + b <= cnt (Sblk L) x + cnt (Bblk L) x ∧ b <= cnt (Bblk L) x ∧
  0 <= a ∧ 0 <= b ∧ 0 <= cnt (bumps h) x ∧ 0 <= cnt (losts (chunks h)) x ∧ 0 <= cnt (Sblk L) x ∧
  0 <= cnt (free_of h) x ∧ 0 <= cnt (cached_of h) x ∧ 0 <= cnt (Bblk L) x ∧ 0 <= cnt R x ∧
  0 <= cnt (wblk ws <$> words h) x ∧ 0 <= cnt L x.
Proof.
  intros I. exists (cnt (hblk ws <$> chunks h) x), (hit x (h_self h, HEAPSZ)), (cnt (lh ws <$> Bblk L) x).
  pose proof (inv_words R h L x I). destruct (inv_apart R h L x I) as [? E].
  pose proof (payload_cover L x (hi_live I)). pose proof (hit_range x (h_self h, HEAPSZ)).
  assert (cnt (lh ws <$> Bblk L) x <= cnt (Bblk L) x).
  { pose proof (hi_live I) as HL. clear -HL Hws. induction L as [|[p n] L IH]; [done|].
    specialize (IH ltac:(intros; apply HL; by right)). specialize (HL (p, n) ltac:(left)).
    unfold Bblk in *. cbn [flat_map snd fst] in *. rewrite !fmap_app, !cnt_app.
    destruct (small (p, n)) eqn:E; [cbn [fmap list_fmap]; change (cnt [] x) with 0; lia|].
    destruct (large_want_spec ws (n + lhdr ws)) as (H1 & _ & _);
      [unfold lhdr; destruct Hws as [-> | ->]; cbn in *; lia..|].
    cbn [snd] in HL. pose proof (hit_incl x (p - lhdr ws) (lhdr ws) (p - lhdr ws) (large_want ws (n + lhdr ws))).
    rewrite !fmap_cons, !cnt_cons. unfold lh at 1. cbn [fst]. change (cnt (lh ws <$> []) x) with 0. change (cnt [] x) with 0. lia. }
  split_and!; try apply cnt_nonneg; lia.
Qed.

Lemma words_owned R h L x : heap_inv R h L → 0 < cnt (wblk ws <$> words h) x → 0 < cnt (own h) x.
Proof. intros I Hx. destruct (regions R h L x I) as (a & k & b & ?). lia. Qed.

(** The source moved on, and kept what the heap holds. *)
Lemma inv_src R R' h L s : heap_inv R h L → chunk_own s (own h ++ R') →
  (∀ x, 0 < cnt (own h) x → chunk_mem s x = h_mem h x) → heap_inv R' (set_src s h) L.
Proof.
  intros I Ho Hk. split; try apply I; [done|].
  apply (says_ext ws Hws (h_mem h)); [|apply I]. intros x Hx. apply Hk. by apply (words_owned R h L x).
Qed.

(** Storing a word. *)
Lemma put_word_ok h O W a v : chunk_own (h_src h) O → (∀ x, a <= x < a + ws → 0 < cnt O x) →
  (∀ x, cnt (wblk ws <$> (a, v) :: W) x <= 1) → 0 <= v < 2 ^ (8 * ws) → says ws (h_mem h) W →
  ∃ s, put_word ws a v h = Ok (tt, set_src s h) ∧ chunk_own s O ∧ says ws (chunk_mem s) ((a, v) :: W) ∧
    ∀ x, ¬ (a <= x < a + ws) → chunk_mem s x = h_mem h x.
Proof.
  intros Ho Ha H1 Hv Hs. destruct (chunk_write_ok (h_src h) O (store ws (h_mem h) a v) Ho) as [Ho' Em].
  { intros x Hx. apply store_out. intros Hx'. specialize (Ha x Hx'). lia. }
  exists (chunk_write (store ws (h_mem h) a v) (h_src h)). split; [done|]. split; [done|]. rewrite Em.
  split; [by apply says_store|]. intros x Hx. by apply store_out.
Qed.
End facts.
