(* ===== verification/LuaHeapOk.v ===== *)
(** The operations of the lua heap keep its invariant (LuaHeapInv.v): blocks are handed out of
    free memory, taken back, and moved, and no byte of another block changes. *)

From S2P Require Import Prelude Pmm Chunks LuaHeap LuaHeapInv.
From stdpp Require Import prelude list.
From Stdlib Require Import ZArith Lia.
Open Scope Z_scope.

Ltac hrun := cbn [st_bind st_get st_ret st_modify st_fail].

Lemma elem_of_tag {A} (g : nat → list Z → list A) x ls : ∀ k i,
  (i < length ls)%nat → x ∈ g (k + i)%nat (nth i ls []) → x ∈ tag g k ls.
Proof.
  induction ls as [|l ls IH]; intros k i Hi Hx; cbn [length] in Hi; [lia|]. cbn [tag]. apply elem_of_app.
  destruct i as [|i]; cbn [nth] in Hx; [left; by rewrite Nat.add_0_r in Hx|right].
  apply (IH (S k) i); [lia|]. by replace (S k + i)%nat with (k + S i)%nat by lia.
Qed.

Section ops.
Context {T : Type} `{ChunkOps T} {ws : Z} `{!ChunkLaws ws T} {LARGE_CACHED HEAPSZ : Z} (Hws : wide ws).
Implicit Types (h : luaheap T) (L R : list hole).
#[local] Abbreviation own := (own HEAPSZ).
#[local] Abbreviation cached_of := (cached_of ws).
#[local] Abbreviation Bblk := (Bblk ws).
#[local] Abbreviation words := (words ws).
#[local] Abbreviation heap_inv := (heap_inv ws LARGE_CACHED HEAPSZ).

(** What no operation below changes: the bytes of [B], the count of live bytes, the heap's
    own block. *)
Definition hframe (B : list hole) h h' : Prop :=
  hkeep B h h' ∧ live h' = live h ∧ peak h' = peak h ∧ h_self h' = h_self h.

Lemma hframe_refl B h : hframe B h h.
Proof. done. Qed.
Lemma hframe_trans B h1 h2 h3 : hframe B h1 h2 → hframe B h2 h3 → hframe B h1 h3.
Proof.
  intros (K1 & L1 & P1 & S1) (K2 & L2 & P2 & S2). split_and!; [by eapply hkeep_trans|congruence..].
Qed.

(** ** Where blocks are *)

Lemma own_range R h L b : heap_inv R h L → b ∈ own h → 0 < fst b ∧ fst b mod 8 = 0 ∧ 0 <= snd b ∧ fst b + snd b < 2 ^ (8 * ws).
Proof.
  intros I Hb. destruct b as [p n]. apply (chunk_own_range (h_src h) (own h ++ R)); [apply I|].
  apply elem_of_app. by left.
Qed.

Lemma chunk_range R h L c : heap_inv R h L → c ∈ chunks h →
  0 < c_addr c ∧ c_addr c mod 8 = 0 ∧ c_addr c + c_size c < 2 ^ (8 * ws).
Proof.
  intros I Hc. destruct (own_range R h L (cblk c) I) as (? & ? & ? & ?).
  { right. apply elem_of_app. left. apply list_elem_of_fmap. eauto. }
  done.
Qed.

Lemma chdr_pos : 0 < chdr ws <= 32 ∧ 4 * ws = chdr ws.
Proof. unfold chdr. destruct Hws; lia. Qed.

Lemma part_range R h L b : heap_inv R h L → b ∈ parts h L → 0 < snd b ∧ chdr ws < fst b ∧ fst b + snd b < 2 ^ (8 * ws).
Proof.
  intros I Hb. destruct (ti_in (hi_tiled I) b Hb) as (H0 & c & Hc & W1 & W2).
  destruct (chunk_range R h L c I Hc) as (? & ? & ?). lia.
Qed.

Lemma free_range R h L ci a : heap_inv R h L → (ci < NCLASS)%nat → a ∈ list_of ci (freelist h) →
  (a, class ci) ∈ free_of h ∧ 0 < a < 2 ^ (8 * ws) ∧ a mod 8 = 0.
Proof.
  intros I Hci Ha. assert ((a, class ci) ∈ free_of h) as Hf.
  { apply (elem_of_tag free_g _ _ 0 ci); [by rewrite (hi_free I)|]. apply list_elem_of_fmap. by exists a. }
  split; [done|]. destruct (part_range R h L (a, class ci) I) as (? & ? & ?).
  { unfold parts. rewrite !elem_of_app. by do 3 right. }
  cbn [fst snd] in *. pose proof chdr_pos. split; [lia|].
  apply (hi_align I (a, class ci)), elem_of_app. by left.
Qed.

Lemma first_range R h L ci : heap_inv R h L → (ci < NCLASS)%nat → 0 <= first (list_of ci (freelist h)) < 2 ^ (8 * ws).
Proof.
  intros I Hci. destruct (list_of ci (freelist h)) as [|a l] eqn:E; [cbn; destruct Hws as [-> | ->]; lia|].
  destruct (free_range R h L ci a I Hci) as (_ & ? & _); [rewrite E; left|]. cbn. lia.
Qed.

Lemma Sblk_small p n L : (classof n < NCLASS)%nat →
  Sblk ((p, n) :: L) = (p, class (classof n)) :: Sblk L ∧ Bblk ((p, n) :: L) = Bblk L.
Proof. intros Hn%Nat.ltb_lt. unfold Sblk, LuaHeapInv.Bblk, small. cbn [flat_map snd fst]. by rewrite Hn. Qed.
Lemma Sblk_large p n L : classof n = NCLASS →
  Sblk ((p, n) :: L) = Sblk L ∧ Bblk ((p, n) :: L) = (p - lhdr ws, large_want ws (n + lhdr ws)) :: Bblk L.
Proof. intros Hn. unfold Sblk, LuaHeapInv.Bblk, small. cbn [flat_map snd fst]. by rewrite Hn. Qed.
End ops.
