(* ===== verification/Modp.v ===== *)
(** The integers modulo p: congruence as the equality of a commutative ring, and of a field
    where p is a prime.  That p is a prime is used in one form only, Fermat's: a number that p
    does not divide has its (p - 2)-th power for inverse. *)

From S2P Require Import Prelude.
From stdpp Require Import prelude.
From Stdlib Require Import ZArith Lia Ring Setoid Morphisms.
Open Scope Z_scope.

(** * Congruence *)

Definition eqp (p x y : Z) : Prop := (p | x - y).

Lemma eqp_mod p x y : p ≠ 0 → eqp p x y ↔ x mod p = y mod p.
Proof.
  intros Hp. split; intros H.
  - destruct H as [k Hk]. rewrite <-(Z.mod_add y k) by done. f_equal. lia.
  - apply Z.mod_divide; [done|]. by rewrite Zminus_mod, H, Z.sub_diag.
Qed.
Lemma mod_eqp p x : p ≠ 0 → eqp p (x mod p) x.
Proof. intros Hp. apply eqp_mod; [done|]. by rewrite Z.mod_mod. Qed.
Definition fermat (p : Z) : Prop := 2 < p ∧ ∀ v, ¬ eqp p v 0 → eqp p (v * v ^ (p - 2)) 1.

Section congruence.
Context (p : Z).
#[local] Infix "≡" := (eqp p) (at level 70).

#[global] Instance eqp_equiv : Equivalence (eqp p).
Proof.
  split.
  - intros x. exists 0. lia.
  - intros x y [q E]. exists (- q). lia.
  - intros x y z [q E] [r F]. exists (q + r). lia.
Qed.
#[global] Instance eqp_add : Proper (eqp p ==> eqp p ==> eqp p) Z.add.
Proof. intros x x' [q E] y y' [r F]. exists (q + r). lia. Qed.
#[global] Instance eqp_sub : Proper (eqp p ==> eqp p ==> eqp p) Z.sub.
Proof. intros x x' [q E] y y' [r F]. exists (q - r). lia. Qed.
#[global] Instance eqp_opp : Proper (eqp p ==> eqp p) Z.opp.
Proof. intros x x' [q E]. exists (- q). lia. Qed.
#[global] Instance eqp_mul : Proper (eqp p ==> eqp p ==> eqp p) Z.mul.
Proof. intros x x' [q E] y y' [r F]. exists (x * r + q * y'). lia. Qed.

Lemma eqp_ring : ring_theory 0 1 Z.add Z.mul Z.sub Z.opp (eqp p).
Proof. split; intros; match goal with |- eqp _ ?a ?b => replace a with b by ring; reflexivity end. Qed.
Lemma eqp_ext : ring_eq_ext Z.add Z.mul Z.opp (eqp p).
Proof. split; apply _. Qed.
End congruence.

Section field.
Context (p : Z) (Hp : fermat p).
#[local] Infix "≡" := (eqp p) (at level 70).
#[local] Notation "x ≢ y" := (¬ eqp p x y) (at level 70).
Add Ring eqp_ring_p : (eqp_ring p) (setoid (eqp_equiv p) (eqp_ext p)).

(** * A field *)

Lemma eqp_dec x y : {x ≡ y} + {x ≢ y}.
Proof.
  assert (p ≠ 0) by (destruct Hp; lia).
  destruct (Z.eq_dec ((x - y) mod p) 0) as [E|E]; [left|right]; unfold eqp; by rewrite <-Z.mod_divide.
Qed.
Lemma eqp_inverse x : x ≢ 0 → ∃ w, w * x ≡ 1.
Proof. intros H. exists (x ^ (p - 2)). rewrite Z.mul_comm. by apply Hp. Qed.
Lemma eqp_cancel x y z : x ≢ 0 → x * y ≡ x * z → y ≡ z.
Proof.
  intros H E. destruct (eqp_inverse x H) as [w Hw]. transitivity (w * x * y); [rewrite Hw; ring|].
  transitivity (w * (x * y)); [ring|]. rewrite E. transitivity (w * x * z); [ring|]. rewrite Hw. ring.
Qed.
Lemma nz_mul x y : x ≢ 0 → y ≢ 0 → x * y ≢ 0.
Proof. intros Hx Hy E. apply Hy, (eqp_cancel x); [done|]. rewrite E. ring. Qed.
Lemma eqp_pow x y k : x ≡ y → x ^ k ≡ y ^ k.
Proof.
  intros E. destruct (Z.neg_nonneg_cases k) as [Hk|Hk]; [by rewrite !Z.pow_neg_r|]. revert k Hk. apply natlike_ind; [done|].
  intros k Hk IH. rewrite !Z.pow_succ_r by done. by rewrite IH, E.
Qed.
Lemma two_nz : 1 + 1 ≢ 0.
Proof. destruct Hp as [H _]. intros [q E]. assert (q <= 0 ∨ 1 <= q) as [?|?] by lia; nia. Qed.
Lemma eqp_sub_0 x y : x - y ≡ 0 ↔ x ≡ y.
Proof. split; intros H; [transitivity (x - y + y); [ring|]; rewrite H; ring|rewrite H; ring]. Qed.
End field.
