(* ===== verification/Group.v ===== *)
(** Commutative groups and the multiples of their elements: what the points of a curve
    promise to the code that multiplies them by scalars. *)

From S2P Require Import Prelude.
From stdpp Require Import prelude.
From Stdlib Require Import ZArith Lia.
Open Scope Z_scope.

Class AbGroup (G : Type) : Type := {
  g_zero : G;
  g_add : G → G → G;
  g_assoc x y z : g_add x (g_add y z) = g_add (g_add x y) z;
  g_comm x y : g_add x y = g_add y x;
  g_id x : g_add g_zero x = x;
}.

Section multiples.
Context `{AbGroup G}.
Implicit Types (x y z g h : G) (n m : Z).

(** Adding two sums term by term. *)
Lemma g_swap w x y z : g_add (g_add w x) (g_add y z) = g_add (g_add w y) (g_add x z).
Proof. by rewrite <-!g_assoc, (g_assoc x y z), (g_comm x y), <-g_assoc. Qed.

(** n times g, for n not negative. *)
Definition times (n : Z) (g : G) : G :=
  match n with
  | Zpos q => Pos.iter_op g_add q g
  | _ => g_zero
  end.

Lemma times_0 g : times 0 g = g_zero.
Proof. done. Qed.
Lemma times_1 g : times 1 g = g.
Proof. done. Qed.
Lemma times_succ n g : 0 <= n → times (n + 1) g = g_add g (times n g).
Proof.
  intros Hn. destruct n as [|q|q]; [by rewrite Z.add_0_l, times_1, times_0, g_comm, g_id| |lia].
  rewrite <-Pos2Z.inj_add, Pos.add_1_r. cbn [times]. apply Pos.iter_op_succ, g_assoc.
Qed.
Lemma times_add n m g : 0 <= n → 0 <= m → times (n + m) g = g_add (times n g) (times m g).
Proof.
  intros Hn Hm. pattern n. apply natlike_ind; [by rewrite Z.add_0_l, times_0, g_id| |done].
  intros k Hk IH. replace (Z.succ k + m) with (k + m + 1) by lia. rewrite times_succ, IH by lia.
  rewrite <-Z.add_1_r, times_succ by done. by rewrite g_assoc.
Qed.

(** What holds of zero and is kept by one more holds of every multiple. *)
Lemma times_ind (P : Z → Prop) : P 0 → (∀ n, 0 <= n → P n → P (n + 1)) → (∀ n, n < 0 → P n) → ∀ n, P n.
Proof.
  intros H0 HS Hneg n. destruct (Z.neg_nonneg_cases n) as [Hn|Hn]; [by apply Hneg|]. pattern n. apply natlike_ind; [done| |done].
  intros k Hk IH. rewrite <-Z.add_1_r. by apply HS.
Qed.
Lemma times_neg n g : n < 0 → times n g = g_zero.
Proof. intros Hn. destruct n; (done || lia). Qed.
Lemma times_zero n : times n g_zero = g_zero.
Proof. pattern n; apply times_ind; [done|intros k Hk IH; by rewrite times_succ, IH, g_id by done|intros k Hk; by apply times_neg]. Qed.
Lemma times_sum n g h : times n (g_add g h) = g_add (times n g) (times n h).
Proof.
  pattern n; apply times_ind; [by rewrite !times_0, g_id|intros k Hk IH; by rewrite !times_succ, IH, g_swap by done|].
  intros k Hk. by rewrite !times_neg, g_id.
Qed.
Lemma times_mul n m g : 0 <= n → 0 <= m → times (n * m) g = times n (times m g).
Proof.
  intros Hn Hm. pattern n. apply natlike_ind; [done| |done]. intros k Hk IH.
  rewrite Z.mul_succ_l, Z.add_comm, times_add, IH, <-Z.add_1_r, times_succ by lia. done.
Qed.
(** Multiples of an element of order dividing l depend on the residue only. *)
Lemma times_mod l n g : 0 < l → 0 <= n → times l g = g_zero → times (n mod l) g = times n g.
Proof.
  intros Hl Hn E. pose proof (Z.div_pos n l Hn Hl). pose proof (Z.mod_pos_bound n l Hl). rewrite (Z.div_mod n l) at 2 by lia.
  rewrite Z.mul_comm, times_add, times_mul, E, times_zero, g_id by nia. done.
Qed.

(** Adding n times a point undoes adding n times its inverse. *)
Lemma times_opposite n g h k : g_add g h = g_zero → g_add (g_add k (times n g)) (times n h) = k.
Proof. intros E. by rewrite <-g_assoc, <-times_sum, E, times_zero, g_comm, g_id. Qed.
End multiples.
