(* ===== verification/NativeBase.v ===== *)
(** What the ciphers of src/src/native.c share: arrays of machine words as lists, the byte
    order helpers at the top of the file, and bitwise operations on words of a known width. *)

From S2P Require Import Prelude.
From stdpp Require Import prelude list.
From Stdlib Require Import ZArith Lia.
Open Scope Z_scope.

(** An element of an array; every index the code uses is inside it. *)
Notation "l .[ i ]" := (nth i l 0) (at level 1, left associativity, format "l .[ i ]") : nlos_scope.

(** * Byte order helpers *)

(** A pointer is the bytes from it on. *)
Definition u32le (p : list Z) : Z :=
  Z.lor (Z.lor (Z.lor p.[0] (Z.shiftl p.[1] 8)) (Z.shiftl p.[2] 16)) (Z.shiftl p.[3] 24).
Definition p32le (v : Z) : list Z := [u8 v; u8 (Z.shiftr v 8); u8 (Z.shiftr v 16); u8 (Z.shiftr v 24)].
Definition u32be (p : list Z) : Z :=
  Z.lor (Z.lor (Z.lor (Z.shiftl p.[0] 24) (Z.shiftl p.[1] 16)) (Z.shiftl p.[2] 8)) p.[3].
Definition p32be (v : Z) : list Z := [u8 (Z.shiftr v 24); u8 (Z.shiftr v 16); u8 (Z.shiftr v 8); u8 v].
Definition u64be (p : list Z) : Z := Z.lor (Z.shiftl (u32be p) 32) (u32be (drop 4 p)).
Definition p64be (v : Z) : list Z := p32be (u32 (Z.shiftr v 32)) ++ p32be (u32 v).
Definition u64le (p : list Z) : Z := Z.lor (u32le p) (Z.shiftl (u32le (drop 4 p)) 32).
Definition p64le (v : Z) : list Z := p32le (u32 v) ++ p32le (u32 (Z.shiftr v 32)).

(** [n] words of [w] bytes each, read one after the other, and written back. *)
Definition words_at (get : list Z → Z) (w : nat) (n : nat) (p : list Z) : list Z :=
  List.map (λ i, get (drop (w * i) p)) (seq 0 n).
Definition bytes_from (put : Z → list Z) (l : list Z) : list Z := flat_map put l.

(** * Words of a known width *)

Definition word_ok (w x : Z) : Prop := 0 <= x < 2 ^ w.
Abbreviation words_ok w := (Forall (word_ok w)).

Lemma testbit_high w x i : word_ok w x → w <= i → Z.testbit x i = false.
Proof.
  intros [Hx Hw] Hi. destruct (decide (x = 0)) as [->|]; [apply Z.bits_0|].
  apply Z.bits_above_log2; [lia|]. assert (Z.log2 x < w) by (apply Z.log2_lt_pow2; lia). lia.
Qed.

Lemma lor_add a b n : 0 <= n → 0 <= a < 2 ^ n → Z.lor a (Z.shiftl b n) = a + b * 2 ^ n.
Proof.
  intros Hn Ha. rewrite Z.shiftl_mul_pow2 by done. pose proof (Z.add_lor_land a (b * 2 ^ n)).
  assert (Z.land a (b * 2 ^ n) = 0) as E; [|lia].
  apply Z.bits_inj'. intros i Hi. rewrite Z.land_spec, Z.bits_0.
  destruct (Z.lt_ge_cases i n).
  - rewrite Z.mul_pow2_bits_low by lia. apply andb_false_r.
  - by rewrite (testbit_high n a).
Qed.

Lemma word_testbit w x : 0 <= w → 0 <= x → (∀ i, w <= i → Z.testbit x i = false) → word_ok w x.
Proof.
  intros Hw Hx H. split; [done|]. destruct (decide (x = 0)) as [->|]; [by apply Z.pow_pos_nonneg|].
  apply Z.log2_lt_pow2; [lia|]. destruct (Z.lt_ge_cases (Z.log2 x) w); [done|].
  specialize (H (Z.log2 x) ltac:(lia)). rewrite Z.bit_log2 in H by lia. done.
Qed.

Lemma lxor_ok w x y : 0 <= w → word_ok w x → word_ok w y → word_ok w (Z.lxor x y).
Proof.
  intros Hw Hx Hy. apply word_testbit; [done|apply Z.lxor_nonneg; unfold word_ok in *; lia|].
  intros i Hi. by rewrite Z.lxor_spec, (testbit_high w x), (testbit_high w y).
Qed.
Lemma lor_ok w x y : 0 <= w → word_ok w x → word_ok w y → word_ok w (Z.lor x y).
Proof.
  intros Hw Hx Hy. apply word_testbit; [done|apply Z.lor_nonneg; unfold word_ok in *; lia|].
  intros i Hi. by rewrite Z.lor_spec, (testbit_high w x), (testbit_high w y).
Qed.
Lemma lxor_add n a b c d : 0 <= n → word_ok n a → word_ok n b →
  Z.lxor (a + c * 2 ^ n) (b + d * 2 ^ n) = Z.lxor a b + Z.lxor c d * 2 ^ n.
Proof.
  intros Hn Ha Hb. rewrite <-!lor_add by (done || by apply lxor_ok). apply Z.bits_inj'. intros i Hi.
  rewrite !Z.lxor_spec, !Z.lor_spec, !Z.shiftl_spec, !Z.lxor_spec by done.
  destruct (Z.lt_ge_cases i n).
  - by rewrite !(Z.testbit_neg_r _ (i - n)), !orb_false_r by lia.
  - by rewrite (testbit_high n a), (testbit_high n b).
Qed.
Lemma land_add n a b c d : 0 <= n → word_ok n a → word_ok n b →
  Z.land (a + 2 ^ n * c) (b + 2 ^ n * d) = Z.land a b + 2 ^ n * Z.land c d.
Proof.
  intros Hn Ha Hb. rewrite !(Z.mul_comm (2 ^ n)).
  assert (word_ok n (Z.land a b)).
  { apply word_testbit; [done|apply Z.land_nonneg; left; apply Ha|].
    intros i Hi. by rewrite Z.land_spec, (testbit_high n a). }
  rewrite <-!lor_add by done. apply Z.bits_inj'. intros i Hi.
  rewrite !Z.land_spec, !Z.lor_spec, !Z.shiftl_spec, !Z.land_spec by done.
  destruct (Z.lt_ge_cases i n).
  - by rewrite !(Z.testbit_neg_r _ (i - n)), !orb_false_r by lia.
  - by rewrite (testbit_high n a), (testbit_high n b).
Qed.
Lemma land_ok w x y : 0 <= w → word_ok w x → 0 <= y → word_ok w (Z.land x y).
Proof.
  intros Hw Hx Hy. apply word_testbit; [done|apply Z.land_nonneg; left; apply Hx|].
  intros i Hi. by rewrite Z.land_spec, (testbit_high w x).
Qed.
Lemma shiftr_ok w x n : 0 <= n → word_ok w x → word_ok w (Z.shiftr x n).
Proof.
  intros Hn [Hx Hw]. rewrite Z.shiftr_div_pow2 by done. assert (0 < 2 ^ n) by (by apply Z.pow_pos_nonneg).
  split; [by apply Z.div_pos|]. apply Z.le_lt_trans with x; [|done]. apply Z.div_le_upper_bound; nia.
Qed.
Lemma wrap_ok w x : 0 <= w → word_ok w (wrap w x).
Proof. apply wrap_range. Qed.

Lemma lxor_twice x y : Z.lxor (Z.lxor x y) y = x.
Proof. by rewrite Z.lxor_assoc, Z.lxor_nilpotent, Z.lxor_0_r. Qed.

Lemma word_nth w l i : 0 <= w → words_ok w l → word_ok w l.[i].
Proof.
  intros Hw H. destruct (decide (i < length l)%nat).
  - rewrite Forall_forall in H. apply H, list_elem_of_In, nth_In. done.
  - rewrite nth_overflow by lia. split; [lia|by apply Z.pow_pos_nonneg].
Qed.

(** ** Arrays *)

Lemma map_nth_seq (s : list Z) n : length s = n → s = List.map (λ i, s.[i]) (seq 0 n).
Proof.
  intros <-. induction s as [|x s IH]; [done|]. cbn [length seq List.map nth]. f_equal.
  rewrite <-seq_shift, List.map_map. exact IH.
Qed.
Lemma nth_insert (t : list Z) k i x : (k < length t)%nat → (<[k := x]> t).[i] = if (i =? k)%nat then x else t.[i].
Proof.
  intros Hk. rewrite !nth_lookup. destruct (Nat.eqb_spec i k) as [->|N]; [by rewrite list_lookup_insert_eq by done|]. by rewrite list_lookup_insert_ne by done.
Qed.
Lemma zip_with_map {X} (f : Z → Z → Z) (a b : X → Z) l : zip_with f (List.map a l) (List.map b l) = List.map (λ i, f (a i) (b i)) l.
Proof. induction l as [|x l IH]; [done|]. cbn. by f_equal. Qed.

(** ** The helpers are the little-endian and big-endian numbers *)

Lemma p32le_bytes v : p32le v = le_bytes 4 v.
Proof. unfold p32le, u8, wrap. cbn [le_bytes]. by rewrite !Z.shiftr_div_pow2, !Z.div_div by lia. Qed.

Lemma p32be_bytes v : p32be v = rev (le_bytes 4 v).
Proof. by rewrite <-p32le_bytes. Qed.

Lemma u32le_val p : bytes_ok (take 4 p) → (4 <= length p)%nat → u32le p = le_val (take 4 p).
Proof.
  destruct p as [|a [|b [|c [|d p]]]]; cbn [length]; try lia. intros H _. cbn in H.
  apply Forall_cons in H as [Ha H]. apply Forall_cons in H as [Hb H]. apply Forall_cons in H as [Hc H].
  apply Forall_cons in H as [Hd H]. unfold byte_ok in *. unfold u32le. cbn [nth take]. rewrite take_0. cbn [le_val].
  rewrite (lor_add a b 8), (lor_add _ c 16), (lor_add _ d 24) by lia. lia.
Qed.

Lemma u32be_val p : bytes_ok (take 4 p) → (4 <= length p)%nat → u32be p = le_val (rev (take 4 p)).
Proof.
  destruct p as [|a [|b [|c [|d p]]]]; cbn [length]; try lia. intros H _. cbn in H.
  apply Forall_cons in H as [Ha H]. apply Forall_cons in H as [Hb H]. apply Forall_cons in H as [Hc H].
  apply Forall_cons in H as [Hd H]. unfold byte_ok in *. unfold u32be. cbn [nth take]. rewrite take_0. cbn [rev le_val app].
  rewrite (Z.lor_comm _ d), (Z.lor_comm _ (Z.shiftl c 8)), (Z.lor_comm (Z.shiftl a 24)), !Z.lor_assoc.
  rewrite (lor_add d c 8), (lor_add _ b 16), (lor_add _ a 24) by lia. lia.
Qed.

Lemma u32le_ok p : bytes_ok (take 4 p) → (4 <= length p)%nat → word_ok 32 (u32le p).
Proof.
  intros H Hl. rewrite u32le_val by done. pose proof (le_val_range _ H) as Hr. rewrite length_take in Hr.
  replace (4 `min` length p)%nat with 4%nat in Hr by lia. exact Hr.
Qed.
Lemma u32be_ok p : bytes_ok (take 4 p) → (4 <= length p)%nat → word_ok 32 (u32be p).
Proof.
  intros H Hl. rewrite u32be_val by done. pose proof (le_val_range (rev (take 4 p)) ltac:(by apply Forall_rev)) as Hr.
  rewrite length_rev, length_take in Hr. replace (4 `min` length p)%nat with 4%nat in Hr by lia. exact Hr.
Qed.

Lemma u32be_p32be v p : word_ok 32 v → u32be (p32be v ++ p) = v.
Proof.
  intros Hv. rewrite u32be_val; [|rewrite take_app_le by done; rewrite p32be_bytes; apply Forall_take, Forall_rev, le_bytes_ok|cbn; lia].
  rewrite take_app_length' by done. rewrite p32be_bytes, rev_involutive. by apply le_val_bytes_small.
Qed.
Lemma u32le_p32le v p : word_ok 32 v → u32le (p32le v ++ p) = v.
Proof.
  intros Hv. rewrite u32le_val; [|rewrite take_app_le by done; rewrite p32le_bytes; apply Forall_take, le_bytes_ok|cbn; lia].
  rewrite take_app_length' by done. rewrite p32le_bytes. by apply le_val_bytes_small.
Qed.

(** ** Reading and writing runs of words *)

(** A word of [w] bytes: what is written is read back, whatever follows it, and reading
    looks at the first [w] bytes only. *)
Class Codec (w : nat) (get : list Z → Z) (put : Z → list Z) : Prop := {
  codec_pos : (0 < w)%nat;
  codec_length v : length (put v) = w;
  codec_bytes v : bytes_ok (put v);
  codec_local p q : (w <= length p)%nat → get (p ++ q) = get p;
  codec_range p : bytes_ok p → (w <= length p)%nat → word_ok (8 * Z.of_nat w) (get p);
  codec_get v p : word_ok (8 * Z.of_nat w) v → get (put v ++ p) = v;
}.

#[export] Instance codec_32le : Codec 4 u32le p32le.
Proof.
  split; [lia|done|intros; rewrite p32le_bytes; apply le_bytes_ok| | |intros; by apply u32le_p32le].
  - intros p q Hp. do 4 (destruct p as [|? p]; [cbn in Hp; lia|]). done.
  - intros p Bp Hp. apply u32le_ok; [by apply Forall_take|done].
Qed.
#[export] Instance codec_32be : Codec 4 u32be p32be.
Proof.
  split; [lia|done|intros; rewrite p32be_bytes; apply Forall_rev, le_bytes_ok| | |intros; by apply u32be_p32be].
  - intros p q Hp. do 4 (destruct p as [|? p]; [cbn in Hp; lia|]). done.
  - intros p Bp Hp. apply u32be_ok; [by apply Forall_take|done].
Qed.

(** The two halves of a 64-bit word. *)
Lemma halves v : word_ok 64 v → u32 v + u32 (Z.shiftr v 32) * 2 ^ 32 = v ∧ word_ok 32 (u32 v) ∧ word_ok 32 (u32 (Z.shiftr v 32)).
Proof.
  intros [H0 H1]. rewrite Z.shiftr_div_pow2 by lia. split; [|split; by apply wrap_ok]. unfold u32.
  rewrite (wrap_small 32 (v / 2 ^ 32)).
  - unfold wrap. pose proof (Z.div_mod v (2 ^ 32) ltac:(done)). lia.
  - split; [by apply Z.div_pos|]. apply Z.div_lt_upper_bound; lia.
Qed.
Lemma join_ok a b : word_ok 32 a → word_ok 32 b → word_ok 64 (a + b * 2 ^ 32).
Proof. unfold word_ok. lia. Qed.

#[export] Instance codec_64le : Codec 8 u64le p64le.
Proof.
  split; [lia|done|intros; apply Forall_app; split; apply (codec_bytes (get := u32le))| | |].
  - intros p q Hp. do 8 (destruct p as [|? p]; [cbn in Hp; lia|]). done.
  - intros p Bp Hp. assert (bytes_ok (drop 4 p)) by (by apply Forall_drop).
    pose proof (codec_range (w := 4) (get := u32le) p Bp ltac:(lia)) as Ha. pose proof (codec_range (w := 4) (get := u32le) (drop 4 p) ltac:(done) ltac:(rewrite length_drop; lia)) as Hb.
    unfold u64le. rewrite lor_add by (done || apply Ha). by apply join_ok.
  - intros v p Hv. destruct (halves v Hv) as (E & Ha & Hb). unfold u64le, p64le. rewrite <-app_assoc.
    rewrite drop_app_length' by done. rewrite !u32le_p32le by done. by rewrite lor_add.
Qed.
#[export] Instance codec_64be : Codec 8 u64be p64be.
Proof.
  split; [lia|done|intros; apply Forall_app; split; apply (codec_bytes (get := u32be))| | |].
  - intros p q Hp. do 8 (destruct p as [|? p]; [cbn in Hp; lia|]). done.
  - intros p Bp Hp. assert (bytes_ok (drop 4 p)) by (by apply Forall_drop).
    pose proof (codec_range (w := 4) (get := u32be) p Bp ltac:(lia)) as Ha. pose proof (codec_range (w := 4) (get := u32be) (drop 4 p) ltac:(done) ltac:(rewrite length_drop; lia)) as Hb.
    unfold u64be. rewrite Z.lor_comm, lor_add by (done || apply Hb). by apply join_ok.
  - intros v p Hv. destruct (halves v Hv) as (E & Ha & Hb). unfold u64be, p64be. rewrite <-app_assoc.
    rewrite drop_app_length' by done. rewrite !u32be_p32be by done. by rewrite Z.lor_comm, lor_add.
Qed.

Section codec.
Context `{Codec w get put}.

Lemma words_at_length n p : length (words_at get w n p) = n.
Proof. unfold words_at. by rewrite List.length_map, List.length_seq. Qed.

Lemma words_at_S n p : words_at get w (S n) p = get p :: words_at get w n (drop w p).
Proof.
  unfold words_at. cbn [seq List.map]. rewrite Nat.mul_0_r, drop_0. f_equal. rewrite <-seq_shift, List.map_map.
  apply List.map_ext. intros i. by rewrite drop_drop, Nat.mul_succ_r, Nat.add_comm.
Qed.

Lemma words_at_app n p q : (w * n <= length p)%nat → words_at get w n (p ++ q) = words_at get w n p.
Proof.
  revert p. induction n as [|n IH]; intros p Hp; [done|]. rewrite !words_at_S.
  rewrite codec_local by lia. rewrite drop_app_le by lia. by rewrite IH by (rewrite length_drop; lia).
Qed.

Lemma words_at_ok n p : bytes_ok p → (w * n <= length p)%nat → words_ok (8 * Z.of_nat w) (words_at get w n p).
Proof.
  revert p. induction n as [|n IH]; intros p Bp Hp; [constructor|]. rewrite words_at_S. constructor.
  - apply codec_range; [done|lia].
  - apply IH; [by apply Forall_drop|rewrite length_drop; lia].
Qed.

Lemma bytes_from_length l : length (bytes_from put l) = (w * length l)%nat.
Proof. induction l as [|x l IH]; cbn [bytes_from flat_map length]; [lia|]. rewrite length_app, codec_length. fold (bytes_from put l). lia. Qed.
Lemma bytes_from_ok l : bytes_ok (bytes_from put l).
Proof. induction l as [|x l IH]; [constructor|]. apply Forall_app; split; [apply codec_bytes|done]. Qed.

Lemma words_at_bytes_from l q : words_ok (8 * Z.of_nat w) l → words_at get w (length l) (bytes_from put l ++ q) = l.
Proof.
  induction 1 as [|x l Hx Hl IH]; [done|]. cbn [length]. rewrite words_at_S. cbn [bytes_from flat_map]. rewrite <-app_assoc.
  rewrite codec_get by done. rewrite drop_app_length' by (symmetry; apply codec_length). by f_equal.
Qed.
End codec.

(** Bytewise exclusive or, cut to the shorter list. *)
Definition xor_list (a b : list Z) : list Z := zip_with Z.lxor a b.

Lemma xor_list_length a b : (length a <= length b)%nat → length (xor_list a b) = length a.
Proof. intros. unfold xor_list. rewrite length_zip_with. lia. Qed.

Lemma xor_list_ok a b : bytes_ok a → bytes_ok b → bytes_ok (xor_list a b).
Proof.
  intros Ha. revert b. induction Ha as [|x a Hx Ha IH]; intros [|y b] Hb; try constructor.
  - apply Forall_cons in Hb as [Hy Hb]. by apply (lxor_ok 8).
  - apply IH. by apply Forall_cons in Hb as [_ Hb].
Qed.

Lemma xor_list_app a a' b b' : length a = length b → xor_list (a ++ a') (b ++ b') = xor_list a b ++ xor_list a' b'.
Proof. apply zip_with_app. Qed.
