(* ===== verification/ChaCha.v ===== *)
(** ChaCha20: the stream cipher of src/src/native.c.

    The block function is the sixteen 32-bit words of its state; the message is xored with
    the blocks of successive counters, eight bytes at a time where eight are left.  What it
    computes is the cipher of RFC 8439, written out below from the text of the RFC. *)

From S2P Require Import Prelude NativeBase.
From Stdlib Require Import String ZArith Lia.
From stdpp Require Import prelude list.
Open Scope Z_scope.

(** * The code *)

Definition ROTL32 (x n : Z) : Z := Z.lor (u32 (Z.shiftl x n)) (Z.shiftr x (32 - n)).

(** The quarter round on four words of the state. *)
Definition QR (ia ib ic id : nat) (x : list Z) : list Z :=
  let a := x.[ia] in let b := x.[ib] in let c := x.[ic] in let d := x.[id] in
  let a := u32 (a + b) in let d := ROTL32 (Z.lxor d a) 16 in
  let c := u32 (c + d) in let b := ROTL32 (Z.lxor b c) 12 in
  let a := u32 (a + b) in let d := ROTL32 (Z.lxor d a) 8 in
  let c := u32 (c + d) in let b := ROTL32 (Z.lxor b c) 7 in
  <[id := d]> (<[ic := c]> (<[ib := b]> (<[ia := a]> x))).

Definition double_round (x : list Z) : list Z :=
  let x := QR 0 4 8 12 x in let x := QR 1 5 9 13 x in
  let x := QR 2 6 10 14 x in let x := QR 3 7 11 15 x in
  let x := QR 0 5 10 15 x in let x := QR 1 6 11 12 x in
  let x := QR 2 7 8 13 x in QR 3 4 9 14 x.

Definition chacha20_block (key : list Z) (counter : Z) (nonce : list Z) : list Z :=
  let s := [0x61707865; 0x3320646e; 0x79622d32; 0x6b206574] ++ words_at u32le 4 8 key ++
           [counter] ++ words_at u32le 4 3 nonce in
  let x := Nat.iter 10 double_round s in
  bytes_from p32le (List.map (λ i, u32 (x.[i] + s.[i])) (seq 0 16)).

(** The two loops over one block: eight bytes at a time, then one; [n] bytes in all. *)
Fixpoint xor_bytes (n : nat) (inp ks : list Z) : list Z :=
  match n with
  | O => []
  | S n => u8 (Z.lxor inp.[0] ks.[0]) :: xor_bytes n (drop 1 inp) (drop 1 ks)
  end.
Fixpoint xor_words (k n : nat) (inp ks : list Z) : list Z :=
  match k with
  | O => xor_bytes n inp ks
  | S k =>
      if (8 <=? n)%nat
      then le_bytes 8 (Z.lxor (le_val (take 8 inp)) (le_val (take 8 ks))) ++
           xor_words k (n - 8) (drop 8 inp) (drop 8 ks)
      else xor_bytes n inp ks
  end.

(** The loop over blocks; [k] bounds their number. *)
Fixpoint chacha20_loop (k : nat) (inp key : list Z) (counter : Z) (nonce : list Z) : list Z :=
  match k with
  | O => []
  | S k =>
      match inp with
      | [] => []
      | _ =>
          let ks := chacha20_block key counter nonce in
          let n := Nat.min (length inp) 64 in
          xor_words 8 n inp ks ++ chacha20_loop k (drop n inp) key (u32 (counter + 1)) nonce
      end
  end.
Definition chacha20_xor (inp key : list Z) (counter : Z) (nonce : list Z) : list Z :=
  chacha20_loop (length inp) inp key counter nonce.

(** * What it computes *)

(** The block of RFC 8439, 2.3.2. *)
Example chacha20_block_rfc :
  chacha20_block (List.map Z.of_nat (seq 0 32)) 1 [0; 0; 0; 9; 0; 0; 0; 0x4a; 0; 0; 0; 0] =
  [0x10; 0xf1; 0xe7; 0xe4; 0xd1; 0x3b; 0x59; 0x15; 0x50; 0x0f; 0xdd; 0x1f; 0xa3; 0x20; 0x71; 0xc4;
   0xc7; 0xd1; 0xf4; 0xc7; 0x33; 0xc0; 0x68; 0x03; 0x04; 0x22; 0xaa; 0x9a; 0xc3; 0xd4; 0x6c; 0x4e;
   0xd2; 0x82; 0x64; 0x46; 0x07; 0x9f; 0xaa; 0x09; 0x14; 0xc2; 0xd7; 0x05; 0xd9; 0x8b; 0x02; 0xa2;
   0xb5; 0x12; 0x9c; 0xd1; 0xde; 0x16; 0x4e; 0xb9; 0xcb; 0xd0; 0x83; 0xe8; 0xa2; 0x50; 0x3c; 0x4e].
Proof. by vm_compute. Qed.

(** The key stream: the blocks of the counters from [counter] on, which wraps at 2^32. *)
Fixpoint keystream (n : nat) (key : list Z) (counter : Z) (nonce : list Z) : list Z :=
  match n with
  | O => []
  | S n => chacha20_block key counter nonce ++ keystream n key (u32 (counter + 1)) nonce
  end.

Lemma byte_word b : byte_ok b ↔ word_ok 8 b.
Proof. done. Qed.

Lemma chacha20_block_length key counter nonce : length (chacha20_block key counter nonce) = 64%nat.
Proof. done. Qed.

Lemma chacha20_block_ok key counter nonce : bytes_ok (chacha20_block key counter nonce).
Proof.
  unfold chacha20_block, bytes_from. apply Forall_flat_map, Forall_forall. intros x _. rewrite p32le_bytes. apply le_bytes_ok.
Qed.

Lemma xor_bytes_spec n inp ks : (n <= length inp)%nat → (n <= length ks)%nat → bytes_ok inp → bytes_ok ks →
  xor_bytes n inp ks = xor_list (take n inp) (take n ks).
Proof.
  revert inp ks. induction n as [|n IH]; intros inp ks Hi Hk Bi Bk; [done|].
  destruct inp as [|a inp], ks as [|b ks]; cbn [length] in *; [lia..|].
  apply Forall_cons in Bi as [Ha Bi], Bk as [Hb Bk]. cbn [xor_bytes nth drop take]. rewrite !drop_0, IH by (done || lia).
  unfold xor_list. cbn [zip_with]. f_equal. unfold u8. apply wrap_small. by apply lxor_ok.
Qed.

Lemma lxor_le_val a b : length a = length b → bytes_ok a → bytes_ok b →
  Z.lxor (le_val a) (le_val b) = le_val (xor_list a b).
Proof.
  revert b. induction a as [|x a IH]; intros [|y b] Hl Ba Bb; try done. cbn [length] in Hl.
  apply Forall_cons in Ba as [Hx Ba], Bb as [Hy Bb]. unfold xor_list. cbn [zip_with le_val]. fold (xor_list a b).
  rewrite <-IH by (done || lia). rewrite !(Z.mul_comm 256). by apply (lxor_add 8).
Qed.

(** Eight bytes at a time is one byte at a time. *)
Lemma xor_words_spec k n inp ks : (n <= length inp)%nat → (n <= length ks)%nat → bytes_ok inp → bytes_ok ks →
  xor_words k n inp ks = xor_list (take n inp) (take n ks).
Proof.
  revert n inp ks. induction k as [|k IH]; intros n inp ks Hi Hk Bi Bk; [by apply xor_bytes_spec|].
  cbn [xor_words]. destruct (Nat.leb_spec 8 n) as [H8|H8]; [|by apply xor_bytes_spec].
  rewrite IH; [|rewrite length_drop; lia..|by apply Forall_drop|by apply Forall_drop].
  rewrite lxor_le_val; [|rewrite !length_take; lia|by apply Forall_take|by apply Forall_take].
  assert (length (xor_list (take 8 inp) (take 8 ks)) = 8%nat) as E8.
  { rewrite xor_list_length; rewrite !length_take; lia. }
  rewrite <-E8 at 1. rewrite le_bytes_val by (apply xor_list_ok; by apply Forall_take).
  rewrite <-xor_list_app by (rewrite !length_take; lia).
  by rewrite !take_take_drop, !Nat.add_sub_assoc, !(Nat.add_comm 8), Nat.add_sub by lia.
Qed.

Lemma xor_list_short a b : xor_list a (take (length a) b) = xor_list a b.
Proof. revert b. induction a as [|x a IH]; intros [|y b]; [done..|]. unfold xor_list in *. cbn. by rewrite IH. Qed.

(** The message xored with the key stream, however long that is beyond the message. *)
Lemma chacha20_loop_spec key nonce : ∀ k inp counter n, (length inp <= k)%nat → (length inp <= 64 * n)%nat → bytes_ok inp →
  chacha20_loop k inp key counter nonce = xor_list inp (keystream n key counter nonce).
Proof.
  induction k as [|k IH]; intros inp counter n Hk Hn Bi; [destruct inp; [done|cbn in Hk; lia]|].
  cbn [chacha20_loop]. destruct inp as [|a inp'] eqn:E; [done|]. rewrite <-E in *.
  assert (0 < length inp)%nat by (rewrite E; cbn; lia). clear a inp' E. destruct n as [|n]; [lia|]. cbn [keystream].
  set (m := Nat.min (length inp) 64). pose proof (chacha20_block_length key counter nonce) as Hb.
  rewrite xor_words_spec; [|lia|lia|done|apply chacha20_block_ok].
  rewrite (IH (drop m inp) _ n); [|rewrite length_drop; lia..|by apply Forall_drop].
  rewrite <-(take_drop m inp) at 3. destruct (decide (length inp <= 64)%nat) as [Hs|Hs].
  - rewrite (drop_ge inp m), app_nil_r by lia. change (xor_list [] _) with (@nil Z). rewrite app_nil_r.
    rewrite <-(xor_list_short _ (_ ++ _)). f_equal. rewrite take_app_le by (rewrite length_take; lia).
    f_equal. rewrite length_take. lia.
  - rewrite xor_list_app by (rewrite length_take; lia). f_equal. f_equal. apply take_ge. lia.
Qed.

Lemma keystream_app key nonce : ∀ j n counter, keystream (j + n) key counter nonce =
  keystream j key counter nonce ++ keystream n key (Nat.iter j (λ c, u32 (c + 1)) counter) nonce.
Proof.
  induction j as [|j IH]; intros n counter; [done|]. cbn [keystream Nat.add]. rewrite IH, <-app_assoc.
  by rewrite Nat.iter_succ_r.
Qed.

Lemma keystream_length key nonce : ∀ n counter, length (keystream n key counter nonce) = (64 * n)%nat.
Proof.
  induction n as [|n IH]; intros counter; [done|]. cbn [keystream]. rewrite length_app, chacha20_block_length, IH. lia.
Qed.
Lemma keystream_ok key nonce : ∀ n counter, bytes_ok (keystream n key counter nonce).
Proof. induction n as [|n IH]; intros counter; [constructor|]. apply Forall_app. split; [apply chacha20_block_ok|apply IH]. Qed.

Lemma counter_iter j c : word_ok 32 c → Nat.iter j (λ c, u32 (c + 1)) c = u32 (c + Z.of_nat j).
Proof.
  intros Hc. induction j as [|j IH]; [cbn; rewrite Z.add_0_r; symmetry; by apply wrap_small|].
  rewrite Nat.iter_succ, IH. unfold u32, wrap. rewrite Zplus_mod_idemp_l. f_equal. lia.
Qed.

Lemma xor_list_twice a b : (length a <= length b)%nat → xor_list (xor_list a b) b = a.
Proof.
  revert b. induction a as [|x a IH]; intros [|y b] Hl; cbn [length] in *; [done..|lia|].
  unfold xor_list in *. cbn [zip_with]. rewrite IH by lia. by rewrite lxor_twice.
Qed.

(** * RFC 8439

    The cipher as the RFC states it, on a state of sixteen numbers indexed from 0. *)

(** 2.1: the quarter round on four numbers below 2^32. *)
Definition plus32 (x y : Z) : Z := (x + y) mod 2 ^ 32.
(** x <<<= n *)
Definition roll (x n : Z) : Z := (x * 2 ^ n) mod 2 ^ 32 + x / 2 ^ (32 - n).
Definition quarter_round (a b c d : Z) : Z * Z * Z * Z :=
  let a := plus32 a b in let d := roll (Z.lxor d a) 16 in
  let c := plus32 c d in let b := roll (Z.lxor b c) 12 in
  let a := plus32 a b in let d := roll (Z.lxor d a) 8 in
  let c := plus32 c d in let b := roll (Z.lxor b c) 7 in
  (a, b, c, d).
(** 2.2: QUARTERROUND(i, j, k, l) on the sixteen numbers of the state. *)
Definition QUARTERROUND (i j k l : nat) (f : nat → Z) : nat → Z :=
  let '(a, b, c, d) := quarter_round (f i) (f j) (f k) (f l) in
  λ n, if (n =? i)%nat then a else if (n =? j)%nat then b else if (n =? k)%nat then c else if (n =? l)%nat then d else f n.
(** 2.3: the four columns, then the four diagonals of the four by four matrix. *)
Definition column_round (f : nat → Z) : nat → Z := foldl (λ f i, QUARTERROUND i (4 + i) (8 + i) (12 + i) f) f (seq 0 4).
Definition diagonal_round (f : nat → Z) : nat → Z :=
  foldl (λ f i, QUARTERROUND i (4 + (i + 1) mod 4) (8 + (i + 2) mod 4) (12 + (i + 3) mod 4) f) f (seq 0 4).
(** The four words of the text expand 32-byte k, the key, the counter and the nonce. *)
Definition sigma : list Z := List.map (λ c, Z.of_nat (Ascii.nat_of_ascii c)) (String.list_ascii_of_string "expand 32-byte k"%string).
Definition word_of (l : list Z) (i : nat) : Z := le_val (take 4 (drop (4 * i) l)).
Definition initial (key : list Z) (counter : Z) (nonce : list Z) (n : nat) : Z :=
  if (n <? 4)%nat then word_of sigma n else if (n <? 12)%nat then word_of key (n - 4)
  else if (n =? 12)%nat then counter else word_of nonce (n - 13).
Definition rfc_block (key : list Z) (counter : Z) (nonce : list Z) : list Z :=
  let s := initial key counter nonce in
  let x := Nat.iter 10 (λ f, diagonal_round (column_round f)) s in
  flat_map (λ i, le_bytes 4 (plus32 (x i) (s i))) (seq 0 16).
(** 2.4: byte i of the message with byte i mod 64 of the block of counter + i / 64. *)
Definition rfc_encrypt (key : list Z) (counter : Z) (nonce m : list Z) : list Z :=
  List.map (λ i, Z.lxor m.[i] (rfc_block key ((counter + Z.of_nat (i / 64)) mod 2 ^ 32) nonce).[i mod 64]) (seq 0 (length m)).

(** ** The rounds agree *)

Lemma roll_eq x n : word_ok 32 x → 0 < n < 32 → ROTL32 x n = roll x n.
Proof.
  intros Hx Hn. unfold ROTL32, roll, u32, wrap. rewrite Z.shiftl_mul_pow2, Z.shiftr_div_pow2 by lia.
  assert (2 ^ 32 = 2 ^ (32 - n) * 2 ^ n) as E by (rewrite <-Z.pow_add_r by lia; f_equal; lia).
  assert (0 < 2 ^ (32 - n) ∧ 0 < 2 ^ n) as [H1 H2] by (split; apply Z.pow_pos_nonneg; lia).
  rewrite E, Z.mul_mod_distr_r, <-Z.shiftl_mul_pow2, Z.lor_comm by lia. rewrite Z.add_comm, lor_add; [by rewrite Z.shiftl_mul_pow2 by lia|lia|].
  split; [apply Z.div_pos; [apply Hx|lia]|]. apply Z.div_lt_upper_bound; [lia|]. rewrite <-E. apply Hx.
Qed.
Lemma ROTL32_ok x n : word_ok 32 x → 0 < n < 32 → word_ok 32 (ROTL32 x n).
Proof. intros Hx Hn. apply lor_ok; [lia|by apply wrap_ok|apply shiftr_ok; [lia|done]]. Qed.
Lemma u32_ok x : word_ok 32 (u32 x).
Proof. by apply wrap_ok. Qed.
Lemma lxor32_ok x y : word_ok 32 x → word_ok 32 y → word_ok 32 (Z.lxor x y).
Proof. by apply lxor_ok. Qed.
Create HintDb chacha.
#[export] Hint Resolve ROTL32_ok u32_ok lxor32_ok : chacha.
#[export] Hint Extern 1 (0 < _ < 32) => lia : chacha.

(** The sixteen words of [x] are the sixteen numbers of [f]. *)
Definition same (x : list Z) (f : nat → Z) : Prop :=
  length x = 16%nat ∧ words_ok 32 x ∧ ∀ n, (n < 16)%nat → x.[n] = f n.

Lemma same_quarter x f i j k l : same x f → (i < 16 ∧ j < 16 ∧ k < 16 ∧ l < 16)%nat → NoDup [i; j; k; l] →
  same (QR i j k l x) (QUARTERROUND i j k l f).
Proof.
  intros (Hl & Hx & E) (Hi & Hj & Hk & Hll) N. apply NoDup_ListNoDup in N.
  assert (i ≠ j ∧ i ≠ k ∧ i ≠ l ∧ j ≠ k ∧ j ≠ l ∧ k ≠ l) as (N1 & N2 & N3 & N4 & N5 & N6).
  { repeat apply NoDup_cons_iff in N as [? N]. cbn in *. naive_solver. }
  unfold QR, QUARTERROUND, quarter_round. rewrite <-(E i), <-(E j), <-(E k), <-(E l) by done.
  pose proof (word_nth 32 x i ltac:(lia) Hx) as Wa. pose proof (word_nth 32 x j ltac:(lia) Hx) as Wb.
  pose proof (word_nth 32 x k ltac:(lia) Hx) as Wc. pose proof (word_nth 32 x l ltac:(lia) Hx) as Wd.
  change plus32 with (λ x y, u32 (x + y)). cbv beta zeta. rewrite <-!roll_eq by auto 30 with chacha.
  split_and!.
  - by rewrite !length_insert.
  - repeat apply Forall_insert; auto 20 with chacha.
  - intros n Hn. rewrite !nth_insert by (rewrite ?length_insert; lia). rewrite (E n) by done.
    destruct (Nat.eqb_spec n i), (Nat.eqb_spec n j), (Nat.eqb_spec n k), (Nat.eqb_spec n l); congruence.
Qed.

Lemma same_rounds x f : same x f → same (double_round x) (diagonal_round (column_round f)).
Proof.
  intros H. unfold double_round, diagonal_round, column_round. cbn [seq foldl Nat.add Nat.modulo Nat.divmod fst snd Nat.sub].
  repeat (apply same_quarter; [|lia|by vm_compute; repeat constructor; set_solver]). exact H.
Qed.

Lemma same_iter k x f : same x f → same (Nat.iter k double_round x) (Nat.iter k (λ f, diagonal_round (column_round f)) f).
Proof. intros H. induction k as [|k IH]; [done|]. rewrite !Nat.iter_succ. by apply same_rounds. Qed.

Lemma words_at_nth n p i : (i < n)%nat → (4 * n <= length p)%nat → bytes_ok p → (words_at u32le 4 n p).[i] = word_of p i.
Proof.
  intros Hi Hp Bp. unfold words_at, word_of. rewrite nth_lookup, list_lookup_fmap, lookup_seq_lt by done. cbn.
  apply u32le_val; [by apply Forall_take, Forall_drop|rewrite length_drop; lia].
Qed.

Lemma same_initial key counter nonce :
  bytes_ok key → length key = 32%nat → bytes_ok nonce → length nonce = 12%nat → word_ok 32 counter →
  same ([0x61707865; 0x3320646e; 0x79622d32; 0x6b206574] ++ words_at u32le 4 8 key ++ [counter] ++ words_at u32le 4 3 nonce)
    (initial key counter nonce).
Proof.
  intros Bk Lk Bn Ln Hc. split_and!; [done| |].
  - apply Forall_app. split; [by repeat constructor|]. apply Forall_app. split; [apply (words_at_ok (w := 4)); [done|lia]|].
    constructor; [done|]. apply (words_at_ok (w := 4)); [done|lia].
  - intros n Hn. unfold initial. destruct (Nat.ltb_spec n 4) as [H4|H4].
    { rewrite app_nth1 by (cbn; lia). do 4 (destruct n as [|n]; [done|]). lia. }
    rewrite app_nth2 by (cbn; lia). cbn [length]. destruct (Nat.ltb_spec n 12) as [H12|H12].
    { rewrite app_nth1 by (rewrite words_at_length; lia). apply words_at_nth; [lia..|done]. }
    rewrite app_nth2 by (rewrite words_at_length; lia). rewrite words_at_length.
    destruct (Nat.eqb_spec n 12) as [->|N]; [done|]. rewrite app_nth2 by (cbn; lia). cbn [length].
    replace (n - 4 - 8 - 1)%nat with (n - 13)%nat by lia. apply words_at_nth; [lia..|done].
Qed.

(** The block function is that of 2.3. *)
Lemma chacha20_block_rfc8439 key counter nonce :
  bytes_ok key → length key = 32%nat → bytes_ok nonce → length nonce = 12%nat → word_ok 32 counter →
  chacha20_block key counter nonce = rfc_block key counter nonce.
Proof.
  intros Bk Lk Bn Ln Hc. pose proof (same_initial key counter nonce Bk Lk Bn Ln Hc) as S. unfold chacha20_block, rfc_block.
  set (s := _ ++ _) in *. cbv zeta. pose proof (same_iter 10 _ _ S) as X.
  set (x := Nat.iter 10 double_round s) in *. set (f := Nat.iter 10 _ (initial _ _ _)) in *. clearbody x f s.
  unfold bytes_from. rewrite !flat_map_concat_map, List.map_map. f_equal. apply map_ext_in. intros i Hi. apply in_seq in Hi.
  destruct S as (_ & _ & S), X as (_ & _ & X). rewrite p32le_bytes, S, X by lia. done.
Qed.

(** Byte i of the key stream. *)
Lemma keystream_nth key nonce counter n i : word_ok 32 counter → (i < 64 * n)%nat →
  (keystream n key counter nonce).[i] = (chacha20_block key (u32 (counter + Z.of_nat (i / 64))) nonce).[i mod 64].
Proof.
  intros Hc Hi. pose proof (Nat.div_mod_eq i 64) as Hd. pose proof (Nat.mod_upper_bound i 64 ltac:(lia)) as Hm.
  set (q := (i / 64)%nat) in *. set (r := (i mod 64)%nat) in *. clearbody q r.
  replace n with (q + S (n - q - 1))%nat by lia. rewrite keystream_app, counter_iter by done.
  rewrite app_nth2; rewrite keystream_length; [|lia]. cbn [keystream].
  rewrite app_nth1 by (rewrite chacha20_block_length; lia). f_equal. lia.
Qed.

Lemma xor_list_nth a b : (length a <= length b)%nat → xor_list a b = List.map (λ i, Z.lxor a.[i] b.[i]) (seq 0 (length a)).
Proof.
  revert b. induction a as [|x a IH]; intros [|y b] Hl; cbn [length] in *; [done..|lia|].
  unfold xor_list in *. cbn [zip_with seq List.map nth]. f_equal. rewrite IH, <-seq_shift, List.map_map by lia. done.
Qed.

(** Decrypting what was encrypted gives the message back, for any message, key, nonce and
    starting counter; and the cipher can be entered at a block boundary: the part of a
    message from byte 64 * j on is enciphered as it would be alone from counter + j, the
    counter wrapping at 2^32. *)
Theorem chacha20_roundtrip m key counter nonce j m1 m2 :
  bytes_ok m → word_ok 32 counter → m = m1 ++ m2 → length m1 = (64 * j)%nat →
  chacha20_xor (chacha20_xor m key counter nonce) key counter nonce = m ∧
  length (chacha20_xor m key counter nonce) = length m ∧
  chacha20_xor m key counter nonce =
    chacha20_xor m1 key counter nonce ++ chacha20_xor m2 key (u32 (counter + Z.of_nat j)) nonce.
Proof.
  intros Bm Hc Em Hj. pose proof Bm as Bm'. rewrite Em in Bm'. apply Forall_app in Bm' as [B1 B2].
  set (n := (j + length m2)%nat).
  assert (length m = length m1 + length m2)%nat as El by (by rewrite Em, length_app).
  pose proof (keystream_length key nonce n counter) as Kl. unfold chacha20_xor.
  rewrite (chacha20_loop_spec key nonce (length m) m counter n) by (done || lia).
  assert (length (xor_list m (keystream n key counter nonce)) = length m) as Ex by (apply xor_list_length; lia).
  rewrite Ex. split_and!.
  - rewrite (chacha20_loop_spec _ _ _ _ _ n); [|lia..|apply xor_list_ok; [done|apply keystream_ok]].
    apply xor_list_twice. lia.
  - done.
  - rewrite (chacha20_loop_spec _ _ _ _ _ j), (chacha20_loop_spec _ _ _ m2 _ (length m2)) by (done || lia).
    unfold n. rewrite keystream_app, counter_iter by done. rewrite Em. apply xor_list_app. rewrite keystream_length. lia.
Qed.

Definition demo_key : list Z := List.map Z.of_nat (seq 0 32).
Definition demo_nonce : list Z := [0; 0; 0; 0; 0; 0; 0; 0x4a; 0; 0; 0; 0].
Definition demo_text : list Z := List.map (λ i, u8 (Z.of_nat i * 7)) (seq 0 100).

(** C40: the cipher is that of RFC 8439: for a key of 32 bytes, a nonce of 12, any counter and any
    message, byte i of the result is byte i of the message xored with byte i mod 64 of the
    block of counter + i / 64 (which wraps at 2^32), the block being the ten column and
    diagonal rounds of the RFC over its constants, the key, the counter and the nonce, added
    to the state it began with; and doing it again gives the message back. *)
Theorem chacha20_rfc8439 m key counter nonce :
  bytes_ok m → bytes_ok key → length key = 32%nat → bytes_ok nonce → length nonce = 12%nat → word_ok 32 counter →
  chacha20_xor m key counter nonce = rfc_encrypt key counter nonce m ∧
  chacha20_xor (chacha20_xor m key counter nonce) key counter nonce = m.
Proof.
  intros Bm Bk Lk Bn Ln Hc. split; [|by apply (chacha20_roundtrip m key counter nonce 0 [] m)].
  pose proof (keystream_length key nonce (length m) counter) as Kl. unfold chacha20_xor, rfc_encrypt.
  rewrite (chacha20_loop_spec _ _ _ _ _ (length m)) by (done || lia). rewrite xor_list_nth by lia.
  apply map_ext_in. intros i Hi. apply in_seq in Hi. rewrite keystream_nth by (done || lia).
  by rewrite chacha20_block_rfc8439 by (done || by apply (wrap_ok 32)).
Qed.

Lemma chacha20_rfc8439_witness :
  chacha20_xor demo_text demo_key 0xffffffff demo_nonce = rfc_encrypt demo_key 0xffffffff demo_nonce demo_text ∧
  chacha20_xor (chacha20_xor demo_text demo_key 0xffffffff demo_nonce) demo_key 0xffffffff demo_nonce = demo_text.
Proof.
  apply (chacha20_rfc8439 demo_text demo_key 0xffffffff demo_nonce); try done.
  - apply Forall_forall. intros x Hx. unfold demo_text in Hx. apply list_elem_of_fmap in Hx as (i & -> & _).
    by apply (wrap_range 8).
  - unfold demo_key. cbn. by repeat constructor.
  - by repeat constructor.
Defined.
