(* ===== verification/Poly1305.v ===== *)
(** Poly1305: the one-time authenticator of src/src/native.c.

    The accumulator is five limbs of 26 bits, every product a 64-bit word.  The theorem is
    that the tag is the polynomial of RFC 8439 in the message's blocks, modulo 2^130 - 5,
    however the message is cut into updates. *)

From S2P Require Import Prelude NativeBase.
From stdpp Require Import prelude list.
From Stdlib Require Import ZArith Lia.
Open Scope Z_scope.

(** * The code *)

(** [p_buf] is the first buflen bytes of buf. *)
Record poly1305 : Type := mkPoly {
  p_r : list Z;
  p_h : list Z;
  p_pad : list Z;
  p_buf : list Z;
}.

Definition poly1305_init (key : list Z) : poly1305 :=
  let t0 := u32le key in let t1 := u32le (drop 4 key) in
  let t2 := u32le (drop 8 key) in let t3 := u32le (drop 12 key) in
  mkPoly
    [Z.land t0 0x3ffffff;
     Z.land (Z.lor (Z.shiftr t0 26) (u32 (Z.shiftl t1 6))) 0x3ffff03;
     Z.land (Z.lor (Z.shiftr t1 20) (u32 (Z.shiftl t2 12))) 0x3ffc0ff;
     Z.land (Z.lor (Z.shiftr t2 14) (u32 (Z.shiftl t3 18))) 0x3f03fff;
     Z.land (Z.shiftr t3 8) 0x00fffff]
    [0; 0; 0; 0; 0] (words_at u32le 4 4 (drop 16 key)) [].

(** The message words of a block as limbs, without the high bit. *)
Definition limbs (m : list Z) : list Z :=
  let t0 := u32le m in let t1 := u32le (drop 4 m) in
  let t2 := u32le (drop 8 m) in let t3 := u32le (drop 12 m) in
  [Z.land t0 0x3ffffff;
   Z.land (Z.lor (Z.shiftr t0 26) (u32 (Z.shiftl t1 6))) 0x3ffffff;
   Z.land (Z.lor (Z.shiftr t1 20) (u32 (Z.shiftl t2 12))) 0x3ffffff;
   Z.land (Z.lor (Z.shiftr t2 14) (u32 (Z.shiftl t3 18))) 0x3ffffff;
   Z.shiftr t3 8].

(** (uint64_t)a0 * b0 + ... *)
Definition dot (a0 b0 a1 b1 a2 b2 a3 b3 a4 b4 : Z) : Z :=
  u64 (u64 (u64 (u64 (u64 (a0 * b0) + u64 (a1 * b1)) + u64 (a2 * b2)) + u64 (a3 * b3)) + u64 (a4 * b4)).

(** The carries of a block, from the five columns. *)
Definition carries (d0 d1 d2 d3 d4 : Z) : list Z :=
  let c := u32 (Z.shiftr d0 26) in let h0 := Z.land (u32 d0) 0x3ffffff in
  let d1 := u64 (d1 + c) in let c := u32 (Z.shiftr d1 26) in let h1 := Z.land (u32 d1) 0x3ffffff in
  let d2 := u64 (d2 + c) in let c := u32 (Z.shiftr d2 26) in let h2 := Z.land (u32 d2) 0x3ffffff in
  let d3 := u64 (d3 + c) in let c := u32 (Z.shiftr d3 26) in let h3 := Z.land (u32 d3) 0x3ffffff in
  let d4 := u64 (d4 + c) in let c := u32 (Z.shiftr d4 26) in let h4 := Z.land (u32 d4) 0x3ffffff in
  let h0 := u32 (h0 + u32 (c * 5)) in let c := Z.shiftr h0 26 in let h0 := Z.land h0 0x3ffffff in
  [h0; u32 (h1 + c); h2; h3; h4].

Definition block_mul (r h : list Z) : list Z :=
  let r0 := r.[0] in let r1 := r.[1] in let r2 := r.[2] in let r3 := r.[3] in let r4 := r.[4] in
  let s1 := u32 (r1 * 5) in let s2 := u32 (r2 * 5) in let s3 := u32 (r3 * 5) in let s4 := u32 (r4 * 5) in
  let h0 := h.[0] in let h1 := h.[1] in let h2 := h.[2] in let h3 := h.[3] in let h4 := h.[4] in
  carries (dot h0 r0 h1 s4 h2 s3 h3 s2 h4 s1) (dot h0 r1 h1 r0 h2 s4 h3 s3 h4 s2)
    (dot h0 r2 h1 r1 h2 r0 h3 s4 h4 s3) (dot h0 r3 h1 r2 h2 r1 h3 r0 h4 s4)
    (dot h0 r4 h1 r3 h2 r2 h3 r1 h4 r0).

Definition poly1305_block (st : poly1305) (m : list Z) (hibit : Z) : poly1305 :=
  let t := limbs m in let h := p_h st in
  let h := [u32 (h.[0] + t.[0]); u32 (h.[1] + t.[1]); u32 (h.[2] + t.[2]); u32 (h.[3] + t.[3]);
            u32 (h.[4] + Z.lor t.[4] hibit)] in
  mkPoly (p_r st) (block_mul (p_r st) h) (p_pad st) (p_buf st).

Definition set_buf (b : list Z) (st : poly1305) : poly1305 := mkPoly (p_r st) (p_h st) (p_pad st) b.

(** while (len >= 16); [k] bounds the blocks. *)
Fixpoint update_loop (k : nat) (st : poly1305) (m : list Z) : poly1305 * list Z :=
  match k with
  | O => (st, m)
  | S k => if (16 <=? length m)%nat then update_loop k (poly1305_block st m (2 ^ 24)) (drop 16 m) else (st, m)
  end.
Definition poly1305_update (st : poly1305) (m : list Z) : poly1305 :=
  let (st, m) :=
    if (0 <? length (p_buf st))%nat then
      let want := (16 - length (p_buf st))%nat in
      let take_ := if (length m <? want)%nat then length m else want in
      let st := set_buf (p_buf st ++ take take_ m) st in
      let m := drop take_ m in
      if (length (p_buf st) =? 16)%nat then (set_buf [] (poly1305_block st (p_buf st) (2 ^ 24)), m) else (st, m)
    else (st, m) in
  let (st, m) := update_loop (length m) st m in
  set_buf (p_buf st ++ m) st.

(** The final reduction and the addition of the pad. *)
Definition finish_carry (h : list Z) : list Z :=
  let M := 0x3ffffff in
  let h0 := h.[0] in let h1 := h.[1] in let h2 := h.[2] in let h3 := h.[3] in let h4 := h.[4] in
  let c := Z.shiftr h1 26 in let h1 := Z.land h1 M in
  let h2 := u32 (h2 + c) in let c := Z.shiftr h2 26 in let h2 := Z.land h2 M in
  let h3 := u32 (h3 + c) in let c := Z.shiftr h3 26 in let h3 := Z.land h3 M in
  let h4 := u32 (h4 + c) in let c := Z.shiftr h4 26 in let h4 := Z.land h4 M in
  let h0 := u32 (h0 + u32 (c * 5)) in let c := Z.shiftr h0 26 in let h0 := Z.land h0 M in
  [h0; u32 (h1 + c); h2; h3; h4].
Definition finish_sub (h : list Z) : list Z :=
  let M := 0x3ffffff in
  let g0 := u32 (h.[0] + 5) in let c := Z.shiftr g0 26 in let g0 := Z.land g0 M in
  let g1 := u32 (h.[1] + c) in let c := Z.shiftr g1 26 in let g1 := Z.land g1 M in
  let g2 := u32 (h.[2] + c) in let c := Z.shiftr g2 26 in let g2 := Z.land g2 M in
  let g3 := u32 (h.[3] + c) in let c := Z.shiftr g3 26 in let g3 := Z.land g3 M in
  [g0; g1; g2; g3; u32 (u32 (h.[4] + c) - 2 ^ 26)].
Definition freeze (h : list Z) : list Z :=
  let h := finish_carry h in
  let g := finish_sub h in
  let mask := u32 (Z.shiftr g.[4] 31 - 1) in
  let nmask := u32 (Z.lnot mask) in
  let pick h g := Z.lor (Z.land h nmask) (Z.land g mask) in
  [pick h.[0] g.[0]; pick h.[1] g.[1]; pick h.[2] g.[2]; pick h.[3] g.[3]; pick h.[4] g.[4]].

Definition add_pad (h pad : list Z) : list Z :=
  let w0 := Z.lor h.[0] (u32 (Z.shiftl h.[1] 26)) in
  let w1 := Z.lor (Z.shiftr h.[1] 6) (u32 (Z.shiftl h.[2] 20)) in
  let w2 := Z.lor (Z.shiftr h.[2] 12) (u32 (Z.shiftl h.[3] 14)) in
  let w3 := Z.lor (Z.shiftr h.[3] 18) (u32 (Z.shiftl h.[4] 8)) in
  let f0 := u64 (w0 + pad.[0]) in
  let f1 := u64 (u64 (w1 + pad.[1]) + Z.shiftr f0 32) in
  let f2 := u64 (u64 (w2 + pad.[2]) + Z.shiftr f1 32) in
  let f3 := u64 (u64 (w3 + pad.[3]) + Z.shiftr f2 32) in
  [u32 f0; u32 f1; u32 f2; u32 f3].

(** The tag, and the state wiped. *)
Definition poly1305_finish (st : poly1305) : list Z * poly1305 :=
  let st :=
    if (0 <? length (p_buf st))%nat
    then poly1305_block st (p_buf st ++ [1] ++ replicate (15 - length (p_buf st)) 0) 0
    else st in
  (bytes_from p32le (add_pad (freeze (p_h st)) (p_pad st)),
   mkPoly [0; 0; 0; 0; 0] [0; 0; 0; 0; 0] [0; 0; 0; 0] (p_buf st)).

(** The example of RFC 8439, 2.5.2. *)
Example poly1305_rfc :
  fst (poly1305_finish (poly1305_update (poly1305_init
    [0x85; 0xd6; 0xbe; 0x78; 0x57; 0x55; 0x6d; 0x33; 0x7f; 0x44; 0x52; 0xfe; 0x42; 0xd5; 0x06; 0xa8;
     0x01; 0x03; 0x80; 0x8a; 0xfb; 0x0d; 0xb2; 0xfd; 0x4a; 0xbf; 0xf6; 0xaf; 0x41; 0x49; 0xf5; 0x1b])
    [67; 114; 121; 112; 116; 111; 103; 114; 97; 112; 104; 105; 99; 32; 70; 111; 114; 117; 109; 32; 82;
     101; 115; 101; 97; 114; 99; 104; 32; 71; 114; 111; 117; 112])) =
  [0xa8; 0x06; 0x1d; 0xc1; 0x30; 0x51; 0x36; 0xc6; 0xc2; 0x2b; 0x8b; 0xaf; 0x0c; 0x01; 0x27; 0xa9].
Proof. by vm_compute. Qed.

(** * Limbs *)

Definition P : Z := 2 ^ 130 - 5.
Definition val5 (h : list Z) : Z :=
  h.[0] + 2 ^ 26 * h.[1] + 2 ^ 52 * h.[2] + 2 ^ 78 * h.[3] + 2 ^ 104 * h.[4].

Lemma land26 x : Z.land x 0x3ffffff = x mod 2 ^ 26.
Proof. by rewrite <-(Z.land_ones x 26). Qed.
Lemma low26 d : Z.land (u32 d) 0x3ffffff = d mod 2 ^ 26.
Proof.
  rewrite land26. unfold u32, wrap. apply Z.mod_mod_divide.
  exists (2 ^ 6). done.
Qed.
Lemma shr26 d : Z.shiftr d 26 = d / 2 ^ 26.
Proof. by apply Z.shiftr_div_pow2. Qed.

Lemma div26 d n : 0 <= d < n * 2 ^ 26 → 0 <= d / 2 ^ 26 < n ∧ d = 2 ^ 26 * (d / 2 ^ 26) + d mod 2 ^ 26 ∧ 0 <= d mod 2 ^ 26 < 2 ^ 26.
Proof.
  intros Hd. pose proof (Z.div_mod d (2 ^ 26) ltac:(done)). pose proof (Z.mod_pos_bound d (2 ^ 26) ltac:(done)).
  split; [|done]. split; [apply Z.div_pos; lia|apply Z.div_lt_upper_bound; lia].
Qed.

(** A block's accumulator after its carries. *)
Definition h_ok (h : list Z) : Prop :=
  length h = 5%nat ∧ 0 <= h.[0] < 2 ^ 26 ∧ 0 <= h.[1] < 2 ^ 26 + 64 ∧ 0 <= h.[2] < 2 ^ 26 ∧
  0 <= h.[3] < 2 ^ 26 ∧ 0 <= h.[4] < 2 ^ 26.

Lemma carries_spec d0 d1 d2 d3 d4 :
  0 <= d0 < 2 ^ 57 → 0 <= d1 < 2 ^ 57 → 0 <= d2 < 2 ^ 57 → 0 <= d3 < 2 ^ 57 → 0 <= d4 < 2 ^ 55 →
  h_ok (carries d0 d1 d2 d3 d4) ∧
  ∃ k, val5 (carries d0 d1 d2 d3 d4) = d0 + 2 ^ 26 * d1 + 2 ^ 52 * d2 + 2 ^ 78 * d3 + 2 ^ 104 * d4 - k * P.
Proof.
  intros B0 B1 B2 B3 B4. unfold carries. rewrite !low26, !shr26. unfold u32, u64.
  destruct (div26 d0 (2 ^ 31)) as (C0 & E0 & M0); [lia|].
  rewrite (wrap_small 32 (d0 / 2 ^ 26)) by lia.
  set (c0 := d0 / 2 ^ 26) in *. set (m0 := d0 mod 2 ^ 26) in *.
  rewrite (wrap_small 64 (d1 + c0)) by lia.
  destruct (div26 (d1 + c0) (2 ^ 32)) as (C1 & E1 & M1); [lia|].
  rewrite (wrap_small 32 ((d1 + c0) / 2 ^ 26)) by lia.
  set (c1 := (d1 + c0) / 2 ^ 26) in *. set (m1 := (d1 + c0) mod 2 ^ 26) in *.
  rewrite (wrap_small 64 (d2 + c1)) by lia.
  destruct (div26 (d2 + c1) (2 ^ 32)) as (C2 & E2 & M2); [lia|].
  rewrite (wrap_small 32 ((d2 + c1) / 2 ^ 26)) by lia.
  set (c2 := (d2 + c1) / 2 ^ 26) in *. set (m2 := (d2 + c1) mod 2 ^ 26) in *.
  rewrite (wrap_small 64 (d3 + c2)) by lia.
  destruct (div26 (d3 + c2) (2 ^ 32)) as (C3 & E3 & M3); [lia|].
  rewrite (wrap_small 32 ((d3 + c2) / 2 ^ 26)) by lia.
  set (c3 := (d3 + c2) / 2 ^ 26) in *. set (m3 := (d3 + c2) mod 2 ^ 26) in *.
  rewrite (wrap_small 64 (d4 + c3)) by lia.
  destruct (div26 (d4 + c3) (2 ^ 29 + 2 ^ 6)) as (C4 & E4 & M4); [lia|].
  rewrite (wrap_small 32 ((d4 + c3) / 2 ^ 26)) by lia.
  set (c4 := (d4 + c3) / 2 ^ 26) in *. set (m4 := (d4 + c3) mod 2 ^ 26) in *.
  rewrite (wrap_small 32 (c4 * 5)) by lia. rewrite (wrap_small 32 (m0 + c4 * 5)) by lia.
  destruct (div26 (m0 + c4 * 5) 64) as (C5 & E5 & M5); [lia|].
  rewrite (wrap_small 32 (m1 + (m0 + c4 * 5) / 2 ^ 26)) by lia.
  split; [unfold h_ok; cbn [nth length]; lia|].
  exists c4. unfold val5, P. cbn [nth]. lia.
Qed.

Lemma mul_bound a A b B : 0 <= a <= A → 0 <= b <= B → 0 <= a * b <= A * B.
Proof. intros. split; [|apply Z.mul_le_mono_nonneg]; nia. Qed.

(** A column stays inside 64 bits. *)
Lemma dot_bound A0 B0 A1 B1 A2 B2 A3 B3 A4 B4 a0 b0 a1 b1 a2 b2 a3 b3 a4 b4 :
  0 <= a0 <= A0 → 0 <= b0 <= B0 → 0 <= a1 <= A1 → 0 <= b1 <= B1 → 0 <= a2 <= A2 → 0 <= b2 <= B2 →
  0 <= a3 <= A3 → 0 <= b3 <= B3 → 0 <= a4 <= A4 → 0 <= b4 <= B4 →
  A0 * B0 + A1 * B1 + A2 * B2 + A3 * B3 + A4 * B4 < 2 ^ 64 →
  let s := a0 * b0 + a1 * b1 + a2 * b2 + a3 * b3 + a4 * b4 in
  dot a0 b0 a1 b1 a2 b2 a3 b3 a4 b4 = s ∧ 0 <= s <= A0 * B0 + A1 * B1 + A2 * B2 + A3 * B3 + A4 * B4.
Proof.
  intros Ha0 Hb0 Ha1 Hb1 Ha2 Hb2 Ha3 Hb3 Ha4 Hb4 Hs s.
  pose proof (mul_bound _ _ _ _ Ha0 Hb0) as M0. pose proof (mul_bound _ _ _ _ Ha1 Hb1) as M1.
  pose proof (mul_bound _ _ _ _ Ha2 Hb2) as M2. pose proof (mul_bound _ _ _ _ Ha3 Hb3) as M3.
  pose proof (mul_bound _ _ _ _ Ha4 Hb4) as M4. clear Ha0 Hb0 Ha1 Hb1 Ha2 Hb2 Ha3 Hb3 Ha4 Hb4.
  unfold dot, s, u64. generalize dependent (a0 * b0). generalize dependent (a1 * b1). generalize dependent (a2 * b2).
  generalize dependent (a3 * b3). generalize dependent (a4 * b4). generalize dependent (A0 * B0).
  generalize dependent (A1 * B1). generalize dependent (A2 * B2). generalize dependent (A3 * B3).
  generalize dependent (A4 * B4). intros. split; [|lia].
  rewrite (wrap_small 64 z8), (wrap_small 64 z7), (wrap_small 64 z6), (wrap_small 64 z5), (wrap_small 64 z4) by lia.
  rewrite (wrap_small 64 (z8 + z7)) by lia. rewrite (wrap_small 64 (_ + z6)) by lia.
  rewrite (wrap_small 64 (_ + z5)) by lia. by rewrite wrap_small by lia.
Qed.

Lemma in_bound a b c : 0 <= a <= b → b < c → 0 <= a < c.
Proof. lia. Qed.

Definition r_ok (r : list Z) : Prop :=
  length r = 5%nat ∧ 0 <= r.[0] < 2 ^ 26 ∧ 0 <= r.[1] < 2 ^ 26 ∧ 0 <= r.[2] < 2 ^ 26 ∧
  0 <= r.[3] < 2 ^ 26 ∧ 0 <= r.[4] < 2 ^ 20.
(** The accumulator with a block's limbs added. *)
Definition sum_ok (h : list Z) : Prop :=
  length h = 5%nat ∧ 0 <= h.[0] <= 2 ^ 27 ∧ 0 <= h.[1] <= 2 ^ 27 + 64 ∧ 0 <= h.[2] <= 2 ^ 27 ∧
  0 <= h.[3] <= 2 ^ 27 ∧ 0 <= h.[4] <= 2 ^ 26 + 2 ^ 25.

Lemma block_mul_spec r h : r_ok r → sum_ok h →
  h_ok (block_mul r h) ∧ ∃ k, val5 (block_mul r h) = val5 h * val5 r - k * P.
Proof.
  intros (_ & R0 & R1 & R2 & R3 & R4) (_ & H0 & H1 & H2 & H3 & H4). unfold block_mul, val5 at 2 3.
  set (r0 := r.[0]) in *. set (r1 := r.[1]) in *. set (r2 := r.[2]) in *. set (r3 := r.[3]) in *. set (r4 := r.[4]) in *.
  set (h0 := h.[0]) in *. set (h1 := h.[1]) in *. set (h2 := h.[2]) in *. set (h3 := h.[3]) in *. set (h4 := h.[4]) in *.
  clearbody r0 r1 r2 r3 r4 h0 h1 h2 h3 h4. clear r h. cbn zeta. unfold u32.
  rewrite (wrap_small 32 (r1 * 5)), (wrap_small 32 (r2 * 5)), (wrap_small 32 (r3 * 5)), (wrap_small 32 (r4 * 5)) by lia.
  assert (0 <= r1 * 5 <= 5 * 2 ^ 26 ∧ 0 <= r2 * 5 <= 5 * 2 ^ 26 ∧ 0 <= r3 * 5 <= 5 * 2 ^ 26 ∧ 0 <= r4 * 5 <= 5 * 2 ^ 20)
    as (S1 & S2 & S3 & S4) by lia.
  assert (0 <= r0 <= 2 ^ 26 ∧ 0 <= r1 <= 2 ^ 26 ∧ 0 <= r2 <= 2 ^ 26 ∧ 0 <= r3 <= 2 ^ 26 ∧ 0 <= r4 <= 2 ^ 20)
    as (Q0 & Q1 & Q2 & Q3 & Q4) by lia.
  clear R0 R1 R2 R3 R4.
  destruct (dot_bound _ _ _ _ _ _ _ _ _ _ h0 r0 h1 (r4 * 5) h2 (r3 * 5) h3 (r2 * 5) h4 (r1 * 5)
    H0 Q0 H1 S4 H2 S3 H3 S2 H4 S1 eq_refl) as [-> D0].
  destruct (dot_bound _ _ _ _ _ _ _ _ _ _ h0 r1 h1 r0 h2 (r4 * 5) h3 (r3 * 5) h4 (r2 * 5)
    H0 Q1 H1 Q0 H2 S4 H3 S3 H4 S2 eq_refl) as [-> D1].
  destruct (dot_bound _ _ _ _ _ _ _ _ _ _ h0 r2 h1 r1 h2 r0 h3 (r4 * 5) h4 (r3 * 5)
    H0 Q2 H1 Q1 H2 Q0 H3 S4 H4 S3 eq_refl) as [-> D2].
  destruct (dot_bound _ _ _ _ _ _ _ _ _ _ h0 r3 h1 r2 h2 r1 h3 r0 h4 (r4 * 5)
    H0 Q3 H1 Q2 H2 Q1 H3 Q0 H4 S4 eq_refl) as [-> D3].
  destruct (dot_bound _ _ _ _ _ _ _ _ _ _ h0 r4 h1 r3 h2 r2 h3 r1 h4 r0
    H0 Q4 H1 Q3 H2 Q2 H3 Q1 H4 Q0 eq_refl) as [-> D4].
  destruct (carries_spec _ _ _ _ _ (in_bound _ _ (2 ^ 57) D0 eq_refl) (in_bound _ _ (2 ^ 57) D1 eq_refl) (in_bound _ _ (2 ^ 57) D2 eq_refl)
    (in_bound _ _ (2 ^ 57) D3 eq_refl) (in_bound _ _ (2 ^ 55) D4 eq_refl)) as (Hh & k & E).
  split; [exact Hh|].
  exists (k + (h1 * r4 + h2 * r3 + h3 * r2 + h4 * r1 + 2 ^ 26 * (h2 * r4 + h3 * r3 + h4 * r2) +
          2 ^ 52 * (h3 * r4 + h4 * r3) + 2 ^ 78 * (h4 * r4))).
  rewrite E. unfold P. ring.
Qed.

(** A limb cut out of two adjacent words. *)
Lemma limb_cut s t t' : 0 <= s <= 26 → word_ok 32 t → word_ok 32 t' →
  Z.land (Z.lor (Z.shiftr t (32 - s)) (u32 (Z.shiftl t' s))) 0x3ffffff = t / 2 ^ (32 - s) + 2 ^ s * (t' mod 2 ^ (26 - s)).
Proof.
  intros Hs Ht Ht'. rewrite land26, Z.shiftr_div_pow2, Z.shiftl_mul_pow2 by lia. unfold u32, wrap.
  assert (t' * 2 ^ s mod 2 ^ 32 = Z.shiftl (t' mod 2 ^ (32 - s)) s) as ->.
  { rewrite Z.shiftl_mul_pow2 by lia. replace (2 ^ 32) with (2 ^ (32 - s) * 2 ^ s) by (rewrite <-Z.pow_add_r by lia; f_equal; lia).
    apply Z.mul_mod_distr_r; apply Z.pow_nonzero; lia. }
  assert (0 < 2 ^ s ∧ 0 < 2 ^ (26 - s) ∧ 0 < 2 ^ (32 - s)) as (P1 & P2 & P3).
  { split_and!; apply Z.pow_pos_nonneg; lia. }
  assert (0 <= t / 2 ^ (32 - s) < 2 ^ s) as Hd.
  { split; [apply Z.div_pos; [apply Ht|lia]|]. apply Z.div_lt_upper_bound; [lia|]. rewrite <-Z.pow_add_r by lia.
    replace (32 - s + s) with 32 by lia. apply Ht. }
  rewrite lor_add by lia. set (u := t' mod 2 ^ (32 - s)).
  assert (t' mod 2 ^ (26 - s) = u mod 2 ^ (26 - s)) as ->.
  { unfold u. symmetry. apply Z.mod_mod_divide. exists (2 ^ 6). rewrite <-Z.pow_add_r by lia. f_equal. lia. }
  pose proof (Z.div_mod u (2 ^ (26 - s)) ltac:(lia)) as Eu. pose proof (Z.mod_pos_bound u (2 ^ (26 - s)) ltac:(lia)) as Bu.
  set (q := u / 2 ^ (26 - s)) in *. set (w := u mod 2 ^ (26 - s)) in *.
  replace (t / 2 ^ (32 - s) + u * 2 ^ s) with (t / 2 ^ (32 - s) + 2 ^ s * w + q * (2 ^ s * 2 ^ (26 - s))) by (rewrite Eu; ring).
  rewrite <-Z.pow_add_r by lia. replace (s + (26 - s)) with 26 by lia. rewrite Z.mod_add by done.
  apply Z.mod_small. replace (2 ^ 26) with (2 ^ s * 2 ^ (26 - s)) by (rewrite <-Z.pow_add_r by lia; f_equal; lia). nia.
Qed.

Lemma words16 m : bytes_ok m → (16 <= length m)%nat →
  let t0 := u32le m in let t1 := u32le (drop 4 m) in let t2 := u32le (drop 8 m) in let t3 := u32le (drop 12 m) in
  word_ok 32 t0 ∧ word_ok 32 t1 ∧ word_ok 32 t2 ∧ word_ok 32 t3 ∧
  le_val (take 16 m) = t0 + 2 ^ 32 * t1 + 2 ^ 64 * t2 + 2 ^ 96 * t3.
Proof.
  intros Bm Hl. cbn zeta. split_and!; [apply u32le_ok; [by repeat (apply Forall_take || apply Forall_drop)|rewrite ?length_drop; lia]..|].
  rewrite !u32le_val by (first [by repeat (apply Forall_take || apply Forall_drop)|rewrite ?length_drop; lia]).
  replace (take 16 m) with (take 4 m ++ take 4 (drop 4 m) ++ take 4 (drop 8 m) ++ take 4 (drop 12 m)).
  2: { clear Bm. do 16 (destruct m as [|? m]; [cbn in Hl; lia|]). reflexivity. }
  rewrite !le_val_app, !length_take, !length_drop. rewrite !Nat.min_l by lia. change (256 ^ Z.of_nat 4) with (2 ^ 32). ring.
Qed.

(** The five limbs of a block are its number. *)
Definition t_ok (t : list Z) : Prop :=
  0 <= t.[0] < 2 ^ 26 ∧ 0 <= t.[1] < 2 ^ 26 ∧ 0 <= t.[2] < 2 ^ 26 ∧ 0 <= t.[3] < 2 ^ 26 ∧ 0 <= t.[4] < 2 ^ 24.

Lemma div_word t n : 0 <= n <= 32 → word_ok 32 t →
  t = 2 ^ n * (t / 2 ^ n) + t mod 2 ^ n ∧ 0 <= t mod 2 ^ n < 2 ^ n ∧ 0 <= t / 2 ^ n < 2 ^ (32 - n).
Proof.
  intros Hn Ht. assert (0 < 2 ^ n) by (apply Z.pow_pos_nonneg; lia).
  pose proof (Z.div_mod t (2 ^ n) ltac:(lia)). pose proof (Z.mod_pos_bound t (2 ^ n) ltac:(lia)).
  split_and!; [lia..|apply Z.div_pos; [apply Ht|lia]|]. apply Z.div_lt_upper_bound; [lia|].
  rewrite <-Z.pow_add_r by lia. replace (n + (32 - n)) with 32 by lia. apply Ht.
Qed.

Lemma limbs_spec m : bytes_ok m → (16 <= length m)%nat →
  t_ok (limbs m) ∧ val5 (limbs m) = le_val (take 16 m).
Proof.
  intros Bm Hl. destruct (words16 m Bm Hl) as (W0 & W1 & W2 & W3 & ->). unfold limbs, t_ok, val5. cbn [nth].
  set (t0 := u32le m) in *. set (t1 := u32le (drop 4 m)) in *. set (t2 := u32le (drop 8 m)) in *. set (t3 := u32le (drop 12 m)) in *.
  pose proof (limb_cut 6 t0 t1 ltac:(lia) W0 W1) as L1. pose proof (limb_cut 12 t1 t2 ltac:(lia) W1 W2) as L2.
  pose proof (limb_cut 18 t2 t3 ltac:(lia) W2 W3) as L3. cbn [Z.sub Z.add Z.opp Z.pos_sub] in L1, L2, L3.
  change (32 - 6) with 26 in L1. change (26 - 6) with 20 in L1. change (32 - 12) with 20 in L2. change (26 - 12) with 14 in L2.
  change (32 - 18) with 14 in L3. change (26 - 18) with 8 in L3.
  rewrite L1, L2, L3, land26, Z.shiftr_div_pow2 by lia. clear L1 L2 L3.
  pose proof (div_word t0 26 ltac:(lia) W0). pose proof (div_word t1 20 ltac:(lia) W1).
  pose proof (div_word t2 14 ltac:(lia) W2). pose proof (div_word t3 8 ltac:(lia) W3). unfold word_ok in *. lia.
Qed.

(** * The authenticator of RFC 8439, 2.5 *)

Definition clamp (x : Z) : Z := Z.land x 0x0ffffffc0ffffffc0ffffffc0fffffff.
(** A message in blocks of 16 bytes, the last one possibly shorter. *)
Fixpoint cut16 (k : nat) (m : list Z) : list (list Z) :=
  match k, m with
  | O, _ | _, [] => []
  | S k, _ => take 16 m :: cut16 k (drop 16 m)
  end.
Definition poly_step (r a : Z) (b : list Z) : Z := (a + le_val (b ++ [1])) * r mod P.
Definition poly_eval (r : Z) (m : list Z) : Z := foldl (poly_step r) 0 (cut16 (length m) m).
Definition poly1305_tag (key m : list Z) : list Z :=
  le_bytes 16 (poly_eval (clamp (le_val (take 16 key))) m + le_val (take 16 (drop 16 key))).

(** ** The key *)

Lemma land_limb x m : Z.land 0x3ffffff m = m → Z.land x m = Z.land (Z.land x 0x3ffffff) m.
Proof. intros E. by rewrite <-Z.land_assoc, E. Qed.

Lemma init_r key : bytes_ok key → (32 <= length key)%nat →
  r_ok (p_r (poly1305_init key)) ∧ val5 (p_r (poly1305_init key)) = clamp (le_val (take 16 key)).
Proof.
  intros Bk Hl. destruct (limbs_spec key Bk ltac:(lia)) as [(T0 & T1 & T2 & T3 & T4) <-].
  unfold poly1305_init, limbs in *. cbn [p_r nth] in *. unfold val5, clamp, r_ok. cbn [nth length].
  rewrite (land_limb _ 0x3ffff03), (land_limb _ 0x3ffc0ff), (land_limb _ 0x3f03fff) by done.
  set (a0 := Z.land (u32le key) _) in *. set (a1 := Z.land (Z.lor (Z.shiftr (u32le key) 26) _) 0x3ffffff) in *.
  set (a2 := Z.land (Z.lor (Z.shiftr (u32le (drop 4 key)) 20) _) 0x3ffffff) in *.
  set (a3 := Z.land (Z.lor (Z.shiftr (u32le (drop 8 key)) 14) _) 0x3ffffff) in *.
  set (a4 := Z.shiftr (u32le (drop 12 key)) 8) in *. clearbody a0 a1 a2 a3 a4.
  split.
  { pose proof (land_ok 26 a1 0x3ffff03). pose proof (land_ok 26 a2 0x3ffc0ff). pose proof (land_ok 26 a3 0x3f03fff).
    pose proof (land_ok 20 0x00fffff a4). rewrite (Z.land_comm _ a4) in *. unfold word_ok in *. lia. }
  replace (a0 + 2 ^ 26 * a1 + 2 ^ 52 * a2 + 2 ^ 78 * a3 + 2 ^ 104 * a4)
    with (a0 + 2 ^ 26 * (a1 + 2 ^ 26 * (a2 + 2 ^ 26 * (a3 + 2 ^ 26 * a4)))) by ring.
  change 0x0ffffffc0ffffffc0ffffffc0fffffff with
    (0x3ffffff + 2 ^ 26 * (0x3ffff03 + 2 ^ 26 * (0x3ffc0ff + 2 ^ 26 * (0x3f03fff + 2 ^ 26 * 0x00fffff)))).
  rewrite !land_add by (unfold word_ok; lia).
  rewrite (land26 a0), Z.mod_small by lia. ring.
Qed.

(** ** A block *)

Lemma mod_eq a b k : a = b - k * P → a mod P = b mod P.
Proof. intros ->. replace (b - k * P) with (b + (- k) * P) by ring. by apply Z.mod_add. Qed.

Lemma block_spec st m b hi : bytes_ok m → (16 <= length m)%nat → r_ok (p_r st) → h_ok (p_h st) → hi = 0 ∨ hi = 1 →
  le_val b = le_val (take 16 m) + hi * 2 ^ 128 →
  h_ok (p_h (poly1305_block st m (hi * 2 ^ 24))) ∧
  val5 (p_h (poly1305_block st m (hi * 2 ^ 24))) mod P = (val5 (p_h st) + le_val b) * val5 (p_r st) mod P.
Proof.
  intros Bm Hl Hr (Hn & H0 & H1 & H2 & H3 & H4) Hhi Eb. destruct (limbs_spec m Bm Hl) as [(T0 & T1 & T2 & T3 & T4) Et].
  unfold poly1305_block. cbn [p_h]. unfold u32.
  assert (Z.lor (limbs m).[4] (hi * 2 ^ 24) = (limbs m).[4] + hi * 2 ^ 24) as ->.
  { rewrite <-(lor_add _ hi 24), Z.shiftl_mul_pow2 by lia. done. }
  rewrite !wrap_small by lia. cbn zeta.
  edestruct block_mul_spec as (Hh & k & E); [exact Hr| |split; [exact Hh|]].
  { unfold sum_ok. cbn [nth length]. lia. }
  rewrite (mod_eq _ _ _ E). do 2 f_equal. rewrite Eb, <-Et. unfold val5. cbn [nth]. ring.
Qed.

(** ** The final reduction *)

Lemma land_full w x : 0 <= w → word_ok w x → Z.land x (2 ^ w - 1) = x.
Proof. intros Hw Hx. rewrite Z.sub_1_r, <-Z.ones_equiv, Z.land_ones by done. by apply Z.mod_small. Qed.

Lemma pick_spec (h g m : Z) : word_ok 32 h → word_ok 32 g → m = 0 ∨ m = 1 →
  let mask := u32 (m - 1) in let nmask := u32 (Z.lnot mask) in
  Z.lor (Z.land h nmask) (Z.land g mask) = if decide (m = 1) then h else g.
Proof.
  intros Hh Hg [-> | ->]; cbn zeta; case_decide; try done.
  - change (u32 (Z.lnot _)) with 0. change (u32 (0 - 1)) with (2 ^ 32 - 1). by rewrite Z.land_0_r, land_full.
  - change (u32 (Z.lnot _)) with (2 ^ 32 - 1). change (u32 (1 - 1)) with 0. by rewrite Z.land_0_r, Z.lor_0_r, land_full.
Qed.

Definition l_ok (g : list Z) : Prop :=
  0 <= g.[0] < 2 ^ 26 ∧ 0 <= g.[1] < 2 ^ 26 ∧ 0 <= g.[2] < 2 ^ 26 ∧ 0 <= g.[3] < 2 ^ 26 ∧ 0 <= g.[4] < 2 ^ 26.

(** The last carry stops at the second limb: it exists only if that limb was cut to less than 64. *)
Lemma finish_carry_spec h : h_ok h →
  let g := finish_carry h in
  l_ok g ∧ ∃ k, val5 g = val5 h - k * P.
Proof.
  intros (_ & H0 & H1 & H2 & H3 & H4). unfold finish_carry, val5 at 2.
  set (h0 := h.[0]) in *. set (h1 := h.[1]) in *. set (h2 := h.[2]) in *. set (h3 := h.[3]) in *. set (h4 := h.[4]) in *.
  clearbody h0 h1 h2 h3 h4. clear h. rewrite !land26, !shr26. cbn zeta. unfold u32, val5. cbn [nth].
  destruct (div26 h1 2) as (C1 & E1 & M1); [lia|]. set (c1 := h1 / 2 ^ 26) in *. set (m1 := h1 mod 2 ^ 26) in *.
  rewrite (wrap_small 32 (h2 + c1)) by lia.
  destruct (div26 (h2 + c1) 2) as (C2 & E2 & M2); [lia|].
  set (c2 := (h2 + c1) / 2 ^ 26) in *. set (m2 := (h2 + c1) mod 2 ^ 26) in *.
  rewrite (wrap_small 32 (h3 + c2)) by lia.
  destruct (div26 (h3 + c2) 2) as (C3 & E3 & M3); [lia|].
  set (c3 := (h3 + c2) / 2 ^ 26) in *. set (m3 := (h3 + c2) mod 2 ^ 26) in *.
  rewrite (wrap_small 32 (h4 + c3)) by lia.
  destruct (div26 (h4 + c3) 2) as (C4 & E4 & M4); [lia|].
  set (c4 := (h4 + c3) / 2 ^ 26) in *. set (m4 := (h4 + c3) mod 2 ^ 26) in *.
  rewrite (wrap_small 32 (c4 * 5)), (wrap_small 32 (h0 + c4 * 5)) by lia.
  destruct (div26 (h0 + c4 * 5) 2) as (C0 & E0 & M0); [lia|].
  set (c0 := (h0 + c4 * 5) / 2 ^ 26) in *. set (m0 := (h0 + c4 * 5) mod 2 ^ 26) in *.
  rewrite (wrap_small 32 (m1 + c0)) by lia.
  split; [unfold l_ok; cbn [nth]; lia|]. exists c4. unfold P. lia.
Qed.

Lemma finish_sub_spec h : l_ok h →
  let g := finish_sub h in
  (0 <= g.[0] < 2 ^ 26 ∧ 0 <= g.[1] < 2 ^ 26 ∧ 0 <= g.[2] < 2 ^ 26 ∧ 0 <= g.[3] < 2 ^ 26) ∧
  (Z.shiftr g.[4] 31 = 1 ∧ word_ok 32 g.[4] ∧ val5 h < P ∨
   Z.shiftr g.[4] 31 = 0 ∧ 0 <= g.[4] < 2 ^ 26 ∧ val5 g = val5 h - P).
Proof.
  intros (H0 & H1 & H2 & H3 & H4). unfold finish_sub, val5. cbn zeta.
  set (h0 := h.[0]) in *. set (h1 := h.[1]) in *. set (h2 := h.[2]) in *. set (h3 := h.[3]) in *. set (h4 := h.[4]) in *.
  clearbody h0 h1 h2 h3 h4. clear h. rewrite !land26, !shr26. unfold u32. cbn [nth].
  rewrite (wrap_small 32 (h0 + 5)) by lia.
  destruct (div26 (h0 + 5) 2) as (C0 & E0 & M0); [lia|]. set (c0 := (h0 + 5) / 2 ^ 26) in *. set (m0 := (h0 + 5) mod 2 ^ 26) in *.
  rewrite (wrap_small 32 (h1 + c0)) by lia.
  destruct (div26 (h1 + c0) 2) as (C1 & E1 & M1); [lia|].
  set (c1 := (h1 + c0) / 2 ^ 26) in *. set (m1 := (h1 + c0) mod 2 ^ 26) in *.
  rewrite (wrap_small 32 (h2 + c1)) by lia.
  destruct (div26 (h2 + c1) 2) as (C2 & E2 & M2); [lia|].
  set (c2 := (h2 + c1) / 2 ^ 26) in *. set (m2 := (h2 + c1) mod 2 ^ 26) in *.
  rewrite (wrap_small 32 (h3 + c2)) by lia.
  destruct (div26 (h3 + c2) 2) as (C3 & E3 & M3); [lia|].
  set (c3 := (h3 + c2) / 2 ^ 26) in *. set (m3 := (h3 + c2) mod 2 ^ 26) in *.
  rewrite (wrap_small 32 (h4 + c3)) by lia. split; [lia|]. rewrite Z.shiftr_div_pow2 by lia. unfold word_ok, P.
  destruct (Z.lt_ge_cases (h4 + c3) (2 ^ 26)).
  - left. assert (wrap 32 (h4 + c3 - 2 ^ 26) = h4 + c3 - 2 ^ 26 + 2 ^ 32) as ->.
    { unfold wrap. rewrite <-(Z.mod_add _ 1) by done. apply Z.mod_small. lia. }
    split; [|lia]. symmetry. apply (Z.div_unique _ _ 1 (h4 + c3 - 2 ^ 26 + 2 ^ 31)); lia.
  - right. rewrite wrap_small by lia. split; [apply Z.div_small; lia|lia].
Qed.

Lemma freeze_spec h : h_ok h → l_ok (freeze h) ∧ val5 (freeze h) = val5 h mod P.
Proof.
  intros H. destruct (finish_carry_spec h H) as (B & k & E). destruct (finish_sub_spec _ B) as [G S].
  unfold freeze. set (c := finish_carry h) in *. set (g := finish_sub c) in *. clearbody c g.
  assert (0 <= val5 c < 2 * P) as V by (unfold l_ok, val5, P in *; lia).
  rewrite (mod_eq (val5 h) (val5 c) (- k)) by lia.
  assert (word_ok 32 g.[4]) as G4 by (unfold word_ok in *; lia).
  cbn zeta. rewrite !pick_spec by (unfold l_ok, word_ok in *; lia).
  destruct S as [(S & _ & Lt)|(S & B4 & Ev)]; rewrite S; case_decide; try done; unfold l_ok, val5; cbn [nth];
    (split; [unfold l_ok in *; cbn [nth]; lia|]).
  - fold (val5 c). rewrite Z.mod_small; lia.
  - fold (val5 g). rewrite Ev, <-(Z.mod_add (val5 c) (-1)) by done. rewrite Z.mod_small; [lia|].
    rewrite <-Z.add_opp_r, <-Z.mul_opp_l in *. unfold l_ok, val5 in *. lia.
Qed.

Lemma word_join s a b : 0 <= s <= 32 → 0 <= a < 2 ^ s →
  Z.lor a (u32 (Z.shiftl b s)) = a + 2 ^ s * (b mod 2 ^ (32 - s)).
Proof.
  intros Hs Ha. rewrite Z.shiftl_mul_pow2 by lia. unfold u32, wrap.
  assert (0 < 2 ^ s ∧ 0 < 2 ^ (32 - s)) as [P1 P2] by (split; apply Z.pow_pos_nonneg; lia).
  replace (2 ^ 32) with (2 ^ (32 - s) * 2 ^ s) by (rewrite <-Z.pow_add_r by lia; f_equal; lia).
  rewrite Z.mul_mod_distr_r, <-Z.shiftl_mul_pow2, lor_add by lia. ring.
Qed.
Lemma split_at n m x : 0 <= n → 0 < m → 0 <= x < m * 2 ^ n →
  x = 2 ^ n * (x / 2 ^ n) + x mod 2 ^ n ∧ 0 <= x mod 2 ^ n < 2 ^ n ∧ 0 <= x / 2 ^ n < m.
Proof.
  intros Hn Hm Hx. assert (0 < 2 ^ n) by (by apply Z.pow_pos_nonneg).
  pose proof (Z.div_mod x (2 ^ n) ltac:(lia)). pose proof (Z.mod_pos_bound x (2 ^ n) ltac:(lia)).
  split_and!; [lia..|apply Z.div_pos; lia|apply Z.div_lt_upper_bound; lia].
Qed.

(** The low word of a sum written out, its carry left with the rest. *)
Lemma carry_bytes k f x c :
  le_bytes (4 + k) (f + 2 ^ 32 * x + c) = p32le (u32 (f + c)) ++ le_bytes k (x + (f + c) / 2 ^ 32).
Proof.
  rewrite le_bytes_app, p32le_bytes. change (256 ^ Z.of_nat 4) with (2 ^ 32).
  replace (f + 2 ^ 32 * x + c) with (f + c + x * 2 ^ 32) by ring.
  rewrite Z.div_add by done. f_equal; [|f_equal; lia].
  unfold u32, wrap. rewrite <-(le_bytes_mod 4 4) by lia. change (256 ^ Z.of_nat 4) with (2 ^ 32).
  by rewrite Z.mod_add.
Qed.

Lemma add_pad_spec h pad : l_ok h → length pad = 4%nat → words_ok 32 pad →
  bytes_from p32le (add_pad h pad) =
  le_bytes 16 (val5 h + (pad.[0] + 2 ^ 32 * pad.[1] + 2 ^ 64 * pad.[2] + 2 ^ 96 * pad.[3])).
Proof.
  intros (H0 & H1 & H2 & H3 & H4) Hl Hp. destruct pad as [|p0 [|p1 [|p2 [|p3 [|? pad]]]]]; try done.
  repeat match goal with H : words_ok _ (_ :: _) |- _ => apply Forall_cons in H as [? H] end.
  unfold add_pad, val5, bytes_from. cbn [nth flat_map]. rewrite !Z.shiftr_div_pow2 by lia.
  destruct (split_at 6 (2 ^ 20) h.[1]) as (E1 & M1 & D1); [lia..|].
  destruct (split_at 12 (2 ^ 14) h.[2]) as (E2 & M2 & D2); [lia..|].
  destruct (split_at 18 (2 ^ 8) h.[3]) as (E3 & M3 & D3); [lia..|].
  destruct (split_at 24 (2 ^ 2) h.[4]) as (E4 & M4 & D4); [lia..|].
  rewrite !word_join by lia.
  change (32 - 26) with 6. change (32 - 20) with 12. change (32 - 14) with 18. change (32 - 8) with 24.
  set (w0 := h.[0] + _). set (w1 := h.[1] / 2 ^ 6 + _). set (w2 := h.[2] / 2 ^ 12 + _). set (w3 := h.[3] / 2 ^ 18 + _).
  assert (0 <= w0 < 2 ^ 32 ∧ 0 <= w1 < 2 ^ 32 ∧ 0 <= w2 < 2 ^ 32 ∧ 0 <= w3 < 2 ^ 32) as (W0 & W1 & W2 & W3) by lia.
  transitivity (le_bytes (4 + (4 + (4 + (4 + 0)))) (w0 + p0 + 2 ^ 32 * (w1 + p1 + 2 ^ 32 * (w2 + p2 + 2 ^ 32 * (w3 + p3 + 2 ^ 32 * (h.[4] / 2 ^ 24)))))).
  - rewrite <-(Z.add_0_r (w0 + p0 + _)), !carry_bytes, Z.add_0_r. cbn [le_bytes].
    unfold u64, word_ok in *. rewrite (wrap_small 64 (w0 + p0)), (wrap_small 64 (w1 + p1)), (wrap_small 64 (w2 + p2)), (wrap_small 64 (w3 + p3)) by lia.
    assert (∀ c, 0 <= c < 2 ^ 33 → 0 <= c / 2 ^ 32 < 2) as Hc by (intros; split; [apply Z.div_pos|apply Z.div_lt_upper_bound]; lia).
    pose proof (Hc (w0 + p0) ltac:(lia)) as C0. set (c0 := (w0 + p0) / 2 ^ 32) in *. rewrite (wrap_small 64 (w1 + p1 + c0)) by lia.
    pose proof (Hc (w1 + p1 + c0) ltac:(lia)) as C1. set (c1 := (w1 + p1 + c0) / 2 ^ 32) in *. rewrite (wrap_small 64 (w2 + p2 + c1)) by lia.
    pose proof (Hc (w2 + p2 + c1) ltac:(lia)) as C2. set (c2 := (w2 + p2 + c1) / 2 ^ 32) in *. by rewrite (wrap_small 64 (w3 + p3 + c2)) by lia.
  - f_equal. lia.
Qed.

(** ** The message, however it is cut *)

(** The state after the blocks [bs] of a message under [key]. *)
Definition blocks_in (key : list Z) (bs : list (list Z)) (st : poly1305) : Prop :=
  p_r st = p_r (poly1305_init key) ∧ p_pad st = p_pad (poly1305_init key) ∧ h_ok (p_h st) ∧
  val5 (p_h st) mod P = foldl (poly_step (val5 (p_r st))) 0 bs.
Definition full (b : list Z) : Prop := length b = 16%nat.
(** The state after the bytes [m]: full blocks, and what the buffer still holds. *)
Definition absorbed (key m : list Z) (st : poly1305) : Prop :=
  ∃ bs, m = concat bs ++ p_buf st ∧ Forall full bs ∧ (length (p_buf st) < 16)%nat ∧ bytes_ok (p_buf st) ∧ blocks_in key bs st.

Lemma poly_step_mod r a a' b : a mod P = a' mod P → poly_step r a b = poly_step r a' b.
Proof. intros E. unfold poly_step. rewrite (Z.mul_mod (a + _)), (Z.add_mod a), E, <-Z.add_mod, <-Z.mul_mod by done. done. Qed.

Lemma poly_fold_mod r bs : foldl (poly_step r) 0 bs mod P = foldl (poly_step r) 0 bs.
Proof.
  induction bs as [|b bs _] using rev_ind; [done|]. rewrite foldl_app. cbn. unfold poly_step at 1 3. by rewrite Z.mod_mod.
Qed.

Section key.
Context (key : list Z) (Bk : bytes_ok key) (Lk : (32 <= length key)%nat).

Lemma blocks_step bs st m b hi : blocks_in key bs st → bytes_ok m → (16 <= length m)%nat → hi = 0 ∨ hi = 1 →
  le_val (b ++ [1]) = le_val (take 16 m) + hi * 2 ^ 128 →
  blocks_in key (bs ++ [b]) (poly1305_block st m (hi * 2 ^ 24)).
Proof.
  intros (Er & Ep & Hh & Ev) Bm Hl Hhi Eb. destruct (init_r key Bk ltac:(lia)) as [Hr _]. rewrite <-Er in Hr.
  destruct (block_spec st m (b ++ [1]) hi) as [Hh' Ev']; [done..|]. split_and!; [exact Er|exact Ep|exact Hh'|].
  rewrite Ev'. cbn [p_r poly1305_block]. rewrite foldl_app. cbn [foldl]. change ((val5 (p_h st) + le_val (b ++ [1])) * val5 (p_r st) mod P)
    with (poly_step (val5 (p_r st)) (val5 (p_h st)) b).
  apply poly_step_mod. by rewrite Ev, poly_fold_mod.
Qed.

Lemma blocks_full bs st m : blocks_in key bs st → bytes_ok m → (16 <= length m)%nat →
  blocks_in key (bs ++ [take 16 m]) (poly1305_block st m (2 ^ 24)).
Proof.
  intros H Bm Hl. apply (blocks_step bs st m (take 16 m) 1); [done..|lia|].
  rewrite le_val_app, length_take, Nat.min_l by lia. change (256 ^ Z.of_nat 16) with (2 ^ 128). cbn [le_val]. lia.
Qed.

Lemma update_loop_spec k : ∀ bs st m, (length m <= k)%nat → blocks_in key bs st → bytes_ok m →
  let (st', m') := update_loop k st m in
  ∃ bs', concat bs' ++ m' = m ∧ Forall full bs' ∧ (length m' < 16)%nat ∧ bytes_ok m' ∧
    blocks_in key (bs ++ bs') st' ∧ p_buf st' = p_buf st.
Proof.
  induction k as [|k IH]; intros bs st m Hk H Bm; cbn [update_loop].
  { exists []. rewrite app_nil_r. split_and!; [done|done|lia|done..]. }
  destruct (Nat.leb_spec 16 (length m)).
  2: { exists []. rewrite app_nil_r. by split_and!. }
  assert (bytes_ok (drop 16 m)) as Bd by (by apply Forall_drop).
  specialize (IH _ _ (drop 16 m) ltac:(rewrite length_drop; lia) (blocks_full bs st m H Bm ltac:(lia)) Bd).
  destruct (update_loop k _ _) as [st' m']. destruct IH as (bs' & E & F & L & B & I & Eb).
  exists (take 16 m :: bs'). split_and!; [|constructor; [by unfold full; rewrite length_take, Nat.min_l|done]|done|done| |done].
  - cbn [concat]. by rewrite <-app_assoc, E, take_drop.
  - by rewrite <-app_assoc in I.
Qed.

Lemma update_rest m st x : absorbed key m st → p_buf st = [] → bytes_ok x →
  absorbed key (m ++ x) (let (st, y) := update_loop (length x) st x in set_buf (p_buf st ++ y) st).
Proof.
  intros (bs & -> & F & _ & _ & I) Eb Bx. pose proof (update_loop_spec (length x) bs st x (le_n _) I Bx) as U.
  destruct (update_loop _ _ _) as [st' y]. destruct U as (bs' & <- & F' & L & B & I' & Eb').
  exists (bs ++ bs'). rewrite Eb', Eb. cbn [set_buf p_buf app]. rewrite app_nil_r, concat_app, app_assoc.
  by split_and!; [|by apply Forall_app| | |].
Qed.

Lemma update_spec m st x : absorbed key m st → bytes_ok x → absorbed key (m ++ x) (poly1305_update st x).
Proof.
  intros A Bx. unfold poly1305_update. destruct (Nat.ltb_spec 0 (length (p_buf st))) as [Hb|Hb].
  2: { apply update_rest; [done| |done]. destruct (p_buf st); [done|cbn in Hb; lia]. }
  destruct A as (bs & -> & F & L & B & I). set (b := p_buf st) in *.
  destruct (Nat.ltb_spec (length x) (16 - length b)).
  - rewrite take_ge, drop_ge by lia. cbn [set_buf p_buf]. rewrite (proj2 (Nat.eqb_neq _ _)) by (rewrite length_app; lia).
    cbn [length update_loop set_buf p_buf]. rewrite app_nil_r. exists bs. cbn [p_buf set_buf].
    split_and!; [by rewrite app_assoc|done|rewrite length_app; lia|by apply Forall_app|exact I].
  - cbn [set_buf p_buf]. set (y := take (16 - length b) x).
    assert (length (b ++ y) = 16%nat) as Ly by (unfold y; rewrite length_app, length_take; lia).
    rewrite Ly, Nat.eqb_refl. rewrite <-(take_drop (16 - length b) x) at 1. fold y.
    rewrite app_assoc. apply update_rest; [|done|by apply Forall_drop].
    assert (bytes_ok (b ++ y)) by (apply Forall_app; split; [done|by apply Forall_take]).
    exists (bs ++ [b ++ y]). cbn [set_buf p_buf]. rewrite concat_app, app_nil_r. cbn [concat]. rewrite app_nil_r, app_assoc.
    split_and!; [done|apply Forall_app; split; [done|by constructor]|cbn; lia|constructor|].
    rewrite <-(take_ge (b ++ y) 16) at 1 by lia. apply (blocks_full bs (set_buf (b ++ y) st)); [exact I|done|lia].
Qed.

Lemma cut16_app bs b k : Forall full bs → (length b < 16)%nat → (length (concat bs ++ b) <= k)%nat →
  cut16 k (concat bs ++ b) = bs ++ (if decide (b = []) then [] else [b]).
Proof.
  intros F Lb. revert k. induction F as [|x bs Hx F IH]; intros k Hk; cbn [concat app] in *.
  - case_decide as D; [subst; by destruct k|]. destruct b as [|z b]; [done|]. destruct k as [|k]; [cbn in Hk; lia|].
    cbn [cut16]. rewrite take_ge, drop_ge by lia. by destruct k.
  - rewrite <-app_assoc in *. unfold full in Hx. destruct k as [|k]; [rewrite length_app in Hk; lia|].
    cbn [cut16]. destruct (x ++ concat bs ++ b) as [|z w] eqn:Ew; [by destruct x|]. rewrite <-Ew in *.
    rewrite take_app_length', drop_app_length' by done. rewrite IH by (rewrite length_app in Hk; lia). done.
Qed.

Lemma le_val_zeros n : le_val (replicate n 0) = 0.
Proof. induction n as [|n IH]; [done|]. cbn [replicate le_val]. lia. Qed.

Lemma finish_spec m st : absorbed key m st → fst (poly1305_finish st) = poly1305_tag key m.
Proof.
  intros (bs & -> & F & L & B & I). destruct (init_r key Bk ltac:(lia)) as [_ Er].
  unfold poly1305_tag, poly_eval. rewrite (cut16_app bs (p_buf st)) by done. rewrite <-Er.
  set (st' := if (0 <? length (p_buf st))%nat 
    then poly1305_block st (p_buf st ++ [1] ++ replicate (15 - length (p_buf st)) 0) 0 else st).
  assert (blocks_in key (bs ++ (if decide (p_buf st = []) then [] else [p_buf st])) st') as (R & Ep & Hh & Ev).
  { unfold st'. destruct (Nat.ltb_spec 0 (length (p_buf st))) as [Hb|Hb]; case_decide as D.
    - rewrite D in Hb. cbn in Hb. lia.
    - apply (blocks_step bs st _ (p_buf st) 0); [done| |rewrite length_app; cbn [length app]; rewrite length_replicate; lia|lia|].
      { apply Forall_app; split; [done|]. constructor; [done|]. by apply Forall_replicate. }
      rewrite take_ge by (rewrite length_app; cbn [length app]; rewrite length_replicate; lia).
      rewrite !le_val_app. cbn [app le_val]. rewrite le_val_zeros. lia.
    - by rewrite app_nil_r.
    - destruct (p_buf st); [done|cbn in Hb; lia]. }
  unfold poly1305_finish. fold st'. cbn [fst]. destruct (freeze_spec _ Hh) as [Hl Ef].
  rewrite Ep. cbn [poly1305_init p_pad].
  assert (bytes_ok (drop 16 key)) as Bp by (by apply Forall_drop).
  destruct (words16 (drop 16 key) Bp ltac:(rewrite length_drop; lia)) as (W0 & W1 & W2 & W3 & E).
  assert (words_ok 32 (words_at u32le 4 4 (drop 16 key))) as Wp by exact (Forall_cons_2 _ _ _ W0
    (Forall_cons_2 _ _ _ W1 (Forall_cons_2 _ _ _ W2 (Forall_cons_2 _ _ _ W3 (Forall_nil_2 _))))).
  rewrite add_pad_spec by done. rewrite Ef, Ev, E, R. done.
Qed.
End key.

Lemma init_absorbed key : bytes_ok key → (32 <= length key)%nat → absorbed key [] (poly1305_init key).
Proof. intros Bk Lk. exists []. cbn [p_buf poly1305_init]. split_and!; [done..|cbn; lia|done|]. by split_and!. Qed.

(** C36: The authenticator is RFC 8439's, however the caller cuts the message into updates:
    the tag is the blocks' polynomial in the clamped key modulo 2^130 - 5, plus the pad,
    modulo 2^128.  No column overflows 64 bits and the final reduction is the canonical one. *)
Theorem poly1305_correct (key : list Z) (ms : list (list Z))
  (Bk : bytes_ok key) (Lk : (32 <= length key)%nat) (Bm : Forall bytes_ok ms) :
  fst (poly1305_finish (foldl poly1305_update (poly1305_init key) ms)) = poly1305_tag key (concat ms).
Proof.
  apply finish_spec; [done..|]. induction ms as [|x ms IH] using rev_ind; [by apply init_absorbed|].
  apply Forall_app in Bm as [Bm [Bx _]%Forall_cons]. rewrite foldl_app, concat_app. cbn [foldl concat]. rewrite app_nil_r.
  apply update_spec; [done..|by apply IH|done].
Qed.

Lemma poly1305_correct_witness :
  fst (poly1305_finish (foldl poly1305_update (poly1305_init (repeat 7 32)) [[1; 2; 3]; repeat 4 20; [5]])) =
  poly1305_tag (repeat 7 32) (concat [[1; 2; 3]; repeat 4 20; [5]]).
Proof.
  apply (poly1305_correct (repeat 7 32) [[1; 2; 3]; repeat 4 20; [5]]);
    [by apply (bool_decide_unpack _)|by apply (bool_decide_unpack _)|repeat constructor; done].
Defined.
