(* ===== verification/Sha.v ===== *)
(** SHA-256 and SHA-512: the compression functions of src/src/native.c.

    A run of blocks goes through the state, which crosses the interface as its big-endian
    bytes.  The theorems: the code is the hash computation of FIPS 180-4, with the round
    constants it derives from the cube roots of the primes; and a message may be hashed in
    any number of runs. *)

From S2P Require Import Prelude NativeBase.
From stdpp Require Import prelude list.
From Stdlib Require Import ZArith Lia.
Open Scope Z_scope.

(** * The code *)

Definition ROTR32 (x n : Z) : Z := Z.lor (Z.shiftr x n) (u32 (Z.shiftl x (32 - n))).
Definition ROTR64 (x n : Z) : Z := Z.lor (Z.shiftr x n) (u64 (Z.shiftl x (64 - n))).
Definition add32 (x y : Z) : Z := u32 (x + y).
Definition add64 (x y : Z) : Z := u64 (x + y).

Definition SHA256_K : list Z := concat
  [[0x428a2f98; 0x71374491; 0xb5c0fbcf; 0xe9b5dba5]; [0x3956c25b; 0x59f111f1; 0x923f82a4; 0xab1c5ed5];
   [0xd807aa98; 0x12835b01; 0x243185be; 0x550c7dc3]; [0x72be5d74; 0x80deb1fe; 0x9bdc06a7; 0xc19bf174];
   [0xe49b69c1; 0xefbe4786; 0x0fc19dc6; 0x240ca1cc]; [0x2de92c6f; 0x4a7484aa; 0x5cb0a9dc; 0x76f988da];
   [0x983e5152; 0xa831c66d; 0xb00327c8; 0xbf597fc7]; [0xc6e00bf3; 0xd5a79147; 0x06ca6351; 0x14292967];
   [0x27b70a85; 0x2e1b2138; 0x4d2c6dfc; 0x53380d13]; [0x650a7354; 0x766a0abb; 0x81c2c92e; 0x92722c85];
   [0xa2bfe8a1; 0xa81a664b; 0xc24b8b70; 0xc76c51a3]; [0xd192e819; 0xd6990624; 0xf40e3585; 0x106aa070];
   [0x19a4c116; 0x1e376c08; 0x2748774c; 0x34b0bcb5]; [0x391c0cb3; 0x4ed8aa4a; 0x5b9cca4f; 0x682e6ff3];
   [0x748f82ee; 0x78a5636f; 0x84c87814; 0x8cc70208]; [0x90befffa; 0xa4506ceb; 0xbef9a3f7; 0xc67178f2]].

(** The words w[0..i) are filled; one more. *)
Definition expand256 (w : list Z) (i : nat) : list Z :=
  let s0 := Z.lxor (Z.lxor (ROTR32 w.[i - 15] 7) (ROTR32 w.[i - 15] 18)) (Z.shiftr w.[i - 15] 3) in
  let s1 := Z.lxor (Z.lxor (ROTR32 w.[i - 2] 17) (ROTR32 w.[i - 2] 19)) (Z.shiftr w.[i - 2] 10) in
  w ++ [add32 (add32 (add32 w.[i - 16] s0) w.[i - 7]) s1].

(** One round on the variables a to hh. *)
Definition round256 (w v : list Z) (i : nat) : list Z :=
  let a := v.[0] in let b := v.[1] in let c := v.[2] in let d := v.[3] in
  let e := v.[4] in let f := v.[5] in let g := v.[6] in let hh := v.[7] in
  let s1 := Z.lxor (Z.lxor (ROTR32 e 6) (ROTR32 e 11)) (ROTR32 e 25) in
  let t1 := add32 (add32 (add32 (add32 hh s1) (Z.lxor (Z.land e f) (Z.land (u32 (Z.lnot e)) g))) SHA256_K.[i]) w.[i] in
  let s0 := Z.lxor (Z.lxor (ROTR32 a 2) (ROTR32 a 13)) (ROTR32 a 22) in
  let t2 := add32 s0 (Z.lxor (Z.lxor (Z.land a b) (Z.land a c)) (Z.land b c)) in
  [add32 t1 t2; a; b; c; add32 d t1; e; f; g].

Definition block256 (h p : list Z) : list Z :=
  let w := foldl expand256 (words_at u32be 4 16 p) (seq 16 48) in
  zip_with add32 h (foldl (round256 w) h (seq 0 64)).

Fixpoint loop256 (nblocks : nat) (h p : list Z) : list Z :=
  match nblocks with
  | O => h
  | S n => loop256 n (block256 h p) (drop 64 p)
  end.
Definition sha256_blocks (state p : list Z) (nblocks : nat) : list Z :=
  bytes_from p32be (loop256 nblocks (words_at u32be 4 8 state) p).

Definition SHA512_K : list Z := concat
  [[0x428a2f98d728ae22; 0x7137449123ef65cd]; [0xb5c0fbcfec4d3b2f; 0xe9b5dba58189dbbc];
   [0x3956c25bf348b538; 0x59f111f1b605d019]; [0x923f82a4af194f9b; 0xab1c5ed5da6d8118];
   [0xd807aa98a3030242; 0x12835b0145706fbe]; [0x243185be4ee4b28c; 0x550c7dc3d5ffb4e2];
   [0x72be5d74f27b896f; 0x80deb1fe3b1696b1]; [0x9bdc06a725c71235; 0xc19bf174cf692694];
   [0xe49b69c19ef14ad2; 0xefbe4786384f25e3]; [0x0fc19dc68b8cd5b5; 0x240ca1cc77ac9c65];
   [0x2de92c6f592b0275; 0x4a7484aa6ea6e483]; [0x5cb0a9dcbd41fbd4; 0x76f988da831153b5];
   [0x983e5152ee66dfab; 0xa831c66d2db43210]; [0xb00327c898fb213f; 0xbf597fc7beef0ee4];
   [0xc6e00bf33da88fc2; 0xd5a79147930aa725]; [0x06ca6351e003826f; 0x142929670a0e6e70];
   [0x27b70a8546d22ffc; 0x2e1b21385c26c926]; [0x4d2c6dfc5ac42aed; 0x53380d139d95b3df];
   [0x650a73548baf63de; 0x766a0abb3c77b2a8]; [0x81c2c92e47edaee6; 0x92722c851482353b];
   [0xa2bfe8a14cf10364; 0xa81a664bbc423001]; [0xc24b8b70d0f89791; 0xc76c51a30654be30];
   [0xd192e819d6ef5218; 0xd69906245565a910]; [0xf40e35855771202a; 0x106aa07032bbd1b8];
   [0x19a4c116b8d2d0c8; 0x1e376c085141ab53]; [0x2748774cdf8eeb99; 0x34b0bcb5e19b48a8];
   [0x391c0cb3c5c95a63; 0x4ed8aa4ae3418acb]; [0x5b9cca4f7763e373; 0x682e6ff3d6b2b8a3];
   [0x748f82ee5defb2fc; 0x78a5636f43172f60]; [0x84c87814a1f0ab72; 0x8cc702081a6439ec];
   [0x90befffa23631e28; 0xa4506cebde82bde9]; [0xbef9a3f7b2c67915; 0xc67178f2e372532b];
   [0xca273eceea26619c; 0xd186b8c721c0c207]; [0xeada7dd6cde0eb1e; 0xf57d4f7fee6ed178];
   [0x06f067aa72176fba; 0x0a637dc5a2c898a6]; [0x113f9804bef90dae; 0x1b710b35131c471b];
   [0x28db77f523047d84; 0x32caab7b40c72493]; [0x3c9ebe0a15c9bebc; 0x431d67c49c100d4c];
   [0x4cc5d4becb3e42b6; 0x597f299cfc657e2a]; [0x5fcb6fab3ad6faec; 0x6c44198c4a475817]].

Definition expand512 (w : list Z) (i : nat) : list Z :=
  let s0 := Z.lxor (Z.lxor (ROTR64 w.[i - 15] 1) (ROTR64 w.[i - 15] 8)) (Z.shiftr w.[i - 15] 7) in
  let s1 := Z.lxor (Z.lxor (ROTR64 w.[i - 2] 19) (ROTR64 w.[i - 2] 61)) (Z.shiftr w.[i - 2] 6) in
  w ++ [add64 (add64 (add64 w.[i - 16] s0) w.[i - 7]) s1].

Definition round512 (w v : list Z) (i : nat) : list Z :=
  let a := v.[0] in let b := v.[1] in let c := v.[2] in let d := v.[3] in
  let e := v.[4] in let f := v.[5] in let g := v.[6] in let hh := v.[7] in
  let s1 := Z.lxor (Z.lxor (ROTR64 e 14) (ROTR64 e 18)) (ROTR64 e 41) in
  let t1 := add64 (add64 (add64 (add64 hh s1) (Z.lxor (Z.land e f) (Z.land (u64 (Z.lnot e)) g))) SHA512_K.[i]) w.[i] in
  let s0 := Z.lxor (Z.lxor (ROTR64 a 28) (ROTR64 a 34)) (ROTR64 a 39) in
  let t2 := add64 s0 (Z.lxor (Z.lxor (Z.land a b) (Z.land a c)) (Z.land b c)) in
  [add64 t1 t2; a; b; c; add64 d t1; e; f; g].

Definition block512 (h p : list Z) : list Z :=
  let w := foldl expand512 (words_at u64be 8 16 p) (seq 16 64) in
  zip_with add64 h (foldl (round512 w) h (seq 0 80)).

Fixpoint loop512 (nblocks : nat) (h p : list Z) : list Z :=
  match nblocks with
  | O => h
  | S n => loop512 n (block512 h p) (drop 128 p)
  end.
Definition sha512_blocks (state p : list Z) (nblocks : nat) : list Z :=
  bytes_from p64be (loop512 nblocks (words_at u64be 8 8 state) p).

(** The one-block message abc of FIPS 180-4, from the initial value of SHA-256. *)
Example sha256_abc :
  sha256_blocks (bytes_from p32be [0x6a09e667; 0xbb67ae85; 0x3c6ef372; 0xa54ff53a; 0x510e527f; 0x9b05688c; 0x1f83d9ab; 0x5be0cd19])
    ([97; 98; 99; 128] ++ repeat 0 59 ++ [24]) 1 =
  bytes_from p32be [0xba7816bf; 0x8f01cfea; 0x414140de; 0x5dae2223; 0xb00361a3; 0x96177a9c; 0xb410ff61; 0xf20015ad].
Proof. by vm_compute. Qed.

(** * The hash computation of FIPS 180-4 *)

(** The largest r with r^e <= n, a bit at a time from 2^k down. *)
Fixpoint root (e n : Z) (k : nat) (r : Z) : Z :=
  match k with
  | O => r
  | S k => let r' := r + 2 ^ Z.of_nat k in root e n k (if r' ^ e <=? n then r' else r)
  end.
Definition prime (n : nat) : bool := forallb (λ d, negb (n mod d =? 0)%nat) (seq 2 (n - 2)).
Definition primes : list nat := List.filter prime (seq 2 409).
(** The first [w] bits of the fractional part of the cube root. *)
Definition cube_root_frac (w : Z) (p : nat) : Z := root 3 (Z.of_nat p * 2 ^ (3 * w)) 80 0 mod 2 ^ w.

(** The parameters of 4.1.2 and 4.1.3: the word size, the rounds, and the rotations of the
    four functions, the last of each sigma a shift. *)
Record sha_alg : Type := mkSha {
  s_w : Z;
  s_rounds : nat;
  s_S0 : Z * Z * Z;
  s_S1 : Z * Z * Z;
  s_s0 : Z * Z * Z;
  s_s1 : Z * Z * Z;
}.
Definition SHA256 : sha_alg := mkSha 32 64 (2, 13, 22) (6, 11, 25) (7, 18, 3) (17, 19, 10).
Definition SHA512 : sha_alg := mkSha 64 80 (28, 34, 39) (14, 18, 41) (1, 8, 7) (19, 61, 6).

(** The word with the given bits. *)
Fixpoint of_bits (f : Z → bool) (n : nat) : Z :=
  match n with
  | O => 0
  | S n => of_bits f n + Z.b2z (f (Z.of_nat n)) * 2 ^ Z.of_nat n
  end.

Section fips.
Context (A : sha_alg).
#[local] Abbreviation w := (s_w A).

Definition rotr (n x : Z) : Z := x / 2 ^ n + x mod 2 ^ n * 2 ^ (w - n).
Definition Sigma (r : Z * Z * Z) (x : Z) : Z :=
  let '(a, b, c) := r in Z.lxor (Z.lxor (rotr a x) (rotr b x)) (rotr c x).
Definition sigma (r : Z * Z * Z) (x : Z) : Z :=
  let '(a, b, c) := r in Z.lxor (Z.lxor (rotr a x) (rotr b x)) (x / 2 ^ c).
(** The word whose bits are [f] of the bits of three words. *)
Definition bitwise (f : bool → bool → bool → bool) (x y z : Z) : Z :=
  of_bits (λ i, f (Z.testbit x i) (Z.testbit y i) (Z.testbit z i)) (Z.to_nat w).
Definition Ch : Z → Z → Z → Z := bitwise (λ x y z, if x then y else z).
Definition Maj : Z → Z → Z → Z := bitwise (λ x y z, x && y || x && z || y && z).

Definition fips_K (t : nat) : Z := cube_root_frac w (nth t primes 0%nat).
Definition fips_expand (W : list Z) (t : nat) : list Z :=
  W ++ [(sigma (s_s1 A) W.[t - 2] + W.[t - 7] + sigma (s_s0 A) W.[t - 15] + W.[t - 16]) mod 2 ^ w].
Definition fips_round (W v : list Z) (t : nat) : list Z :=
  match v with
  | [a; b; c; d; e; f; g; h] =>
      let T1 := h + Sigma (s_S1 A) e + Ch e f g + fips_K t + W.[t] in
      let T2 := Sigma (s_S0 A) a + Maj a b c in
      [(T1 + T2) mod 2 ^ w; a; b; c; (d + T1) mod 2 ^ w; e; f; g]
  | _ => v
  end.
Definition fips_block (H M : list Z) : list Z :=
  let W := foldl fips_expand M (seq 16 (s_rounds A - 16)) in
  zip_with (λ x y, (x + y) mod 2 ^ w) H (foldl (fips_round W) H (seq 0 (s_rounds A))).
End fips.

(** The words of a state, and a message in blocks of sixteen words. *)
Definition fips_hash (A : sha_alg) (get : list Z → Z) (put : Z → list Z) (state msg : list Z) (n : nat) : list Z :=
  let k := Z.to_nat (s_w A / 8) in
  bytes_from put (foldl (fips_block A) (words_at get k 8 state)
    (List.map (λ i, words_at get k 16 (drop (16 * k * i) msg)) (seq 0 n))).

(** ** The code's words are the standard's *)

Lemma SHA512_K_fips : SHA512_K = List.map (cube_root_frac 64) (take 80 primes).
Proof. vm_compute. reflexivity. Qed.
Lemma SHA256_K_fips : SHA256_K = List.map (cube_root_frac 32) (take 64 primes).
Proof. vm_compute. reflexivity. Qed.

Lemma wrap_add_l w x y : wrap w (wrap w x + y) = wrap w (x + y).
Proof. unfold wrap. destruct (decide (2 ^ w = 0)) as [->|]; [by rewrite !Z.mod_0_r|]. by rewrite Z.add_mod_idemp_l. Qed.
Lemma wrap_add_r w x y : wrap w (x + wrap w y) = wrap w (x + y).
Proof. by rewrite Z.add_comm, wrap_add_l, Z.add_comm. Qed.
Lemma wrap_sum3 w a b c d : wrap w (wrap w (wrap w (a + b) + c) + d) = wrap w (a + b + c + d).
Proof. by rewrite (wrap_add_l w (a + b)), wrap_add_l. Qed.
Lemma wrap_sum4 w a b c d e : wrap w (wrap w (wrap w (wrap w (a + b) + c) + d) + e) = wrap w (a + b + c + d + e).
Proof. by rewrite (wrap_sum3 w a b c d), wrap_add_l. Qed.

Lemma of_bits_spec f n :
  word_ok (Z.of_nat n) (of_bits f n) ∧ ∀ i, 0 <= i < Z.of_nat n → Z.testbit (of_bits f n) i = f i.
Proof.
  induction n as [|n [[H0 H1] IH]]; [split; [done|lia]|]. cbn [of_bits]. split.
  - rewrite Nat2Z.inj_succ. unfold word_ok. rewrite Z.pow_succ_r by lia. destruct (f _); cbn [Z.b2z]; lia.
  - intros i Hi. rewrite <-lor_add, Z.lor_spec, Z.shiftl_spec by lia.
    destruct (decide (i = Z.of_nat n)) as [->|].
    + rewrite Z.sub_diag, (testbit_high (Z.of_nat n)) by (done || lia). by destruct (f _).
    + rewrite (Z.testbit_neg_r _ (i - _)), orb_false_r by lia. apply IH. lia.
Qed.

Lemma of_bits_eq w f x : 0 <= w → word_ok w x → (∀ i, 0 <= i < w → Z.testbit x i = f i) → x = of_bits f (Z.to_nat w).
Proof.
  intros Hw Hx H. destruct (of_bits_spec f (Z.to_nat w)) as [Hr Hb]. rewrite Z2Nat.id in Hr, Hb by done.
  apply Z.bits_inj'. intros i Hi. destruct (Z.lt_ge_cases i w).
  - by rewrite Hb, H by lia.
  - by rewrite !(testbit_high w) by done.
Qed.

(** ** The code in the standard's terms, at either word size *)

Section code.
Context (A : sha_alg).
#[local] Abbreviation w := (s_w A).
Context (Hw : 0 < w).

Definition alg_ok : Prop :=
  let ok n := 0 < n < w in
  let all '(a, b, c) := ok a ∧ ok b ∧ ok c in
  all (s_S0 A) ∧ all (s_S1 A) ∧ all (s_s0 A) ∧ all (s_s1 A).
Context (HA : alg_ok).

Definition ROTR (x n : Z) : Z := Z.lor (Z.shiftr x n) (wrap w (Z.shiftl x (w - n))).
Definition add (x y : Z) : Z := wrap w (x + y).
Definition code_Sigma (r : Z * Z * Z) (x : Z) : Z :=
  let '(a, b, c) := r in Z.lxor (Z.lxor (ROTR x a) (ROTR x b)) (ROTR x c).
Definition code_sigma (r : Z * Z * Z) (x : Z) : Z :=
  let '(a, b, c) := r in Z.lxor (Z.lxor (ROTR x a) (ROTR x b)) (Z.shiftr x c).
Definition code_expand (W : list Z) (i : nat) : list Z :=
  W ++ [add (add (add W.[i - 16] (code_sigma (s_s0 A) W.[i - 15])) W.[i - 7]) (code_sigma (s_s1 A) W.[i - 2])].
Definition code_round (K : list Z) (W v : list Z) (i : nat) : list Z :=
  let a := v.[0] in let b := v.[1] in let c := v.[2] in let d := v.[3] in
  let e := v.[4] in let f := v.[5] in let g := v.[6] in let hh := v.[7] in
  let t1 := add (add (add (add hh (code_Sigma (s_S1 A) e)) (Z.lxor (Z.land e f) (Z.land (wrap w (Z.lnot e)) g))) K.[i]) W.[i] in
  let t2 := add (code_Sigma (s_S0 A) a) (Z.lxor (Z.lxor (Z.land a b) (Z.land a c)) (Z.land b c)) in
  [add t1 t2; a; b; c; add d t1; e; f; g].

Lemma ROTR_eq x n : word_ok w x → 0 < n < w → ROTR x n = rotr A n x ∧ word_ok w (rotr A n x).
Proof.
  intros Hx Hn. unfold ROTR, rotr. rewrite Z.shiftr_div_pow2, Z.shiftl_mul_pow2 by lia. unfold wrap.
  assert (0 < 2 ^ n ∧ 0 < 2 ^ (w - n)) as [P1 P2] by (split; apply Z.pow_pos_nonneg; lia).
  assert (2 ^ w = 2 ^ n * 2 ^ (w - n)) as E by (rewrite <-Z.pow_add_r by lia; f_equal; lia). unfold word_ok in *. rewrite E in *.
  pose proof (Z.mod_pos_bound x (2 ^ n) P1). rewrite Z.mul_mod_distr_r by lia.
  assert (0 <= x / 2 ^ n < 2 ^ (w - n)) by (split; [apply Z.div_pos; lia|apply Z.div_lt_upper_bound; lia]).
  rewrite <-Z.shiftl_mul_pow2, lor_add, Z.shiftl_mul_pow2 by lia. split; [done|]. nia.
Qed.

Lemma Sigma_eq r x : (let '(a, b, c) := r in 0 < a < w ∧ 0 < b < w ∧ 0 < c < w) → word_ok w x →
  code_Sigma r x = Sigma A r x ∧ code_sigma r x = sigma A r x.
Proof.
  destruct r as [[a b] c]. intros (Ha & Hb & Hc) Hx. cbn.
  destruct (ROTR_eq x a), (ROTR_eq x b), (ROTR_eq x c); try done. rewrite Z.shiftr_div_pow2 by lia. split; congruence.
Qed.

Lemma bitwise_eq f x y : word_ok w x → (∀ i, 0 <= i < w → Z.testbit x i = f i) → y = of_bits f (Z.to_nat w) → x = y.
Proof. intros Hx H ->. apply of_bits_eq; [lia|done..]. Qed.

Lemma Ch_eq e f g : word_ok w e → word_ok w f → word_ok w g →
  Z.lxor (Z.land e f) (Z.land (wrap w (Z.lnot e)) g) = Ch A e f g.
Proof.
  intros He Hf Hg. apply of_bits_eq; [lia| |].
  - apply lxor_ok; [lia|apply land_ok; [lia|done|apply Hf]|]. apply land_ok; [lia|apply wrap_ok; lia|apply Hg].
  - intros i Hi. rewrite Z.lxor_spec, !Z.land_spec. unfold wrap. rewrite Z.mod_pow2_bits_low, Z.lnot_spec by lia.
    by destruct (Z.testbit e i), (Z.testbit f i), (Z.testbit g i).
Qed.
Lemma Maj_eq a b c : word_ok w a → word_ok w b → word_ok w c →
  Z.lxor (Z.lxor (Z.land a b) (Z.land a c)) (Z.land b c) = Maj A a b c.
Proof.
  intros Ha Hb Hc. apply of_bits_eq; [lia| |].
  - apply lxor_ok; [lia|apply lxor_ok; [lia|..]|]; (apply land_ok; [lia|done|]); (apply Hb || apply Hc).
  - intros i Hi. rewrite !Z.lxor_spec, !Z.land_spec. by destruct (Z.testbit a i), (Z.testbit b i), (Z.testbit c i).
Qed.

Lemma expand_eq W i : words_ok w W → code_expand W i = fips_expand A W i ∧ words_ok w (fips_expand A W i).
Proof.
  intros H. destruct HA as (_ & _ & H0 & H1). unfold code_expand, fips_expand.
  destruct (Sigma_eq (s_s0 A) W.[i - 15] H0) as [_ ->]; [apply word_nth; [lia|done]|].
  destruct (Sigma_eq (s_s1 A) W.[i - 2] H1) as [_ ->]; [apply word_nth; [lia|done]|].
  unfold add. rewrite (wrap_sum3 w W.[i - 16]). split; [do 2 f_equal; unfold wrap; apply (f_equal (λ z, z mod 2 ^ w)); lia|].
  apply Forall_app; split; [done|]. constructor; [|constructor]. apply (wrap_ok w). lia.
Qed.

Lemma expand_fold W l : words_ok w W →
  foldl code_expand W l = foldl (fips_expand A) W l ∧ words_ok w (foldl (fips_expand A) W l).
Proof.
  revert W. induction l as [|i l IH]; intros W H; [done|]. cbn [foldl]. destruct (expand_eq W i H) as [-> H']. by apply IH.
Qed.

Lemma round_eq K W v i : K.[i] = fips_K A i → words_ok w W → words_ok w v → length v = 8%nat →
  code_round K W v i = fips_round A W v i ∧ words_ok w (fips_round A W v i) ∧ length (fips_round A W v i) = 8%nat.
Proof.
  intros EK HW Hv Hl. destruct v as [|a [|b [|c [|d [|e [|f [|g [|h [|? v]]]]]]]]]; try discriminate Hl.
  repeat match goal with H : words_ok _ (_ :: _) |- _ => apply Forall_cons in H as [? H] end.
  unfold code_round, fips_round. cbn [nth]. destruct HA as (P0 & P1 & _ & _). rewrite EK. clear EK.
  generalize (fips_K A i). intros k.
  destruct (Sigma_eq (s_S0 A) a P0) as [-> _]; [done|]. destruct (Sigma_eq (s_S1 A) e P1) as [-> _]; [done|].
  rewrite Ch_eq, Maj_eq by done. unfold add. rewrite (wrap_sum4 w h), wrap_add_l, !wrap_add_r. split; [done|]. split; [|done].
  repeat (constructor; [done || (apply (wrap_ok w); lia)|]). constructor.
Qed.

Lemma round_fold K W v l : Forall (λ i, K.[i] = fips_K A i) l → words_ok w W → words_ok w v → length v = 8%nat →
  foldl (code_round K W) v l = foldl (fips_round A W) v l ∧
  words_ok w (foldl (fips_round A W) v l) ∧ length (foldl (fips_round A W) v l) = 8%nat.
Proof.
  intros F HW. revert v. induction F as [|i l Hi F IH]; intros v Hv Hl; [split_and!; [reflexivity|assumption..]|]. cbn [foldl].
  destruct (round_eq K W v i Hi HW Hv Hl) as (-> & Hv' & Hl'). apply IH; assumption.
Qed.

Lemma block_eq K H M : Forall (λ i, K.[i] = fips_K A i) (seq 0 (s_rounds A)) → words_ok w H → length H = 8%nat → words_ok w M →
  zip_with add H (foldl (code_round K (foldl code_expand M (seq 16 (s_rounds A - 16)))) H (seq 0 (s_rounds A))) = fips_block A H M ∧
  words_ok w (fips_block A H M) ∧ length (fips_block A H M) = 8%nat.
Proof.
  intros F Hh Hl HM. unfold fips_block. destruct (expand_fold M (seq 16 (s_rounds A - 16)) HM) as [-> HW].
  destruct (round_fold K _ H _ F HW Hh Hl) as (-> & Hv & Lv). split; [done|]. split; [|rewrite length_zip_with; lia].
  clear -Hw. set (v := foldl _ _ _). clearbody v. revert v. induction H as [|x H IH]; intros [|y v]; cbn; constructor; [|done].
  apply (wrap_ok w). lia.
Qed.
End code.

(** ** A run of blocks *)

Section run.
Context (A : sha_alg) (HA : alg_ok A) `{Codec k get put} (Hk : 8 * Z.of_nat k = s_w A).
Context (K : list Z) (HK : Forall (λ i, K.[i] = fips_K A i) (seq 0 (s_rounds A))).
Definition code_block (h p : list Z) : list Z :=
  zip_with (add A) h
    (foldl (code_round A K (foldl (code_expand A) (words_at get k 16 p) (seq 16 (s_rounds A - 16)))) h (seq 0 (s_rounds A))).
Fixpoint code_loop (n : nat) (h p : list Z) : list Z :=
  match n with
  | O => h
  | S n => code_loop n (code_block h p) (drop (16 * k) p)
  end.
Definition code_run (n : nat) (state p : list Z) : list Z := bytes_from put (code_loop n (words_at get k 8 state) p).
#[local] Abbreviation state_ok h := (words_ok (s_w A) h ∧ length h = 8%nat).

Lemma width_pos : 0 < s_w A.
Proof. pose proof codec_pos. lia. Qed.

Lemma block_fips h p : state_ok h → bytes_ok p → (16 * k <= length p)%nat →
  code_block h p = fips_block A h (words_at get k 16 p) ∧ state_ok (code_block h p).
Proof.
  intros [Hh Hl] Bp Lp. assert (words_ok (s_w A) (words_at get k 16 p)) as HM.
  { rewrite <-Hk. apply words_at_ok; [done|lia]. }
  destruct (block_eq A width_pos HA K h _ HK Hh Hl HM) as (E & Hw & Lw). unfold code_block. rewrite E. split; [reflexivity|by split].
Qed.

Lemma loop_fips n : ∀ h p, state_ok h → bytes_ok p → (16 * k * n <= length p)%nat →
  code_loop n h p = foldl (fips_block A) h (List.map (λ i, words_at get k 16 (drop (16 * k * i) p)) (seq 0 n)) ∧
  state_ok (code_loop n h p).
Proof.
  induction n as [|n IH]; intros h p Hh Bp Lp; [split; [reflexivity|exact Hh]|].
  cbn [code_loop seq List.map foldl]. destruct (block_fips h p Hh Bp ltac:(lia)) as [E Hh'].
  destruct (IH (code_block h p) (drop (16 * k) p) Hh' ltac:(by apply Forall_drop) ltac:(rewrite length_drop; lia)) as [E' Hl].
  split; [|exact Hl]. rewrite E', E, Nat.mul_0_r, drop_0, <-seq_shift, List.map_map. f_equal. apply List.map_ext.
  intros i. rewrite drop_drop. do 2 f_equal. lia.
Qed.

Lemma loop_app n m : ∀ h p q, length p = (16 * k * n)%nat → code_loop (n + m) h (p ++ q) = code_loop m (code_loop n h p) q.
Proof.
  induction n as [|n IH]; intros h p q Lp.
  { destruct p; [reflexivity|cbn in Lp; lia]. }
  cbn [Nat.add code_loop]. rewrite drop_app_le by lia. rewrite IH by (rewrite length_drop; lia).
  unfold code_block at 1. rewrite words_at_app by lia. reflexivity.
Qed.

(** The state survives its encoding between two runs. *)
Lemma run_stream n m state p q : bytes_ok state → length state = (8 * k)%nat → bytes_ok p → length p = (16 * k * n)%nat →
  code_run (n + m) state (p ++ q) = code_run m (code_run n state p) q.
Proof.
  intros Bs Ls Bp Lp. unfold code_run. rewrite loop_app by done.
  destruct (loop_fips n (words_at get k 8 state) p) as [_ [Hh Hl]]; [|done|lia|].
  { split; [|apply words_at_length]. rewrite <-Hk. apply words_at_ok; [done|lia]. }
  set (h := code_loop n _ p) in *. pose proof (words_at_bytes_from h []) as E. rewrite Hl, app_nil_r, Hk in E.
  rewrite E by exact Hh. reflexivity.
Qed.
End run.

Lemma SHA256_ok : alg_ok SHA256.
Proof. unfold alg_ok; cbn; lia. Qed.
Lemma SHA512_ok : alg_ok SHA512.
Proof. unfold alg_ok; cbn; lia. Qed.
Lemma K_nth (f : nat → Z) n l K : K = List.map f (take n l) → (n <= length l)%nat → Forall (λ i, K.[i] = f (nth i l 0%nat)) (seq 0 n).
Proof.
  intros -> Hn. apply Forall_seq. intros i Hi.
  rewrite (nth_indep _ 0 (f 0%nat)) by (rewrite List.length_map, length_take; lia). rewrite map_nth. f_equal.
  rewrite <-(take_drop n l) at 2. by rewrite app_nth1 by (rewrite length_take; lia).
Qed.
Lemma K256_ok : Forall (λ i, SHA256_K.[i] = fips_K SHA256 i) (seq 0 (s_rounds SHA256)).
Proof. apply (K_nth (cube_root_frac 32) 64 primes); [exact SHA256_K_fips|vm_compute; lia]. Qed.
Lemma K512_ok : Forall (λ i, SHA512_K.[i] = fips_K SHA512 i) (seq 0 (s_rounds SHA512)).
Proof. apply (K_nth (cube_root_frac 64) 80 primes); [exact SHA512_K_fips|vm_compute; lia]. Qed.

Lemma expand256_code : expand256 = code_expand SHA256.
Proof. unfold expand256, code_expand, code_sigma, add32, add, ROTR32, ROTR, u32. cbn [s_w s_s0 s_s1 SHA256]. reflexivity. Qed.
Lemma round256_code : round256 = code_round SHA256 SHA256_K.
Proof. unfold round256, code_round, code_Sigma, add32, add, ROTR32, ROTR, u32. cbn [s_w s_S0 s_S1 SHA256]. reflexivity. Qed.
Lemma block256_code h p : block256 h p = code_block SHA256 (k := 4) (get := u32be) SHA256_K h p.
Proof.
  unfold block256, code_block. rewrite expand256_code, round256_code.
  change (s_rounds SHA256 - 16)%nat with 48%nat. change (s_rounds SHA256) with 64%nat. reflexivity.
Qed.
Lemma expand512_code : expand512 = code_expand SHA512.
Proof. unfold expand512, code_expand, code_sigma, add64, add, ROTR64, ROTR, u64. cbn [s_w s_s0 s_s1 SHA512]. reflexivity. Qed.
Lemma round512_code : round512 = code_round SHA512 SHA512_K.
Proof. unfold round512, code_round, code_Sigma, add64, add, ROTR64, ROTR, u64. cbn [s_w s_S0 s_S1 SHA512]. reflexivity. Qed.
Lemma block512_code h p : block512 h p = code_block SHA512 (k := 8) (get := u64be) SHA512_K h p.
Proof.
  unfold block512, code_block. rewrite expand512_code, round512_code.
  change (s_rounds SHA512 - 16)%nat with 64%nat. change (s_rounds SHA512) with 80%nat. reflexivity.
Qed.
Lemma loop256_code n h p : loop256 n h p = code_loop SHA256 (k := 4) (get := u32be) SHA256_K n h p.
Proof. revert h p. induction n as [|n IH]; intros h p; [reflexivity|]. cbn [loop256 code_loop]. rewrite IH, block256_code. reflexivity. Qed.
Lemma loop512_code n h p : loop512 n h p = code_loop SHA512 (k := 8) (get := u64be) SHA512_K n h p.
Proof. revert h p. induction n as [|n IH]; intros h p; [reflexivity|]. cbn [loop512 code_loop]. rewrite IH, block512_code. reflexivity. Qed.

Lemma sha256_code state p n : sha256_blocks state p n = code_run SHA256 (k := 4) (get := u32be) (put := p32be) SHA256_K n state p.
Proof. unfold sha256_blocks, code_run. by rewrite loop256_code. Qed.
Lemma sha512_code state p n : sha512_blocks state p n = code_run SHA512 (k := 8) (get := u64be) (put := p64be) SHA512_K n state p.
Proof. unfold sha512_blocks, code_run. by rewrite loop512_code. Qed.

Lemma sha512_fips n state p : bytes_ok state → length state = 64%nat → bytes_ok p → (128 * n <= length p)%nat →
  sha512_blocks state p n = fips_hash SHA512 u64be p64be state p n.
Proof.
  intros Bs Ls Bp Lp. unfold sha512_blocks, fips_hash. rewrite loop512_code. f_equal.
  apply (loop_fips SHA512 SHA512_ok (k := 8) (get := u64be) (put := p64be) eq_refl SHA512_K K512_ok); [|assumption|lia]. split; [|apply words_at_length].
  apply (words_at_ok (w := 8) (get := u64be)); [assumption|lia].
Qed.
Lemma sha512_state n state p : bytes_ok state → length state = 64%nat → bytes_ok p → (128 * n <= length p)%nat →
  bytes_ok (sha512_blocks state p n) ∧ length (sha512_blocks state p n) = 64%nat.
Proof.
  intros Bs Ls Bp Lp. unfold sha512_blocks. rewrite loop512_code. split; [apply (bytes_from_ok (w := 8) (get := u64be))|]. rewrite (bytes_from_length (w := 8) (get := u64be)).
  destruct (loop_fips SHA512 SHA512_ok (k := 8) (get := u64be) (put := p64be) eq_refl SHA512_K K512_ok n (words_at u64be 8 8 state) p) as [_ [_ ->]]; [|assumption|lia|done].
  split; [|apply words_at_length]. apply (words_at_ok (w := 8) (get := u64be)); [assumption|lia].
Qed.
Lemma sha512_stream n m state p q : bytes_ok state → length state = 64%nat → bytes_ok p → length p = (128 * n)%nat →
  sha512_blocks state (p ++ q) (n + m) = sha512_blocks (sha512_blocks state p n) q m.
Proof.
  intros Bs Ls Bp Lp. etransitivity; [apply sha512_code|]. etransitivity; [apply (run_stream SHA512 SHA512_ok (k := 8) eq_refl SHA512_K K512_ok); [assumption..|lia]|].
  rewrite <-(sha512_code state). symmetry. apply sha512_code.
Qed.

(** C39: The compression functions are FIPS 180-4's: over any run of whole blocks the state
    goes through the standard's hash computation, for both word sizes, with the bitwise
    choice and majority functions, true rotations, and round constants that are the first
    bits of the fractional parts of the cube roots of the first primes. *)
Theorem sha_blocks_fips (n : nat) (s256 s512 p256 p512 : list Z)
  (B1 : bytes_ok s256) (L1 : length s256 = 32%nat) (B2 : bytes_ok s512) (L2 : length s512 = 64%nat)
  (B3 : bytes_ok p256) (L3 : (64 * n <= length p256)%nat) (B4 : bytes_ok p512) (L4 : (128 * n <= length p512)%nat) :
  sha256_blocks s256 p256 n = fips_hash SHA256 u32be p32be s256 p256 n ∧
  sha512_blocks s512 p512 n = fips_hash SHA512 u64be p64be s512 p512 n.
Proof.
  split; [|by apply sha512_fips]. unfold sha256_blocks, fips_hash. rewrite loop256_code. f_equal.
  apply (loop_fips SHA256 SHA256_ok (k := 4) (get := u32be) (put := p32be) eq_refl SHA256_K K256_ok); [|assumption|lia]. split; [|apply words_at_length].
  apply (words_at_ok (w := 4) (get := u32be)); [assumption|lia].
Qed.

(** A message may be hashed in any number of runs: the encoded state that one run of
    blocks leaves is what the next run takes, and two runs are one. *)
Theorem sha_blocks_stream (n m : nat) (s256 s512 p256 p512 q : list Z)
  (B1 : bytes_ok s256) (L1 : length s256 = 32%nat) (B2 : bytes_ok s512) (L2 : length s512 = 64%nat)
  (B3 : bytes_ok p256) (L3 : length p256 = (64 * n)%nat) (B4 : bytes_ok p512) (L4 : length p512 = (128 * n)%nat) :
  sha256_blocks s256 (p256 ++ q) (n + m) = sha256_blocks (sha256_blocks s256 p256 n) q m ∧
  sha512_blocks s512 (p512 ++ q) (n + m) = sha512_blocks (sha512_blocks s512 p512 n) q m.
Proof.
  split; [|by apply sha512_stream].
  etransitivity; [apply sha256_code|]. etransitivity; [apply (run_stream SHA256 SHA256_ok (k := 4) eq_refl SHA256_K K256_ok); [assumption..|lia]|].
  rewrite <-(sha256_code s256). symmetry. apply sha256_code.
Qed.

Lemma sha_blocks_fips_witness :
  sha256_blocks (repeat 1 32) (repeat 2 64) 1 = fips_hash SHA256 u32be p32be (repeat 1 32) (repeat 2 64) 1 ∧
  sha512_blocks (repeat 1 64) (repeat 2 128) 1 = fips_hash SHA512 u64be p64be (repeat 1 64) (repeat 2 128) 1.
Proof. apply (sha_blocks_fips 1); solve [reflexivity|cbn; lia|by apply (bool_decide_unpack _)]. Defined.

Lemma sha_blocks_stream_witness :
  sha256_blocks (repeat 1 32) (repeat 2 64 ++ repeat 3 128) (1 + 1) =
    sha256_blocks (sha256_blocks (repeat 1 32) (repeat 2 64) 1) (repeat 3 128) 1 ∧
  sha512_blocks (repeat 1 64) (repeat 2 128 ++ repeat 3 128) (1 + 1) =
    sha512_blocks (sha512_blocks (repeat 1 64) (repeat 2 128) 1) (repeat 3 128) 1.
Proof. apply (sha_blocks_stream 1 1); solve [reflexivity|cbn; lia|by apply (bool_decide_unpack _)]. Defined.
