(* ===== verification/Sha512.v ===== *)
(** SHA-512 of up to three pieces: sha512_3 of src/src/native.c, which Ed25519 hashes with.

    The pieces go through a buffer of one block a byte at a time and are padded at the end.
    The theorem: the result is FIPS 180-4's SHA-512 of the pieces joined, initial value and
    padding included. *)

From S2P Require Import Prelude NativeBase Sha.
From stdpp Require Import prelude list.
From Stdlib Require Import ZArith Lia.
Open Scope Z_scope.

(** * The code *)

Definition iv : list Z := concat
  [[0x6a; 0x09; 0xe6; 0x67; 0xf3; 0xbc; 0xc9; 0x08]; [0xbb; 0x67; 0xae; 0x85; 0x84; 0xca; 0xa7; 0x3b];
   [0x3c; 0x6e; 0xf3; 0x72; 0xfe; 0x94; 0xf8; 0x2b]; [0xa5; 0x4f; 0xf5; 0x3a; 0x5f; 0x1d; 0x36; 0xf1];
   [0x51; 0x0e; 0x52; 0x7f; 0xad; 0xe6; 0x82; 0xd1]; [0x9b; 0x05; 0x68; 0x8c; 0x2b; 0x3e; 0x6c; 0x1f];
   [0x1f; 0x83; 0xd9; 0xab; 0xfb; 0x41; 0xbd; 0x6b]; [0x5b; 0xe0; 0xcd; 0x19; 0x13; 0x7e; 0x21; 0x79]].

(** out, total and the bytes buf[0..n). *)
Record hasher : Type := mkHasher { h_out : list Z; h_buf : list Z; h_total : Z }.

Definition hash_byte (st : hasher) (x : Z) : hasher :=
  let buf := h_buf st ++ [x] in
  let total := u64 (h_total st + 1) in
  if (length buf =? 128)%nat then mkHasher (sha512_blocks (h_out st) buf 1) [] total
  else mkHasher (h_out st) buf total.

(** The zeros up to the length field. *)
Fixpoint pad_zeros (fuel : nat) (buf : list Z) : list Z :=
  match fuel with
  | O => buf
  | S fuel =>
      if (length buf mod 128 =? 112)%nat then buf
      else
        let buf := buf ++ [0] in
        if (length buf =? 256)%nat then buf else pad_zeros fuel buf
  end.

Definition sha512_3 (a b c : list Z) : list Z :=
  let st := foldl hash_byte (mkHasher iv [] 0) a in
  let st := foldl hash_byte st b in
  let st := foldl hash_byte st c in
  let buf := pad_zeros 128 (h_buf st ++ [0x80]) in
  let buf := buf ++ repeat 0 8 in
  let total := u64 (Z.shiftl (h_total st) 3) in
  let buf := buf ++ List.map (λ i, u8 (Z.land (Z.shiftr total (56 - 8 * Z.of_nat i)) 0xff)) (seq 0 8) in
  sha512_blocks (h_out st) buf (length buf / 128).

(** * SHA-512 of FIPS 180-4 *)

(** 5.3.5: the first 64 bits of the fractional parts of the square roots of the first eight
    primes. *)
Definition sqrt_frac (q : nat) : Z := root 2 (Z.of_nat q * 2 ^ 128) 80 0 mod 2 ^ 64.
Definition H0 : list Z := bytes_from p64be (List.map sqrt_frac (take 8 primes)).
(** 5.1.2: a one bit, the least number of zeros, and the length in bits, to a multiple of
    1024 bits. *)
Definition padded (m : list Z) : list Z :=
  m ++ [0x80] ++ repeat 0 (Z.to_nat ((111 - Z.of_nat (length m)) mod 128)) ++ rev (le_bytes 16 (8 * Z.of_nat (length m))).
Definition sha512 (m : list Z) : list Z :=
  fips_hash SHA512 u64be p64be H0 (padded m) (length (padded m) / 128).

(** * They agree *)

Lemma iv_fips : iv = H0.
Proof. by vm_compute. Qed.

(** What the buffer holds once m has been fed. *)
Definition fed (m : list Z) (st : hasher) : Prop :=
  ∃ n w, m = w ++ h_buf st ∧ length w = (128 * n)%nat ∧ (length (h_buf st) < 128)%nat ∧ h_out st = sha512_blocks iv w n ∧ h_total st = u64 (Z.of_nat (length m)).

Lemma iv_ok : bytes_ok iv ∧ length iv = 64%nat.
Proof. split; [by apply (bool_decide_unpack _)|done]. Qed.

Lemma fed_byte m st x : bytes_ok m → fed m st → fed (m ++ [x]) (hash_byte st x).
Proof.
  intros Hm (n & w & -> & Hw & Hb & Ho & Ht). unfold hash_byte. rewrite Ht. set (b := h_buf st) in *.
  assert (u64 (u64 (Z.of_nat (length (w ++ b))) + 1) = u64 (Z.of_nat (length ((w ++ b) ++ [x])))) as ->.
  { unfold u64. rewrite wrap_add_l, (length_app (w ++ b)). cbn [length]. f_equal. lia. }
  apply Forall_app in Hm as [Bw Bb]. case_match eqn:E; rewrite length_app in E; cbn [length] in E.
  - exists (n + 1)%nat, (w ++ b ++ [x]). apply Nat.eqb_eq in E. cbn [h_buf h_out h_total length].
    split_and!; [by rewrite app_nil_r, app_assoc|rewrite !length_app; cbn; lia|lia| |done].
    rewrite Ho. symmetry. destruct iv_ok. by apply (sha512_stream n 1).
  - apply Nat.eqb_neq in E. exists n, w. cbn [h_buf h_out h_total]. split_and!; [by rewrite app_assoc|done|rewrite length_app; cbn; lia|done..].
Qed.
Lemma fed_bytes l : ∀ m st, bytes_ok m → bytes_ok l → fed m st → fed (m ++ l) (foldl hash_byte st l).
Proof.
  induction l as [|x l IH]; intros m st Hm Hl H; [by rewrite app_nil_r|]. inversion_clear Hl as [|?? Hx Hl']. cbn [foldl].
  replace (m ++ x :: l) with ((m ++ [x]) ++ l) by by rewrite <-app_assoc. apply IH; [|done|by apply fed_byte]. apply Forall_app. split; [done|]. by apply Forall_singleton.
Qed.

(** The zeros the loop writes, of which there are fewer than its fuel. *)
Definition zeros (n : nat) : nat := if (n <=? 112)%nat then 112 - n else 240 - n.
Lemma zeros_mod n : (n <= 240)%nat → (n mod 128 =? 112)%nat = (zeros n =? 0)%nat.
Proof.
  intros Hn. unfold zeros. destruct (Nat.leb_spec n 112), (Nat.eqb_spec (n mod 128) 112) as [E|E]; symmetry; [apply Nat.eqb_eq|apply Nat.eqb_neq|apply Nat.eqb_eq|apply Nat.eqb_neq].
  - rewrite Nat.mod_small in E by lia. lia.
  - rewrite Nat.mod_small in E by lia. lia.
  - destruct (Nat.lt_ge_cases n 128); [rewrite Nat.mod_small in E; lia|]. replace n with (n - 128 + 1 * 128)%nat in E by lia. rewrite Nat.Div0.mod_add, Nat.mod_small in E by lia. lia.
  - intros ?. apply E. by replace n with 240%nat by lia.
Qed.
Lemma pad_zeros_spec fuel : ∀ buf, (zeros (length buf) < fuel)%nat → (length buf <= 240)%nat → pad_zeros fuel buf = buf ++ repeat 0 (zeros (length buf)).
Proof.
  induction fuel as [|fuel IH]; intros buf Hz Hb; [lia|]. cbn [pad_zeros]. rewrite zeros_mod by done. destruct (Nat.eqb_spec (zeros (length buf)) 0) as [E|E]; [by rewrite E, app_nil_r|].
  assert (zeros (length buf) = S (zeros (length (buf ++ [0]))) ∧ (length buf <= 239)%nat) as [Ez Hl].
  { rewrite length_app. cbn [length]. unfold zeros in *. repeat case_match; rewrite ?Nat.leb_le, ?Nat.leb_gt in *; lia. }
  assert (length (buf ++ [0]) = (length buf + 1)%nat) as L by by rewrite length_app. destruct (Nat.eqb_spec (length (buf ++ [0])) 256); [lia|].
  rewrite IH by lia. by rewrite <-app_assoc, Ez.
Qed.

(** The length field, written a byte at a time. *)
Lemma length_field n : 0 <= n < 2 ^ 61 →
  repeat 0 8 ++ List.map (λ i, u8 (Z.land (Z.shiftr (u64 (Z.shiftl n 3)) (56 - 8 * Z.of_nat i)) 0xff)) (seq 0 8) = rev (le_bytes 16 (8 * n)).
Proof.
  intros Hn. rewrite Z.shiftl_mul_pow2, Z.mul_comm by lia. change (2 ^ 3) with 8. unfold u64, wrap. rewrite Z.mod_small by lia.
  rewrite (le_bytes_app 8 8), (Z.div_small (8 * n)), rev_app_distr by (change (256 ^ Z.of_nat 8) with (2 ^ 64); lia). f_equal.
  assert (∀ k, 0 <= k → u8 (Z.land (Z.shiftr (8 * n) k) 255) = (8 * n) / 2 ^ k mod 256) as E.
  { intros k Hk. change 255 with (Z.ones 8). rewrite Z.land_ones, Z.shiftr_div_pow2 by lia. apply Z.mod_mod. lia. }
  cbn [seq List.map]. rewrite !E by lia. cbn [le_bytes rev app]. rewrite !Z.div_div by lia. rewrite Z.div_1_r. done.
Qed.

(** The message and its padding are the blocks hashed on the way and the rest. *)
Lemma padded_split w b n : length w = (128 * n)%nat → (length b < 128)%nat →
  padded (w ++ b) = w ++ (b ++ [0x80]) ++ repeat 0 (zeros (length (b ++ [0x80]))) ++ rev (le_bytes 16 (8 * Z.of_nat (length (w ++ b)))).
Proof.
  intros Hw Hb. unfold padded. rewrite <-!app_assoc. do 4 f_equal. rewrite !length_app, Hw. cbn [length].
  replace (111 - Z.of_nat (128 * n + length b)) with (111 - Z.of_nat (length b) + (- Z.of_nat n) * 128) by lia. rewrite Z.mod_add by lia.
  unfold zeros. f_equal. destruct (Nat.leb_spec (length b + 1) 112).
  - rewrite Z.mod_small by lia. lia.
  - replace (111 - Z.of_nat (length b)) with (239 - Z.of_nat (length b) + (-1) * 128) by lia. rewrite Z.mod_add, Z.mod_small by lia. lia.
Qed.
Lemma padded_ok m : bytes_ok m → bytes_ok (padded m).
Proof.
  intros Hm. unfold padded. rewrite !Forall_app. split_and!; [done|by apply Forall_singleton| |apply Forall_rev, le_bytes_ok].
  apply Forall_forall. intros x Hx%list_elem_of_In%repeat_spec. by subst.
Qed.

Lemma rest_short b : (length b < 128)%nat → (zeros (length (b ++ [0x80%Z])) < 128)%nat ∧ (length (b ++ [0x80%Z]) <= 240)%nat.
Proof. intros Hb. rewrite length_app. cbn [length]. unfold zeros. destruct (Nat.leb_spec (length b + 1) 112); lia. Qed.

Lemma sha512_3_spec a b c (m := a ++ b ++ c) : bytes_ok m → Z.of_nat (length m) < 2 ^ 61 → sha512_3 a b c = sha512 m.
Proof.
  intros Hm Hl. assert (fed m (foldl hash_byte (foldl hash_byte (foldl hash_byte (mkHasher iv [] 0) a) b) c)) as (n & w & Em & Lw & Lb & Eo & Et).
  { subst m. pose proof Hm as H. apply Forall_app in H as [Ha H]. apply Forall_app in H as [Hb Hc]. rewrite app_assoc. rewrite <-(app_nil_l a) at 1.
    repeat (apply fed_bytes; [rewrite ?Forall_app; try done; apply Forall_nil_2|done|]). exists 0%nat, []. split_and!; [done..|cbn; lia|by vm_compute|done]. }
  unfold sha512_3. set (st := foldl _ _ c) in *. rewrite Eo, Et.
  assert (u64 (Z.of_nat (length m)) = Z.of_nat (length m)) as -> by (apply Z.mod_small; lia). rewrite pad_zeros_spec; [|by apply rest_short..].
  rewrite <-!(app_assoc _ (repeat 0 _)), length_field, <-app_assoc by lia. unfold sha512. rewrite <-iv_fips. rewrite Em in Hm |- *.
  pose proof (padded_split w (h_buf st) n Lw Lb) as Ep. pose proof (padded_ok _ Hm) as Bp. rewrite <-app_assoc in Ep. rewrite <-sha512_fips; [|apply iv_ok..|done|].
  - rewrite Ep. set (rest := h_buf st ++ _). rewrite length_app, Lw, Nat.mul_comm, Nat.add_comm, Nat.div_add by done. rewrite Nat.add_comm.
    apply Forall_app in Hm as [Hw _]. destruct iv_ok. symmetry. by apply sha512_stream.
  - pose proof (Nat.Div0.mul_div_le (length (padded (w ++ h_buf st))) 128). lia.
Qed.

Lemma sha512_ok m : bytes_ok m → bytes_ok (sha512 m) ∧ length (sha512 m) = 64%nat.
Proof.
  intros Hm. unfold sha512. rewrite <-iv_fips. destruct iv_ok. pose proof (padded_ok m Hm). pose proof (Nat.Div0.mul_div_le (length (padded m)) 128).
  rewrite <-sha512_fips by done. by apply sha512_state.
Qed.

(** The hash is SHA-512: the digest of up to three pieces is FIPS 180-4's of the pieces
    joined, from the initial value the standard derives from the square roots of the first
    eight primes to the length in the last block, for every message shorter than 2^61
    bytes. *)
Theorem sha512_3_fips (a b c : list Z) (Hm : bytes_ok (a ++ b ++ c)) (Hl : Z.of_nat (length (a ++ b ++ c)) < 2 ^ 61) :
  sha512_3 a b c = sha512 (a ++ b ++ c).
Proof. by apply sha512_3_spec. Qed.
Lemma sha512_3_fips_witness : sha512_3 (repeat 97 100) (repeat 98 100) [] = sha512 (repeat 97 100 ++ repeat 98 100 ++ []).
Proof. apply (sha512_3_fips (repeat 97 100) (repeat 98 100) []); [by apply (bool_decide_unpack _)|done]. Defined.
