(* ===== verification/Keccak.v ===== *)
(** Keccak-f[1600] and the sponge: SHA-3 and SHAKE of src/src/native.c.

    The code writes rho and pi out a lane at a time with literal offsets.  The theorems: it
    is the permutation of FIPS 202, whose offsets and round constants are computed from the
    standard's walk and shift register; absorbing and squeezing are the sponge; and a reader
    may stop at a block boundary and go on later. *)

From S2P Require Import Prelude NativeBase.
From stdpp Require Import prelude list.
From Stdlib Require Import ZArith Lia.
Open Scope Z_scope.

(** * The code *)

Definition KECCAK_RC : list Z :=
  [0x0000000000000001; 0x0000000000008082; 0x800000000000808a; 0x8000000080008000;
   0x000000000000808b; 0x0000000080000001; 0x8000000080008081; 0x8000000000008009;
   0x000000000000008a; 0x0000000000000088; 0x0000000080008009; 0x000000008000000a;
   0x000000008000808b; 0x800000000000008b; 0x8000000000008089; 0x8000000000008003;
   0x8000000000008002; 0x8000000000000080; 0x000000000000800a; 0x800000008000000a;
   0x8000000080008081; 0x8000000000008080; 0x0000000080000001; 0x8000000080008008].

Definition ROL (x n : Z) : Z := Z.lor (u64 (Z.shiftl x n)) (Z.shiftr x (64 - n)).

Definition theta (s : list Z) : list Z :=
  let c0 := Z.lxor (Z.lxor (Z.lxor (Z.lxor s.[0] s.[5]) s.[10]) s.[15]) s.[20] in
  let c1 := Z.lxor (Z.lxor (Z.lxor (Z.lxor s.[1] s.[6]) s.[11]) s.[16]) s.[21] in
  let c2 := Z.lxor (Z.lxor (Z.lxor (Z.lxor s.[2] s.[7]) s.[12]) s.[17]) s.[22] in
  let c3 := Z.lxor (Z.lxor (Z.lxor (Z.lxor s.[3] s.[8]) s.[13]) s.[18]) s.[23] in
  let c4 := Z.lxor (Z.lxor (Z.lxor (Z.lxor s.[4] s.[9]) s.[14]) s.[19]) s.[24] in
  let d0 := Z.lxor c4 (ROL c1 1) in
  let d1 := Z.lxor c0 (ROL c2 1) in
  let d2 := Z.lxor c1 (ROL c3 1) in
  let d3 := Z.lxor c2 (ROL c4 1) in
  let d4 := Z.lxor c3 (ROL c0 1) in
  [Z.lxor s.[0] d0; Z.lxor s.[1] d1; Z.lxor s.[2] d2; Z.lxor s.[3] d3; Z.lxor s.[4] d4;
   Z.lxor s.[5] d0; Z.lxor s.[6] d1; Z.lxor s.[7] d2; Z.lxor s.[8] d3; Z.lxor s.[9] d4;
   Z.lxor s.[10] d0; Z.lxor s.[11] d1; Z.lxor s.[12] d2; Z.lxor s.[13] d3; Z.lxor s.[14] d4;
   Z.lxor s.[15] d0; Z.lxor s.[16] d1; Z.lxor s.[17] d2; Z.lxor s.[18] d3; Z.lxor s.[19] d4;
   Z.lxor s.[20] d0; Z.lxor s.[21] d1; Z.lxor s.[22] d2; Z.lxor s.[23] d3; Z.lxor s.[24] d4].

(** b[i], in the order of i. *)
Definition rho_pi (s : list Z) : list Z :=
  [s.[0]; ROL s.[6] 44; ROL s.[12] 43; ROL s.[18] 21; ROL s.[24] 14;
   ROL s.[3] 28; ROL s.[9] 20; ROL s.[10] 3; ROL s.[16] 45; ROL s.[22] 61;
   ROL s.[1] 1; ROL s.[7] 6; ROL s.[13] 25; ROL s.[19] 8; ROL s.[20] 18;
   ROL s.[4] 27; ROL s.[5] 36; ROL s.[11] 10; ROL s.[17] 15; ROL s.[23] 56;
   ROL s.[2] 62; ROL s.[8] 55; ROL s.[14] 39; ROL s.[15] 41; ROL s.[21] 2].

Definition chi (b : list Z) : list Z :=
  [Z.lxor b.[0] (Z.land (u64 (Z.lnot b.[1])) b.[2]); Z.lxor b.[1] (Z.land (u64 (Z.lnot b.[2])) b.[3]);
   Z.lxor b.[2] (Z.land (u64 (Z.lnot b.[3])) b.[4]); Z.lxor b.[3] (Z.land (u64 (Z.lnot b.[4])) b.[0]);
   Z.lxor b.[4] (Z.land (u64 (Z.lnot b.[0])) b.[1]); Z.lxor b.[5] (Z.land (u64 (Z.lnot b.[6])) b.[7]);
   Z.lxor b.[6] (Z.land (u64 (Z.lnot b.[7])) b.[8]); Z.lxor b.[7] (Z.land (u64 (Z.lnot b.[8])) b.[9]);
   Z.lxor b.[8] (Z.land (u64 (Z.lnot b.[9])) b.[5]); Z.lxor b.[9] (Z.land (u64 (Z.lnot b.[5])) b.[6]);
   Z.lxor b.[10] (Z.land (u64 (Z.lnot b.[11])) b.[12]); Z.lxor b.[11] (Z.land (u64 (Z.lnot b.[12])) b.[13]);
   Z.lxor b.[12] (Z.land (u64 (Z.lnot b.[13])) b.[14]); Z.lxor b.[13] (Z.land (u64 (Z.lnot b.[14])) b.[10]);
   Z.lxor b.[14] (Z.land (u64 (Z.lnot b.[10])) b.[11]); Z.lxor b.[15] (Z.land (u64 (Z.lnot b.[16])) b.[17]);
   Z.lxor b.[16] (Z.land (u64 (Z.lnot b.[17])) b.[18]); Z.lxor b.[17] (Z.land (u64 (Z.lnot b.[18])) b.[19]);
   Z.lxor b.[18] (Z.land (u64 (Z.lnot b.[19])) b.[15]); Z.lxor b.[19] (Z.land (u64 (Z.lnot b.[15])) b.[16]);
   Z.lxor b.[20] (Z.land (u64 (Z.lnot b.[21])) b.[22]); Z.lxor b.[21] (Z.land (u64 (Z.lnot b.[22])) b.[23]);
   Z.lxor b.[22] (Z.land (u64 (Z.lnot b.[23])) b.[24]); Z.lxor b.[23] (Z.land (u64 (Z.lnot b.[24])) b.[20]);
   Z.lxor b.[24] (Z.land (u64 (Z.lnot b.[20])) b.[21])].

Definition keccak_round (s : list Z) (r : nat) : list Z :=
  let s := chi (rho_pi (theta s)) in
  <[0%nat := Z.lxor s.[0] KECCAK_RC.[r]]> s.
Definition keccakf1600 (s : list Z) : list Z := foldl keccak_round s (seq 0 24).

Definition keccak_load (state : list Z) : list Z := words_at u64le 8 25 state.
Definition keccak_store (s : list Z) : list Z := bytes_from p64le s.
Definition keccak_permute (state : list Z) : list Z := keccak_store (keccakf1600 (keccak_load state)).

(** s[i] ^= u64le(msg + 8 * i) for i below lanes. *)
Definition xor_lanes (lanes : nat) (s msg : list Z) : list Z :=
  List.map (λ i, if (i <? lanes)%nat then Z.lxor s.[i] (u64le (drop (8 * i) msg)) else s.[i]) (seq 0 25).

(** while (len >= rate); [k] bounds the blocks. *)
Fixpoint absorb_loop (k rate : nat) (s msg : list Z) : list Z * list Z :=
  match k with
  | O => (s, msg)
  | S k =>
      if (rate <=? length msg)%nat
      then absorb_loop k rate (keccakf1600 (xor_lanes (rate / 8) s msg)) (drop rate msg)
      else (s, msg)
  end.
Definition keccak_tail (msg : list Z) (rate : nat) (pad : Z) : list Z :=
  let tail := msg ++ [pad] ++ replicate (rate - (length msg + 1)) 0 in
  <[(rate - 1)%nat := Z.lor tail.[rate - 1] 0x80]> tail.
Definition keccak_absorb (msg : list Z) (rate : nat) (pad : Z) : list Z :=
  let (s, msg) := absorb_loop (length msg) rate (repeat 0 25) msg in
  keccak_store (keccakf1600 (xor_lanes (rate / 8) s (keccak_tail msg rate pad))).

(** for (;;); [k] bounds the blocks. *)
Fixpoint squeeze_loop (k : nat) (s : list Z) (outlen rate : nat) : list Z * list Z :=
  match k with
  | O => ([], s)
  | S k =>
      let block := bytes_from p64le (take (rate / 8) s) in
      let n := if (outlen <? rate)%nat then outlen else rate in
      let out := take n block in
      let outlen := (outlen - n)%nat in
      if (outlen =? 0)%nat then (out, s)
      else let (rest, s) := squeeze_loop k (keccakf1600 s) outlen rate in (out ++ rest, s)
  end.
Definition keccak_squeeze (state : list Z) (outlen rate : nat) : list Z * list Z :=
  let (out, s) := squeeze_loop (S outlen) (keccak_load state) outlen rate in
  (out, keccak_store s).

(** SHA3-256 of the empty message. *)
Example sha3_256_empty :
  fst (keccak_squeeze (keccak_absorb [] 136 6) 32 136) =
  bytes_from p32be [0xa7ffc6f8; 0xbf1ed766; 0x51c14756; 0xa061d662; 0xf580ff4d; 0xe43b49fa; 0x82d80a4b; 0x80f8434a].
Proof. by vm_compute. Qed.

(** * The permutation of FIPS 202 *)

(** A[x, y] is lane x + 5y. *)
Definition lane (A : list Z) (x y : nat) : Z := A.[x mod 5 + 5 * (y mod 5)].
Definition lanes_of (f : nat → nat → Z) : list Z := List.map (λ i, f (i mod 5)%nat (i / 5)%nat) (seq 0 25).
Definition rot (x : Z) (n : Z) : Z := x * 2 ^ n mod 2 ^ 64 + x / 2 ^ (64 - n).

Definition fips_theta (A : list Z) : list Z :=
  let C x := Z.lxor (Z.lxor (Z.lxor (Z.lxor (lane A x 0) (lane A x 1)) (lane A x 2)) (lane A x 3)) (lane A x 4) in
  let D x := Z.lxor (C (x + 4)%nat) (rot (C (x + 1)%nat) 1) in
  lanes_of (λ x y, Z.lxor (lane A x y) (D x)).
(** 3.2.2: the walk from (1, 0), the offset of its step t being (t + 1)(t + 2) / 2. *)
Fixpoint rho_walk (k t x y : nat) (off : list Z) : list Z :=
  match k with
  | O => off
  | S k => rho_walk k (t + 1) y ((2 * x + 3 * y) mod 5) (<[(x + 5 * y)%nat := Z.of_nat ((t + 1) * (t + 2) / 2) mod 64]> off)
  end.
Definition rho_offsets : list Z := rho_walk 24 0 1 0 (repeat 0 25).
Definition fips_rho (A : list Z) : list Z := lanes_of (λ x y, rot (lane A x y) (lane rho_offsets x y)).
Definition fips_pi (A : list Z) : list Z := lanes_of (λ x y, lane A (x + 3 * y) x).
Definition fips_chi (A : list Z) : list Z :=
  lanes_of (λ x y, Z.lxor (lane A x y) (Z.land (2 ^ 64 - 1 - lane A (x + 1) y) (lane A (x + 2) y))).
(** 3.2.5: the shift register after t steps, and the constant of a round. *)
Definition lfsr (R : list bool) : list bool :=
  match R with
  | [r0; r1; r2; r3; r4; r5; r6; r7] => [r7; r0; r1; r2; xorb r3 r7; xorb r4 r7; xorb r5 r7; r6]
  | _ => R
  end.
Definition rc (t : nat) : bool :=
  List.hd false (Nat.iter (t mod 255) lfsr [true; false; false; false; false; false; false; false]).
Definition fips_RC (ir : nat) : Z :=
  foldr (λ j acc, Z.b2z (rc (j + 7 * ir)) * 2 ^ (2 ^ Z.of_nat j - 1) + acc) 0 (seq 0 7).
Definition fips_iota (A : list Z) (ir : nat) : list Z :=
  lanes_of (λ x y, if (x =? 0)%nat && (y =? 0)%nat then Z.lxor (lane A 0 0) (fips_RC ir) else lane A x y).
Definition fips_rnd (A : list Z) (ir : nat) : list Z :=
  fips_iota (fips_chi (fips_pi (fips_rho (fips_theta A)))) ir.
Definition keccak_f (A : list Z) : list Z := foldl fips_rnd A (seq 0 24).

(** ** The code is the permutation *)

Lemma KECCAK_RC_fips : KECCAK_RC = List.map fips_RC (seq 0 24).
Proof. by vm_compute. Qed.
Lemma rho_offsets_table : rho_offsets =
  [0; 1; 62; 28; 27; 36; 44; 6; 55; 20; 3; 10; 43; 25; 39; 41; 45; 15; 21; 8; 18; 2; 61; 56; 14].
Proof. by vm_compute. Qed.

Abbreviation state_ok s := (words_ok 64 s ∧ length s = 25%nat).

Lemma ROL_rot x n : word_ok 64 x → 0 < n < 64 → ROL x n = rot x n ∧ word_ok 64 (rot x n).
Proof.
  intros Hx Hn. unfold ROL, rot. rewrite Z.shiftl_mul_pow2, Z.shiftr_div_pow2 by lia. unfold u64, wrap, word_ok in *.
  assert (0 < 2 ^ n ∧ 0 < 2 ^ (64 - n)) as [P1 P2] by (split; apply Z.pow_pos_nonneg; lia).
  assert (2 ^ 64 = 2 ^ (64 - n) * 2 ^ n) as E by (rewrite <-Z.pow_add_r by lia; f_equal; lia). rewrite E in *.
  pose proof (Z.mod_pos_bound x (2 ^ (64 - n)) P2). rewrite Z.mul_mod_distr_r by lia.
  assert (0 <= x / 2 ^ (64 - n) < 2 ^ n) by (split; [apply Z.div_pos; lia|apply Z.div_lt_upper_bound; lia]).
  rewrite <-Z.shiftl_mul_pow2, Z.lor_comm, lor_add, Z.shiftl_mul_pow2 by lia. split; [lia|nia].
Qed.
Lemma rot_0 x : word_ok 64 x → rot x 0 = x.
Proof.
  intros Hx. unfold rot. rewrite Z.mul_1_r, (Z.mod_small x) by done. change (64 - 0) with 64. rewrite Z.div_small by done. lia.
Qed.
Lemma not_word x : word_ok 64 x → u64 (Z.lnot x) = 2 ^ 64 - 1 - x ∧ word_ok 64 (2 ^ 64 - 1 - x).
Proof.
  intros Hx. unfold u64, wrap, word_ok in *. split; [|lia]. rewrite <-(Z.mod_add _ 1) by done.
  unfold Z.lnot. rewrite Z.mod_small; lia.
Qed.

(** A list of 25 lanes, taken apart. *)
Ltac lanes25 H :=
  let W := fresh "W" in let L := fresh "L" in
  destruct H as [W L];
  do 25 (match type of L with length ?s = _ => destruct s as [|? s]; [discriminate L|] end; apply (f_equal pred) in L; cbn [length pred] in L);
  match type of L with length ?s = _ => destruct s as [|? s]; [clear L|discriminate L] end;
  repeat match type of W with Forall _ (_ :: _) => apply Forall_cons in W as [? W] end; clear W.

Lemma ROL_eq x n : word_ok 64 x → 0 < n < 64 → ROL x n = rot x n.
Proof. intros. by apply ROL_rot. Qed.
Lemma rot_ok x n : word_ok 64 x → 0 < n < 64 → word_ok 64 (rot x n).
Proof. intros. by apply ROL_rot. Qed.
Lemma not_eq x : word_ok 64 x → u64 (Z.lnot x) = 2 ^ 64 - 1 - x.
Proof. intros. by apply not_word. Qed.
Lemma not_land_ok x y : word_ok 64 x → word_ok 64 y → word_ok 64 (Z.land (2 ^ 64 - 1 - x) y).
Proof. intros Hx [Hy _]. by apply land_ok; [|apply not_word|]. Qed.

Ltac words :=
  repeat first [assumption | apply lxor_ok; [lia| |] | apply rot_ok; [|lia] | apply not_land_ok].
Ltac lanes_ok := split; [repeat (apply Forall_cons; split; [words|]); apply Forall_nil; exact I|reflexivity].

Lemma theta_fips s : state_ok s → theta s = fips_theta s ∧ state_ok (theta s).
Proof.
  intros H. lanes25 H. unfold theta. cbn [nth]. rewrite !ROL_eq by (words || lia). split; [reflexivity|lanes_ok].
Qed.
Lemma rho_pi_fips s : state_ok s → rho_pi s = fips_pi (fips_rho s) ∧ state_ok (rho_pi s).
Proof.
  intros H. lanes25 H. unfold rho_pi. cbn [nth]. rewrite !ROL_eq by (words || lia). split; [|lanes_ok].
  unfold fips_rho. rewrite rho_offsets_table. rewrite <-(rot_0 z) at 1 by assumption. reflexivity.
Qed.
Lemma chi_fips s : state_ok s → chi s = fips_chi s ∧ state_ok (chi s).
Proof.
  intros H. lanes25 H. unfold chi. cbn [nth]. rewrite !not_eq by words. split; [reflexivity|lanes_ok].
Qed.

Lemma RC_nth r : (r < 24)%nat → KECCAK_RC.[r] = fips_RC r ∧ word_ok 64 KECCAK_RC.[r].
Proof.
  intros Hr. assert (Forall (λ r, KECCAK_RC.[r] = fips_RC r ∧ word_ok 64 KECCAK_RC.[r]) (seq 0 24)) as H.
  { rewrite KECCAK_RC_fips. by apply (bool_decide_unpack _); vm_compute. }
  rewrite Forall_forall in H. apply H, elem_of_seq. lia.
Qed.

Lemma round_fips s r : (r < 24)%nat → state_ok s → keccak_round s r = fips_rnd s r ∧ state_ok (keccak_round s r).
Proof.
  intros Hr Hs. destruct (RC_nth r Hr) as [Er Wr]. destruct (theta_fips s Hs) as [Et Ht].
  destruct (rho_pi_fips _ Ht) as [Ep Hp]. destruct (chi_fips _ Hp) as [Ec Hc]. unfold keccak_round, fips_rnd, fips_iota.
  rewrite <-Et, <-Ep, <-Ec, <-Er. clear - Hc Wr. set (s' := chi _) in *. clearbody s'.
  generalize dependent (KECCAK_RC.[r]). intros k Hk. lanes25 Hc. split; [reflexivity|]. cbn [nth]. lanes_ok.
Qed.

Lemma rounds_fips l s : Forall (λ r, (r < 24)%nat) l → state_ok s →
  foldl keccak_round s l = foldl fips_rnd s l ∧ state_ok (foldl keccak_round s l).
Proof.
  intros F. revert s. induction F as [|r l Hr F IH]; intros s Hs; [by split|].
  cbn [foldl]. destruct (round_fips s r Hr Hs) as [<- Hs']. by apply IH.
Qed.

Lemma keccakf_spec s : state_ok s → keccakf1600 s = keccak_f s ∧ state_ok (keccakf1600 s).
Proof. apply rounds_fips, Forall_seq. lia. Qed.

(** * The sponge *)

Definition pad_message (rate : nat) (pad : Z) (msg : list Z) : list Z :=
  let z := msg ++ [pad] ++ replicate (rate - 1 - length msg mod rate) 0 in
  <[(length z - 1)%nat := Z.lor z.[length z - 1] 0x80]> z.
Fixpoint blocks_of (k rate : nat) (p : list Z) : list (list Z) :=
  match k with
  | O => []
  | S k => take rate p :: blocks_of k rate (drop rate p)
  end.
(** A block xored into the first [rate] bytes of the state, and the permutation. *)
Definition absorb_block (rate : nat) (S b : list Z) : list Z :=
  keccak_f (zip_with Z.lxor S (words_at u64le 8 25 (b ++ replicate (200 - rate) 0))).
Definition sponge_absorb (rate : nat) (pad : Z) (msg : list Z) : list Z :=
  let p := pad_message rate pad msg in
  foldl (absorb_block rate) (repeat 0 25) (blocks_of (length p / rate) rate p).
(** The first [n] blocks of output. *)
Fixpoint out_stream (n rate : nat) (S : list Z) : list Z :=
  match n with
  | O => []
  | Datatypes.S n => take rate (bytes_from p64le S) ++ out_stream n rate (keccak_f S)
  end.
Definition sponge (rate : nat) (pad : Z) (msg : list Z) (d : nat) : list Z :=
  take d (out_stream (d / rate + 1) rate (sponge_absorb rate pad msg)).

Section sponge.
Context (lanes : nat) (Hlanes : (1 <= lanes <= 25)%nat).
#[local] Abbreviation rate := (8 * lanes)%nat.

Lemma rate_div : (rate / 8)%nat = lanes.
Proof. rewrite Nat.mul_comm. by apply Nat.div_mul. Qed.

Lemma u64le_prefix p q : take 8 p = take 8 q → u64le p = u64le q.
Proof.
  assert (∀ p, u64le p = u64le (take 8 p)) as H; [|intros E; by rewrite H, E, <-H].
  clear p q. intros p. do 8 (destruct p as [|? p]; [reflexivity|]). reflexivity.
Qed.

Lemma xor_lanes_spec s msg : length s = 25%nat → (rate <= length msg)%nat →
  xor_lanes lanes s msg = zip_with Z.lxor s (words_at u64le 8 25 (take rate msg ++ replicate (200 - rate) 0)).
Proof.
  intros Hs Hm. rewrite (map_nth_seq s 25 Hs) at 2. unfold xor_lanes, words_at. rewrite zip_with_map.
  apply List.map_ext_in. intros i Hi%in_seq. destruct (Nat.ltb_spec i lanes).
  - f_equal. apply u64le_prefix. rewrite drop_app_le by (rewrite length_take; lia).
    rewrite take_app_le by (rewrite length_drop, length_take; lia).
    rewrite !take_drop_commute, take_take. do 2 f_equal. lia.
  - rewrite drop_app_ge by (rewrite length_take; lia). rewrite drop_replicate. rewrite <-(Z.lxor_0_r s.[i]) at 1. f_equal.
    set (n := (200 - rate - _)%nat). assert (8 <= n)%nat by (unfold n; rewrite length_take; lia).
    clearbody n. do 8 (destruct n as [|n]; [lia|]). reflexivity.
Qed.

Lemma zip_lxor_ok S W : words_ok 64 S → words_ok 64 W → words_ok 64 (zip_with Z.lxor S W).
Proof. intros HS. revert W. induction HS as [|x S Hx HS IH]; intros W [|y W' Hy HW]; cbn; constructor; [by apply lxor_ok|by apply IH]. Qed.

Lemma absorb_step s msg : state_ok s → bytes_ok msg → (rate <= length msg)%nat →
  keccakf1600 (xor_lanes lanes s msg) = absorb_block rate s (take rate msg) ∧ state_ok (keccakf1600 (xor_lanes lanes s msg)).
Proof.
  intros [Hw Hl] Bm Hm. rewrite xor_lanes_spec by done. unfold absorb_block. set (W := words_at _ _ _ _).
  assert (words_ok 64 W) as HW.
  { apply (words_at_ok (w := 8)).
    - apply Forall_app; split; [by apply Forall_take|by apply Forall_replicate].
    - rewrite length_app, length_take, length_replicate. lia. }
  apply keccakf_spec. split; [by apply zip_lxor_ok|]. rewrite length_zip_with, Hl. unfold W. by rewrite words_at_length.
Qed.

Context (pad : Z) (Hpad : byte_ok pad).

Lemma pad_message_length msg : length (pad_message rate pad msg) = (rate * (length msg / rate + 1))%nat.
Proof.
  unfold pad_message. rewrite length_insert, !length_app, length_replicate. cbn [length].
  pose proof (Nat.div_mod (length msg) rate ltac:(lia)). pose proof (Nat.mod_upper_bound (length msg) rate ltac:(lia)). lia.
Qed.

Lemma pad_message_last msg : (length msg < rate)%nat → pad_message rate pad msg = keccak_tail msg rate pad.
Proof.
  intros Hm. unfold pad_message, keccak_tail. rewrite Nat.mod_small by done.
  replace (rate - 1 - length msg)%nat with (rate - (length msg + 1))%nat by lia. set (z := msg ++ _).
  assert (length z = rate) as -> by (unfold z; rewrite !length_app, length_replicate; cbn; lia). done.
Qed.

Lemma pad_message_app b msg : length b = rate → pad_message rate pad (b ++ msg) = b ++ pad_message rate pad msg.
Proof.
  intros Hb. unfold pad_message. rewrite (length_app b msg), Hb.
  replace ((rate + length msg) mod rate)%nat with (length msg mod rate)%nat.
  2: { rewrite <-(Nat.mul_1_l rate) at 2. rewrite Nat.add_comm, Nat.Div0.mod_add. done. }
  rewrite <-app_assoc. set (z := msg ++ _). assert (0 < length z)%nat by (unfold z; rewrite length_app; cbn; lia).
  rewrite length_app. replace (length b + length z - 1)%nat with (length b + (length z - 1))%nat by lia.
  by rewrite insert_app_r, app_nth2_plus.
Qed.

Lemma keccak_tail_ok m : bytes_ok m → (length m < rate)%nat →
  bytes_ok (keccak_tail m rate pad) ∧ length (keccak_tail m rate pad) = rate.
Proof.
  intros Bm Hm. unfold keccak_tail. set (z := m ++ _). assert (bytes_ok z) as Hz.
  { apply Forall_app; split; [done|]. constructor; [done|by apply Forall_replicate]. }
  split.
  - apply Forall_insert; [done|]. apply (lor_ok 8); [lia| |done]. rewrite Forall_forall in Hz. apply Hz.
    apply list_elem_of_In, nth_In. unfold z. rewrite !length_app, length_replicate. cbn. lia.
  - rewrite length_insert. unfold z. rewrite !length_app, length_replicate. cbn. lia.
Qed.

Lemma absorb_final s m : state_ok s → bytes_ok m → (length m < rate)%nat →
  keccakf1600 (xor_lanes lanes s (keccak_tail m rate pad)) =
    foldl (absorb_block rate) s (blocks_of (length m / rate + 1) rate (pad_message rate pad m)) ∧
  state_ok (keccakf1600 (xor_lanes lanes s (keccak_tail m rate pad))).
Proof.
  intros Hs Bm Hm. destruct (keccak_tail_ok m Bm Hm) as [Bt Lt]. rewrite Nat.div_small, pad_message_last by done.
  cbn [Nat.add blocks_of foldl]. apply absorb_step; [done..|lia].
Qed.

Lemma absorb_loop_spec k : ∀ s msg, (length msg <= k)%nat → state_ok s → bytes_ok msg →
  let (s', m') := absorb_loop k rate s msg in
  keccakf1600 (xor_lanes lanes s' (keccak_tail m' rate pad)) =
    foldl (absorb_block rate) s (blocks_of (length msg / rate + 1) rate (pad_message rate pad msg)) ∧
  state_ok (keccakf1600 (xor_lanes lanes s' (keccak_tail m' rate pad))).
Proof.
  induction k as [|k IH]; intros s msg Hk Hs Bm; cbn [absorb_loop].
  { apply absorb_final; [done..|lia]. }
  destruct (Nat.leb_spec rate (length msg)) as [Hm|Hm]; [|by apply absorb_final].
  rewrite rate_div. destruct (absorb_step s msg Hs Bm Hm) as [Es Hs'].
  specialize (IH _ (drop rate msg) ltac:(rewrite length_drop; lia) Hs' ltac:(by apply Forall_drop)).
  destruct (absorb_loop k rate _ _) as [s' m']. destruct IH as [IH Hf]. split; [|exact Hf]. rewrite IH, Es.
  assert (pad_message rate pad msg = take rate msg ++ pad_message rate pad (drop rate msg)) as ->.
  { rewrite <-pad_message_app by (rewrite length_take; lia). by rewrite take_drop. }
  rewrite length_drop. replace (length msg / rate + 1)%nat with (S ((length msg - rate) / rate + 1)).
  2: { replace (length msg) with (length msg - rate + 1 * rate)%nat at 2 by lia. rewrite Nat.div_add by lia. lia. }
  cbn [blocks_of foldl]. rewrite take_app_length', drop_app_length' by (rewrite length_take; lia). done.
Qed.

Lemma zeros_ok : state_ok (repeat 0 25).
Proof. split; [|done]. by apply (bool_decide_unpack _). Qed.

Lemma store_load s : state_ok s → keccak_load (keccak_store s) = s.
Proof.
  intros [Hw Hl]. unfold keccak_load, keccak_store. rewrite <-Hl, <-(app_nil_r (bytes_from p64le s)).
  by apply (words_at_bytes_from (w := 8)).
Qed.

Lemma absorb_spec msg : bytes_ok msg →
  keccak_load (keccak_absorb msg rate pad) = sponge_absorb rate pad msg ∧ state_ok (sponge_absorb rate pad msg).
Proof.
  intros Bm. unfold keccak_absorb, sponge_absorb. rewrite pad_message_length, (Nat.mul_comm rate), Nat.div_mul by lia.
  pose proof (absorb_loop_spec (length msg) _ msg (le_n _) zeros_ok Bm) as H. rewrite rate_div.
  destruct (absorb_loop _ _ _ _) as [s' m']. destruct H as [<- H]. split; [by apply store_load|done].
Qed.

Lemma block_length s : state_ok s → bytes_from p64le (take lanes s) = take rate (bytes_from p64le s) ∧
  length (take rate (bytes_from p64le s)) = rate.
Proof.
  intros [_ Hl]. rewrite <-(take_drop lanes s) at 2. unfold bytes_from. rewrite flat_map_app. fold (bytes_from p64le).
  assert (length (bytes_from p64le (take lanes s)) = rate) as E.
  { rewrite (bytes_from_length (w := 8)), length_take. lia. }
  rewrite take_app_length' by done. split; [done|]. rewrite length_take, (bytes_from_length (w := 8)). lia.
Qed.

Lemma squeeze_spec k : ∀ s n, (n < k)%nat → state_ok s →
  fst (squeeze_loop k s n rate) = take n (out_stream (n / rate + 1) rate s) ∧ state_ok (snd (squeeze_loop k s n rate)).
Proof.
  induction k as [|k IH]; intros s n Hn Hs; [lia|]. cbn [squeeze_loop]. rewrite rate_div.
  destruct (block_length s Hs) as [-> Lb]. destruct (keccakf_spec s Hs) as [Ef Hf].
  destruct (Nat.ltb_spec n rate).
  - rewrite Nat.sub_diag. cbn [Nat.eqb fst snd]. split; [|done]. rewrite Nat.div_small by done. cbn [Nat.add out_stream].
    by rewrite app_nil_r.
  - replace (n / rate + 1)%nat with (S ((n - rate) / rate + 1)).
    2: { replace n with (n - rate + 1 * rate)%nat at 2 by lia. rewrite Nat.div_add by lia. lia. }
    cbn [out_stream]. rewrite (take_ge _ rate) by lia. destruct (Nat.eqb_spec (n - rate) 0).
    + cbn [fst snd]. split; [|done]. replace n with rate by lia. by rewrite take_app_length'.
    + specialize (IH (keccakf1600 s) (n - rate)%nat ltac:(lia) Hf). destruct (squeeze_loop k _ _ _) as [rest s'].
      cbn [fst snd] in *. destruct IH as [-> Hs']. split; [|done]. rewrite <-Ef, take_app_ge by lia. by rewrite Lb.
Qed.

(** More fuel changes nothing. *)
Lemma squeeze_fuel k : ∀ k' s n, (n < k)%nat → (n < k')%nat → squeeze_loop k s n rate = squeeze_loop k' s n rate.
Proof.
  induction k as [|k IH]; intros [|k'] s n Hk Hk'; [lia..|]. cbn [squeeze_loop].
  destruct (Nat.ltb_spec n rate); [by rewrite Nat.sub_diag|]. destruct (Nat.eqb_spec (n - rate) 0); [done|].
  by rewrite (IH k') by lia.
Qed.
Definition squeeze (s : list Z) (n : nat) : list Z * list Z := squeeze_loop (S n) s n rate.
Definition out_block (s : list Z) : list Z := take rate (bytes_from p64le (take lanes s)).

Lemma squeeze_one s : squeeze s rate = (out_block s, s).
Proof. unfold squeeze. cbn [squeeze_loop]. by rewrite Nat.ltb_irrefl, Nat.sub_diag, rate_div. Qed.
Lemma squeeze_cons s n : (0 < n)%nat →
  squeeze s (rate + n) = (out_block s ++ fst (squeeze (keccakf1600 s) n), snd (squeeze (keccakf1600 s) n)).
Proof.
  intros Hn. unfold squeeze at 1. cbn [squeeze_loop]. rewrite (proj2 (Nat.ltb_ge _ _)) by lia. rewrite rate_div.
  replace (rate + n - rate)%nat with n by lia. rewrite (proj2 (Nat.eqb_neq _ _)) by lia.
  rewrite (squeeze_fuel (rate + n) (S n)) by lia. fold (squeeze (keccakf1600 s) n). by destruct (squeeze _ n).
Qed.

Lemma squeeze_resume j : ∀ s m, (0 < m)%nat → state_ok s →
  let (o1, s1) := squeeze s (rate * S j) in
  let (o2, s2) := squeeze (keccakf1600 s1) m in
  squeeze s (rate * S j + m) = (o1 ++ o2, s2) ∧ state_ok s1 ∧ state_ok (keccakf1600 s1) ∧ state_ok s2.
Proof.
  induction j as [|j IH]; intros s m Hm Hs; destruct (keccakf_spec s Hs) as [_ Hf].
  - rewrite Nat.mul_1_r, squeeze_one. pose proof (squeeze_cons s m Hm) as E.
    destruct (squeeze_spec (S m) (keccakf1600 s) m (le_n _) Hf) as [_ H2]. fold (squeeze (keccakf1600 s) m) in H2.
    destruct (squeeze _ m) as [o2 s2]. split; [exact E|]. split; [exact Hs|]. split; [exact Hf|exact H2].
  - specialize (IH (keccakf1600 s) m Hm Hf). replace (rate * S (S j))%nat with (rate + rate * S j)%nat by lia.
    rewrite <-Nat.add_assoc, !squeeze_cons by lia.
    destruct (squeeze (keccakf1600 s) (rate * S j)) as [o1 s1]. cbn [fst snd].
    destruct (squeeze (keccakf1600 s1) m) as [o2 s2]. destruct IH as [E H]. split; [|exact H].
    rewrite E. cbn [fst snd]. by rewrite app_assoc.
Qed.
End sponge.

(** C37: The sponge is FIPS 202's: for every rate of whole lanes and every separator byte,
    absorbing a message and squeezing [d] bytes gives the first [d] bytes of the sponge over
    the padded message, with the permutation's offsets and round constants computed from the
    standard's walk and shift register. *)
Theorem keccak_sponge (lanes : nat) (pad : Z) (msg : list Z) (d : nat)
  (Hl : (1 <= lanes <= 25)%nat) (Hp : byte_ok pad) (Hm : bytes_ok msg) :
  let rate := (8 * lanes)%nat in
  fst (keccak_squeeze (keccak_absorb msg rate pad) d rate) = sponge rate pad msg d.
Proof.
  cbn zeta. destruct (absorb_spec lanes Hl pad Hp msg Hm) as [E Hs]. unfold keccak_squeeze, sponge. rewrite E.
  destruct (squeeze_spec lanes Hl (S d) _ d (le_n _) Hs) as [E' _].
  destruct (squeeze_loop (S d) _ d _) as [out s]. exact E'.
Qed.
Lemma keccak_sponge_witness :
  fst (keccak_squeeze (keccak_absorb [1; 2; 3] 168 31) 400 168) = sponge 168 31 [1; 2; 3] 400.
Proof. apply (keccak_sponge 21 31 [1; 2; 3] 400); [lia|done|by apply (bool_decide_unpack _)]. Defined.

(** A reader may stop at a block boundary: asking for whole blocks, then permuting the
    state, then asking for more gives the same bytes and the same state as asking for
    everything at once.  This is what the incremental readers of an extendable output
    rely on. *)
Theorem keccak_squeeze_resume (lanes j m : nat) (state : list Z)
  (Hl : (1 <= lanes <= 25)%nat) (Hm : (0 < m)%nat) (Hs : bytes_ok state) (Ls : length state = 200%nat) :
  let rate := (8 * lanes)%nat in
  let (o1, st1) := keccak_squeeze state (rate * S j) rate in
  let (o2, st2) := keccak_squeeze (keccak_permute st1) m rate in
  keccak_squeeze state (rate * S j + m) rate = (o1 ++ o2, st2).
Proof.
  cbn zeta. assert (state_ok (keccak_load state)) as H0.
  { split; [apply (words_at_ok (w := 8)); [done|lia]|by apply (words_at_length (w := 8))]. }
  pose proof (squeeze_resume lanes Hl j _ m Hm H0) as R. unfold keccak_squeeze. fold (squeeze lanes (keccak_load state) (8 * lanes * S j)).
  fold (squeeze lanes (keccak_load state) (8 * lanes * S j + m)).
  destruct (squeeze lanes _ (8 * lanes * S j)) as [o1 s1]. unfold keccak_permute.
  destruct (squeeze lanes (keccakf1600 s1) m) as [o2 s2] eqn:E2. destruct R as (E & H1 & H2 & H3).
  rewrite (store_load s1 H1), (store_load _ H2). fold (squeeze lanes (keccakf1600 s1) m). rewrite E2, E. reflexivity.
Qed.
Lemma keccak_squeeze_resume_witness :
  let (o1, st1) := keccak_squeeze (repeat 7 200) 336 168 in
  let (o2, st2) := keccak_squeeze (keccak_permute st1) 5 168 in
  keccak_squeeze (repeat 7 200) 341 168 = (o1 ++ o2, st2).
Proof. apply (keccak_squeeze_resume 21 1 5 (repeat 7 200)); [lia|lia|by apply (bool_decide_unpack _)|done]. Defined.
