(* ===== verification/Aes.v ===== *)
(** AES-128 and AES-256, and the counter mode over them, of src/src/native.c.

    The theorems: the key schedule and the cipher are FIPS 197's, whose substitution box is
    computed from inversion in GF(2^8) and whose column mixing is the polynomial product;
    and counter mode undoes itself and may be continued from the counter it leaves. *)

From S2P Require Import Prelude NativeBase.
From stdpp Require Import prelude list.
From Stdlib Require Import ZArith Lia.
Open Scope Z_scope.

(** * The code *)

Definition SBOX : list Z :=
  [0x63; 0x7c; 0x77; 0x7b; 0xf2; 0x6b; 0x6f; 0xc5; 0x30; 0x01; 0x67; 0x2b; 0xfe; 0xd7; 0xab; 0x76;
   0xca; 0x82; 0xc9; 0x7d; 0xfa; 0x59; 0x47; 0xf0; 0xad; 0xd4; 0xa2; 0xaf; 0x9c; 0xa4; 0x72; 0xc0;
   0xb7; 0xfd; 0x93; 0x26; 0x36; 0x3f; 0xf7; 0xcc; 0x34; 0xa5; 0xe5; 0xf1; 0x71; 0xd8; 0x31; 0x15;
   0x04; 0xc7; 0x23; 0xc3; 0x18; 0x96; 0x05; 0x9a; 0x07; 0x12; 0x80; 0xe2; 0xeb; 0x27; 0xb2; 0x75;
   0x09; 0x83; 0x2c; 0x1a; 0x1b; 0x6e; 0x5a; 0xa0; 0x52; 0x3b; 0xd6; 0xb3; 0x29; 0xe3; 0x2f; 0x84;
   0x53; 0xd1; 0x00; 0xed; 0x20; 0xfc; 0xb1; 0x5b; 0x6a; 0xcb; 0xbe; 0x39; 0x4a; 0x4c; 0x58; 0xcf;
   0xd0; 0xef; 0xaa; 0xfb; 0x43; 0x4d; 0x33; 0x85; 0x45; 0xf9; 0x02; 0x7f; 0x50; 0x3c; 0x9f; 0xa8;
   0x51; 0xa3; 0x40; 0x8f; 0x92; 0x9d; 0x38; 0xf5; 0xbc; 0xb6; 0xda; 0x21; 0x10; 0xff; 0xf3; 0xd2;
   0xcd; 0x0c; 0x13; 0xec; 0x5f; 0x97; 0x44; 0x17; 0xc4; 0xa7; 0x7e; 0x3d; 0x64; 0x5d; 0x19; 0x73;
   0x60; 0x81; 0x4f; 0xdc; 0x22; 0x2a; 0x90; 0x88; 0x46; 0xee; 0xb8; 0x14; 0xde; 0x5e; 0x0b; 0xdb;
   0xe0; 0x32; 0x3a; 0x0a; 0x49; 0x06; 0x24; 0x5c; 0xc2; 0xd3; 0xac; 0x62; 0x91; 0x95; 0xe4; 0x79;
   0xe7; 0xc8; 0x37; 0x6d; 0x8d; 0xd5; 0x4e; 0xa9; 0x6c; 0x56; 0xf4; 0xea; 0x65; 0x7a; 0xae; 0x08;
   0xba; 0x78; 0x25; 0x2e; 0x1c; 0xa6; 0xb4; 0xc6; 0xe8; 0xdd; 0x74; 0x1f; 0x4b; 0xbd; 0x8b; 0x8a;
   0x70; 0x3e; 0xb5; 0x66; 0x48; 0x03; 0xf6; 0x0e; 0x61; 0x35; 0x57; 0xb9; 0x86; 0xc1; 0x1d; 0x9e;
   0xe1; 0xf8; 0x98; 0x11; 0x69; 0xd9; 0x8e; 0x94; 0x9b; 0x1e; 0x87; 0xe9; 0xce; 0x55; 0x28; 0xdf;
   0x8c; 0xa1; 0x89; 0x0d; 0xbf; 0xe6; 0x42; 0x68; 0x41; 0x99; 0x2d; 0x0f; 0xb0; 0x54; 0xbb; 0x16].
Definition RCON : list Z := [0x01; 0x02; 0x04; 0x08; 0x10; 0x20; 0x40; 0x80; 0x1b; 0x36].
(** SBOX[x] *)
Definition sbox (x : Z) : Z := SBOX.[Z.to_nat x].

(** rk[r][c] is byte 16 r + c of [a_rk]. *)
Record aes : Type := mkAes {
  a_rk : list Z;
  a_rounds : nat;
}.
Definition rk_at (rk : list Z) (r c : nat) : Z := rk.[16 * r + c].

(** One pass of the schedule's loop: the rows are filled up to word [i]. *)
Definition expand_word (nk : nat) (rk : list Z) (i : nat) : list Z :=
  let t := List.map (λ j, rk_at rk ((i - 1) / 4) ((i - 1) mod 4 * 4 + j)) (seq 0 4) in
  let t :=
    if (i mod nk =? 0)%nat then
      let tmp := t.[0] in
      [u8 (Z.lxor (sbox t.[1]) RCON.[i / nk - 1]); sbox t.[2]; sbox t.[3]; sbox tmp]
    else if (6 <? nk)%nat && (i mod nk =? 4)%nat then List.map sbox t
    else t in
  rk ++ List.map (λ j, u8 (Z.lxor (rk_at rk ((i - nk) / 4) ((i - nk) mod 4 * 4 + j)) t.[j])) (seq 0 4).

(** [None] is the return of 0. *)
Definition aes_expand (key : list Z) : option aes :=
  let klen := length key in
  let go rounds :=
    let nk := (klen / 4)%nat in
    let nw := ((rounds + 1) * 4)%nat in
    Some (mkAes (foldl (expand_word nk) key (seq nk (nw - nk))) rounds) in
  if (klen =? 16)%nat then go 10%nat
  else if (klen =? 32)%nat then go 14%nat
  else None.

Definition xtime (x : Z) : Z :=
  u8 (Z.lxor (u8 (Z.shiftl x 1)) (u8 (Z.land 0x1b (u8 (- Z.shiftr x 7))))).

Definition mix_column (t : list Z) (c : nat) : list Z :=
  let a0 := t.[4 * c] in let a1 := t.[4 * c + 1] in let a2 := t.[4 * c + 2] in let a3 := t.[4 * c + 3] in
  let x := u8 (Z.lxor (Z.lxor (Z.lxor a0 a1) a2) a3) in
  [u8 (Z.lxor (Z.lxor a0 x) (xtime (u8 (Z.lxor a0 a1)))); u8 (Z.lxor (Z.lxor a1 x) (xtime (u8 (Z.lxor a1 a2))));
   u8 (Z.lxor (Z.lxor a2 x) (xtime (u8 (Z.lxor a2 a3)))); u8 (Z.lxor (Z.lxor a3 x) (xtime (u8 (Z.lxor a3 a0))))].

Definition aes_round (a : aes) (s : list Z) (r : nat) : list Z :=
  let s := List.map sbox s in
  let t := List.map (λ i, s.[(i + 4 * (i mod 4)) mod 16]) (seq 0 16) in
  let t := if (r =? a_rounds a)%nat then t else flat_map (mix_column t) (seq 0 4) in
  List.map (λ i, u8 (Z.lxor t.[i] (rk_at (a_rk a) r i))) (seq 0 16).

Definition aes_encrypt_block (a : aes) (inp : list Z) : list Z :=
  let s := List.map (λ i, u8 (Z.lxor inp.[i] (rk_at (a_rk a) 0 i))) (seq 0 16) in
  foldl (aes_round a) s (seq 1 (a_rounds a)).

(** The counter block with its low 32 bits advanced. *)
Definition ctr_next (ctr : list Z) : list Z :=
  let c := u32be (drop 12 ctr) in
  take 12 ctr ++ p32be (u32 (c + 1)).

(** for (off = 0; off < len; off += 16); [k] bounds the blocks. *)
Fixpoint ctr_loop (k : nat) (a : aes) (ctr inp : list Z) : list Z * list Z :=
  match k with
  | O => ([], ctr)
  | S k =>
      match inp with
      | [] => ([], ctr)
      | _ =>
          let ks := aes_encrypt_block a ctr in
          let n := if (16 <? length inp)%nat then 16%nat else length inp in
          let out := List.map (λ i, u8 (Z.lxor inp.[i] ks.[i])) (seq 0 n) in
          let (rest, ctr) := ctr_loop k a (ctr_next ctr) (drop 16 inp) in
          (out ++ rest, ctr)
      end
  end.
Definition aes_ctr_xor (a : aes) (ctr inp : list Z) : list Z * list Z := ctr_loop (length inp) a ctr inp.

(** FIPS 197, appendix C.1. *)
Example aes128_fips :
  match aes_expand (List.map Z.of_nat (seq 0 16)) with
  | Some a => aes_encrypt_block a (List.map (λ i, 17 * Z.of_nat i) (seq 0 16))
  | None => []
  end = bytes_from p32be [0x69c4e0d8; 0x6a7b0430; 0xd8cdb780; 0x70b4c55a].
Proof. by vm_compute. Qed.
(** Appendix C.3. *)
Example aes256_fips :
  match aes_expand (List.map Z.of_nat (seq 0 32)) with
  | Some a => aes_encrypt_block a (List.map (λ i, 17 * Z.of_nat i) (seq 0 16))
  | None => []
  end = bytes_from p32be [0x8ea2b7ca; 0x516745bf; 0xeafc4990; 0x4b496089].
Proof. by vm_compute. Qed.

(** * FIPS 197 *)

(** The product in GF(2^8): polynomials over bits, modulo x^8 + x^4 + x^3 + x + 1. *)
Fixpoint clmul (n : nat) (a b : Z) : Z :=
  match n with
  | O => 0
  | S n => Z.lxor (if Z.odd b then a else 0) (clmul n (2 * a) (b / 2))
  end.
Fixpoint clmod (n : nat) (a : Z) : Z :=
  match n with
  | O => a
  | S k => clmod k (if Z.testbit a (Z.of_nat (7 + n)) then Z.lxor a (0x11b * 2 ^ Z.of_nat k) else a)
  end.
Definition gmul (a b : Z) : Z := clmod 7 (clmul 8 a b).
Definition bytes_all : list Z := List.map Z.of_nat (seq 0 256).
(** The inverse, zero for zero. *)
Definition ginv (a : Z) : Z := default 0 (List.find (λ b, gmul a b =? 1) bytes_all).
(** 5.1.1: the inverse under the affine map, bit by bit. *)
Definition sub_byte (x : Z) : Z :=
  let b := ginv x in
  let bit i := Z.testbit b (Z.of_nat (i mod 8)) in
  foldr (λ i acc, Z.b2z (xorb (xorb (xorb (xorb (xorb (bit i) (bit (i + 4)%nat)) (bit (i + 5)%nat)) (bit (i + 6)%nat)) (bit (i + 7)%nat))
                          (Z.testbit 0x63 (Z.of_nat i))) * 2 ^ Z.of_nat i + acc) 0 (seq 0 8).

(** The state column by column: s[r, c] is byte r + 4c. *)
Definition shift_rows (s : list Z) : list Z :=
  List.map (λ i, let r := (i mod 4)%nat in let c := (i / 4)%nat in s.[r + 4 * ((c + r) mod 4)]) (seq 0 16).
Definition mix_columns (s : list Z) : list Z :=
  flat_map (λ c, let a r := s.[r + 4 * c] in
    [Z.lxor (Z.lxor (Z.lxor (gmul 2 (a 0%nat)) (gmul 3 (a 1%nat))) (a 2%nat)) (a 3%nat);
     Z.lxor (Z.lxor (Z.lxor (a 0%nat) (gmul 2 (a 1%nat))) (gmul 3 (a 2%nat))) (a 3%nat);
     Z.lxor (Z.lxor (Z.lxor (a 0%nat) (a 1%nat)) (gmul 2 (a 2%nat))) (gmul 3 (a 3%nat));
     Z.lxor (Z.lxor (Z.lxor (gmul 3 (a 0%nat)) (a 1%nat)) (a 2%nat)) (gmul 2 (a 3%nat))]) (seq 0 4).

(** 5.2: the schedule in words of four bytes. *)
Definition rot_word (w : list Z) : list Z := drop 1 w ++ take 1 w.
Definition rcon (j : nat) : list Z := [Nat.iter (j - 1) (gmul 2) 1; 0; 0; 0].
Definition fips_word (nk : nat) (w : list (list Z)) (i : nat) : list (list Z) :=
  let temp := nth (i - 1) w [] in
  let temp :=
    if (i mod nk =? 0)%nat then xor_list (List.map sub_byte (rot_word temp)) (rcon (i / nk))
    else if (6 <? nk)%nat && (i mod nk =? 4)%nat then List.map sub_byte temp
    else temp in
  w ++ [xor_list (nth (i - nk) w []) temp].
Fixpoint words4 (k : nat) (l : list Z) : list (list Z) :=
  match k with
  | O => []
  | S k => take 4 l :: words4 k (drop 4 l)
  end.
Definition key_expansion (nk nr : nat) (key : list Z) : list (list Z) :=
  foldl (fips_word nk) (words4 nk key) (seq nk (4 * (nr + 1) - nk)).
(** 5.1: the cipher, with the words of the schedule. *)
Definition round_key (w : list (list Z)) (r : nat) : list Z := concat (take 4 (drop (4 * r) w)).
Definition cipher_round (nr : nat) (w : list (list Z)) (s : list Z) (r : nat) : list Z :=
  let s := shift_rows (List.map sub_byte s) in
  xor_list (if (r =? nr)%nat then s else mix_columns s) (round_key w r).
Definition cipher (nr : nat) (w : list (list Z)) (inp : list Z) : list Z :=
  foldl (cipher_round nr w) (xor_list inp (round_key w 0)) (seq 1 nr).

(** ** Bytes *)

Lemma bytes_forall (P : Z → bool) : forallb P bytes_all = true → ∀ x, byte_ok x → P x = true.
Proof.
  intros H x Hx. rewrite forallb_forall in H. apply H. unfold bytes_all. apply in_map_iff.
  exists (Z.to_nat x). unfold byte_ok in Hx. rewrite in_seq. lia.
Qed.
Lemma sbox_fips x : byte_ok x → sbox x = sub_byte x ∧ byte_ok (sub_byte x).
Proof.
  intros Hx. pose proof (bytes_forall (λ x, (sbox x =? sub_byte x) && (0 <=? sub_byte x) && (sub_byte x <? 256)) ltac:(vm_compute; reflexivity) x Hx) as H.
  rewrite !andb_true_iff, !Z.eqb_eq, Z.leb_le, Z.ltb_lt in H. unfold byte_ok. tauto.
Qed.
Lemma xtime_fips x : byte_ok x → xtime x = gmul 2 x ∧ gmul 3 x = Z.lxor (gmul 2 x) x ∧ byte_ok (gmul 2 x).
Proof.
  intros Hx. pose proof (bytes_forall (λ x, (xtime x =? gmul 2 x) && (gmul 3 x =? Z.lxor (gmul 2 x) x) && (0 <=? gmul 2 x) && (gmul 2 x <? 256))
    ltac:(vm_compute; reflexivity) x Hx) as H.
  rewrite !andb_true_iff, !Z.eqb_eq, Z.leb_le, Z.ltb_lt in H. unfold byte_ok. tauto.
Qed.
Lemma byte_lxor x y : byte_ok x → byte_ok y → byte_ok (Z.lxor x y).
Proof. apply (lxor_ok 8). lia. Qed.
(** Doubling is linear: in the low half of a byte, in the high half, hence in all of it. *)
Definition half_bytes (w : Z) : list Z := List.map (λ i, w * Z.of_nat i) (seq 0 16).
Lemma xtime_half w x y : w = 1 ∨ w = 16 → byte_ok x → 0 <= y < 16 → xtime (Z.lxor x (w * y)) = Z.lxor (xtime x) (xtime (w * y)).
Proof.
  intros Hw Hx Hy. assert (forallb (λ x, forallb (λ y, xtime (Z.lxor x y) =? Z.lxor (xtime x) (xtime y)) (half_bytes w)) bytes_all = true) as H.
  { destruct Hw as [-> | ->]; vm_compute; reflexivity. }
  apply (bytes_forall _ H) in Hx. rewrite forallb_forall in Hx. apply Z.eqb_eq, Hx, in_map_iff.
  exists (Z.to_nat y). rewrite in_seq. split; [f_equal|]; lia.
Qed.
Lemma xtime_lxor x y : byte_ok x → byte_ok y → xtime (Z.lxor x y) = Z.lxor (xtime x) (xtime y).
Proof.
  intros Hx Hy. unfold byte_ok in Hy. pose proof (Z.div_mod y 16 ltac:(lia)) as E. pose proof (Z.mod_pos_bound y 16 ltac:(lia)).
  assert (0 <= y / 16 < 16) by (split; [apply Z.div_pos|apply Z.div_lt_upper_bound]; lia).
  set (l := y mod 16) in *. set (h := y / 16) in *. clearbody l h.
  assert (y = Z.lxor (1 * l) (16 * h)) as ->.
  { pose proof (lxor_add 4 l 0 0 h ltac:(lia) ltac:(unfold word_ok; lia) ltac:(unfold word_ok; lia)) as F.
    rewrite Z.lxor_0_r, Z.lxor_0_l in F. change (2 ^ 4) with 16 in F.
    replace (l + 0 * 16) with (1 * l) in F by ring. replace (0 + h * 16) with (16 * h) in F by ring. lia. }
  rewrite <-Z.lxor_assoc, (xtime_half 16), (xtime_half 1), (xtime_half 16), Z.lxor_assoc;
    first [done|tauto|apply byte_lxor; unfold byte_ok in *; lia|unfold byte_ok in *; lia].
Qed.
Lemma u8_small x : byte_ok x → u8 x = x.
Proof. apply (wrap_small 8). Qed.

(** ** A round *)

#[local] Opaque sub_byte gmul sbox xtime.

Abbreviation block_ok s := (bytes_ok s ∧ length s = 16%nat).

Lemma nth_byte l i : bytes_ok l → byte_ok l.[i].
Proof. by apply (word_nth 8). Qed.

Lemma sub_bytes_fips s : block_ok s → List.map sbox s = List.map sub_byte s ∧ block_ok (List.map sbox s).
Proof.
  intros [H L]. rewrite List.length_map. rewrite <-L. clear L. induction H as [|x s Hx H IH]; [done|].
  destruct IH as [E [B _]], (sbox_fips x Hx) as [Ex Bx]. cbn [List.map length].
  rewrite E, Ex in *. split; [reflexivity|]. split; [by constructor|reflexivity].
Qed.

Lemma shift_rows_fips s : block_ok s →
  List.map (λ i, s.[(i + 4 * (i mod 4)) mod 16]) (seq 0 16) = shift_rows s ∧ block_ok (shift_rows s).
Proof.
  intros [H L]. split; [reflexivity|]. split; [|done]. unfold shift_rows. rewrite Forall_forall. intros x Hx.
  apply list_elem_of_In, in_map_iff in Hx as (i & <- & _). by apply nth_byte.
Qed.

(** A column through the mixing matrix, with the code's sum of the whole column. *)
Lemma mix_column_fips t c : bytes_ok t →
  mix_column t c =
    (let a r := t.[r + 4 * c] in
    [Z.lxor (Z.lxor (Z.lxor (gmul 2 (a 0%nat)) (gmul 3 (a 1%nat))) (a 2%nat)) (a 3%nat);
     Z.lxor (Z.lxor (Z.lxor (a 0%nat) (gmul 2 (a 1%nat))) (gmul 3 (a 2%nat))) (a 3%nat);
     Z.lxor (Z.lxor (Z.lxor (a 0%nat) (a 1%nat)) (gmul 2 (a 2%nat))) (gmul 3 (a 3%nat));
     Z.lxor (Z.lxor (Z.lxor (gmul 3 (a 0%nat)) (a 1%nat)) (a 2%nat)) (gmul 2 (a 3%nat))]) ∧ bytes_ok (mix_column t c).
Proof.
  intros Ht. unfold mix_column. rewrite !(Nat.add_comm (4 * c)). cbn zeta. change (0 + 4 * c)%nat with (4 * c)%nat.
  pose proof (nth_byte t (4 * c) Ht) as H0. pose proof (nth_byte t (1 + 4 * c) Ht) as H1.
  pose proof (nth_byte t (2 + 4 * c) Ht) as H2. pose proof (nth_byte t (3 + 4 * c) Ht) as H3.
  set (a0 := t.[4 * c]) in *. set (a1 := t.[1 + 4 * c]) in *. set (a2 := t.[2 + 4 * c]) in *. set (a3 := t.[3 + 4 * c]) in *.
  clearbody a0 a1 a2 a3.
  destruct (xtime_fips a0 H0) as (E0 & F0 & B0), (xtime_fips a1 H1) as (E1 & F1 & B1), (xtime_fips a2 H2) as (E2 & F2 & B2), (xtime_fips a3 H3) as (E3 & F3 & B3).
  assert (∀ x y, byte_ok x → byte_ok y → byte_ok (Z.lxor x y)) as B by apply byte_lxor.
  rewrite (u8_small (Z.lxor (Z.lxor (Z.lxor a0 a1) a2) a3)) by auto.
  rewrite (u8_small (Z.lxor a0 a1)), (u8_small (Z.lxor a1 a2)), (u8_small (Z.lxor a2 a3)), (u8_small (Z.lxor a3 a0)) by auto.
  rewrite !xtime_lxor, E0, E1, E2, E3, F0, F1, F2, F3 by assumption. rewrite !u8_small by auto 10.
  split; [|repeat (constructor; [by auto 10|]); constructor].
  repeat (apply (f_equal2 cons)); [..|reflexivity]; apply Z.bits_inj'; intros i Hi; rewrite !Z.lxor_spec;
    by destruct (Z.testbit a0 i), (Z.testbit a1 i), (Z.testbit a2 i), (Z.testbit a3 i), (Z.testbit (gmul 2 a0) i),
      (Z.testbit (gmul 2 a1) i), (Z.testbit (gmul 2 a2) i), (Z.testbit (gmul 2 a3) i).
Qed.

Lemma mix_columns_fips t : block_ok t → flat_map (mix_column t) (seq 0 4) = mix_columns t ∧ block_ok (mix_columns t).
Proof.
  intros [Ht _]. assert (flat_map (mix_column t) (seq 0 4) = mix_columns t) as E.
  { unfold mix_columns. apply flat_map_ext. intros c. by apply mix_column_fips. }
  split; [done|]. rewrite <-E. cbn [seq flat_map]. split; [|done].
  repeat (apply Forall_app; split; [by apply mix_column_fips|]). constructor.
Qed.

(** ** The schedule *)

Abbreviation word4 w := (length w = 4%nat ∧ bytes_ok w).

Lemma concat_take n (w : list (list Z)) : Forall (λ x, length x = 4%nat) w → concat (take n w) = take (4 * n) (concat w).
Proof.
  intros H. revert n. induction H as [|x w Hx H IH]; intros n; [rewrite take_nil; cbn [concat]; by rewrite take_nil|].
  destruct n as [|n]; [done|]. rewrite firstn_cons. cbn [concat]. rewrite IH.
  replace (4 * S n)%nat with (length x + 4 * n)%nat by lia. by rewrite take_app_add.
Qed.
Lemma concat_drop n (w : list (list Z)) : Forall (λ x, length x = 4%nat) w → concat (drop n w) = drop (4 * n) (concat w).
Proof.
  intros H. revert n. induction H as [|x w Hx H IH]; intros n; [rewrite drop_nil; cbn [concat]; by rewrite drop_nil|].
  destruct n as [|n]; [done|]. rewrite skipn_cons. cbn [concat]. rewrite IH.
  replace (4 * S n)%nat with (length x + 4 * n)%nat by lia. by rewrite drop_app_add.
Qed.
Lemma concat_nth m j w : Forall (λ x, length x = 4%nat) w → (m < length w)%nat → (j < 4)%nat →
  (concat w).[4 * m + j] = (nth m w []).[j].
Proof.
  intros H. revert m. induction H as [|x w Hx H IH]; intros m Hm Hj; [cbn in Hm; lia|].
  cbn [concat]. destruct m as [|m].
  - by rewrite app_nth1 by lia.
  - rewrite app_nth2 by lia. cbn [nth length] in *. rewrite <-IH by lia. f_equal. lia.
Qed.
Lemma concat_length4 (w : list (list Z)) : Forall (λ x, length x = 4%nat) w → length (concat w) = (4 * length w)%nat.
Proof. induction 1 as [|x w Hx H IH]; cbn [concat length]; rewrite ?length_app; lia. Qed.

Lemma rk_word w m j : Forall (λ x, length x = 4%nat) w → (m < length w)%nat → (j < 4)%nat →
  rk_at (concat w) (m / 4) (m mod 4 * 4 + j) = (nth m w []).[j].
Proof.
  intros H Hm Hj. unfold rk_at. rewrite <-concat_nth by done. f_equal. pose proof (Nat.div_mod m 4 ltac:(lia)). lia.
Qed.

Lemma RCON_fips q : (1 <= q <= 10)%nat → RCON.[q - 1] = Nat.iter (q - 1) (gmul 2) 1 ∧ byte_ok RCON.[q - 1].
Proof.
  intros Hq. assert (Forall (λ q, RCON.[q] = Nat.iter q (gmul 2) 1 ∧ byte_ok RCON.[q]) (seq 0 10)) as H.
  { by apply (bool_decide_unpack _); vm_compute. }
  rewrite Forall_forall in H. apply (H (q - 1)%nat), elem_of_seq. lia.
Qed.

Definition sched_ok (w : list (list Z)) : Prop := Forall (λ x, word4 x) w.
Lemma sched_len w : sched_ok w → Forall (λ x, length x = 4%nat) w.
Proof. intros H. eapply Forall_impl; [exact H|]. by intros x [? _]. Qed.

Lemma nth_word w m : sched_ok w → (m < length w)%nat → word4 (nth m w []).
Proof. intros H Hm. unfold sched_ok in H. rewrite Forall_forall in H. by apply H, list_elem_of_In, nth_In. Qed.
Lemma xor_word a b : word4 a → word4 b → List.map (λ j, u8 (Z.lxor a.[j] b.[j])) (seq 0 4) = xor_list a b ∧ word4 (xor_list a b).
Proof.
  intros [La Ba] [Lb Bb]. destruct a as [|a0 [|a1 [|a2 [|a3 [|? a]]]]], b as [|b0 [|b1 [|b2 [|b3 [|? b]]]]]; try discriminate.
  repeat match goal with H : bytes_ok (_ :: _) |- _ => apply Forall_cons in H as [? H] end.
  cbn [seq List.map nth xor_list zip_with length]. rewrite !u8_small by (by apply byte_lxor).
  split; [reflexivity|]. split; [reflexivity|]. repeat (constructor; [by apply byte_lxor|]). constructor.
Qed.
Lemma map_word f a : (∀ x, byte_ok x → byte_ok (f x)) → word4 a → word4 (List.map f a).
Proof.
  intros Hf [La Ba]. rewrite List.length_map. split; [done|]. clear La. induction Ba; cbn; constructor; auto.
Qed.

(** The word that the loop derives from the previous one. *)
Lemma temp_fips nk i t : (0 < nk)%nat → (1 <= i / nk <= 10)%nat → word4 t →
  (if (i mod nk =? 0)%nat then [u8 (Z.lxor (sbox t.[1]) RCON.[i / nk - 1]); sbox t.[2]; sbox t.[3]; sbox t.[0]]
   else if (6 <? nk)%nat && (i mod nk =? 4)%nat then List.map sbox t else t) =
  (if (i mod nk =? 0)%nat then xor_list (List.map sub_byte (rot_word t)) (rcon (i / nk))
   else if (6 <? nk)%nat && (i mod nk =? 4)%nat then List.map sub_byte t else t) ∧
  word4 (if (i mod nk =? 0)%nat then xor_list (List.map sub_byte (rot_word t)) (rcon (i / nk))
   else if (6 <? nk)%nat && (i mod nk =? 4)%nat then List.map sub_byte t else t).
Proof.
  intros Hnk Hq [Lt Bt]. destruct t as [|t0 [|t1 [|t2 [|t3 [|? t]]]]]; try discriminate.
  repeat match goal with H : bytes_ok (_ :: _) |- _ => apply Forall_cons in H as [? H] end.
  destruct (sbox_fips t0) as [E0 B0], (sbox_fips t1) as [E1 B1], (sbox_fips t2) as [E2 B2], (sbox_fips t3) as [E3 B3]; [assumption..|].
  destruct (i mod nk =? 0)%nat; [|destruct ((6 <? nk)%nat && (i mod nk =? 4)%nat)].
  - destruct (RCON_fips (i / nk) Hq) as [Er Br]. unfold xor_list, rot_word, rcon.
    cbn [drop take app List.map zip_with nth length]. rewrite <-Er, E0, E1, E2, E3, !Z.lxor_0_r, u8_small by (by apply byte_lxor).
    split; [reflexivity|]. split; [reflexivity|]. repeat (constructor; [assumption || by apply byte_lxor|]). constructor.
  - cbn [List.map length]. rewrite E0, E1, E2, E3. split; [reflexivity|]. split; [reflexivity|].
    repeat (constructor; [assumption|]). constructor.
  - split; [reflexivity|]. split; [reflexivity|]. repeat (constructor; [assumption|]). constructor.
Qed.

Lemma expand_word_fips nk w i : (0 < nk)%nat → (1 <= i / nk <= 10)%nat → (nk <= i)%nat → sched_ok w → length w = i →
  expand_word nk (concat w) i = concat (fips_word nk w i) ∧ sched_ok (fips_word nk w i) ∧ length (fips_word nk w i) = S i.
Proof.
  intros Hnk Hq Hi Hw Hl. pose proof (sched_len w Hw) as H4. unfold expand_word, fips_word.
  pose proof (nth_word w (i - 1) Hw ltac:(lia)) as Wt. pose proof (nth_word w (i - nk) Hw ltac:(lia)) as Wn.
  assert (List.map (λ j, rk_at (concat w) ((i - 1) / 4) ((i - 1) mod 4 * 4 + j)) (seq 0 4) = nth (i - 1) w []) as ->.
  { rewrite (map_nth_seq (nth (i - 1) w []) 4) by apply Wt. apply List.map_ext_in. intros j Hj%in_seq. apply rk_word; [done|lia..]. }
  cbn zeta. set (t := nth (i - 1) w []) in *. destruct (temp_fips nk i t Hnk Hq Wt) as [-> Wt'].
  revert Wt'. match goal with |- word4 ?x → _ => generalize x end. intros t' Wt'. clearbody t. destruct (xor_word (nth (i - nk) w []) t' Wn Wt') as [Ex Wx].
  rewrite (List.map_ext_in _ (λ j, u8 (Z.lxor (nth (i - nk) w []).[j] t'.[j]))).
  2: { intros j Hj%in_seq. by rewrite rk_word by (done || lia). }
  rewrite Ex, concat_app. cbn [concat]. rewrite app_nil_r. split; [reflexivity|]. split.
  - apply Forall_app. split; [exact Hw|]. constructor; [exact Wx|constructor].
  - rewrite length_app, Hl. cbn [length]. lia.
Qed.

Lemma expand_fips nk n : ∀ i w, (0 < nk)%nat → (∀ j, (i <= j < i + n)%nat → (1 <= j / nk <= 10)%nat) → (nk <= i)%nat → sched_ok w → length w = i →
  foldl (expand_word nk) (concat w) (seq i n) = concat (foldl (fips_word nk) w (seq i n)) ∧
  sched_ok (foldl (fips_word nk) w (seq i n)) ∧ length (foldl (fips_word nk) w (seq i n)) = (i + n)%nat.
Proof.
  induction n as [|n IH]; intros i w Hnk Hj Hi Hw Hl; cbn [seq foldl].
  { split_and!; [done..|lia]. }
  destruct (expand_word_fips nk w i) as (-> & Hw' & Hl'); [done|apply Hj; lia|done..|].
  destruct (IH (S i) (fips_word nk w i)) as (E & Hw'' & Hl''); [done|intros j ?; apply Hj; lia|lia|done..|].
  split; [exact E|]. split; [exact Hw''|]. lia.
Qed.

Lemma words4_ok k l : bytes_ok l → length l = (4 * k)%nat → sched_ok (words4 k l) ∧ concat (words4 k l) = l ∧ length (words4 k l) = k.
Proof.
  revert l. induction k as [|k IH]; intros l Bl Ll; cbn [words4].
  { split_and!; [constructor| |done]. by destruct l. }
  destruct (IH (drop 4 l)) as (H & E & L); [by apply Forall_drop|rewrite length_drop; lia|].
  split_and!; [|cbn [concat]; by rewrite E, take_drop|cbn [length]; lia].
  constructor; [|done]. split; [rewrite length_take; lia|by apply Forall_take].
Qed.

(** ** The cipher *)

Lemma add_key_fips t w r : block_ok t → sched_ok w → (4 * (r + 1) <= length w)%nat →
  List.map (λ i, u8 (Z.lxor t.[i] (rk_at (concat w) r i))) (seq 0 16) = xor_list t (round_key w r) ∧
  block_ok (xor_list t (round_key w r)).
Proof.
  intros [Bt Lt] Hw Hr. pose proof (sched_len w Hw) as H4. unfold round_key.
  rewrite concat_take, concat_drop by (done || by apply Forall_drop). change (4 * 4)%nat with 16%nat.
  set (k := take 16 _). assert (length k = 16%nat) as Lk.
  { unfold k. rewrite length_take, length_drop, concat_length4 by done. lia. }
  assert (bytes_ok k) as Bk.
  { unfold k. apply Forall_take, Forall_drop. clear - Hw. induction Hw as [|x w [_ Hx] Hw IH]; [constructor|]. cbn. by apply Forall_app. }
  assert (xor_list t k = List.map (λ i, Z.lxor t.[i] k.[i]) (seq 0 16)) as ->.
  { by rewrite <-(zip_with_map Z.lxor (λ i, t.[i]) (λ i, k.[i])), <-(map_nth_seq t 16 Lt), <-(map_nth_seq k 16 Lk). }
  assert (List.map (λ i, u8 (Z.lxor t.[i] (rk_at (concat w) r i))) (seq 0 16) = List.map (λ i, Z.lxor t.[i] k.[i]) (seq 0 16)) as E.
  { apply List.map_ext_in. intros i Hi%in_seq. replace (rk_at (concat w) r i) with k.[i].
    - apply u8_small, byte_lxor; by apply nth_byte.
    - unfold k, rk_at. rewrite nth_firstn, nth_skipn. rewrite (proj2 (Nat.ltb_lt _ _)) by lia. f_equal. lia. }
  split; [exact E|]. split; [|by rewrite List.length_map].
  rewrite Forall_forall. intros x Hx. apply list_elem_of_In, in_map_iff in Hx as (i & <- & _).
  apply byte_lxor; by apply nth_byte.
Qed.

Lemma round_cipher w nr s r : block_ok s → sched_ok w → (4 * (r + 1) <= length w)%nat →
  aes_round (mkAes (concat w) nr) s r = cipher_round nr w s r ∧ block_ok (cipher_round nr w s r).
Proof.
  intros Hs Hw Hr. unfold aes_round, cipher_round. cbn [a_rk a_rounds].
  destruct (sub_bytes_fips s Hs) as [E1 H1]. rewrite E1 in *. destruct (shift_rows_fips _ H1) as [E2 H2]. rewrite E2.
  destruct (mix_columns_fips _ H2) as [E3 H3]. rewrite E3. clear E1 E2 E3.
  destruct (r =? nr)%nat; by apply add_key_fips.
Qed.

Lemma rounds_cipher w nr l s : block_ok s → sched_ok w → Forall (λ r, (4 * (r + 1) <= length w)%nat) l →
  foldl (aes_round (mkAes (concat w) nr)) s l = foldl (cipher_round nr w) s l.
Proof.
  intros Hs Hw F. revert s Hs. induction F as [|r l Hr F IH]; intros s Hs; [reflexivity|]. cbn [foldl].
  destruct (round_cipher w nr s r Hs Hw Hr) as [-> Hs']. by apply IH.
Qed.

Lemma encrypt_cipher w nr inp : block_ok inp → sched_ok w → length w = (4 * (nr + 1))%nat →
  aes_encrypt_block (mkAes (concat w) nr) inp = cipher nr w inp.
Proof.
  intros Hi Hw Hl. unfold aes_encrypt_block, cipher. cbn [a_rk a_rounds].
  destruct (add_key_fips inp w 0 Hi Hw ltac:(lia)) as [-> H0]. apply rounds_cipher; [done..|]. apply Forall_seq. lia.
Qed.

Lemma expand_key nk nr key : (nk = 4 ∧ nr = 10 ∨ nk = 8 ∧ nr = 14)%nat → bytes_ok key → length key = (4 * nk)%nat →
  foldl (expand_word nk) key (seq nk ((nr + 1) * 4 - nk)) = concat (key_expansion nk nr key) ∧
  sched_ok (key_expansion nk nr key) ∧ length (key_expansion nk nr key) = (4 * (nr + 1))%nat.
Proof.
  intros Hn Bk Lk. destruct (words4_ok nk key Bk Lk) as (Hw & E & L). unfold key_expansion. rewrite <-E at 1.
  replace ((nr + 1) * 4 - nk)%nat with (4 * (nr + 1) - nk)%nat by lia.
  destruct (expand_fips nk (4 * (nr + 1) - nk) nk (words4 nk key)) as (E' & H & L'); [lia| |lia|done..|].
  - intros j Hj. pose proof (Nat.div_mod j nk ltac:(lia)). pose proof (Nat.mod_upper_bound j nk ltac:(lia)).
    destruct Hn as [[-> ->]|[-> ->]]; lia.
  - split; [exact E'|]. split; [exact H|]. rewrite L'. lia.
Qed.

(** C38: The cipher is FIPS 197's: a key of 16 or 32 bytes expands to the standard's schedule
    and encrypts every block as the standard's cipher of 10 or 14 rounds; any other length
    is refused.  The substitution box is inversion in GF(2^8) under the affine map, and the
    column mixing is the product with the standard's matrix. *)
Theorem aes_encrypt_fips (key inp : list Z) (Bk : bytes_ok key) (Bi : bytes_ok inp) (Li : length inp = 16%nat) :
  match aes_expand key with
  | Some a =>
      let nk := (length key / 4)%nat in
      (length key = 16 ∨ length key = 32)%nat ∧ a_rounds a = (nk + 6)%nat ∧
      aes_encrypt_block a inp = cipher (nk + 6) (key_expansion nk (nk + 6) key) inp
  | None => length key ≠ 16%nat ∧ length key ≠ 32%nat
  end.
Proof.
  unfold aes_expand. destruct (Nat.eqb_spec (length key) 16) as [E|]; [|destruct (Nat.eqb_spec (length key) 32) as [E|]; [|done]];
    rewrite E; cbn zeta; change (16 / 4)%nat with 4%nat; change (32 / 4)%nat with 8%nat; (split; [lia|]); (split; [reflexivity|]).
  - destruct (expand_key 4 10 key) as (-> & H & L); [lia|done|lia|]. by apply encrypt_cipher.
  - destruct (expand_key 8 14 key) as (-> & H & L); [lia|done|lia|]. by apply encrypt_cipher.
Qed.
Lemma aes_encrypt_fips_witness :
  match aes_expand (repeat 1 32) with
  | Some a =>
      let nk := (length (repeat 1 32) / 4)%nat in
      (length (repeat 1 32) = 16 ∨ length (repeat 1 32) = 32)%nat ∧ a_rounds a = (nk + 6)%nat ∧
      aes_encrypt_block a (repeat 2 16) = cipher (nk + 6) (key_expansion nk (nk + 6) (repeat 1 32)) (repeat 2 16)
  | None => length (repeat 1 32) ≠ 16%nat ∧ length (repeat 1 32) ≠ 32%nat
  end.
Proof. apply (aes_encrypt_fips (repeat 1 32) (repeat 2 16)); [by apply (bool_decide_unpack _)..|done]. Defined.

(** ** Counter mode *)

Lemma wrap_lxor_twice x k : byte_ok x → u8 (Z.lxor (u8 (Z.lxor x k)) k) = x.
Proof.
  intros Hx. rewrite <-(u8_small x Hx) at 2. apply Z.bits_inj'. intros i Hi. unfold u8, wrap.
  destruct (Z.lt_ge_cases i 8).
  - rewrite !Z.mod_pow2_bits_low, !Z.lxor_spec by lia. rewrite Z.mod_pow2_bits_low, Z.lxor_spec by lia.
    by destruct (Z.testbit x i), (Z.testbit k i).
  - by rewrite !Z.mod_pow2_bits_high by lia.
Qed.

(** The bytes of one block. *)
Definition xor_block (inp ks : list Z) : list Z := List.map (λ i, u8 (Z.lxor inp.[i] ks.[i])) (seq 0 (length inp)).
Lemma xor_block_length inp ks : length (xor_block inp ks) = length inp.
Proof. unfold xor_block. by rewrite List.length_map, List.length_seq. Qed.
Lemma xor_block_twice inp ks : bytes_ok inp → xor_block (xor_block inp ks) ks = inp.
Proof.
  intros B. unfold xor_block at 1. rewrite xor_block_length. transitivity (List.map (λ i, inp.[i]) (seq 0 (length inp))); [|by rewrite <-map_nth_seq].
  apply List.map_ext_in. intros i Hi%in_seq. unfold xor_block.
  rewrite (nth_indep _ 0 (u8 (Z.lxor inp.[0] ks.[0]))) by (rewrite List.length_map, List.length_seq; lia).
  rewrite (map_nth (λ i, u8 (Z.lxor inp.[i] ks.[i]))), seq_nth by lia. cbn [Nat.add]. apply wrap_lxor_twice. by apply nth_byte.
Qed.

Lemma ctr_loop_S k a ctr inp : inp ≠ [] →
  ctr_loop (S k) a ctr inp =
  (xor_block (take 16 inp) (aes_encrypt_block a ctr) ++ fst (ctr_loop k a (ctr_next ctr) (drop 16 inp)),
   snd (ctr_loop k a (ctr_next ctr) (drop 16 inp))).
Proof.
  intros Hi. cbn [ctr_loop]. destruct inp as [|x inp]; [done|]. set (l := x :: inp).
  assert ((if (16 <? length l)%nat then 16%nat else length l) = length (take 16 l)) as ->.
  { rewrite length_take. destruct (Nat.ltb_spec 16 (length l)); lia. }
  destruct (ctr_loop k _ _ _) as [rest ctr']. cbn [fst snd]. f_equal. f_equal. unfold xor_block. apply List.map_ext_in.
  intros i Hi'%in_seq. rewrite length_take in Hi'. do 2 f_equal. rewrite nth_firstn. by rewrite (proj2 (Nat.ltb_lt _ _)) by lia.
Qed.

Lemma ctr_fuel k : ∀ k' a ctr inp, (length inp <= k)%nat → (length inp <= k')%nat → ctr_loop k a ctr inp = ctr_loop k' a ctr inp.
Proof.
  induction k as [|k IH]; intros [|k'] a ctr inp H1 H2; [done|by destruct inp; [|cbn in *; lia]..|].
  destruct inp as [|x inp]; [done|]. rewrite !ctr_loop_S by done.
  by rewrite (IH k') by (rewrite length_drop; cbn [length] in *; lia).
Qed.
Lemma ctr_unfold a ctr inp : inp ≠ [] →
  aes_ctr_xor a ctr inp =
  (xor_block (take 16 inp) (aes_encrypt_block a ctr) ++ fst (aes_ctr_xor a (ctr_next ctr) (drop 16 inp)),
   snd (aes_ctr_xor a (ctr_next ctr) (drop 16 inp))).
Proof.
  intros Hi. unfold aes_ctr_xor at 1. destruct (length inp) as [|k] eqn:E; [by destruct inp|].
  rewrite ctr_loop_S by done. unfold aes_ctr_xor. by rewrite (ctr_fuel k (length (drop 16 inp))) by (rewrite ?length_drop; lia).
Qed.

(** Induction over the blocks of a message. *)
Lemma blocks16_ind (P : list Z → Prop) :
  P [] → (∀ inp, inp ≠ [] → P (drop 16 inp) → P inp) → ∀ inp, P inp.
Proof.
  intros H0 HS. enough (∀ k inp, (length inp <= k)%nat → P inp) as H by (intros inp; by apply (H (length inp))).
  induction k as [|k IH]; intros [|x inp] Hk; [done|cbn in Hk; lia|done|].
  apply HS; [done|]. apply IH. rewrite length_drop. cbn [length] in *. lia.
Qed.

Lemma ctr_length a inp : ∀ ctr, length (fst (aes_ctr_xor a ctr inp)) = length inp.
Proof.
  induction inp as [|inp Hi IH] using blocks16_ind; intros ctr; [done|]. rewrite ctr_unfold by done. cbn [fst].
  rewrite length_app, IH, xor_block_length, length_take, length_drop. lia.
Qed.

(** Counter mode undoes itself: encrypting the output again under the same counter
    block gives the input back, and leaves the counter block at the same place. *)
Theorem aes_ctr_roundtrip (a : aes) (ctr inp : list Z) (B : bytes_ok inp) :
  let (out, ctr') := aes_ctr_xor a ctr inp in aes_ctr_xor a ctr out = (inp, ctr').
Proof.
  revert ctr B. induction inp as [|inp Hi IH] using blocks16_ind; intros ctr B; [done|].
  specialize (IH (ctr_next ctr) ltac:(by apply Forall_drop)). pose proof (ctr_length a (drop 16 inp) (ctr_next ctr)) as Lr.
  rewrite ctr_unfold by done. destruct (aes_ctr_xor a (ctr_next ctr) (drop 16 inp)) as [rest ctr']. cbn [fst snd] in *.
  set (o := xor_block _ _). assert (length o = length (take 16 inp)) as Lo by apply xor_block_length. rewrite length_take in Lo.
  assert (o ≠ []) as Ho by (destruct inp; [done|destruct o; [cbn in Lo; lia|done]]).
  rewrite ctr_unfold by (by destruct o). 
  assert (take 16 (o ++ rest) = o ∧ drop 16 (o ++ rest) = rest) as [-> ->].
  { rewrite length_drop in Lr. destruct (decide (16 <= length inp)%nat).
    - rewrite take_app_length', drop_app_length' by lia. done.
    - destruct rest; [|cbn in Lr; lia]. rewrite app_nil_r, take_ge, drop_ge by lia. done. }
  rewrite IH. cbn [fst snd]. f_equal. unfold o. rewrite xor_block_twice by (by apply Forall_take). apply take_drop.
Qed.
Lemma aes_ctr_roundtrip_witness :
  let (out, ctr') := aes_ctr_xor (mkAes (repeat 5 176) 10) (repeat 255 16) (repeat 3 40) in
  aes_ctr_xor (mkAes (repeat 5 176) 10) (repeat 255 16) out = (repeat 3 40, ctr').
Proof. apply (aes_ctr_roundtrip (mkAes (repeat 5 176) 10) (repeat 255 16) (repeat 3 40)). by apply (bool_decide_unpack _). Defined.

(** A stream cut at a block boundary goes on from the counter block that was left. *)
Lemma aes_ctr_stream a j : ∀ ctr p q, length p = (16 * j)%nat →
  aes_ctr_xor a ctr (p ++ q) =
  (fst (aes_ctr_xor a ctr p) ++ fst (aes_ctr_xor a (snd (aes_ctr_xor a ctr p)) q), snd (aes_ctr_xor a (snd (aes_ctr_xor a ctr p)) q)).
Proof.
  induction j as [|j IH]; intros ctr p q Lp.
  { destruct p; [|cbn in Lp; lia]. change (aes_ctr_xor a ctr []) with (@nil Z, ctr). cbn [app fst snd]. by destruct (aes_ctr_xor a ctr q). }
  assert (p ≠ []) as Hp by (by intros ->). rewrite ctr_unfold by (by destruct p). rewrite (ctr_unfold a ctr p) by done.
  rewrite take_app_le, drop_app_le by lia. rewrite IH by (rewrite length_drop; lia). cbn [fst snd]. by rewrite app_assoc.
Qed.
