(* ===== verification/Bignum.v ===== *)
(** Montgomery arithmetic on 32-bit limbs: the bignum part of src/src/native.c.

    A number is its limbs, least significant first.  No product is wider than 32 bits: the
    64-bit product of two limbs is built from four of 16 bits, and every carry is explicit.
    The theorems: the product is a * b / R modulo m; the constants a modulus needs are
    computed rightly; and the operations of [bn_mod] are the ring of integers modulo m,
    with exponentiation. *)

From S2P Require Import Prelude NativeBase.
From stdpp Require Import prelude list.
From Stdlib Require Import ZArith Lia Znumtheory.
Open Scope Z_scope.

(** * The code *)

Definition BIGNUM_MAX_LIMBS : nat := 128.

Definition bn_unpack (s : list Z) (k : nat) : list Z :=
  List.map (λ i, u32be (drop ((k - 1 - i) * 4) s)) (seq 0 k).
(** Limb i goes to the bytes from (k - 1 - i) * 4 on. *)
Definition bn_pack (a : list Z) (k : nat) : list Z :=
  bytes_from p32be (List.map (λ j, a.[k - 1 - j]) (seq 0 k)).

(** *hi and *lo *)
Definition bn_mul32 (a b : Z) : Z * Z :=
  let a0 := Z.land a 0xffff in let a1 := Z.shiftr a 16 in
  let b0 := Z.land b 0xffff in let b1 := Z.shiftr b 16 in
  let p00 := u32 (a0 * b0) in let p01 := u32 (a0 * b1) in
  let p10 := u32 (a1 * b0) in let p11 := u32 (a1 * b1) in
  let mid := u32 (p01 + p10) in
  let h := u32 (p11 + Z.shiftr mid 16) in
  let h := if mid <? p01 then u32 (h + Z.shiftl 1 16) else h in
  let l := u32 (p00 + u32 (Z.shiftl mid 16)) in
  let h := if l <? p00 then u32 (h + 1) else h in
  (h, l).

(** *acc and *hi *)
Definition bn_addc (acc hi v : Z) : Z * Z :=
  let s := u32 (acc + v) in
  let hi := if s <? v then u32 (hi + 1) else hi in
  (s, hi).

(** The loop over limbs, from a borrow. *)
Fixpoint sub_loop (k : nat) (a b : list Z) (borrow : Z) : list Z * Z :=
  match k, a, b with
  | S k, ai :: a, bi :: b =>
      let d := u32 (ai - bi) in
      let next := if ai <? d then 1 else 0 in
      let '(d, next) :=
        if borrow =? 0 then (d, next)
        else (u32 (d - 1), if d =? 0 then 1 else next) in
      let (out, borrow) := sub_loop k a b next in
      (d :: out, borrow)
  | _, _, _ => ([], borrow)
  end.
Definition bn_sub (a b : list Z) (k : nat) : list Z * Z := sub_loop k a b 0.

Fixpoint add_loop (k : nat) (a b : list Z) (carry : Z) : list Z * Z :=
  match k, a, b with
  | S k, ai :: a, bi :: b =>
      let s := u32 (ai + bi) in
      let next := if s <? ai then 1 else 0 in
      let s := u32 (s + carry) in
      let next := if negb (carry =? 0) && (s =? 0) then 1 else next in
      let (out, carry) := add_loop k a b next in
      (s :: out, carry)
  | _, _, _ => ([], carry)
  end.
Definition bn_add (a b : list Z) (k : nat) : list Z * Z := add_loop k a b 0.

(** What the byte-level functions check. *)
Definition bn_len_ok (len : nat) : bool :=
  negb ((len =? 0)%nat || negb (len mod 4 =? 0)%nat || (BIGNUM_MAX_LIMBS <? len / 4)%nat).

(** [None] is the return of 0. *)
Definition bn_add_mod (a b m : list Z) (len : nat) : option (list Z) :=
  let k := (len / 4)%nat in
  if bn_len_ok len then
    let A := bn_unpack a k in let B := bn_unpack b k in let M := bn_unpack m k in
    let (t, carry) := bn_add A B k in
    let (r, borrow) := bn_sub t M k in
    Some (bn_pack (if negb (carry =? 0) || (borrow =? 0) then r else t) k)
  else None.
Definition bn_sub_mod (a b m : list Z) (len : nat) : option (list Z) :=
  let k := (len / 4)%nat in
  if bn_len_ok len then
    let A := bn_unpack a k in let B := bn_unpack b k in let M := bn_unpack m k in
    let (t, borrow) := bn_sub A B k in
    Some (bn_pack (if borrow =? 0 then t else fst (bn_add t M k)) k)
  else None.

(** One row of products: each limb of [A] through [mul], added to a limb of t and the carry. *)
Fixpoint mac_loop (mul : Z → Z * Z) (A t : list Z) (c : Z) : list Z * Z :=
  match A, t with
  | Aj :: A, tj :: t =>
      let (hi, lo) := mul Aj in
      let (lo, hi) := bn_addc lo hi tj in
      let (lo, hi) := bn_addc lo hi c in
      let (t, c) := mac_loop mul A t hi in
      (lo :: t, c)
  | _, _ => ([], c)
  end.

(** t as its first k limbs, t[k] and t[k + 1]. *)
Definition mont_step (A M : list Z) (n0 : Z) (t : list Z * Z * Z) (bi : Z) : list Z * Z * Z :=
  let '(t, tk, tk1) := t in
  let (t, c) := mac_loop (λ Aj, bn_mul32 Aj bi) A t 0 in
  let (lo, hi) := bn_addc tk 0 c in
  let tk := lo in let tk1 := u32 (tk1 + hi) in
  let u := u32 (t.[0] * n0) in
  let (hi, lo) := bn_mul32 u M.[0] in
  let (lo, hi) := bn_addc lo hi t.[0] in
  let (t, c) := mac_loop (bn_mul32 u) (drop 1 M) (drop 1 t) hi in
  let (lo, hi) := bn_addc tk 0 c in
  (t ++ [lo], u32 (tk1 + hi), 0).
Definition bn_mont_mul_limbs (A B M : list Z) (n0 : Z) (k : nat) : list Z :=
  let '(t, tk, _) := foldl (mont_step A M n0) (repeat 0 k, 0, 0) (take k B) in
  let (out, borrow) := bn_sub t M k in
  if negb (borrow =? 0) && (tk =? 0) then t else out.
Definition bn_mont_mul (a b m : list Z) (n0 : Z) (len : nat) : option (list Z) :=
  let k := (len / 4)%nat in
  if bn_len_ok len
  then Some (bn_pack (bn_mont_mul_limbs (bn_unpack a k) (bn_unpack b k) (bn_unpack m k) n0 k) k)
  else None.

(** ** A modulus of eight limbs *)

Definition EC_K : nat := 8.
Record bn_mod : Type := mkMod {
  m_m : list Z;
  m_n0 : Z;
  m_r2 : list Z;
  m_one : list Z;
}.
Definition bn_inv_limb (a : Z) : Z := Nat.iter 6 (λ x, u32 (x * u32 (2 - u32 (a * x)))) 1.
Definition bn_mod_add (a b m : list Z) (k : nat) : list Z :=
  let (t, carry) := bn_add a b k in
  let (r, borrow) := bn_sub t m k in
  if negb (carry =? 0) || (borrow =? 0) then r else t.
Definition bn_mod_sub (a b m : list Z) (k : nat) : list Z :=
  let (t, borrow) := bn_sub a b k in
  if borrow =? 0 then t else fst (bn_add t m k).
Definition one_limbs : list Z := 1 :: repeat 0 (EC_K - 1).
Definition bn_mod_init (bytes : list Z) : bn_mod :=
  let m := bn_unpack bytes EC_K in
  let n0 := u32 (0 - bn_inv_limb m.[0]) in
  let r2 := Nat.iter (2 * 32 * EC_K) (λ r2, bn_mod_add r2 r2 m EC_K) one_limbs in
  mkMod m n0 r2 (bn_mont_mul_limbs one_limbs r2 m n0 EC_K).
Definition bn_mod_mul (mod_ : bn_mod) (a b : list Z) : list Z :=
  bn_mont_mul_limbs a b (m_m mod_) (m_n0 mod_) EC_K.
Definition bn_mod_enter (mod_ : bn_mod) (a : list Z) : list Z := bn_mod_mul mod_ a (m_r2 mod_).
Definition bn_mod_leave (mod_ : bn_mod) (a : list Z) : list Z := bn_mod_mul mod_ a one_limbs.

(** One bit of the exponent; [None] until the first set bit. *)
Definition exp_bit (mod_ : bn_mod) (a : list Z) (acc : option (list Z)) (b : bool) : option (list Z) :=
  let acc := option_map (λ acc, bn_mod_mul mod_ acc acc) acc in
  if b then
    match acc with
    | Some acc => Some (bn_mod_mul mod_ acc a)
    | None => Some a
    end
  else acc.
Definition exp_bits (e : list Z) : list bool :=
  flat_map (λ x, List.map (λ i, Z.testbit x (Z.of_nat (7 - i))) (seq 0 8)) e.
Definition bn_mod_exp (mod_ : bn_mod) (a : list Z) (e : list Z) : list Z :=
  default (m_one mod_) (foldl (exp_bit mod_ a) None (exp_bits e)).

(** * Limbs *)

#[local] Abbreviation B := (2 ^ 32).
Fixpoint bn_val (l : list Z) : Z :=
  match l with
  | [] => 0
  | x :: l => x + B * bn_val l
  end.
Abbreviation limbs_ok := (words_ok 32).

Lemma bn_val_range l : limbs_ok l → 0 <= bn_val l < B ^ Z.of_nat (length l).
Proof.
  induction 1 as [|x l [H0 H1] Hl IH]; [done|]. cbn [bn_val length]. rewrite Nat2Z.inj_succ, Z.pow_succ_r by lia. lia.
Qed.
Lemma bn_val_app a b : bn_val (a ++ b) = bn_val a + B ^ Z.of_nat (length a) * bn_val b.
Proof.
  induction a as [|x a IH]; cbn [app bn_val length]; [rewrite Z.pow_0_r; lia|].
  rewrite IH, Nat2Z.inj_succ, Z.pow_succ_r by lia. ring.
Qed.
Lemma bn_val_inj a b : limbs_ok a → limbs_ok b → length a = length b → bn_val a = bn_val b → a = b.
Proof.
  intros Ha. revert b. induction Ha as [|x a [Hx0 Hx1] Ha IH]; intros [|y b] Hb Hl E; [done|done|done|].
  apply Forall_cons in Hb as [[Hy0 Hy1] Hb]. cbn [bn_val] in E.
  assert (x = y ∧ bn_val a = bn_val b) as [-> E'].
  { pose proof (bn_val_range a Ha). pose proof (bn_val_range b Hb). nia. }
  f_equal. apply IH; [done|by injection Hl|done].
Qed.

(** A sum that wrapped is below both operands. *)
Lemma add_wrap x y : word_ok 32 x → word_ok 32 y →
  ∃ c, (c = 0 ∨ c = 1) ∧ wrap 32 (x + y) = x + y - B * c ∧ word_ok 32 (wrap 32 (x + y)) ∧
    (wrap 32 (x + y) <? x) = (c =? 1) ∧ (wrap 32 (x + y) <? y) = (c =? 1).
Proof.
  intros Hx Hy. unfold word_ok in *. destruct (Z.lt_ge_cases (x + y) B).
  - exists 0. rewrite wrap_small by lia. split_and!; try lia.
  - exists 1. assert (wrap 32 (x + y) = x + y - B) as ->.
    { unfold wrap. rewrite <-(Z.mod_add _ (-1)) by lia. apply Z.mod_small. lia. }
    split_and!; lia.
Qed.

(** The product of two limbs, and its additions. *)
Lemma bn_mul32_spec a b : word_ok 32 a → word_ok 32 b →
  let (hi, lo) := bn_mul32 a b in word_ok 32 hi ∧ word_ok 32 lo ∧ hi * B + lo = a * b.
Proof.
  intros Ha Hb. unfold bn_mul32. change 0xffff with (2 ^ 16 - 1).
  change (2 ^ 16 - 1) with (Z.ones 16). rewrite !Z.land_ones, !Z.shiftr_div_pow2, !Z.shiftl_mul_pow2 by lia.
  assert (∀ x, word_ok 32 x → x = 2 ^ 16 * (x / 2 ^ 16) + x mod 2 ^ 16 ∧ 0 <= x mod 2 ^ 16 < 2 ^ 16 ∧ 0 <= x / 2 ^ 16 < 2 ^ 16) as D.
  { intros x Hx. unfold word_ok in Hx. pose proof (Z.div_mod x (2 ^ 16) ltac:(lia)). pose proof (Z.mod_pos_bound x (2 ^ 16) ltac:(lia)).
    split_and!; [lia..|apply Z.div_pos; lia|apply Z.div_lt_upper_bound; lia]. }
  destruct (D a Ha) as (Ea & A0 & A1), (D b Hb) as (Eb & B0 & B1).
  set (a0 := a mod 2 ^ 16) in *. set (a1 := a / 2 ^ 16) in *. set (b0 := b mod 2 ^ 16) in *. set (b1 := b / 2 ^ 16) in *.
  rewrite Ea, Eb. clearbody a0 a1 b0 b1. clear Ea Eb Ha Hb a b.
  assert (∀ x y, 0 <= x < 2 ^ 16 → 0 <= y < 2 ^ 16 → 0 <= x * y <= (2 ^ 16 - 1) * (2 ^ 16 - 1)) as M by (intros; nia).
  pose proof (M a0 b0 A0 B0) as P00. pose proof (M a0 b1 A0 B1) as P01. pose proof (M a1 b0 A1 B0) as P10. pose proof (M a1 b1 A1 B1) as P11.
  replace ((2 ^ 16 * a1 + a0) * (2 ^ 16 * b1 + b0)) with (2 ^ 32 * (a1 * b1) + 2 ^ 16 * (a0 * b1 + a1 * b0) + a0 * b0) by ring.
  generalize dependent (a0 * b0). generalize dependent (a0 * b1). generalize dependent (a1 * b0). generalize dependent (a1 * b1).
  clear M A0 A1 B0 B1 a0 a1 b0 b1. intros p11 P11 p10 P10 p01 P01 p00 P00. unfold u32.
  rewrite (wrap_small 32 p11), (wrap_small 32 p10), (wrap_small 32 p01), (wrap_small 32 p00) by lia.
  destruct (add_wrap p01 p10) as (c & Hc & Em & Wm & Lm & _); [unfold word_ok; lia..|].
  set (mid := wrap 32 (p01 + p10)) in *. rewrite Lm. destruct (D mid Wm) as (Ed & Ml & Mh).
  assert (wrap 32 (mid * 2 ^ 16) = mid mod 2 ^ 16 * 2 ^ 16) as ->.
  { unfold wrap. change (2 ^ 32) with (2 ^ 16 * 2 ^ 16). by rewrite Z.mul_mod_distr_r. }
  set (ml := mid mod 2 ^ 16) in *. set (mh := mid / 2 ^ 16) in *. clearbody ml mh mid.
  destruct (add_wrap p00 (ml * 2 ^ 16)) as (c' & Hc' & El & Wl & Ll & _); [unfold word_ok; lia..|]. rewrite Ll.
  set (l := wrap 32 (p00 + _)) in *. clearbody l. clear Lm Ll D. unfold word_ok in *. change (1 * 2 ^ 16) with (2 ^ 16).
  rewrite (wrap_small 32 (p11 + mh)) by lia.
  destruct Hc as [-> | ->], Hc' as [-> | ->]; cbn [Z.eqb Pos.eqb]; rewrite ?(wrap_small 32 (p11 + mh + 2 ^ 16)) by lia; rewrite ?wrap_small; lia.
Qed.

Lemma bn_addc_spec acc hi v : word_ok 32 acc → word_ok 32 v → 0 <= hi < B - 1 →
  let (acc', hi') := bn_addc acc hi v in word_ok 32 acc' ∧ 0 <= hi' <= hi + 1 ∧ hi' * B + acc' = hi * B + acc + v.
Proof.
  intros Ha Hv Hh. unfold bn_addc, u32. destruct (add_wrap acc v Ha Hv) as (c & Hc & E & W & _ & L). rewrite L.
  destruct Hc as [-> | ->]; cbn [Z.eqb Pos.eqb]; rewrite ?(wrap_small 32 (hi + 1)) by lia; rewrite E in *; unfold word_ok in *; lia.
Qed.

(** The carry of a column fits: a product and two limbs are below 2^64. *)
Lemma mac_one a b t c : word_ok 32 a → word_ok 32 b → word_ok 32 t → word_ok 32 c →
  let (hi, lo) := bn_mul32 a b in
  let (lo, hi) := bn_addc lo hi t in
  let (lo, hi) := bn_addc lo hi c in
  word_ok 32 hi ∧ word_ok 32 lo ∧ hi * B + lo = a * b + t + c.
Proof.
  intros Ha Hb Ht Hc. pose proof (bn_mul32_spec a b Ha Hb) as S. destruct (bn_mul32 a b) as [hi lo]. destruct S as (Hh & Hl & E).
  assert (hi <= B - 2) as Hh' by (unfold word_ok in *; nia).
  pose proof (bn_addc_spec lo hi t Hl Ht ltac:(unfold word_ok in *; lia)) as S. destruct (bn_addc lo hi t) as [lo1 hi1].
  destruct S as (Hl1 & Hh1 & E1).
  assert (hi1 < B - 1 ∨ hi1 = B - 1) as [Hn|Hn] by (unfold word_ok in *; lia).
  - pose proof (bn_addc_spec lo1 hi1 c Hl1 Hc ltac:(lia)) as S. destruct (bn_addc lo1 hi1 c) as [lo2 hi2].
    destruct S as (Hl2 & Hh2 & E2). unfold word_ok in *. split_and!; lia.
  - unfold bn_addc, u32. destruct (add_wrap lo1 c Hl1 Hc) as (d & Hd & E2 & W & _ & L). rewrite L.
    assert (d = 0) as ->. { assert (a * b <= (B - 1) * (B - 1)) by (unfold word_ok in *; nia). unfold word_ok in *. lia. }
    cbn [Z.eqb]. rewrite E2 in *. unfold word_ok in *. lia.
Qed.

Lemma mac_loop_spec mul x A : (∀ a, word_ok 32 a → ∃ y z, mul a = bn_mul32 y z ∧ y * z = a * x ∧ word_ok 32 y ∧ word_ok 32 z) →
  limbs_ok A → ∀ t c, limbs_ok t → length t = length A → word_ok 32 c →
  let (t', c') := mac_loop mul A t c in
  limbs_ok t' ∧ length t' = length A ∧ word_ok 32 c' ∧
  bn_val t' + B ^ Z.of_nat (length A) * c' = bn_val t + x * bn_val A + c.
Proof.
  intros Hmul HA. induction HA as [|a A Ha HA IH]; intros [|t0 t] c Ht Hl Hc; try done; cbn [mac_loop].
  { split_and!; [constructor|done|done|]. cbn [bn_val length]. rewrite Z.pow_0_r. lia. }
  apply Forall_cons in Ht as [Ht0 Ht]. destruct (Hmul a Ha) as (y & z & -> & E & Hy & Hz).
  pose proof (mac_one y z t0 c Hy Hz Ht0 Hc) as S. destruct (bn_mul32 y z) as [hi lo]. destruct (bn_addc lo hi t0) as [lo1 hi1].
  destruct (bn_addc lo1 hi1 c) as [lo2 hi2]. destruct S as (Hh & Hlo & E2).
  specialize (IH t hi2 Ht ltac:(by injection Hl) Hh). destruct (mac_loop mul A t hi2) as [t' c']. destruct IH as (Ht' & Lt' & Hc' & E').
  split_and!; [by constructor|by cbn; f_equal|done|]. cbn [bn_val length]. rewrite Nat2Z.inj_succ, Z.pow_succ_r by lia.
  rewrite E in E2. generalize dependent (B ^ Z.of_nat (length A)). intros Q E'. 
  assert (Q * c' = bn_val t + x * bn_val A + hi2 - bn_val t') as F by lia. rewrite <-Z.mul_assoc, F. lia.
Qed.

Lemma sub_wrap x y : word_ok 32 x → word_ok 32 y →
  ∃ c, (c = 0 ∨ c = 1) ∧ wrap 32 (x - y) = x - y + B * c ∧ word_ok 32 (wrap 32 (x - y)) ∧ (x <? wrap 32 (x - y)) = (c =? 1).
Proof.
  intros Hx Hy. unfold word_ok in *. destruct (Z.lt_ge_cases x y).
  - exists 1. assert (wrap 32 (x - y) = x - y + B) as ->.
    { unfold wrap. rewrite <-(Z.mod_add _ 1) by lia. apply Z.mod_small. lia. }
    split_and!; lia.
  - exists 0. rewrite wrap_small by lia. split_and!; lia.
Qed.

Lemma sub_loop_spec a : limbs_ok a → ∀ b br, limbs_ok b → length b = length a → br = 0 ∨ br = 1 →
  let (out, br') := sub_loop (length a) a b br in
  limbs_ok out ∧ length out = length a ∧ (br' = 0 ∨ br' = 1) ∧
  bn_val out = bn_val a - bn_val b - br + B ^ Z.of_nat (length a) * br'.
Proof.
  induction 1 as [|x a Hx Ha IH]; intros [|y b] br Hb Hl Hbr; try done; cbn [length sub_loop].
  { split_and!; [constructor|done|done|]. cbn [bn_val]. rewrite Z.pow_0_r. lia. }
  apply Forall_cons in Hb as [Hy Hb]. unfold u32. destruct (sub_wrap x y Hx Hy) as (c & Hc & E & W & L). rewrite L.
  set (d := wrap 32 (x - y)) in *. clearbody d.
  assert (∃ d' c', (if br =? 0 then (d, if c =? 1 then 1 else 0) else (wrap 32 (d - 1), if d =? 0 then 1 else if c =? 1 then 1 else 0)) = (d', c') ∧
    word_ok 32 d' ∧ (c' = 0 ∨ c' = 1) ∧ d' = x - y - br + B * c') as (d' & c' & -> & Hd' & Hc' & E').
  { unfold word_ok in *. destruct Hbr as [-> | ->]; cbn [Z.eqb].
    - exists d, c. destruct Hc as [-> | ->]; cbn [Z.eqb Pos.eqb]; split_and!; lia || done.
    - destruct (Z.eqb_spec d 0) as [Ed|Ed].
      + exists (B - 1), 1. rewrite Ed. split_and!; [done|lia..].
      + exists (d - 1), c. rewrite wrap_small by lia. destruct Hc as [-> | ->]; cbn [Z.eqb Pos.eqb]; split_and!; lia || done. }
  specialize (IH b c' Hb ltac:(by injection Hl) Hc'). destruct (sub_loop (length a) a b c') as [out br'].
  destruct IH as (Ho & Lo & Hb' & Eo). split_and!; [by constructor|by cbn; f_equal|done|].
  cbn [bn_val]. rewrite Nat2Z.inj_succ, Z.pow_succ_r by lia. rewrite Eo, E'. ring.
Qed.

Lemma add_loop_spec a : limbs_ok a → ∀ b c, limbs_ok b → length b = length a → c = 0 ∨ c = 1 →
  let (out, c') := add_loop (length a) a b c in
  limbs_ok out ∧ length out = length a ∧ (c' = 0 ∨ c' = 1) ∧
  bn_val out + B ^ Z.of_nat (length a) * c' = bn_val a + bn_val b + c.
Proof.
  induction 1 as [|x a Hx Ha IH]; intros [|y b] c Hb Hl Hc; try done; cbn [length add_loop].
  { split_and!; [constructor|done|done|]. cbn [bn_val]. rewrite Z.pow_0_r. lia. }
  apply Forall_cons in Hb as [Hy Hb]. unfold u32. destruct (add_wrap x y Hx Hy) as (c1 & Hc1 & E & W & L & _). rewrite L.
  set (s := wrap 32 (x + y)) in *. clearbody s.
  assert (∃ s' c', wrap 32 (s + c) = s' ∧ (if negb (c =? 0) && (wrap 32 (s + c) =? 0) then 1 else if c1 =? 1 then 1 else 0) = c' ∧
    word_ok 32 s' ∧ (c' = 0 ∨ c' = 1) ∧ s' + B * c' = x + y + c) as (s' & c' & -> & Ec' & Hs' & Hc' & E').
  { unfold word_ok in *. destruct Hc as [-> | ->]; cbn [Z.eqb negb andb].
    - exists s, c1. rewrite Z.add_0_r, wrap_small by lia. destruct Hc1 as [-> | ->]; cbn [Z.eqb Pos.eqb]; split_and!; lia || done.
    - destruct (Z.lt_ge_cases (s + 1) B).
      + exists (s + 1), c1. rewrite wrap_small by lia. rewrite (proj2 (Z.eqb_neq (s + 1) 0)) by lia.
        destruct Hc1 as [-> | ->]; cbn [Z.eqb Pos.eqb]; split_and!; lia || done.
      + exists 0, 1. assert (s = B - 1) as -> by lia. split_and!; try done; lia. }
  rewrite Ec'. specialize (IH b c' Hb ltac:(by injection Hl) Hc'). destruct (add_loop (length a) a b c') as [out co].
  destruct IH as (Ho & Lo & Hco & Eo). split_and!; [by constructor|by cbn; f_equal|done|].
  cbn [bn_val]. rewrite Nat2Z.inj_succ, Z.pow_succ_r by lia.
  generalize dependent (B ^ Z.of_nat (length a)). intros Q Eo. assert (Q * co = bn_val a + bn_val b + c' - bn_val out) as F by lia.
  rewrite <-Z.mul_assoc, F. lia.
Qed.

(** * The Montgomery product *)

Section mont.
Context (k : nat) (M : list Z) (n0 : Z).
Context (HM : limbs_ok M) (LM : length M = k) (Hk : (0 < k)%nat).
Context (Hn0 : (n0 * M.[0] + 1) mod B = 0).
#[local] Abbreviation R := (B ^ Z.of_nat k).
#[local] Abbreviation m := (bn_val M).

(** Adding u * m clears the low limb. *)
Lemma low_limb t0 : word_ok 32 t0 →
  let u := u32 (t0 * n0) in
  let (hi, lo) := bn_mul32 u M.[0] in
  let (lo, hi) := bn_addc lo hi t0 in
  word_ok 32 hi ∧ hi * B = u * M.[0] + t0.
Proof.
  intros Ht u. assert (word_ok 32 u) as Hu by (apply wrap_ok; lia). assert (word_ok 32 M.[0]) as Hm by (by apply word_nth).
  pose proof (bn_mul32_spec u _ Hu Hm) as S. destruct (bn_mul32 u M.[0]) as [hi lo]. destruct S as (Hh & Hl & E).
  assert (hi <= B - 2) by (unfold word_ok in *; nia).
  pose proof (bn_addc_spec lo hi t0 Hl Ht ltac:(unfold word_ok in *; lia)) as S. destruct (bn_addc lo hi t0) as [lo1 hi1].
  destruct S as (Hl1 & Hh1 & E1). unfold word_ok in *. split; [lia|].
  assert (lo1 = 0) as ->; [|lia].
  assert ((hi1 * B + lo1) mod B = 0) as Z0.
  { rewrite E1, E. unfold u, u32, wrap. rewrite <-Z.add_mod_idemp_l, <-Z.mul_mod_idemp_l, Z.mod_mod, Z.mul_mod_idemp_l, Z.add_mod_idemp_l by lia.
    replace (t0 * n0 * M.[0] + t0) with ((n0 * M.[0] + 1) * t0) by ring. by rewrite <-Z.mul_mod_idemp_l, Hn0 by lia. }
  rewrite Z.add_comm, Z.mod_add, Z.mod_small in Z0 by lia. done.
Qed.

Definition t_val (t : list Z * Z * Z) : Z := bn_val t.1.1 + R * t.1.2.
Definition t_ok (A : list Z) (t : list Z * Z * Z) : Prop :=
  limbs_ok t.1.1 ∧ length t.1.1 = k ∧ 0 <= t.1.2 ∧ t.2 = 0 ∧ t_val t < bn_val A + m.

Lemma m_split : m = M.[0] + B * bn_val (drop 1 M) ∧ limbs_ok (drop 1 M) ∧ length (drop 1 M) = (k - 1)%nat.
Proof.
  split_and!; [|by apply Forall_drop|rewrite length_drop; lia]. destruct M; [cbn in LM; lia|]. cbn [nth drop bn_val]. by rewrite drop_0.
Qed.

Lemma mont_step_spec A t bi : limbs_ok A → length A = k → t_ok A t → word_ok 32 bi →
  t_ok A (mont_step A M n0 t bi) ∧
  ∃ u, 0 <= u < B ∧ B * t_val (mont_step A M n0 t bi) = t_val t + bn_val A * bi + u * m.
Proof.
  intros HA LA Ht Hbi. destruct t as [[t tk] tk1]. unfold t_ok, t_val at 1 in Ht. cbn [fst snd] in Ht.
  destruct Ht as (Wt & Lt & Htk & -> & Vt). unfold t_val at 2. cbn [fst snd].
  pose proof (bn_val_range A HA) as RA. pose proof (bn_val_range M HM) as RM. pose proof (bn_val_range t Wt) as Rt. rewrite LA in RA. rewrite LM in RM. rewrite Lt in Rt.
  assert (0 < R) as PR by (apply Z.pow_pos_nonneg; lia).
  assert (tk <= 1) as Htk1 by nia.
  unfold mont_step.
  pose proof (mac_loop_spec (λ Aj, bn_mul32 Aj bi) bi A ltac:(intros a Ha; exists a, bi; by split_and!) HA t 0 Wt ltac:(by rewrite Lt, LA) ltac:(unfold word_ok; lia)) as S1.
  destruct (mac_loop _ A t 0) as [t1 c]. destruct S1 as (Wt1 & Lt1 & Hc & E1). rewrite LA in *.
  pose proof (bn_addc_spec tk 0 c ltac:(unfold word_ok; lia) Hc ltac:(lia)) as S2. destruct (bn_addc tk 0 c) as [lo1 hi1]. destruct S2 as (Hlo1 & Hhi1 & E2).
  destruct t1 as [|t0 t1]; [cbn in Lt1; lia|]. apply Forall_cons in Wt1 as [Wt0 Wt1]. cbn [nth drop].
  change (drop 0 t1) with t1. pose proof (low_limb t0 Wt0) as S3. cbn zeta in S3. destruct (bn_mul32 _ M.[0]) as [hi2 lo2]. destruct (bn_addc lo2 hi2 t0) as [lo3 hi3].
  destruct S3 as [Hhi3 E3]. set (u := u32 (t0 * n0)) in *. assert (word_ok 32 u) as Hu by (apply wrap_ok; lia). clearbody u.
  destruct m_split as (Em & Wd & Ld).
  pose proof (mac_loop_spec (bn_mul32 u) u (drop 1 M) ltac:(intros a Ha; exists u, a; split_and!; [done|lia|done..]) Wd t1 hi3 Wt1
    ltac:(cbn in Lt1; lia) Hhi3) as S4.
  destruct (mac_loop (bn_mul32 u) _ t1 hi3) as [t2 c2]. destruct S4 as (Wt2 & Lt2 & Hc2 & E4). rewrite Ld in *.
  pose proof (bn_addc_spec lo1 0 c2 Hlo1 Hc2 ltac:(lia)) as S5. destruct (bn_addc lo1 0 c2) as [lo5 hi5]. destruct S5 as (Hlo5 & Hhi5 & E5).
  unfold u32. rewrite (wrap_small 32 (0 + hi1)) by lia. rewrite wrap_small by lia.
  set (r := (t2 ++ [lo5], 0 + hi1 + hi5, 0)).
  assert (B * t_val r = bn_val t + R * tk + bn_val A * bi + u * m) as EV.
  { unfold t_val, r. cbn [fst snd]. rewrite bn_val_app, Lt2, Em. cbn [bn_val] in *.
    assert (R = B * B ^ Z.of_nat (k - 1)) as ER by (rewrite <-Z.pow_succ_r by lia; f_equal; lia). rewrite ER in *.
    set (Q := B ^ Z.of_nat (k - 1)) in *. clearbody Q. clear - E1 E2 E3 E4 E5.
    assert (c = hi1 * B + lo1 - tk) as Ec by lia. assert (c2 = hi5 * B + lo5 - lo1) as Ec2 by lia. subst c c2. 
    lia. }
  split; [|exists u; unfold word_ok in Hu; split; [lia|exact EV]].
  unfold t_ok. cbn [r fst snd]. split_and!; [apply Forall_app; split; [exact Wt2|exact (Forall_cons_2 _ _ _ Hlo5 (Forall_nil_2 _))]|rewrite length_app, Lt2; cbn; lia|lia|done|].
  fold r. unfold word_ok in *. nia.
Qed.

Lemma mont_fold A bs : limbs_ok A → length A = k → limbs_ok bs → ∀ t, t_ok A t →
  t_ok A (foldl (mont_step A M n0) t bs) ∧
  ∃ q, B ^ Z.of_nat (length bs) * t_val (foldl (mont_step A M n0) t bs) = t_val t + bn_val A * bn_val bs + q * m.
Proof.
  intros HA LA Hbs. induction Hbs as [|b bs Hb Hbs IH]; intros t Ht; cbn [foldl].
  { split; [done|]. exists 0. cbn [bn_val length]. rewrite Z.pow_0_r. lia. }
  destruct (mont_step_spec A t b HA LA Ht Hb) as [Ht' (u & Hu & E)]. destruct (IH _ Ht') as [Hf (q & E')]. split; [done|].
  exists (q * B + u). cbn [bn_val length]. rewrite Nat2Z.inj_succ, Z.pow_succ_r, <-Z.mul_assoc, E' by lia.
  rewrite !Z.mul_add_distr_l, E. ring.
Qed.

(** a * b / R, reduced, for a not above m. *)
Lemma mont_mul_spec A b : limbs_ok A → length A = k → bn_val A <= m → limbs_ok b → length b = k → 0 < m →
  let r := bn_mont_mul_limbs A b M n0 k in
  limbs_ok r ∧ length r = k ∧ bn_val r < m ∧ ∃ q, R * bn_val r = bn_val A * bn_val b + q * m.
Proof.
  intros HA LA Am Hb Lb Hm. unfold bn_mont_mul_limbs. rewrite take_ge by lia.
  destruct (mont_fold A b HA LA Hb (repeat 0 k, 0, 0)) as [Ht (q & E)].
  { unfold t_ok, t_val. cbn [fst snd]. pose proof (bn_val_range A HA). split_and!; [|apply repeat_length|done..|].
    - clear. induction k; cbn; constructor; [done|done].
    - assert (bn_val (repeat 0 k) = 0) as -> by (clear; induction k; cbn [repeat bn_val]; lia). lia. }
  destruct (foldl _ _ b) as [[t tk] tk1]. unfold t_ok, t_val in *. cbn [fst snd] in *. destruct Ht as (Wt & Lt & Htk & _ & Vt).
  assert (bn_val (repeat 0 k) = 0) as E0 by (clear; induction k; cbn [repeat bn_val]; lia). rewrite E0, Lb in E.
  pose proof (sub_loop_spec t Wt M 0 HM ltac:(lia) ltac:(lia)) as S. rewrite Lt in S. unfold bn_sub.
  destruct (sub_loop k t M 0) as [out br]. destruct S as (Wo & Lo & Hbr & Eo).
  pose proof (bn_val_range t Wt) as Rt. pose proof (bn_val_range M HM) as RM. pose proof (bn_val_range out Wo) as Ro.
  rewrite Lt in Rt. rewrite LM in RM. rewrite Lo in Ro. assert (0 < R) as PR by (apply Z.pow_pos_nonneg; lia).
  assert (tk <= 1) as Htk1 by nia. assert (tk = 0 ∨ tk = 1) as Etk by lia.
  destruct Hbr as [-> | ->], Etk as [-> | ->]; cbn [Z.eqb negb andb].
  - split_and!; [done|done|lia|]. exists (q - R). rewrite Eo. lia.
  - lia.
  - split_and!; [done|done|lia|]. exists q. lia.
  - split_and!; [done|done|lia|]. exists (q - R). rewrite Eo. lia.
Qed.
End mont.

(** * Addition and subtraction modulo m *)

Section addsub.
Context (k : nat) (M : list Z) (HM : limbs_ok M) (LM : length M = k).
#[local] Abbreviation m := (bn_val M).
(** A reduced number of k limbs. *)
Definition reduced (a : list Z) : Prop := limbs_ok a ∧ length a = k ∧ bn_val a < m.

Lemma reduced_range a : reduced a → 0 <= bn_val a < m ∧ m < B ^ Z.of_nat k.
Proof.
  intros (Ha & La & Hm). pose proof (bn_val_range a Ha). pose proof (bn_val_range M HM) as R. rewrite LM in R. lia.
Qed.

Lemma mod_add_spec a b : reduced a → reduced b →
  reduced (bn_mod_add a b M k) ∧ bn_val (bn_mod_add a b M k) = (bn_val a + bn_val b) mod m.
Proof.
  intros Ra Rb. pose proof (reduced_range a Ra) as [Va Vm]. pose proof (reduced_range b Rb) as [Vb _].
  destruct Ra as (Ha & La & _), Rb as (Hb & Lb & _). unfold bn_mod_add, bn_add, bn_sub.
  pose proof (add_loop_spec a Ha b 0 Hb ltac:(lia) ltac:(lia)) as S. rewrite La in S. destruct (add_loop k a b 0) as [t c].
  destruct S as (Ht & Lt & Hc & Et).
  pose proof (sub_loop_spec t Ht M 0 HM ltac:(lia) ltac:(lia)) as S. rewrite Lt in S. destruct (sub_loop k t M 0) as [r br].
  destruct S as (Hr & Lr & Hbr & Er). pose proof (bn_val_range t Ht) as Vt. pose proof (bn_val_range r Hr) as Vr. rewrite Lt in Vt. rewrite Lr in Vr.
  set (s := bn_val a + bn_val b) in *.
  assert (s mod m = if decide (s < m) then s else s - m) as ->.
  { case_decide; [apply Z.mod_small; lia|]. rewrite <-(Z.mod_add s (-1)) by lia. rewrite Z.mod_small; lia. }
  unfold reduced. destruct Hc as [-> | ->], Hbr as [-> | ->]; cbn [Z.eqb negb orb]; case_decide; split_and!; first [done|lia].
Qed.

Lemma mod_sub_spec a b : reduced a → reduced b →
  reduced (bn_mod_sub a b M k) ∧ bn_val (bn_mod_sub a b M k) = (bn_val a - bn_val b) mod m.
Proof.
  intros Ra Rb. pose proof (reduced_range a Ra) as [Va Vm]. pose proof (reduced_range b Rb) as [Vb _].
  destruct Ra as (Ha & La & _), Rb as (Hb & Lb & _). unfold bn_mod_sub, bn_add, bn_sub.
  pose proof (sub_loop_spec a Ha b 0 Hb ltac:(lia) ltac:(lia)) as S. rewrite La in S. destruct (sub_loop k a b 0) as [t br].
  destruct S as (Ht & Lt & Hbr & Et).
  pose proof (add_loop_spec t Ht M 0 HM ltac:(lia) ltac:(lia)) as S. rewrite Lt in S. destruct (add_loop k t M 0) as [r c].
  destruct S as (Hr & Lr & Hc & Er). pose proof (bn_val_range t Ht) as Vt. pose proof (bn_val_range r Hr) as Vr. rewrite Lt in Vt. rewrite Lr in Vr.
  set (s := bn_val a - bn_val b) in *.
  assert (s mod m = if decide (s < 0) then s + m else s) as ->.
  { case_decide; [|apply Z.mod_small; lia]. rewrite <-(Z.mod_add s 1) by lia. rewrite Z.mod_small; lia. }
  unfold reduced. destruct Hbr as [-> | ->], Hc as [-> | ->]; cbn [Z.eqb fst]; case_decide; split_and!; first [done|lia].
Qed.
End addsub.

(** * Bytes *)

Definition be_val (s : list Z) : Z := le_val (rev s).

Lemma rev_seq k : rev (seq 0 k) = List.map (λ i, (k - 1 - i)%nat) (seq 0 k).
Proof.
  induction k as [|k IH]; [done|]. rewrite seq_S at 1. rewrite rev_app_distr. cbn [rev app seq List.map]. rewrite Nat.sub_0_r. f_equal; [lia|].
  rewrite IH, <-seq_shift, List.map_map. apply List.map_ext. intros i. lia.
Qed.
Lemma bn_unpack_rev s k : bn_unpack s k = rev (words_at u32be 4 k s).
Proof.
  unfold bn_unpack, words_at. rewrite <-List.map_rev, rev_seq, List.map_map. apply List.map_ext. intros i. do 2 f_equal. lia.
Qed.
Lemma bn_unpack_spec s k : bytes_ok s → length s = (4 * k)%nat →
  limbs_ok (bn_unpack s k) ∧ length (bn_unpack s k) = k ∧ bn_val (bn_unpack s k) = be_val s.
Proof.
  intros Bs Ls. rewrite bn_unpack_rev, List.length_rev. split_and!.
  - apply Forall_rev, (words_at_ok (w := 4)); [done|lia].
  - apply (words_at_length (w := 4)).
  - revert s Bs Ls. induction k as [|k IH]; intros s Bs Ls; [by destruct s|].
    rewrite (words_at_S (w := 4)). cbn [rev]. rewrite bn_val_app, List.length_rev, (words_at_length (w := 4)).
    rewrite IH by (first [by apply Forall_drop|rewrite length_drop; lia]). cbn [bn_val].
    unfold be_val. rewrite <-(take_drop 4 s) at 3. rewrite rev_app_distr, le_val_app, List.length_rev, length_drop, Ls.
    rewrite u32be_val by (first [by apply Forall_take|lia]). change 256 with (2 ^ 8). rewrite <-!Z.pow_mul_r by lia.
    replace (8 * Z.of_nat (4 * S k - 4)) with (32 * Z.of_nat k) by lia. ring.
Qed.
Lemma bn_pack_rev a k : length a = k → bn_pack a k = bytes_from p32be (rev a).
Proof.
  intros La. unfold bn_pack. f_equal. transitivity (rev (List.map (λ i, a.[i]) (seq 0 k))); [|by rewrite <-map_nth_seq].
  rewrite <-List.map_rev, rev_seq, List.map_map. done.
Qed.
Lemma bn_pack_spec a k : limbs_ok a → length a = k →
  bytes_ok (bn_pack a k) ∧ length (bn_pack a k) = (4 * k)%nat ∧ be_val (bn_pack a k) = bn_val a.
Proof.
  intros Ha La. rewrite bn_pack_rev by done. split_and!; [apply (bytes_from_ok (w := 4))|rewrite (bytes_from_length (w := 4)), List.length_rev; lia|].
  clear La. unfold be_val. induction Ha as [|x a Hx Ha IH]; [done|]. cbn [rev]. unfold bytes_from in *. rewrite flat_map_app, rev_app_distr.
  cbn [flat_map]. rewrite app_nil_r, le_val_app, IH, List.length_rev, p32be_bytes, rev_involutive, le_val_bytes_small by exact Hx.
  rewrite List.length_rev, le_bytes_length. done.
Qed.

Lemma len_ok len : bn_len_ok len = true → len = (4 * (len / 4))%nat ∧ (0 < len / 4)%nat.
Proof.
  unfold bn_len_ok. rewrite negb_true_iff, !orb_false_iff, negb_false_iff, Nat.eqb_eq, Nat.eqb_neq. intros [[H0 H4] _].
  pose proof (Nat.div_mod len 4 ltac:(lia)). lia.
Qed.

Lemma low_limb_mod s k : bytes_ok s → length s = (4 * k)%nat → (0 < k)%nat → (bn_unpack s k).[0] mod B = be_val s mod B.
Proof.
  intros Bs Ls Hk. destruct (bn_unpack_spec s k Bs Ls) as (_ & L & <-). destruct (bn_unpack s k) as [|x l]; [cbn in L; lia|].
  cbn [nth bn_val]. by rewrite Z.mul_comm, Z.mod_add.
Qed.

Lemma pow_len k : 256 ^ Z.of_nat (4 * k) = B ^ Z.of_nat k.
Proof. change 256 with (2 ^ 8). rewrite <-!Z.pow_mul_r by lia. f_equal. lia. Qed.

(** The lengths taken, and those refused. *)
Lemma len_taken len : bn_len_ok len = true → (0 < len <= 512 ∧ len mod 4 = 0)%nat.
Proof.
  unfold bn_len_ok, BIGNUM_MAX_LIMBS. rewrite negb_true_iff, !orb_false_iff, negb_false_iff, Nat.eqb_eq, Nat.eqb_neq, Nat.ltb_ge. intros [[H0 H4] Hk].
  pose proof (Nat.div_mod_eq len 4). lia.
Qed.
Lemma len_refused len : bn_len_ok len = false → (len = 0 ∨ len mod 4 ≠ 0 ∨ 512 < len)%nat.
Proof.
  unfold bn_len_ok, BIGNUM_MAX_LIMBS. rewrite negb_false_iff, !orb_true_iff, negb_true_iff, Nat.eqb_eq, Nat.eqb_neq, Nat.ltb_lt.
  pose proof (Nat.div_mod_eq len 4). pose proof (Nat.mod_upper_bound len 4). lia.
Qed.

(** C35: The Montgomery product is right for every modulus of up to 128 limbs: with n0 the
    negated inverse of the modulus modulo 2^32, the result is below the modulus and, times
    R = 2^(8 len), is congruent to the product of the operands.  A length that is zero, not
    a multiple of four or above 512 is refused. *)
Theorem bn_mont_mul_correct (a b m : list Z) (n0 : Z) (len : nat)
  (Ba : bytes_ok a) (La : length a = len) (Bb : bytes_ok b) (Lb : length b = len) (Bm : bytes_ok m) (Lm : length m = len)
  (Ham : be_val a <= be_val m) (Hm : 0 < be_val m) (Hn0 : (n0 * be_val m + 1) mod 2 ^ 32 = 0) :
  match bn_mont_mul a b m n0 len with
  | Some r => (0 < len <= 512 ∧ len mod 4 = 0)%nat ∧ bytes_ok r ∧ length r = len ∧ be_val r < be_val m ∧
      (be_val r * 256 ^ Z.of_nat len) mod be_val m = (be_val a * be_val b) mod be_val m
  | None => (len = 0 ∨ len mod 4 ≠ 0 ∨ 512 < len)%nat
  end.
Proof.
  unfold bn_mont_mul. destruct (bn_len_ok len) eqn:E; [|by apply len_refused]. pose proof (len_taken len E) as Ht. apply len_ok in E as [E Hk]. set (k := (len / 4)%nat) in *. clearbody k. rewrite E in La, Lb, Lm, Ht |- *. clear E len.
  destruct (bn_unpack_spec a k Ba ltac:(lia)) as (HA & LA & EA). destruct (bn_unpack_spec b k Bb ltac:(lia)) as (HB & LB & EB).
  destruct (bn_unpack_spec m k Bm ltac:(lia)) as (HM & LM & EM). pose proof (low_limb_mod m k Bm ltac:(lia) Hk) as E0. rewrite <-EA, <-EB, <-EM in *.
  assert ((n0 * (bn_unpack m k).[0] + 1) mod B = 0) as Hn.
  { rewrite <-Z.add_mod_idemp_l, <-Z.mul_mod_idemp_r, E0, Z.mul_mod_idemp_r, Z.add_mod_idemp_l by lia. exact Hn0. }
  destruct (mont_mul_spec k (bn_unpack m k) n0 HM LM Hk Hn (bn_unpack a k) (bn_unpack b k)) as (Hr & Lr & Rr & q & Eq); [assumption..|].
  destruct (bn_pack_spec _ k Hr Lr) as (Bp & Lp & Ep). rewrite Ep, pow_len. split; [exact Ht|]. split_and!; [done|lia|done|].
  rewrite Z.mul_comm, Eq. apply Z.mod_add. lia.
Qed.
Lemma bn_mont_mul_correct_witness :
  match bn_mont_mul [0; 0; 0; 5] [0; 0; 0; 7] [0; 0; 0; 11] 1171354717 4 with
  | Some r => (0 < 4 <= 512 ∧ 4 mod 4 = 0)%nat ∧ bytes_ok r ∧ length r = 4%nat ∧ be_val r < be_val [0; 0; 0; 11] ∧
      (be_val r * 256 ^ Z.of_nat 4) mod be_val [0; 0; 0; 11] = (be_val [0; 0; 0; 5] * be_val [0; 0; 0; 7]) mod be_val [0; 0; 0; 11]
  | None => (4 = 0 ∨ 4 mod 4 ≠ 0 ∨ 512 < 4)%nat
  end.
Proof.
  apply (bn_mont_mul_correct [0; 0; 0; 5] [0; 0; 0; 7] [0; 0; 0; 11] 1171354717 4);
    solve [reflexivity|by apply (bool_decide_unpack _)|vm_compute; discriminate].
Defined.

(** Addition and subtraction modulo m are right on reduced operands of any admitted
    length, whatever the carry or the borrow out of the top limb. *)
Theorem bn_addsub_mod_correct (a b m : list Z) (len : nat)
  (Ba : bytes_ok a) (La : length a = len) (Bb : bytes_ok b) (Lb : length b = len) (Bm : bytes_ok m) (Lm : length m = len)
  (Ham : be_val a < be_val m) (Hbm : be_val b < be_val m) (Hlen : bn_len_ok len = true) :
  ∃ s d, bn_add_mod a b m len = Some s ∧ bn_sub_mod a b m len = Some d ∧ length s = len ∧ length d = len ∧
    be_val s = (be_val a + be_val b) mod be_val m ∧ be_val d = (be_val a - be_val b) mod be_val m.
Proof.
  unfold bn_add_mod, bn_sub_mod. rewrite Hlen. apply len_ok in Hlen as [E Hk]. set (k := (len / 4)%nat) in *. clearbody k. rewrite E in La, Lb, Lm |- *. clear E len.
  destruct (bn_unpack_spec a k Ba ltac:(lia)) as (HA & LA & EA). destruct (bn_unpack_spec b k Bb ltac:(lia)) as (HB & LB & EB).
  destruct (bn_unpack_spec m k Bm ltac:(lia)) as (HM & LM & EM). rewrite <-EA, <-EB, <-EM in *.
  destruct (mod_add_spec k _ HM LM (bn_unpack a k) (bn_unpack b k)) as [(W1 & L1 & _) V1]; [by split_and!..|].
  destruct (mod_sub_spec k _ HM LM (bn_unpack a k) (bn_unpack b k)) as [(W2 & L2 & _) V2]; [by split_and!..|].
  unfold bn_mod_add, bn_mod_sub in *. destruct (bn_add _ _ k) as [t c] eqn:E1. destruct (bn_sub t _ k) as [r br] eqn:E2.
  destruct (bn_sub (bn_unpack a k) _ k) as [t' br'] eqn:E3.
  destruct (bn_pack_spec _ k W1 L1) as (_ & P1 & Q1), (bn_pack_spec _ k W2 L2) as (_ & P2 & Q2).
  do 2 eexists. split; [reflexivity|]. split; [reflexivity|]. rewrite P1, P2, Q1, Q2. by split_and!; [lia|lia|..].
Qed.
Lemma bn_addsub_mod_correct_witness :
  ∃ s d, bn_add_mod [0; 0; 0; 5] [0; 0; 0; 7] [0; 0; 0; 11] 4 = Some s ∧ bn_sub_mod [0; 0; 0; 5] [0; 0; 0; 7] [0; 0; 0; 11] 4 = Some d ∧
    length s = 4%nat ∧ length d = 4%nat ∧
    be_val s = (be_val [0; 0; 0; 5] + be_val [0; 0; 0; 7]) mod be_val [0; 0; 0; 11] ∧
    be_val d = (be_val [0; 0; 0; 5] - be_val [0; 0; 0; 7]) mod be_val [0; 0; 0; 11].
Proof.
  apply (bn_addsub_mod_correct [0; 0; 0; 5] [0; 0; 0; 7] [0; 0; 0; 11] 4); solve [reflexivity|by apply (bool_decide_unpack _)].
Defined.

(** * A modulus *)

(** ** The inverse of a limb *)

Lemma wrap_cong x : ∃ w, u32 x = x + w * B.
Proof. exists (- (x / B)). unfold u32, wrap. pose proof (Z.div_mod x B ltac:(lia)). lia. Qed.
Lemma pow_divide i n : 0 <= i <= n → (2 ^ i | 2 ^ n).
Proof. intros H. exists (2 ^ (n - i)). rewrite <-Z.pow_add_r by lia. f_equal. lia. Qed.

(** Each step doubles the number of correct bits, up to the width. *)
Lemma newton_step a x j : 0 <= j → (2 ^ j | 1 - a * x) → (2 ^ Z.min 32 (2 * j) | 1 - a * u32 (x * u32 (2 - u32 (a * x)))).
Proof.
  intros Hj [q E]. destruct (wrap_cong (a * x)) as [w1 ->]. destruct (wrap_cong (2 - (a * x + w1 * B))) as [w2 ->].
  destruct (wrap_cong (x * (2 - (a * x + w1 * B) + w2 * B))) as [w3 ->].
  replace (1 - a * _) with ((1 - a * x) * (1 - a * x) - a * (w3 + x * w2 - x * w1) * B) by ring. rewrite E.
  replace (q * 2 ^ j * (q * 2 ^ j)) with (q * q * 2 ^ (2 * j)) by (rewrite (Z.mul_comm 2 j), Z.pow_mul_r by lia; ring).
  apply Z.divide_sub_r; apply Z.divide_mul_r, pow_divide; lia.
Qed.

Lemma bn_inv_limb_spec a : Z.odd a = true → (B | 1 - a * bn_inv_limb a).
Proof.
  intros Ho. unfold bn_inv_limb. cbn [Nat.iter]. assert (2 ^ 1 | 1 - a * 1) as H0.
  { apply Z.odd_spec in Ho as [q ->]. exists (- q). ring. }
  do 5 apply newton_step in H0; try lia. apply (newton_step _ _ 32); [lia|exact H0].
Qed.

(** ** The ring *)

#[local] Abbreviation R := (B ^ Z.of_nat EC_K).

(** What [bn_mod_init] sets up for an odd modulus. *)
Record mod_ok (md : bn_mod) : Prop := {
  mo_limbs : limbs_ok (m_m md);
  mo_length : length (m_m md) = EC_K;
  mo_odd : Z.odd (bn_val (m_m md)) = true;
  mo_pos : 1 < bn_val (m_m md);
  mo_n0 : (m_n0 md * (m_m md).[0] + 1) mod B = 0;
  mo_r2 : reduced EC_K (m_m md) (m_r2 md);
  mo_r2_val : bn_val (m_r2 md) = R * R mod bn_val (m_m md);
  mo_one : reduced EC_K (m_m md) (m_one md);
  mo_one_val : bn_val (m_one md) = R mod bn_val (m_m md);
}.

(** The limbs [x] stand for the number [v] in Montgomery form. *)
Definition rep (md : bn_mod) (x : list Z) (v : Z) : Prop :=
  reduced EC_K (m_m md) x ∧ (bn_val (m_m md) | bn_val x - v * R).

(** An odd modulus cancels the radix. *)
Lemma odd_cancel m x : Z.odd m = true → (m | R * x) → (m | x).
Proof.
  intros Ho. change R with (2 ^ Z.of_nat 256). apply Z.odd_spec in Ho as [t ->]. generalize 256%nat as n.
  intros n. induction n as [|n IH]; [by rewrite Z.pow_0_r, Z.mul_1_l|].
  rewrite Nat2Z.inj_succ, Z.pow_succ_r by lia. intros [q E]. apply IH. exists (2 ^ Z.of_nat n * x - t * q).
  set (y := 2 ^ Z.of_nat n * x). rewrite <-Z.mul_assoc in E. fold y in E.
  assert (t * (2 * y) = t * (q * (2 * t + 1))) by (by rewrite E). lia.
Qed.

Section ring.
Context (md : bn_mod) (Hmd : mod_ok md).
#[local] Abbreviation m := (bn_val (m_m md)).

Lemma mod_mul_spec a b : limbs_ok a → length a = EC_K → bn_val a <= m → limbs_ok b → length b = EC_K →
  reduced EC_K (m_m md) (bn_mod_mul md a b) ∧ ∃ q, R * bn_val (bn_mod_mul md a b) = bn_val a * bn_val b + q * m.
Proof.
  intros Ha La Am Hb Lb. destruct Hmd. unfold bn_mod_mul.
  destruct (mont_mul_spec EC_K (m_m md) (m_n0 md)) with (A := a) (b := b) as (H1 & H2 & H3 & H4); try assumption; [unfold EC_K; lia|lia|].
  split; [by split_and!|exact H4].
Qed.

Lemma rep_mul x y v w : rep md x v → rep md y w → rep md (bn_mod_mul md x y) (v * w).
Proof.
  intros [(Hx & Lx & Rx) [p Ep]] [(Hy & Ly & Ry) [q Eq]]. destruct (mod_mul_spec x y) as [Hr [c Ec]]; [done|done|lia|done|done|].
  split; [done|]. apply odd_cancel; [apply Hmd|]. rewrite Z.mul_sub_distr_l, Ec.
  assert (bn_val x = v * R + p * m) as -> by lia. assert (bn_val y = w * R + q * m) as -> by lia.
  exists (v * R * q + p * w * R + p * q * m + c). ring.
Qed.
Lemma rep_add x y v w : rep md x v → rep md y w → rep md (bn_mod_add x y (m_m md) EC_K) (v + w).
Proof.
  intros [Rx [p Ep]] [Ry [q Eq]]. destruct (mod_add_spec EC_K (m_m md) (mo_limbs _ Hmd) (mo_length _ Hmd) x y Rx Ry) as [Rr E].
  split; [done|]. rewrite E, Z.mod_eq by (pose proof (mo_pos _ Hmd); lia). exists (p + q - (bn_val x + bn_val y) / m). lia.
Qed.
Lemma rep_sub x y v w : rep md x v → rep md y w → rep md (bn_mod_sub x y (m_m md) EC_K) (v - w).
Proof.
  intros [Rx [p Ep]] [Ry [q Eq]]. destruct (mod_sub_spec EC_K (m_m md) (mo_limbs _ Hmd) (mo_length _ Hmd) x y Rx Ry) as [Rr E].
  split; [done|]. rewrite E, Z.mod_eq by (pose proof (mo_pos _ Hmd); lia). exists (p - q - (bn_val x - bn_val y) / m). lia.
Qed.
Lemma rep_one : rep md (m_one md) 1.
Proof.
  split; [apply Hmd|]. rewrite (mo_one_val _ Hmd), Z.mod_eq by (pose proof (mo_pos _ Hmd); lia). exists (- (R / m)). lia.
Qed.
(** A number not above the modulus enters; the product with plain one leaves. *)
Lemma rep_enter a : limbs_ok a → length a = EC_K → bn_val a <= m → rep md (bn_mod_enter md a) (bn_val a).
Proof.
  intros Ha La Am. unfold bn_mod_enter. destruct (mo_r2 _ Hmd) as (H2 & L2 & R2).
  destruct (mod_mul_spec a (m_r2 md)) as [Hr [c Ec]]; [done..|]. split; [done|]. apply odd_cancel; [apply Hmd|].
  rewrite Z.mul_sub_distr_l, Ec, (mo_r2_val _ Hmd), Z.mod_eq by (pose proof (mo_pos _ Hmd); lia).
  exists (c - bn_val a * (R * R / m)). ring.
Qed.
Lemma one_limbs_ok : limbs_ok one_limbs ∧ length one_limbs = EC_K ∧ bn_val one_limbs = 1.
Proof. split_and!; [by apply (bool_decide_unpack _)|done|done]. Qed.
Lemma rep_leave x v : rep md x v → bn_val (bn_mod_leave md x) = v mod m.
Proof.
  intros [(Hx & Lx & Rx) [p Ep]]. destruct one_limbs_ok as (H1 & L1 & E1). unfold bn_mod_leave.
  destruct (mod_mul_spec x one_limbs) as [(Hr & Lr & Rr) [c Ec]]; [done|done|lia|done|done|]. rewrite E1 in Ec.
  assert (m | bn_val (bn_mod_mul md x one_limbs) - v) as [q Eq].
  { apply odd_cancel; [apply Hmd|]. rewrite Z.mul_sub_distr_l, Ec. exists (p + c). lia. }
  pose proof (bn_val_range _ Hr). symmetry. replace v with (bn_val (bn_mod_mul md x one_limbs) + - q * m) by lia.
  rewrite Z.mod_add by lia. apply Z.mod_small. lia.
Qed.
End ring.

(** ** Setting a modulus up *)

Lemma double_iter M n : limbs_ok M → length M = EC_K → 1 < bn_val M →
  let r := Nat.iter n (λ r, bn_mod_add r r M EC_K) one_limbs in
  reduced EC_K M r ∧ bn_val r = 2 ^ Z.of_nat n mod bn_val M.
Proof.
  intros HM LM Hm. destruct one_limbs_ok as (H1 & L1 & E1). cbn zeta. induction n as [|n [Rr Er]].
  - change (Nat.iter 0 _ one_limbs) with one_limbs. unfold reduced. rewrite E1, Z.mod_small by (cbn; lia). by split_and!.
  - rewrite Nat.iter_succ. destruct (mod_add_spec EC_K M HM LM _ _ Rr Rr) as [R' E']. split; [done|].
    rewrite E', Er, <-Z.add_mod, Nat2Z.inj_succ, Z.pow_succ_r by lia. f_equal. lia.
Qed.

Lemma mod_init_ok s : bytes_ok s → length s = 32%nat → Z.odd (be_val s) = true → 1 < be_val s →
  mod_ok (bn_mod_init s) ∧ bn_val (m_m (bn_mod_init s)) = be_val s.
Proof.
  intros Bs Ls Ho H1. destruct (bn_unpack_spec s EC_K Bs Ls) as (HM & LM & EM). unfold bn_mod_init. cbn [m_m]. split; [|exact EM].
  set (M := bn_unpack s EC_K) in *. rewrite <-EM in *. clearbody M. clear s Bs Ls EM.
  destruct (double_iter M (2 * 32 * EC_K) HM LM H1) as [R2 E2]. set (r2 := Nat.iter _ _ one_limbs) in *. clearbody r2.
  assert (2 ^ Z.of_nat (2 * 32 * EC_K) = R * R) as EP by reflexivity. rewrite EP in E2. clear EP.
  assert ((u32 (0 - bn_inv_limb M.[0]) * M.[0] + 1) mod B = 0) as Hn.
  { assert (Z.odd M.[0] = true) as Ho0.
    { destruct M as [|x M']; [discriminate LM|]. cbn [nth bn_val] in *. rewrite Z.odd_add, Z.odd_mul in Ho.
      change (Z.odd B) with false in Ho. by rewrite andb_false_l, xorb_false_r in Ho. }
    destruct (bn_inv_limb_spec _ Ho0) as [q Eq]. destruct (wrap_cong (0 - bn_inv_limb M.[0])) as [w ->].
    apply Z.mod_divide; [lia|]. exists (q + w * M.[0]). lia. }
  destruct one_limbs_ok as (W1 & L1 & E1).
  destruct (mont_mul_spec EC_K M _ HM LM ltac:(unfold EC_K; lia) Hn one_limbs r2) as (Wo & Lo & Ro & q & Eo); [done|done|lia|apply R2|apply R2|lia|].
  split; cbn [m_m m_n0 m_r2 m_one]; try done.
  assert (bn_val M | bn_val (bn_mont_mul_limbs one_limbs r2 M (u32 (0 - bn_inv_limb M.[0])) EC_K) - R) as [c Ec].
  { apply odd_cancel; [done|]. rewrite Z.mul_sub_distr_l, Eo, E1, E2, Z.mod_eq by lia. exists (q - R * R / bn_val M). lia. }
  pose proof (bn_val_range _ Wo). symmetry. set (o := bn_val (bn_mont_mul_limbs _ _ _ _ _)) in *.
  replace R with (o + - c * bn_val M) by lia. rewrite Z.mod_add by lia. apply Z.mod_small. lia.
Qed.

(** ** Exponentiation *)

Definition bits_val (n : Z) (l : list bool) : Z := foldl (λ n b, 2 * n + Z.b2z b) n l.
Lemma exp_byte_bits x n : byte_ok x → bits_val n (List.map (λ i, Z.testbit x (Z.of_nat (7 - i))) (seq 0 8)) = 256 * n + x.
Proof.
  intros Hx. assert (bits_val 0 (List.map (λ i, Z.testbit x (Z.of_nat (7 - i))) (seq 0 8)) = x) as E.
  { assert (forallb (λ x, bits_val 0 (List.map (λ i, Z.testbit x (Z.of_nat (7 - i))) (seq 0 8)) =? x) (List.map Z.of_nat (seq 0 256)) = true) as H by reflexivity.
    rewrite forallb_forall in H. apply Z.eqb_eq, H, in_map_iff. exists (Z.to_nat x). unfold byte_ok in Hx. rewrite in_seq. lia. }
  unfold bits_val in *. cbn [seq List.map foldl] in *. lia.
Qed.
Lemma exp_bits_val e : bytes_ok e → ∀ n, bits_val n (exp_bits e) = n * 256 ^ Z.of_nat (length e) + be_val e.
Proof.
  induction 1 as [|x e Hx He IH]; intros n; [cbn; lia|]. unfold exp_bits. cbn [flat_map]. fold (exp_bits e). unfold bits_val.
  rewrite foldl_app. fold (bits_val n (List.map (λ i, Z.testbit x (Z.of_nat (7 - i))) (seq 0 8))). rewrite exp_byte_bits by done.
  fold (bits_val (256 * n + x) (exp_bits e)). rewrite IH. unfold be_val. cbn [rev length]. rewrite le_val_app, List.length_rev.
  cbn [le_val]. rewrite Nat2Z.inj_succ, Z.pow_succ_r by lia. ring.
Qed.

Section exp.
Context (md : bn_mod) (Hmd : mod_ok md) (a : list Z) (v : Z) (Ha : rep md a v).
(** The accumulator after the bits of n. *)
Definition acc_ok (acc : option (list Z)) (n : Z) : Prop :=
  0 <= n ∧ match acc with None => n = 0 | Some x => rep md x (v ^ n) end.

Lemma exp_bit_ok acc n b : acc_ok acc n → acc_ok (exp_bit md a acc b) (2 * n + Z.b2z b).
Proof.
  intros [Hn H]. unfold exp_bit, acc_ok. split; [destruct b; cbn; lia|]. destruct acc as [x|]; cbn [option_map].
  - pose proof (rep_mul md Hmd x x _ _ H H) as S. rewrite <-Z.pow_add_r in S by done.
    destruct b; cbn [Z.b2z].
    + pose proof (rep_mul md Hmd _ a _ _ S Ha) as S'.
      replace (2 * n + 1) with (n + n + 1) by lia. rewrite Z.pow_add_r, Z.pow_1_r by lia. exact S'.
    + replace (2 * n + 0) with (n + n) by lia. exact S.
  - subst n. destruct b; cbn [Z.b2z]; [|done]. change (2 * 0 + 1) with 1. by rewrite Z.pow_1_r.
Qed.
Lemma exp_fold l : ∀ acc n, acc_ok acc n → acc_ok (foldl (exp_bit md a) acc l) (bits_val n l).
Proof. induction l as [|b l IH]; intros acc n H; [done|]. apply IH. by apply exp_bit_ok. Qed.

Lemma rep_exp e : bytes_ok e → rep md (bn_mod_exp md a e) (v ^ be_val e).
Proof.
  intros He. unfold bn_mod_exp. destruct (exp_fold (exp_bits e) None 0) as [Hn H]; [done|].
  rewrite exp_bits_val, Z.mul_0_l, Z.add_0_l in H by done. destruct (foldl _ None _) as [x|]; cbn [default]; [exact H|].
  rewrite H, Z.pow_0_r. by apply rep_one.
Qed.
End exp.

(** C34: Over an odd modulus of 32 bytes the operations are those of the ring of integers
    modulo m: [bn_mod_init] computes the constants, and on numbers in Montgomery form the
    product, sum, difference and power stand for the ring's; a number enters the form and
    its residue leaves it.  The exponent is any string of bytes, the empty one included. *)
Theorem bn_mod_refines_ring (s : list Z) (x y : list Z) (v w : Z) (e a : list Z)
  (Bs : bytes_ok s) (Ls : length s = 32%nat) (Ho : Z.odd (be_val s) = true) (H1 : 1 < be_val s)
  (Hx : rep (bn_mod_init s) x v) (Hy : rep (bn_mod_init s) y w) (He : bytes_ok e)
  (Ha : limbs_ok a) (La : length a = EC_K) (Am : bn_val a <= be_val s) :
  let md := bn_mod_init s in
  bn_val (m_m md) = be_val s ∧
  rep md (bn_mod_mul md x y) (v * w) ∧ rep md (bn_mod_add x y (m_m md) EC_K) (v + w) ∧
  rep md (bn_mod_sub x y (m_m md) EC_K) (v - w) ∧ rep md (bn_mod_exp md x e) (v ^ be_val e) ∧
  rep md (m_one md) 1 ∧ rep md (bn_mod_enter md a) (bn_val a) ∧ bn_val (bn_mod_leave md x) = v mod be_val s.
Proof.
  destruct (mod_init_ok s Bs Ls Ho H1) as [Hok E]. cbn zeta. rewrite <-E in *.
  split_and!; eauto using rep_mul, rep_add, rep_sub, rep_exp, rep_one, rep_enter, rep_leave.
Qed.
Lemma bn_mod_refines_ring_witness :
  let s := repeat 0 31 ++ [7] in
  let md := bn_mod_init s in
  bn_val (m_m md) = be_val s ∧
  rep md (bn_mod_mul md (m_one md) (m_one md)) (1 * 1) ∧ rep md (bn_mod_add (m_one md) (m_one md) (m_m md) EC_K) (1 + 1) ∧
  rep md (bn_mod_sub (m_one md) (m_one md) (m_m md) EC_K) (1 - 1) ∧ rep md (bn_mod_exp md (m_one md) [3; 5]) (1 ^ be_val [3; 5]) ∧
  rep md (m_one md) 1 ∧ rep md (bn_mod_enter md one_limbs) (bn_val one_limbs) ∧ bn_val (bn_mod_leave md (m_one md)) = 1 mod be_val s.
Proof.
  assert (bytes_ok (repeat 0 31 ++ [7])) as Bs by (by apply (bool_decide_unpack _)).
  destruct (mod_init_ok (repeat 0 31 ++ [7]) Bs eq_refl eq_refl eq_refl) as [Hok _].
  apply (bn_mod_refines_ring (repeat 0 31 ++ [7]) (m_one (bn_mod_init (repeat 0 31 ++ [7]))) (m_one (bn_mod_init (repeat 0 31 ++ [7]))) 1 1 [3; 5] one_limbs Bs);
    [reflexivity|reflexivity|reflexivity|by apply rep_one|by apply rep_one|by apply (bool_decide_unpack _)|by apply (bool_decide_unpack _)|reflexivity|vm_compute; discriminate].
Defined.
