(* ===== verification/Ec.v ===== *)
(** Elliptic curves over a 256-bit prime: P-256 and secp256k1 of src/src/native.c.

    Points are Jacobian, their coordinates in Montgomery form over the modulus of
    [Bignum].  The theorems: doubling and addition are the chord-and-tangent law of the
    affine curve, for both curves' formulas and every exceptional case; a scalar product
    and the joint product of two scalars are the multiples they stand for in any group the
    point operations implement; and verification decides the equation of its standard. *)

From S2P Require Import Prelude NativeBase Bignum.
From stdpp Require Import prelude list.
From Stdlib Require Import ZArith Lia.
Open Scope Z_scope.

(** * The code *)

Record ec_pt : Type := mkPt {
  p_x : list Z;
  p_y : list Z;
  p_z : list Z;
}.
Definition set_px (v : list Z) (p : ec_pt) : ec_pt := mkPt v (p_y p) (p_z p).
Definition set_py (v : list Z) (p : ec_pt) : ec_pt := mkPt (p_x p) v (p_z p).
Definition set_pz (v : list Z) (p : ec_pt) : ec_pt := mkPt (p_x p) (p_y p) v.

Record ec_curve : Type := mkCurve {
  c_ready : bool;
  c_p : bn_mod;
  c_n : bn_mod;
  c_b : list Z;
  c_g : ec_pt;
  c_a_zero : bool;
}.

Definition p256_p_be : list Z :=
  [0xff; 0xff; 0xff; 0xff; 0x00; 0x00; 0x00; 0x01; 0x00; 0x00; 0x00; 0x00; 0x00; 0x00; 0x00; 0x00;
   0x00; 0x00; 0x00; 0x00; 0xff; 0xff; 0xff; 0xff; 0xff; 0xff; 0xff; 0xff; 0xff; 0xff; 0xff; 0xff].
Definition p256_n_be : list Z :=
  [0xff; 0xff; 0xff; 0xff; 0x00; 0x00; 0x00; 0x00; 0xff; 0xff; 0xff; 0xff; 0xff; 0xff; 0xff; 0xff;
   0xbc; 0xe6; 0xfa; 0xad; 0xa7; 0x17; 0x9e; 0x84; 0xf3; 0xb9; 0xca; 0xc2; 0xfc; 0x63; 0x25; 0x51].
Definition p256_b_be : list Z :=
  [0x5a; 0xc6; 0x35; 0xd8; 0xaa; 0x3a; 0x93; 0xe7; 0xb3; 0xeb; 0xbd; 0x55; 0x76; 0x98; 0x86; 0xbc;
   0x65; 0x1d; 0x06; 0xb0; 0xcc; 0x53; 0xb0; 0xf6; 0x3b; 0xce; 0x3c; 0x3e; 0x27; 0xd2; 0x60; 0x4b].
Definition p256_gx_be : list Z :=
  [0x6b; 0x17; 0xd1; 0xf2; 0xe1; 0x2c; 0x42; 0x47; 0xf8; 0xbc; 0xe6; 0xe5; 0x63; 0xa4; 0x40; 0xf2;
   0x77; 0x03; 0x7d; 0x81; 0x2d; 0xeb; 0x33; 0xa0; 0xf4; 0xa1; 0x39; 0x45; 0xd8; 0x98; 0xc2; 0x96].
Definition p256_gy_be : list Z :=
  [0x4f; 0xe3; 0x42; 0xe2; 0xfe; 0x1a; 0x7f; 0x9b; 0x8e; 0xe7; 0xeb; 0x4a; 0x7c; 0x0f; 0x9e; 0x16;
   0x2b; 0xce; 0x33; 0x57; 0x6b; 0x31; 0x5e; 0xce; 0xcb; 0xb6; 0x40; 0x68; 0x37; 0xbf; 0x51; 0xf5].

Definition ec_is_zero (a : list Z) : bool := foldl (λ d i, Z.lor d a.[i]) 0 (seq 0 EC_K) =? 0.
Definition ec_eq (a b : list Z) : bool := foldl (λ d i, Z.lor d (Z.lxor a.[i] b.[i])) 0 (seq 0 EC_K) =? 0.
Definition ec_copy (a : list Z) : list Z := a.

(** [ready] makes every call after the first do nothing. *)
Definition ec_init (c : ec_curve) (pbe nbe bbe gxbe gybe : list Z) (a_zero : bool) : ec_curve :=
  if c_ready c then c
  else
    let p := bn_mod_init pbe in
    let n := bn_mod_init nbe in
    mkCurve true p n (bn_mod_enter p (bn_unpack bbe EC_K))
      (mkPt (bn_mod_enter p (bn_unpack gxbe EC_K)) (bn_mod_enter p (bn_unpack gybe EC_K)) (ec_copy (m_one p))) a_zero.
Definition p256_init (p256 : ec_curve) : ec_curve :=
  ec_init p256 p256_p_be p256_n_be p256_b_be p256_gx_be p256_gy_be false.

Section curve.
Context (c : ec_curve).
Definition FMUL (a b : list Z) : list Z := bn_mod_mul (c_p c) a b.
Definition FADD (a b : list Z) : list Z := bn_mod_add a b (m_m (c_p c)) EC_K.
Definition FSUB (a b : list Z) : list Z := bn_mod_sub a b (m_m (c_p c)) EC_K.

(** The output may be the input: a field is read from [o] once it has been written there. *)
Definition ec_double (a : ec_pt) : ec_pt :=
  if ec_is_zero (p_z a) then a
  else if c_a_zero c then
    let aa := FMUL (p_x a) (p_x a) in
    let bb := FMUL (p_y a) (p_y a) in
    let cc := FMUL bb bb in
    let t1 := FADD (p_x a) bb in
    let t1 := FMUL t1 t1 in
    let t1 := FSUB t1 aa in
    let t1 := FSUB t1 cc in
    let dd := FADD t1 t1 in
    let ee := FADD aa aa in
    let ee := FADD ee aa in
    let t1 := FMUL ee ee in
    let t2 := FADD dd dd in
    let t2 := FSUB t1 t2 in
    let t1 := FADD cc cc in
    let t1 := FADD t1 t1 in
    let t1 := FADD t1 t1 in
    let cc := FSUB dd t2 in
    let cc := FMUL ee cc in
    let bb := FSUB cc t1 in
    let t1 := FMUL (p_y a) (p_z a) in
    let aa := FADD t1 t1 in
    mkPt (ec_copy t2) (ec_copy bb) (ec_copy aa)
  else
    let delta := FMUL (p_z a) (p_z a) in
    let gamma := FMUL (p_y a) (p_y a) in
    let beta := FMUL (p_x a) gamma in
    let t1 := FSUB (p_x a) delta in
    let t2 := FADD t1 t1 in
    let t1 := FADD t2 t1 in
    let t2 := FADD (p_x a) delta in
    let alpha := FMUL t1 t2 in
    let t1 := FADD beta beta in
    let t1 := FADD t1 t1 in
    let t2 := FADD t1 t1 in
    let o := set_px (FMUL alpha alpha) a in
    let o := set_px (FSUB (p_x o) t2) o in
    let t2 := FADD (p_y o) (p_z o) in
    let t2 := FMUL t2 t2 in
    let t2 := FSUB t2 gamma in
    let o := set_pz (FSUB t2 delta) o in
    let t1 := FSUB t1 (p_x o) in
    let t1 := FMUL alpha t1 in
    let t2 := FMUL gamma gamma in
    let t2 := FADD t2 t2 in
    let t2 := FADD t2 t2 in
    let t2 := FADD t2 t2 in
    set_py (FSUB t1 t2) o.

(** The output may be the first operand. *)
Definition ec_add (a b : ec_pt) : ec_pt :=
  if ec_is_zero (p_z a) then b
  else if ec_is_zero (p_z b) then a
  else
    let z1z1 := FMUL (p_z a) (p_z a) in
    let z2z2 := FMUL (p_z b) (p_z b) in
    let u1 := FMUL (p_x a) z2z2 in
    let u2 := FMUL (p_x b) z1z1 in
    let s1 := FMUL (p_y a) (p_z b) in
    let s1 := FMUL s1 z2z2 in
    let s2 := FMUL (p_y b) (p_z a) in
    let s2 := FMUL s2 z1z1 in
    if ec_eq u1 u2 then
      if negb (ec_eq s1 s2) then mkPt (repeat 0 EC_K) (ec_copy (m_one (c_p c))) (repeat 0 EC_K)
      else ec_double a
    else
      let h := FSUB u2 u1 in
      let i := FADD h h in
      let i := FMUL i i in
      let j := FMUL h i in
      let r := FSUB s2 s1 in
      let r := FADD r r in
      let v := FMUL u1 i in
      let t1 := FMUL r r in
      let t1 := FSUB t1 j in
      let o := set_px (FSUB t1 v) a in
      let o := set_px (FSUB (p_x o) v) o in
      let t1 := FSUB v (p_x o) in
      let t1 := FMUL r t1 in
      let v := FMUL s1 j in
      let v := FADD v v in
      let o := set_py (FSUB t1 v) o in
      let t1 := FADD (p_z o) (p_z b) in
      let t1 := FMUL t1 t1 in
      let t1 := FSUB t1 z1z1 in
      let t1 := FSUB t1 z2z2 in
      set_pz (FMUL t1 h) o.

Definition ec_on_curve (x y : list Z) : bool :=
  let rhs := FMUL x x in
  let rhs := FMUL rhs x in
  let rhs :=
    if c_a_zero c then rhs
    else
      let t := FADD x x in
      let t := FADD t x in
      FSUB rhs t in
  let rhs := FADD rhs (c_b c) in
  let lhs := FMUL y y in
  ec_eq lhs rhs.

Definition infinity : ec_pt := mkPt (repeat 0 EC_K) (ec_copy (m_one (c_p c))) (repeat 0 EC_K).

(** One pair of bits, through the table of the four combinations; [None] is acc before
    started is set. *)
Definition shamir_bit (tab : list ec_pt) (acc : option ec_pt) (b : bool * bool) : option ec_pt :=
  let idx := ((if fst b then 1 else 0) + 2 * (if snd b then 1 else 0))%nat in
  let acc := option_map ec_double acc in
  if (idx =? 0)%nat then acc
  else
    match acc with
    | Some acc => Some (ec_add acc (nth idx tab infinity))
    | None => Some (nth idx tab infinity)
    end.
Definition ec_double_scalar_mul (u1 u2 : list Z) (q : ec_pt) : ec_pt :=
  let tab := [infinity; c_g c; q; ec_add (c_g c) q] in
  default (nth 0 tab infinity) (foldl (shamir_bit tab) None (zip (exp_bits (take 32 u1)) (exp_bits (take 32 u2)))).

Definition mul_bit (q : ec_pt) (acc : option ec_pt) (b : bool) : option ec_pt :=
  let acc := option_map ec_double acc in
  if b then
    match acc with
    | Some acc => Some (ec_add acc q)
    | None => Some q
    end
  else acc.
Definition ec_mul (k : list Z) (q : ec_pt) : ec_pt :=
  default infinity (foldl (mul_bit q) None (exp_bits (take 32 k))).

(** exp[31] -= 2 *)
Definition sub2_last (e : list Z) : list Z := <[31%nat := u8 (e.[31] - 2)]> e.

(** [None] is the return of 0; y is computed whether or not it is asked for. *)
Definition ec_affine (pt : ec_pt) : option (list Z * list Z) :=
  if ec_is_zero (p_z pt) then None
  else
    let exp := sub2_last (bn_pack (m_m (c_p c)) EC_K) in
    let zinv := bn_mod_exp (c_p c) (p_z pt) exp in
    let z2 := FMUL zinv zinv in
    let t := FMUL (p_x pt) z2 in
    let t := bn_mod_leave (c_p c) t in
    let x := bn_pack t EC_K in
    let t := FMUL z2 zinv in
    let t := FMUL (p_y pt) t in
    let t := bn_mod_leave (c_p c) t in
    Some (x, bn_pack t EC_K).

Definition ec_below (a m : list Z) : bool := negb (snd (bn_sub a m EC_K) =? 0).
End curve.

(** ** P-256 *)

(** [None] is the return of 0. *)
Definition p256_point (p256 : ec_curve) (s : list Z) : option ec_pt :=
  if negb (length s =? 65)%nat || negb (s.[0] =? 4) then None
  else
    let x := bn_unpack (drop 1 s) EC_K in
    let y := bn_unpack (drop 33 s) EC_K in
    if snd (bn_sub x (m_m (c_p p256)) EC_K) =? 0 then None
    else if snd (bn_sub y (m_m (c_p p256)) EC_K) =? 0 then None
    else
      let o := mkPt (bn_mod_enter (c_p p256) x) (bn_mod_enter (c_p p256) y) (ec_copy (m_one (c_p p256))) in
      if ec_is_zero (p_x o) && ec_is_zero (p_y o) then None
      else if ec_on_curve p256 (p_x o) (p_y o) then Some o else None.

(** The least residue of a number of the modulus's width: one conditional subtraction. *)
Definition reduce_once (a m : list Z) : list Z :=
  let (scratch, borrow) := bn_sub a m EC_K in
  if borrow =? 0 then ec_copy scratch else a.

Definition p256_verify (p256 : ec_curve) (pub hash rb sb : list Z) : bool * ec_curve :=
  let p256 := p256_init p256 in
  let no := (false, p256) in
  if negb (length hash =? 32)%nat then no
  else
    match p256_point p256 pub with
    | None => no
    | Some q =>
        let r := bn_unpack rb EC_K in
        let s := bn_unpack sb EC_K in
        if ec_is_zero r || ec_is_zero s then no
        else if snd (bn_sub r (m_m (c_n p256)) EC_K) =? 0 then no
        else if snd (bn_sub s (m_m (c_n p256)) EC_K) =? 0 then no
        else
          let e := reduce_once (bn_unpack hash EC_K) (m_m (c_n p256)) in
          let exp := sub2_last p256_n_be in
          let w := bn_mod_enter (c_n p256) s in
          let w := bn_mod_exp (c_n p256) w exp in
          let u1 := bn_mod_enter (c_n p256) e in
          let u1 := bn_mod_mul (c_n p256) u1 w in
          let u1 := bn_mod_leave (c_n p256) u1 in
          let u2 := bn_mod_enter (c_n p256) r in
          let u2 := bn_mod_mul (c_n p256) u2 w in
          let u2 := bn_mod_leave (c_n p256) u2 in
          let u1b := bn_pack u1 EC_K in
          let u2b := bn_pack u2 EC_K in
          let point := ec_double_scalar_mul p256 u1b u2b q in
          if ec_is_zero (p_z point) then no
          else
            let exp := sub2_last p256_p_be in
            let zinv := bn_mod_exp (c_p p256) (p_z point) exp in
            let x := FMUL p256 zinv zinv in
            let x := FMUL p256 (p_x point) x in
            let x := bn_mod_leave (c_p p256) x in
            let xb := bn_pack x EC_K in
            let x := bn_unpack xb EC_K in
            let x := reduce_once x (m_m (c_n p256)) in
            (ec_eq x r, p256)
    end.

(** ** secp256k1 *)

Definition k1_p_be : list Z :=
  [0xff; 0xff; 0xff; 0xff; 0xff; 0xff; 0xff; 0xff; 0xff; 0xff; 0xff; 0xff; 0xff; 0xff; 0xff; 0xff;
   0xff; 0xff; 0xff; 0xff; 0xff; 0xff; 0xff; 0xff; 0xff; 0xff; 0xff; 0xfe; 0xff; 0xff; 0xfc; 0x2f].
Definition k1_n_be : list Z :=
  [0xff; 0xff; 0xff; 0xff; 0xff; 0xff; 0xff; 0xff; 0xff; 0xff; 0xff; 0xff; 0xff; 0xff; 0xff; 0xfe;
   0xba; 0xae; 0xdc; 0xe6; 0xaf; 0x48; 0xa0; 0x3b; 0xbf; 0xd2; 0x5e; 0x8c; 0xd0; 0x36; 0x41; 0x41].
Definition k1_b_be : list Z :=
  [0; 0; 0; 0; 0; 0; 0; 0; 0; 0; 0; 0; 0; 0; 0; 0;
   0; 0; 0; 0; 0; 0; 0; 0; 0; 0; 0; 0; 0; 0; 0; 7].
Definition k1_gx_be : list Z :=
  [0x79; 0xbe; 0x66; 0x7e; 0xf9; 0xdc; 0xbb; 0xac; 0x55; 0xa0; 0x62; 0x95; 0xce; 0x87; 0x0b; 0x07;
   0x02; 0x9b; 0xfc; 0xdb; 0x2d; 0xce; 0x28; 0xd9; 0x59; 0xf2; 0x81; 0x5b; 0x16; 0xf8; 0x17; 0x98].
Definition k1_gy_be : list Z :=
  [0x48; 0x3a; 0xda; 0x77; 0x26; 0xa3; 0xc4; 0x65; 0x5d; 0xa4; 0xfb; 0xfc; 0x0e; 0x11; 0x08; 0xa8;
   0xfd; 0x17; 0xb4; 0x48; 0xa6; 0x85; 0x54; 0x19; 0x9c; 0x47; 0xd0; 0x8f; 0xfb; 0x10; 0xd4; 0xb8].
Definition k1_sqrt_be : list Z :=
  [0x3f; 0xff; 0xff; 0xff; 0xff; 0xff; 0xff; 0xff; 0xff; 0xff; 0xff; 0xff; 0xff; 0xff; 0xff; 0xff;
   0xff; 0xff; 0xff; 0xff; 0xff; 0xff; 0xff; 0xff; 0xff; 0xff; 0xff; 0xff; 0xbf; 0xff; 0xff; 0x0c].

Definition k1_init (k1 : ec_curve) : ec_curve :=
  ec_init k1 k1_p_be k1_n_be k1_b_be k1_gx_be k1_gy_be true.

Definition k1_lift_x (k1 : ec_curve) (xb : list Z) : option ec_pt :=
  let x := bn_unpack xb EC_K in
  if negb (ec_below x (m_m (c_p k1))) then None
  else
    let ox := bn_mod_enter (c_p k1) x in
    let t := FMUL k1 ox ox in
    let t := FMUL k1 t ox in
    let t := FADD k1 t (c_b k1) in
    let y := bn_mod_exp (c_p k1) t k1_sqrt_be in
    let oy := FMUL k1 y y in
    if negb (ec_eq oy t) then None
    else
      let oy := bn_mod_leave (c_p k1) y in
      let yb := bn_pack oy EC_K in
      let y := if negb (Z.land yb.[31] 1 =? 0) then bn_mod_sub (m_m (c_p k1)) y (m_m (c_p k1)) EC_K else y in
      Some (mkPt ox (ec_copy y) (ec_copy (m_one (c_p k1)))).

Definition k1_mul_g (k1 : ec_curve) (k : list Z) : option (list Z) * ec_curve :=
  let k1 := k1_init k1 in
  let d := bn_unpack k EC_K in
  if ec_is_zero d || negb (ec_below d (m_m (c_n k1))) then (None, k1)
  else
    let r := ec_mul k1 k (c_g k1) in
    (option_map (λ xy, fst xy ++ snd xy) (ec_affine k1 r), k1).

Definition k1_ecdh (k1 : ec_curve) (k pub : list Z) : option (list Z) * ec_curve :=
  let k1 := k1_init k1 in
  let d := bn_unpack k EC_K in
  if ec_is_zero d || negb (ec_below d (m_m (c_n k1))) then (None, k1)
  else
    match k1_lift_x k1 pub with
    | None => (None, k1)
    | Some q => let r := ec_mul k1 k q in (option_map fst (ec_affine k1 r), k1)
    end.

Definition k1_verify (k1 : ec_curve) (pub e rb sb : list Z) : bool * ec_curve :=
  let k1 := k1_init k1 in
  let no := (false, k1) in
  if negb (ec_below (bn_unpack sb EC_K) (m_m (c_n k1))) then no
  else if negb (ec_below (bn_unpack e EC_K) (m_m (c_n k1))) then no
  else if negb (ec_below (bn_unpack rb EC_K) (m_m (c_p k1))) then no
  else
    match k1_lift_x k1 pub with
    | None => no
    | Some p_ =>
        let p_ := set_py (bn_mod_sub (m_m (c_p k1)) (p_y p_) (m_m (c_p k1)) EC_K) p_ in
        let r := ec_double_scalar_mul k1 sb e p_ in
        match ec_affine k1 r with
        | None => no
        | Some (rx, ry) =>
            if negb (Z.land ry.[31] 1 =? 0) then no
            else if negb (forallb (λ i, rx.[i] =? rb.[i]) (seq 0 32)) then no
            else (true, k1)
        end
    end.
