(* ===== verification/EcLaw.v ===== *)
(** The chord-and-tangent law over the integers modulo a prime: the curve of [Ec] in affine
    coordinates, and what the Jacobian formulas of src/src/native.c compute in them.

    Nothing here mentions limbs: a field element is an integer, and equality is congruence
    modulo [p]. *)

From S2P Require Import Prelude Modp Group.
From stdpp Require Import prelude.
From Stdlib Require Import ZArith Lia Ring Setoid Morphisms.
Open Scope Z_scope.

Section law.
Context (p : Z) (Hp : fermat p).
#[local] Infix "≡" := (eqp p) (at level 70).
#[local] Notation "x ≢ y" := (¬ eqp p x y) (at level 70).
Add Ring eqp_ring_p : (eqp_ring p) (setoid (eqp_equiv p) (eqp_ext p)).

(** * The curve y^2 = x^3 + a x + b *)

Context (a b : Z).
Inductive apt : Type :=
| Inf
| Aff (x y : Z).
Definition on_curve (P : apt) : Prop :=
  match P with
  | Inf => True
  | Aff x y => y * y ≡ x * x * x + a * x + b
  end.
(** The third point of the line through two, or of the tangent, reflected. *)
Definition third (x y x' l : Z) : apt :=
  let x3 := l * l - x - x' in Aff x3 (l * (x - x3) - y).

Inductive chord : apt → apt → apt → Prop :=
| chord_inf_l Q : chord Inf Q Q
| chord_inf_r P : chord P Inf P
| chord_opposite x y x' y' : x ≡ x' → y + y' ≡ 0 → chord (Aff x y) (Aff x' y') Inf
| chord_tangent x y x' y' l : x ≡ x' → y ≡ y' → y ≢ 0 → l * (y + y) ≡ (1 + 1 + 1) * (x * x) + a →
    chord (Aff x y) (Aff x' y') (third x y x l)
| chord_secant x y x' y' l : x ≢ x' → l * (x' - x) ≡ y' - y →
    chord (Aff x y) (Aff x' y') (third x y x' l).

(** The line meets the cubic where the law says: the result is on the curve. *)
Lemma third_on_curve x y x' l :
  (y * y ≡ x * x * x + a * x + b) →
  let x3 := l * l - x - x' in
  a - (1 + 1) * l * y + (1 + 1) * (l * l) * x ≡ x * x' + (x + x') * x3 →
  on_curve (third x y x' l).
Proof.
  intros E x3 A. unfold third, on_curve. fold x3.
  assert (b ≡ y * y - x * x * x - a * x) as -> by (rewrite E; ring).
  assert (a ≡ x * x' + (x + x') * x3 + (1 + 1) * l * y - (1 + 1) * (l * l) * x) as -> by (rewrite <-A; ring).
  unfold x3. ring.
Qed.

Lemma chord_on_curve P Q S : on_curve P → on_curve Q → chord P Q S → on_curve S.
Proof.
  intros HP HQ H. destruct H as [Q|P|x y x' y' Ex Ey|x y x' y' l Ex Ey Hy El|x y x' y' l Hx El]; [done..| |].
  - apply third_on_curve; [exact HP|]. assert (a ≡ l * (y + y) - (1 + 1 + 1) * (x * x)) as -> by (rewrite El; ring). ring.
  - apply third_on_curve; [exact HP|]. cbn in HP, HQ. apply (eqp_cancel p Hp (x' - x)).
    { rewrite eqp_sub_0. intros E. by apply Hx. }
    assert (y' ≡ l * (x' - x) + y) as Ey' by (rewrite El; ring). rewrite Ey' in HQ.
    assert (b ≡ y * y - x * x * x - a * x) as Eb by (rewrite HP; ring). rewrite Eb in HQ.
    assert ((l * (x' - x) + y) * (l * (x' - x) + y) - y * y - (x' * x' * x' - x * x * x) ≡ a * (x' - x)) as Ea by (rewrite HQ; ring).
    transitivity (a * (x' - x) + (x' - x) * ((1 + 1) * (l * l) * x - (1 + 1) * l * y)); [ring|]. rewrite <-Ea. ring.
Qed.

(** ** Jacobian coordinates *)

Definition jac (X Y Z_ : Z) (P : apt) : Prop :=
  match P with
  | Inf => Z_ ≡ 0
  | Aff x y => Z_ ≢ 0 ∧ X ≡ x * (Z_ * Z_) ∧ Y ≡ y * (Z_ * Z_ * Z_)
  end.

(** The doubling of a curve with a = -3, and of one with a = 0. *)
Definition dbl_m3 (X Y Z_ : Z) : Z * Z * Z :=
  let delta := Z_ * Z_ in let gamma := Y * Y in let beta := X * gamma in
  let t := X - delta in let alpha := (t + t + t) * (X + delta) in
  let b2 := beta + beta in let b4 := b2 + b2 in let b8 := b4 + b4 in
  let X3 := alpha * alpha - b8 in
  let Z3 := (Y + Z_) * (Y + Z_) - gamma - delta in
  let g2 := gamma * gamma in let g4 := g2 + g2 in let g8 := g4 + g4 in let g16 := g8 + g8 in
  (X3, alpha * (b4 - X3) - g16, Z3).
Definition dbl_0 (X Y Z_ : Z) : Z * Z * Z :=
  let A := X * X in let B := Y * Y in let C := B * B in
  let t := (X + B) * (X + B) - A - C in let D := t + t in
  let E := A + A + A in let X3 := E * E - (D + D) in
  let c2 := C + C in let c4 := c2 + c2 in let c8 := c4 + c4 in
  (X3, E * (D - X3) - c8, Y * Z_ + Y * Z_).
Definition add_bl (X1 Y1 Z1 X2 Y2 Z2 : Z) : Z * Z * Z :=
  let z1z1 := Z1 * Z1 in let z2z2 := Z2 * Z2 in
  let u1 := X1 * z2z2 in let u2 := X2 * z1z1 in
  let s1 := Y1 * Z2 * z2z2 in let s2 := Y2 * Z1 * z1z1 in
  let h := u2 - u1 in let i := (h + h) * (h + h) in let j := h * i in
  let r := s2 - s1 in let r := r + r in let v := u1 * i in
  let X3 := r * r - j - v - v in
  let w := s1 * j in
  (X3, r * (v - X3) - (w + w), ((Z1 + Z2) * (Z1 + Z2) - z1z1 - z2z2) * h).

Definition tangent (X Y Z_ : Z) (d : Z * Z * Z) : Prop :=
  ∀ x y, jac X Y Z_ (Aff x y) →
  (y ≡ 0 → snd d ≡ 0) ∧
  ∀ l, y ≢ 0 → l * (y + y) ≡ (1 + 1 + 1) * (x * x) + a → jac (fst (fst d)) (snd (fst d)) (snd d) (third x y x l).

Lemma double_nz y z : y ≢ 0 → z ≢ 0 → (1 + 1) * y * (z * (z * (z * z))) ≢ 0.
Proof. intros Hy Hz. pose proof (two_nz p Hp). repeat apply (nz_mul p Hp); assumption. Qed.

Lemma dbl_m3_tangent X Y Z_ : a ≡ - (1 + 1 + 1) → tangent X Y Z_ (dbl_m3 X Y Z_).
Proof.
  intros Ea x y (Hz & EX & EY). unfold dbl_m3. cbn [fst snd]. split.
  { intros E. rewrite EY, E. ring. }
  intros l Hy El. unfold third, jac.
  assert ((X - Z_ * Z_ + (X - Z_ * Z_) + (X - Z_ * Z_)) * (X + Z_ * Z_) ≡ l * (y + y) * (Z_ * Z_ * (Z_ * Z_))) as Ealpha.
  { rewrite El, Ea, EX. ring. }
  rewrite Ealpha, EX, EY. clear Ealpha El. split_and!.
  - intros E. apply (double_nz y Z_ Hy Hz). rewrite <-E. ring.
  - ring.
  - ring.
Qed.

Lemma dbl_0_tangent X Y Z_ : a ≡ 0 → tangent X Y Z_ (dbl_0 X Y Z_).
Proof.
  intros Ea x y (Hz & EX & EY). unfold dbl_0. cbn [fst snd]. split.
  { intros E. rewrite EY, E. ring. }
  intros l Hy El. unfold third, jac.
  assert (X * X + X * X + X * X ≡ l * (y + y) * (Z_ * Z_ * (Z_ * Z_))) as EE.
  { rewrite El, Ea, EX. ring. }
  rewrite EE. clear EE El. rewrite EX, EY. split_and!.
  - intros E. apply (double_nz y Z_ Hy Hz). rewrite <-E. ring.
  - ring.
  - ring.
Qed.

(** The two abscissas and the two ordinates over a common denominator. *)
Lemma add_common X1 Y1 Z1 X2 Y2 Z2 x y x' y' : jac X1 Y1 Z1 (Aff x y) → jac X2 Y2 Z2 (Aff x' y') →
  (X1 * (Z2 * Z2) ≡ X2 * (Z1 * Z1) ↔ x ≡ x') ∧ (Y1 * Z2 * (Z2 * Z2) ≡ Y2 * Z1 * (Z1 * Z1) ↔ y ≡ y').
Proof.
  intros (H1 & EX1 & EY1) (H2 & EX2 & EY2). pose proof (nz_mul p Hp _ _ H1 H2) as H. split; split; intros E.
  - apply (eqp_cancel p Hp (Z1 * Z2 * (Z1 * Z2))); [by apply (nz_mul p Hp)|]. rewrite EX1, EX2 in E. transitivity (x * (Z1 * Z1) * (Z2 * Z2)); [ring|]. rewrite E. ring.
  - rewrite EX1, EX2, E. ring.
  - apply (eqp_cancel p Hp (Z1 * Z2 * (Z1 * Z2) * (Z1 * Z2))); [by repeat apply (nz_mul p Hp)|]. rewrite EY1, EY2 in E.
    transitivity (y * (Z1 * Z1 * Z1) * Z2 * (Z2 * Z2)); [ring|]. rewrite E. ring.
  - rewrite EY1, EY2, E. ring.
Qed.

Lemma add_bl_secant X1 Y1 Z1 X2 Y2 Z2 x y x' y' l : jac X1 Y1 Z1 (Aff x y) → jac X2 Y2 Z2 (Aff x' y') →
  x ≢ x' → l * (x' - x) ≡ y' - y →
  let d := add_bl X1 Y1 Z1 X2 Y2 Z2 in jac (fst (fst d)) (snd (fst d)) (snd d) (third x y x' l).
Proof.
  intros (H1 & EX1 & EY1) (H2 & EX2 & EY2) Hx El. unfold add_bl. cbn [fst snd]. unfold third, jac.
  assert (x' - x ≢ 0) as Hd by (rewrite eqp_sub_0; intros E; by apply Hx).
  assert (Y2 * Z1 * (Z1 * Z1) - Y1 * Z2 * (Z2 * Z2) ≡ l * (x' - x) * (Z1 * Z1 * Z1 * (Z2 * Z2 * Z2))) as Er by (rewrite El, EY1, EY2; ring).
  rewrite Er. clear Er El. rewrite EX1, EX2, EY1. split_and!.
  - intros E. assert ((1 + 1) * (x' - x) * (Z1 * Z2 * (Z1 * Z2) * (Z1 * Z2)) ≡ 0) as E' by (rewrite <-E; ring). revert E'.
    pose proof (two_nz p Hp). repeat apply (nz_mul p Hp); assumption.
  - ring.
  - ring.
Qed.
End law.

(** * The group of the curve *)

(** Points with the same residues. *)
Definition apt_eq (p : Z) (P Q : apt) : Prop :=
  match P, Q with
  | Inf, Inf => True
  | Aff x y, Aff x' y' => eqp p x x' ∧ eqp p y y'
  | _, _ => False
  end.

(** That the law is a group's is a theorem about elliptic curves, not about this code; it is
    the interface through which the scalar products are stated.  [cg_of] sends the points of
    the curve to the group so that the law is its addition. *)
Class CurveGroup (p a b : Z) (G : Type) : Type := {
  cg_group :: AbGroup G;
  cg_of : apt → G;
  cg_inf : cg_of Inf = g_zero;
  cg_chord A B S : on_curve p a b A → on_curve p a b B → chord p a A B S → cg_of S = g_add (cg_of A) (cg_of B);
  cg_inj A B : on_curve p a b A → on_curve p a b B → cg_of A = cg_of B → apt_eq p A B;
}.

Section multiples.
Context `{CurveGroup p a b G}.

(** Points with opposite ordinates are inverses, so the group does not see representatives. *)
Lemma cg_opposite x y x' y' : on_curve p a b (Aff x y) → on_curve p a b (Aff x' y') → eqp p x x' → eqp p (y + y') 0 →
  g_add (cg_of (Aff x y)) (cg_of (Aff x' y')) = g_zero.
Proof. intros C C' Ex Ey. rewrite <-(cg_chord (Aff x y) (Aff x' y') Inf C C'); [apply cg_inf|by apply chord_opposite]. Qed.
Lemma on_curve_opp x y : on_curve p a b (Aff x y) → on_curve p a b (Aff x (- y)).
Proof. cbn. by rewrite Z.mul_opp_opp. Qed.
Lemma on_curve_cong x y x' y' : eqp p x x' → eqp p y y' → on_curve p a b (Aff x y) → on_curve p a b (Aff x' y').
Proof. cbn. intros -> ->. done. Qed.
Lemma cg_cong x y x' y' : on_curve p a b (Aff x y) → eqp p x x' → eqp p y y' → cg_of (Aff x y) = cg_of (Aff x' y').
Proof.
  intros C Ex Ey. pose proof (on_curve_cong x y x' y' Ex Ey C) as C'. pose proof (on_curve_opp x y C) as Co.
  rewrite <-(g_id (cg_of (Aff x y))), <-(cg_opposite x' y' x (- y) C' Co); [|by symmetry|by rewrite <-Ey, Z.add_opp_diag_r].
  rewrite <-g_assoc, (g_comm (cg_of (Aff x (- y)))), cg_opposite; [|done..|by rewrite Z.add_opp_diag_r]. by rewrite g_comm, g_id.
Qed.
End multiples.
