(* ===== verification/EcOk.v ===== *)
(** The point operations of src/src/native.c implement the chord-and-tangent law: [Ec] over
    the ring of [Bignum] refines [EcLaw].

    A point in limbs stands for an affine point; doubling, addition, the two scalar products
    and the conversion to affine coordinates follow the law. *)

From S2P Require Import Prelude NativeBase Bignum Modp Ec EcLaw Group.
From stdpp Require Import prelude list.
From Stdlib Require Import ZArith Lia.
Open Scope Z_scope.

(** * Limbs and residues *)

Section residues.
Context (md : bn_mod) (Hmd : mod_ok md).
#[local] Abbreviation p := (bn_val (m_m md)).

#[local] Abbreviation radix := ((2 ^ 32) ^ Z.of_nat EC_K).

Lemma rep_cong x v w : eqp p v w → rep md x v → rep md x w.
Proof. intros [q E] [Hr [r F]]. split; [done|]. exists (r + q * radix). lia. Qed.

Lemma rep_value x y v w : rep md x v → rep md y w → (eqp p v w ↔ bn_val x = bn_val y).
Proof.
  intros [(Hx & Lx & Rx) [q Eq]] [(Hy & Ly & Ry) [r Er]]. pose proof (bn_val_range x Hx). pose proof (bn_val_range y Hy). split.
  - intros [t Et]. assert (bn_val x - bn_val y = (q - r + t * radix) * p) as E by lia.
    set (k := q - r + t * radix) in *. assert (k <= -1 ∨ k = 0 ∨ 1 <= k) as [?|[Ek|?]] by lia; [nia| |nia]. rewrite Ek in E. lia.
  - intros E. unfold eqp. apply odd_cancel; [apply Hmd|]. exists (r - q). lia.
Qed.
Lemma rep_unique x y v w : rep md x v → rep md y w → eqp p v w → x = y.
Proof.
  intros Hx Hy E. pose proof (proj1 (rep_value x y v w Hx Hy) E). destruct Hx as [(? & ? & ?) _], Hy as [(? & ? & ?) _].
  apply bn_val_inj; [done|done|lia|done].
Qed.

Lemma rep_limbs x v : rep md x v → limbs_ok x ∧ length x = EC_K.
Proof. intros [(? & ? & _) _]. done. Qed.

(** A residue leaves the representation as 32 bytes. *)
Lemma leave_pack t v : rep md t v →
  let bs := bn_pack (bn_mod_leave md t) EC_K in (bytes_ok bs ∧ length bs = 32%nat) ∧ be_val bs = v mod p.
Proof.
  intros Ht. cbn zeta. pose proof (rep_leave _ Hmd t v Ht) as El. destruct one_limbs_ok as (W1 & L1 & V1). destruct Ht as [(Ht & Lt & Rt) _].
  destruct (mod_mul_spec _ Hmd t one_limbs) as [(Hl & Ll & _) _]; [done|done|lia|done|done|].
  destruct (bn_pack_spec _ EC_K Hl Ll) as (Bq & Lq & Eq). unfold bn_mod_leave in *. split; [by split|]. by rewrite Eq.
Qed.

Lemma rep_0 : rep md (repeat 0 EC_K) 0.
Proof.
  split; [|exists 0; reflexivity]. split_and!; [by apply (bool_decide_unpack _)|done|].
  pose proof (mo_pos _ Hmd). change (bn_val (repeat 0 EC_K)) with 0. lia.
Qed.
End residues.

(** The or over the limbs is zero when every limb is. *)
Lemma lor_fold f l : (∀ i, 0 <= f i) → ∀ d, 0 <= d → (foldl (λ d i, Z.lor d (f i)) d l = 0 ↔ d = 0 ∧ Forall (λ i : nat, f i = 0) l).
Proof.
  intros Hf. induction l as [|i l IH]; intros d Hd; cbn [foldl].
  { split; [by intros ->|by intros [-> _]]. }
  rewrite IH by (apply Z.lor_nonneg; split; [done|apply Hf]). rewrite Forall_cons, Z.lor_eq_0_iff. tauto.
Qed.
Lemma ec_eq_spec x y : limbs_ok x → length x = EC_K → limbs_ok y → length y = EC_K → (ec_eq x y = true ↔ x = y).
Proof.
  intros Hx Lx Hy Ly. unfold ec_eq. rewrite Z.eqb_eq, (lor_fold (λ i, Z.lxor x.[i] y.[i])); [|intros i; apply (lxor_ok 32); [done|by apply word_nth..]|done].
  split.
  - intros [_ F]. rewrite (map_nth_seq x _ Lx), (map_nth_seq y _ Ly). rewrite Forall_forall in F. apply List.map_ext_in.
    intros i Hi. apply Z.lxor_eq, F. by apply list_elem_of_In.
  - intros ->. split; [done|]. apply Forall_seq. intros. apply Z.lxor_nilpotent.
Qed.
Lemma ec_is_zero_eq x : ec_is_zero x = ec_eq x (repeat 0 EC_K).
Proof. unfold ec_is_zero, ec_eq. cbn [seq EC_K foldl repeat nth]. by rewrite !Z.lxor_0_r. Qed.

Section tests.
Context (md : bn_mod) (Hmd : mod_ok md).
#[local] Abbreviation p := (bn_val (m_m md)).
Lemma rep_eq x y v w : rep md x v → rep md y w → (ec_eq x y = true ↔ eqp p v w).
Proof.
  intros Hx Hy. destruct (rep_limbs md x v Hx), (rep_limbs md y w Hy). rewrite ec_eq_spec by done. split.
  - intros ->. by apply (rep_value md Hmd y y).
  - by apply (rep_unique md Hmd x y).
Qed.
Lemma rep_is_zero x v : rep md x v → (ec_is_zero x = true ↔ eqp p v 0).
Proof. intros Hx. rewrite ec_is_zero_eq. apply rep_eq; [done|by apply rep_0]. Qed.
End tests.

(** * Points *)

Section points.
Context (c : ec_curve) (Hm : mod_ok (c_p c)).
#[local] Abbreviation p := (bn_val (m_m (c_p c))).
Context (Hp : fermat p) (a b : Z).
#[local] Infix "≡" := (eqp p) (at level 70).
#[local] Notation "x ≢ y" := (¬ eqp p x y) (at level 70).
Context (Ha : if c_a_zero c then a ≡ 0 else a ≡ - (1 + 1 + 1)) (Hb : rep (c_p c) (c_b c) b).

(** A point in limbs and the affine point it stands for. *)
Definition pt_rep (P : ec_pt) (A : apt) : Prop :=
  ∃ X Y Z_, rep (c_p c) (p_x P) X ∧ rep (c_p c) (p_y P) Y ∧ rep (c_p c) (p_z P) Z_ ∧ jac p X Y Z_ A.

Ltac reps := unfold FMUL, FADD, FSUB in *;
  repeat first [assumption | apply rep_mul; [assumption| |] | apply rep_add; [assumption| |] | apply rep_sub; [assumption| |]].

Lemma double_rep P X Y Z_ : rep (c_p c) (p_x P) X → rep (c_p c) (p_y P) Y → rep (c_p c) (p_z P) Z_ → Z_ ≢ 0 →
  let d := if c_a_zero c then dbl_0 X Y Z_ else dbl_m3 X Y Z_ in
  rep (c_p c) (p_x (ec_double c P)) (fst (fst d)) ∧ rep (c_p c) (p_y (ec_double c P)) (snd (fst d)) ∧
  rep (c_p c) (p_z (ec_double c P)) (snd d).
Proof.
  intros HX HY HZ Hz. unfold ec_double. destruct (ec_is_zero (p_z P)) eqn:E; [by apply (rep_is_zero _ Hm _ _ HZ) in E|].
  destruct (c_a_zero c); cbn [p_x p_y p_z set_px set_py set_pz fst snd dbl_0 dbl_m3 ec_copy]; split_and!; reps.
Qed.

Lemma add_rep P Q X1 Y1 Z1 X2 Y2 Z2 x y x' y' :
  rep (c_p c) (p_x P) X1 → rep (c_p c) (p_y P) Y1 → rep (c_p c) (p_z P) Z1 → jac p X1 Y1 Z1 (Aff x y) →
  rep (c_p c) (p_x Q) X2 → rep (c_p c) (p_y Q) Y2 → rep (c_p c) (p_z Q) Z2 → jac p X2 Y2 Z2 (Aff x' y') →
  let S := ec_add c P Q in
  let d := add_bl X1 Y1 Z1 X2 Y2 Z2 in
  (x ≡ x' → y ≡ y' → S = ec_double c P) ∧ (x ≡ x' → y ≢ y' → S = infinity c) ∧
  (x ≢ x' → rep (c_p c) (p_x S) (fst (fst d)) ∧ rep (c_p c) (p_y S) (snd (fst d)) ∧ rep (c_p c) (p_z S) (snd d)).
Proof.
  intros HX1 HY1 HZ1 J1 HX2 HY2 HZ2 J2. destruct (add_common p Hp _ _ _ _ _ _ _ _ _ _ J1 J2) as [Ex Ey].
  destruct J1 as (H1 & _), J2 as (H2 & _). unfold ec_add.
  destruct (ec_is_zero (p_z P)) eqn:E1; [by apply (rep_is_zero _ Hm _ _ HZ1) in E1|].
  destruct (ec_is_zero (p_z Q)) eqn:E2; [by apply (rep_is_zero _ Hm _ _ HZ2) in E2|]. clear E1 E2.
  assert (ec_eq (FMUL c (p_x P) (FMUL c (p_z Q) (p_z Q))) (FMUL c (p_x Q) (FMUL c (p_z P) (p_z P))) = true ↔ x ≡ x') as Bx.
  { rewrite <-Ex. apply rep_eq; [done|reps..]. }
  assert (ec_eq (FMUL c (FMUL c (p_y P) (p_z Q)) (FMUL c (p_z Q) (p_z Q))) (FMUL c (FMUL c (p_y Q) (p_z P)) (FMUL c (p_z P) (p_z P))) = true ↔ y ≡ y') as By.
  { rewrite <-Ey. apply rep_eq; [done|reps..]. }
  cbn zeta. destruct (ec_eq (FMUL c (p_x P) _) _).
  - assert (x ≡ x') as E by tauto. destruct (ec_eq _ _) eqn:Es; cbn [negb]; (split; [|split]); try tauto.
    intros _ Hy. by apply By in Hy.
  - assert (x ≢ x') as E by (intros E; by apply Bx in E). split; [done|]. split; [done|]. intros _.
    clear Bx By Ex Ey. cbn [p_x p_y p_z set_px set_py set_pz fst snd add_bl]. split_and!; reps.
Qed.

Lemma infinity_rep : pt_rep (infinity c) Inf.
Proof.
  exists 0, 1, 0. cbn [infinity p_x p_y p_z]. split_and!; [by apply rep_0|by apply rep_one|by apply rep_0|]. cbn. reflexivity.
Qed.

(** Doubling follows the tangent, and reaches infinity at a point of order two. *)
Lemma ec_double_law P x y x' y' : pt_rep P (Aff x y) → x ≡ x' → y ≡ y' →
  ∃ S, chord p a (Aff x y) (Aff x' y') S ∧ pt_rep (ec_double c P) S.
Proof.
  intros (X & Y & Z_ & HX & HY & HZ & J) Ex Ey. pose proof J as (Hz & _).
  pose proof (double_rep P X Y Z_ HX HY HZ Hz) as (R1 & R2 & R3).
  assert (tangent p a X Y Z_ (if c_a_zero c then dbl_0 X Y Z_ else dbl_m3 X Y Z_)) as T.
  { destruct (c_a_zero c); [by apply dbl_0_tangent|by apply dbl_m3_tangent]. }
  set (d := if c_a_zero c then dbl_0 X Y Z_ else dbl_m3 X Y Z_) in *. destruct (T x y J) as [T0 T1]. destruct (eqp_dec p Hp y 0) as [E|E].
  - exists Inf. split; [apply chord_opposite; [done|]; rewrite <-Ey, E; reflexivity|]. exists (fst (fst d)), (snd (fst d)), (snd d).
    by split_and!; [..|apply T0].
  - assert (y + y ≢ 0) as E2. { pose proof (nz_mul p Hp _ _ (two_nz p Hp) E) as N. by replace (y + y) with ((1 + 1) * y) by ring. }
    destruct (eqp_inverse p Hp _ E2) as [w Hw]. set (l := ((1 + 1 + 1) * (x * x) + a) * w).
    assert (l * (y + y) ≡ (1 + 1 + 1) * (x * x) + a) as El.
    { unfold l. rewrite <-Z.mul_assoc, Hw, Z.mul_1_r. reflexivity. }
    exists (third x y x l). split; [by apply chord_tangent|]. exists (fst (fst d)), (snd (fst d)), (snd d). by split_and!; [..|apply T1].
Qed.

Lemma double_law P A : pt_rep P A → ∃ S, chord p a A A S ∧ pt_rep (ec_double c P) S.
Proof.
  destruct A as [|x y]; intros HP; [|by apply ec_double_law]. exists Inf. split; [constructor|].
  pose proof HP as (X & Y & Z_ & HX & HY & HZ & J). unfold ec_double. by rewrite (proj2 (rep_is_zero _ Hm _ _ HZ) J).
Qed.

Lemma add_law P Q A B_ : pt_rep P A → pt_rep Q B_ → on_curve p a b A → on_curve p a b B_ →
  ∃ S, chord p a A B_ S ∧ pt_rep (ec_add c P Q) S.
Proof.
  intros HP HQ CA CB. destruct A as [|x y].
  { exists B_. split; [constructor|]. destruct HP as (X & Y & Z_ & _ & _ & HZ & J). unfold ec_add.
    by rewrite (proj2 (rep_is_zero _ Hm _ _ HZ) J). }
  destruct HP as (X1 & Y1 & Z1 & HX1 & HY1 & HZ1 & J1). pose proof J1 as (N1 & _). destruct B_ as [|x' y'].
  { exists (Aff x y). split; [constructor|]. destruct HQ as (X & Y & Z_ & _ & _ & HZ & J). unfold ec_add.
    rewrite (proj2 (rep_is_zero _ Hm _ _ HZ) J).
    destruct (ec_is_zero (p_z P)) eqn:E; [by apply (rep_is_zero _ Hm _ _ HZ1) in E|]. by exists X1, Y1, Z1. }
  destruct HQ as (X2 & Y2 & Z2 & HX2 & HY2 & HZ2 & J2).
  destruct (add_rep P Q _ _ _ _ _ _ _ _ _ _ HX1 HY1 HZ1 J1 HX2 HY2 HZ2 J2) as (Edbl & Einf & Esec).
  destruct (eqp_dec p Hp x x') as [Ex|Ex].
  - destruct (eqp_dec p Hp y y') as [Ey|Ey].
    + rewrite Edbl by done. apply ec_double_law; [by exists X1, Y1, Z1|done..].
    + rewrite Einf by done. exists Inf. split; [|apply infinity_rep]. apply chord_opposite; [done|]. cbn in CA, CB.
      apply (eqp_cancel p Hp (y - y')); [by rewrite eqp_sub_0|]. rewrite Z.mul_0_r.
      assert (y * y - y' * y' ≡ 0) as E by (rewrite CA, CB, Ex; by rewrite Z.sub_diag).
      by replace ((y - y') * (y + y')) with (y * y - y' * y') by ring.
  - assert (x' - x ≢ 0) as Hd by (rewrite eqp_sub_0; intros E; by apply Ex).
    destruct (eqp_inverse p Hp _ Hd) as [w Hw]. set (l := (y' - y) * w).
    assert (l * (x' - x) ≡ y' - y) as El by (unfold l; rewrite <-Z.mul_assoc, Hw, Z.mul_1_r; reflexivity).
    exists (third x y x' l). split; [by apply chord_secant|]. destruct (Esec Ex) as (R1 & R2 & R3).
    do 3 eexists. split_and!; [exact R1|exact R2|exact R3|]. by apply (add_bl_secant p Hp _ _ _ _ _ _ x y x' y').
Qed.

(** ** Back to affine coordinates *)

(** exp[31] -= 2 does not borrow when the modulus ends in a byte of at least two. *)
Lemma sub2_spec e : bytes_ok e → length e = 32%nat → 2 <= be_val e mod 256 → bytes_ok (sub2_last e) ∧ be_val (sub2_last e) = be_val e - 2.
Proof.
  intros Be Le He. destruct e as [|x t _] using rev_ind; [done|]. rewrite length_app in Le. cbn [length] in Le.
  assert (length t = 31%nat) as L1 by lia. unfold sub2_last. apply Forall_app in Be as [Bt [Bx _]%Forall_cons].
  rewrite insert_app_r_alt, L1, Nat.sub_diag by lia. rewrite app_nth2, L1, Nat.sub_diag by lia. cbn [nth insert list_insert].
  unfold be_val in *. rewrite !rev_app_distr in *. cbn [rev app le_val] in *.
  rewrite Z.mul_comm, Z.mod_add, Z.mod_small in He by (unfold byte_ok in Bx; lia).
  unfold u8. rewrite wrap_small by (unfold byte_ok in Bx; lia). split; [|lia].
  apply Forall_app; split; [done|]. constructor; [unfold byte_ok in *; lia|constructor].
Qed.

Context (Hlast : 2 <= p mod 256).

Lemma ec_affine_spec P A : pt_rep P A →
  match A with
  | Inf => ec_affine c P = None
  | Aff x y => ∃ xb yb, ec_affine c P = Some (xb, yb) ∧ (bytes_ok xb ∧ length xb = 32%nat) ∧ (bytes_ok yb ∧ length yb = 32%nat) ∧
      be_val xb = x mod p ∧ be_val yb = y mod p
  end.
Proof.
  intros (X & Y & Z_ & HX & HY & HZ & J). unfold ec_affine. destruct A as [|x y].
  { by rewrite (proj2 (rep_is_zero _ Hm _ _ HZ) J). }
  destruct J as (Nz & EX & EY). destruct (ec_is_zero (p_z P)) eqn:E; [by apply (rep_is_zero _ Hm _ _ HZ) in E|]. clear E.
  destruct (bn_pack_spec (m_m (c_p c)) EC_K (mo_limbs _ Hm) (mo_length _ Hm)) as (Bp & Lp & Ep).
  destruct (sub2_spec _ Bp Lp ltac:(by rewrite Ep)) as [Be Ee]. rewrite Ep in Ee.
  pose proof (rep_exp _ Hm _ _ HZ _ Be) as Hi. rewrite Ee in Hi. set (zi := bn_mod_exp _ _ _) in *. clearbody zi.
  set (w := Z_ ^ (p - 2)) in *. assert (Z_ * w ≡ 1) as Ew by (by apply Hp). clearbody w.
  assert (∀ t v u, rep (c_p c) t v → v ≡ u → ∀ b, b = bn_pack (bn_mod_leave (c_p c) t) EC_K → (bytes_ok b ∧ length b = 32%nat) ∧ be_val b = u mod p) as Out.
  { intros t v u Ht Ev bb ->. by apply leave_pack, (rep_cong _ _ _ _ Ev). }
  do 2 eexists. split; [reflexivity|].
  assert (X * (w * w) ≡ x) as E1.
  { rewrite EX. transitivity (x * ((Z_ * w) * (Z_ * w))); [by replace (x * (Z_ * Z_) * (w * w)) with (x * ((Z_ * w) * (Z_ * w))) by ring|]. by rewrite Ew, !Z.mul_1_r. }
  assert (Y * (w * w * w) ≡ y) as E2.
  { rewrite EY. transitivity (y * ((Z_ * w) * (Z_ * w) * (Z_ * w)));
      [by replace (y * (Z_ * Z_ * Z_) * (w * w * w)) with (y * ((Z_ * w) * (Z_ * w) * (Z_ * w))) by ring|]. by rewrite Ew, !Z.mul_1_r. }
  destruct (Out (FMUL c (p_x P) (FMUL c zi zi)) (X * (w * w)) x ltac:(reps) E1 _ eq_refl) as [Lx Vx].
  destruct (Out (FMUL c (p_y P) (FMUL c (FMUL c zi zi) zi)) (Y * (w * w * w)) y ltac:(reps) E2 _ eq_refl) as [Ly Vy].
  split; [exact Lx|]. split; [exact Ly|]. split; [exact Vx|exact Vy].
Qed.

(** ** Multiples *)

Context `{CurveGroup p a b G}.
(** A point of the curve, by the group element it stands for. *)
Definition stands (P : ec_pt) (g : G) : Prop := ∃ A, pt_rep P A ∧ on_curve p a b A ∧ cg_of A = g.

Lemma stands_double P g : stands P g → stands (ec_double c P) (g_add g g).
Proof.
  intros (A & HP & CA & <-). destruct (double_law P A HP) as (S & HS & HR). exists S. split_and!; [done| |by apply cg_chord].
  by apply (chord_on_curve p Hp a b A A).
Qed.
Lemma stands_add P Q g h : stands P g → stands Q h → stands (ec_add c P Q) (g_add g h).
Proof.
  intros (A & HP & CA & <-) (B_ & HQ & CB & <-). destruct (add_law P Q A B_ HP HQ CA CB) as (S & HS & HR). exists S.
  split_and!; [done| |by apply cg_chord]. by apply (chord_on_curve p Hp a b A B_).
Qed.
Lemma stands_infinity : stands (infinity c) g_zero.
Proof. exists Inf. split_and!; [apply infinity_rep|done|apply cg_inf]. Qed.

(** The accumulator after the bits of n, started or not. *)
Definition acc_stands (acc : option ec_pt) (g : G) : Prop :=
  match acc with
  | None => g = g_zero
  | Some P => stands P g
  end.
Lemma acc_double acc g : acc_stands acc g → acc_stands (option_map (ec_double c) acc) (g_add g g).
Proof. destruct acc as [P|]; cbn; [apply stands_double|]. intros ->. apply g_id. Qed.
Lemma acc_add acc g Q h : acc_stands acc g → stands Q h →
  acc_stands (match acc with Some P => Some (ec_add c P Q) | None => Some Q end) (g_add g h).
Proof. destruct acc as [P|]; cbn; intros Hg Hh; [by apply stands_add|]. by rewrite Hg, g_id. Qed.

Lemma mul_bits q g : stands q g → ∀ l acc n, 0 <= n → acc_stands acc (times n g) →
  acc_stands (foldl (mul_bit c q) acc l) (times (bits_val n l) g).
Proof.
  intros Hq. induction l as [|[] l IH]; intros acc n Hn Hacc; [done|..]; cbn [foldl bits_val Z.b2z]; apply IH; try lia; unfold mul_bit.
  - replace (2 * n + 1) with (n + n + 1) by lia. rewrite times_succ, times_add, g_comm by lia. apply acc_add; [by apply acc_double|done].
  - replace (2 * n + 0) with (n + n) by lia. rewrite times_add by lia. by apply acc_double.
Qed.

Lemma acc_default acc g : acc_stands acc g → stands (default (infinity c) acc) g.
Proof. destruct acc as [P|]; cbn; [done|]. intros ->. apply stands_infinity. Qed.

Lemma ec_mul_stands k q g : bytes_ok k → length k = 32%nat → stands q g → stands (ec_mul c k q) (times (be_val k) g).
Proof.
  intros Bk Lk Hq. unfold ec_mul. rewrite take_ge by lia. apply acc_default.
  pose proof (mul_bits q g Hq (exp_bits k) None 0 ltac:(lia) eq_refl) as M. by rewrite exp_bits_val, Z.mul_0_l, Z.add_0_l in M.
Qed.

Context (gg : G) (Hg : stands (c_g c) gg).

Lemma shamir_bits q g : stands q g → ∀ l acc n m, 0 <= n → 0 <= m → acc_stands acc (g_add (times n gg) (times m g)) →
  acc_stands (foldl (shamir_bit c [infinity c; c_g c; q; ec_add c (c_g c) q]) acc l)
    (g_add (times (bits_val n (List.map fst l)) gg) (times (bits_val m (List.map snd l)) g)).
Proof.
  intros Hq. induction l as [|[x y] l IH]; intros acc n m Hn Hmm Hacc; [done|]. cbn [foldl List.map fst snd bits_val].
  apply IH; [destruct x; cbn; lia|destruct y; cbn; lia|]. unfold shamir_bit. cbn [fst snd].
  assert (acc_stands (option_map (ec_double c) acc) (g_add (times (n + n) gg) (times (m + m) g))) as Hd.
  { rewrite !times_add, g_swap by lia. by apply acc_double. }
  destruct x, y; cbn [Z.b2z Nat.add Nat.mul Nat.eqb nth].
  - replace (2 * n + 1) with (n + n + 1) by lia. replace (2 * m + 1) with (m + m + 1) by lia.
    rewrite !(times_add (_ + _) 1), !times_1, g_swap by lia. apply acc_add; [done|by apply stands_add].
  - replace (2 * n + 1) with (n + n + 1) by lia. replace (2 * m + 0) with (m + m) by lia.
    rewrite (times_add (n + n) 1), times_1, <-g_assoc, (g_comm gg), g_assoc by lia. by apply acc_add.
  - replace (2 * n + 0) with (n + n) by lia. replace (2 * m + 1) with (m + m + 1) by lia.
    rewrite (times_add (m + m) 1), times_1, g_assoc by lia. by apply acc_add.
  - replace (2 * n + 0) with (n + n) by lia. replace (2 * m + 0) with (m + m) by lia. done.
Qed.

Lemma exp_bits_length e : length (exp_bits e) = (8 * length e)%nat.
Proof. induction e as [|x e IH]; [done|]. unfold exp_bits in *. cbn [flat_map]. rewrite length_app, IH. cbn [length List.map seq]. lia. Qed.
Lemma zip_fst_snd {X Y} (l : list X) (k : list Y) : length l = length k → List.map fst (zip l k) = l ∧ List.map snd (zip l k) = k.
Proof. revert k. induction l as [|x l IH]; intros [|y k] E; try done. injection E as E. destruct (IH k E) as [E1 E2]. cbn. by rewrite E1, E2. Qed.

Lemma double_scalar_stands u1 u2 q g : bytes_ok u1 → length u1 = 32%nat → bytes_ok u2 → length u2 = 32%nat → stands q g →
  stands (ec_double_scalar_mul c u1 u2 q) (g_add (times (be_val u1) gg) (times (be_val u2) g)).
Proof.
  intros B1 L1 B2 L2 Hq. unfold ec_double_scalar_mul. rewrite !take_ge by lia. cbn [nth]. apply acc_default.
  pose proof (shamir_bits q g Hq (zip (exp_bits u1) (exp_bits u2)) None 0 0 ltac:(lia) ltac:(lia)) as M.
  destruct (zip_fst_snd (exp_bits u1) (exp_bits u2)) as [E1 E2]; [by rewrite !exp_bits_length, L1, L2|].
  rewrite E1, E2, !exp_bits_val, !Z.mul_0_l, !Z.add_0_l in M by done. apply M, g_id.
Qed.
End points.

(** * A curve ready for use *)

(** What [ec_init] leaves: two odd moduli, the field a prime that ends in a byte of at least
    two, the curve's coefficients, and a generator on the curve. *)
Record curve_ok (c : ec_curve) (a b gx gy : Z) : Prop := {
  co_ready : c_ready c = true;
  co_p : mod_ok (c_p c);
  co_n : mod_ok (c_n c);
  co_fermat : fermat (bn_val (m_m (c_p c)));
  co_last : 2 <= bn_val (m_m (c_p c)) mod 256;
  co_a : if c_a_zero c then eqp (bn_val (m_m (c_p c))) a 0 else eqp (bn_val (m_m (c_p c))) a (- (1 + 1 + 1));
  co_b : rep (c_p c) (c_b c) b;
  co_g : pt_rep c (c_g c) (Aff gx gy);
  co_g_on : on_curve (bn_val (m_m (c_p c))) a b (Aff gx gy);
}.

(** A point with plain coordinates is the affine point they are. *)
Lemma plain_rep c x y v w : mod_ok (c_p c) → rep (c_p c) x v → rep (c_p c) y w → pt_rep c (mkPt x y (m_one (c_p c))) (Aff v w).
Proof.
  intros Hm Rx Ry. exists v, w, 1. cbn [p_x p_y p_z]. split_and!; [done|done|by apply rep_one|].
  cbn. rewrite !Z.mul_1_r. split_and!; [|reflexivity..]. intros [r Er]. pose proof (mo_pos _ Hm). assert (r <= 0 ∨ 1 <= r) as [?|?] by lia; nia.
Qed.

Lemma ec_init_ok c pbe nbe bbe gxbe gybe az a : c_ready c = false →
  Forall (λ s, bytes_ok s ∧ length s = 32%nat) [pbe; nbe; bbe; gxbe; gybe] →
  Z.odd (be_val pbe) = true → 1 < be_val pbe → Z.odd (be_val nbe) = true → 1 < be_val nbe →
  be_val bbe <= be_val pbe → be_val gxbe <= be_val pbe → be_val gybe <= be_val pbe →
  fermat (be_val pbe) → 2 <= be_val pbe mod 256 →
  (if az : bool then eqp (be_val pbe) a 0 else eqp (be_val pbe) a (- (1 + 1 + 1))) →
  on_curve (be_val pbe) a (be_val bbe) (Aff (be_val gxbe) (be_val gybe)) →
  let c' := ec_init c pbe nbe bbe gxbe gybe az in
  curve_ok c' a (be_val bbe) (be_val gxbe) (be_val gybe) ∧ bn_val (m_m (c_p c')) = be_val pbe ∧ bn_val (m_m (c_n c')) = be_val nbe ∧ c_a_zero c' = az.
Proof.
  intros Hr F Op P1 On N1 Bb Bx By Hf Hl Ha Hon. repeat (apply Forall_cons in F as [[? ?] F]). unfold ec_init. rewrite Hr.
  destruct (mod_init_ok pbe) as [Mp Ep]; [done..|]. destruct (mod_init_ok nbe) as [Mn En]; [done..|].
  cbn [c_p c_n c_a_zero]. split; [|done].
  assert (∀ s, bytes_ok s → length s = 32%nat → be_val s <= be_val pbe → rep (bn_mod_init pbe) (bn_mod_enter (bn_mod_init pbe) (bn_unpack s EC_K)) (be_val s)) as En'.
  { intros s Bs Ls Hs. destruct (bn_unpack_spec s EC_K Bs Ls) as (W & L & E). rewrite <-E. apply rep_enter; [done..|]. rewrite Ep, E. done. }
  split; cbn [c_ready c_p c_n c_b c_g c_a_zero]; rewrite ?Ep; try done; [by apply En'|].
  apply plain_rep; [done|by apply En'..].
Qed.

(** ** Comparisons *)

Lemma ec_below_spec a m : limbs_ok a → length a = EC_K → limbs_ok m → length m = EC_K → ec_below a m = (bn_val a <? bn_val m).
Proof.
  intros Ha La Hm Lm. unfold ec_below, bn_sub. pose proof (sub_loop_spec a Ha m 0 Hm ltac:(lia) ltac:(lia)) as S. rewrite La in S.
  destruct (sub_loop EC_K a m 0) as [out br]. destruct S as (Ho & Lo & Hbr & E). cbn [snd].
  pose proof (bn_val_range out Ho) as R. pose proof (bn_val_range a Ha) as Ra. pose proof (bn_val_range m Hm) as Rm.
  rewrite Lo in R. rewrite La in Ra. rewrite Lm in Rm.
  destruct Hbr as [-> | ->]; cbn [Z.eqb negb]; symmetry; [apply Z.ltb_ge|apply Z.ltb_lt]; lia.
Qed.
Lemma ec_is_zero_val a : limbs_ok a → length a = EC_K → ec_is_zero a = (bn_val a =? 0).
Proof.
  intros Ha La. rewrite ec_is_zero_eq. apply eq_true_iff_eq. rewrite ec_eq_spec, Z.eqb_eq by (done || by apply (bool_decide_unpack _)).
  split; [by intros ->|]. intros E. apply bn_val_inj; [done|by apply (bool_decide_unpack _)|done|done].
Qed.

(** The low bit of the last byte is the parity. *)
Lemma last_parity s : bytes_ok s → length s = 32%nat → (Z.land s.[31] 1 =? 0) = Z.even (be_val s).
Proof.
  intros Bs Ls. destruct s as [|x t _] using rev_ind; [done|]. rewrite length_app in Ls. cbn [length] in Ls.
  rewrite app_nth2 by lia. replace (31 - length t)%nat with 0%nat by lia. cbn [nth]. unfold be_val. rewrite rev_app_distr. cbn [rev app le_val].
  rewrite Z.even_add, Z.even_mul. change (Z.even 256) with true. cbn [orb].
  change 1 with (Z.ones 1). rewrite Z.land_ones by lia. change (2 ^ 1) with 2. rewrite Zmod_even. by destruct (Z.even x).
Qed.

Section ready.
Context (c : ec_curve) (a b gx gy : Z) (Hc : curve_ok c a b gx gy).
#[local] Abbreviation p := (bn_val (m_m (c_p c))).
#[local] Abbreviation n := (bn_val (m_m (c_n c))).
#[local] Infix "≡" := (eqp p) (at level 70).
#[local] Notation "x ≢ y" := (¬ eqp p x y) (at level 70).
#[local] Hint Resolve co_p co_n co_fermat co_last co_a co_b co_g co_g_on : core.

(** C33: The point formulas are the chord-and-tangent law: whatever affine points of the
    curve two Jacobian points stand for, doubling and adding them give points that stand for
    the tangent's and the chord's third point reflected, with infinity on either side, equal
    and opposite operands and points of order two included; and the results are on the curve
    again.  This holds for the doubling of either curve's coefficient. *)
Theorem ec_points_law (P Q : ec_pt) (A B_ : apt)
  (HP : pt_rep c P A) (HQ : pt_rep c Q B_) (CA : on_curve p a b A) (CB : on_curve p a b B_) :
  (∃ S, chord p a A A S ∧ pt_rep c (ec_double c P) S ∧ on_curve p a b S) ∧
  (∃ S, chord p a A B_ S ∧ pt_rep c (ec_add c P Q) S ∧ on_curve p a b S).
Proof.
  pose proof (co_fermat _ _ _ _ _ Hc) as Hp. split.
  - destruct (double_law c (co_p _ _ _ _ _ Hc) Hp a (co_a _ _ _ _ _ Hc) P A HP) as (S & HS & HR). exists S.
    split_and!; [done|done|by apply (chord_on_curve p Hp a b A A)].
  - destruct (add_law c (co_p _ _ _ _ _ Hc) Hp a b (co_a _ _ _ _ _ Hc) P Q A B_ HP HQ CA CB) as (S & HS & HR). exists S.
    split_and!; [done|done|by apply (chord_on_curve p Hp a b A B_)].
Qed.

Context `{HG : CurveGroup p a b G}.
#[local] Abbreviation gg := (cg_of (Aff gx gy)).

Lemma generator_stands : stands c a b (c_g c) gg.
Proof. exists (Aff gx gy). split_and!; [apply Hc|apply Hc|done]. Qed.

(** C32: A public key is its secret times the generator: for a curve that is set up, the
    secrets outside 1 .. n - 1 are refused, and for the others the 64 bytes are the affine
    coordinates, reduced, of the point of the curve that is k times the generator in the
    curve's group; there is no result only when that multiple is zero. *)
Theorem k1_mul_g_correct (k : list Z) (Bk : bytes_ok k) (Lk : length k = 32%nat) :
  match fst (k1_mul_g c k) with
  | Some out => 0 < be_val k < n ∧ length out = 64%nat ∧ ∃ x y,
      on_curve p a b (Aff x y) ∧ cg_of (Aff x y) = times (be_val k) gg ∧
      be_val (take 32 out) = x mod p ∧ be_val (drop 32 out) = y mod p
  | None => be_val k = 0 ∨ n <= be_val k ∨ times (be_val k) gg = g_zero
  end.
Proof.
  unfold k1_mul_g, k1_init, ec_init. rewrite (co_ready _ _ _ _ _ Hc).
  destruct (bn_unpack_spec k EC_K Bk Lk) as (Wk & LK & Ek). pose proof (co_n _ _ _ _ _ Hc) as Hn.
  rewrite ec_is_zero_val, ec_below_spec by (done || apply Hn). rewrite Ek. pose proof (bn_val_range _ Wk) as R. rewrite Ek in R.
  destruct (Z.eqb_spec (be_val k) 0) as [|N0]; [cbn; tauto|]. destruct (Z.ltb_spec (be_val k) n) as [Hlt|]; [|cbn; tauto]. cbn [orb negb fst].
  destruct (ec_mul_stands c (co_p _ _ _ _ _ Hc) (co_fermat _ _ _ _ _ Hc) a b (co_a _ _ _ _ _ Hc) k (c_g c) gg Bk Lk generator_stands) as (A & HP & CA & EA).
  pose proof (ec_affine_spec c (co_p _ _ _ _ _ Hc) (co_fermat _ _ _ _ _ Hc) (co_last _ _ _ _ _ Hc) _ A HP) as Haff. destruct A as [|x y].
  - rewrite Haff. cbn. right; right. by rewrite <-EA, cg_inf.
  - destruct Haff as (xb & yb & -> & [_ Lx] & [_ Ly] & Ex & Ey). cbn [option_map fst snd]. split; [lia|]. split; [by rewrite length_app, Lx, Ly|].
    exists x, y. rewrite take_app_length', drop_app_length' by done. done.
Qed.

End ready.
