(* ===== verification/EcVerify.v ===== *)
(** Signature verification in src/src/native.c decides what the two schemes ask for:
    [k1_verify] the equation of BIP 340 and [p256_verify] that of ECDSA (SEC 1, 4.1.4), over
    any curve that is set up. *)

From S2P Require Import Prelude NativeBase Bignum Modp Ec EcLaw EcOk Group.
From stdpp Require Import prelude list.
From Stdlib Require Import ZArith Lia.
Open Scope Z_scope.

Section verify.
Context (c : ec_curve) (a b gx gy : Z) (Hc : curve_ok c a b gx gy).
#[local] Abbreviation p := (bn_val (m_m (c_p c))).
#[local] Abbreviation n := (bn_val (m_m (c_n c))).
#[local] Infix "≡" := (eqp p) (at level 70).
#[local] Notation "x ≢ y" := (¬ eqp p x y) (at level 70).

(** The modulus minus a residue that is not zero. *)
Lemma rep_opp y v : rep (c_p c) y v → v ≢ 0 → rep (c_p c) (bn_mod_sub (m_m (c_p c)) y (m_m (c_p c)) EC_K) (- v).
Proof.
  intros Hy Hv. pose proof (co_p _ _ _ _ _ Hc) as Hm. pose proof (proj1 (rep_is_zero _ Hm _ _ Hy)) as Hz.
  destruct Hy as [(Wy & Ly & Ry) [q E]]. pose proof (mo_limbs _ Hm) as WM. pose proof (mo_length _ Hm) as LM.
  assert (bn_val y ≠ 0) as Ny. { intros E0. apply Hv, Hz. rewrite ec_is_zero_val by done. by rewrite E0. }
  pose proof (bn_val_range y Wy) as Vy. unfold bn_mod_sub, bn_sub.
  pose proof (sub_loop_spec _ WM y 0 Wy ltac:(lia) ltac:(lia)) as S. rewrite LM in S.
  destruct (sub_loop EC_K (m_m (c_p c)) y 0) as [t br]. destruct S as (Wt & Lt & Hbr & Et).
  pose proof (bn_val_range t Wt) as Vt. rewrite Lt in Vt. pose proof (bn_val_range _ WM) as VM. rewrite LM in VM.
  assert (br = 0) as -> by lia. cbn [Z.eqb]. split; [split_and!; [done|lia|lia]|]. exists (1 - q). lia.
Qed.

(** Of the two roots the even one is taken. *)
Lemma even_root x v ox y : rep (c_p c) ox x → rep (c_p c) y v → (∀ w, w * w ≡ v * v → on_curve p a b (Aff x w)) →
  let yb := bn_pack (bn_mod_leave (c_p c) y) EC_K in
  let y' := if negb (Z.land yb.[31] 1 =? 0) then bn_mod_sub (m_m (c_p c)) y (m_m (c_p c)) EC_K else y in
  ∃ w, on_curve p a b (Aff x w) ∧ Z.even (w mod p) = true ∧ pt_rep c (mkPt ox (ec_copy y') (ec_copy (m_one (c_p c)))) (Aff x w).
Proof.
  intros Rx Ry On. cbn zeta. pose proof (co_p _ _ _ _ _ Hc) as Hm.
  destruct (leave_pack _ Hm y v Ry) as [[Bq Lq] Vq].
  rewrite last_parity by done. rewrite Vq.
  assert (∀ z w, rep (c_p c) z w → pt_rep c (mkPt ox (ec_copy z) (ec_copy (m_one (c_p c)))) (Aff x w)) as Pt by (intros; by apply plain_rep).
  destruct (Z.even (v mod p)) eqn:Ev; cbn [negb].
  - exists v. split_and!; [by apply On|done|by apply Pt].
  - assert (v ≢ 0) as Nv. { intros E. apply Z.mod_divide in E; [|pose proof (mo_pos _ Hm); lia]. by rewrite Z.sub_0_r in E; rewrite E in Ev. }
    pose proof (rep_opp y v Ry Nv) as Ro. exists (- v). split_and!; [apply On; by rewrite Z.mul_opp_opp| |by apply Pt].
    rewrite Z.mod_opp_l_nz; [|pose proof (mo_pos _ Hm); lia|intros E; by rewrite E in Ev].
    rewrite Z.even_sub, Ev, <-Z.negb_odd, (mo_odd _ Hm). done.
Qed.

(** Lifting an abscissa: the power [k1_sqrt_be] squares back to every square of the field, so
    nothing is found only when there is no point to find. *)
Context (Hsq : ∀ y, (y * y) ^ be_val k1_sqrt_be * (y * y) ^ be_val k1_sqrt_be ≡ y * y).
Lemma lift_x_spec xb : c_a_zero c = true → bytes_ok xb → length xb = 32%nat →
  match k1_lift_x c xb with
  | Some P => ∃ y, be_val xb < p ∧ on_curve p a b (Aff (be_val xb) y) ∧ Z.even (y mod p) = true ∧ pt_rep c P (Aff (be_val xb) y)
  | None => p <= be_val xb ∨ ∀ y, ¬ on_curve p a b (Aff (be_val xb) y)
  end.
Proof.
  intros Haz Bx Lx. pose proof (co_p _ _ _ _ _ Hc) as Hm. unfold k1_lift_x.
  destruct (bn_unpack_spec xb EC_K Bx Lx) as (Wx & LX & Ex). rewrite ec_below_spec by (done || apply Hm). rewrite Ex.
  destruct (Z.ltb_spec (be_val xb) p) as [Hlt|]; [|by left]. cbn [negb].
  pose proof (rep_enter _ Hm (bn_unpack xb EC_K) Wx LX ltac:(lia)) as Rx. rewrite Ex in Rx. set (ox := bn_mod_enter _ _) in *. clearbody ox.
  set (x := be_val xb) in *. pose proof (co_b _ _ _ _ _ Hc) as Rb.
  assert (∀ y, on_curve p a b (Aff x y) ↔ y * y ≡ x * x * x + b) as On.
  { intros y. cbn. pose proof (co_a _ _ _ _ _ Hc) as Ea. rewrite Haz in Ea. rewrite Ea. by rewrite Z.mul_0_l, Z.add_0_r. }
  assert (rep (c_p c) (FADD c (FMUL c (FMUL c ox ox) ox) (c_b c)) (x * x * x + b)) as Rt.
  { unfold FADD, FMUL. apply rep_add; [done| |done]. apply rep_mul; [done| |done]. by apply rep_mul. }
  set (t := FADD c _ _) in *. clearbody t.
  assert (bytes_ok k1_sqrt_be) as Bs by (by apply (bool_decide_unpack _)).
  pose proof (rep_exp _ Hm t _ Rt k1_sqrt_be Bs) as Ry. set (y := bn_mod_exp _ t _) in *. clearbody y.
  pose proof (rep_eq _ Hm (FMUL c y y) t _ _ (rep_mul _ Hm _ _ _ _ Ry Ry) Rt) as Eq.
  destruct (ec_eq (FMUL c y y) t); cbn [negb].
  - apply proj1 in Eq. specialize (Eq eq_refl).
    destruct (even_root x _ ox y Rx Ry) as (w & Cw & Ew & Rw); [|by exists w]. intros w Ew. apply On. by rewrite Ew, Eq.
  - right. intros z Cz%On. apply Bool.diff_false_true, Eq. by rewrite <-(eqp_pow p _ _ _ Cz), <-Cz.
Qed.

(** The reflection of a point that is not of order two. *)
Lemma neg_rep P x y : pt_rep c P (Aff x y) → y ≢ 0 →
  pt_rep c (set_py (bn_mod_sub (m_m (c_p c)) (p_y P) (m_m (c_p c)) EC_K) P) (Aff x (- y)).
Proof.
  intros (X & Y & Z_ & HX & HY & HZ & Nz & EX & EY) Hy. pose proof (co_fermat _ _ _ _ _ Hc) as Hp.
  assert (Y ≢ 0) as NY. { rewrite EY. repeat apply (nz_mul p Hp); assumption. }
  exists X, (- Y), Z_. cbn [p_x p_y p_z set_py]. split_and!; [done|by apply rep_opp|done|]. split_and!; [done|done|]. rewrite EY. by rewrite Z.mul_opp_l.
Qed.


(** Of the points over an abscissa at most one has an even ordinate. *)
Lemma even_unique x y x' y' : on_curve p a b (Aff x y) → on_curve p a b (Aff x' y') → x ≡ x' →
  Z.even (y mod p) = true → Z.even (y' mod p) = true → y ≡ y'.
Proof.
  intros C C' Ex Ey Ey'. pose proof (co_fermat _ _ _ _ _ Hc) as Hp. pose proof (mo_pos _ (co_p _ _ _ _ _ Hc)). cbn in C, C'. rewrite <-Ex, <-C in C'.
  destruct (eqp_dec p Hp (y + y') 0) as [E|N].
  - destruct E as [k E]. pose proof (Z.mod_pos_bound y p ltac:(lia)). pose proof (Z.mod_pos_bound y' p ltac:(lia)).
    pose proof (Z.div_mod y p ltac:(lia)) as D. pose proof (Z.div_mod y' p ltac:(lia)) as D'.
    set (r := y mod p) in *. set (r' := y' mod p) in *. set (m := k - y / p - y' / p). assert (r + r' = m * p) as Em by (unfold m; lia).
    assert (m = 0 ∨ m = 1) as [Hm|Hm] by nia; rewrite Hm in Em; [exists (y / p - y' / p); lia|].
    pose proof (f_equal Z.even Em) as Ev. rewrite Z.even_add, Ey, Ey', Z.mul_1_l, <-Z.negb_odd, (mo_odd _ (co_p _ _ _ _ _ Hc)) in Ev. done.
  - apply eqp_sub_0. destruct (eqp_dec p Hp (y - y') 0) as [|N']; [done|]. destruct (nz_mul p Hp _ _ N N').
    replace ((y + y') * (y - y')) with (y * y - y' * y') by ring. by rewrite C', Z.sub_diag.
Qed.

Context `{HG : CurveGroup p a b G}.
#[local] Abbreviation gg := (cg_of (Aff gx gy)).

(** The code looks for s G - e P; that it finds R says R + e P = s G. *)
Lemma schnorr_sides g h (R S : G) e : g_add g h = g_zero → g_add R (times e g) = S ↔ R = g_add S (times e h).
Proof.
  intros E. split; [intros <-; symmetry; by apply times_opposite|]. intros ->. apply times_opposite. by rewrite g_comm.
Qed.

Lemma be_val_inj s t : bytes_ok s → bytes_ok t → length s = length t → be_val s = be_val t → s = t.
Proof.
  intros Bs Bt L E. rewrite <-(rev_involutive s), <-(rev_involutive t). f_equal.
  rewrite <-(le_bytes_val (rev s)), <-(le_bytes_val (rev t)) by (by apply Forall_rev). rewrite !List.length_rev, L. f_equal. exact E.
Qed.

(** What BIP 340 asks of a signature (r, s) under a key, over the challenge e. *)
Definition bip340 (pub e rb sb : Z) : Prop :=
  e < n ∧ sb < n ∧ pub < p ∧ rb < p ∧ ∃ py rx ry,
    on_curve p a b (Aff pub py) ∧ Z.even (py mod p) = true ∧
    on_curve p a b (Aff rx ry) ∧ Z.even (ry mod p) = true ∧ rx mod p = rb ∧
    g_add (cg_of (Aff rx ry)) (times e (cg_of (Aff pub py))) = times sb gg.

(** The verdict on the point the code computes is the scheme's. *)
Lemma affine_verdict pt rb S : bytes_ok rb → length rb = 32%nat → stands c a b pt S →
  match ec_affine c pt with
  | None => false
  | Some (rx, ry) => if negb (Z.land ry.[31] 1 =? 0) then false else forallb (λ i, rx.[i] =? rb.[i]) (seq 0 32)
  end = true ↔
  ∃ rx ry, on_curve p a b (Aff rx ry) ∧ Z.even (ry mod p) = true ∧ rx mod p = be_val rb ∧ cg_of (Aff rx ry) = S.
Proof.
  intros Br Lr (A & HP & CA & <-). pose proof (mo_pos _ (co_p _ _ _ _ _ Hc)) as Pp.
  pose proof (ec_affine_spec c (co_p _ _ _ _ _ Hc) (co_fermat _ _ _ _ _ Hc) (co_last _ _ _ _ _ Hc) _ A HP) as Haff. destruct A as [|x y].
  { rewrite Haff. split; [done|]. intros (rx & ry & C & _ & _ & E). by destruct (cg_inj _ _ C CA E). }
  destruct Haff as (xb & yb & -> & [Bx Lx] & [By Ly] & Ex & Ey). rewrite last_parity, Ey by done.
  assert (forallb (λ i, xb.[i] =? rb.[i]) (seq 0 32) = true ↔ x mod p = be_val rb) as Hx.
  { rewrite forallb_forall. split.
    - intros H. rewrite <-Ex. f_equal. rewrite (map_nth_seq xb 32 Lx), (map_nth_seq rb 32 Lr). apply List.map_ext_in. intros i Hi. by apply Z.eqb_eq, H.
    - intros E i _. apply Z.eqb_eq. f_equal. by apply be_val_inj; congruence. }
  split.
  - destruct (Z.even (y mod p)) eqn:Ev; [|done]. cbn [negb]. intros E%Hx. by exists x, y.
  - intros (rx & ry & C & Er & Exr & E). destruct (cg_inj _ _ C CA E) as [E1 E2].
    assert (y mod p = ry mod p ∧ x mod p = rx mod p) as [-> Ey']; [|rewrite Er; apply Hx; congruence].
    destruct E1 as [k1 E1], E2 as [k2 E2]. split; [rewrite <-(Z.mod_add ry (- k2)) by lia|rewrite <-(Z.mod_add rx (- k1)) by lia]; f_equal; lia.
Qed.

(** C24: Schnorr verification decides BIP 340's equation: for a key, a challenge and a
    signature of 32 bytes each the verdict is yes exactly when the scalars are below the
    order, the coordinates are reduced, the key is the abscissa of a point P of the curve
    with an even ordinate, and there is a point R of the curve with the signature's abscissa
    and an even ordinate such that R plus e times P is s times the generator.  The curve is
    one set up by [ec_init] over a prime field in whose squares [k1_sqrt_be] is a square
    root, without points of order two. *)
Theorem k1_verify_correct (pub e rb sb : list Z) (Haz : c_a_zero c = true) (Hno2 : ∀ x, ¬ eqp p (x * x * x + a * x + b) 0)
  (Bp : bytes_ok pub) (Lp : length pub = 32%nat) (Be : bytes_ok e) (Le : length e = 32%nat)
  (Br : bytes_ok rb) (Lr : length rb = 32%nat) (Bs : bytes_ok sb) (Ls : length sb = 32%nat) :
  fst (k1_verify c pub e rb sb) = true ↔ bip340 (be_val pub) (be_val e) (be_val rb) (be_val sb).
Proof.
  pose proof (co_p _ _ _ _ _ Hc) as Hm. pose proof (co_n _ _ _ _ _ Hc) as Hn.
  unfold k1_verify, k1_init, ec_init, bip340. rewrite (co_ready _ _ _ _ _ Hc).
  destruct (bn_unpack_spec sb EC_K Bs Ls) as (Ws & LS & Es), (bn_unpack_spec e EC_K Be Le) as (We & LE & Ee), (bn_unpack_spec rb EC_K Br Lr) as (Wr & LR & Er).
  rewrite !ec_below_spec by (done || apply Hn || apply Hm). rewrite Es, Ee, Er.
  destruct (Z.ltb_spec (be_val sb) n); [|cbn; split; [done|lia]]. destruct (Z.ltb_spec (be_val e) n); [|cbn; split; [done|lia]].
  destruct (Z.ltb_spec (be_val rb) p); [|cbn; split; [done|lia]].
  cbn [negb]. pose proof (lift_x_spec pub Haz Bp Lp) as Hlift. destruct (k1_lift_x c pub) as [P|]; cycle 1.
  { cbn. split; [done|]. intros (_ & _ & Hpub & _ & py & _ & _ & Cp & _). destruct Hlift as [|N]; [lia|by destruct (N py)]. }
  destruct Hlift as (py & Hpub & Cp & Ep & Rp).
  assert (py ≢ 0) as Npy. { intros E. apply (Hno2 (be_val pub)). cbn in Cp. rewrite <-Cp, E. reflexivity. }
  pose proof (on_curve_opp _ _ Cp) as Cn. set (P' := set_py _ P).
  assert (stands c a b P' (cg_of (Aff (be_val pub) (- py)))) as Sn by (exists (Aff (be_val pub) (- py)); split_and!; [by apply neg_rep|done..]).
  pose proof (double_scalar_stands c Hm (co_fermat _ _ _ _ _ Hc) a b (co_a _ _ _ _ _ Hc) gg (generator_stands _ _ _ _ _ Hc) sb e P' _ Bs Ls Be Le Sn) as Sr.
  pose proof (affine_verdict _ rb _ Br Lr Sr) as V. set (pt := ec_double_scalar_mul c sb e P') in *. clearbody pt.
  assert (g_add (cg_of (Aff (be_val pub) py)) (cg_of (Aff (be_val pub) (- py))) = g_zero) as Opp.
  { apply cg_opposite; [done..|]. by rewrite Z.add_opp_diag_r. }
  transitivity (∃ rx ry, on_curve p a b (Aff rx ry) ∧ Z.even (ry mod p) = true ∧ rx mod p = be_val rb ∧
    cg_of (Aff rx ry) = g_add (times (be_val sb) gg) (times (be_val e) (cg_of (Aff (be_val pub) (- py))))).
  { rewrite <-V. destruct (ec_affine c pt) as [[rx ry]|]; [|done]. destruct (negb _); [done|]. by destruct (forallb _ _). }
  split.
  - intros (rx & ry & Cr & Ev & Exr & E). do 4 (split; [done|]). exists py, rx, ry. do 5 (split; [done|]). by apply (schnorr_sides _ _ _ _ _ Opp).
  - intros (_ & _ & _ & _ & py' & rx & ry & Cp' & Ep' & Cr & Ev & Exr & E). exists rx, ry. do 3 (split; [done|]).
    apply (schnorr_sides _ _ _ _ _ Opp). rewrite <-E. do 2 f_equal. apply cg_cong; [done|done|]. by apply (even_unique (be_val pub) _ (be_val pub)).
Qed.

(** ** P-256 *)

Lemma on_curve_spec x y v w : rep (c_p c) x v → rep (c_p c) y w → ec_on_curve c x y = true ↔ on_curve p a b (Aff v w).
Proof.
  intros Rx Ry. pose proof (co_p _ _ _ _ _ Hc) as Hm. pose proof (co_b _ _ _ _ _ Hc) as Rb. pose proof (co_a _ _ _ _ _ Hc) as Ea.
  pose proof (rep_mul _ Hm _ _ _ _ (rep_mul _ Hm _ _ _ _ Rx Rx) Rx) as R3. pose proof (rep_add _ Hm _ _ _ _ (rep_add _ Hm _ _ _ _ Rx Rx) Rx) as Rt.
  unfold ec_on_curve, FMUL, FADD, FSUB, on_curve. pose proof (rep_mul _ Hm _ _ _ _ Ry Ry) as Rl. destruct (c_a_zero c).
  - rewrite (rep_eq _ Hm _ _ _ _ Rl (rep_add _ Hm _ _ _ _ R3 Rb)). rewrite Ea. by rewrite Z.mul_0_l, Z.add_0_r.
  - rewrite (rep_eq _ Hm _ _ _ _ Rl (rep_add _ Hm _ _ _ _ (rep_sub _ Hm _ _ _ _ R3 Rt) Rb)). rewrite Ea.
    by replace (v * v * v - (v + v + v) + b) with (v * v * v + - (1 + 1 + 1) * v + b) by ring.
Qed.

(** What a public key is made of: two reduced coordinates of a point of the curve. *)
Definition ec_key (s : list Z) (x y : Z) : Prop :=
  length s = 65%nat ∧ s.[0] = 4 ∧ x = be_val (take 32 (drop 1 s)) ∧ y = be_val (drop 33 s) ∧
  x < p ∧ y < p ∧ ¬ (x = 0 ∧ y = 0) ∧ on_curve p a b (Aff x y).

Lemma bn_unpack_prefix s k : (4 * k <= length s)%nat → bn_unpack s k = bn_unpack (take (4 * k) s) k.
Proof.
  intros L. rewrite !bn_unpack_rev. f_equal. rewrite <-(take_drop (4 * k) s) at 1. apply (words_at_app (w := 4)). rewrite length_take. lia.
Qed.

(** A number of 32 bytes, compared and entered. *)
Lemma coord_spec s : bytes_ok s → length s = 32%nat →
  (snd (bn_sub (bn_unpack s EC_K) (m_m (c_p c)) EC_K) =? 0) = negb (be_val s <? p) ∧
  (be_val s < p → rep (c_p c) (bn_mod_enter (c_p c) (bn_unpack s EC_K)) (be_val s) ∧
    ec_is_zero (bn_mod_enter (c_p c) (bn_unpack s EC_K)) = (be_val s =? 0)).
Proof.
  intros Bs Ls. pose proof (co_p _ _ _ _ _ Hc) as Hm. destruct (bn_unpack_spec s EC_K Bs Ls) as (W & L & E). split.
  - rewrite <-E, <-ec_below_spec by (done || apply Hm). unfold ec_below. by rewrite negb_involutive.
  - intros Hs. pose proof (rep_enter _ Hm _ W L ltac:(lia)) as R. rewrite E in R. split; [done|].
    pose proof (bn_val_range _ W). apply eq_true_iff_eq. rewrite (rep_is_zero _ Hm _ _ R), Z.eqb_eq. split; [|by intros ->].
    intros [k Ek]. assert (k <= -1 ∨ k = 0 ∨ 1 <= k) as [?|[->|?]] by lia; nia.
Qed.

Lemma p256_point_spec s : bytes_ok s →
  match p256_point c s with
  | Some q => ∃ x y, ec_key s x y ∧ pt_rep c q (Aff x y)
  | None => ∀ x y, ¬ ec_key s x y
  end.
Proof.
  intros Bs. unfold p256_point, ec_key.
  destruct (Nat.eqb_spec (length s) 65) as [L|]; [|by intros x y (? & _)]. destruct (Z.eqb_spec s.[0] 4) as [H4|]; [|by intros x y (_ & ? & _)]. cbn [negb orb].
  rewrite (bn_unpack_prefix (drop 1 s)) by (rewrite length_drop; unfold EC_K; lia). change (4 * EC_K)%nat with 32%nat.
  destruct (coord_spec (take 32 (drop 1 s))) as [Hx Rx]; [by apply Forall_take, Forall_drop|rewrite length_take, length_drop; lia|].
  destruct (coord_spec (drop 33 s)) as [Hy Ry]; [by apply Forall_drop|rewrite length_drop; lia|]. rewrite Hx, Hy. clear Hx Hy.
  set (vx := be_val (take 32 _)) in *. set (vy := be_val (drop 33 s)) in *. clearbody vx vy.
  destruct (Z.ltb_spec vx p) as [Lx|]; cbn [negb]; [|intros ? ? (_ & _ & -> & _ & ? & _); lia]. destruct (Rx Lx) as [Rx' Zx]. clear Rx.
  destruct (Z.ltb_spec vy p) as [Ly|]; cbn [negb]; [|intros ? ? (_ & _ & _ & -> & _ & ? & _); lia]. destruct (Ry Ly) as [Ry' Zy]. clear Ry.
  set (xe := bn_mod_enter _ (bn_unpack (take _ _) _)) in *. set (ye := bn_mod_enter _ (bn_unpack (drop 33 _) _)) in *. clearbody xe ye.
  cbn [p_x p_y]. rewrite Zx, Zy. pose proof (on_curve_spec xe ye vx vy Rx' Ry') as On.
  destruct (Z.eqb_spec vx 0), (Z.eqb_spec vy 0); cbn [andb]; [by intros ? ? (_ & _ & -> & -> & _ & _ & N & _); destruct N|..];
    (destruct (ec_on_curve c xe ye); [|by intros ? ? (_ & _ & -> & -> & _ & _ & _ & C%On)]);
    exists vx, vy; (split; [do 6 (split; [done|]); split; [lia|by apply On]|by apply plain_rep; [apply Hc|..]]).
Qed.

(** One conditional subtraction reduces a number below twice the order. *)
Lemma reduce_once_spec x : limbs_ok x → length x = EC_K → bn_val x < 2 * n →
  limbs_ok (reduce_once x (m_m (c_n c))) ∧ length (reduce_once x (m_m (c_n c))) = EC_K ∧ bn_val (reduce_once x (m_m (c_n c))) = bn_val x mod n.
Proof.
  intros Wx Lx Hx. pose proof (co_n _ _ _ _ _ Hc) as Hn. unfold reduce_once, bn_sub.
  pose proof (sub_loop_spec x Wx _ 0 (mo_limbs _ Hn) ltac:(rewrite (mo_length _ Hn); lia) ltac:(lia)) as S. rewrite Lx in S.
  destruct (sub_loop EC_K x (m_m (c_n c)) 0) as [out br]. destruct S as (Wo & Lo & Hbr & E).
  pose proof (bn_val_range out Wo) as R. pose proof (bn_val_range x Wx) as Rx. rewrite Lo in R. rewrite Lx in Rx.
  destruct Hbr as [-> | ->]; cbn [Z.eqb].
  - split_and!; [done|done|]. unfold ec_copy. rewrite (Zmod_unique (bn_val x) n 1 (bn_val out)); lia.
  - split_and!; [done|done|]. symmetry. apply Z.mod_small. lia.
Qed.

(** A scalar of the double product: e times an inverse, modulo the order. *)
Lemma scalar_spec e w W : limbs_ok e → length e = EC_K → bn_val e <= n → rep (c_n c) w W →
  let u := bn_pack (bn_mod_leave (c_n c) (bn_mod_mul (c_n c) (bn_mod_enter (c_n c) e) w)) EC_K in
  (bytes_ok u ∧ length u = 32%nat) ∧ be_val u = (bn_val e * W) mod n.
Proof.
  intros We Le He Hw. pose proof (co_n _ _ _ _ _ Hc) as Hn. apply leave_pack; [done|]. apply rep_mul; [done| |done]. by apply rep_enter.
Qed.

(** The exponents of the two inversions are those of P-256's own primes. *)
Context (Hnf : ∀ v, ¬ eqp n v 0 → eqp n (v * v ^ (be_val p256_n_be - 2)) 1).
Context (Hpf : ∀ v, v ≢ 0 → v * v ^ (be_val p256_p_be - 2) ≡ 1).

(** What SEC 1 asks of a signature (r, s) under a key, over a hash h. *)
Definition ecdsa (pub : list Z) (h r s : Z) : Prop :=
  0 < r < n ∧ 0 < s < n ∧ ∃ qx qy w x y, ec_key pub qx qy ∧ eqp n (s * w) 1 ∧ on_curve p a b (Aff x y) ∧
    cg_of (Aff x y) = g_add (times (h * w mod n) gg) (times (r * w mod n) (cg_of (Aff qx qy))) ∧ (x mod p) mod n = r.

(** The last steps: the abscissa of the point, reduced, against r. *)
Lemma abscissa_verdict ex pt r S : bytes_ok ex → (∀ v, v ≢ 0 → v * v ^ be_val ex ≡ 1) →
  p <= 2 * n → limbs_ok r → length r = EC_K → stands c a b pt S →
  (if ec_is_zero (p_z pt) then false
   else
     let zinv := bn_mod_exp (c_p c) (p_z pt) ex in
     let x := bn_mod_leave (c_p c) (FMUL c (p_x pt) (FMUL c zinv zinv)) in
     ec_eq (reduce_once (bn_unpack (bn_pack x EC_K) EC_K) (m_m (c_n c))) r) = true ↔
  ∃ x y, on_curve p a b (Aff x y) ∧ cg_of (Aff x y) = S ∧ (x mod p) mod n = bn_val r.
Proof.
  intros Be Hinv Hpn Wr Lr (A & (X & Y & Z_ & HX & HY & HZ & J) & CA & <-). pose proof (co_p _ _ _ _ _ Hc) as Hm. pose proof (mo_pos _ Hm) as Pp.
  pose proof (rep_is_zero _ Hm _ _ HZ) as Ez. destruct A as [|x y].
  { rewrite (proj2 Ez J). split; [done|]. intros (x & y & C & E & _). by destruct (cg_inj _ _ C CA E). }
  destruct J as (Nz & EX & EY). destruct (ec_is_zero (p_z pt)); [by destruct Nz; apply Ez|]. cbn zeta. clear Ez.
  pose proof (rep_exp _ Hm _ _ HZ _ Be) as Hi. set (zi := bn_mod_exp _ _ _) in *. clearbody zi.
  pose proof (Hinv _ Nz) as Ew. set (w := Z_ ^ _) in *. clearbody w.
  pose proof (rep_mul _ Hm _ _ _ _ HX (rep_mul _ Hm _ _ _ _ Hi Hi)) as Rx. apply (rep_cong _ _ _ x) in Rx.
  2:{ rewrite EX. transitivity (x * ((Z_ * w) * (Z_ * w))); [|by rewrite Ew, !Z.mul_1_r]. by replace (x * (Z_ * Z_) * (w * w)) with (x * ((Z_ * w) * (Z_ * w))) by ring. }
  destruct (leave_pack _ Hm _ _ Rx) as [[Bb Lb] Vb]. unfold FMUL. destruct (bn_unpack_spec _ EC_K Bb Lb) as (Wx & Lx & Ex). rewrite Vb in Ex.
  pose proof (Z.mod_pos_bound x p ltac:(lia)). destruct (reduce_once_spec _ Wx Lx ltac:(lia)) as (Wo & Lo & Eo). rewrite Ex in Eo.
  rewrite ec_eq_spec by done. split.
  - intros <-. exists x, y. by rewrite Eo.
  - intros (x' & y' & C' & E & Er). apply bn_val_inj; [done|done|congruence|]. rewrite Eo, <-Er. f_equal.
    destruct (cg_inj _ _ CA C' (eq_sym E)) as [[k E1] _]. rewrite <-(Z.mod_add x' k) by lia. f_equal. lia.
Qed.

Lemma p256_exponents : Forall (λ e, bytes_ok (sub2_last e) ∧ be_val (sub2_last e) = be_val e - 2) [p256_n_be; p256_p_be].
Proof. repeat (constructor; [by apply sub2_spec; [apply (bool_decide_unpack _)|..|vm_compute]|]). constructor. Qed.

(** A number of 32 bytes against the order. *)
Lemma order_spec s : bytes_ok s → length s = 32%nat →
  let x := bn_unpack s EC_K in
  limbs_ok x ∧ length x = EC_K ∧ bn_val x = be_val s ∧ 0 <= be_val s ∧ ec_is_zero x = (be_val s =? 0) ∧
  (snd (bn_sub x (m_m (c_n c)) EC_K) =? 0) = negb (be_val s <? n).
Proof.
  intros Bs Ls. cbn zeta. pose proof (co_n _ _ _ _ _ Hc) as Hn. destruct (bn_unpack_spec s EC_K Bs Ls) as (W & L & E).
  pose proof (bn_val_range _ W). split_and!; [done|done|done|lia|by rewrite ec_is_zero_val, E|].
  rewrite <-E, <-ec_below_spec by (done || apply Hn). unfold ec_below. by rewrite negb_involutive.
Qed.

(** Two inverses of s agree, so do the products with them. *)
Lemma inverse_unique s w w' h : eqp n (s * w) 1 → eqp n (s * w') 1 → (h * w) mod n = (h * w') mod n.
Proof.
  intros E E'. pose proof (mo_pos _ (co_n _ _ _ _ _ Hc)). assert (eqp n w w') as [k Ek].
  { transitivity (w * (s * w')); [by rewrite E', Z.mul_1_r|]. replace (w * (s * w')) with (s * w * w') by ring. by rewrite E, Z.mul_1_l. }
  replace (h * w) with (h * w' + h * k * n) by (replace w with (w' + k * n) by lia; ring). apply Z.mod_add. lia.
Qed.

(** C25: ECDSA verification decides SEC 1's equation: the verdict is yes exactly when the hash
    has 32 bytes, the key is an uncompressed point Q of the curve with reduced coordinates, r
    and s lie between 1 and the order, and the point h/s times the generator plus r/s times
    Q is not the point at infinity and has an abscissa congruent to r.  The curve is one set
    up by [ec_init] whose field and order have P-256's exponents for inverses; the hash is
    below twice the order, as every hash is for P-256's. *)
Theorem p256_verify_correct (pub hash rb sb : list Z) (Hpn : p <= 2 * n) (Hh : be_val hash < 2 * n)
  (Bp : bytes_ok pub) (Bh : bytes_ok hash)
  (Br : bytes_ok rb) (Lr : length rb = 32%nat) (Bs : bytes_ok sb) (Ls : length sb = 32%nat) :
  fst (p256_verify c pub hash rb sb) = true ↔ length hash = 32%nat ∧ ecdsa pub (be_val hash) (be_val rb) (be_val sb).
Proof.
  pose proof (co_n _ _ _ _ _ Hc) as Hn. unfold p256_verify, p256_init, ec_init, ecdsa. rewrite (co_ready _ _ _ _ _ Hc).
  pose proof p256_exponents as [[Bn En] [[Bq Eq] _]%Forall_cons]%Forall_cons. rewrite <-En in Hnf. rewrite <-Eq in Hpf. clear En Eq.
  set (en := sub2_last p256_n_be) in *. set (ep := sub2_last p256_p_be) in *. clearbody en ep.
  destruct (Nat.eqb_spec (length hash) 32) as [Lh|]; [|by cbn; split; [|intros []]]. cbn [negb].
  pose proof (p256_point_spec pub Bp) as Hq. destruct (p256_point c pub) as [q|]; cycle 1.
  { split; [done|]. intros (_ & _ & _ & qx & qy & _ & _ & _ & K & _). by destruct (Hq qx qy). }
  destruct Hq as (qx & qy & K & Rq).
  destruct (order_spec rb Br Lr) as (Wr & LR & Er & Pr & Zr & Nr), (order_spec sb Bs Ls) as (Ws & LS & Es & Ps & Zs & Ns).
  destruct (order_spec hash Bh Lh) as (Wh & LH & Eh & _). rewrite Zr, Zs, Nr, Ns. clear Zr Zs Nr Ns.
  destruct (Z.eqb_spec (be_val rb) 0) as [|Nr]; [cbn; split; [done|lia]|]. destruct (Z.eqb_spec (be_val sb) 0) as [|Ns]; [cbn; split; [done|lia]|]. cbn [orb].
  destruct (Z.ltb_spec (be_val rb) n) as [Hr|]; [|cbn; split; [done|lia]]. destruct (Z.ltb_spec (be_val sb) n) as [Hs|]; [|cbn; split; [done|lia]]. cbn [negb].
  destruct (reduce_once_spec _ Wh LH ltac:(lia)) as (We & Le & Ee). pose proof (mo_pos _ Hn). pose proof (Z.mod_pos_bound (bn_val (bn_unpack hash EC_K)) n ltac:(lia)).
  pose proof (rep_exp _ Hn _ _ (rep_enter _ Hn _ Ws LS ltac:(lia)) _ Bn) as Rw. rewrite Es in Rw.
  assert (eqp n (be_val sb * be_val sb ^ be_val en) 1) as Ew. { apply Hnf. intros [k Ek]. assert (k <= -1 ∨ k = 0 ∨ 1 <= k) as [?|[->|?]] by lia; nia. }
  set (w := bn_mod_exp _ _ _) in *. set (W := be_val sb ^ be_val en) in *. clearbody w W.
  destruct (scalar_spec _ w W We Le ltac:(lia) Rw) as [[B1 L1] V1], (scalar_spec _ w W Wr LR ltac:(lia) Rw) as [[B2 L2] V2].
  set (u1 := bn_pack _ _) in B1, L1, V1 |- *. set (u2 := bn_pack _ _) in B2, L2, V2 |- *. clearbody u1 u2.
  assert (stands c a b q (cg_of (Aff qx qy))) as Sq by (exists (Aff qx qy); split_and!; [done|by apply K|done]).
  pose proof (double_scalar_stands c (co_p _ _ _ _ _ Hc) (co_fermat _ _ _ _ _ Hc) a b (co_a _ _ _ _ _ Hc) gg (generator_stands _ _ _ _ _ Hc) u1 u2 q _ B1 L1 B2 L2 Sq) as Sp.
  pose proof (abscissa_verdict ep _ _ _ Bq Hpf Hpn Wr LR Sp) as V. rewrite V1, V2, Ee, Er, Eh, Z.mul_mod_idemp_l in V by lia.
  set (pt := ec_double_scalar_mul c u1 u2 q) in *. clearbody pt.
  match type of V with _ ↔ ?R => transitivity R; [rewrite <-V; by destruct (ec_is_zero (p_z pt))|] end. clear V. split.
  - intros (x & y & Cx & Ex & Hx). do 3 (split; [lia|]). exists qx, qy, W, x, y. done.
  - intros (_ & _ & _ & qx' & qy' & w' & x & y & (_ & _ & -> & -> & _) & Ew' & Cx & Ex & Hx). exists x, y. split; [done|]. split; [|done].
    destruct K as (_ & _ & -> & -> & _). by rewrite Ex, !(inverse_unique (be_val sb) w' W) by done.
Qed.

End verify.

(** * The two curves

    Set up from their constants both are ready for the theorems above, given Fermat's theorem
    for their fields; the first verification sets the curve up and the next ones find it so. *)

Lemma curve_bytes : Forall (λ s, bytes_ok s ∧ length s = 32%nat)
  [p256_p_be; p256_n_be; p256_b_be; p256_gx_be; p256_gy_be; k1_p_be; k1_n_be; k1_b_be; k1_gx_be; k1_gy_be].
Proof. repeat (constructor; [split; [by apply (bool_decide_unpack _)|done]|]). constructor. Qed.

Lemma p256_ready c0 : c_ready c0 = false → fermat (be_val p256_p_be) →
  curve_ok (p256_init c0) (-3) (be_val p256_b_be) (be_val p256_gx_be) (be_val p256_gy_be) ∧
  bn_val (m_m (c_p (p256_init c0))) = be_val p256_p_be ∧ bn_val (m_m (c_n (p256_init c0))) = be_val p256_n_be ∧ c_a_zero (p256_init c0) = false.
Proof.
  intros Hr Hf. apply ec_init_ok; [exact Hr|exact (Forall_take _ 5 _ curve_bytes)|..];
    first [exact Hf|vm_compute; first [reflexivity|discriminate]|idtac].
  - exists 0. reflexivity.
  - apply Z.mod_divide; [discriminate|]. vm_compute. reflexivity.
Qed.

Lemma k1_ready c0 : c_ready c0 = false → fermat (be_val k1_p_be) →
  curve_ok (k1_init c0) 0 (be_val k1_b_be) (be_val k1_gx_be) (be_val k1_gy_be) ∧
  bn_val (m_m (c_p (k1_init c0))) = be_val k1_p_be ∧ bn_val (m_m (c_n (k1_init c0))) = be_val k1_n_be ∧ c_a_zero (k1_init c0) = true.
Proof.
  intros Hr Hf. apply ec_init_ok; [exact Hr|exact (Forall_drop _ 5 _ curve_bytes)|..];
    first [exact Hf|vm_compute; first [reflexivity|discriminate]|idtac].
  - exists 0. reflexivity.
  - apply Z.mod_divide; [discriminate|]. vm_compute. reflexivity.
Qed.

(** Whether this call or an earlier one set the curve up makes no difference. *)
Lemma ec_init_once c0 p n b gx gy az : ec_init (ec_init c0 p n b gx gy az) p n b gx gy az = ec_init c0 p n b gx gy az.
Proof.
  assert (c_ready (ec_init c0 p n b gx gy az) = true) as E by (unfold ec_init; destruct (c_ready c0) eqn:E; [exact E|reflexivity]).
  generalize dependent (ec_init c0 p n b gx gy az). intros c E. unfold ec_init. by rewrite E.
Qed.
Lemma p256_verify_once c0 pub hash rb sb : p256_verify (p256_init c0) pub hash rb sb = p256_verify c0 pub hash rb sb.
Proof. unfold p256_verify. assert (p256_init (p256_init c0) = p256_init c0) as ->; [|reflexivity]. apply ec_init_once. Qed.
