(* ===== verification/EcDemo.v ===== *)
(** A curve of thirteen points, y^2 = x^3 + 3 modulo 7, set up by the code of
    src/src/native.c: an instance of everything the theorems of [EcOk] assume. *)

From S2P Require Import Prelude NativeBase Bignum Modp Ec EcLaw EcOk EcVerify Group.
From stdpp Require Import prelude list.
From Stdlib Require Import ZArith Lia.
Open Scope Z_scope.

Definition zero_mod : bn_mod := mkMod [] 0 [] [].
Definition zero_curve : ec_curve := mkCurve false zero_mod zero_mod [] (mkPt [] [] []) false.
Definition b32 (x : Z) : list Z := repeat 0 31 ++ [x].
Definition toy : ec_curve := ec_init zero_curve (b32 7) (b32 13) (b32 3) (b32 1) (b32 2) true.

(** * The group: logarithms to the base (1, 2), modulo 13 *)

Definition in13 (z : Z) : bool := (0 <=? z) && (z <? 13).
Definition Z13 : Type := {z : Z | in13 z = true}.
Lemma z13_eq (x y : Z13) : `x = `y → x = y.
Proof. destruct x as [x Hx], y as [y Hy]. cbn. intros <-. f_equal. apply Eqdep_dec.UIP_dec, Bool.bool_dec. Qed.
Lemma in13_mod z : in13 (z mod 13) = true.
Proof. unfold in13. pose proof (Z.mod_pos_bound z 13 ltac:(lia)). lia. Qed.
Definition z13 (z : Z) : Z13 := exist _ (z mod 13) (in13_mod z).
Definition z13_add (x y : Z13) : Z13 := z13 (`x + `y).

Definition toy_points : list (Z * Z) :=
  [(1, 2); (6, 3); (2, 2); (4, 5); (3, 3); (5, 3); (5, 4); (3, 4); (4, 2); (2, 5); (6, 4); (1, 5)].
(** The place of a point, by residues, in the list of the multiples of the generator. *)
Definition toy_log (x y : Z) : Z :=
  match List.find (λ i, let P := nth i toy_points (0, 0) in (fst P =? x mod 7) && (snd P =? y mod 7)) (seq 0 12) with
  | Some i => Z.of_nat i + 1
  | None => 0
  end.
Definition toy_of (P : apt) : Z13 :=
  match P with
  | Inf => z13 0
  | Aff x y => z13 (toy_log x y)
  end.

#[local] Abbreviation a := 0.
#[local] Abbreviation b := 3.
#[local] Infix "≡" := (eqp 7) (at level 70).

Lemma eqp_mod7 x y : x ≡ y ↔ x mod 7 = y mod 7.
Proof. by apply eqp_mod. Qed.
Lemma residue x : x ≡ x mod 7.
Proof. apply eqp_mod7. by rewrite Z.mod_mod. Qed.
Lemma toy_log_cong x x' y y' : x ≡ x' → y ≡ y' → toy_log x y = toy_log x' y'.
Proof. intros Ex%eqp_mod7 Ey%eqp_mod7. unfold toy_log. by rewrite Ex, Ey. Qed.

(** The law on residues, checked on all of them. *)
Definition eq7 (x y : Z) : bool := x mod 7 =? y mod 7.
Definition on7 (x y : Z) : bool := eq7 (y * y) (x * x * x + a * x + b).
Definition law7 (x y x' y' l : Z) : bool :=
  let sum := (toy_log x y + toy_log x' y') mod 13 in
  let hit x'' := let x3 := l * l - x - x'' in toy_log x3 (l * (x - x3) - y) mod 13 =? sum in
  implb (on7 x y && on7 x' y')
    (implb (eq7 x x' && eq7 (y + y') 0) (sum =? 0) &&
     implb (eq7 x x' && eq7 y y' && negb (eq7 y 0) && eq7 (l * (y + y)) (3 * (x * x) + a)) (hit x) &&
     implb (negb (eq7 x x') && eq7 (l * (x' - x)) (y' - y)) (hit x') &&
     implb (toy_log x y =? toy_log x' y') (eq7 x x' && eq7 y y') && (0 <? toy_log x y)).
Definition residues : list Z := [0; 1; 2; 3; 4; 5; 6].
Lemma law7_all : forallb (λ x, forallb (λ y, forallb (λ x', forallb (λ y', forallb (law7 x y x' y') residues) residues) residues) residues) residues = true.
Proof. vm_compute. reflexivity. Qed.
Lemma in_residues x : In (x mod 7) residues.
Proof.
  pose proof (Z.mod_pos_bound x 7 ltac:(lia)) as H. unfold residues. generalize dependent (x mod 7). intros r H.
  assert (r = 0 ∨ r = 1 ∨ r = 2 ∨ r = 3 ∨ r = 4 ∨ r = 5 ∨ r = 6) by lia. cbn. lia.
Qed.
Lemma law7_residues x y x' y' l : law7 (x mod 7) (y mod 7) (x' mod 7) (y' mod 7) (l mod 7) = true.
Proof.
  pose proof law7_all as H. rewrite forallb_forall in H. specialize (H _ (in_residues x)). rewrite forallb_forall in H.
  specialize (H _ (in_residues y)). rewrite forallb_forall in H. specialize (H _ (in_residues x')). rewrite forallb_forall in H.
  specialize (H _ (in_residues y')). rewrite forallb_forall in H. apply H, in_residues.
Qed.
Lemma eq7_spec x y : eq7 x y = true ↔ x ≡ y.
Proof. unfold eq7. by rewrite Z.eqb_eq, eqp_mod7. Qed.
Lemma eq7_cong x x' y y' : x ≡ x' → y ≡ y' → eq7 x y = eq7 x' y'.
Proof. intros E1 E2. apply eq_true_iff_eq. rewrite !eq7_spec, E1, E2. done. Qed.

Lemma law7_every x y x' y' l : law7 x y x' y' l = true.
Proof.
  rewrite <-(law7_residues x y x' y' l). unfold law7, on7.
  pose proof (residue x) as Ex. pose proof (residue y) as Ey. pose proof (residue x') as Ex'. pose proof (residue y') as Ey'. pose proof (residue l) as El.
  set (rx := x mod 7) in *. set (ry := y mod 7) in *. set (rx' := x' mod 7) in *. set (ry' := y' mod 7) in *. set (rl := l mod 7) in *.
  clearbody rx ry rx' ry' rl.
  repeat (f_equal; try match goal with
    | |- eq7 _ _ = eq7 _ _ => apply eq7_cong; by rewrite ?Ex, ?Ey, ?Ex', ?Ey', ?El
    | |- toy_log _ _ = toy_log _ _ => apply toy_log_cong; by rewrite ?Ex, ?Ey, ?Ex', ?Ey', ?El
    end).
Qed.

Lemma implb_use u v : implb u v = true → u = true → v = true.
Proof. by destruct u. Qed.
Lemma law7_use x y x' y' l : on_curve 7 a b (Aff x y) → on_curve 7 a b (Aff x' y') →
  let sum := (toy_log x y + toy_log x' y') mod 13 in
  let hit x'' := let x3 := l * l - x - x'' in toy_log x3 (l * (x - x3) - y) mod 13 = sum in
  (x ≡ x' → y + y' ≡ 0 → sum = 0) ∧
  (x ≡ x' → y ≡ y' → ¬ y ≡ 0 → l * (y + y) ≡ 3 * (x * x) + a → hit x) ∧
  (¬ x ≡ x' → l * (x' - x) ≡ y' - y → hit x') ∧
  (toy_log x y = toy_log x' y' → x ≡ x' ∧ y ≡ y') ∧ 0 < toy_log x y.
Proof.
  intros C1 C2. pose proof (law7_every x y x' y' l) as L. unfold law7 in L.
  assert (on7 x y && on7 x' y' = true) as C by (apply andb_true_iff; split; by apply eq7_spec).
  pose proof (implb_use _ _ L C) as L'. clear L. apply andb_true_iff in L' as [[[[L1 L2]%andb_true_iff L3]%andb_true_iff L4]%andb_true_iff L5]. cbn zeta. split_and!; [| | | |by apply Z.ltb_lt].
  - intros E1 E2. apply Z.eqb_eq, (implb_use _ _ L1). apply andb_true_iff; split; by apply eq7_spec.
  - intros E1 E2 E3 E4. apply Z.eqb_eq, (implb_use _ _ L2). rewrite !andb_true_iff, negb_true_iff, <-not_true_iff_false, !eq7_spec. done.
  - intros E1 E2. apply Z.eqb_eq, (implb_use _ _ L3). rewrite andb_true_iff, negb_true_iff, <-not_true_iff_false, !eq7_spec. done.
  - intros E%Z.eqb_eq. pose proof (implb_use _ _ L4 E) as [H1 H2]%andb_true_iff. by rewrite !eq7_spec in *.
Qed.

Lemma toy_log_range x y : 0 <= toy_log x y < 13.
Proof.
  unfold toy_log. destruct (List.find _ _) as [i|] eqn:E; [|lia]. apply List.find_some in E as [H%in_seq _]. lia.
Qed.

#[export] Program Instance toy_sums : AbGroup Z13 := {|
  g_zero := z13 0;
  g_add := z13_add;
|}.
Next Obligation. intros x y z. apply z13_eq. cbn. rewrite Z.add_mod_idemp_l, Z.add_mod_idemp_r by lia. f_equal. lia. Qed.
Next Obligation. intros x y. apply z13_eq. cbn. f_equal. lia. Qed.
Next Obligation.
  intros [x Hx]. apply z13_eq. cbn. unfold in13 in Hx. apply Z.mod_small. lia.
Qed.

#[export] Program Instance toy_group : CurveGroup 7 a b Z13 := {|
  cg_group := toy_sums;
  cg_of := toy_of;
|}.
Next Obligation. done. Qed.
Next Obligation.
  intros P Q S HP HQ H. destruct H as [Q|P|x y x' y' Ex Ey|x y x' y' l Ex Ey Hy El|x y x' y' l Hx El]; apply z13_eq; cbn [toy_of proj1_sig z13 g_add toy_sums z13_add third].
  - cbn. destruct (toy_of Q) as [q Hq]. unfold in13 in Hq. symmetry. apply Z.mod_small. cbn. lia.
  - cbn. destruct (toy_of P) as [q Hq]. unfold in13 in Hq. symmetry. rewrite Z.add_0_r. apply Z.mod_small. cbn. lia.
  - destruct (law7_use x y x' y' 0 HP HQ) as (L & _). rewrite Zmod_0_l, <-Z.add_mod by lia. symmetry. by apply L.
  - destruct (law7_use x y x' y' l HP HQ) as (_ & L & _). rewrite <-Z.add_mod by lia. by apply L.
  - destruct (law7_use x y x' y' l HP HQ) as (_ & _ & L & _). rewrite <-Z.add_mod by lia. by apply L.
Qed.

Next Obligation.
  intros [|x y] [|x' y'] HA HB E%(f_equal proj1_sig); cbn [toy_of z13 proj1_sig] in E; rewrite ?(Z.mod_small (toy_log _ _)), ?Zmod_0_l in E by (pose proof toy_log_range; naive_solver lia).
  - done.
  - pose proof (law7_use x' y' x' y' 0 HB HB) as (_ & _ & _ & _ & ?). lia.
  - pose proof (law7_use x y x y 0 HA HA) as (_ & _ & _ & _ & ?). lia.
  - by apply (law7_use x y x' y' 0 HA HB).
Qed.

(** * The curve as the code sets it up *)

Lemma fermat_7 : fermat 7.
Proof.
  split; [lia|]. intros v Hv. change (7 - 2) with 5. replace (v * v ^ 5) with (v * (v * v * v * v * v)) by ring.
  pose proof (in_residues v) as H. pose proof (residue v) as E. generalize dependent (v mod 7). intros r H E. rewrite E in *.
  unfold residues in H. cbn in H. apply eqp_mod7. destruct H as [<-|H]; [by destruct Hv|].
  repeat destruct H as [<-|H]; first [reflexivity|done].
Qed.

Lemma toy_ok : curve_ok toy 0 3 1 2 ∧ bn_val (m_m (c_p toy)) = 7 ∧ bn_val (m_m (c_n toy)) = 13 ∧ c_a_zero toy = true.
Proof.
  apply (ec_init_ok zero_curve (b32 7) (b32 13) (b32 3) (b32 1) (b32 2) true 0); try done.
  - repeat (constructor; [split; [by apply (bool_decide_unpack _)|done]|]). constructor.
  - exact fermat_7.
  - change (be_val (b32 7)) with 7. by apply eqp_mod7.
Qed.

#[local] Abbreviation p := (bn_val (m_m (c_p toy))).
#[local] Abbreviation n := (bn_val (m_m (c_n toy))).

Lemma k1_mul_g_correct_witness :
  match fst (k1_mul_g toy (b32 5)) with
  | Some out => 0 < be_val (b32 5) < n ∧ length out = 64%nat ∧ ∃ x y,
      on_curve p 0 3 (Aff x y) ∧ cg_of (CurveGroup := toy_group) (Aff x y) = times (H := toy_sums) (be_val (b32 5)) (cg_of (CurveGroup := toy_group) (Aff 1 2)) ∧
      be_val (take 32 out) = x mod p ∧ be_val (drop 32 out) = y mod p
  | None => be_val (b32 5) = 0 ∨ n <= be_val (b32 5) ∨ times (H := toy_sums) (be_val (b32 5)) (cg_of (CurveGroup := toy_group) (Aff 1 2)) = g_zero (AbGroup := toy_sums)
  end.
Proof.
  apply (k1_mul_g_correct toy 0 3 1 2 (proj1 toy_ok) (HG := toy_group)); [by apply (bool_decide_unpack _)|reflexivity].
Defined.

Lemma ec_points_law_witness :
  (∃ S, chord p 0 (Aff 1 2) (Aff 1 2) S ∧ pt_rep toy (ec_double toy (c_g toy)) S ∧ on_curve p 0 3 S) ∧
  (∃ S, chord p 0 (Aff 1 2) Inf S ∧ pt_rep toy (ec_add toy (c_g toy) (infinity toy)) S ∧ on_curve p 0 3 S).
Proof.
  apply (ec_points_law toy 0 3 1 2 (proj1 toy_ok) (c_g toy) (infinity toy) (Aff 1 2) Inf);
    [apply (co_g _ _ _ _ _ (proj1 toy_ok))|apply infinity_rep, (co_p _ _ _ _ _ (proj1 toy_ok))|apply (co_g_on _ _ _ _ _ (proj1 toy_ok))|exact I].
Defined.

Lemma toy_no_order_two x : ¬ eqp p (x * x * x + 0 * x + 3) 0.
Proof.
  change p with 7. intros H. rewrite (residue x) in H. pose proof (in_residues x) as R. generalize dependent (x mod 7). intros r H R.
  unfold residues in R. cbn in R. apply eqp_mod7 in H. repeat destruct R as [<-|R]; try done.
Qed.

(** The exponents of the two curves act on this one's field and order as they do on their own. *)
Lemma eqp_pow_period m k v e q r : 0 <= r → 0 <= q → e = k * q + r → 0 < k → eqp m (v ^ k) 1 → eqp m (v ^ e) (v ^ r).
Proof.
  intros Hr Hq -> Hk E. rewrite Z.pow_add_r, Z.pow_mul_r by lia. rewrite (eqp_pow m _ _ q E), Z.pow_1_l by lia. by rewrite Z.mul_1_l.
Qed.

Lemma toy_power_7 v : ¬ eqp 7 v 0 → eqp 7 (v ^ 6) 1.
Proof. intros Hv. destruct fermat_7 as [_ F]. specialize (F v Hv). by rewrite <-Z.pow_succ_r in F by lia. Qed.

Lemma toy_inverse_p v : ¬ eqp 7 v 0 → eqp 7 (v * v ^ (be_val p256_p_be - 2)) 1.
Proof.
  intros Hv. rewrite (eqp_pow_period 7 6 v _ ((be_val p256_p_be - 7) / 6) 5); [|lia|by vm_compute|by vm_compute|lia|by apply toy_power_7]. apply fermat_7. done.
Qed.

Lemma eqp_residue m v : m ≠ 0 → eqp m v (v mod m).
Proof. intros Hm. exists (v / m). pose proof (Z.div_mod v m Hm). lia. Qed.
Lemma toy_power_13 v : ¬ eqp 13 v 0 → eqp 13 (v ^ 12) 1.
Proof.
  intros Hv. pose proof (eqp_residue 13 v ltac:(lia)) as E. rewrite (eqp_pow 13 _ _ 12 E). rewrite E in Hv.
  pose proof (Z.mod_pos_bound v 13 ltac:(lia)) as R. set (r := v mod 13) in *. clearbody r.
  assert (r ≠ 0) as N by (intros ->; by apply Hv). apply Z.mod_divide; [lia|].
  assert (forallb (λ i, (Z.of_nat i ^ 12 - 1) mod 13 =? 0) (seq 1 12) = true) as C by reflexivity. rewrite forallb_forall in C.
  specialize (C (Z.to_nat r)). rewrite Z2Nat.id in C by lia. apply Z.eqb_eq, C, in_seq. lia.
Qed.
Lemma toy_inverse_n v : ¬ eqp 13 v 0 → eqp 13 (v * v ^ (be_val p256_n_be - 2)) 1.
Proof.
  intros Hv. rewrite (eqp_pow_period 13 12 v _ ((be_val p256_n_be - 13) / 12) 11); [|lia|by vm_compute|by vm_compute|lia|by apply toy_power_13].
  rewrite <-Z.pow_succ_r by lia. by apply toy_power_13.
Qed.
Lemma toy_roots y : eqp 7 ((y * y) ^ be_val k1_sqrt_be * (y * y) ^ be_val k1_sqrt_be) (y * y).
Proof.
  destruct (eqp_dec 7 fermat_7 (y * y) 0) as [E|N].
  - rewrite (eqp_pow 7 _ _ _ E), E. by rewrite Z.pow_0_l by (by vm_compute).
  - rewrite (eqp_pow_period 7 6 (y * y) _ ((be_val k1_sqrt_be - 2) / 6) 2); [|lia|by vm_compute|by vm_compute|lia|by apply toy_power_7].
    transitivity (y ^ 6 * (y * y)); [by replace ((y * y) ^ 2 * (y * y) ^ 2) with (y ^ 6 * (y * y)) by ring|].
    rewrite toy_power_7, Z.mul_1_l; [done|]. intros E. apply N. by rewrite E.
Qed.

Lemma k1_verify_correct_witness :
  fst (k1_verify toy (b32 1) (b32 4) (b32 2) (b32 6)) = true ↔
  bip340 toy 0 3 1 2 (HG := toy_group) (be_val (b32 1)) (be_val (b32 4)) (be_val (b32 2)) (be_val (b32 6)).
Proof.
  apply (k1_verify_correct toy 0 3 1 2 (proj1 toy_ok) toy_roots (HG := toy_group) (b32 1) (b32 4) (b32 2) (b32 6));
    solve [reflexivity|exact toy_no_order_two|by apply (bool_decide_unpack _)].
Defined.

(** An uncompressed point, and a hash below twice the order. *)
Definition key65 (x y : Z) : list Z := 4 :: b32 x ++ b32 y.
Lemma p256_verify_correct_witness :
  fst (p256_verify toy (key65 2 5) (b32 20) (b32 3) (b32 9)) = true ↔
  length (b32 20) = 32%nat ∧ ecdsa toy 0 3 1 2 (HG := toy_group) (key65 2 5) (be_val (b32 20)) (be_val (b32 3)) (be_val (b32 9)).
Proof.
  apply (p256_verify_correct toy 0 3 1 2 (proj1 toy_ok) (HG := toy_group) toy_inverse_n toy_inverse_p (key65 2 5) (b32 20) (b32 3) (b32 9));
    solve [reflexivity|discriminate|by apply (bool_decide_unpack _)].
Defined.
