(* ===== verification/Prime25519.v ===== *)
(** 2^255 - 19 is a prime.

    The field of [F25519] is one because its modulus is a prime.  That is shown here from
    scratch: Fermat's little theorem, Pocklington's criterion, and a chain of certificates
    from 2^255 - 19 down to numbers small enough to divide by everything below their
    root. *)

From S2P Require Import Prelude Modp.
From stdpp Require Import prelude list.
From Stdlib Require Import ZArith Lia Znumtheory.
Open Scope Z_scope.

(** * Fermat's little theorem *)

Section little.
Context (r : Z) (Hr : prime r).
#[local] Infix "≡" := (eqp r) (at level 70).

Lemma prime_gt_1 : 1 < r.
Proof. by destruct Hr. Qed.
Lemma eqp_0 x : x ≡ 0 ↔ (r | x).
Proof. unfold eqp. by rewrite Z.sub_0_r. Qed.
Lemma prime_cancel a x y : ¬ a ≡ 0 → a * x ≡ a * y → x ≡ y.
Proof.
  rewrite eqp_0. intros Ha H. unfold eqp in *. rewrite <-Z.mul_sub_distr_l in H. by destruct (prime_mult r Hr _ _ H).
Qed.

Definition units : list Z := seqZ 1 (r - 1).
Lemma unit_range i : i ∈ units ↔ 1 <= i < r.
Proof. unfold units. rewrite elem_of_seqZ. lia. Qed.
Lemma small_nz i : 1 <= i < r → ¬ i ≡ 0.
Proof. rewrite eqp_0. intros Hi [k E]. assert (k <= 0 ∨ 1 <= k) as [?|?] by lia; nia. Qed.

(** Multiplication by a permutes the residues that are not zero. *)
Lemma units_permuted a : ¬ a ≡ 0 → List.map (λ i, (a * i) mod r) units ≡ₚ units.
Proof.
  intros Ha. pose proof prime_gt_1. apply submseteq_length_Permutation; [|by rewrite List.length_map].
  assert (∀ x, (a * x) mod r ≡ a * x) as Em by (intros x; exists (- (a * x / r)); pose proof (Z.div_mod (a * x) r ltac:(lia)); lia).
  apply NoDup_submseteq.
  - apply NoDup_fmap_2_strong; [|apply NoDup_seqZ]. intros x y Hx%unit_range Hy%unit_range E.
    assert (x ≡ y) as [k Ek] by (apply (prime_cancel a); [done|]; rewrite <-(Em x), E; apply Em).
    assert (k <= -1 ∨ k = 0 ∨ 1 <= k) as [?|[->|?]] by lia; nia.
  - intros x Hx. apply list_elem_of_fmap in Hx as (i & -> & Hi%unit_range). apply unit_range. pose proof (Z.mod_pos_bound (a * i) r ltac:(lia)).
    assert ((a * i) mod r ≠ 0); [|lia]. intros E. apply (small_nz i Hi), (prime_cancel a); [done|]. by rewrite <-(Em i), E, Z.mul_0_r.
Qed.

Lemma prod_nz l : Forall (λ i, ¬ i ≡ 0) l → ¬ foldr Z.mul 1 l ≡ 0.
Proof.
  induction 1 as [|i l Hi _ IH]; cbn [foldr]; [apply small_nz; pose proof prime_gt_1; lia|].
  rewrite eqp_0 in *. intros [|]%(prime_mult r Hr); [done|]. by apply IH, eqp_0.
Qed.
Lemma prod_scaled a l : foldr Z.mul 1 (List.map (λ i, (a * i) mod r) l) ≡ a ^ Z.of_nat (length l) * foldr Z.mul 1 l.
Proof.
  pose proof prime_gt_1. induction l as [|i l IH]; [done|]. cbn [List.map foldr length]. rewrite IH. rewrite Nat2Z.inj_succ, Z.pow_succ_r by lia.
  assert ((a * i) mod r ≡ a * i) as -> by (exists (- (a * i / r)); pose proof (Z.div_mod (a * i) r ltac:(lia)); lia). exists 0. ring.
Qed.

Lemma fermat_little a : ¬ a ≡ 0 → a ^ (r - 1) ≡ 1.
Proof.
  intros Ha. pose proof prime_gt_1. apply (prime_cancel (foldr Z.mul 1 units)).
  { apply prod_nz, Forall_forall. intros i Hi%unit_range. by apply small_nz. }
  rewrite Z.mul_1_r, Z.mul_comm. pose proof (prod_scaled a units) as E. assert (Z.of_nat (length units) = r - 1) as L by (unfold units; rewrite length_seqZ; lia).
  rewrite L in E. rewrite <-E, (foldr_permutation_proper (=) Z.mul 1 ltac:(intros; ring) _ _ (units_permuted a Ha)). reflexivity.
Qed.
End little.

(** * Pocklington's criterion *)

Lemma prime_divisor n : 1 < n → ∃ r, prime r ∧ (r | n).
Proof.
  intros Hn. assert (∀ m, 0 <= m → m <= n → 1 < m → ∃ r, prime r ∧ (r | m)) as H; [|apply (H n); lia].
  intros m Hm. pattern m. apply Z_lt_induction; [|done]. clear m Hm. intros m IH Hle H1. destruct (prime_dec m) as [Hp|Hc]; [by exists m|].
  destruct (not_prime_divide m H1 Hc) as (d & Hd & Hdiv). destruct (IH d ltac:(lia) ltac:(lia) ltac:(lia)) as (r & Hr & Hrd). exists r. split; [done|]. by transitivity d.
Qed.

(** A number no prime below its root divides is a prime. *)
Lemma prime_by_root n : 1 < n → (∀ r, prime r → (r | n) → n < r * r) → prime n.
Proof.
  intros Hn H. destruct (prime_dec n) as [|Hc]; [done|]. exfalso. destruct (not_prime_divide n Hn Hc) as (d & Hd & [m Em]).
  assert (1 < m) by nia. assert (∀ a b, 1 < a → a * b = n → a <= b → False) as K.
  { intros a b Ha Eab Hab. destruct (prime_divisor a Ha) as (r & Hr & Hra). assert ((r | n)) as Hrn by (rewrite <-Eab; by apply Z.divide_mul_l).
    specialize (H r Hr Hrn). pose proof (prime_gt_1 r Hr). pose proof (Z.divide_pos_le r a ltac:(lia) Hra). nia. }
  destruct (Z.le_ge_cases d m); [apply (K d m); lia|apply (K m d); lia].
Qed.

(** An element whose q-th power is one, and which is not one, has q dividing the order of
    the group. *)
Lemma order_divides r q b : prime r → prime q → ¬ eqp r b 0 → eqp r (b ^ q) 1 → ¬ eqp r b 1 → (q | r - 1).
Proof.
  intros Hr Hq Hb0 Hbq Hb1. destruct (Zdivide_dec q (r - 1)) as [|Hn]; [done|]. exfalso. apply Hb1. clear Hb1.
  pose proof (prime_gt_1 r Hr). pose proof (prime_gt_1 q Hq). pose proof (fermat_little r Hr b Hb0) as Fb.
  destruct (Z.eq_dec r 2) as [->|]; [by rewrite Z.pow_1_r in Fb|]. assert (rel_prime q (r - 1)) as Hrel by (by apply prime_rel_prime).
  apply rel_prime_bezout in Hrel as [u v E]. set (u' := u mod (r - 1)). pose proof (Z.mod_pos_bound u (r - 1) ltac:(lia)) as Ru. fold u' in Ru.
  assert (∃ w, u' * q = 1 + w * (r - 1) ∧ 0 <= w) as (w & Ew & Hw).
  { pose proof (Z.div_mod u (r - 1) ltac:(lia)) as D. fold u' in D. exists (- v - u / (r - 1) * q). split; [nia|].
    assert (u' * q = 1 + (- v - u / (r - 1) * q) * (r - 1)) as E' by nia. assert (0 <= u' * q) by nia.
    assert (- v - u / (r - 1) * q <= -1 ∨ 0 <= - v - u / (r - 1) * q) as [?|?] by lia; [nia|done]. }
  assert (eqp r (b ^ (u' * q)) b) as E1.
  { rewrite Ew, Z.pow_add_r, Z.pow_1_r by nia. rewrite (Z.mul_comm w), Z.pow_mul_r by lia. rewrite (eqp_pow r _ _ w Fb), Z.pow_1_l by done. by rewrite Z.mul_1_r. }
  rewrite <-E1, Z.mul_comm, Z.pow_mul_r by lia. rewrite (eqp_pow r _ _ u' Hbq), Z.pow_1_l by lia. reflexivity.
Qed.

Lemma prime_pow_0 r : prime r → ∀ m a, 0 <= m → eqp r (a ^ m) 0 → eqp r a 0.
Proof.
  intros Hr m a Hm. pattern m. apply natlike_ind; [|clear m Hm|done].
  { intros D. apply Z.divide_pos_le in D; [|done]. pose proof (prime_gt_1 r Hr). lia. }
  intros k Hk IH D. rewrite Z.pow_succ_r in D by done. unfold eqp in D, IH |- *. rewrite Z.sub_0_r in D, IH |- *. rewrite Z.sub_0_r in IH. destruct (prime_mult r Hr _ _ D) as [E|E]; [exact E|exact (IH E)].
Qed.

(** The power an exponent that is a numeral is raised to, reducing on the way. *)
Fixpoint powm (n a : Z) (e : positive) : Z :=
  match e with
  | xH => a mod n
  | xO e => let x := powm n a e in (x * x) mod n
  | xI e => let x := powm n a e in ((x * x) mod n * a) mod n
  end.

Lemma powm_spec n a e : 0 < n → eqp n (powm n a e) (a ^ Zpos e).
Proof.
  intros Hn. assert (∀ k, a ^ (2 * Zpos k) = a ^ Zpos k * a ^ Zpos k) as Twice by (intros k; rewrite <-Z.pow_add_r by lia; f_equal; lia).
  induction e as [e IH|e IH|]; cbn [powm].
  - rewrite Pos2Z.inj_xI, Z.pow_add_r, Z.pow_1_r, Twice by lia. by rewrite !mod_eqp, IH by lia.
  - rewrite Pos2Z.inj_xO, Twice. by rewrite mod_eqp, IH by lia.
  - rewrite Z.pow_1_r. apply mod_eqp. lia.
Qed.

(** [q] is a prime factor of [n - 1] the base two certifies. *)
Definition certifies (n q : Z) : bool :=
  bool_decide ((n - 1) mod q = 0) && bool_decide (Z.gcd (powm n 2 (Z.to_pos ((n - 1) / q)) - 1) n = 1).

Definition pocklington (n : Z) (qs : list Z) : bool :=
  bool_decide (2 < n) && bool_decide (n mod 2 = 1) && bool_decide (powm n 2 (Z.to_pos (n - 1)) = 1) && forallb (certifies n) qs
  && bool_decide (n < foldr Z.mul 1 qs * foldr Z.mul 1 qs) && bool_decide (NoDup qs).

(** Every prime factor of a number the certificate checks is one more than a multiple of
    the certified factors. *)
Lemma certified_divides n q r : 2 < n → n mod 2 = 1 → prime q → prime r → (r | n) → powm n 2 (Z.to_pos (n - 1)) = 1 →
  certifies n q = true → (q | r - 1).
Proof.
  intros Hn Hodd Hq Hr Hrn Hpow [Hdiv Hgcd]%andb_prop. apply bool_decide_eq_true_1 in Hdiv, Hgcd. pose proof (prime_gt_1 q Hq). pose proof (prime_gt_1 r Hr).
  apply Z.mod_divide in Hdiv as [m Em]; [|lia]. assert (0 < m) by nia. assert ((n - 1) / q = m) as Ed by (rewrite Em; apply Z.div_mul; lia). rewrite Ed in Hgcd.
  assert (∀ x y, eqp n x y → eqp r x y) as Down by (intros x y E; exact (Z.divide_trans r n _ Hrn E)).
  assert (¬ eqp r 2 0) as H2.
  { intros D. unfold eqp in D. replace (2 - 0) with 2 in D by lia. assert (r = 2) as -> by (apply Z.divide_pos_le in D; lia). apply Z.mod_divide in Hrn; lia. }
  apply (order_divides r q (2 ^ m) Hr Hq).
  - intros D. apply H2, (prime_pow_0 r Hr m 2 ltac:(lia) D).
  - rewrite <-Z.pow_mul_r by lia. rewrite <-Em. apply Down. pose proof (powm_spec n 2 (Z.to_pos (n - 1)) ltac:(lia)) as P. rewrite Hpow, Z2Pos.id in P by lia. by symmetry.
  - intros D. pose proof (powm_spec n 2 (Z.to_pos m) ltac:(lia)) as P%Down. rewrite Z2Pos.id, D in P by lia.
    assert ((r | 1)) as D1 by (rewrite <-Hgcd; by apply Z.gcd_greatest). apply Z.divide_pos_le in D1; lia.
Qed.

Lemma primes_prod qs m : Forall prime qs → NoDup qs → Forall (λ q, (q | m)) qs → (foldr Z.mul 1 qs | m).
Proof.
  induction qs as [|q qs IH]; intros Hp Hd Hm; cbn [foldr]; [apply Z.divide_1_l|]. inversion_clear Hp as [|?? Hq Hps]. inversion_clear Hd as [|?? Hnin Hd'].
  inversion_clear Hm as [|?? Hqm Hms]. destruct (IH Hps Hd' Hms) as [k ->]. apply Z.mul_divide_mono_r.
  destruct (prime_mult q Hq _ _ Hqm) as [H|H]; [done|]. exfalso. apply Hnin. clear -Hq Hps H.
  induction Hps as [|r l Hr Hl IH]; cbn [foldr] in H; [apply Z.divide_pos_le in H; [|done]; pose proof (prime_gt_1 q Hq); lia|].
  destruct (prime_mult q Hq _ _ H) as [D|D]; [|right; by apply IH]. rewrite (prime_div_prime q r Hq Hr D). left.
Qed.

Theorem pocklington_prime n qs : Forall prime qs → pocklington n qs = true → prime n.
Proof.
  intros Hqs H. unfold pocklington in H. rewrite !andb_true_iff, !bool_decide_eq_true, forallb_forall in H. destruct H as [[[[[H2 Hodd] Hpow] Hc] Hbig] Hd].
  apply prime_by_root; [lia|]. intros r Hr Hrn. pose proof (prime_gt_1 r Hr). assert ((foldr Z.mul 1 qs | r - 1)) as D.
  { apply primes_prod; [done..|]. apply Forall_forall. intros q Hq. apply (certified_divides n); try done; [by eapply Forall_forall in Hqs|]. apply Hc. by apply list_elem_of_In. }
  apply Z.divide_abs_l, Z.divide_pos_le in D; [|lia]. rewrite <-(Z.abs_square (foldr _ _ _)) in Hbig. nia.
Qed.

(** Small primes, by trial division. *)
Definition small_prime (n : Z) : bool :=
  bool_decide (1 < n) && forallb (λ d, negb (n mod Z.of_nat d =? 0)) (seq 2 (Z.to_nat (Z.sqrt n) - 1)).

Lemma small_prime_spec n : small_prime n = true → prime n.
Proof.
  intros H. unfold small_prime in H. rewrite andb_true_iff, bool_decide_eq_true, forallb_forall in H. destruct H as [H1 H]. apply prime_by_root; [done|]. intros r Hr Hrn.
  pose proof (prime_gt_1 r Hr). destruct (Z.lt_ge_cases n (r * r)) as [|Hle]; [done|]. exfalso. apply Z.sqrt_le_square in Hle; [|lia..].
  specialize (H (Z.to_nat r)). rewrite in_seq, Z2Nat.id in H by lia. specialize (H ltac:(lia)). apply negb_true_iff, Z.eqb_neq in H. apply H. apply Z.mod_divide; [lia|done].
Qed.

(** * The certificate of 2^255 - 19 *)

Ltac by_division := apply small_prime_spec; vm_compute; reflexivity.
Ltac by_factors ps := apply (pocklington_prime _ ps); [repeat (apply Forall_nil_2 || (apply Forall_cons_2; [assumption|]))|vm_compute; reflexivity].

Theorem prime_25519 : prime (2 ^ 255 - 19).
Proof.
  assert (prime 103) by by_division. assert (prime 127) by by_division. assert (prime 991) by by_division.
  assert (prime 4153) by by_division. assert (prime 430751) by by_division. assert (prime 569003) by by_division.
  assert (prime 8574133) by by_factors [991; 103].
  assert (prime 2773320623) by by_factors [569003].
  assert (prime 72106336199) by by_factors [2773320623].
  assert (prime 1919519569386763) by by_factors [8574133; 127].
  assert (prime 31757755568855353) by by_factors [430751; 4153].
  assert (prime 75445702479781427272750846543864801) by by_factors [1919519569386763; 72106336199].
  assert (prime 74058212732561358302231226437062788676166966415465897661863160754340907) by by_factors [75445702479781427272750846543864801; 31757755568855353].
  by_factors [74058212732561358302231226437062788676166966415465897661863160754340907].
Qed.

Theorem fermat_25519 : fermat (2 ^ 255 - 19).
Proof.
  split; [reflexivity|]. intros v Hv. rewrite <-Z.pow_succ_r by (vm_compute; discriminate). exact (fermat_little _ prime_25519 v Hv).
Qed.
