(* ===== verification/EdLaw.v ===== *)
(** The twisted Edwards curve y^2 - x^2 = 1 + d x^2 y^2 over a prime field in which -1 is a
    square and d is not, as Ed25519 uses it: its addition law is complete and makes the
    points a commutative group.

    A point is a pair of least residues that satisfies the equation, so equal points are
    equal as terms. *)

From S2P Require Import Prelude Modp Prime25519 Group.
From stdpp Require Import prelude.
From Stdlib Require Import ZArith Lia Ring Setoid Morphisms Eqdep_dec.
Open Scope Z_scope.

Section edwards.
Context (p d i : Z) (Hp : fermat p) (Hi : eqp p (i * i) (- (1))) (Hd : ∀ w, ¬ eqp p (w * w) d).
#[local] Infix "≡" := (eqp p) (at level 70).
#[local] Notation "x ≢ y" := (¬ eqp p x y) (at level 70).
Add Ring eqp_ring_p : (eqp_ring p) (setoid (eqp_equiv p) (eqp_ext p)).

(** * The law is complete *)

Definition on_ed (x y : Z) : Prop := d * x * x * y * y ≡ y * y - x * x - 1.
#[local] Abbreviation kk x1 y1 x2 y2 := (d * x1 * x2 * y1 * y2).

#[global] Instance on_ed_proper : Proper (eqp p ==> eqp p ==> iff) on_ed.
Proof. intros x x' Ex y y' Ey. unfold on_ed. by rewrite Ex, Ey. Qed.

Lemma nonsquare u v : u * u ≡ d * (v * v) → v ≡ 0.
Proof.
  intros E. destruct (eqp_dec p Hp v 0) as [|Hv]; [done|]. destruct (eqp_inverse p Hp v Hv) as [w Hw]. exfalso. apply (Hd (u * w)).
  transitivity (u * u * (w * w)); [ring|]. rewrite E. transitivity (d * (w * v) * (w * v)); [ring|]. rewrite Hw. ring.
Qed.

Lemma on_ed_zero x y : on_ed x y → y * y - x * x - 1 - d * x * x * y * y ≡ 0.
Proof. intros E. unfold on_ed in E. rewrite E. ring. Qed.

Lemma one_nz : 1 ≢ 0.
Proof. intros E. apply (two_nz p Hp). rewrite E. ring. Qed.

(** The identity behind completeness. *)
Lemma square_of_sum x1 y1 x2 y2 : on_ed x1 y1 → on_ed x2 y2 → kk x1 y1 x2 y2 * kk x1 y1 x2 y2 ≡ 1 →
  (i * x1 + kk x1 y1 x2 y2 * y1) * (i * x1 + kk x1 y1 x2 y2 * y1) ≡ d * ((x1 * y1 * (i * x2 + y2)) * (x1 * y1 * (i * x2 + y2))).
Proof.
  intros E1%on_ed_zero E2%on_ed_zero Ek.
  transitivity (d * ((x1 * y1 * (i * x2 + y2)) * (x1 * y1 * (i * x2 + y2))) + (i * i + 1) * (x1 * x1 - d * x1 * x1 * y1 * y1 * x2 * x2)
    + (kk x1 y1 x2 y2 * kk x1 y1 x2 y2 - 1) * (y1 * y1 - 1) + (y1 * y1 - x1 * x1 - 1 - d * x1 * x1 * y1 * y1)
    - d * x1 * x1 * y1 * y1 * (y2 * y2 - x2 * x2 - 1 - d * x2 * x2 * y2 * y2)); [ring|].
  rewrite Ek, E1, E2, Hi. ring.
Qed.

Lemma complete_sq x1 y1 x2 y2 : on_ed x1 y1 → on_ed x2 y2 → kk x1 y1 x2 y2 * kk x1 y1 x2 y2 ≢ 1.
Proof.
  intros E1 E2 Ek. pose proof (nonsquare _ _ (square_of_sum _ _ _ _ E1 E2 Ek)) as Z1.
  assert (x1 * - y1 * (i * x2 + - y2) ≡ 0) as Z2.
  { eapply nonsquare, square_of_sum; [unfold on_ed in *; rewrite !Z.mul_opp_r, !Z.mul_opp_l, !Z.opp_involutive; done..|].
    rewrite <-Ek. ring. }
  assert ((1 + 1) * kk x1 y1 x2 y2 ≡ 0) as K.
  { transitivity (d * x2 * (x1 * y1 * (i * x2 + y2) + x1 * - y1 * (i * x2 + - y2))); [ring|]. rewrite Z1, Z2. ring. }
  assert (kk x1 y1 x2 y2 ≡ 0) as K0 by (apply (eqp_cancel p Hp (1 + 1)); [by apply two_nz|]; rewrite K; ring).
  apply one_nz. rewrite <-Ek, K0. ring.
Qed.
Lemma complete x1 y1 x2 y2 : on_ed x1 y1 → on_ed x2 y2 → 1 + kk x1 y1 x2 y2 ≢ 0 ∧ 1 - kk x1 y1 x2 y2 ≢ 0.
Proof.
  intros E1 E2. pose proof (complete_sq _ _ _ _ E1 E2) as H. split; intros K; apply H.
  - transitivity (1 + (1 + kk x1 y1 x2 y2) * (kk x1 y1 x2 y2 - 1)); [ring|]. rewrite K. ring.
  - transitivity (1 - (1 - kk x1 y1 x2 y2) * (kk x1 y1 x2 y2 + 1)); [ring|]. rewrite K. ring.
Qed.

(** The law as a relation: what the coordinates of a sum satisfy. *)
Definition sums (x1 y1 x2 y2 x y : Z) : Prop :=
  x * (1 + kk x1 y1 x2 y2) ≡ x1 * y2 + x2 * y1 ∧ y * (1 - kk x1 y1 x2 y2) ≡ y1 * y2 + x1 * x2.

Lemma sums_unique x1 y1 x2 y2 x y x' y' : on_ed x1 y1 → on_ed x2 y2 → sums x1 y1 x2 y2 x y → sums x1 y1 x2 y2 x' y' → x ≡ x' ∧ y ≡ y'.
Proof.
  intros E1 E2 [Sx Sy] [Sx' Sy']. destruct (complete _ _ _ _ E1 E2) as [N1 N2].
  split; [apply (eqp_cancel p Hp _ _ _ N1)|apply (eqp_cancel p Hp _ _ _ N2)].
  - by rewrite (Z.mul_comm _ x), (Z.mul_comm _ x'), Sx, Sx'.
  - by rewrite (Z.mul_comm _ y), (Z.mul_comm _ y'), Sy, Sy'.
Qed.

Lemma sums_on_ed x1 y1 x2 y2 x y : on_ed x1 y1 → on_ed x2 y2 → sums x1 y1 x2 y2 x y → on_ed x y.
Proof.
  intros E1 E2 [Sx Sy]. destruct (complete _ _ _ _ E1 E2) as [N1 N2].
  apply (eqp_cancel p Hp _ _ _ N1), (eqp_cancel p Hp _ _ _ N1), (eqp_cancel p Hp _ _ _ N2), (eqp_cancel p Hp _ _ _ N2).
  set (k := kk x1 y1 x2 y2) in *.
  transitivity (d * (x * (1 + k)) * (x * (1 + k)) * (y * (1 - k)) * (y * (1 - k))); [ring|].
  transitivity ((y * (1 - k)) * (y * (1 - k)) * (1 + k) * (1 + k) - (x * (1 + k)) * (x * (1 + k)) * (1 - k) * (1 - k) - (1 + k) * (1 + k) * (1 - k) * (1 - k)); [|ring].
  rewrite Sx, Sy. subst k. unfold on_ed in E1, E2. ring [E1 E2].
Qed.

Lemma sums_comm x1 y1 x2 y2 x y : sums x1 y1 x2 y2 x y → sums x2 y2 x1 y1 x y.
Proof.
  intros [Sx Sy]. split.
  - transitivity (x * (1 + kk x1 y1 x2 y2)); [ring|]. rewrite Sx. ring.
  - transitivity (y * (1 - kk x1 y1 x2 y2)); [ring|]. rewrite Sy. ring.
Qed.

(** A sum of three points without the coordinates of the sum of the first two. *)
Lemma sums_three x1 y1 x2 y2 x3 y3 x12 y12 x y (k := kk x1 y1 x2 y2) (n := x1 * y2 + x2 * y1) (m := y1 * y2 + x1 * x2) :
  on_ed x1 y1 → on_ed x2 y2 → on_ed x3 y3 → sums x1 y1 x2 y2 x12 y12 → sums x12 y12 x3 y3 x y →
  (1 + k) * (1 - k) + d * n * m * x3 * y3 ≢ 0 ∧ (1 + k) * (1 - k) - d * n * m * x3 * y3 ≢ 0 ∧
  x * ((1 + k) * (1 - k) + d * n * m * x3 * y3) ≡ n * (1 - k) * y3 + x3 * m * (1 + k) ∧
  y * ((1 + k) * (1 - k) - d * n * m * x3 * y3) ≡ m * (1 + k) * y3 + x3 * n * (1 - k).
Proof.
  intros E1 E2 E3 S12 [Sx Sy]. pose proof (sums_on_ed _ _ _ _ _ _ E1 E2 S12) as E12. destruct (complete _ _ _ _ E1 E2) as [N1 N2], (complete _ _ _ _ E12 E3) as [N5 N6].
  destruct S12 as [Sx12 Sy12]. fold k in N1, N2, Sx12, Sy12. fold n in Sx12. fold m in Sy12.
  assert ((1 + k) * (1 - k) + d * n * m * x3 * y3 ≡ (1 + k) * (1 - k) * (1 + kk x12 y12 x3 y3)) as A1 by (rewrite <-Sx12, <-Sy12; ring).
  assert ((1 + k) * (1 - k) - d * n * m * x3 * y3 ≡ (1 + k) * (1 - k) * (1 - kk x12 y12 x3 y3)) as A2 by (rewrite <-Sx12, <-Sy12; ring).
  split_and!; [rewrite A1|rewrite A2|rewrite A1|rewrite A2].
  - by repeat apply (nz_mul p Hp).
  - by repeat apply (nz_mul p Hp).
  - transitivity ((1 + k) * (1 - k) * (x * (1 + kk x12 y12 x3 y3))); [ring|]. rewrite Sx, <-Sx12, <-Sy12. ring.
  - transitivity ((1 + k) * (1 - k) * (y * (1 - kk x12 y12 x3 y3))); [ring|]. rewrite Sy, <-Sx12, <-Sy12. ring.
Qed.

(** Fractions with equal cross products are equal. *)
Lemma cross x x' a a' b b' : a ≢ 0 → a' ≢ 0 → x * a ≡ b → x' * a' ≡ b' → b * a' ≡ b' * a → x ≡ x'.
Proof.
  intros Ha Ha' E E' C. apply (eqp_cancel p Hp (a * a')); [by apply (nz_mul p Hp)|].
  transitivity (x * a * a'); [ring|]. rewrite E, C, <-E'. ring.
Qed.

Lemma sums_assoc x1 y1 x2 y2 x3 y3 x12 y12 x23 y23 x y x' y' : on_ed x1 y1 → on_ed x2 y2 → on_ed x3 y3 →
  sums x1 y1 x2 y2 x12 y12 → sums x2 y2 x3 y3 x23 y23 → sums x12 y12 x3 y3 x y → sums x1 y1 x23 y23 x' y' → x ≡ x' ∧ y ≡ y'.
Proof.
  intros E1 E2 E3 S12 S23 S S'%sums_comm. destruct (sums_three _ _ _ _ _ _ _ _ _ _ E1 E2 E3 S12 S) as (A & A' & Ex & Ey).
  destruct (sums_three _ _ _ _ _ _ _ _ _ _ E2 E3 E1 S23 S') as (B & B' & Ex' & Ey'). unfold on_ed in E1, E2, E3.
  split; [apply (cross _ _ _ _ _ _ A B Ex Ex')|apply (cross _ _ _ _ _ _ A' B' Ey Ey')]; ring [E1 E2 E3].
Qed.

(** * The points *)

Definition valid (x y : Z) : bool :=
  (0 <=? x) && (x <? p) && (0 <=? y) && (y <? p) && ((d * x * x * y * y - (y * y - x * x - 1)) mod p =? 0).
Record edpt : Type := mkEd { ex : Z; ey : Z; e_ok : valid ex ey = true }.

Lemma p_pos : 2 < p.
Proof. apply Hp. Qed.
Lemma valid_spec x y : valid x y = true ↔ 0 <= x < p ∧ 0 <= y < p ∧ on_ed x y.
Proof.
  pose proof p_pos. unfold valid, on_ed. rewrite !andb_true_iff, !Z.leb_le, !Z.ltb_lt, Z.eqb_eq, Z.mod_divide by lia. unfold eqp. tauto.
Qed.
Lemma valid_mod x y : on_ed x y → valid (x mod p) (y mod p) = true.
Proof.
  intros E. pose proof p_pos. apply valid_spec. split_and!; try (apply Z.mod_pos_bound; lia). by rewrite !mod_eqp by lia.
Qed.
(** The point with the residues of two numbers. *)
Definition ed_of (x y : Z) (E : on_ed x y) : edpt := mkEd (x mod p) (y mod p) (valid_mod x y E).

Lemma ed_on P : on_ed (ex P) (ey P).
Proof. exact (proj2 (proj2 (proj1 (valid_spec _ _) (e_ok P)))). Qed.
Lemma edpt_eq P Q : ex P ≡ ex Q → ey P ≡ ey Q → P = Q.
Proof.
  destruct P as [x y H], Q as [x' y' H']. cbn. intros Ex Ey. pose proof p_pos. pose proof (proj1 (valid_spec _ _) H) as (Hx & Hy & _). pose proof (proj1 (valid_spec _ _) H') as (Hx' & Hy' & _).
  apply eqp_mod in Ex, Ey; [|lia..]. rewrite !Z.mod_small in Ex, Ey by lia. subst. f_equal. apply UIP_dec, bool_dec.
Qed.

(** * The group *)

Definition finv (v : Z) : Z := powm p v (Z.to_pos (p - 2)).
Lemma finv_spec v : v ≢ 0 → finv v * v ≡ 1.
Proof.
  intros Hv. pose proof p_pos. unfold finv. rewrite powm_spec, Z2Pos.id by lia. rewrite Z.mul_comm. by apply Hp.
Qed.

Definition sum_x (P Q : edpt) : Z := (ex P * ey Q + ex Q * ey P) * finv (1 + kk (ex P) (ey P) (ex Q) (ey Q)).
Definition sum_y (P Q : edpt) : Z := (ey P * ey Q + ex P * ex Q) * finv (1 - kk (ex P) (ey P) (ex Q) (ey Q)).
Lemma sum_sums P Q : sums (ex P) (ey P) (ex Q) (ey Q) (sum_x P Q) (sum_y P Q).
Proof.
  destruct (complete _ _ _ _ (ed_on P) (ed_on Q)) as [N1 N2]. unfold sum_x, sum_y.
  split; rewrite <-Z.mul_assoc, finv_spec by done; ring.
Qed.
Lemma sum_on P Q : on_ed (sum_x P Q) (sum_y P Q).
Proof. exact (sums_on_ed _ _ _ _ _ _ (ed_on P) (ed_on Q) (sum_sums P Q)). Qed.
Definition ed_sum (P Q : edpt) : edpt := ed_of (sum_x P Q) (sum_y P Q) (sum_on P Q).

Lemma ed_sum_sums P Q : sums (ex P) (ey P) (ex Q) (ey Q) (ex (ed_sum P Q)) (ey (ed_sum P Q)).
Proof.
  pose proof p_pos. destruct (sum_sums P Q) as [Sx Sy]. unfold ed_sum, ed_of. cbn [ex ey]. split; rewrite mod_eqp by lia; done.
Qed.
Lemma ed_sum_unique P Q R : sums (ex P) (ey P) (ex Q) (ey Q) (ex R) (ey R) → ed_sum P Q = R.
Proof. intros S. destruct (sums_unique _ _ _ _ _ _ _ _ (ed_on P) (ed_on Q) (ed_sum_sums P Q) S). by apply edpt_eq. Qed.

Lemma zero_on : on_ed 0 1.
Proof. unfold on_ed. ring. Qed.
Definition ed_zero : edpt := ed_of 0 1 zero_on.
Lemma neg_on P : on_ed (- ex P) (ey P).
Proof. pose proof (ed_on P) as E. unfold on_ed in *. transitivity (d * ex P * ex P * ey P * ey P); [ring|]. rewrite E. ring. Qed.
Definition ed_neg (P : edpt) : edpt := ed_of (- ex P) (ey P) (neg_on P).

Lemma ed_sum_comm P Q : ed_sum P Q = ed_sum Q P.
Proof. apply ed_sum_unique, sums_comm, ed_sum_sums. Qed.
Lemma ed_sum_zero P : ed_sum ed_zero P = P.
Proof.
  pose proof p_pos. apply ed_sum_unique. unfold ed_zero, ed_of. cbn [ex ey]. split; rewrite !mod_eqp by lia; ring.
Qed.
Lemma ed_sum_neg P : ed_sum P (ed_neg P) = ed_zero.
Proof.
  pose proof p_pos. apply ed_sum_unique. pose proof (ed_on P) as E. unfold on_ed in E. unfold ed_zero, ed_neg, ed_of. cbn [ex ey].
  split; rewrite !mod_eqp by lia; ring [E].
Qed.
Lemma ed_sum_assoc P Q R : ed_sum P (ed_sum Q R) = ed_sum (ed_sum P Q) R.
Proof.
  symmetry. destruct (sums_assoc _ _ _ _ _ _ _ _ _ _ _ _ _ _ (ed_on P) (ed_on Q) (ed_on R) (ed_sum_sums P Q) (ed_sum_sums Q R) (ed_sum_sums (ed_sum P Q) R)
    (ed_sum_sums P (ed_sum Q R))). by apply edpt_eq.
Qed.

#[local] Instance ed_group : AbGroup edpt := {|
  g_zero := ed_zero; g_add := ed_sum; g_assoc := ed_sum_assoc; g_comm := ed_sum_comm; g_id := ed_sum_zero |}.

(** * Extended coordinates *)

(** The fractions x/z, y/z and t/z are the coordinates and their product. *)
Definition extended (x y z t : Z) (P : edpt) : Prop :=
  z ≢ 0 ∧ x ≡ ex P * z ∧ y ≡ ey P * z ∧ t ≡ ex P * ey P * z.

Lemma extended_affine P : extended (ex P) (ey P) 1 (ex P * ey P) P.
Proof. split_and!; [apply one_nz|ring..]. Qed.
Lemma extended_unique x y z t P Q : extended x y z t P → extended x y z t Q → P = Q.
Proof.
  intros (Hz & Ex & Ey & _) (_ & Ex' & Ey' & _). apply edpt_eq; apply (eqp_cancel p Hp z _ _ Hz).
  - rewrite !(Z.mul_comm z). by rewrite <-Ex, <-Ex'.
  - rewrite !(Z.mul_comm z). by rewrite <-Ey, <-Ey'.
Qed.

(** The addition formulas, of which doubling is a case. *)
Lemma extended_add x1 y1 z1 t1 P x2 y2 z2 t2 Q d2
  (a := (y1 - x1) * (y2 - x2)) (b := (x1 + y1) * (x2 + y2)) (c := t1 * t2 * d2) (w := z1 * z2 + z1 * z2) : d2 ≡ d + d →
  extended x1 y1 z1 t1 P → extended x2 y2 z2 t2 Q →
  extended ((b - a) * (w - c)) ((b + a) * (w + c)) ((w + c) * (w - c)) ((b - a) * (b + a)) (ed_sum P Q).
Proof.
  intros Ed (Hz1 & Ex1 & Ey1 & Et1) (Hz2 & Ex2 & Ey2 & Et2). destruct (complete _ _ _ _ (ed_on P) (ed_on Q)) as [N1 N2]. destruct (ed_sum_sums P Q) as [Sx Sy]. unfold extended.
  set (k := kk (ex P) (ey P) (ex Q) (ey Q)) in *. set (x3 := ex (ed_sum P Q)) in *. set (y3 := ey (ed_sum P Q)) in *. clearbody x3 y3.
  assert (b - a ≡ w * (x3 * (1 + k))) as E1 by (rewrite Sx; unfold a, b, w; rewrite Ex1, Ex2, Ey1, Ey2; ring).
  assert (b + a ≡ w * (y3 * (1 - k))) as E2 by (rewrite Sy; unfold a, b, w; rewrite Ex1, Ex2, Ey1, Ey2; ring).
  assert (c ≡ w * k) as E3 by (unfold c, w, k; rewrite Ed, Et1, Et2; ring). assert (w ≢ 0) as Hw.
  { intros E. apply (nz_mul p Hp _ _ (nz_mul p Hp _ _ Hz1 Hz2) (two_nz p Hp)). rewrite <-E. unfold w. ring. }
  clearbody a b c w k. rewrite E1, E2, E3. split_and!; [|ring..].
  intros E. apply (nz_mul p Hp _ _ (nz_mul p Hp _ _ Hw N1) (nz_mul p Hp _ _ Hw N2)). rewrite <-E. ring.
Qed.
End edwards.
