(* ===== verification/Ed25519Curve.v ===== *)
(** The curve of Ed25519: RFC 8032's edwards25519 as an instance of the curves of EdLaw, its
    base point and the order of that, and the encoding of points.

    That 2^255 - 19 is a prime, that d is no square and that the base point has the order L
    are computed, so nothing about the curve is assumed. *)

From S2P Require Import Prelude NativeBase Modp Prime25519 Group EdLaw.
From stdpp Require Import prelude list.
From Stdlib Require Import ZArith Lia Setoid Morphisms.
Open Scope Z_scope.

#[local] Abbreviation p := (2 ^ 255 - 19).
#[local] Infix "≡" := (eqp p) (at level 70).
#[local] Notation "x ≢ y" := (¬ eqp p x y) (at level 70).

(** * The constants of RFC 8032, 5.1 *)

Definition d25519 : Z := 37095705934669439343138083508754565189542113879843219016388785533085940283555.
(** A square root of -1. *)
Definition im : Z := 19681161376707505956807079304988542015446066515923890162744021073123829784752.
Definition L25519 : Z := 2 ^ 252 + 27742317777372353535851937790883648493.
Definition Bx : Z := 15112221349535400772501151409588531511454012693041857206046113283949847762202.
Definition By : Z := 46316835694926478169428394003475163141307993866256225615783033603165251855960.

Lemma p_nz : p ≠ 0.
Proof. discriminate. Qed.

(** Congruences between numerals, by evaluation. *)
Lemma residues_eq x y : (x mod p =? y mod p) = true → x ≡ y.
Proof. intros H%Z.eqb_eq. apply eqp_mod; [exact p_nz|exact H]. Qed.
Lemma d_fraction : 121666 * d25519 ≡ - (121665).
Proof. apply residues_eq. vm_compute. reflexivity. Qed.
Lemma im_square : im * im ≡ - (1).
Proof. apply residues_eq. vm_compute. reflexivity. Qed.

(** Euler's criterion, from Fermat's theorem. *)
Lemma euler_square w v : w * w ≡ v → v ≢ 0 → v ^ ((p - 1) / 2) ≡ 1.
Proof.
  intros E Hv. assert (w ≢ 0) as Hw by (intros H; apply Hv; rewrite <-E, H; reflexivity).
  rewrite <-(eqp_pow p _ _ ((p - 1) / 2) E), <-Z.pow_2_r, <-Z.pow_mul_r by (vm_compute; discriminate).
  assert (2 * ((p - 1) / 2) = p - 1) as -> by (vm_compute; reflexivity). exact (fermat_little p prime_25519 w Hw).
Qed.
Lemma not_congruent x y : (x mod p =? y mod p) = false → x ≢ y.
Proof. intros H%Z.eqb_neq E. apply H. apply eqp_mod in E; [exact E|exact p_nz]. Qed.
Lemma d_nonsquare w : w * w ≢ d25519.
Proof.
  intros E. assert (d25519 ≢ 0) as Hd by (apply not_congruent; vm_compute; reflexivity). pose proof (euler_square w d25519 E Hd) as H.
  apply (not_congruent (powm p d25519 (Z.to_pos ((p - 1) / 2))) 1); [vm_compute; reflexivity|].
  rewrite powm_spec, Z2Pos.id by reflexivity. exact H.
Qed.

(** * The group *)

Abbreviation point := (edpt p d25519).
Abbreviation px := (ex p d25519).
Abbreviation py := (ey p d25519).
#[export] Instance ed25519 : AbGroup point := ed_group p d25519 im fermat_25519 im_square d_nonsquare.
Definition neg : point → point := ed_neg p d25519 fermat_25519.

Lemma base_ok : valid p d25519 Bx By = true.
Proof. vm_compute. reflexivity. Qed.
Definition B : point := mkEd p d25519 Bx By base_ok.

Lemma add_neg P : g_add P (neg P) = g_zero.
Proof. exact (ed_sum_neg p d25519 im fermat_25519 im_square d_nonsquare P). Qed.

Lemma zero_coords : px g_zero = 0 ∧ py g_zero = 1.
Proof. split; vm_compute; reflexivity. Qed.

(** * Encoding, 5.1.2 *)

Definition encode (P : point) : list Z := le_bytes 32 (py P + 2 ^ 255 * (px P mod 2)).

(** * The order of the base point

    Multiples in extended coordinates, reduced by folding the bits above the 255th. *)

Definition fold255 (t : Z) : Z := Z.land t (Z.ones 255) + 19 * Z.shiftr t 255.
Definition mulf (a b : Z) : Z := fold255 (fold255 (a * b)).
(** Differences are kept positive. *)
Definition subf (a b : Z) : Z := a + 16 * p - b.
Definition quad : Type := Z * Z * Z * Z.
Definition add_quad (P Q : quad) : quad :=
  let '(x1, y1, z1, t1) := P in
  let '(x2, y2, z2, t2) := Q in
  let a := mulf (subf y1 x1) (subf y2 x2) in
  let b := mulf (x1 + y1) (x2 + y2) in
  let c := mulf (mulf t1 t2) (2 * d25519) in
  let zz := mulf z1 z2 in
  let w := zz + zz in
  (mulf (subf b a) (subf w c), mulf (b + a) (w + c), mulf (w + c) (subf w c), mulf (subf b a) (b + a)).
Definition base_quad : quad := (Bx, By, 1, mulf Bx By).
Definition is_zero (P : quad) : bool := let '(x, y, z, t) := P in (x mod p =? 0) && (y mod p =? z mod p).

Lemma fold255_eqp t : fold255 t ≡ t.
Proof.
  unfold fold255. rewrite Z.land_ones, Z.shiftr_div_pow2 by discriminate. pose proof (Z.div_mod t (2 ^ 255) ltac:(discriminate)) as E.
  exists (- (t / 2 ^ 255)). rewrite E at 3. ring.
Qed.
Lemma mulf_eqp a b : mulf a b ≡ a * b.
Proof. unfold mulf. by rewrite !fold255_eqp. Qed.
Lemma subf_eqp a b : subf a b ≡ a - b.
Proof. exists 16. unfold subf. ring. Qed.
#[local] Instance mulf_proper : Proper (eqp p ==> eqp p ==> eqp p) mulf.
Proof. intros x x' Ex y y' Ey. by rewrite !mulf_eqp, Ex, Ey. Qed.

Definition quad_of (Q : quad) (P : point) : Prop := let '(x, y, z, t) := Q in extended p d25519 x y z t P.
#[export] Instance extended_proper : Proper (eqp p ==> eqp p ==> eqp p ==> eqp p ==> (=) ==> iff) (extended p d25519).
Proof. intros x x' Ex y y' Ey z z' Ez t t' Et P P' <-. unfold extended. by rewrite Ex, Ey, Ez, Et. Qed.

Lemma add_quad_of Q1 Q2 P1 P2 : quad_of Q1 P1 → quad_of Q2 P2 → quad_of (add_quad Q1 Q2) (g_add P1 P2).
Proof.
  destruct Q1 as [[[x1 y1] z1] t1], Q2 as [[[x2 y2] z2] t2]. unfold quad_of, add_quad. intros H1 H2. rewrite !subf_eqp, !mulf_eqp.
  apply (extended_add p d25519 im fermat_25519 im_square d_nonsquare); [|done..]. exists 0. ring.
Qed.
Lemma multiple_of q : ∀ Q P, quad_of Q P → quad_of (Pos.iter_op add_quad q Q) (Pos.iter_op g_add q P).
Proof. induction q as [q IH|q IH|]; intros Q P H; cbn [Pos.iter_op]; [apply add_quad_of; [done|]| |done]; by apply IH, add_quad_of. Qed.

Lemma is_zero_of Q P : quad_of Q P → is_zero Q = true → P = g_zero.
Proof.
  destruct Q as [[[x y] z] t]. intros H [Hx%Z.eqb_eq Hy%Z.eqb_eq]%andb_true_iff. apply (extended_unique p d25519 fermat_25519 x y z t); [exact H|].
  destruct H as (Hz & Ex & Ey & Et). apply (eqp_mod p x 0 p_nz) in Hx. apply (eqp_mod p y z p_nz) in Hy. destruct zero_coords as [Zx Zy].
  unfold extended. rewrite Zx, Zy, Z.mul_1_l, !Z.mul_0_l. split_and!; [done..|]. rewrite Et, (Z.mul_comm (px _)), <-Z.mul_assoc, <-Ex, Hx, Z.mul_0_r. reflexivity.
Qed.
Lemma base_quad_of : quad_of base_quad B.
Proof. unfold quad_of, base_quad. rewrite mulf_eqp. exact (extended_affine p d25519 fermat_25519 B). Qed.
Lemma base_order : times L25519 B = g_zero.
Proof.
  change (times L25519 B) with (Pos.iter_op g_add (Z.to_pos L25519) B). apply (is_zero_of (Pos.iter_op add_quad (Z.to_pos L25519) base_quad)).
  - apply multiple_of, base_quad_of.
  - vm_compute. reflexivity.
Qed.
