(* ===== verification/F25519.v ===== *)
(** The field of X25519 and Ed25519 in src/src/native.c: integers modulo 2^255 - 19 as ten
    signed limbs of 26 and 25 bits in turn.

    The first part is the code, with every 32- and 64-bit operation wrapped.  The second
    shows that nothing wraps as long as a caller multiplies sums of at most three products
    ([frep] carries the bound), and that the operations are the field's; [pack25519] gives
    the least residue and [unpack25519] takes any 255 bits. *)

From S2P Require Import Prelude NativeBase Modp.
From stdpp Require Import prelude list.
From Stdlib Require Import ZArith Lia.
Open Scope Z_scope.

(** * The code *)

Definition i32 (z : Z) : Z := sint 32 z.
Definition i64 (z : Z) : Z := sint 64 z.
Definition odd_limb (i : nat) : bool := Nat.odd i.
(** The bit width of limb i. *)
Definition FW (i : nat) : nat := if odd_limb i then 25 else 26.

Definition gf0 : list Z := repeat 0 10.
Definition gf1 : list Z := 1 :: repeat 0 9.
Definition gf_121665 : list Z := 121665 :: repeat 0 9.
Definition D : list Z := [-10913629; 13857413; -15372611; 6949391; 114729; -8787816; -6275908; -3247719; -18696448; 21499316].
Definition D2 : list Z := [-21827239; -5839606; -30745221; 13898782; 229458; 15978800; -12551817; -6495438; 29715968; 9444199].
Definition X : list Z := [-14297830; -7645148; 16144683; -16471763; 27570974; -2696100; -26142465; 8378389; 20764389; 8758491].
Definition Y : list Z := [-26843560; -6710886; 13421773; -13421773; 26843546; 6710886; -13421773; 13421773; -26843546; 26843546].
Definition I_ : list Z := [-32595792; -7943725; 9377950; 3500415; 12389472; -272473; -25146209; -2005654; 326686; 11406482].

Definition fset (a : list Z) : list Z := List.map (λ i, a.[i]) (seq 0 10).
Definition fA (a b : list Z) : list Z := List.map (λ i, i32 (a.[i] + b.[i])) (seq 0 10).
Definition fZ (a b : list Z) : list Z := List.map (λ i, i32 (a.[i] - b.[i])) (seq 0 10).

Definition FCARRY : list nat := [0; 4; 1; 5; 2; 6; 3; 7; 4; 8; 9; 0]%nat.
Definition MUL19 (x : Z) : Z := i64 (i64 (i64 (Z.shiftl x 4) + i64 (Z.shiftl x 1)) + x).

(** One turn of fcarry's loop. *)
Definition carry_step (h : list Z) (k : nat) : list Z :=
  let c := if odd_limb k then Z.shiftr (i64 (h.[k] + 2 ^ 24)) 25 else Z.shiftr (i64 (h.[k] + 2 ^ 25)) 26 in
  let h := <[k := i64 (h.[k] - i64 (Z.shiftl c (if odd_limb k then 25 else 26)))]> h in
  if (k =? 9)%nat then <[0%nat := i64 (h.[0] + MUL19 c)]> h else <[(k + 1)%nat := i64 (h.[k + 1] + c)]> h.
Definition fcarry (h : list Z) : list Z := foldl carry_step h FCARRY.
Definition fstore (h : list Z) : list Z := let h := fcarry h in List.map (λ i, i32 h.[i]) (seq 0 10).

(** t[k] += p *)
Definition add_at (t : list Z) (k : nat) (p : Z) : list Z := <[k := i64 (t.[k] + p)]> t.
(** t[i] += MUL19(t[i + 10]) for i < 9 *)
Definition fold19 (t : list Z) : list Z := foldl (λ t i, add_at t i (MUL19 t.[i + 10])) t (seq 0 9).

Definition fM (a b : list Z) : list Z :=
  let b2 := List.map (λ j, if odd_limb j then i32 (2 * b.[j]) else b.[j]) (seq 0 10) in
  let t := foldl (λ t i,
    let row := if odd_limb i then b2 else b in
    foldl (λ t j, add_at t (i + j) (i64 (a.[i] * row.[j]))) t (seq 0 10)) (repeat 0 19) (seq 0 10) in
  fstore (fold19 t).

Definition fS (a : list Z) : list Z :=
  let t := foldl (λ t i,
    foldl (λ t j,
      let p := i64 (a.[i] * a.[j]) in
      let p := if odd_limb i && odd_limb j then i64 (p * 2) else p in
      let p := if (i =? j)%nat then p else i64 (p * 2) in
      add_at t (i + j) p) t (seq i (10 - i))) (repeat 0 19) (seq 0 10) in
  fstore (fold19 t).

(** The two swapped when b is 1. *)
Definition sel25519 (p q : list Z) (b : Z) : list Z * list Z :=
  let c := i32 (- i32 b) in
  let t i := Z.land c (Z.lxor p.[i] q.[i]) in
  (List.map (λ i, Z.lxor p.[i] (t i)) (seq 0 10), List.map (λ i, Z.lxor q.[i] (t i)) (seq 0 10)).

(** The carries of pack25519: the multiple of p to take off, and the limbs as bit fields. *)
Definition pack_q (h : list Z) : Z :=
  foldl (λ q i, if odd_limb i then Z.shiftr (i64 (h.[i] + q)) 25 else Z.shiftr (i64 (h.[i] + q)) 26)
    (Z.shiftr (i64 (MUL19 h.[9] + 2 ^ 24)) 25) (seq 0 10).
Definition pack_carry (h : list Z) (i : nat) : list Z :=
  let s := if odd_limb i then 25 else 26 in
  let h := <[(i + 1)%nat := i64 (h.[i + 1] + Z.shiftr h.[i] s)]> h in
  <[i := i64 (h.[i] - i64 (Z.shiftl (Z.shiftr h.[i] s) s))]> h.
Definition pack_limbs (h : list Z) : list Z :=
  let h := <[0%nat := i64 (h.[0] + MUL19 (pack_q h))]> h in
  let h := foldl pack_carry h (seq 0 9) in
  <[9%nat := Z.land h.[9] (2 ^ 25 - 1)]> h.
(** o[k] |= (uint8_t)v *)
Definition or_at (o : list Z) (k : nat) (v : Z) : list Z := <[k := Z.lor o.[k] (u8 v)]> o.
Definition pack_bits (h : list Z) (st : list Z * nat) (i : nat) : list Z * nat :=
  let (o, off) := st in
  let k := (off / 8)%nat in
  let s := Z.of_nat (off mod 8) in
  let o := or_at o k (i64 (Z.shiftl h.[i] s)) in
  let o := or_at o (k + 1) (Z.shiftr h.[i] (8 - s)) in
  let o := or_at o (k + 2) (Z.shiftr h.[i] (16 - s)) in
  let o := or_at o (k + 3) (Z.shiftr h.[i] (24 - s)) in
  (o, (off + FW i)%nat).
Definition pack25519 (n : list Z) : list Z :=
  let h := List.map (λ i, n.[i]) (seq 0 10) in
  let h := fcarry (fcarry h) in
  fst (foldl (pack_bits (pack_limbs h)) (repeat 0 32, 0%nat) (seq 0 10)).

Definition unpack_limb (s : list Z) (st : list Z * nat) (i : nat) : list Z * nat :=
  let (h, off) := st in
  let w := FW i in
  let v := foldl (λ v j, Z.lor v (Z.shiftl s.[off / 8 + j] (8 * Z.of_nat j))) 0 (seq 0 4) in
  let v := Z.shiftr v (Z.of_nat (off mod 8)) in
  (h ++ [Z.land v (2 ^ Z.of_nat w - 1)], (off + w)%nat).
Definition unpack25519 (n : list Z) : list Z :=
  let s := take 32 n in
  let s := <[31%nat := Z.land s.[31] 127]> s in
  fstore (fst (foldl (unpack_limb s) ([], 0%nat) (seq 0 10))).

Definition neq25519 (a b : list Z) : bool :=
  let c := pack25519 a in
  let d := pack25519 b in
  negb (foldl (λ diff i, Z.lor diff (Z.lxor c.[i] d.[i])) 0 (seq 0 32) =? 0).
Definition par25519 (a : list Z) : Z := Z.land (pack25519 a).[0] 1.

Definition inv25519 (i : list Z) : list Z :=
  fset (foldl (λ c a, let c := fS c in if negb (a =? 2)%nat && negb (a =? 4)%nat then fM c i else c) (fset i) (rev (seq 0 254))).
Definition pow2523 (i : list Z) : list Z :=
  fset (foldl (λ c a, let c := fS c in if negb (a =? 1)%nat then fM c i else c) (fset i) (rev (seq 0 251))).

(** * The value of limbs *)

#[local] Abbreviation p := (2 ^ 255 - 19).
#[local] Infix "≡" := (eqp p) (at level 70).

Definition wt (i : nat) : Z := 2 ^ ((51 * Z.of_nat i + 1) / 2).
Fixpoint valfrom (i : nat) (l : list Z) : Z :=
  match l with
  | [] => 0
  | x :: l => x * wt i + valfrom (S i) l
  end.
Abbreviation val := (valfrom 0).

Lemma sint_id w z : 0 < w → - 2 ^ (w - 1) <= z < 2 ^ (w - 1) → sint w z = z.
Proof.
  intros Hw Hz. unfold sint, wrap. assert (2 ^ w = 2 * 2 ^ (w - 1)) as E by (rewrite <-Z.pow_succ_r by lia; f_equal; lia).
  destruct (Z.neg_nonneg_cases z) as [Hn|Hp].
  - rewrite <-(Z.mod_add z 1), Z.mod_small by lia. destruct (Z.ltb_spec (z + 1 * 2 ^ w) (2 ^ (w - 1))); lia.
  - rewrite Z.mod_small by lia. destruct (Z.ltb_spec z (2 ^ (w - 1))); lia.
Qed.
Lemma i64_id z : - 2 ^ 63 <= z < 2 ^ 63 → i64 z = z.
Proof. intros H. by apply (sint_id 64). Qed.
Lemma i32_id z : - 2 ^ 31 <= z < 2 ^ 31 → i32 z = z.
Proof. intros H. by apply (sint_id 32). Qed.

Lemma wt_succ k : wt (S k) = wt k * 2 ^ Z.of_nat (FW k).
Proof.
  unfold wt, FW, odd_limb. rewrite <-Z.pow_add_r by (try apply Z.div_pos; lia). f_equal.
  destruct (Nat.odd k) eqn:E.
  - apply Nat.odd_spec in E as [m ->]. replace (51 * Z.of_nat (S (2 * m + 1)) + 1) with ((51 * Z.of_nat m + 51) * 2 + 1) by lia.
    replace (51 * Z.of_nat (2 * m + 1) + 1) with ((51 * Z.of_nat m + 26) * 2) by lia. rewrite Z.div_add_l, Z.div_mul by lia. change (1 / 2) with 0. lia.
  - assert (Nat.even k = true) as E' by (by rewrite <-Nat.negb_odd, E). apply Nat.even_spec in E' as [m ->].
    replace (51 * Z.of_nat (S (2 * m)) + 1) with ((51 * Z.of_nat m + 26) * 2) by lia.
    replace (51 * Z.of_nat (2 * m) + 1) with ((51 * Z.of_nat m) * 2 + 1) by lia. rewrite Z.div_add_l, Z.div_mul by lia. change (1 / 2) with 0. lia.
Qed.

Lemma val_insert t : ∀ i k x, (k < length t)%nat → valfrom i (<[k := x]> t) = valfrom i t + (x - t.[k]) * wt (i + k).
Proof.
  induction t as [|y t IH]; intros i k x Hk; cbn [length] in Hk; [lia|]. destruct k as [|k]; cbn [insert list_insert valfrom nth].
  - rewrite Nat.add_0_r. ring.
  - rewrite IH by lia. replace (S i + k)%nat with (i + S k)%nat by lia. ring.
Qed.
Lemma val_app i a b : valfrom i (a ++ b) = valfrom i a + valfrom (i + length a) b.
Proof. revert i. induction a as [|x a IH]; intros i; cbn [app valfrom length]; [rewrite Nat.add_0_r; ring|]. rewrite IH. replace (S i + length a)%nat with (i + S (length a))%nat by lia. ring. Qed.

(** * Bounds

    A list of limbs is bounded by a list of numbers.  What each step does to the bounds is
    computed, so that a whole chain of carries is checked by evaluation. *)

Definition bounded (h bs : list Z) : Prop := length h = length bs ∧ ∀ i, Z.abs h.[i] <= bs.[i].

Lemma bounded_insert h bs k x b : bounded h bs → (k < length h)%nat → Z.abs x <= b → bounded (<[k := x]> h) (<[k := b]> bs).
Proof.
  intros [L B] Hk Hx. split; [by rewrite !length_insert|]. intros i. rewrite !nth_insert by lia. by destruct (i =? k)%nat.
Qed.
Lemma bounded_weaken h bs bs' : bounded h bs → length bs = length bs' → forallb (λ i, bs.[i] <=? bs'.[i]) (seq 0 (length bs)) = true → bounded h bs'.
Proof.
  intros [L B] E H. split; [congruence|]. intros i. rewrite forallb_forall in H. destruct (Nat.lt_ge_cases i (length bs)) as [Hi|Hi].
  - pose proof (B i). specialize (H i). rewrite in_seq, Z.leb_le in H. lia.
  - rewrite !nth_overflow by lia. done.
Qed.

Lemma MUL19_id x : Z.abs x <= 2 ^ 58 → MUL19 x = 19 * x.
Proof. intros H. unfold MUL19. rewrite !Z.shiftl_mul_pow2 by lia. rewrite (i64_id (x * 2 ^ 4)), (i64_id (x * 2 ^ 1)), (i64_id (x * 2 ^ 4 + x * 2 ^ 1)), i64_id; lia. Qed.

(** ** Carries *)

Definition half (k : nat) : Z := 2 ^ (Z.of_nat (FW k) - 1).
Definition carry_of (b : Z) (k : nat) : Z := (b + half k) / 2 ^ Z.of_nat (FW k) + 1.
Definition carry_bound (bs : list Z) (k : nat) : list Z :=
  let c := carry_of bs.[k] k in
  let bs := <[k := half k]> bs in
  if (k =? 9)%nat then <[0%nat := bs.[0] + 19 * c]> bs else <[(k + 1)%nat := bs.[k + 1] + c]> bs.
Definition carry_ok (bs : list Z) (k : nat) : bool :=
  (k <? 10)%nat && (length bs =? 10)%nat && forallb (λ b, (0 <=? b) && (b <? 2 ^ 62)) bs && (carry_of bs.[k] k <? 2 ^ 57).

(** The rounding shift: the carry is bounded and what stays is balanced around zero. *)
Lemma round_shift x b k : Z.abs x <= b → b < 2 ^ 62 →
  let c := if odd_limb k then Z.shiftr (i64 (x + 2 ^ 24)) 25 else Z.shiftr (i64 (x + 2 ^ 25)) 26 in
  Z.abs c <= carry_of b k ∧ Z.abs (x - c * 2 ^ Z.of_nat (FW k)) <= half k ∧
  (carry_of b k < 2 ^ 57 → i64 (x - i64 (Z.shiftl c (if odd_limb k then 25 else 26))) = x - c * 2 ^ Z.of_nat (FW k)).
Proof.
  intros Hx Hb. unfold carry_of, half, FW. destruct (odd_limb k); cbn zeta.
  all: rewrite i64_id, Z.shiftr_div_pow2, Z.shiftl_mul_pow2 by lia.
  - change (Z.of_nat 25) with 25. change (25 - 1) with 24. pose proof (Z.div_mod (x + 2 ^ 24) (2 ^ 25) ltac:(lia)) as E. pose proof (Z.mod_pos_bound (x + 2 ^ 24) (2 ^ 25) ltac:(lia)).
    pose proof (Z.div_mod (b + 2 ^ 24) (2 ^ 25) ltac:(lia)) as Eb. pose proof (Z.mod_pos_bound (b + 2 ^ 24) (2 ^ 25) ltac:(lia)).
    split_and!; [lia|lia|]. intros Hc. rewrite !i64_id; rewrite ?i64_id; lia.
  - change (Z.of_nat 26) with 26. change (26 - 1) with 25. pose proof (Z.div_mod (x + 2 ^ 25) (2 ^ 26) ltac:(lia)) as E. pose proof (Z.mod_pos_bound (x + 2 ^ 25) (2 ^ 26) ltac:(lia)).
    pose proof (Z.div_mod (b + 2 ^ 25) (2 ^ 26) ltac:(lia)) as Eb. pose proof (Z.mod_pos_bound (b + 2 ^ 25) (2 ^ 26) ltac:(lia)).
    split_and!; [lia|lia|]. intros Hc. rewrite !i64_id; rewrite ?i64_id; lia.
Qed.

Lemma carry_step_spec h bs k : bounded h bs → carry_ok bs k = true →
  bounded (carry_step h k) (carry_bound bs k) ∧ val (carry_step h k) ≡ val h.
Proof.
  intros HB. pose proof HB as [L B]. unfold carry_ok. rewrite !andb_true_iff, Nat.ltb_lt, Nat.eqb_eq, Z.ltb_lt, forallb_forall. intros [[[Hk Lb] Hb] Hc].
  assert (∀ i, (i < 10)%nat → 0 <= bs.[i] < 2 ^ 62) as Hb'.
  { intros i Hi. specialize (Hb bs.[i] (nth_In bs 0 (n := i) ltac:(lia))). apply andb_true_iff in Hb as [H1%Z.leb_le H2%Z.ltb_lt]. lia. }
  destruct (round_shift h.[k] bs.[k] k (B k) ltac:(by apply Hb')) as (Hca & Hr & Er). specialize (Er Hc).
  unfold carry_step, carry_bound. set (c := if odd_limb k then Z.shiftr _ 25 else _) in *. rewrite Er. clear Er. clearbody c.
  set (r := h.[k] - c * 2 ^ Z.of_nat (FW k)) in *. set (cb := carry_of bs.[k] k) in *.
  assert (bounded (<[k := r]> h) (<[k := half k]> bs)) as HB' by (apply bounded_insert; [done|lia|done]).
  assert (val (<[k := r]> h) = val h - c * 2 ^ Z.of_nat (FW k) * wt k) as Ev by (rewrite val_insert by lia; unfold r; cbn [Nat.add]; ring).
  destruct (Nat.eqb_spec k 9) as [->|N].
  - rewrite !nth_insert by lia. cbn [Nat.eqb]. pose proof (B 0%nat). pose proof (Hb' 0%nat ltac:(lia)). rewrite MUL19_id, i64_id by lia. split.
    + apply bounded_insert; [done|rewrite length_insert; lia|lia].
    + rewrite val_insert by (rewrite length_insert; lia). rewrite Ev, nth_insert by lia. cbn [Nat.eqb Nat.add].
      change (2 ^ Z.of_nat (FW 9)) with (2 ^ 25). change (wt 9) with (2 ^ 230). change (wt 0) with 1. exists (- c). lia.
  - rewrite !nth_insert by lia. destruct (Nat.eqb_spec (k + 1) k); [lia|]. pose proof (B (k + 1)%nat). pose proof (Hb' (k + 1)%nat ltac:(lia)). rewrite i64_id by lia. split.
    + apply bounded_insert; [done|rewrite length_insert; lia|lia].
    + rewrite val_insert by (rewrite length_insert; lia). rewrite Ev, nth_insert by lia. destruct (Nat.eqb_spec (k + 1) k); [lia|].
      replace (0 + (k + 1))%nat with (S k) by lia. rewrite wt_succ. exists 0. ring.
Qed.

Fixpoint carries_bound (ks : list nat) (bs : list Z) : option (list Z) :=
  match ks with
  | [] => Some bs
  | k :: ks => if carry_ok bs k then carries_bound ks (carry_bound bs k) else None
  end.
Lemma fcarries_spec ks : ∀ h bs bs', bounded h bs → carries_bound ks bs = Some bs' →
  bounded (foldl carry_step h ks) bs' ∧ val (foldl carry_step h ks) ≡ val h.
Proof.
  induction ks as [|k ks IH]; intros h bs bs' HB H; cbn [carries_bound foldl] in *; [injection H as <-; done|].
  destruct (carry_ok bs k) eqn:Hk; [|done]. destruct (carry_step_spec h bs k HB Hk) as [HB' Ev].
  destruct (IH _ _ _ HB' H) as [HB'' Ev']. split; [done|]. by rewrite Ev', Ev.
Qed.

Lemma fcarry_spec h bs bs' : bounded h bs → carries_bound FCARRY bs = Some bs' → bounded (fcarry h) bs' ∧ val (fcarry h) ≡ val h.
Proof. apply fcarries_spec. Qed.

(** The limbs above the tenth are not read. *)
Lemma carry_step_app h l k : length h = 10%nat → (k < 10)%nat → carry_step (h ++ l) k = carry_step h k ++ l.
Proof.
  intros L Hk. unfold carry_step. rewrite !app_nth1 by lia. rewrite insert_app_l by lia. destruct (Nat.eqb_spec k 9).
  - rewrite !app_nth1 by (rewrite length_insert; lia). by rewrite insert_app_l by (rewrite length_insert; lia).
  - rewrite !app_nth1 by (rewrite length_insert; lia). by rewrite insert_app_l by (rewrite length_insert; lia).
Qed.
Lemma carry_step_length h k : length (carry_step h k) = length h.
Proof. unfold carry_step. destruct (k =? 9)%nat; by rewrite !length_insert. Qed.
Lemma fcarry_length h : length (fcarry h) = length h.
Proof. unfold fcarry. generalize FCARRY. intros ks. revert h. induction ks as [|k ks IH]; intros h; [done|]. cbn [foldl]. by rewrite IH, carry_step_length. Qed.
Lemma fstore_app h l : length h = 10%nat → fstore (h ++ l) = fstore h.
Proof.
  intros L. unfold fstore. pose proof (fcarry_length h). assert (fcarry (h ++ l) = fcarry h ++ l) as ->.
  { unfold fcarry. assert (Forall (λ k, k < 10)%nat FCARRY) as F by (by apply (bool_decide_unpack _)). clear -L F. revert h L. induction F as [|k ks Hk F IH]; intros h L; [done|].
    cbn [foldl]. rewrite carry_step_app by done. apply IH. by rewrite carry_step_length. }
  apply List.map_ext_in. intros i Hi%in_seq. by rewrite app_nth1 by lia.
Qed.

(** ** Elements with a bound *)

(** What a sum of three products may reach, and what a product leaves. *)
Definition loose : Z := 3 * 33889977.
Definition tight : Z := 33889977.

(** Ten limbs of at most B that stand for v. *)
Definition frep (B : Z) (l : list Z) (v : Z) : Prop := length l = 10%nat ∧ (∀ i, Z.abs l.[i] <= B) ∧ val l ≡ v.

Definition wide : list Z := repeat (2 ^ 62 - 1) 10.
Lemma fstore_spec h bs bs' v : length h = 10%nat → bounded h bs → carries_bound FCARRY bs = Some bs' → forallb (λ b, b <=? tight) bs' = true → val h ≡ v → frep tight (fstore h) v.
Proof.
  intros Lh HB H Ht Ev. destruct (fcarry_spec _ _ _ HB H) as [HB' Ev']. unfold fstore. pose proof (fcarry_length h) as L. rewrite Lh in L. set (h' := fcarry h) in *. clearbody h'.
  assert (∀ i, Z.abs h'.[i] <= tight) as Bt.
  { intros i. destruct HB' as [L' B']. rewrite forallb_forall in Ht. pose proof (B' i). destruct (Nat.lt_ge_cases i (length bs')) as [Hi|Hi].
    - specialize (Ht _ (nth_In bs' 0 Hi)). apply Z.leb_le in Ht. lia.
    - rewrite nth_overflow by lia. done. }
  assert (List.map (λ i, i32 h'.[i]) (seq 0 10) = h') as ->.
  { transitivity (List.map (λ i, h'.[i]) (seq 0 10)); [|symmetry; by apply map_nth_seq]. apply List.map_ext. intros i. apply i32_id. pose proof (Bt i). unfold tight in *. lia. }
  split_and!; [done|done|]. by rewrite Ev'.
Qed.

(** * Products *)

Definition lsum (l : list Z) : Z := foldr Z.add 0 l.
Lemma lsum_app a b : lsum (a ++ b) = lsum a + lsum b.
Proof. induction a as [|x a IH]; cbn; [done|]. fold (lsum (a ++ b)). fold (lsum a). lia. Qed.
Lemma lsum_scale {A} (c : Z) (f : A → Z) l : lsum (List.map (λ x, c * f x) l) = c * lsum (List.map f l).
Proof. induction l as [|x l IH]; cbn; [lia|]. unfold lsum in IH. rewrite IH. lia. Qed.
Lemma val_sum l : ∀ i, valfrom i l = lsum (List.map (λ k, l.[k] * wt (i + k)) (seq 0 (length l))).
Proof.
  induction l as [|x l IH]; intros i; [done|]. cbn [valfrom length seq List.map nth]. rewrite IH, <-seq_shift, List.map_map. cbn [lsum foldr].
  rewrite Nat.add_0_r. f_equal. fold (lsum (List.map (λ k, (x :: l).[S k] * wt (i + S k)) (seq 0 (length l)))). f_equal. apply List.map_ext. intros k. cbn [nth]. by rewrite Nat.add_succ_r.
Qed.

(** A product is a list of additions to the columns. *)
Definition adds (t : list Z) (l : list (nat * Z)) : list Z := foldl (λ t kq, add_at t (fst kq) (snd kq)) t l.
Fixpoint adds_bound (l : list (nat * Z)) (bs : list Z) : option (list Z) :=
  match l with
  | [] => Some bs
  | (k, P) :: l => if (k <? length bs)%nat && (bs.[k] + P <? 2 ^ 63) then adds_bound l (<[k := bs.[k] + P]> bs) else None
  end.
Definition below (x y : nat * Z) : Prop := fst x = fst y ∧ Z.abs (snd x) <= snd y.

Lemma adds_spec l lb : Forall2 below l lb → ∀ t bs bs', bounded t bs → adds_bound lb bs = Some bs' →
  bounded (adds t l) bs' ∧ val (adds t l) = val t + lsum (List.map (λ kq, snd kq * wt (fst kq)) l).
Proof.
  induction 1 as [|[k q] [k' P] l lb [Ek Hq] Hl IH]; intros t bs bs' HB H; cbn [adds_bound] in H; [injection H as <-; cbn; split; [done|lia]|].
  cbn [fst snd] in *. subst k'. destruct (Nat.ltb_spec k (length bs)) as [Hk|]; [|done]. destruct (Z.ltb_spec (bs.[k] + P) (2 ^ 63)) as [HP|]; [|done].
  pose proof HB as [L B]. pose proof (B k). cbn [andb] in H. unfold adds. cbn [foldl fst snd List.map lsum foldr].
  assert (add_at t k q = <[k := t.[k] + q]> t) as E by (unfold add_at; by rewrite i64_id by lia). rewrite E. fold (adds (<[k := t.[k] + q]> t) l).
  destruct (IH (<[k := t.[k] + q]> t) (<[k := bs.[k] + P]> bs) bs' ltac:(apply bounded_insert; [exact HB|lia|lia]) H) as [HB' Ev]. split; [exact HB'|].
  rewrite Ev, val_insert by lia. cbn [Nat.add]. fold (lsum (List.map (λ kq, snd kq * wt (fst kq)) l)). lia.
Qed.
Lemma adds_nth l : ∀ t k, Forall (λ kq, fst kq ≠ k) l → (adds t l).[k] = t.[k].
Proof.
  induction l as [|[k' q] l IH]; intros t k F; [done|]. apply Forall_cons in F as [N F]. unfold adds. cbn [foldl fst snd] in *. fold (adds (add_at t k' q) l).
  rewrite IH by done. unfold add_at. destruct (Nat.lt_ge_cases k' (length t)); [|by rewrite list_insert_ge by lia]. rewrite nth_insert by lia. by destruct (Nat.eqb_spec k k').
Qed.
Lemma adds_length l : ∀ t, length (adds t l) = length t.
Proof. induction l as [|x l IH]; intros t; [done|]. unfold adds. cbn [foldl]. fold (adds (add_at t (fst x) (snd x)) l). rewrite IH. apply length_insert. Qed.

(** ** The columns above 2^255 *)

Lemma wt_ten i : wt (10 + i) = 2 ^ 255 * wt i.
Proof.
  unfold wt. rewrite <-Z.pow_add_r by (try apply Z.div_pos; lia). f_equal. replace (51 * Z.of_nat (10 + i) + 1) with (51 * Z.of_nat i + 1 + 255 * 2) by lia. rewrite Z.div_add by lia. lia.
Qed.

Lemma fold19_adds t : (length t = 19)%nat → fold19 t = adds t (List.map (λ i, (i, MUL19 t.[i + 10])) (seq 0 9)).
Proof.
  intros L. unfold fold19. assert (∀ l t', Forall (λ i, i < 10)%nat l → (∀ i, t'.[i + 10] = t.[i + 10]) →
    foldl (λ t i, add_at t i (MUL19 t.[i + 10])) t' l = adds t' (List.map (λ i, (i, MUL19 t.[i + 10])) l)) as H; [|apply H; [by apply (bool_decide_unpack _)|done]].
  induction l as [|i l IH]; intros t' F E; [done|]. apply Forall_cons in F as [Hi F]. cbn [foldl List.map]. unfold adds. cbn [foldl fst snd]. rewrite E.
  apply IH; [done|]. intros j. unfold add_at. destruct (Nat.lt_ge_cases i (length t')); [|by rewrite list_insert_ge by lia].
  rewrite nth_insert by lia. destruct (Nat.eqb_spec (j + 10) i); [lia|]. apply E.
Qed.

Definition fold_bound (bs : list Z) : list (nat * Z) := List.map (λ i, (i, 19 * bs.[i + 10])) (seq 0 9).
Lemma fold19_spec t bs bs' : bounded t bs → length t = 19%nat → forallb (λ i, bs.[i + 10] <=? 2 ^ 58) (seq 0 9) = true →
  adds_bound (fold_bound bs) bs = Some bs' →
  ∃ h l, fold19 t = h ++ l ∧ length h = 10%nat ∧ bounded h (take 10 bs') ∧ val h ≡ val t.
Proof.
  intros HB L Hs Hb. rewrite forallb_forall in Hs. pose proof HB as [LB B]. rewrite fold19_adds by done.
  assert (Forall2 below (List.map (λ i, (i, MUL19 t.[i + 10])) (seq 0 9)) (fold_bound bs)) as F.
  { unfold fold_bound. apply Forall2_fmap, Forall_Forall2_diag, Forall_forall. intros i Hi. split; [done|]. cbn [fst snd].
    pose proof (B (i + 10)%nat). specialize (Hs i ltac:(by apply list_elem_of_In)). apply Z.leb_le in Hs. rewrite MUL19_id by lia. lia. }
  destruct (adds_spec _ _ F t bs bs' HB Hb) as [HB' Ev]. set (l := List.map _ (seq 0 9)) in *. set (r := adds t l) in *.
  assert (length r = 19%nat) as Lr by (unfold r; by rewrite adds_length).
  assert (drop 10 r = drop 10 t) as Ed.
  { apply (nth_ext _ _ 0 0); [by rewrite !length_drop, Lr, L|]. intros i _. rewrite !nth_skipn. apply adds_nth. unfold l. apply Forall_fmap, Forall_forall. cbn [fst compose]. intros j Hj%elem_of_seq. lia. }
  exists (take 10 r), (drop 10 r). split_and!; [by rewrite take_drop|rewrite length_take; lia| |].
  - destruct HB' as [L' B']. split; [rewrite !length_take; lia|]. intros i. destruct (Nat.lt_ge_cases i 10) as [Hi|Hi].
    + rewrite !nth_firstn, (proj2 (Nat.ltb_lt i 10)) by lia. apply B'.
    + rewrite !nth_overflow by (rewrite length_take; lia). done.
  - assert (val r = val (take 10 r) + valfrom 10 (drop 10 r)) as E1.
    { rewrite <-(take_drop 10 r) at 1. rewrite val_app, length_take, Lr. done. }
    rewrite Ed, (val_sum (drop 10 t)), length_drop, L in E1. rewrite Ev in E1. unfold l in E1. rewrite List.map_map in E1. cbn [fst snd] in E1.
    exists (- lsum (List.map (λ i, t.[i + 10] * wt i) (seq 0 9))).
    assert (lsum (List.map (λ k, (drop 10 t).[k] * wt (10 + k)) (seq 0 (19 - 10))) = 2 ^ 255 * lsum (List.map (λ i, t.[i + 10] * wt i) (seq 0 9))) as E2.
    { rewrite <-lsum_scale. f_equal. apply List.map_ext. intros i. rewrite nth_skipn, wt_ten. rewrite (Nat.add_comm 10 i). ring. }
    assert (lsum (List.map (λ i, MUL19 t.[i + 10] * wt i) (seq 0 9)) = 19 * lsum (List.map (λ i, t.[i + 10] * wt i) (seq 0 9))) as E3.
    { rewrite <-lsum_scale. f_equal. apply List.map_ext_in. intros i Hi. pose proof (B (i + 10)%nat). specialize (Hs i Hi). apply Z.leb_le in Hs. rewrite MUL19_id by lia. ring. }
    rewrite E2, E3 in E1. lia.
Qed.

(** ** Multiplication and squaring *)

(** Additions, fold and carries of a product whose terms are below [lb] all fit. *)
Definition chain_ok (lb : list (nat * Z)) : bool :=
  match adds_bound lb (repeat 0 19) with
  | None => false
  | Some bs =>
      (length bs =? 19)%nat && forallb (λ i, bs.[i + 10] <=? 2 ^ 58) (seq 0 9) &&
      match adds_bound (fold_bound bs) bs with
      | None => false
      | Some bs =>
          match carries_bound FCARRY (take 10 bs) with
          | None => false
          | Some bs => forallb (λ b, b <=? tight) bs
          end
      end
  end.

Lemma product_spec l lb v : Forall2 below l lb → chain_ok lb = true → lsum (List.map (λ kq, snd kq * wt (fst kq)) l) ≡ v →
  frep tight (fstore (fold19 (adds (repeat 0 19) l))) v.
Proof.
  intros F H Ev. unfold chain_ok in H. destruct (adds_bound lb (repeat 0 19)) as [bs|] eqn:E1; [|done].
  apply andb_true_iff in H as [[H1%Nat.eqb_eq H2]%andb_true_iff H]. destruct (adds_bound (fold_bound bs) bs) as [bs'|] eqn:E2; [|done].
  destruct (carries_bound FCARRY (take 10 bs')) as [bs''|] eqn:E3; [|done].
  assert (bounded (repeat 0 19) (repeat 0 19)) as B0 by (split; [done|]; intros i; rewrite nth_repeat; done).
  destruct (adds_spec _ _ F _ _ _ B0 E1) as [B1 V1]. destruct (fold19_spec _ bs bs' B1) as (h & t & -> & Lh & Bh & Vh); [by rewrite adds_length|done|done|].
  rewrite fstore_app by done. apply (fstore_spec h (take 10 bs') bs''); [done|done|done|done|]. rewrite Vh, V1, <-Ev. by rewrite Z.add_0_l.
Qed.

Lemma foldl_adds (f : nat → nat → nat) (g : nat → nat → Z) (s : nat → list nat) l : ∀ t,
  foldl (λ t i, foldl (λ t j, add_at t (f i j) (g i j)) t (s i)) t l = adds t (flat_map (λ i, List.map (λ j, (f i j, g i j)) (s i)) l).
Proof.
  induction l as [|i l IH]; intros t; [done|]. cbn [foldl flat_map]. unfold adds. rewrite foldl_app, IH. unfold adds. f_equal.
  generalize (s i) t. intros k. induction k as [|j k IHk]; intros t'; [done|]. cbn [foldl List.map fst snd]. apply IHk.
Qed.

Definition twice (i j : nat) : Z := if odd_limb i && odd_limb j then 2 else 1.
Lemma wt_mul i j : wt i * wt j = twice i j * wt (i + j).
Proof.
  unfold twice, wt, odd_limb. rewrite <-Z.pow_add_r by (apply Z.div_pos; lia).
  assert (∀ k, (51 * Z.of_nat k + 1) / 2 = 25 * Z.of_nat k + Z.of_nat ((k + 1) / 2)) as E.
  { intros k. rewrite Nat2Z.inj_div. replace (51 * Z.of_nat k + 1) with (Z.of_nat (k + 1) + (25 * Z.of_nat k) * 2) by lia. rewrite Z.div_add by lia. change (Z.of_nat 2) with 2. lia. }
  rewrite !E. destruct (Nat.Even_or_Odd i) as [[a ->]|[a ->]], (Nat.Even_or_Odd j) as [[b ->]|[b ->]].
  all: rewrite ?Nat.odd_even, ?Nat.odd_odd; cbn [andb].
  all: rewrite ?Z.mul_1_l; try change 2 with (2 ^ 1) at 2; rewrite <-?Z.pow_add_r by lia; f_equal.
  all: repeat match goal with |- context [(?n / 2)%nat] =>
    pose proof (Nat.div_mod_eq n 2); pose proof (Nat.mod_upper_bound n 2 ltac:(lia)); generalize dependent (n / 2)%nat; generalize dependent (n mod 2)%nat; intros end; lia.
Qed.

Lemma lsum_flat {A} (f : nat → list A) (g : A → Z) l : lsum (List.map g (flat_map f l)) = lsum (List.map (λ i, lsum (List.map g (f i))) l).
Proof. induction l as [|i l IH]; [done|]. cbn [flat_map List.map]. rewrite List.map_app, lsum_app, IH. done. Qed.
Lemma below_flat (f f' : nat → list (nat * Z)) l : (∀ i, In i l → Forall2 below (f i) (f' i)) → Forall2 below (flat_map f l) (flat_map f' l).
Proof. induction l as [|i l IH]; intros H; [constructor|]. cbn [flat_map]. apply Forall2_app; [apply H; by left|]. apply IH. intros j Hj. apply H. by right. Qed.
Lemma below_map (f f' : nat → nat * Z) l : (∀ i, In i l → below (f i) (f' i)) → Forall2 below (List.map f l) (List.map f' l).
Proof. induction l as [|i l IH]; intros H; [constructor|]. constructor; [apply H; by left|]. apply IH. intros j Hj. apply H. by right. Qed.

Definition mul_bound : list (nat * Z) := flat_map (λ i, List.map (λ j, ((i + j)%nat, loose * loose * twice i j)) (seq 0 10)) (seq 0 10).
Lemma mul_chain : chain_ok mul_bound = true.
Proof. vm_compute. reflexivity. Qed.

Lemma nth_map_seq (f : nat → Z) n j : (j < n)%nat → (List.map f (seq 0 n)).[j] = f j.
Proof. intros H. rewrite (nth_indep _ 0 (f 0%nat)) by (by rewrite List.length_map, length_seq). rewrite List.map_nth, seq_nth by done. done. Qed.
Lemma lsum_scale_r {A} (c : Z) (f : A → Z) l : lsum (List.map (λ x, f x * c) l) = lsum (List.map f l) * c.
Proof. induction l as [|x l IH]; cbn; [lia|]. unfold lsum in IH. rewrite IH. lia. Qed.
Lemma eq_eqp x y : x = y → x ≡ y.
Proof. intros ->. reflexivity. Qed.

Lemma abs_mul x y B C : Z.abs x <= B → Z.abs y <= C → Z.abs (x * y) <= B * C.
Proof. intros Hx Hy. rewrite Z.abs_mul. apply Z.mul_le_mono_nonneg; lia. Qed.

Lemma fM_rep a b u v : frep loose a u → frep loose b v → frep tight (fM a b) (u * v).
Proof.
  intros (La & Ba & Va) (Lb & Bb & Vb). unfold fM.
  rewrite (foldl_adds (λ i j, (i + j)%nat) (λ i j, i64 (a.[i] * (if odd_limb i then List.map (λ j, if odd_limb j then i32 (2 * b.[j]) else b.[j]) (seq 0 10) else b).[j])) (λ _, seq 0 10)).
  assert (∀ i j, (j < 10)%nat → i64 (a.[i] * (if odd_limb i then List.map (λ j, if odd_limb j then i32 (2 * b.[j]) else b.[j]) (seq 0 10) else b).[j]) = twice i j * (a.[i] * b.[j]) ∧
    Z.abs (twice i j * (a.[i] * b.[j])) <= loose * loose * twice i j) as E.
  { intros i j Hj. pose proof (abs_mul _ _ _ _ (Ba i) (Bb j)) as H. pose proof (Bb j) as Hb. unfold twice, loose in *.
    destruct (odd_limb i); cbn [andb]; [rewrite (nth_map_seq _ 10 j Hj); destruct (odd_limb j); cbn [andb]|];
      rewrite ?i32_id by lia; rewrite ?Z.mul_assoc, ?(Z.mul_comm _ 2), <-?Z.mul_assoc; rewrite i64_id by lia; lia. }
  apply (product_spec _ mul_bound); [|exact mul_chain|].
  - apply below_flat. intros i _. apply below_map. intros j Hj%in_seq. destruct (E i j ltac:(lia)) as [-> H]. done.
  - rewrite lsum_flat. transitivity (val a * val b); [|by rewrite Va, Vb]. apply eq_eqp. rewrite (val_sum a), (val_sum b), La, Lb. cbn [Nat.add].
    rewrite <-lsum_scale_r. f_equal. apply List.map_ext. intros i. rewrite List.map_map, <-lsum_scale. f_equal. apply List.map_ext_in. intros j Hj%in_seq. cbn [fst snd].
    rewrite (proj1 (E i j ltac:(lia))). replace (a.[i] * wt i * (b.[j] * wt j)) with (a.[i] * b.[j] * (wt i * wt j)) by ring. rewrite wt_mul. ring.
Qed.

Lemma lsum_plus {A} (f g : A → Z) l : lsum (List.map (λ x, f x + g x) l) = lsum (List.map f l) + lsum (List.map g l).
Proof. induction l as [|x l IH]; cbn; [lia|]. unfold lsum in IH. rewrite IH. lia. Qed.
Lemma lsum_one (f : nat → Z) n : lsum (List.map f [n]) = f n.
Proof. cbn. lia. Qed.

(** A symmetric double sum, each pair once. *)
Definition pairs (i j : nat) : Z := if (i =? j)%nat then 1 else 2.
Lemma sym_sum (f : nat → nat → Z) n : (∀ i j, f i j = f j i) →
  lsum (List.map (λ i, lsum (List.map (f i) (seq 0 n))) (seq 0 n)) =
  lsum (List.map (λ i, lsum (List.map (λ j, pairs i j * f i j) (seq i (n - i)))) (seq 0 n)).
Proof.
  intros Hf. induction n as [|n IH]; [done|]. rewrite seq_S. cbn [Nat.add]. rewrite !List.map_app, !lsum_app, !lsum_one.
  rewrite (List.map_ext_in (λ i, lsum (List.map (λ j, pairs i j * f i j) (seq i (S n - i)))) (λ i, lsum (List.map (λ j, pairs i j * f i j) (seq i (n - i))) + 2 * f i n)).
  2:{ intros i Hi%in_seq. replace (S n - i)%nat with (S (n - i)) by lia. rewrite seq_S, List.map_app, lsum_app, lsum_one. replace (i + (n - i))%nat with n by lia.
      f_equal. unfold pairs. destruct (Nat.eqb_spec i n); [lia|done]. }
  rewrite (List.map_ext (λ i, lsum (List.map (f i) (seq 0 n ++ [n]))) (λ i, lsum (List.map (f i) (seq 0 n)) + f i n)) by (intros i; by rewrite List.map_app, lsum_app, lsum_one).
  rewrite !lsum_plus, IH, lsum_scale. replace (S n - n)%nat with 1%nat by lia. cbn [seq]. rewrite lsum_one. assert (pairs n n = 1) as -> by (unfold pairs; by rewrite Nat.eqb_refl). rewrite List.map_app, lsum_app, lsum_one.
  rewrite (List.map_ext (f n) (λ i, f i n)) by (intros; apply Hf). lia.
Qed.

Definition square_bound : list (nat * Z) := flat_map (λ i, List.map (λ j, ((i + j)%nat, loose * loose * twice i j * pairs i j)) (seq i (10 - i))) (seq 0 10).
Lemma square_chain : chain_ok square_bound = true.
Proof. vm_compute. reflexivity. Qed.

Lemma fS_rep a u : frep loose a u → frep tight (fS a) (u * u).
Proof.
  intros (La & Ba & Va). unfold fS.
  set (g := λ i j, let p := i64 (a.[i] * a.[j]) in let p := if odd_limb i && odd_limb j then i64 (p * 2) else p in if (i =? j)%nat then p else i64 (p * 2)).
  rewrite (foldl_adds (λ i j, (i + j)%nat) g (λ i, seq i (10 - i))).
  assert (∀ i j, g i j = pairs i j * (twice i j * (a.[i] * a.[j])) ∧ Z.abs (g i j) <= loose * loose * twice i j * pairs i j) as E.
  { intros i j. pose proof (abs_mul _ _ _ _ (Ba i) (Ba j)) as H. unfold g, twice, pairs, loose in *. set (q := a.[i] * a.[j]) in *. clearbody q. cbn zeta.
    destruct (odd_limb i && odd_limb j), (i =? j)%nat; rewrite ?(i64_id q) by lia; rewrite ?(i64_id (q * 2)) by lia; rewrite ?i64_id by lia; lia. }
  clearbody g. apply (product_spec _ square_bound); [|exact square_chain|].
  - apply below_flat. intros i _. apply below_map. intros j _. split; [done|]. apply E.
  - rewrite lsum_flat. transitivity (val a * val a); [|by rewrite Va]. apply eq_eqp. rewrite (val_sum a), La. cbn [Nat.add].
    rewrite <-lsum_scale_r. rewrite (List.map_ext (λ x, a.[x] * wt x * lsum _) (λ x, lsum (List.map (λ y, a.[x] * wt x * (a.[y] * wt y)) (seq 0 10)))) by (intros; by rewrite <-lsum_scale).
    rewrite (sym_sum (λ i j, a.[i] * wt i * (a.[j] * wt j))) by (intros; ring). f_equal. apply List.map_ext. intros i. rewrite List.map_map. f_equal. apply List.map_ext. intros j. cbn [fst snd].
    rewrite (proj1 (E i j)). replace (a.[i] * wt i * (a.[j] * wt j)) with (a.[i] * a.[j] * (wt i * wt j)) by ring. rewrite wt_mul. ring.
Qed.

Lemma val_map f : val (List.map f (seq 0 10)) = lsum (List.map (λ k, f k * wt k) (seq 0 10)).
Proof.
  rewrite val_sum, List.length_map, length_seq. reflexivity.
Qed.

(** A limb by limb operation that does not overflow. *)
Lemma limbwise_rep (o : Z → Z → Z) B C a b u v : B + C < 2 ^ 31 → frep B a u → frep C b v →
  (∀ x y, Z.abs (o x y) <= Z.abs x + Z.abs y) → (∀ x y z, o x y * z = o (x * z) (y * z)) →
  (∀ f g l, lsum (List.map (λ k : nat, o (f k) (g k)) l) = o (lsum (List.map f l)) (lsum (List.map g l))) →
  (o (val a) (val b) ≡ o u v) → frep (B + C) (List.map (λ i, i32 (o a.[i] b.[i])) (seq 0 10)) (o u v).
Proof.
  intros H (La & Ba & _) (Lb & Bb & _) Ho Hm Hs Hv.
  assert (∀ i, i32 (o a.[i] b.[i]) = o a.[i] b.[i]) as E by (intros i; apply i32_id; pose proof (Ho a.[i] b.[i]); pose proof (Ba i); pose proof (Bb i); lia).
  split_and!; [done| |].
  - intros i. destruct (Nat.lt_ge_cases i 10) as [Hi|Hi]; [rewrite nth_map_seq, E by done|rewrite nth_overflow by done];
      pose proof (Ho a.[i] b.[i]); pose proof (Ba i); pose proof (Bb i); lia.
  - rewrite <-Hv, val_map. apply eq_eqp. rewrite (val_sum a), (val_sum b), La, Lb, <-Hs. f_equal. apply List.map_ext. intros k. by rewrite E, Hm.
Qed.
Lemma fA_rep B C a b u v : B + C < 2 ^ 31 → frep B a u → frep C b v → frep (B + C) (fA a b) (u + v).
Proof.
  intros H Ha Hb. pose proof Ha as (_ & _ & Va). pose proof Hb as (_ & _ & Vb).
  apply (limbwise_rep Z.add); [done..|lia|intros; ring|apply lsum_plus|by rewrite Va, Vb].
Qed.
Lemma fZ_rep B C a b u v : B + C < 2 ^ 31 → frep B a u → frep C b v → frep (B + C) (fZ a b) (u - v).
Proof.
  intros H Ha Hb. pose proof Ha as (_ & _ & Va). pose proof Hb as (_ & _ & Vb).
  apply (limbwise_rep Z.sub); [done..|lia|intros; ring| |by rewrite Va, Vb].
  intros f g l. induction l as [|x l IH]; [done|]. cbn [List.map lsum foldr]. unfold lsum in IH. rewrite IH. lia.
Qed.
Lemma frep_weaken B C a u : B <= C → frep B a u → frep C a u.
Proof. intros H (L & Ba & V). split_and!; [done| |done]. intros i. pose proof (Ba i). lia. Qed.
Lemma frep_cong B a u v : u ≡ v → frep B a u → frep B a v.
Proof. intros E (L & Ba & V). split_and!; [done|done|]. by rewrite V. Qed.
Lemma fset_rep B a u : frep B a u → frep B (fset a) u.
Proof. intros (L & Ba & V). unfold fset. by rewrite <-(map_nth_seq a 10 L). Qed.
