(* ===== verification/F25519Ok.v ===== *)
(** What the rest of the field routines of src/src/native.c compute: encoding and decoding
    of residues, inverses and the power of square roots, on top of the products of
    [F25519]. *)

From S2P Require Import Prelude NativeBase Modp F25519.
From stdpp Require Import prelude list.
From Stdlib Require Import ZArith Lia.
Open Scope Z_scope.

#[local] Abbreviation p := (2 ^ 255 - 19).
#[local] Infix "≡" := (eqp p) (at level 70).
#[local] Opaque FCARRY.

(** * The conditional swap *)

Lemma sel25519_spec a b r : length a = 10%nat → length b = 10%nat → r = 0 ∨ r = 1 → sel25519 a b r = if r =? 1 then (b, a) else (a, b).
Proof.
  intros La Lb Hr. unfold sel25519.
  transitivity (List.map (λ i, (if r =? 1 then b else a).[i]) (seq 0 10), List.map (λ i, (if r =? 1 then a else b).[i]) (seq 0 10)).
  2:{ destruct (r =? 1); by rewrite <-!map_nth_seq. }
  destruct Hr as [-> | ->]; cbn [Z.eqb].
  - change (i32 (- i32 0)) with 0. f_equal; apply List.map_ext; intros i; by rewrite Z.land_0_l, Z.lxor_0_r.
  - change (i32 (- i32 1)) with (-1). f_equal; apply List.map_ext; intros i; rewrite Z.land_m1_l; [by rewrite <-Z.lxor_assoc, Z.lxor_nilpotent, Z.lxor_0_l|].
    by rewrite (Z.lxor_comm a.[i]), <-Z.lxor_assoc, Z.lxor_nilpotent, Z.lxor_0_l.
Qed.

(** * Encoding: the multiple of p to take off *)

Definition packed : list Z := Eval vm_compute in
  match carries_bound FCARRY (repeat loose 10) with
  | Some bs => default [] (carries_bound FCARRY bs)
  | None => []
  end.
Lemma twice_carried n v : frep loose n v → length (fcarry (fcarry n)) = 10%nat ∧ bounded (fcarry (fcarry n)) packed ∧ val (fcarry (fcarry n)) ≡ v.
Proof.
  intros (L & B & V). assert (bounded n (repeat loose 10)) as HB.
  { split; [done|]. intros i. destruct (Nat.lt_ge_cases i 10) as [Hi|Hi]; [|by rewrite !nth_overflow by (rewrite ?repeat_length; lia)].
    rewrite (nth_indep (repeat loose 10) 0 loose) by (rewrite repeat_length; lia). rewrite nth_repeat. apply B. }
  destruct (carries_bound FCARRY (repeat loose 10)) as [bs|] eqn:E1; [|by vm_compute in E1].
  destruct (fcarry_spec _ _ _ HB E1) as [H1 V1]. assert (carries_bound FCARRY bs = Some packed) as E2.
  { assert (Some bs = carries_bound FCARRY (repeat loose 10)) as E by done. vm_compute in E. injection E as ->. vm_compute. reflexivity. }
  destruct (fcarry_spec _ _ _ H1 E2) as [H2 V2]. split_and!; [by rewrite !fcarry_length|done|]. by rewrite V2, V1.
Qed.

Section pack.
Context (h : list Z) (Lh : length h = 10%nat) (Hb : bounded h packed).

Lemma packed_small i : Z.abs h.[i] <= 2 ^ 25.
Proof.
  destruct Hb as [_ B]. specialize (B i). do 10 (destruct i as [|i]; [cbn in B; lia|]). rewrite nth_overflow by lia. done.
Qed.

#[local] Abbreviation q0 := ((19 * h.[9] + 2 ^ 24) / 2 ^ 25).
Lemma wt_pos i : 0 < wt i.
Proof. clear h Lh Hb. unfold wt. apply Z.pow_pos_nonneg; [lia|]. apply Z.div_pos; lia. Qed.
Lemma val_take_S k : (k < 10)%nat → val (take (S k) h) = val (take k h) + h.[k] * wt k.
Proof.
  intros Hk. destruct (lookup_lt_is_Some_2 h k ltac:(lia)) as [x Hx]. rewrite (take_S_r h k x Hx), (nth_lookup_Some h k 0 x Hx). rewrite val_app, length_take. cbn [valfrom Nat.add].
  replace (k `min` length h)%nat with k by lia. lia.
Qed.

Lemma div_small_bound x b m : 0 < m → Z.abs x <= b → Z.abs (x / m) <= b / m + 1.
Proof.
  clear h Lh Hb. intros Hm Hx. pose proof (Z.div_mod x m ltac:(lia)). pose proof (Z.mod_pos_bound x m Hm). pose proof (Z.div_mod b m ltac:(lia)). pose proof (Z.mod_pos_bound b m Hm). nia.
Qed.

Lemma pack_q_prefix k : (k <= 10)%nat →
  let q := foldl (λ q i, if odd_limb i then Z.shiftr (i64 (h.[i] + q)) 25 else Z.shiftr (i64 (h.[i] + q)) 26) q0 (seq 0 k) in
  q = (val (take k h) + q0) / wt k ∧ Z.abs q <= 2 ^ 10.
Proof.
  induction k as [|k IH]; intros Hk; cbn zeta.
  - cbn [seq foldl take valfrom]. rewrite Z.div_1_r. split; [done|]. pose proof (packed_small 9).
    pose proof (div_small_bound (19 * h.[9] + 2 ^ 24) (2 ^ 30) (2 ^ 25) ltac:(lia) ltac:(lia)) as H1. change (2 ^ 30 / 2 ^ 25 + 1) with 33 in H1. lia.
  - rewrite seq_S, foldl_app. cbn [Nat.add foldl]. destruct (IH ltac:(lia)) as [Eq Bq]. set (q := foldl _ q0 (seq 0 k)) in *. clearbody q.
    pose proof (packed_small k) as Bk. rewrite !i64_id by lia.
    assert ((if odd_limb k then Z.shiftr (h.[k] + q) 25 else Z.shiftr (h.[k] + q) 26) = (h.[k] + q) / 2 ^ Z.of_nat (FW k)) as ->.
    { unfold FW. destruct (odd_limb k); by rewrite Z.shiftr_div_pow2. }
    pose proof (wt_pos k) as Pw. assert (0 < 2 ^ Z.of_nat (FW k)) as Pf by (apply Z.pow_pos_nonneg; lia). split.
    + rewrite Eq, wt_succ, <-Z.div_div by lia. rewrite val_take_S by lia. f_equal.
      replace (val (take k h) + h.[k] * wt k + q0) with (h.[k] * wt k + (val (take k h) + q0)) by ring. by rewrite Z.div_add_l by lia.
    + pose proof (div_small_bound (h.[k] + q) (2 ^ 26) (2 ^ Z.of_nat (FW k)) Pf ltac:(lia)) as H1. unfold FW in *.
      destruct (odd_limb k); [change (2 ^ 26 / 2 ^ Z.of_nat 25 + 1) with 3 in H1|change (2 ^ 26 / 2 ^ Z.of_nat 26 + 1) with 2 in H1]; lia.
Qed.

Lemma pack_q_spec : pack_q h = (val h + q0) / 2 ^ 255 ∧ Z.abs (pack_q h) <= 2 ^ 10.
Proof.
  pose proof (packed_small 9). unfold pack_q. rewrite MUL19_id, i64_id, Z.shiftr_div_pow2 by lia.
  pose proof (pack_q_prefix 10 ltac:(lia)) as H1. cbn zeta in H1. rewrite (take_ge h 10) in H1 by lia. exact H1.
Qed.

(** ** The least residue *)

(** Everything below the top limb is less than half of it. *)
Lemma val_low : Z.abs (val h - h.[9] * 2 ^ 230) < 2 ^ 229 + 2 ^ 228.
Proof.
  rewrite val_sum, Lh. cbn [seq List.map Nat.add lsum foldr].
  destruct Hb as [_ B]. pose proof (B 0%nat). pose proof (B 1%nat). pose proof (B 2%nat). pose proof (B 3%nat). pose proof (B 4%nat).
  pose proof (B 5%nat). pose proof (B 6%nat). pose proof (B 7%nat). pose proof (B 8%nat). clear B. cbn [nth packed] in *.
  change (wt 0) with (2 ^ 0). change (wt 1) with (2 ^ 26). change (wt 2) with (2 ^ 51). change (wt 3) with (2 ^ 77). change (wt 4) with (2 ^ 102).
  change (wt 5) with (2 ^ 128). change (wt 6) with (2 ^ 153). change (wt 7) with (2 ^ 179). change (wt 8) with (2 ^ 204). change (wt 9) with (2 ^ 230). lia.
Qed.

Lemma pack_residue v : val h ≡ v → val h + 19 * pack_q h = v mod p + 2 ^ 255 * pack_q h.
Proof.
  intros [k Ek]. destruct pack_q_spec as [Eq _]. pose proof val_low as Hl. pose proof (packed_small 9) as H9. assert (Z.abs h.[9] <= 2 ^ 24) as H9' by (destruct Hb as [_ B]; exact (B 9%nat)).
  assert (0 <= val h - p * pack_q h < p) as Hr.
  { pose proof (Z.div_mod (val h + q0) (2 ^ 255) ltac:(lia)) as D. pose proof (Z.mod_pos_bound (val h + q0) (2 ^ 255) ltac:(lia)) as R. rewrite <-Eq in D.
    pose proof (Z.div_mod (19 * h.[9] + 2 ^ 24) (2 ^ 25) ltac:(lia)) as D0. pose proof (Z.mod_pos_bound (19 * h.[9] + 2 ^ 24) (2 ^ 25) ltac:(lia)) as R0.
    set (q := pack_q h) in *. set (z := q0) in *. set (V := val h) in *. set (t := h.[9]) in *. clearbody q z V t.
    assert (q = 0 ∨ q = -1) as [-> | ->] by lia; lia. }
  rewrite <-(Zmod_unique v p (pack_q h - k) (val h - p * pack_q h)) by lia. lia.
Qed.

(** ** The limbs as bit fields *)

Definition fields (k : nat) (g : list Z) : Prop :=
  length g = 10%nat ∧ (∀ i, (i < k)%nat → 0 <= g.[i] < 2 ^ Z.of_nat (FW i)) ∧ ∀ i, (k <= i)%nat → Z.abs g.[i] <= 2 ^ 26 + (if (i =? k)%nat then 8 else 0).

Lemma pack_carry_spec g k : (k < 9)%nat → fields k g → fields (S k) (pack_carry g k) ∧ val (pack_carry g k) = val g.
Proof.
  clear h Lh Hb. intros Hk (Lg & Hlow & Hhigh). unfold pack_carry. set (s := if odd_limb k then 25 else 26).
  assert (s = Z.of_nat (FW k)) as Es by (unfold s, FW; by destruct (odd_limb k)). assert (25 <= s <= 26) as Rs by (unfold s; destruct (odd_limb k); lia).
  pose proof (Hhigh k ltac:(lia)) as Bk. rewrite Nat.eqb_refl in Bk. pose proof (Hhigh (k + 1)%nat ltac:(lia)) as Bk'. destruct (Nat.eqb_spec (k + 1) k); [lia|].
  rewrite !nth_insert by lia. destruct (Nat.eqb_spec k (k + 1)); [lia|]. rewrite !Z.shiftr_div_pow2 by lia. rewrite Z.shiftl_mul_pow2 by lia.
  assert (0 < 2 ^ s) as Ps by (apply Z.pow_pos_nonneg; lia). assert (2 ^ 25 <= 2 ^ s <= 2 ^ 26) as Rs' by (split; apply Z.pow_le_mono_r; lia).
  pose proof (Z.div_mod g.[k] (2 ^ s) ltac:(lia)) as D. pose proof (Z.mod_pos_bound g.[k] (2 ^ s) Ps) as R. set (c := g.[k] / 2 ^ s) in *. set (r := g.[k] mod 2 ^ s) in *.
  assert (Z.abs c <= 8) as Bc by nia. rewrite (i64_id (g.[k + 1] + c)), (i64_id (c * 2 ^ s)), i64_id by lia.
  replace (g.[k] - c * 2 ^ s) with r by lia. split.
  - split_and!; [by rewrite !length_insert| |].
    + intros i Hi. rewrite !nth_insert by (rewrite ?length_insert; lia). destruct (Nat.eqb_spec i k) as [->|]; [by rewrite <-Es|].
      destruct (Nat.eqb_spec i (k + 1)); [lia|]. apply Hlow. lia.
    + intros i Hi. rewrite !nth_insert by (rewrite ?length_insert; lia). destruct (Nat.eqb_spec i k); [lia|].
      destruct (Nat.eqb_spec i (k + 1)) as [->|]; [rewrite (proj2 (Nat.eqb_eq _ _)) by lia; lia|].
      destruct (Nat.eqb_spec i (S k)); [lia|]. pose proof (Hhigh i ltac:(lia)) as Bi. destruct (Nat.eqb_spec i k); [lia|]. done.
  - rewrite !val_insert by (rewrite ?length_insert; lia). rewrite nth_insert by lia. destruct (Nat.eqb_spec k (k + 1)); [lia|].
    replace (0 + (k + 1))%nat with (S k) by lia. rewrite wt_succ, <-Es. cbn [Nat.add]. replace r with (g.[k] - 2 ^ s * c) by lia. ring.
Qed.
Lemma pack_carries g : fields 0 g → fields 9 (foldl pack_carry g (seq 0 9)) ∧ val (foldl pack_carry g (seq 0 9)) = val g.
Proof.
  clear h Lh Hb. intros Hg. assert (∀ k, (k <= 9)%nat → fields k (foldl pack_carry g (seq 0 k)) ∧ val (foldl pack_carry g (seq 0 k)) = val g) as H; [|by apply H].
  induction k as [|k IH]; intros Hk; [done|]. rewrite seq_S, foldl_app. cbn [foldl Nat.add]. destruct (IH ltac:(lia)) as [Hf Hv].
  destruct (pack_carry_spec _ k ltac:(lia) Hf) as [Hf' Hv']. split; [done|]. by rewrite Hv'.
Qed.

(** Bit fields below the top one are less than its weight. *)
Lemma fields_prefix k g : (k <= 10)%nat → length g = 10%nat → (∀ i, (i < k)%nat → 0 <= g.[i] < 2 ^ Z.of_nat (FW i)) → 0 <= val (take k g) < wt k.
Proof.
  clear h Lh Hb. intros Hk Lg Hf. induction k as [|k IH]; [done|]. destruct (lookup_lt_is_Some_2 g k ltac:(lia)) as [x Hx].
  rewrite (take_S_r g k x Hx), val_app, length_take. cbn [valfrom Nat.add]. replace (k `min` length g)%nat with k by lia.
  specialize (IH ltac:(lia) ltac:(intros; apply Hf; lia)). pose proof (Hf k ltac:(lia)) as Hd. rewrite (nth_lookup_Some g k 0 x Hx) in Hd. rewrite wt_succ. pose proof (wt_pos k). nia.
Qed.

Lemma top_limb g v q : length g = 10%nat → (∀ i, (i < 9)%nat → 0 <= g.[i] < 2 ^ Z.of_nat (FW i)) → val g = v mod p + 2 ^ 255 * q →
  let g := <[9%nat := Z.land g.[9] (2 ^ 25 - 1)]> g in
  length g = 10%nat ∧ (∀ i, (i < 10)%nat → 0 <= g.[i] < 2 ^ Z.of_nat (FW i)) ∧ val g = v mod p.
Proof.
  clear h Lh Hb. intros Lg Hlow Vg. cbn zeta. change (2 ^ 25 - 1) with (Z.ones 25). rewrite Z.land_ones by lia. split_and!; [by rewrite length_insert| |].
  - intros i Hi. rewrite nth_insert by lia. destruct (Nat.eqb_spec i 9) as [->|]; [by apply Z.mod_pos_bound|]. apply Hlow. lia.
  - rewrite val_insert, Vg by lia. pose proof (fields_prefix 9 g ltac:(lia) Lg Hlow) as Hp. destruct (lookup_lt_is_Some_2 g 9 ltac:(lia)) as [x Hx].
    rewrite <-(take_drop_middle g 9 x Hx), val_app, length_take in Vg. cbn [valfrom Nat.add] in Vg. replace (9 `min` length g)%nat with 9%nat in Vg by lia.
    rewrite (skipn_all2 g) in Vg by lia. cbn [valfrom] in Vg. rewrite (nth_lookup_Some g 9 0 x Hx).
    change (wt 9) with (2 ^ 230) in *. change (wt (0 + 9)) with (2 ^ 230). pose proof (Z.div_mod x (2 ^ 25) ltac:(lia)). pose proof (Z.mod_pos_bound x (2 ^ 25) ltac:(lia)).
    pose proof (Z.mod_pos_bound v p ltac:(lia)). assert (q = x / 2 ^ 25) by lia. lia.
Qed.

Lemma pack_limbs_spec v : val h ≡ v →
  length (pack_limbs h) = 10%nat ∧ (∀ i, (i < 10)%nat → 0 <= (pack_limbs h).[i] < 2 ^ Z.of_nat (FW i)) ∧ val (pack_limbs h) = v mod p.
Proof.
  intros Ev. destruct pack_q_spec as [_ Bq]. pose proof (packed_small 0) as B0.
  assert (i64 (h.[0] + MUL19 (pack_q h)) = h.[0] + 19 * pack_q h) as E by (rewrite MUL19_id, i64_id by lia; done).
  set (h' := <[0%nat := h.[0] + 19 * pack_q h]> h). assert (val h' = v mod p + 2 ^ 255 * pack_q h) as V'.
  { unfold h'. rewrite val_insert by lia. rewrite <-(pack_residue v Ev). change (wt (0 + 0)) with 1. lia. }
  assert (fields 0 h') as Hf. { unfold h'. split_and!; [by rewrite length_insert|lia|]. intros i _. rewrite nth_insert by lia. pose proof (packed_small i). destruct (i =? 0)%nat; lia. }
  destruct (pack_carries h' Hf) as [(Lg & Hlow & _) Vg]. rewrite V' in Vg.
  unfold pack_limbs. rewrite E. fold h'. exact (top_limb _ v (pack_q h) Lg Hlow Vg).
Qed.
End pack.

(** * Bytes *)

Lemma le_bytes_nth n : ∀ z j, (j < n)%nat → (le_bytes n z).[j] = u8 (Z.shiftr z (8 * Z.of_nat j)).
Proof.
  induction n as [|n IH]; intros z j Hj; [lia|]. cbn [le_bytes]. destruct j as [|j]; cbn [nth].
  - by rewrite Z.mul_0_r, Z.shiftr_0_r.
  - rewrite IH by lia. replace (8 * Z.of_nat (S j)) with (8 + 8 * Z.of_nat j) by lia. rewrite <-Z.shiftr_shiftr by lia. by rewrite (Z.shiftr_div_pow2 z 8).
Qed.
Lemma u8_land x : u8 x = Z.land x 255.
Proof. unfold u8, wrap. change 255 with (Z.ones 8). by rewrite Z.land_ones. Qed.
Lemma u8_lor x y : u8 (Z.lor x y) = Z.lor (u8 x) (u8 y).
Proof. rewrite !u8_land. apply Z.land_lor_distr_l. Qed.

(** A field moved up by a bit offset, seen from a byte of its window. *)
Lemma window x s k j : 0 <= x → 0 <= s → 0 <= k <= j → Z.shiftr (Z.shiftl x (8 * k + s)) (8 * j) = Z.shiftr (Z.shiftl x s) (8 * (j - k)).
Proof.
  intros Hx Hs Hk. rewrite !Z.shiftl_mul_pow2, !Z.shiftr_div_pow2 by lia. replace (8 * j) with (8 * k + 8 * (j - k)) by lia.
  rewrite (Z.pow_add_r 2 (8 * k) (8 * (j - k))), <-Z.div_div by (try apply Z.pow_pos_nonneg; try apply Z.pow_nonzero; lia). f_equal. rewrite Z.pow_add_r by lia.
  replace (x * (2 ^ (8 * k) * 2 ^ s)) with (x * 2 ^ s * 2 ^ (8 * k)) by ring. apply Z.div_mul, Z.pow_nonzero; lia.
Qed.
Lemma window_below x s k j : 0 <= s → 0 <= j < k → u8 (Z.shiftr (Z.shiftl x (8 * k + s)) (8 * j)) = 0.
Proof.
  intros Hs Hk. unfold u8, wrap. rewrite Z.shiftl_mul_pow2, Z.shiftr_div_pow2 by lia.
  replace (8 * k + s) with (8 * j + (8 * (k - j - 1) + s + 8)) by lia. rewrite !Z.pow_add_r by lia.
  replace (x * (2 ^ (8 * j) * (2 ^ (8 * (k - j - 1)) * 2 ^ s * 2 ^ 8))) with (x * 2 ^ (8 * (k - j - 1)) * 2 ^ s * 2 ^ 8 * 2 ^ (8 * j)) by ring.
  rewrite Z.div_mul by (apply Z.pow_nonzero; lia). apply Z.mod_mul. lia.
Qed.

Lemma or_at_nth o k v j : (k < length o)%nat → (or_at o k v).[j] = if (j =? k)%nat then Z.lor o.[j] (u8 v) else o.[j].
Proof. intros Hk. unfold or_at. rewrite nth_insert by done. by destruct (Nat.eqb_spec j k) as [->|]. Qed.

(** The bytes a window does not touch. *)
Ltac other_bytes := repeat match goal with |- context [(?a =? ?b)%nat] => destruct (Nat.eqb_spec a b); [exfalso; lia|] end.

Lemma pack_bits_spec h i N off : 0 <= N < 2 ^ Z.of_nat off → (off / 8 + 4 <= 32)%nat →
  0 <= h.[i] → h.[i] * 2 ^ Z.of_nat (off mod 8) < 2 ^ 32 →
  pack_bits h (le_bytes 32 N, off) i = (le_bytes 32 (N + h.[i] * 2 ^ Z.of_nat off), (off + FW i)%nat).
Proof.
  intros HN Hk Hx Hw. unfold pack_bits. f_equal. set (x := h.[i]) in *. clearbody x. rewrite <-lor_add by lia.
  pose proof (Nat.div_mod_eq off 8) as E. pose proof (Nat.mod_upper_bound off 8 ltac:(lia)) as Hs. set (k := (off / 8)%nat) in *. set (s := (off mod 8)%nat) in *.
  assert (Z.of_nat off = 8 * Z.of_nat k + Z.of_nat s) as Eo by lia. clearbody k s.
  assert (x < 2 ^ 32) as Hx32 by (assert (1 <= 2 ^ Z.of_nat s) by (change 1 with (2 ^ 0); apply Z.pow_le_mono_r; lia); nia).
  rewrite i64_id by (rewrite Z.shiftl_mul_pow2; lia).
  assert (∀ m, 1 <= m → Z.shiftr x (8 * m - Z.of_nat s) = Z.shiftr (Z.shiftl x (Z.of_nat s)) (8 * m)) as Es.
  { intros m Hm. rewrite Z.shiftr_shiftl_r by lia. done. }
  pose proof (Es 1 ltac:(lia)) as E1. pose proof (Es 2 ltac:(lia)) as E2. pose proof (Es 3 ltac:(lia)) as E3.
  change (8 * 1) with 8 in E1. change (8 * 2) with 16 in E2. change (8 * 3) with 24 in E3. rewrite E1, E2, E3. clear Es E1 E2 E3. apply (nth_ext _ _ 0 0); [unfold or_at; by rewrite !length_insert, !le_bytes_length|].
  intros j Hj. unfold or_at in Hj. rewrite !length_insert, le_bytes_length in Hj.
  rewrite !or_at_nth by (unfold or_at; rewrite ?length_insert, le_bytes_length; lia). rewrite !le_bytes_nth, Z.shiftr_lor, u8_lor by done. rewrite Eo.
  destruct (Nat.lt_ge_cases j k) as [Hjk|Hjk].
  { rewrite window_below by lia. rewrite Z.lor_0_r. other_bytes. done. }
  rewrite window by lia. replace (Z.of_nat j - Z.of_nat k) with (Z.of_nat (j - k)) by lia.
  destruct (Nat.eqb_spec j (k + 3)) as [->|]; [other_bytes; by replace (k + 3 - k)%nat with 3%nat by lia|].
  destruct (Nat.eqb_spec j (k + 2)) as [->|]; [other_bytes; by replace (k + 2 - k)%nat with 2%nat by lia|].
  destruct (Nat.eqb_spec j (k + 1)) as [->|]; [other_bytes; by replace (k + 1 - k)%nat with 1%nat by lia|].
  destruct (Nat.eqb_spec j k) as [->|]; [by rewrite Nat.sub_diag, Z.mul_0_r, Z.shiftr_0_r|].
  rewrite (Z.shiftr_div_pow2 (Z.shiftl _ _)), Z.shiftl_mul_pow2 by lia. rewrite Z.div_small; [by rewrite Z.lor_0_r|].
  split; [apply Z.mul_nonneg_nonneg; [done|apply Z.pow_nonneg; lia]|]. eapply Z.lt_le_trans; [exact Hw|]. apply Z.pow_le_mono_r; lia.
Qed.

Definition offn (k : nat) : nat := ((51 * k + 1) / 2)%nat.
Lemma wt_offn k : wt k = 2 ^ Z.of_nat (offn k).
Proof. unfold wt, offn. rewrite Nat2Z.inj_div. do 2 f_equal. lia. Qed.
(** Each field lies in a window of four of the 32 bytes. *)
Lemma offn_window k : (k < 10)%nat → (offn k / 8 + 4 <= 32)%nat ∧ (offn k mod 8 + FW k <= 32)%nat ∧ offn (S k) = (offn k + FW k)%nat.
Proof.
  intros Hk. assert (forallb (λ k, (offn k / 8 + 4 <=? 32) && (offn k mod 8 + FW k <=? 32) && (offn (S k) =? offn k + FW k))%nat (seq 0 10) = true) as H by reflexivity.
  rewrite forallb_forall in H. specialize (H k ltac:(apply in_seq; lia)). rewrite !andb_true_iff, !Nat.leb_le, Nat.eqb_eq in H. tauto.
Qed.

Lemma pack_bytes g : length g = 10%nat → (∀ i, (i < 10)%nat → 0 <= g.[i] < 2 ^ Z.of_nat (FW i)) →
  fst (foldl (pack_bits g) (repeat 0 32, 0%nat) (seq 0 10)) = le_bytes 32 (val g).
Proof.
  intros Lg Hg. assert (∀ k, (k <= 10)%nat → foldl (pack_bits g) (repeat 0 32, 0%nat) (seq 0 k) = (le_bytes 32 (val (take k g)), offn k)) as H.
  2:{ rewrite H, take_ge by lia. done. }
  induction k as [|k IH]; intros Hk; [done|]. rewrite seq_S, foldl_app, IH by lia. cbn [Nat.add foldl].
  destruct (offn_window k ltac:(lia)) as (W1 & W2 & W3). pose proof (Hg k ltac:(lia)) as Hd. pose proof (fields_prefix k g ltac:(lia) Lg ltac:(intros; apply Hg; lia)) as Hp.
  rewrite pack_bits_spec; [|by rewrite <-wt_offn|done|lia|].
  - rewrite W3, (val_take_S g Lg) by lia. by rewrite wt_offn.
  - apply Z.lt_le_trans with (2 ^ Z.of_nat (FW k) * 2 ^ Z.of_nat (offn k mod 8)); [apply Z.mul_lt_mono_pos_r; [apply Z.pow_pos_nonneg; lia|lia]|].
    rewrite <-Z.pow_add_r by lia. apply Z.pow_le_mono_r; lia.
Qed.

Lemma pack_spec n v : frep loose n v → pack25519 n = le_bytes 32 (v mod p).
Proof.
  intros H. unfold pack25519. rewrite <-(map_nth_seq n 10) by apply H. destruct (twice_carried n v H) as (L & B & V).
  destruct (pack_limbs_spec _ L B v V) as (Lg & Hg & <-). by apply pack_bytes.
Qed.

(** * Decoding *)

Lemma le_val_nth s : ∀ j, bytes_ok s → s.[j] = u8 (Z.shiftr (le_val s) (8 * Z.of_nat j)).
Proof.
  intros j Hs. destruct (Nat.lt_ge_cases j (length s)) as [Hj|Hj].
  - rewrite <-(le_bytes_val s Hs) at 1. by apply le_bytes_nth.
  - rewrite nth_overflow by lia. pose proof (le_val_range s Hs) as R. rewrite Z.shiftr_div_pow2 by lia. rewrite Z.div_small; [done|].
    split; [lia|]. eapply Z.lt_le_trans; [apply R|]. change 256 with (2 ^ 8). rewrite <-Z.pow_mul_r by lia. apply Z.pow_le_mono_r; lia.
Qed.

Lemma u8_testbit x i : 0 <= i → Z.testbit (u8 x) i = (i <? 8) && Z.testbit x i.
Proof.
  intros Hi. unfold u8, wrap. destruct (Z.ltb_spec i 8); [by apply Z.mod_pow2_bits_low|]. by apply Z.mod_pow2_bits_high.
Qed.

(** Four bytes read at a byte offset and shifted to a bit offset. *)
Lemma unpack_limb_spec s i h off : bytes_ok s → (off mod 8 + FW i <= 32)%nat →
  unpack_limb s (h, off) i = (h ++ [Z.shiftr (le_val s) (Z.of_nat off) mod 2 ^ Z.of_nat (FW i)], (off + FW i)%nat).
Proof.
  intros Hs Hw. unfold unpack_limb. do 3 f_equal. rewrite <-Z.land_ones by lia. rewrite Z.ones_equiv, <-Z.sub_1_r.
  pose proof (Nat.div_mod_eq off 8) as E. pose proof (Nat.mod_upper_bound off 8 ltac:(lia)) as H8. set (k := (off / 8)%nat) in *. set (b := (off mod 8)%nat) in *.
  cbn [seq foldl]. rewrite !(le_val_nth s) by done. set (N := le_val s). clearbody k b N. rewrite Z.sub_1_r, <-Z.ones_equiv.
  apply Z.bits_inj'. intros m Hm. rewrite !Z.land_spec, Z.testbit_ones_nonneg by lia. destruct (Z.ltb_spec m (Z.of_nat (FW i))) as [Hlt|]; [|by rewrite !andb_false_r].
  rewrite !andb_true_r, !Z.shiftr_spec, !Z.lor_spec, Z.bits_0, !Z.shiftl_spec by lia. cbn [orb].
  set (t := m + Z.of_nat b). assert (0 <= t < 32) as Ht by lia. replace (m + Z.of_nat off) with (t + 8 * Z.of_nat k) by lia.
  rewrite !Nat2Z.inj_add. change (Z.of_nat 0) with 0. change (Z.of_nat 1) with 1. change (Z.of_nat 2) with 2. change (Z.of_nat 3) with 3.
  assert (∀ j, 0 <= j → Z.testbit (u8 (Z.shiftr N (8 * (Z.of_nat k + j)))) (t - 8 * j) = (8 * j <=? t) && (t <? 8 * j + 8) && Z.testbit N (t + 8 * Z.of_nat k)) as Hj.
  { intros j Hj. destruct (Z.leb_spec (8 * j) t); [|by rewrite Z.testbit_neg_r by lia]. rewrite u8_testbit, Z.shiftr_spec by lia. cbn [andb].
    replace (t - 8 * j + 8 * (Z.of_nat k + j)) with (t + 8 * Z.of_nat k) by lia. destruct (Z.ltb_spec (t - 8 * j) 8), (Z.ltb_spec t (8 * j + 8)); try lia; done. }
  rewrite (Hj 0), (Hj 1), (Hj 2), (Hj 3) by lia. destruct (Z.testbit N (t + 8 * Z.of_nat k)); rewrite ?andb_true_r, ?andb_false_r; [|done]. lia.
Qed.

Lemma clear_top s : bytes_ok s → length s = 32%nat → bytes_ok (<[31%nat := Z.land s.[31] 127]> s) ∧ le_val (<[31%nat := Z.land s.[31] 127]> s) = le_val s mod 2 ^ 255.
Proof.
  intros Hs L. destruct s as [|x t _] using rev_ind; [done|]. rewrite length_app in L. cbn [length] in L. assert (length t = 31%nat) as L1 by lia.
  apply Forall_app in Hs as [Ht [Hx _]%Forall_cons]. rewrite insert_app_r_alt, L1, Nat.sub_diag by lia. rewrite app_nth2, L1, Nat.sub_diag by lia. cbn [nth insert list_insert].
  change 127 with (Z.ones 7). rewrite Z.land_ones by lia. pose proof (Z.mod_pos_bound x (2 ^ 7) ltac:(lia)) as R. pose proof (Z.div_mod x (2 ^ 7) ltac:(lia)) as D. unfold byte_ok in Hx. split.
  - apply Forall_app; split; [done|]. constructor; [unfold byte_ok; lia|constructor].
  - rewrite !le_val_app, L1. cbn [le_val]. pose proof (le_val_range t Ht) as Rt. rewrite L1 in Rt. change (256 ^ Z.of_nat 31) with (2 ^ 248) in *.
    apply (Zmod_unique _ _ (x / 2 ^ 7)); lia.
Qed.

Lemma unpack_fields s : bytes_ok s → le_val s < 2 ^ 255 →
  let h := fst (foldl (unpack_limb s) ([], 0%nat) (seq 0 10)) in bounded h (repeat (2 ^ 26) 10) ∧ val h = le_val s.
Proof.
  intros Hs Hlt. set (f := λ i, Z.shiftr (le_val s) (Z.of_nat (offn i)) mod 2 ^ Z.of_nat (FW i)).
  assert (∀ k, (k <= 10)%nat → foldl (unpack_limb s) ([], 0%nat) (seq 0 k) = (List.map f (seq 0 k), offn k) ∧ val (List.map f (seq 0 k)) = le_val s mod wt k) as H.
  { induction k as [|k IH]; intros Hk; [split; [done|]; cbn; by rewrite Z.mod_1_r|]. destruct (IH ltac:(lia)) as [E V]. destruct (offn_window k ltac:(lia)) as (_ & W2 & W3).
    rewrite seq_S, foldl_app, E. cbn [foldl Nat.add]. rewrite unpack_limb_spec by done. rewrite W3, List.map_app, val_app, V, List.length_map, length_seq. split; [done|].
    cbn [List.map valfrom Nat.add]. rewrite wt_succ. pose proof (wt_pos k). rewrite Z.rem_mul_r by (try apply Z.pow_pos_nonneg; lia). unfold f. rewrite Z.shiftr_div_pow2, <-wt_offn by lia. ring. }
  destruct (H 10%nat ltac:(lia)) as [E V]. cbn zeta. rewrite E. cbn [fst]. change (wt 10) with (2 ^ 255) in V. pose proof (le_val_range s Hs). rewrite Z.mod_small in V by lia. split; [|done].
  split; [done|]. intros i. destruct (Nat.lt_ge_cases i 10) as [Hi|Hi]; [|by rewrite !nth_overflow by (rewrite ?List.length_map, ?length_seq, ?repeat_length; lia)].
  rewrite nth_map_seq by done. rewrite (nth_indep (repeat _ 10) 0 (2 ^ 26)) by (rewrite repeat_length; lia). rewrite nth_repeat. unfold f.
  assert (0 < 2 ^ Z.of_nat (FW i) <= 2 ^ 26) as Pw by (unfold FW; destruct (odd_limb i); cbn; lia).
  pose proof (Z.mod_pos_bound (Z.shiftr (le_val s) (Z.of_nat (offn i))) (2 ^ Z.of_nat (FW i)) ltac:(lia)). lia.
Qed.

Lemma unpack_rep n : bytes_ok (take 32 n) → (32 <= length n)%nat → frep tight (unpack25519 n) (le_val (take 32 n) mod 2 ^ 255).
Proof.
  intros Hn Ln. unfold unpack25519. destruct (clear_top (take 32 n) Hn ltac:(rewrite length_take; lia)) as [Hs Es]. set (s := <[31%nat := _]> (take 32 n)) in *. clearbody s.
  pose proof (Z.mod_pos_bound (le_val (take 32 n)) (2 ^ 255) ltac:(lia)). rewrite <-Es. destruct (unpack_fields s Hs ltac:(lia)) as [B V]. cbn zeta in B, V. pose proof B as [L _].
  destruct (carries_bound FCARRY (repeat (2 ^ 26) 10)) as [bs|] eqn:E; [|by vm_compute in E].
  apply (fstore_spec _ (repeat (2 ^ 26) 10) bs); [by rewrite L|done|done| |by rewrite V].
  assert (Some bs = carries_bound FCARRY (repeat (2 ^ 26) 10)) as E' by done. vm_compute in E'. injection E' as ->. reflexivity.
Qed.

(** * Powers *)

Lemma tight_loose a u : frep tight a u → frep loose a u.
Proof. apply frep_weaken. unfold tight, loose. lia. Qed.

(** Square and multiply by a fixed pattern; what it makes of the exponent is computed. *)
Definition exponent (mul : nat → bool) (l : list nat) : Z := foldl (λ e a, if mul a then 2 * e + 1 else 2 * e) 1 l.
Lemma chain_rep (mul : nat → bool) i v l : frep tight i v →
  frep tight (foldl (λ c a, let c := fS c in if mul a then fM c i else c) (fset i) l) (v ^ exponent mul l).
Proof.
  intros Hi. assert (∀ e c, 0 <= e → frep tight c (v ^ e) →
    frep tight (foldl (λ c a, let c := fS c in if mul a then fM c i else c) c l) (v ^ foldl (λ e a, if mul a then 2 * e + 1 else 2 * e) e l)) as H.
  2:{ apply H; [lia|]. rewrite Z.pow_1_r. by apply fset_rep. }
  induction l as [|a l IH]; intros e c He Hc; [done|]. cbn [foldl]. pose proof (fS_rep c _ (tight_loose _ _ Hc)) as Hs. rewrite <-Z.pow_add_r in Hs by lia.
  apply IH; [destruct (mul a); lia|]. destruct (mul a).
  - replace (2 * e + 1) with (e + e + 1) by lia. rewrite Z.pow_add_r, Z.pow_1_r by lia. by apply fM_rep; apply tight_loose.
  - by replace (2 * e) with (e + e) by lia.
Qed.

Lemma inv_rep i v : frep tight i v → frep tight (inv25519 i) (v ^ (p - 2)).
Proof.
  intros Hi. unfold inv25519. apply fset_rep. pose proof (chain_rep (λ a : nat, negb (a =? 2)%nat && negb (a =? 4)%nat) i v (rev (seq 0 254)) Hi) as H.
  assert (exponent (λ a : nat, negb (a =? 2)%nat && negb (a =? 4)%nat) (rev (seq 0 254)) = p - 2) as E by (vm_compute; reflexivity). rewrite E in H. exact H.
Qed.
Lemma pow2523_rep i v : frep tight i v → frep tight (pow2523 i) (v ^ (2 ^ 252 - 3)).
Proof.
  intros Hi. unfold pow2523. apply fset_rep. pose proof (chain_rep (λ a : nat, negb (a =? 1)%nat) i v (rev (seq 0 251)) Hi) as H.
  assert (exponent (λ a : nat, negb (a =? 1)%nat) (rev (seq 0 251)) = 2 ^ 252 - 3) as E by (vm_compute; reflexivity). rewrite E in H. exact H.
Qed.

(** * Comparisons *)

Lemma eqp_modp u v : u ≡ v ↔ u mod p = v mod p.
Proof. apply eqp_mod. lia. Qed.
Lemma residue_bytes u : length (le_bytes 32 (u mod p)) = 32%nat ∧ le_val (le_bytes 32 (u mod p)) = u mod p.
Proof. split; [apply le_bytes_length|]. apply le_val_bytes_small. pose proof (Z.mod_pos_bound u p ltac:(lia)). change (256 ^ Z.of_nat 32) with (2 ^ 256). lia. Qed.
Lemma lor_all (f : nat → Z) l : (∀ i, 0 <= f i) → ∀ d, 0 <= d → (foldl (λ d i, Z.lor d (f i)) d l = 0 ↔ d = 0 ∧ Forall (λ i, f i = 0) l).
Proof.
  intros Hf. induction l as [|i l IH]; intros d Hd; cbn [foldl]; [split; [done|tauto]|].
  rewrite IH by (apply Z.lor_nonneg; split; [done|apply Hf]). rewrite Z.lor_eq_0_iff, Forall_cons. tauto.
Qed.
(** Two byte strings differ in some bit. *)
Lemma diff_spec c d : bytes_ok c → bytes_ok d → length c = 32%nat → length d = 32%nat →
  (foldl (λ diff i, Z.lor diff (Z.lxor c.[i] d.[i])) 0 (seq 0 32) =? 0) = bool_decide (c = d).
Proof.
  intros Bc Bd Lc Ld. apply eq_true_iff_eq. rewrite Z.eqb_eq, bool_decide_eq_true.
  rewrite (lor_all (λ i, Z.lxor c.[i] d.[i])); [|intros i; apply (lxor_ok 8); [lia|by apply (word_nth 8)..]|done]. split.
  - intros [_ F]. rewrite (map_nth_seq c 32 Lc), (map_nth_seq d 32 Ld). apply List.map_ext_in. intros i Hi%list_elem_of_In. rewrite Forall_forall in F.
    specialize (F i Hi). cbn in F. by apply Z.lxor_eq.
  - intros ->. split; [done|]. apply Forall_forall. intros i _. apply Z.lxor_nilpotent.
Qed.

Lemma neq_spec a b u v : frep loose a u → frep loose b v → (neq25519 a b = false ↔ u ≡ v).
Proof.
  intros Ha Hb. unfold neq25519. rewrite (pack_spec a u Ha), (pack_spec b v Hb). destruct (residue_bytes u) as [Lu Vu], (residue_bytes v) as [Lv Vv].
  rewrite diff_spec by (done || apply le_bytes_ok). rewrite negb_false_iff, bool_decide_eq_true, eqp_modp. split; [intros E; by rewrite <-Vu, E, Vv|by intros ->].
Qed.
Lemma par_spec a u : frep loose a u → par25519 a = (u mod p) mod 2.
Proof.
  intros Ha. unfold par25519. rewrite (pack_spec a u Ha). cbn [le_bytes nth]. change 1 with (Z.ones 1). rewrite Z.land_ones by lia. change (2 ^ 1) with 2.
  apply Z.mod_mod_divide. by exists 128.
Qed.

(** * What the ladders share *)

(** The bit the code picks from the string is the number's. *)
Lemma scalar_bit z i : bytes_ok z → Z.land (Z.shiftr z.[i / 8] (Z.of_nat (i mod 8))) 1 = Z.b2z (Z.testbit (le_val z) (Z.of_nat i)).
Proof.
  intros Hz. rewrite (le_val_nth z _ Hz). pose proof (Nat.div_mod_eq i 8). pose proof (Nat.mod_upper_bound i 8 ltac:(lia)).
  set (k := (i / 8)%nat) in *. set (s := (i mod 8)%nat) in *. clearbody k s. change 1 with (Z.ones 1). rewrite Z.land_ones by lia. change (2 ^ 1) with 2. rewrite <-Z.bit0_mod, Z.shiftr_spec by lia.
  rewrite u8_testbit by lia. rewrite Z.shiftr_spec by lia. rewrite (proj2 (Z.ltb_lt _ _)) by lia. cbn [andb]. do 2 f_equal. lia.
Qed.

Lemma const_bound B a v : 0 <= B → length a = 10%nat → forallb (λ x, Z.abs x <=? B) a = true → val a = v → frep B a v.
Proof.
  intros HB L F <-. split_and!; [done| |done]. intros i. rewrite forallb_forall in F. destruct (Nat.lt_ge_cases i (length a)) as [Hi|Hi]; [by apply Z.leb_le, F, nth_In|].
  rewrite nth_overflow by lia. done.
Qed.
Lemma const_rep a v : length a = 10%nat → forallb (λ x, Z.abs x <=? tight) a = true → val a = v → frep tight a v.
Proof. by apply const_bound. Qed.
Lemma gf0_rep : frep tight gf0 0.
Proof. by apply const_rep. Qed.
Lemma gf1_rep : frep tight gf1 1.
Proof. by apply const_rep. Qed.

(** Sums and differences of two products may be multiplied. *)
Lemma sum_rep a b u v : frep tight a u → frep tight b v → frep loose (fA a b) (u + v).
Proof. intros Ha Hb. apply (frep_weaken (tight + tight)); [unfold tight, loose; lia|]. by apply fA_rep. Qed.
Lemma diff_rep a b u v : frep tight a u → frep tight b v → frep loose (fZ a b) (u - v).
Proof. intros Ha Hb. apply (frep_weaken (tight + tight)); [unfold tight, loose; lia|]. by apply fZ_rep. Qed.

(** What a chain of operations stands for. *)
Ltac frep_known := match goal with H : frep ?B ?a _ |- frep ?B' ?a' _ => constr_eq B B'; constr_eq a a'; exact H end.
Ltac freps := repeat first [frep_known | lazymatch goal with
  | |- frep tight (fM _ _) _ => apply fM_rep
  | |- frep tight (fS _) _ => apply fS_rep
  | |- frep loose (fA _ _) _ => apply sum_rep
  | |- frep loose (fZ _ _) _ => apply diff_rep
  | |- frep loose _ _ => apply tight_loose
  end].

Lemma sel_spec a b r : length a = 10%nat → length b = 10%nat → sel25519 a b (Z.b2z r) = if r then (b, a) else (a, b).
Proof. intros La Lb. rewrite sel25519_spec by (done || destruct r; cbn; lia). by destruct r. Qed.

(** C30: The limbs never overflow and stand for the field's numbers: on elements whose limbs
    are below 3 * 1.01 * 2^25, as sums of three products are, the product and the square
    have limbs below 1.01 * 2^25 again and are congruent to the product of the values modulo
    2^255 - 19; sums and differences of such results may be multiplied; the inverse is the
    (p - 2)-th power; and the encoding of an element is its least residue, which decodes to
    the same element. *)
Theorem field25519_bounds (a b : list Z) (u v : Z) (Ha : frep loose a u) (Hb : frep loose b v) :
  frep tight (fM a b) (u * v) ∧ frep tight (fS a) (u * u) ∧
  (∀ c d w x, frep tight c w → frep tight d x → frep (2 * tight) (fA c d) (w + x) ∧ frep (2 * tight) (fZ c d) (w - x)) ∧
  (∀ c w, frep tight c w → frep tight (inv25519 c) (w ^ (2 ^ 255 - 21))) ∧
  pack25519 a = le_bytes 32 (u mod (2 ^ 255 - 19)) ∧ frep tight (unpack25519 (pack25519 a)) u.
Proof.
  split_and!; [by apply fM_rep|by apply fS_rep| |apply inv_rep|by apply pack_spec|].
  - intros c d w x Hc Hd. replace (2 * tight) with (tight + tight) by done. split; [by apply fA_rep|by apply fZ_rep].
  - rewrite (pack_spec a u Ha). destruct (residue_bytes u) as [L V]. pose proof (unpack_rep (le_bytes 32 (u mod p))) as H.
    rewrite take_ge in H by lia. rewrite V in H. pose proof (Z.mod_pos_bound u p ltac:(lia)). rewrite (Z.mod_small (u mod p)) in H by lia.
    apply (frep_cong _ _ (u mod p)); [apply eqp_modp; by rewrite Z.mod_mod|]. apply H; [apply le_bytes_ok|lia].
Qed.
Lemma field25519_bounds_witness :
  frep tight (fM X Y) (val X * val Y) ∧ frep tight (fS X) (val X * val X) ∧
  (∀ c d w x, frep tight c w → frep tight d x → frep (2 * tight) (fA c d) (w + x) ∧ frep (2 * tight) (fZ c d) (w - x)) ∧
  (∀ c w, frep tight c w → frep tight (inv25519 c) (w ^ (2 ^ 255 - 21))) ∧
  pack25519 X = le_bytes 32 (val X mod (2 ^ 255 - 19)) ∧ frep tight (unpack25519 (pack25519 X)) (val X).
Proof.
  apply (field25519_bounds X Y (val X) (val Y)); (split_and!; [done| |done]; intros i; do 10 (destruct i as [|i]; [vm_compute; discriminate|]); destruct i; vm_compute; discriminate).
Defined.
