(* ===== verification/X25519.v ===== *)
(** X25519 as src/src/native.c computes it, and as RFC 7748 defines it.

    The ladder of the code swaps before and after every step, the one of the RFC puts the
    second swap off to the next step; its numbers are residues where the code's are limbs.
    They give the same 32 bytes for every scalar and every coordinate. *)

From S2P Require Import Prelude NativeBase Modp F25519 F25519Ok.
From stdpp Require Import prelude list.
From Stdlib Require Import ZArith Lia Morphisms.
Open Scope Z_scope.

(** * The code *)

(** a, b, c, d of the ladder. *)
Record ladder : Type := mkLadder { l_a : list Z; l_b : list Z; l_c : list Z; l_d : list Z }.

Definition ladder_step (x z : list Z) (st : ladder) (i : nat) : ladder :=
  let r := Z.land (Z.shiftr z.[i / 8] (Z.of_nat (i mod 8))) 1 in
  let (a, b) := sel25519 (l_a st) (l_b st) r in
  let (c, d) := sel25519 (l_c st) (l_d st) r in
  let e := fA a c in
  let a := fZ a c in
  let c := fA b d in
  let b := fZ b d in
  let d := fS e in
  let f := fS a in
  let a := fM c a in
  let c := fM b e in
  let e := fA a c in
  let a := fZ a c in
  let b := fS a in
  let c := fZ d f in
  let a := fM c gf_121665 in
  let a := fA a d in
  let c := fM c a in
  let a := fM d f in
  let d := fM b x in
  let b := fS e in
  let (a, b) := sel25519 a b r in
  let (c, d) := sel25519 c d r in
  mkLadder a b c d.

Definition clamped (n : list Z) : list Z :=
  let z := take 31 n ++ [Z.lor (Z.land n.[31] 127) 64] in
  <[0%nat := Z.land z.[0] 248]> z.

(** The 255 iterations. *)
Definition ladder_run (x z : list Z) : ladder :=
  let b := List.map (λ i, x.[i]) (seq 0 10) in
  foldl (ladder_step x z) (mkLadder gf1 b gf0 gf1) (rev (seq 0 255)).

Definition x25519 (n p : list Z) : list Z :=
  let st := ladder_run (unpack25519 p) (clamped n) in
  let c := inv25519 (l_c st) in
  pack25519 (fM (l_a st) c).

(** * RFC 7748, section 5 *)

#[local] Abbreviation p := (2 ^ 255 - 19).
#[local] Infix "≡" := (eqp p) (at level 70).

Definition addp (x y : Z) : Z := (x + y) mod p.
Definition subp (x y : Z) : Z := (x - y) mod p.
Definition mulp (x y : Z) : Z := (x * y) mod p.

(** decodeScalar25519: the low three bits and the top one cleared, the one below it set. *)
Definition decode_scalar (k : Z) : Z := 8 * (k mod 2 ^ 254 / 8) + 2 ^ 254.
(** decodeUCoordinate: the top bit is not used, and the number need not be reduced. *)
Definition decode_u (u : Z) : Z := u mod 2 ^ 255.

Record rfc_ladder : Type := mkRfc { x_2 : Z; z_2 : Z; x_3 : Z; z_3 : Z; swap : bool }.
Definition cswap (s : bool) (x y : Z) : Z * Z := if s then (y, x) else (x, y).
Definition a24 : Z := 121665.

(** The body of the loop between the swaps. *)
Definition rfc_body (x_1 x_2 z_2 x_3 z_3 : Z) (k_t : bool) : rfc_ladder :=
  let A := addp x_2 z_2 in
  let AA := mulp A A in
  let B := subp x_2 z_2 in
  let BB := mulp B B in
  let E := subp AA BB in
  let C := addp x_3 z_3 in
  let D := subp x_3 z_3 in
  let DA := mulp D A in
  let CB := mulp C B in
  {| x_3 := mulp (addp DA CB) (addp DA CB);
     z_3 := mulp x_1 (mulp (subp DA CB) (subp DA CB));
     x_2 := mulp AA BB;
     z_2 := mulp E (addp AA (mulp a24 E));
     swap := k_t |}.
Definition rfc_step (x_1 k : Z) (st : rfc_ladder) (t : nat) : rfc_ladder :=
  let k_t := Z.testbit k (Z.of_nat t) in
  let s := xorb (swap st) k_t in
  let (x_2, x_3) := cswap s (x_2 st) (x_3 st) in
  let (z_2, z_3) := cswap s (z_2 st) (z_3 st) in
  rfc_body x_1 x_2 z_2 x_3 z_3 k_t.

(** Exponentiation, by the bits of the exponent. *)
Definition powp (x : Z) (e : positive) : Z := Pos.iter_op mulp e x.

Definition rfc_run (k u : Z) : rfc_ladder := foldl (rfc_step u k) (mkRfc 1 0 u 1 false) (rev (seq 0 255)).
Definition rfc_x25519 (k u : Z) : Z :=
  let st := rfc_run k u in
  let (x_2, x_3) := cswap (swap st) (x_2 st) (x_3 st) in
  let (z_2, z_3) := cswap (swap st) (z_2 st) (z_3 st) in
  mulp x_2 (powp z_2 (Z.to_pos (p - 2))).

(** X25519 on strings of bytes. *)
Definition rfc_bytes (k u : list Z) : list Z :=
  le_bytes 32 (rfc_x25519 (decode_scalar (le_val k)) (decode_u (le_val u))).

(** * They agree *)

#[local] Opaque fM fS fA fZ inv25519 pack25519 unpack25519.

Lemma modp_eqp z : z mod p ≡ z.
Proof. apply mod_eqp. lia. Qed.

Lemma addp_eqp x y : addp x y ≡ x + y.
Proof. apply modp_eqp. Qed.
Lemma subp_eqp x y : subp x y ≡ x - y.
Proof. apply modp_eqp. Qed.
Lemma mulp_eqp x y : mulp x y ≡ x * y.
Proof. apply modp_eqp. Qed.
#[local] Instance addp_proper : Proper (eqp p ==> eqp p ==> eqp p) addp.
Proof. intros x x' Ex y y' Ey. by rewrite !addp_eqp, Ex, Ey. Qed.
#[local] Instance subp_proper : Proper (eqp p ==> eqp p ==> eqp p) subp.
Proof. intros x x' Ex y y' Ey. by rewrite !subp_eqp, Ex, Ey. Qed.
#[local] Instance mulp_proper : Proper (eqp p ==> eqp p ==> eqp p) mulp.
Proof. intros x x' Ex y y' Ey. by rewrite !mulp_eqp, Ex, Ey. Qed.

(** ** The scalar *)

Lemma clamp_byte y : byte_ok y → Z.lor (Z.land y 127) 64 = y mod 64 + 64 ∧ Z.land y 248 = 8 * (y / 8).
Proof.
  assert (forallb (λ i, let y := Z.of_nat i in (Z.lor (Z.land y 127) 64 =? y mod 64 + 64) && (Z.land y 248 =? 8 * (y / 8))) (seq 0 256) = true) as H by (vm_compute; reflexivity).
  rewrite forallb_forall in H. intros Hy. unfold byte_ok in Hy. specialize (H (Z.to_nat y) ltac:(apply in_seq; lia)). cbn zeta in H. rewrite Z2Nat.id in H by lia.
  by rewrite andb_true_iff, !Z.eqb_eq in H.
Qed.
Lemma clamped_spec n : bytes_ok n → length n = 32%nat →
  bytes_ok (clamped n) ∧ length (clamped n) = 32%nat ∧ le_val (clamped n) = decode_scalar (le_val n).
Proof.
  intros Hn L. destruct n as [|x n]; [done|]. destruct n as [|y t _] using rev_ind; [done|]. cbn [length] in L. rewrite length_app in L. cbn [length] in L.
  assert (length t = 30%nat) as Lt by lia. apply Forall_cons in Hn as [Hx Hn]. apply Forall_app in Hn as [Ht [Hy _]%Forall_cons].
  unfold clamped. change ((x :: t ++ [y]).[31]) with ((t ++ [y]).[30]). rewrite (app_nth2 t) by lia. rewrite Lt, Nat.sub_diag. cbn [nth].
  change (take 31 (x :: t ++ [y])) with (x :: take 30 (t ++ [y])). rewrite take_app_length' by done. cbn [app nth insert list_insert].
  destruct (clamp_byte y Hy) as [-> _], (clamp_byte x Hx) as [_ ->].
  unfold byte_ok in Hx, Hy. pose proof (Z.div_mod x 8 ltac:(lia)). pose proof (Z.mod_pos_bound x 8 ltac:(lia)). pose proof (Z.mod_pos_bound y 64 ltac:(lia)). split_and!.
  - apply Forall_cons_2; [unfold byte_ok; lia|]. apply Forall_app; split; [done|]. constructor; [unfold byte_ok; lia|constructor].
  - cbn [length]. rewrite length_app, Lt. done.
  - cbn [le_val]. rewrite !le_val_app, Lt. cbn [le_val]. unfold decode_scalar. pose proof (le_val_range t Ht) as Rt. rewrite Lt in Rt. change (256 ^ Z.of_nat 30) with (2 ^ 240) in *.
    pose proof (Z.div_mod y 64 ltac:(lia)). set (T := le_val t) in *. clearbody T.
    assert ((x + 256 * (T + 2 ^ 240 * (y + 256 * 0))) mod 2 ^ 254 = x + 256 * T + 2 ^ 248 * (y mod 64)) as ->.
    { symmetry. apply (Zmod_unique _ _ (y / 64)); lia. }
    assert ((x + 256 * T + 2 ^ 248 * (y mod 64)) / 8 = x / 8 + 32 * T + 2 ^ 245 * (y mod 64)) as ->; [|lia].
    symmetry. apply (Zdiv_unique _ _ _ (x mod 8)); lia.
Qed.

(** ** One step *)

Definition lrep (st : ladder) (x2 x3 z2 z3 : Z) : Prop :=
  frep tight (l_a st) x2 ∧ frep tight (l_b st) x3 ∧ frep tight (l_c st) z2 ∧ frep tight (l_d st) z3.
(** The code's pairs are the RFC's with the pending swap done. *)
Definition agree (st : ladder) (r : rfc_ladder) : Prop :=
  if swap r then lrep st (x_3 r) (x_2 r) (z_3 r) (z_2 r) else lrep st (x_2 r) (x_3 r) (z_2 r) (z_3 r).

Lemma gf_121665_rep : frep tight gf_121665 121665.
Proof. by apply const_rep. Qed.

(** Equality of residues, by the ring of integers. *)
Ltac residues := rewrite ?addp_eqp, ?subp_eqp, ?mulp_eqp; apply eq_eqp; ring.

(** The arithmetic of a step, the swaps apart. *)
Lemma body_rep x u a b c d x2 x3 z2 z3 k : frep tight x u → frep tight a x2 → frep tight b x3 → frep tight c z2 → frep tight d z3 →
  let R := rfc_body u x2 z2 x3 z3 k in
  frep tight (fM (fS (fA a c)) (fS (fZ a c))) (x_2 R) ∧
  frep tight (fS (fA (fM (fA b d) (fZ a c)) (fM (fZ b d) (fA a c)))) (x_3 R) ∧
  frep tight (fM (fZ (fS (fA a c)) (fS (fZ a c))) (fA (fM (fZ (fS (fA a c)) (fS (fZ a c))) gf_121665) (fS (fA a c)))) (z_2 R) ∧
  frep tight (fM (fS (fZ (fM (fA b d) (fZ a c)) (fM (fZ b d) (fA a c)))) x) (z_3 R).
Proof.
  intros Hx Ra Rb Rc Rd. pose proof gf_121665_rep. cbn [rfc_body x_2 x_3 z_2 z_3]. unfold a24. split_and!; (eapply frep_cong; [|freps]); residues.
Qed.

Lemma ladder_step_agree x u z st r i : frep tight x u → bytes_ok z → agree st r →
  agree (ladder_step x z st i) (rfc_step u (le_val z) r i).
Proof.
  intros Hx Hz Ha. unfold ladder_step. rewrite scalar_bit by done. unfold rfc_step. set (k := Z.testbit (le_val z) (Z.of_nat i)). clearbody k.
  assert (∃ a b c d, (if k then (l_b st, l_a st) else (l_a st, l_b st)) = (a, b) ∧ (if k then (l_d st, l_c st) else (l_c st, l_d st)) = (c, d) ∧
    let (x2, x3) := cswap (xorb (swap r) k) (x_2 r) (x_3 r) in let (z2, z3) := cswap (xorb (swap r) k) (z_2 r) (z_3 r) in
    frep tight a x2 ∧ frep tight b x3 ∧ frep tight c z2 ∧ frep tight d z3) as (a & b & c & d & E1 & E2 & H).
  { unfold agree, lrep in Ha. destruct (swap r), k; cbn [xorb cswap]; do 4 eexists; (split; [reflexivity|]; split; [reflexivity|]); tauto. }
  assert (length (l_a st) = 10%nat ∧ length (l_b st) = 10%nat ∧ length (l_c st) = 10%nat ∧ length (l_d st) = 10%nat) as (L1 & L2 & L3 & L4).
  { unfold agree, lrep, frep in Ha. destruct (swap r); tauto. }
  rewrite !sel_spec by done. rewrite E1, E2. clear E1 E2 Ha. destruct (cswap _ (x_2 r) (x_3 r)) as [x2 x3], (cswap _ (z_2 r) (z_3 r)) as [z2 z3].
  destruct H as (Ra & Rb & Rc & Rd). destruct (body_rep x u a b c d x2 x3 z2 z3 k Hx Ra Rb Rc Rd) as (R1 & R2 & R3 & R4). cbn zeta.
  pose proof (proj1 R1). pose proof (proj1 R2). pose proof (proj1 R3). pose proof (proj1 R4).
  rewrite !sel_spec by assumption. unfold agree, lrep. change (swap (rfc_body u x2 z2 x3 z3 k)) with k. by destruct k.
Qed.

(** ** The whole ladder *)

Lemma powp_eqp x e : powp x e ≡ x ^ Zpos e.
Proof.
  unfold powp. induction e as [|e IH] using Pos.peano_ind; [by rewrite Z.pow_1_r|].
  rewrite Pos.iter_op_succ by (intros; unfold mulp; rewrite Zmult_mod_idemp_l, Zmult_mod_idemp_r; f_equal; ring).
  rewrite Pos2Z.inj_succ, Z.pow_succ_r by lia. by rewrite mulp_eqp, IH.
Qed.

Lemma powp_to_pos x e : 0 < e → powp x (Z.to_pos e) ≡ x ^ e.
Proof. intros He. by rewrite powp_eqp, Z2Pos.id. Qed.

Lemma ladder_agree x u z l st r : frep tight x u → bytes_ok z → agree st r →
  agree (foldl (ladder_step x z) st l) (foldl (rfc_step u (le_val z)) r l).
Proof.
  intros Hx Hz. revert st r. induction l as [|i l IH]; intros st r Ha; [done|]. cbn [foldl]. apply IH. by apply ladder_step_agree.
Qed.

Lemma answer_spec a c X Z_ : frep tight a X → frep tight c Z_ → pack25519 (fM a (inv25519 c)) = le_bytes 32 (mulp X (powp Z_ (Z.to_pos (p - 2)))).
Proof.
  intros HX HZ. pose proof (fM_rep _ _ _ _ (tight_loose _ _ HX) (tight_loose _ _ (inv_rep c Z_ HZ))) as H.
  rewrite (pack_spec _ _ (tight_loose _ _ H)). f_equal. apply eqp_modp. apply eqp_mul; [reflexivity|]. symmetry. apply powp_to_pos. reflexivity.
Qed.

Lemma run_agree x u z : frep tight x u → bytes_ok z → agree (ladder_run x z) (rfc_run (le_val z) u).
Proof.
  intros Hx Hz. unfold ladder_run, rfc_run. rewrite <-(map_nth_seq x 10) by apply Hx. apply ladder_agree; [done|done|].
  split_and!; [apply gf1_rep|done|apply gf0_rep|apply gf1_rep].
Qed.

Lemma x25519_spec n q : bytes_ok n → length n = 32%nat → bytes_ok q → length q = 32%nat → x25519 n q = rfc_bytes n q.
Proof.
  intros Hn Ln Hq Lq. destruct (clamped_spec n Hn Ln) as (Bz & Lz & Ez).
  pose proof (unpack_rep q ltac:(by apply Forall_take) ltac:(lia)) as Hx. rewrite take_ge in Hx by lia.
  pose proof (run_agree _ _ _ Hx Bz) as Ha. rewrite Ez in Ha. unfold x25519, rfc_bytes, rfc_x25519, decode_u.
  generalize dependent (ladder_run (unpack25519 q) (clamped n)). generalize (rfc_run (decode_scalar (le_val n)) (le_val q mod 2 ^ 255)). intros r st Ha.
  unfold agree, lrep in Ha. destruct (swap r); destruct Ha as (H1 & H2 & H3 & H4); cbn [cswap]; by apply answer_spec.
Qed.

(** C29: The key exchange is RFC 7748's: for every scalar and every u-coordinate of 32 bytes,
    reduced or not, the ladder of the code over limbs gives the bytes of the standard's
    function over residues. *)
Theorem x25519_rfc7748 (n q : list Z) (Hn : bytes_ok n) (Ln : length n = 32%nat) (Hq : bytes_ok q) (Lq : length q = 32%nat) :
  x25519 n q = rfc_bytes n q.
Proof. by apply x25519_spec. Qed.
Lemma x25519_rfc7748_witness : x25519 (repeat 7 32) (9 :: repeat 0 31) = rfc_bytes (repeat 7 32) (9 :: repeat 0 31).
Proof. apply (x25519_rfc7748 (repeat 7 32) (9 :: repeat 0 31)); solve [reflexivity|by apply (bool_decide_unpack _)]. Defined.
