(* ===== verification/ModL.v ===== *)
(** Scalars of Ed25519: modL and reduce of src/src/native.c.

    A number of 64 signed limbs of eight bits is reduced modulo the order of the base point.
    Three passes: limbs 63 to 32 are cleared from the top by subtracting multiples of
    16 L, whose top byte is the limb itself; the multiple of L that the top limb shows is
    subtracted; and L is added back if that was one too many.  The theorem: no 64-bit
    operation overflows and the result is the least residue. *)

From S2P Require Import Prelude NativeBase Modp F25519.
From stdpp Require Import prelude list.
From Stdlib Require Import ZArith Lia.
Open Scope Z_scope.

(** * The code *)

Definition Lorder : list Z :=
  [0xed; 0xd3; 0xf5; 0x5c; 0x1a; 0x63; 0x12; 0x58; 0xd6; 0x9c; 0xf7; 0xa2; 0xde; 0xf9; 0xde; 0x14] ++ repeat 0 15 ++ [0x10].

(** The loop over j that clears limb i: x and carry. *)
Definition clear_limb (i : nat) (st : list Z * Z) (j : nat) : list Z * Z :=
  let (x, carry) := st in
  let x := <[j := i64 (x.[j] + i64 (carry - i64 (i64 (16 * x.[i]) * Lorder.[j - (i - 32)])))]> x in
  let carry := Z.shiftr (i64 (x.[j] + 128)) 8 in
  (<[j := i64 (x.[j] - i64 (Z.shiftl carry 8))]> x, carry).
Definition clear_row (x : list Z) (i : nat) : list Z :=
  let (x, carry) := foldl (clear_limb i) (x, 0) (seq (i - 32) 20) in
  let j := (i - 12)%nat in
  let x := <[j := i64 (x.[j] + carry)]> x in
  <[i := 0]> x.

Definition take_off (st : list Z * Z) (j : nat) : list Z * Z :=
  let (x, carry) := st in
  let x := <[j := i64 (x.[j] + i64 (carry - i64 (Z.shiftr x.[31] 4 * Lorder.[j])))]> x in
  let carry := Z.shiftr x.[j] 8 in
  (<[j := Z.land x.[j] 255]> x, carry).
Definition add_back (carry : Z) (x : list Z) (j : nat) : list Z :=
  <[j := i64 (x.[j] - i64 (carry * Lorder.[j]))]> x.
Definition out_byte (st : list Z * list Z) (i : nat) : list Z * list Z :=
  let (x, r) := st in
  let x := <[(i + 1)%nat := i64 (x.[i + 1] + Z.shiftr x.[i] 8)]> x in
  (x, r ++ [u8 (Z.land x.[i] 255)]).

Definition modL (x : list Z) : list Z :=
  let x := foldl clear_row x (rev (seq 32 32)) in
  let (x, carry) := foldl take_off (x, 0) (seq 0 32) in
  let x := foldl (add_back carry) x (seq 0 32) in
  snd (foldl out_byte (x, []) (seq 0 32)).

(** The bytes of r: the 32 modL writes, and zeros. *)
Definition reduce (r : list Z) : list Z :=
  let x := List.map (λ i, r.[i]) (seq 0 64) in
  modL x ++ repeat 0 32.

(** * The order *)

Definition L : Z := 2 ^ 252 + 27742317777372353535851937790883648493.
Lemma Lorder_val : le_val Lorder = L.
Proof. by vm_compute. Qed.

(** * Values and bounds *)

Lemma le_val_insert t : ∀ k x, (k < length t)%nat → le_val (<[k := x]> t) = le_val t + (x - t.[k]) * 256 ^ Z.of_nat k.
Proof.
  induction t as [|y t IH]; intros k x Hk; cbn [length] in Hk; [lia|]. destruct k as [|k]; cbn [insert list_insert le_val nth].
  - change (256 ^ Z.of_nat 0) with 1. ring.
  - rewrite IH, Nat2Z.inj_succ, Z.pow_succ_r by lia. ring.
Qed.
Lemma le_val_bounded x : ∀ bs, bounded x bs → Z.abs (le_val x) <= le_val bs.
Proof.
  induction x as [|y x IH]; intros bs [L B]; destruct bs as [|b bs]; try done. cbn [le_val]. pose proof (B 0%nat) as B0. cbn in B0.
  assert (bounded x bs) as HB by (split; [by injection L|intros i; exact (B (S i))]). specialize (IH bs HB). lia.
Qed.

Lemma lookup_at (l : list Z) k : (k < length l)%nat → l !! k = Some l.[k].
Proof. intros Hk. destruct (nth_lookup_or_length l k 0) as [E|E]; [done|lia]. Qed.

(** ** Clearing a limb *)

Definition step_bound (i : nat) (bs : list Z) (c : Z) (j : nat) : Z := bs.[j] + c + 16 * bs.[i] * Lorder.[j - (i - 32)].
Fixpoint limbs_bound (i : nat) (js : list nat) (bs : list Z) (c : Z) : option (list Z * Z) :=
  match js with
  | [] => Some (bs, c)
  | j :: js =>
      let b := step_bound i bs c j in
      if (b <? 2 ^ 62) && (0 <=? bs.[j]) && (0 <=? c) && (0 <=? bs.[i]) && (bs.[i] <? 2 ^ 40) && (j <? i)%nat && (i <? length bs)%nat then limbs_bound i js (<[j := 128]> bs) ((b + 128) / 256) else None
  end.
(** What a row takes off, below the top byte. *)
Definition row_sum (i : nat) (js : list nat) : Z := foldr (λ j s, Lorder.[j - (i - 32)] * 256 ^ Z.of_nat j + s) 0 js.

Lemma Lorder_range k : 0 <= Lorder.[k] < 256.
Proof.
  destruct (Nat.lt_ge_cases k 32) as [Hk|Hk]; [|rewrite nth_overflow by (cbn; lia); lia].
  assert (bytes_ok Lorder) as B by (by apply (bool_decide_unpack _)). rewrite Forall_forall in B. apply B, list_elem_of_In, nth_In. cbn. lia.
Qed.

Lemma clear_limb_spec i x bs c cb j (b := step_bound i bs cb j) : bounded x bs → Z.abs c <= cb → b < 2 ^ 62 → 0 <= bs.[j] → 0 <= bs.[i] < 2 ^ 40 → (j < i)%nat → (i < length bs)%nat →
  ∃ x' c', clear_limb i (x, c) j = (x', c') ∧ bounded x' (<[j := 128]> bs) ∧ Z.abs c' <= (b + 128) / 256 ∧ x'.[i] = x.[i] ∧
    le_val x' + c' * 256 ^ Z.of_nat (S j) = le_val x + c * 256 ^ Z.of_nat j - 16 * x.[i] * (Lorder.[j - (i - 32)] * 256 ^ Z.of_nat j).
Proof.
  intros HB Hc Hb Hj Hi Hji Hil. pose proof HB as [Lx B]. pose proof (B i) as Bi. pose proof (B j) as Bj. pose proof (Lorder_range (j - (i - 32))) as RL.
  unfold clear_limb. subst b. unfold step_bound in *. set (l := Lorder.[j - (i - 32)]) in *. assert (Z.abs (16 * x.[i] * l) <= 16 * bs.[i] * l) as Hm by (rewrite Z.abs_mul; apply Z.mul_le_mono_nonneg; lia).
  rewrite (i64_id (16 * x.[i])), (i64_id (16 * x.[i] * l)), (i64_id (c - _)), (i64_id (x.[j] + _)) by lia. set (y := x.[j] + (c - 16 * x.[i] * l)).
  assert (Z.abs y <= bs.[j] + cb + 16 * bs.[i] * l) as Hy by lia. rewrite !nth_insert, Nat.eqb_refl, list_insert_insert_eq by (rewrite ?length_insert; lia).
  rewrite (i64_id (y + 128)), Z.shiftr_div_pow2, Z.shiftl_mul_pow2 by lia. change (2 ^ 8) with 256.
  pose proof (Z.div_mod (y + 128) 256 ltac:(lia)) as E. pose proof (Z.mod_pos_bound (y + 128) 256 ltac:(lia)). set (c' := (y + 128) / 256) in *.
  rewrite (i64_id (c' * 256)), i64_id by lia. do 2 eexists. split; [reflexivity|]. split_and!.
  - apply bounded_insert; [done|lia|lia].
  - apply Z.div_le_lower_bound; lia.
  - rewrite nth_insert by lia. by destruct (Nat.eqb_spec i j); [lia|].
  - rewrite le_val_insert, Nat2Z.inj_succ, Z.pow_succ_r by lia. unfold y. lia.
Qed.

Lemma clear_limbs_spec i js : ∀ x bs c cb bs' cb' j, js = seq j (length js) → bounded x bs → Z.abs c <= cb → limbs_bound i js bs cb = Some (bs', cb') →
  ∃ x' c', foldl (clear_limb i) (x, c) js = (x', c') ∧ bounded x' bs' ∧ Z.abs c' <= cb' ∧ x'.[i] = x.[i] ∧
    le_val x' + c' * 256 ^ Z.of_nat (j + length js) = le_val x + c * 256 ^ Z.of_nat j - 16 * x.[i] * row_sum i js.
Proof.
  induction js as [|k js IH]; intros x bs c cb bs' cb' j Ej HB Hc H; cbn [limbs_bound foldl length row_sum foldr seq] in *.
  - injection H as <- <-. exists x, c. rewrite Nat.add_0_r. split_and!; try done. lia.
  - injection Ej as -> Ejs. match type of H with (if ?b then _ else _) = _ => destruct b eqn:Ok; [|done] end. rewrite !andb_true_iff, !Z.ltb_lt, !Z.leb_le, !Nat.ltb_lt in Ok.
    destruct Ok as [[[[[[O1 O2] O3] O4] O5] O6] O7]. destruct (clear_limb_spec i x bs c cb j HB Hc O1 O2 ltac:(lia) O6 O7) as (x1 & c1 & -> & HB1 & Hc1 & E1 & V1).
    destruct (IH x1 _ c1 _ bs' cb' (S j) Ejs HB1 Hc1 H) as (x' & c' & -> & HB' & Hc' & E' & V'). exists x', c'. split_and!; try done; [congruence|].
    replace (j + S (length js))%nat with (S j + length js)%nat by lia. fold (row_sum i js) in V' |- *. rewrite E1 in V'. lia.
Qed.

Definition row_bound (bs : list Z) (i : nat) : option (list Z) :=
  match limbs_bound i (seq (i - 32) 20) bs 0 with
  | Some (bs', c) => if (bs'.[i - 12] + c <? 2 ^ 62) && (i <? length bs')%nat && (32 <=? i)%nat && (row_sum i (seq (i - 32) 20) =? 256 ^ Z.of_nat (i - 32) * (L - 2 ^ 252)) then
      Some (<[i := 0]> (<[(i - 12)%nat := bs'.[i - 12] + c]> bs')) else None
  | None => None
  end.
Lemma clear_row_spec x bs bs' i : bounded x bs → row_bound bs i = Some bs' →
  bounded (clear_row x i) bs' ∧ le_val (clear_row x i) = le_val x - 16 * x.[i] * 256 ^ Z.of_nat (i - 32) * L.
Proof.
  intros HB H. unfold row_bound in H. destruct (limbs_bound i (seq (i - 32) 20) bs 0) as [[bs1 cb]|] eqn:E; [|done].
  match type of H with (if ?b then _ else _) = _ => destruct b eqn:Ok; [|done] end. injection H as <-. rewrite !andb_true_iff, Z.ltb_lt, Z.eqb_eq, Nat.ltb_lt, Nat.leb_le in Ok. destruct Ok as [[[O1 O2] O3] O4].
  destruct (clear_limbs_spec i (seq (i - 32) 20) x bs 0 0 bs1 cb (i - 32)%nat ltac:(by rewrite length_seq) HB ltac:(lia) E) as (x1 & c1 & Ef & HB1 & Hc1 & E1 & V1).
  unfold clear_row. rewrite Ef. pose proof HB1 as [L1 B1]. pose proof (B1 (i - 12)%nat). rewrite i64_id by lia. split.
  - apply bounded_insert; [apply bounded_insert; [done|lia|lia]|rewrite length_insert; lia|lia].
  - rewrite length_seq, O4 in V1. replace (i - 32 + 20)%nat with (i - 12)%nat in V1 by lia.
    rewrite le_val_insert by (rewrite length_insert; lia). rewrite le_val_insert, nth_insert by lia. destruct (Nat.eqb_spec i (i - 12)); [lia|]. rewrite E1.
    replace (256 ^ Z.of_nat i) with (16 * 256 ^ Z.of_nat (i - 32) * 2 ^ 252). 2:{ replace (Z.of_nat i) with (Z.of_nat (i - 32) + 32) by lia. rewrite Z.pow_add_r by lia. change (256 ^ 32) with (16 * 2 ^ 252). ring. }
    rewrite Z.mul_0_l, Z.add_0_r in V1. set (P := 256 ^ Z.of_nat (i - 32)) in *. set (Q := 256 ^ Z.of_nat (i - 12)) in *. clearbody P Q. lia.
Qed.

Fixpoint rows_bound (rows : list nat) (bs : list Z) : option (list Z) :=
  match rows with
  | [] => Some bs
  | i :: rows => match row_bound bs i with Some bs' => rows_bound rows bs' | None => None end
  end.
Lemma clear_rows_spec rows : ∀ x bs bs', bounded x bs → rows_bound rows bs = Some bs' → bounded (foldl clear_row x rows) bs' ∧ eqp L (le_val (foldl clear_row x rows)) (le_val x).
Proof.
  induction rows as [|i rows IH]; intros x bs bs' HB H; cbn [rows_bound foldl] in *; [by injection H as <-|].
  destruct (row_bound bs i) as [bs1|] eqn:E; [|done]. destruct (clear_row_spec x bs bs1 i HB E) as [HB1 V1]. destruct (IH _ _ _ HB1 H) as [HB' V']. split; [done|].
  rewrite V', V1. exists (- (16 * x.[i] * 256 ^ Z.of_nat (i - 32))). lia.
Qed.

(** The limbs a caller may pass, and what the first pass leaves of them. *)
Definition limb_max : Z := 2 ^ 22.
Definition cleared : list Z := repeat 129 32 ++ repeat 0 32.
Lemma rows_bounded x : bounded x (repeat limb_max 64) → let y := foldl clear_row x (rev (seq 32 32)) in bounded y cleared ∧ eqp L (le_val y) (le_val x).
Proof.
  intros HB. assert (∃ bs, rows_bound (rev (seq 32 32)) (repeat limb_max 64) = Some bs ∧ length bs = 64%nat ∧ forallb (λ i, bs.[i] <=? cleared.[i]) (seq 0 64) = true) as (bs & E & Lb & Hb).
  { eexists. split; [vm_compute; reflexivity|]. split; vm_compute; reflexivity. }
  destruct (clear_rows_spec _ _ _ _ HB E) as [HB' V]. split; [|done]. apply (bounded_weaken _ bs); [done|by rewrite Lb|by rewrite Lb].
Qed.

(** ** Taking off the multiple of L *)

Definition Lval (n : nat) : Z := le_val (take n Lorder).
Lemma Lval_S n : (n < 32)%nat → Lval (S n) = Lval n + Lorder.[n] * 256 ^ Z.of_nat n.
Proof.
  intros Hn. unfold Lval. rewrite (take_S_r _ _ Lorder.[n]), le_val_app; [|apply lookup_at; cbn; lia]. rewrite length_take_le by (cbn; lia). cbn [le_val]. lia.
Qed.

Lemma take_off_spec x n : bounded x cleared → (n <= 32)%nat → ∃ y c, foldl take_off (x, 0) (seq 0 n) = (y, c) ∧ length y = 64%nat ∧ Z.abs c <= 10 ∧
  (∀ j, (j < n)%nat → 0 <= y.[j] < 256) ∧ (∀ j, (n <= j)%nat → y.[j] = x.[j]) ∧
  le_val y + c * 256 ^ Z.of_nat n = le_val x - Z.shiftr x.[31] 4 * Lval n.
Proof.
  intros [Lx B] . assert (length x = 64%nat) as Lx' by (rewrite Lx; done). assert (∀ j, Z.abs x.[j] <= 129) as B'.
  { intros j. pose proof (B j) as Bj. unfold cleared in Bj. destruct (Nat.lt_ge_cases j 32); [rewrite app_nth1, nth_repeat_lt in Bj by (rewrite ?repeat_length; lia); lia|].
    rewrite app_nth2 in Bj by (rewrite repeat_length; lia). rewrite nth_repeat in Bj. lia. }
  assert (Z.abs (Z.shiftr x.[31] 4) <= 9) as Hq by (rewrite Z.shiftr_div_pow2 by lia; change (2 ^ 4) with 16; pose proof (B' 31%nat); pose proof (Z.div_mod x.[31] 16 ltac:(lia)); pose proof (Z.mod_pos_bound x.[31] 16 ltac:(lia)); lia).
  induction n as [|n IH]; intros Hn.
  - exists x, 0. change (Lval 0) with 0. split_and!; try done; lia.
  - destruct (IH ltac:(lia)) as (y & c & E & Ly & Hc & Hlow & Hhigh & V). rewrite seq_S, foldl_app, E. cbn [foldl Nat.add]. unfold take_off.
    rewrite (Hhigh 31%nat), (Hhigh n) by lia. set (q := Z.shiftr x.[31] 4) in *. pose proof (B' n) as Bn. pose proof (Lorder_range n) as RL. assert (Z.abs (q * Lorder.[n]) <= 9 * 255) as Hm by nia.
    rewrite (i64_id (q * _)), (i64_id (c - _)), (i64_id (x.[n] + _)) by lia. set (z := x.[n] + (c - q * Lorder.[n])). rewrite !nth_insert, Nat.eqb_refl, list_insert_insert_eq by (rewrite ?length_insert; lia).
    change 255 with (Z.ones 8). rewrite Z.land_ones, Z.shiftr_div_pow2 by lia. change (2 ^ 8) with 256.
    pose proof (Z.div_mod z 256 ltac:(lia)) as Ez. pose proof (Z.mod_pos_bound z 256 ltac:(lia)). do 2 eexists. split; [reflexivity|]. split_and!.
    + by rewrite length_insert.
    + lia.
    + intros j Hj. rewrite nth_insert by lia. destruct (Nat.eqb_spec j n); [lia|]. apply Hlow. lia.
    + intros j Hj. rewrite nth_insert by lia. destruct (Nat.eqb_spec j n); [lia|]. apply Hhigh. lia.
    + rewrite le_val_insert, Lval_S, Nat2Z.inj_succ, Z.pow_succ_r, (Hhigh n) by lia. unfold z in *. set (P := 256 ^ Z.of_nat n) in *. clearbody P. nia.
Qed.

Lemma add_back_spec c x n : length x = 64%nat → Z.abs c <= 10 → (∀ j, (j < 32)%nat → 0 <= x.[j] < 256) → (n <= 32)%nat →
  let y := foldl (add_back c) x (seq 0 n) in length y = 64%nat ∧ (∀ j, (j < n)%nat → Z.abs y.[j] <= 3000) ∧ (∀ j, (n <= j)%nat → y.[j] = x.[j]) ∧ le_val y = le_val x - c * Lval n.
Proof.
  intros Lx Hc Hx. induction n as [|n IH]; intros Hn; [change (Lval 0) with 0; cbn [foldl seq]; split_and!; try done; lia|].
  destruct (IH ltac:(lia)) as (Ly & Hlow & Hhigh & V). rewrite seq_S, foldl_app. cbn [foldl Nat.add]. set (y := foldl _ x _) in *. clearbody y. unfold add_back.
  rewrite (Hhigh n) by lia. pose proof (Hx n ltac:(lia)). pose proof (Lorder_range n) as RL. assert (Z.abs (c * Lorder.[n]) <= 10 * 255) by nia. rewrite (i64_id (c * _)), i64_id by lia. split_and!.
  - by rewrite length_insert.
  - intros j Hj. rewrite nth_insert by lia. destruct (Nat.eqb_spec j n); [lia|]. apply Hlow. lia.
  - intros j Hj. rewrite nth_insert by lia. destruct (Nat.eqb_spec j n); [lia|]. apply Hhigh. lia.
  - rewrite le_val_insert, Lval_S, (Hhigh n) by lia. lia.
Qed.

(** ** The bytes *)

Lemma out_byte_spec x n : length x = 64%nat → (∀ j, Z.abs x.[j] <= 3000) → (n <= 32)%nat → ∃ y, foldl out_byte (x, []) (seq 0 n) = (y, le_bytes n (le_val x)) ∧ length y = 64%nat ∧
  Z.abs y.[n] <= 4000 ∧ (∀ j, (n < j)%nat → y.[j] = x.[j]) ∧ le_val (drop n y) = le_val x / 256 ^ Z.of_nat n.
Proof.
  intros Lx Hx. induction n as [|n IH]; intros Hn.
  - exists x. pose proof (Hx 0%nat). change (256 ^ Z.of_nat 0) with 1. rewrite Z.div_1_r. split_and!; try done. lia.
  - destruct (IH ltac:(lia)) as (y & E & Ly & Hc & Hhigh & V). rewrite seq_S, foldl_app, E. cbn [foldl Nat.add]. unfold out_byte. pose proof (Hx (n + 1)%nat) as Hx1.
    rewrite (Hhigh (n + 1)%nat), Z.shiftr_div_pow2 by lia. change (2 ^ 8) with 256. pose proof (Z.div_mod y.[n] 256 ltac:(lia)) as Ed. pose proof (Z.mod_pos_bound y.[n] 256 ltac:(lia)). rewrite i64_id by lia.
    rewrite nth_insert by lia. destruct (Nat.eqb_spec n (n + 1)); [lia|]. eexists. rewrite (drop_S y y.[n] n) in V by (apply lookup_at; lia). cbn [le_val] in V.
    split; [f_equal|split_and!].
    + replace (S n) with (n + 1)%nat by lia. rewrite le_bytes_app. cbn [le_bytes]. do 2 f_equal. change 255 with (Z.ones 8). rewrite Z.land_ones by lia. change (2 ^ 8) with 256. unfold u8, wrap. rewrite Z.mod_mod by lia. rewrite <-V. rewrite Z.mul_comm. by rewrite Z.mod_add by lia.
    + by rewrite length_insert.
    + replace (S n) with (n + 1)%nat by lia. rewrite nth_insert, Nat.eqb_refl by lia. lia.
    + intros j Hj. rewrite nth_insert by lia. destruct (Nat.eqb_spec j (n + 1)); [lia|]. apply Hhigh. lia.
    + rewrite Nat2Z.inj_succ, Z.pow_succ_r, Z.mul_comm, <-Z.div_div, <-V by lia. replace (n + 1)%nat with (S n) by lia. 
      rewrite drop_insert_ge by lia. rewrite Nat.sub_diag, le_val_insert by (rewrite length_drop; lia). rewrite nth_skipn, Nat.add_0_r. change (256 ^ Z.of_nat 0) with 1. rewrite (Hhigh (S n)) by lia.
      rewrite (Z.mul_comm 256), Z.div_add by lia. lia.
Qed.

(** * The result *)

Lemma le_val_nonneg x : (∀ j, 0 <= x.[j]) → 0 <= le_val x.
Proof. induction x as [|y x IH]; intros H; [done|]. cbn [le_val]. pose proof (H 0%nat) as H0. cbn in H0. specialize (IH (λ j, H (S j))). lia. Qed.

(** What the top limb shows of the whole. *)
Lemma top_shows x : bounded x cleared → - L < le_val x - Z.shiftr x.[31] 4 * L < L.
Proof.
  intros HB. pose proof HB as [Lx B]. assert (length x = 64%nat) as Lx' by (rewrite Lx; done). pose proof (B 31%nat) as B31. change (cleared.[31]) with 129 in B31.
  pose proof (le_val_bounded _ _ (bounded_insert x cleared 31 0 0 HB ltac:(lia) ltac:(lia))) as R. rewrite le_val_insert in R by lia. change (256 ^ Z.of_nat 31) with (2 ^ 248) in R.
  assert (le_val (<[31%nat := 0]> cleared) < 130 * 2 ^ 240) as Rc by (vm_compute; reflexivity). rewrite Z.shiftr_div_pow2 by lia. change (2 ^ 4) with 16.
  pose proof (Z.div_mod x.[31] 16 ltac:(lia)). pose proof (Z.mod_pos_bound x.[31] 16 ltac:(lia)). set (q := x.[31] / 16) in *. set (m := x.[31] mod 16) in *. clearbody q m. unfold L.
  assert (-9 <= q <= 8) by lia. lia.
Qed.

(** What the last two passes make of limbs and a carry: c tells the sign. *)
Lemma residue_of V V2 q c : - L < V - q * L < L → 0 <= V2 < 2 ^ 256 → V2 + c * 2 ^ 256 = V - q * L →
  le_bytes 32 (V2 - c * L) = le_bytes 32 (V mod L).
Proof.
  intros T R2 E2. assert (0 < L < 2 ^ 253) as RL by (unfold L; lia). assert (c = 0 ∨ c = -1) as Hc by lia.
  assert (V mod L = V - (q + c) * L) as -> by (symmetry; apply (Zmod_unique _ _ (q + c)); [destruct Hc; subst c; lia|ring]).
  rewrite <-(le_bytes_mod 32 32 (V2 - c * L)) by done. f_equal. symmetry. apply (Zmod_unique _ _ (- c)); [destruct Hc; subst c; lia|].
  change (256 ^ Z.of_nat 32) with (2 ^ 256). lia.
Qed.

Definition low_bytes : list Z := repeat 255 32 ++ repeat 0 32.
Lemma low_range x : length x = 64%nat → (∀ j, (j < 32)%nat → 0 <= x.[j] < 256) → (∀ j, (32 <= j)%nat → x.[j] = 0) → 0 <= le_val x < 2 ^ 256.
Proof.
  intros Lx Hlow Hhigh. assert (∀ j, 0 <= x.[j]) as P by (intros j; destruct (Nat.lt_ge_cases j 32); [by apply Hlow|rewrite Hhigh by done; lia]). split; [by apply le_val_nonneg|].
  assert (bounded x low_bytes) as B.
  { split; [by rewrite Lx|]. intros j. unfold low_bytes. destruct (Nat.lt_ge_cases j 32) as [Hj|Hj]; [rewrite app_nth1, nth_repeat_lt by (rewrite ?repeat_length; lia); pose proof (Hlow j Hj); lia|].
    rewrite app_nth2, nth_repeat, Hhigh by (rewrite ?repeat_length; lia). lia. }
  pose proof (le_val_bounded _ _ B) as R. assert (le_val low_bytes < 2 ^ 256) by (vm_compute; reflexivity). lia.
Qed.
Lemma cleared_high x j : bounded x cleared → (32 <= j)%nat → x.[j] = 0.
Proof. intros [_ B] Hj. pose proof (B j) as Bj. unfold cleared in Bj. rewrite app_nth2, nth_repeat in Bj by (rewrite repeat_length; lia). lia. Qed.
Lemma Lval_all : Lval 32 = L.
Proof. by vm_compute. Qed.

Lemma last_passes x : bounded x cleared →
  (let (x, carry) := foldl take_off (x, 0) (seq 0 32) in snd (foldl out_byte (foldl (add_back carry) x (seq 0 32), []) (seq 0 32))) = le_bytes 32 (le_val x mod L).
Proof.
  intros HB. destruct (take_off_spec x 32 HB ltac:(lia)) as (x2 & c & -> & L2 & Hc & Hlow & Hhigh & V2). rewrite Lval_all in V2.
  destruct (add_back_spec c x2 32 L2 Hc Hlow ltac:(lia)) as (L3 & Hlow3 & Hhigh3 & V3). rewrite Lval_all in V3. set (x3 := foldl (add_back c) x2 _) in *. clearbody x3.
  assert (∀ j, (32 <= j)%nat → x2.[j] = 0) as Z2 by (intros j Hj; rewrite Hhigh by done; by apply cleared_high).
  destruct (out_byte_spec x3 32 L3) as (x4 & -> & _); [|lia|].
  { intros j. destruct (Nat.lt_ge_cases j 32); [by apply Hlow3|]. rewrite Hhigh3, Z2 by done. lia. }
  cbn [snd]. rewrite V3. apply (residue_of _ _ (Z.shiftr x.[31] 4)); [by apply top_shows|by apply low_range|exact V2].
Qed.

Lemma modL_spec x : bounded x (repeat limb_max 64) → modL x = le_bytes 32 (le_val x mod L).
Proof.
  intros HB. destruct (rows_bounded x HB) as [HB1 V1]. unfold modL. rewrite (last_passes _ HB1). f_equal. apply eqp_mod; [unfold L; lia|exact V1].
Qed.

Lemma bounded_repeat x b n : length x = n → 0 <= b → (∀ i, Z.abs x.[i] <= b) → bounded x (repeat b n).
Proof.
  intros Lx Hb B. split; [by rewrite repeat_length|]. intros i. destruct (Nat.lt_ge_cases i n) as [Hi|Hi]; [by rewrite nth_repeat_lt|].
  rewrite !nth_overflow by (rewrite ?repeat_length; lia). done.
Qed.
Lemma reduce_spec r : bytes_ok r → length r = 64%nat → reduce r = le_bytes 32 (le_val r mod L) ++ repeat 0 32.
Proof.
  intros Hr Lr. unfold reduce. rewrite <-(map_nth_seq r 64) by done. f_equal. apply modL_spec, bounded_repeat; [done|done|]. intros i. unfold limb_max.
  destruct (Nat.lt_ge_cases i 64) as [Hi|Hi]; [|rewrite nth_overflow by lia; lia]. pose proof (proj1 (Forall_forall _ _) Hr r.[i]) as B. unfold byte_ok in B. rewrite list_elem_of_In in B. specialize (B (nth_In r 0 (n := i) ltac:(lia))). lia.
Qed.

(** C31: Reduction modulo the order of the base point: for 64 signed limbs of up to 2^22, more
    than the products of two scalars that ed_sign adds up, no 64-bit operation overflows and
    the 32 bytes written are the least residue of the number modulo
    2^252 + 27742317777372353535851937790883648493. *)
Theorem modL_residue (x : list Z) (Lx : length x = 64%nat) (Bx : ∀ i, Z.abs x.[i] <= 2 ^ 22) :
  modL x = le_bytes 32 (le_val x mod (2 ^ 252 + 27742317777372353535851937790883648493)).
Proof. apply modL_spec, bounded_repeat; done. Qed.
Lemma modL_residue_witness :
  modL (repeat (- 2 ^ 22) 64) = le_bytes 32 (le_val (repeat (- 2 ^ 22) 64) mod (2 ^ 252 + 27742317777372353535851937790883648493)).
Proof.
  apply (modL_residue (repeat (- 2 ^ 22) 64)); [done|]. intros i. destruct (Nat.lt_ge_cases i 64) as [Hi|Hi]; [by rewrite nth_repeat_lt|by rewrite nth_overflow by (rewrite repeat_length; lia)].
Defined.
