(* ===== verification/Ed25519.v ===== *)
(** Ed25519: the signatures of src/src/native.c over its field and scalars.

    This file is the code; Ed25519Ok shows that it computes RFC 8032's functions. *)

From S2P Require Import Prelude NativeBase F25519 Sha512 ModL.
From stdpp Require Import prelude list.
From Stdlib Require Import ZArith Lia.
Open Scope Z_scope.

(** A point in extended coordinates: x, y, z, t. *)
Record gf4 : Type := mkGf4 { c0 : list Z; c1 : list Z; c2 : list Z; c3 : list Z }.

(** Every read of p and q comes before the writes to p, so q may be p. *)
Definition ed_add (p q : gf4) : gf4 :=
  let a := fZ (c1 p) (c0 p) in
  let t := fZ (c1 q) (c0 q) in
  let a := fM a t in
  let b := fA (c0 p) (c1 p) in
  let t := fA (c0 q) (c1 q) in
  let b := fM b t in
  let c := fM (c3 p) (c3 q) in
  let c := fM c D2 in
  let d := fM (c2 p) (c2 q) in
  let d := fA d d in
  let e := fZ b a in
  let f := fZ d c in
  let g := fA d c in
  let h := fA b a in
  mkGf4 (fM e f) (fM h g) (fM g f) (fM e h).

Definition ed_cswap (p q : gf4) (b : Z) : gf4 * gf4 :=
  let (p0, q0) := sel25519 (c0 p) (c0 q) b in
  let (p1, q1) := sel25519 (c1 p) (c1 q) b in
  let (p2, q2) := sel25519 (c2 p) (c2 q) b in
  let (p3, q3) := sel25519 (c3 p) (c3 q) b in
  (mkGf4 p0 p1 p2 p3, mkGf4 q0 q1 q2 q3).

Definition ed_pack (p : gf4) : list Z :=
  let zi := inv25519 (c2 p) in
  let tx := fM (c0 p) zi in
  let ty := fM (c1 p) zi in
  let r := pack25519 ty in
  <[31%nat := u8 (Z.lxor r.[31] (Z.shiftl (par25519 tx) 7))]> r.

(** One bit of the ladder. *)
Definition mult_step (s : list Z) (pq : gf4 * gf4) (i : nat) : gf4 * gf4 :=
  let (p, q) := pq in
  let b := Z.land (Z.shiftr s.[i / 8] (Z.of_nat (i mod 8))) 1 in
  let (p, q) := ed_cswap p q b in
  let q := ed_add q p in
  let p := ed_add p p in
  ed_cswap p q b.
(** p, and what is left in q. *)
Definition ed_scalarmult (q : gf4) (s : list Z) : gf4 * gf4 :=
  let p := mkGf4 (fset gf0) (fset gf1) (fset gf1) (fset gf0) in
  foldl (mult_step s) (p, q) (rev (seq 0 256)).
Definition ed_scalarbase (s : list Z) : gf4 :=
  let q := mkGf4 (fset X) (fset Y) (fset gf1) (fM X Y) in
  fst (ed_scalarmult q s).

(** The square root of num/den, if the ordinate has one. *)
Definition root_candidate (num den : list Z) : list Z :=
  let den2 := fS den in
  let den4 := fS den2 in
  let den6 := fM den4 den2 in
  let t := fM den6 num in
  let t := fM t den in
  let t := pow2523 t in
  let t := fM t num in
  let t := fM t den in
  let t := fM t den in
  fM t den.
Definition unpackneg (pk : list Z) : option gf4 :=
  let r2 := fset gf1 in
  let r1 := unpack25519 pk in
  let num := fS r1 in
  let den := fM num D in
  let num := fZ num r2 in
  let den := fA r2 den in
  let r0 := root_candidate num den in
  let chk := fM (fS r0) den in
  let r0 := if neq25519 chk num then fM r0 I_ else r0 in
  let chk := fM (fS r0) den in
  if neq25519 chk num then None
  else
    let r0 := if par25519 r0 =? Z.shiftr pk.[31] 7 then fZ gf0 r0 else r0 in
    Some (mkGf4 r0 r1 r2 (fM r0 r1)).

Definition ed_expand (seed : list Z) : list Z :=
  let d := sha512_3 (take 32 seed) [] [] in
  let d := <[0%nat := Z.land d.[0] 248]> d in
  let d := <[31%nat := Z.land d.[31] 127]> d in
  <[31%nat := Z.lor d.[31] 64]> d.
Definition ed_publickey (seed : list Z) : list Z :=
  let d := ed_expand seed in
  ed_pack (ed_scalarbase d).

(** r + h d, in limbs that are not carried. *)
Definition scalar_sum (r h d : list Z) : list Z :=
  let x := List.map (λ i, r.[i]) (seq 0 32) ++ repeat 0 32 in
  foldl (λ x i, foldl (λ x j, add_at x (i + j) (i64 (h.[i] * d.[j]))) x (seq 0 32)) x (seq 0 32).
Definition ed_sign (seed msg : list Z) : list Z :=
  let d := ed_expand seed in
  let pk := ed_publickey seed in
  let r := sha512_3 (take 32 (drop 32 d)) msg [] in
  let r := reduce r in
  let sig := ed_pack (ed_scalarbase r) in
  let h := sha512_3 (take 32 sig) (take 32 pk) msg in
  let h := reduce h in
  sig ++ modL (scalar_sum r h d).

(** S is below the order, from the top byte down. *)
Fixpoint canonical (s : list Z) (ks : list nat) : bool :=
  match ks with
  | [] => true
  | i :: ks =>
      if Lorder.[i] <? s.[i] then false
      else if s.[i] <? Lorder.[i] then true
      else if (i =? 0)%nat then false
      else canonical s ks
  end.
Definition ed_verify (pk msg sig : list Z) : bool :=
  match unpackneg pk with
  | None => false
  | Some q =>
      let s := take 32 (drop 32 sig) in
      if negb (canonical s (rev (seq 0 32))) then false
      else
        let h := sha512_3 (take 32 sig) (take 32 pk) msg in
        let h := reduce h in
        let p := fst (ed_scalarmult q h) in
        let q2 := ed_scalarbase s in
        let p := ed_add p q2 in
        let t := ed_pack p in
        foldl (λ diff i, Z.lor diff (Z.lxor sig.[i] t.[i])) 0 (seq 0 32) =? 0
  end.
