(* ===== verification/Ed25519Ok.v ===== *)
(** Ed25519 is RFC 8032's: the code of Ed25519.v against the group of Ed25519Curve.v. *)

From S2P Require Import Prelude NativeBase Modp Prime25519 Group EdLaw Ed25519Curve Sha512 F25519 F25519Ok ModL Ed25519.
From stdpp Require Import prelude list.
From Stdlib Require Import ZArith Lia Setoid Morphisms.
Open Scope Z_scope.

#[local] Abbreviation p := (2 ^ 255 - 19).
#[local] Infix "≡" := (eqp p) (at level 70).
#[local] Notation "x ≢ y" := (¬ eqp p x y) (at level 70).
#[local] Opaque fM fS fA fZ inv25519 pow2523 pack25519 unpack25519.

(** * Points *)

(** What four field elements stand for. *)
Definition ed_rep (r : gf4) (P : point) : Prop :=
  ∃ x y z t, frep tight (c0 r) x ∧ frep tight (c1 r) y ∧ frep tight (c2 r) z ∧ frep tight (c3 r) t ∧ extended p d25519 x y z t P.

Lemma D_rep : frep tight D d25519.
Proof. apply (frep_cong _ _ (val D)); [apply residues_eq; vm_compute; reflexivity|by apply const_rep]. Qed.
Lemma D2_rep : frep tight D2 (2 * d25519).
Proof. apply (frep_cong _ _ (val D2)); [apply residues_eq; vm_compute; reflexivity|by apply const_rep]. Qed.
Lemma I_rep : frep tight I_ im.
Proof. apply (frep_cong _ _ (val I_)); [apply residues_eq; vm_compute; reflexivity|by apply const_rep]. Qed.
Lemma X_rep : frep tight X Bx.
Proof. apply (frep_cong _ _ (val X)); [apply residues_eq; vm_compute; reflexivity|by apply const_rep]. Qed.
Lemma Y_rep : frep tight Y By.
Proof. apply (frep_cong _ _ (val Y)); [apply residues_eq; vm_compute; reflexivity|by apply const_rep]. Qed.

(** Sums and differences of a doubled product and another. *)
Lemma three_rep a b u v : frep tight a u → frep tight b v →
  frep loose (fA (fA a a) b) (u + u + v) ∧ frep loose (fZ (fA a a) b) (u + u - v).
Proof.
  intros Ha Hb. pose proof (fA_rep tight tight a a u u ltac:(done) Ha Ha) as Haa.
  split; (apply (frep_weaken (tight + tight + tight)); [done|]); [by apply fA_rep|by apply fZ_rep].
Qed.

Lemma ed_add_rep r s P Q : ed_rep r P → ed_rep s Q → ed_rep (ed_add r s) (g_add P Q).
Proof.
  intros (x1 & y1 & z1 & t1 & F1 & F2 & F3 & F4 & E1) (x2 & y2 & z2 & t2 & F1' & F2' & F3' & F4' & E2).
  pose proof (extended_add p d25519 im fermat_25519 im_square d_nonsquare _ _ _ _ P _ _ _ _ Q (2 * d25519) ltac:(apply eq_eqp; ring) E1 E2) as E. cbv zeta in E.
  unfold ed_rep, ed_add. cbn [c0 c1 c2 c3]. pose proof D2_rep. assert (frep tight (fM (fM (c3 r) (c3 s)) D2) (t1 * t2 * (2 * d25519))) as Fc by freps.
  assert (frep tight (fM (c2 r) (c2 s)) (z1 * z2)) as Fz by freps. destruct (three_rep _ _ _ _ Fz Fc) as [Fg Ff].
  do 4 eexists. split_and!; [| | | |exact E]; freps.
Qed.

Lemma ed_rep_lengths r P : ed_rep r P → length (c0 r) = 10%nat ∧ length (c1 r) = 10%nat ∧ length (c2 r) = 10%nat ∧ length (c3 r) = 10%nat.
Proof. intros (x & y & z & t & F1 & F2 & F3 & F4 & _). split_and!; [apply F1|apply F2|apply F3|apply F4]. Qed.
Lemma ed_cswap_spec r s b P Q : ed_rep r P → ed_rep s Q → ed_cswap r s (Z.b2z b) = if b then (s, r) else (r, s).
Proof.
  intros (L0 & L1 & L2 & L3)%ed_rep_lengths (M0 & M1 & M2 & M3)%ed_rep_lengths. unfold ed_cswap. rewrite !sel_spec by done. destruct r, s, b; reflexivity.
Qed.

(** * Multiples *)

Section multiple.
Context (s : list Z) (Hs : bytes_ok s) (P : point).
(** The ladder holds two neighbouring multiples. *)
Definition neighbours (pq : gf4 * gf4) (n : Z) : Prop := ed_rep (fst pq) (times n P) ∧ ed_rep (snd pq) (times (n + 1) P).

Lemma mult_step_spec pq n i : 0 <= n → neighbours pq n → neighbours (mult_step s pq i) (2 * n + Z.b2z (Z.testbit (le_val s) (Z.of_nat i))).
Proof.
  intros Hn. destruct pq as [r q]. intros [Hr Hq]. cbn [fst snd] in Hr, Hq. unfold mult_step. rewrite scalar_bit by done. set (b := Z.testbit (le_val s) (Z.of_nat i)). clearbody b.
  rewrite (ed_cswap_spec r q b _ _ Hr Hq). assert (times (2 * n + 1) P = g_add (times n P) (times (n + 1) P)) as E1 by (rewrite <-times_add by lia; f_equal; lia).
  destruct b; cbn [Z.b2z].
  - pose proof (ed_add_rep _ _ _ _ Hr Hq) as Hs1. pose proof (ed_add_rep _ _ _ _ Hq Hq) as Hd. change 1 with (Z.b2z true) at 1.
    rewrite (ed_cswap_spec _ _ true _ _ Hd Hs1). split; cbn [fst snd]; [by rewrite E1|]. replace (2 * n + 1 + 1) with ((n + 1) + (n + 1)) by lia. by rewrite times_add by lia.
  - pose proof (ed_add_rep _ _ _ _ Hq Hr) as Hs1. pose proof (ed_add_rep _ _ _ _ Hr Hr) as Hd. change 0 with (Z.b2z false) at 1.
    rewrite (ed_cswap_spec _ _ false _ _ Hd Hs1). split; cbn [fst snd]; rewrite Z.add_0_r; [|by rewrite E1, g_comm]. replace (2 * n) with (n + n) by lia. by rewrite times_add by lia.
Qed.

Lemma mult_steps_spec k : ∀ pq, neighbours pq (le_val s / 2 ^ Z.of_nat k) → neighbours (foldl (mult_step s) pq (rev (seq 0 k))) (le_val s).
Proof.
  pose proof (le_val_range s Hs) as R. induction k as [|k IH]; intros pq H; [by rewrite Z.div_1_r in H|].
  rewrite seq_S, rev_app_distr. cbn [rev app foldl Nat.add]. apply IH. assert (0 <= le_val s / 2 ^ Z.of_nat (S k)) by (apply Z.div_pos; lia).
  pose proof (mult_step_spec pq _ k ltac:(done) H) as H'. replace (le_val s / 2 ^ Z.of_nat k) with (2 * (le_val s / 2 ^ Z.of_nat (S k)) + Z.b2z (Z.testbit (le_val s) (Z.of_nat k))); [done|].
  rewrite Z.testbit_spec' , Nat2Z.inj_succ, Z.pow_succ_r, Z.mul_comm, (Z.mul_comm 2), <-Z.div_div by lia. pose proof (Z.div_mod (le_val s / 2 ^ Z.of_nat k) 2 ltac:(lia)). lia.
Qed.

Lemma ed_zero_rep : ed_rep (mkGf4 (fset gf0) (fset gf1) (fset gf1) (fset gf0)) g_zero.
Proof.
  exists 0, 1, 1, 0. cbn [c0 c1 c2 c3]. split_and!; [apply fset_rep, gf0_rep|apply fset_rep, gf1_rep|apply fset_rep, gf1_rep|apply fset_rep, gf0_rep|].
  destruct zero_coords as [Zx Zy]. unfold extended. rewrite Zx, Zy. split_and!; [apply not_congruent; vm_compute; reflexivity|reflexivity..].
Qed.
Lemma ed_scalarmult_spec q : length s = 32%nat → ed_rep q P → ed_rep (fst (ed_scalarmult q s)) (times (le_val s) P).
Proof.
  intros Ls Hq. pose proof (le_val_range s Hs) as R. rewrite Ls in R. unfold ed_scalarmult.
  destruct (mult_steps_spec 256 (mkGf4 (fset gf0) (fset gf1) (fset gf1) (fset gf0), q)) as [H _]; [|exact H].
  rewrite Z.div_small by exact R. split; cbn [fst snd]; [apply ed_zero_rep|exact Hq].
Qed.
End multiple.

(** Only the first 32 bytes of the scalar are read. *)
Lemma mult_step_take s pq i : (i < 256)%nat → mult_step s pq i = mult_step (take 32 s) pq i.
Proof. intros Hi. unfold mult_step. rewrite nth_firstn. by rewrite (proj2 (Nat.ltb_lt _ _)) by (apply Nat.Div0.div_lt_upper_bound; lia). Qed.
Lemma mult_steps_take s l : Forall (λ i, (i < 256)%nat) l → ∀ pq, foldl (mult_step s) pq l = foldl (mult_step (take 32 s)) pq l.
Proof. induction 1 as [|i l Hi F IH]; intros pq; cbn [foldl]; [reflexivity|]. rewrite mult_step_take by exact Hi. apply IH. Qed.
Lemma ed_scalarmult_take q s : ed_scalarmult q s = ed_scalarmult q (take 32 s).
Proof. unfold ed_scalarmult. apply mult_steps_take, Forall_rev, Forall_forall. intros i Hi%elem_of_seq. lia. Qed.
Lemma ed_scalarmult_rep q s P : bytes_ok s → (32 <= length s)%nat → ed_rep q P → ed_rep (fst (ed_scalarmult q s)) (times (le_val (take 32 s)) P).
Proof.
  intros Hs Ls Hq. rewrite ed_scalarmult_take. apply ed_scalarmult_spec; [by apply Forall_take|rewrite length_take; lia|done].
Qed.

Lemma base_rep : ed_rep (mkGf4 (fset X) (fset Y) (fset gf1) (fM X Y)) B.
Proof.
  pose proof X_rep. pose proof Y_rep. exists Bx, By, 1, (Bx * By). cbn [c0 c1 c2 c3]. split_and!; [by apply fset_rep|by apply fset_rep|apply fset_rep, gf1_rep|freps|].
  exact (extended_affine p d25519 fermat_25519 B).
Qed.
Lemma ed_scalarbase_rep s : bytes_ok s → (32 <= length s)%nat → ed_rep (ed_scalarbase s) (times (le_val (take 32 s)) B).
Proof. intros Hs Ls. unfold ed_scalarbase. apply ed_scalarmult_rep; [done|done|apply base_rep]. Qed.

(** * Encoding *)

Lemma coords_range P : 0 <= px P < p ∧ 0 <= py P < p.
Proof. destruct (proj1 (valid_spec p d25519 fermat_25519 _ _) (e_ok p d25519 P)) as (H1 & H2 & _). exact (conj H1 H2). Qed.
Lemma inverse_rep z c : frep tight c z → z ≢ 0 → ∃ w, frep tight (inv25519 c) w ∧ z * w ≡ 1.
Proof. intros F Hz. exists (z ^ (p - 2)). split; [by apply inv_rep|]. exact (proj2 fermat_25519 z Hz). Qed.
(** A coordinate from the numerator and the inverse of the denominator. *)
Lemma quotient_mod x z w v : x ≡ v * z → z * w ≡ 1 → 0 <= v < p → (x * w) mod p = v.
Proof.
  intros Ex Ew Hv. rewrite <-(Z.mod_small v p Hv). apply eqp_modp. rewrite Ex, <-Z.mul_assoc, Ew, Z.mul_1_r. reflexivity.
Qed.

Lemma sign_byte y b : 0 <= y < 128 → Z.lxor y (Z.shiftl (Z.b2z b) 7) = y + 128 * Z.b2z b.
Proof.
  assert (forallb (λ i, forallb (λ b, Z.lxor (Z.of_nat i) (Z.shiftl (Z.b2z b) 7) =? Z.of_nat i + 128 * Z.b2z b) [true; false]) (seq 0 128) = true) as H by (vm_compute; reflexivity).
  rewrite forallb_forall in H. intros Hy. specialize (H (Z.to_nat y) ltac:(apply in_seq; lia)). rewrite forallb_forall in H. specialize (H b ltac:(destruct b; cbn; tauto)).
  rewrite Z2Nat.id in H by lia. by apply Z.eqb_eq.
Qed.
Lemma le_bytes_one z : le_bytes 1 z = [z mod 256].
Proof. reflexivity. Qed.
(** The sign goes to the bit the ordinate leaves free. *)
Lemma sign_bit y b : 0 <= y < 2 ^ 255 → let r := le_bytes 32 y in
  <[31%nat := u8 (Z.lxor r.[31] (Z.shiftl (Z.b2z b) 7))]> r = le_bytes 32 (y + 2 ^ 255 * Z.b2z b).
Proof.
  intros Hy r. subst r. rewrite !(le_bytes_app 31 1). change (256 ^ Z.of_nat 31) with (2 ^ 248). rewrite !le_bytes_one.
  assert (le_bytes 31 (y + 2 ^ 255 * Z.b2z b) = le_bytes 31 y) as ->.
  { rewrite <-(le_bytes_mod 31 31 (y + _)) by done. rewrite <-(le_bytes_mod 31 31 y) by done. f_equal. change (256 ^ Z.of_nat 31) with (2 ^ 248).
    replace (2 ^ 255 * Z.b2z b) with ((2 ^ 7 * Z.b2z b) * 2 ^ 248) by lia. apply Z.mod_add. lia. }
  assert (0 <= y / 2 ^ 248 < 128) as Ry by (split; [apply Z.div_pos; lia|apply Z.div_lt_upper_bound; lia]).
  rewrite insert_app_r_alt by (rewrite le_bytes_length; lia). rewrite le_bytes_length, Nat.sub_diag. rewrite app_nth2, le_bytes_length, Nat.sub_diag by (rewrite le_bytes_length; lia).
  cbn [nth insert list_insert]. rewrite (Z.mod_small (y / 2 ^ 248)), sign_byte by lia. do 2 f_equal. unfold u8, wrap. change (2 ^ 8) with 256.
  replace (2 ^ 255 * Z.b2z b) with ((128 * Z.b2z b) * 2 ^ 248) by lia. by rewrite Z.div_add by lia.
Qed.

Lemma ed_pack_spec r P : ed_rep r P → ed_pack r = encode P.
Proof.
  intros (x & y & z & t & F1 & F2 & F3 & F4 & Hz & Ex & Ey & Et). destruct (inverse_rep z _ F3 Hz) as (w & Fw & Ew). destruct (coords_range P) as [Rx Ry].
  unfold ed_pack. assert (frep tight (fM (c0 r) (inv25519 (c2 r))) (x * w)) as Fx by freps. assert (frep tight (fM (c1 r) (inv25519 (c2 r))) (y * w)) as Fy by freps.
  rewrite (pack_spec _ _ (tight_loose _ _ Fy)), (par_spec _ _ (tight_loose _ _ Fx)), (quotient_mod x z w (px P)), (quotient_mod y z w (py P)) by done.
  unfold encode. rewrite <-!Z.bit0_mod. apply sign_bit. lia.
Qed.

(** * Decoding *)

(** The denominator of x^2 = (y^2 - 1) / (d y^2 + 1) is never zero. *)
Lemma den_nz y : d25519 * (y * y) + 1 ≢ 0.
Proof.
  intros H. assert (y ≡ 0) as Hy.
  { apply (nonsquare p d25519 fermat_25519 d_nonsquare im). rewrite im_square. transitivity (d25519 * (y * y) + 1 - 1); [rewrite H; reflexivity|]. apply eq_eqp. ring. }
  apply (one_nz p fermat_25519). rewrite <-H, Hy. apply eq_eqp. ring.
Qed.
Lemma on_ed_fraction x y : on_ed p d25519 x y ↔ (d25519 * (y * y) + 1) * (x * x) ≡ y * y - 1.
Proof.
  unfold on_ed. split; intros H.
  - transitivity (d25519 * x * x * y * y + x * x); [apply eq_eqp; ring|]. rewrite H. apply eq_eqp. ring.
  - transitivity ((d25519 * (y * y) + 1) * (x * x) - x * x); [apply eq_eqp; ring|]. rewrite H. apply eq_eqp. ring.
Qed.

Lemma square_roots x x' : x * x ≡ x' * x' → x ≡ x' ∨ x ≡ - x'.
Proof.
  intros E. destruct (eqp_dec p fermat_25519 x x') as [|N]; [by left|right]. apply (eqp_sub_0 p). destruct (eqp_dec p fermat_25519 (x - - x') 0) as [|N']; [done|].
  exfalso. apply (nz_mul p fermat_25519 (x - x') (x - - x')); [by rewrite (eqp_sub_0 p)|done|].
  transitivity (x * x - x' * x'); [apply eq_eqp; ring|]. rewrite E. apply eq_eqp. ring.
Qed.

(** The candidate the code computes. *)
Definition candidate (u v : Z) : Z := (u * (v * v * v * v * v * v * v)) ^ (2 ^ 252 - 3) * u * v * v * v.
Lemma pow_quarter s : s ^ (2 ^ 252 - 3) * s ^ (2 ^ 252 - 3) * s = s ^ ((p - 1) / 4).
Proof.
  rewrite <-Z.pow_add_r by (vm_compute; discriminate). rewrite <-(Z.pow_1_r s) at 2. rewrite <-Z.pow_add_r by (vm_compute; discriminate). reflexivity.
Qed.
Lemma candidate_square u v : v * (candidate u v * candidate u v) = u * (u * (v * v * v * v * v * v * v)) ^ ((p - 1) / 4).
Proof.
  unfold candidate. rewrite <-pow_quarter. generalize ((u * (v * v * v * v * v * v * v)) ^ (2 ^ 252 - 3)). intros w. ring.
Qed.
Lemma half_power g : g ≢ 0 → g ^ ((p - 1) / 2) ≡ 1 ∨ g ^ ((p - 1) / 2) ≡ - (1).
Proof.
  intros Hg. apply square_roots. rewrite Z.mul_1_l, <-Z.pow_add_r by (vm_compute; discriminate). exact (fermat_little p prime_25519 g Hg).
Qed.
Lemma candidate_root u v x : v ≢ 0 → v * (x * x) ≡ u → v * (candidate u v * candidate u v) ≡ u ∨ v * (candidate u v * candidate u v) ≡ - u.
Proof.
  intros Hv E. rewrite candidate_square. destruct (eqp_dec p fermat_25519 x 0) as [Z0|NZ].
  - left. assert (u ≡ 0) as Hu by (rewrite <-E, Z0; apply eq_eqp; ring). generalize ((u * (v * v * v * v * v * v * v)) ^ ((p - 1) / 4)). intros w. rewrite Hu. reflexivity.
  - assert ((u * (v * v * v * v * v * v * v)) ^ ((p - 1) / 4) ≡ (v * v * v * v * x) ^ ((p - 1) / 2)) as ->.
    { transitivity (((v * v * v * v * x) * (v * v * v * v * x)) ^ ((p - 1) / 4)).
      - apply eqp_pow. rewrite <-E. apply eq_eqp. ring.
      - rewrite <-Z.pow_2_r, <-Z.pow_mul_r by (vm_compute; discriminate). reflexivity. }
    assert (v * v * v * v * x ≢ 0) as N4 by (repeat apply (nz_mul p fermat_25519); assumption).
    generalize (half_power _ N4). generalize ((v * v * v * v * x) ^ ((p - 1) / 2)). intros w [->| ->]; [left|right]; apply eq_eqp; ring.
Qed.

Lemma root_candidate_rep num den u v : frep loose num u → frep loose den v → frep tight (root_candidate num den) (candidate u v).
Proof.
  intros Fn Fd. unfold root_candidate. set (t := fM (fM (fM (fS (fS den)) (fS den)) num) den).
  assert (frep tight t (u * (v * v * v * v * v * v * v))) as Ft.
  { eapply frep_cong; [|subst t; freps]. apply eq_eqp. ring. }
  clearbody t. pose proof (pow2523_rep t _ Ft) as Fp. unfold candidate. freps.
Qed.

(** A point whose ordinate is y, and the parity of its abscissa. *)
Definition lenient (pk : list Z) (A : point) : Prop :=
  py A ≡ le_val pk mod 2 ^ 255 ∧ (px A mod 2 = le_val pk / 2 ^ 255 ∨ px A = 0).

Lemma neg_coords A : px (neg A) = (- px A) mod p ∧ py (neg A) = py A.
Proof. split; [reflexivity|]. change (py (neg A)) with (py A mod p). apply Z.mod_small. apply coords_range. Qed.
(** Opposite residues have different parities. *)
Lemma neg_parity x : 0 < x < p → (- x) mod p = p - x ∧ ((- x) mod p) mod 2 = 1 - x mod 2.
Proof.
  intros Hx. assert ((- x) mod p = p - x) as -> by (symmetry; apply (Zmod_unique _ _ (-1)); lia). split; [done|].
  pose proof (Z.div_mod x 2 ltac:(lia)). pose proof (Z.mod_pos_bound x 2 ltac:(lia)). symmetry. apply (Zmod_unique _ _ (2 ^ 254 - 10 - x / 2)); lia.
Qed.

Lemma lenient_unique pk A A' : lenient pk A → lenient pk A' → A = A'.
Proof.
  intros [Ey Hx] [Ey' Hx']. assert (py A ≡ py A') as E by by rewrite Ey, Ey'. apply edpt_eq; [exact fermat_25519| |exact E].
  pose proof (ed_on p d25519 fermat_25519 A) as On%on_ed_fraction. pose proof (ed_on p d25519 fermat_25519 A') as On'%on_ed_fraction. rewrite <-E in On'.
  assert (px A * px A ≡ px A' * px A') as Sq by (apply (eqp_cancel p fermat_25519 _ _ _ (den_nz (py A))); by rewrite On, On').
  destruct (coords_range A) as [Rx _], (coords_range A') as [Rx' _]. destruct (square_roots _ _ Sq) as [H|H]; [exact H|].
  apply eqp_modp in H. rewrite (Z.mod_small (px A)) in H by exact Rx. destruct (Z.eq_dec (px A') 0) as [Z0|NZ].
  - rewrite Z0 in H. change ((- 0) mod p) with 0 in H. rewrite H, Z0. reflexivity.
  - exfalso. destruct (neg_parity (px A') ltac:(lia)) as [E1 E2]. rewrite <-H in E1, E2. lia.
Qed.

(** The code's two attempts find a root exactly when there is one. *)
Lemma attempts num den u v r0 (r1 := if neq25519 (fM (fS r0) den) num then fM r0 I_ else r0) : frep loose num u → frep loose den v → v ≢ 0 → frep tight r0 (candidate u v) →
  ∃ x, frep tight r1 x ∧ (neq25519 (fM (fS r1) den) num = false ↔ v * (x * x) ≡ u) ∧ ((∃ x', v * (x' * x') ≡ u) → v * (x * x) ≡ u).
Proof.
  intros Fn Fd Hv F0. pose proof I_rep as FI. set (c := candidate u v) in *.
  assert (∀ r x, frep tight r x → neq25519 (fM (fS r) den) num = false ↔ v * (x * x) ≡ u) as Test.
  { intros r x F. assert (frep tight (fM (fS r) den) (x * x * v)) as Fc by freps. rewrite (neq_spec _ _ _ _ (tight_loose _ _ Fc) Fn), Z.mul_comm. done. }
  subst r1. destruct (neq25519 (fM (fS r0) den) num) eqn:E.
  - assert (frep tight (fM r0 I_) (c * im)) as F1 by freps. exists (c * im). split_and!; [done|by apply Test|]. intros [x' Hx'].
    destruct (candidate_root u v x' Hv Hx') as [H|H]; fold c in H; [by rewrite (proj2 (Test _ _ F0) H) in E|].
    transitivity (v * (c * c) * (im * im)); [apply eq_eqp; ring|]. rewrite H, im_square. apply eq_eqp. ring.
  - exists c. split_and!; [done|by apply Test|]. intros _. by apply (Test r0).
Qed.

Lemma top_bit pk : bytes_ok pk → length pk = 32%nat → Z.shiftr pk.[31] 7 = le_val pk / 2 ^ 255 ∧ 0 <= le_val pk / 2 ^ 255 < 2.
Proof.
  intros Hp Lp. pose proof (le_val_range pk Hp) as R. rewrite Lp in R. change (256 ^ Z.of_nat 32) with (2 ^ 256) in R. rewrite (le_val_nth pk 31 Hp).
  rewrite !Z.shiftr_div_pow2 by lia. change (8 * Z.of_nat 31) with 248. unfold u8, wrap. rewrite (Z.mod_small (_ / 2 ^ 248)) by (split; [apply Z.div_pos; lia|apply Z.div_lt_upper_bound; lia]).
  rewrite Z.div_div by lia. change (2 ^ 248 * 2 ^ 7) with (2 ^ 255). split; [done|]. split; [apply Z.div_pos; lia|apply Z.div_lt_upper_bound; lia].
Qed.

Lemma affine_rep r0 r1 x y P : frep tight r0 x → frep tight r1 y → x ≡ px P → y ≡ py P → ed_rep (mkGf4 r0 r1 (fset gf1) (fM r0 r1)) P.
Proof.
  intros F0 F1 Ex Ey. exists x, y, 1, (x * y). cbn [c0 c1 c2 c3]. split_and!; [done|done|apply fset_rep, gf1_rep|freps|].
  unfold extended. rewrite Ex, Ey, !Z.mul_1_r. split_and!; [apply (one_nz p fermat_25519)|reflexivity..].
Qed.
Lemma opposite_rep r x : frep tight r x → frep tight (fZ gf0 r) (- x).
Proof. intros F. apply (fZ_rep 0 tight gf0 r 0 x); [done|apply (const_bound 0); done|done]. Qed.

(** The point found, negated. *)
Lemma negated pk y r0 r1 x : y ≡ le_val pk mod 2 ^ 255 → on_ed p d25519 x y → 0 <= le_val pk / 2 ^ 255 < 2 → frep tight r0 x → frep tight r1 y →
  let r0' := if par25519 r0 =? le_val pk / 2 ^ 255 then fZ gf0 r0 else r0 in
  ∃ A, lenient pk A ∧ ed_rep (mkGf4 r0' r1 (fset gf1) (fM r0' r1)) (neg A).
Proof.
  intros Ey On Rs F0 F1. rewrite (par_spec _ _ (tight_loose _ _ F0)). set (sgn := le_val pk / 2 ^ 255) in *. set (A := ed_of p d25519 fermat_25519 x y On).
  assert (px A = x mod p) as Ax by reflexivity. assert (py A ≡ y) as Ay by (change (py A) with (y mod p); apply mod_eqp, p_nz). destruct (coords_range A) as [Rx _]. destruct (neg_coords A) as [Nx Ny].
  destruct (Z.eqb_spec ((x mod p) mod 2) sgn) as [E|E]; cbn zeta.
  - exists A. split; [split; [by rewrite Ay|by left]|]. apply (affine_rep _ _ (- x) y); [by apply opposite_rep|done| |].
    + rewrite Nx, Ax, !mod_eqp by exact p_nz. reflexivity.
    + rewrite Ny, Ay. reflexivity.
  - destruct (neg_coords (neg A)) as [Nx' Ny']. exists (neg A). split; [split; [by rewrite Ny, Ay|]|].
    + rewrite Nx. fold sgn. rewrite Ax in *. destruct (Z.eq_dec (x mod p) 0) as [->|NZ]; [by right|left]. destruct (neg_parity (x mod p) ltac:(lia)) as [_ ->].
      pose proof (Z.mod_pos_bound (x mod p) 2 ltac:(lia)). lia.
    + apply (affine_rep _ _ x y); [done|done| |].
      * rewrite Nx', Nx, Ax, !mod_eqp by exact p_nz. rewrite Z.opp_involutive. reflexivity.
      * rewrite Ny', Ny, Ay. reflexivity.
Qed.

Lemma unpackneg_spec pk : bytes_ok pk → length pk = 32%nat →
  match unpackneg pk with
  | Some r => ∃ A, lenient pk A ∧ ed_rep r (neg A)
  | None => ¬ ∃ A, lenient pk A
  end.
Proof.
  intros Hp Lp. pose proof (unpack_rep pk ltac:(by apply Forall_take) ltac:(lia)) as Fy. rewrite take_ge in Fy by lia. destruct (top_bit pk Hp Lp) as [Et Rt].
  unfold unpackneg. rewrite Et. set (y := le_val pk mod 2 ^ 255) in *. pose proof D_rep as FD. pose proof (fset_rep _ _ _ gf1_rep) as F1.
  set (num := fZ (fS (unpack25519 pk)) (fset gf1)). set (den := fA (fset gf1) (fM (fS (unpack25519 pk)) D)).
  assert (frep loose num (y * y - 1)) as Fn by (subst num; freps). assert (frep loose den (d25519 * (y * y) + 1)) as Fd.
  { eapply frep_cong; [|subst den; freps]. apply eq_eqp. ring. }
  clearbody num den. pose proof (root_candidate_rep _ _ _ _ Fn Fd) as Fc. set (c := root_candidate num den) in *. clearbody c.
  destruct (attempts num den _ _ c Fn Fd (den_nz y) Fc) as (x & Fx & Ht & Hr). cbn zeta. rewrite <-on_ed_fraction in Ht, Hr.
  set (r0 := if neq25519 (fM (fS c) den) num then fM c I_ else c) in *. clearbody r0. destruct (neq25519 (fM (fS r0) den) num) eqn:E.
  - intros [A [Ey _]]. apply diff_true_false. apply Ht, Hr. exists (px A). apply on_ed_fraction. fold y in Ey. rewrite <-Ey. apply (ed_on p d25519 fermat_25519 A).
  - apply (negated pk y r0 (unpack25519 pk) x); [reflexivity|by apply Ht|done..].
Qed.

(** * Scalars *)

(** The product of two scalars, a limb at a time. *)
Lemma sum_row h d i m : bytes_ok h → bytes_ok d → (i < 32)%nat → (m <= 32)%nat → ∀ x, length x = 64%nat → (∀ k, 0 <= x.[k] < 2 ^ 40) →
  let y := foldl (λ x j, add_at x (i + j) (i64 (h.[i] * d.[j]))) x (seq 0 m) in
  length y = 64%nat ∧ (∀ k, x.[k] <= y.[k] <= x.[k] + (if (i <=? k)%nat && (k <? i + m)%nat then 255 * 255 else 0)) ∧ le_val y = le_val x + h.[i] * 256 ^ Z.of_nat i * le_val (take m d).
Proof.
  intros Hh Hd Hi Hm x Lx Bx. induction m as [|m IH].
  - rewrite take_0. cbn [seq foldl le_val]. split_and!; [done| |lia]. intros k. destruct (_ && _); lia.
  - specialize (IH ltac:(lia)). rewrite seq_S, foldl_app. cbn [foldl Nat.add]. cbn zeta in IH |- *. set (y := foldl _ x (seq 0 m)) in *. clearbody y. destruct IH as (Ly & By & V).
    pose proof (word_nth 8 h i ltac:(lia) Hh) as Rh. pose proof (word_nth 8 d m ltac:(lia) Hd) as Rd. unfold word_ok in Rh, Rd. assert (0 <= h.[i] * d.[m] <= 255 * 255) as Rm by nia.
    pose proof (By (i + m)%nat) as Bim. pose proof (Bx (i + m)%nat) as Bxm. unfold add_at. rewrite (proj2 (Nat.ltb_ge (i + m) (i + m))), andb_false_r in Bim by lia. rewrite (i64_id (h.[i] * d.[m])), i64_id by lia.
    split_and!.
    + by rewrite length_insert.
    + intros k. rewrite nth_insert by lia. pose proof (By k) as Bk. destruct (Nat.eqb_spec k (i + m)) as [->|N].
      * rewrite (proj2 (Nat.leb_le _ _)), (proj2 (Nat.ltb_lt _ _)) by lia. cbn [andb]. lia.
      * replace (k <? i + S m)%nat with (k <? i + m)%nat; [done|]. apply eq_true_iff_eq. rewrite !Nat.ltb_lt. lia.
    + rewrite le_val_insert by lia. rewrite V. destruct (Nat.lt_ge_cases m (length d)) as [Hl|Hl].
      * rewrite (take_S_r d m d.[m]), le_val_app by by apply lookup_at. rewrite length_take_le by lia. cbn [le_val]. rewrite Nat2Z.inj_add, Z.pow_add_r by lia. lia.
      * rewrite (nth_overflow d) by lia. rewrite !take_ge by lia. lia.
Qed.

Lemma sum_rows h d x n : bytes_ok h → bytes_ok d → length x = 64%nat → (∀ k, 0 <= x.[k] <= 255) → (n <= 32)%nat →
  let y := foldl (λ x i, foldl (λ x j, add_at x (i + j) (i64 (h.[i] * d.[j]))) x (seq 0 32)) x (seq 0 n) in
  length y = 64%nat ∧ (∀ k, 0 <= y.[k] <= 255 + Z.of_nat n * (255 * 255)) ∧ le_val y = le_val x + le_val (take n h) * le_val (take 32 d).
Proof.
  intros Hh Hd Lx Bx. induction n as [|n IH]; intros Hn; [rewrite take_0; cbn [seq foldl le_val]; split_and!; [done| |lia]; intros k; pose proof (Bx k); lia|].
  specialize (IH ltac:(lia)). rewrite (seq_S n 0), foldl_app. cbn [foldl Nat.add]. cbn zeta in IH |- *. set (y := foldl _ x (seq 0 n)) in *. clearbody y. destruct IH as (Ly & By & V).
  destruct (sum_row h d n 32 Hh Hd ltac:(lia) ltac:(lia) y Ly) as (Lz & Bz & Vz); [intros k; pose proof (By k); lia|]. cbn zeta in Lz, Bz, Vz. set (z := foldl _ y (seq 0 32)) in *. clearbody z. split_and!; [done| |].
  - intros k. pose proof (By k). pose proof (Bz k) as B'. destruct (_ && _); lia.
  - rewrite Vz, V. destruct (Nat.lt_ge_cases n (length h)) as [Hl|Hl].
    + rewrite (take_S_r h n h.[n]), le_val_app by by apply lookup_at. rewrite length_take_le by lia. cbn [le_val]. ring.
    + rewrite (nth_overflow h) by lia. rewrite !(take_ge h) by lia. ring.
Qed.

Lemma le_val_repeat0 n : le_val (repeat 0 n) = 0.
Proof. induction n as [|n IH]; [done|]. cbn [repeat le_val]. rewrite IH. done. Qed.
Lemma scalar_sum_spec r h d : bytes_ok r → bytes_ok h → bytes_ok d → (32 <= length r)%nat →
  modL (scalar_sum r h d) = le_bytes 32 ((le_val (take 32 r) + le_val (take 32 h) * le_val (take 32 d)) mod L).
Proof.
  intros Hr Hh Hd Lr. unfold scalar_sum. assert (List.map (λ i, r.[i]) (seq 0 32) = take 32 r) as ->.
  { rewrite (map_nth_seq (take 32 r) 32) by (rewrite length_take; lia). apply List.map_ext_in. intros i Hi%in_seq. rewrite nth_firstn. by rewrite (proj2 (Nat.ltb_lt _ _)) by lia. }
  destruct (sum_rows h d (take 32 r ++ repeat 0 32) 32 Hh Hd) as (Ly & By & V); [rewrite length_app, length_take, repeat_length; lia| |lia|].
  { intros k. destruct (Nat.lt_ge_cases k 32) as [Hk|Hk].
    - rewrite app_nth1, nth_firstn, (proj2 (Nat.ltb_lt _ _)) by (rewrite ?length_take; lia). pose proof (word_nth 8 r k ltac:(lia) Hr) as R. unfold word_ok in R. lia.
    - rewrite app_nth2 by (rewrite length_take; lia). rewrite nth_repeat. lia. }
  cbn zeta in Ly, By, V. set (y := foldl _ _ (seq 0 32)) in *. clearbody y. rewrite modL_spec.
  - rewrite V, le_val_app, le_val_repeat0. do 2 f_equal. lia.
  - apply bounded_repeat; [done|done|]. intros i. pose proof (By i). unfold limb_max. lia.
Qed.

(** The comparison from the top byte down. *)
Lemma digits_ltb a b x y P : 0 <= a < P → 0 <= b < P → (a + x * P <? b + y * P) = if y <? x then false else if x <? y then true else a <? b.
Proof. intros Ha Hb. destruct (Z.ltb_spec y x), (Z.ltb_spec x y), (Z.ltb_spec a b), (Z.ltb_spec (a + x * P) (b + y * P)); nia. Qed.
Lemma canonical_prefix s n : bytes_ok s → (n < 32)%nat → (n < length s)%nat → canonical s (rev (seq 0 (S n))) = (le_val (take (S n) s) <? Lval (S n)).
Proof.
  intros Hs. assert (∀ k, (k <= length s)%nat → 0 <= le_val (take k s) < 256 ^ Z.of_nat k) as Rs.
  { intros k Hk. pose proof (le_val_range (take k s) ltac:(by apply Forall_take)) as R. by rewrite length_take_le in R. }
  assert (∀ k, (k <= 32)%nat → 0 <= Lval k < 256 ^ Z.of_nat k) as RL.
  { intros k Hk. pose proof (le_val_range (take k Lorder) ltac:(apply Forall_take; by apply (bool_decide_unpack _))) as R. by rewrite length_take_le in R by (cbn; lia). }
  induction n as [|n IH]; intros Hn Hl; rewrite (seq_S _ 0), rev_app_distr; cbn [rev app canonical Nat.add]; rewrite Lval_S by lia.
  all: rewrite (take_S_r s _ s.[_]), le_val_app, length_take_le by (lia || by apply lookup_at); cbn [le_val].
  - rewrite Z.mul_comm, Z.add_0_r, digits_ltb by (apply Rs || apply RL; lia). rewrite take_0. done.
  - rewrite Z.mul_comm, Z.add_0_r, digits_ltb by (apply Rs || apply RL; lia). cbn [Nat.eqb]. by rewrite <-IH by lia.
Qed.
Lemma canonical_spec s : bytes_ok s → length s = 32%nat → canonical s (rev (seq 0 32)) = (le_val s <? L).
Proof. intros Hs Ls. rewrite (canonical_prefix s 31 Hs) by lia. rewrite Lval_all, take_ge by lia. done. Qed.
