(* ===== verification/Ed25519Rfc.v ===== *)
(** What Ed25519 guarantees: key generation and signing are RFC 8032's, a signature is
    accepted exactly when it satisfies the verification equation, and what was signed
    verifies.  The equation holds in the group of Ed25519Curve, about which nothing is
    assumed. *)

From S2P Require Import Prelude NativeBase Modp Prime25519 Group EdLaw Ed25519Curve Sha512 F25519 F25519Ok X25519 ModL Ed25519 Ed25519Ok.
From stdpp Require Import prelude list.
From Stdlib Require Import ZArith Lia.
Open Scope Z_scope.

#[local] Opaque sha512 sha512_3 ed_scalarbase ed_scalarmult ed_pack ed_add unpackneg times.

(** * RFC 8032, section 5.1 *)

(** 5.1.5: the secret scalar and the prefix, from the digest of the seed. *)
Definition secret (seed : list Z) : Z := decode_scalar (le_val (take 32 (sha512 seed))).
Definition prefix (seed : list Z) : list Z := drop 32 (sha512 seed).
Definition rfc_public (seed : list Z) : list Z := encode (times (secret seed) B).

(** 5.1.6 *)
Definition rfc_sign (seed msg : list Z) : list Z :=
  let r := le_val (sha512 (prefix seed ++ msg)) in
  let R := encode (times r B) in
  let k := le_val (sha512 (R ++ rfc_public seed ++ msg)) in
  R ++ le_bytes 32 ((r + k * secret seed) mod L25519).

(** 5.1.7: R is the encoding of S B - k A, with k reduced modulo the order. *)
Definition equation (A : point) (pk msg sig : list Z) : Prop :=
  let S := le_val (drop 32 sig) in
  let k := le_val (sha512 (take 32 sig ++ pk ++ msg)) mod L25519 in
  S < L25519 ∧ take 32 sig = encode (g_add (times S B) (times k (neg A))).

(** * The code *)

Lemma encode_ok P : bytes_ok (encode P) ∧ length (encode P) = 32%nat.
Proof. unfold encode. split; [apply le_bytes_ok|apply le_bytes_length]. Qed.

Lemma encode_val P : le_val (encode P) = py P + 2 ^ 255 * (px P mod 2).
Proof.
  destruct (coords_range P) as [Rx Ry]. pose proof (Z.mod_pos_bound (px P) 2 ltac:(lia)). apply le_val_bytes_small. change (256 ^ Z.of_nat 32) with (2 ^ 256). lia.
Qed.
#[local] Opaque encode.

(** Clamping in place. *)
Lemma clamp_in_place h : length h = 64%nat →
  let d := <[0%nat := Z.land h.[0] 248]> h in let d := <[31%nat := Z.land d.[31] 127]> d in <[31%nat := Z.lor d.[31] 64]> d = clamped (take 32 h) ++ drop 32 h.
Proof.
  intros Lh. cbn zeta. rewrite !nth_insert by (rewrite ?length_insert; lia). cbn [Nat.eqb]. rewrite list_insert_insert_eq.
  rewrite <-(take_drop 32 h) at 1 2 3. set (c := take 32 h). set (r := drop 32 h). assert (length c = 32%nat) as Lc by (subst c; rewrite length_take; lia). clearbody c r.
  rewrite !app_nth1 by lia. rewrite insert_app_l by lia. rewrite insert_app_l by (rewrite length_insert; lia). f_equal. unfold clamped. rewrite app_nth1, nth_firstn by (rewrite length_take; lia). cbn [Nat.ltb Nat.leb].
  rewrite list_insert_insert_ne by lia. f_equal. rewrite insert_take_drop by lia. by rewrite (drop_ge c) by lia.
Qed.

(** The expanded key: the clamped scalar and the prefix. *)
Lemma ed_expand_spec seed : bytes_ok seed → length seed = 32%nat → let d := ed_expand seed in
  bytes_ok d ∧ length d = 64%nat ∧ le_val (take 32 d) = secret seed ∧ drop 32 d = prefix seed.
Proof.
  intros Hs Ls. unfold ed_expand. rewrite take_ge by lia. rewrite sha512_3_spec; rewrite ?app_nil_r; [|done|rewrite Ls; done].
  destruct (sha512_ok seed Hs) as [Bh Lh]. unfold secret, prefix. set (h := sha512 seed) in *. clearbody h. rewrite (clamp_in_place h Lh).
  destruct (clamped_spec (take 32 h) ltac:(by apply Forall_take) ltac:(rewrite length_take; lia)) as (Bc & Lc & Vc). cbn zeta. split_and!.
  - apply Forall_app. split; [done|by apply Forall_drop].
  - rewrite length_app, Lc, length_drop. lia.
  - by rewrite take_app_length' by done.
  - by rewrite drop_app_length' by done.
Qed.

(** A digest reduced to a scalar. *)
Lemma reduced_spec m : bytes_ok m → let r := reduce (sha512 m) in
  bytes_ok r ∧ (32 <= length r)%nat ∧ le_val (take 32 r) = le_val (sha512 m) mod L25519.
Proof.
  intros Hm. destruct (sha512_ok m Hm) as [Bh Lh]. rewrite reduce_spec by done. change L with L25519. set (v := le_val (sha512 m) mod L25519).
  assert (0 <= v < L25519) as Rv by (apply Z.mod_pos_bound; done). cbn zeta. split_and!.
  - apply Forall_app. split; [apply le_bytes_ok|]. apply Forall_forall. intros x Hx%list_elem_of_In%repeat_spec. by subst.
  - rewrite length_app, le_bytes_length. lia.
  - rewrite take_app_length' by (symmetry; apply le_bytes_length). apply le_val_bytes_small. change (256 ^ Z.of_nat 32) with (2 ^ 256). unfold L25519 in Rv. lia.
Qed.
Lemma base_mod n : 0 <= n → times (n mod L25519) B = times n B.
Proof. intros Hn. apply times_mod; [reflexivity|exact Hn|exact base_order]. Qed.

(** The digest of three pieces. *)
Lemma digest a b c m : m = a ++ b ++ c → bytes_ok m → Z.of_nat (length m) < 2 ^ 61 → sha512_3 a b c = sha512 m.
Proof. intros -> Hm Hl. by apply sha512_3_spec. Qed.
Lemma sha512_nonneg m : bytes_ok m → 0 <= le_val (sha512 m).
Proof. intros Hm. destruct (sha512_ok m Hm) as [Bh _]. apply (le_val_range _ Bh). Qed.

Lemma ed_publickey_spec seed : bytes_ok seed → length seed = 32%nat → ed_publickey seed = rfc_public seed.
Proof.
  intros Hs Ls. destruct (ed_expand_spec seed Hs Ls) as (Bd & Ld & Vd & _). unfold ed_publickey. set (d := ed_expand seed) in *. clearbody d.
  rewrite (ed_pack_spec _ _ (ed_scalarbase_rep d Bd ltac:(lia))), Vd. reflexivity.
Qed.

Lemma ed_sign_spec seed msg : bytes_ok seed → length seed = 32%nat → bytes_ok msg → Z.of_nat (length msg) < 2 ^ 60 → ed_sign seed msg = rfc_sign seed msg.
Proof.
  intros Hs Ls Hm Lm. destruct (ed_expand_spec seed Hs Ls) as (Bd & Ld & Vd & Pd). unfold ed_sign. rewrite (ed_publickey_spec seed Hs Ls). set (d := ed_expand seed) in *. clearbody d.
  rewrite (take_ge (drop 32 d)) by (rewrite length_drop; lia). assert (length (prefix seed) = 32%nat) as Lp by (rewrite <-Pd, length_drop; lia).
  assert (bytes_ok (prefix seed ++ msg)) as Bp by (rewrite <-Pd; apply Forall_app; split; [by apply Forall_drop|done]).
  rewrite Pd, (digest (prefix seed) msg [] (prefix seed ++ msg)); [|by rewrite app_nil_r|done|rewrite length_app; lia].
  destruct (reduced_spec _ Bp) as (Br & Lr & Vr). pose proof (sha512_nonneg _ Bp) as Nr. unfold rfc_sign. cbn zeta. set (r := reduce _) in *. clearbody r. set (v := le_val (sha512 (prefix seed ++ msg))) in *. clearbody v.
  pose proof (ed_pack_spec _ _ (ed_scalarbase_rep r Br Lr)) as ->. rewrite Vr, base_mod by done.
  set (R := encode (times v B)). assert (bytes_ok R ∧ length R = 32%nat) as [BR LR] by apply encode_ok. assert (bytes_ok (rfc_public seed) ∧ length (rfc_public seed) = 32%nat) as [BA LA] by apply encode_ok.
  set (A := rfc_public seed) in *. clearbody R A. rewrite !take_ge by lia. assert (bytes_ok (R ++ A ++ msg)) as Bk by (rewrite !Forall_app; done).
  rewrite (digest R A msg _ eq_refl Bk) by (rewrite !length_app; lia). destruct (reduced_spec _ Bk) as (Bh & Lh & Vh). set (h := reduce _) in *. clearbody h.
  f_equal. rewrite scalar_sum_spec by done. change L with L25519. rewrite Vr, Vh, Vd. f_equal. set (k := le_val (sha512 (R ++ A ++ msg))). clearbody k.
  rewrite Z.add_mod_idemp_l, <-Z.add_mod_idemp_r, Z.mul_mod_idemp_l, Z.add_mod_idemp_r by discriminate. reflexivity.
Qed.

(** Only the first 32 bytes of the signature are compared. *)
Lemma compare_prefix sig t l : Forall (λ i, (i < 32)%nat) l → ∀ z,
  foldl (λ diff i, Z.lor diff (Z.lxor sig.[i] t.[i])) z l = foldl (λ diff i, Z.lor diff (Z.lxor (take 32 sig).[i] t.[i])) z l.
Proof. induction 1 as [|i l Hi F IH]; intros z; cbn [foldl]; [reflexivity|]. rewrite nth_firstn, (proj2 (Nat.ltb_lt _ _)) by done. apply IH. Qed.
Lemma compare_take sig t : foldl (λ diff i, Z.lor diff (Z.lxor sig.[i] t.[i])) 0 (seq 0 32) = foldl (λ diff i, Z.lor diff (Z.lxor (take 32 sig).[i] t.[i])) 0 (seq 0 32).
Proof. apply compare_prefix, Forall_forall. intros i Hi%elem_of_seq. lia. Qed.

Lemma ed_verify_spec pk msg sig : bytes_ok pk → length pk = 32%nat → bytes_ok sig → length sig = 64%nat → bytes_ok msg → Z.of_nat (length msg) < 2 ^ 60 →
  ed_verify pk msg sig = true ↔ ∃ A, lenient pk A ∧ equation A pk msg sig.
Proof.
  intros Hp Lp Hg Lg Hm Lm. unfold ed_verify. pose proof (unpackneg_spec pk Hp Lp) as U. destruct (unpackneg pk) as [q|]; [|split; [done|intros (A & HA & _); destruct U; by exists A]].
  destruct U as (A & HA & Hq). assert (bytes_ok (drop 32 sig) ∧ length (drop 32 sig) = 32%nat) as [Bs Lsb] by (split; [by apply Forall_drop|rewrite length_drop; lia]).
  rewrite (take_ge (drop 32 sig)) by lia. rewrite (canonical_spec _ Bs Lsb). change L with L25519.
  transitivity (equation A pk msg sig); [|split; [intros E; by exists A|intros (A' & HA' & E); by rewrite (lenient_unique _ _ _ HA HA')]].
  unfold equation. cbn zeta. destruct (Z.ltb_spec (le_val (drop 32 sig)) L25519) as [Hlt|Hge]; cbn [negb]; [|split; [done|intros [? _]; lia]].
  rewrite (take_ge pk) by lia. assert (bytes_ok (take 32 sig ++ pk ++ msg)) as Bk by (rewrite !Forall_app; split_and!; [by apply Forall_take|done|done]).
  rewrite (digest _ _ _ _ eq_refl Bk) by (rewrite !length_app, length_take; lia). destruct (reduced_spec _ Bk) as (Bh & Lh & Vh). set (h := reduce _) in *. clearbody h.
  pose proof (ed_scalarmult_rep q h _ Bh Lh Hq) as H1. pose proof (ed_scalarbase_rep (drop 32 sig) Bs ltac:(lia)) as H2. rewrite (take_ge (drop 32 sig)) in H2 by lia. rewrite Vh in H1.
  rewrite (ed_pack_spec _ _ (ed_add_rep _ _ _ _ H1 H2)), g_comm, compare_take. set (P := g_add _ _). destruct (encode_ok P) as [Be Le].
  rewrite diff_spec; [|by apply Forall_take|done|rewrite length_take; lia|done]. rewrite bool_decide_eq_true. tauto.
Qed.

(** * Signed, then verified *)

(** An encoded point decodes to itself. *)
Lemma encode_lenient A : lenient (encode A) A.
Proof.
  destruct (coords_range A) as [Rx Ry]. pose proof (Z.mod_pos_bound (px A) 2 ltac:(lia)) as R2. unfold lenient. rewrite encode_val. split; [|left].
  - assert ((py A + 2 ^ 255 * (px A mod 2)) mod 2 ^ 255 = py A) as -> by (symmetry; apply (Zmod_unique _ _ (px A mod 2)); lia). reflexivity.
  - apply (Zdiv_unique _ _ _ (py A)); lia.
Qed.

Lemma secret_nonneg seed : 0 <= secret seed.
Proof. unfold secret, decode_scalar. pose proof (Z.mod_pos_bound (le_val (take 32 (sha512 seed))) (2 ^ 254) ltac:(lia)). pose proof (Z.div_pos (le_val (take 32 (sha512 seed)) mod 2 ^ 254) 8 ltac:(lia) ltac:(lia)). lia. Qed.

(** The equation holds of S = r + k a. *)
Lemma equation_solved r k a : 0 <= r → 0 <= k → 0 <= a →
  g_add (times ((r + k * a) mod L25519) B) (times (k mod L25519) (neg (times a B))) = times r B.
Proof.
  intros Hr Hk Ha. pose proof (Z.mod_pos_bound k L25519 ltac:(reflexivity)) as Rk.
  assert (times ((r + k * a) mod L25519) B = g_add (times r B) (times (k mod L25519) (times a B))) as ->.
  { rewrite <-(times_mul (k mod L25519)), <-times_add by lia. rewrite <-(base_mod (r + k mod L25519 * a)) by lia. f_equal.
    rewrite <-(Z.add_mod_idemp_r r (k mod L25519 * a)), Z.mul_mod_idemp_l, Z.add_mod_idemp_r by discriminate. reflexivity. }
  apply times_opposite, add_neg.
Qed.

Lemma sign_verify_spec seed msg : bytes_ok seed → length seed = 32%nat → bytes_ok msg → Z.of_nat (length msg) < 2 ^ 60 →
  ed_verify (ed_publickey seed) msg (ed_sign seed msg) = true.
Proof.
  intros Hs Ls Hm Lm. rewrite ed_publickey_spec, ed_sign_spec by done. unfold rfc_sign. cbn zeta.
  destruct (sha512_ok seed Hs) as [Bh _]. assert (bytes_ok (prefix seed ++ msg)) as Bp by (apply Forall_app; split; [by apply Forall_drop|done]).
  pose proof (sha512_nonneg _ Bp) as Nr. set (r := le_val (sha512 (prefix seed ++ msg))) in *. clearbody r. pose proof (secret_nonneg seed) as Na.
  destruct (encode_ok (times r B)) as [BR LR], (encode_ok (times (secret seed) B)) as [BA LA]. unfold rfc_public. set (A := times (secret seed) B) in *. set (R := encode (times r B)) in *.
  assert (bytes_ok (R ++ encode A ++ msg)) as Bk by (rewrite !Forall_app; done). pose proof (sha512_nonneg _ Bk) as Nk. set (k := le_val (sha512 (R ++ encode A ++ msg))) in *.
  set (S := (r + k * secret seed) mod L25519). pose proof (Z.mod_pos_bound (r + k * secret seed) L25519 ltac:(reflexivity)) as RS. fold S in RS.
  apply ed_verify_spec; [done|done|apply Forall_app; split; [done|apply le_bytes_ok]|rewrite length_app, le_bytes_length; lia|done|done|].
  exists A. split; [apply encode_lenient|]. unfold equation. cbn zeta. rewrite take_app_length', drop_app_length' by done. fold k.
  rewrite le_val_bytes_small by (change (256 ^ Z.of_nat 32) with (2 ^ 256); unfold L25519 in RS; lia). split; [apply RS|]. subst S R. rewrite equation_solved by done. reflexivity.
Qed.

(** The identity encoded with the sign bit of a zero abscissa, which 5.1.3 has a decoder
    refuse, is taken for the identity. *)
Lemma sign_of_zero_accepted : unpackneg (1 :: repeat 0 30 ++ [128]) ≠ None.
Proof.
  intros E. pose proof (unpackneg_spec (1 :: repeat 0 30 ++ [128]) ltac:(by apply (bool_decide_unpack _)) eq_refl) as U. rewrite E in U. apply U. exists g_zero. destruct zero_coords as [Zx Zy].
  unfold lenient. rewrite Zx, Zy. split; [apply residues_eq; vm_compute; reflexivity|by right].
Qed.

(** * The guarantees *)

(** C26: A signature is accepted exactly when it satisfies RFC 8032's equation: the public key
    decodes to a point A of the curve, S is below the order of the base point, and R is the
    encoding of S B - k A, where k is the digest of R, the key and the message.  The key is
    decoded leniently: an ordinate of p or more and the sign of a zero abscissa pass. *)
Theorem ed_verify_equation (pk msg sig : list Z) (Hp : bytes_ok pk) (Lp : length pk = 32%nat) (Hg : bytes_ok sig) (Lg : length sig = 64%nat)
  (Hm : bytes_ok msg) (Lm : Z.of_nat (length msg) < 2 ^ 60) :
  ed_verify pk msg sig = true ↔ ∃ A, lenient pk A ∧ equation A pk msg sig.
Proof. by apply ed_verify_spec. Qed.
Lemma ed_verify_equation_witness :
  ed_verify (1 :: repeat 0 31) [1; 2; 3] (repeat 7 64) = true ↔ ∃ A, lenient (1 :: repeat 0 31) A ∧ equation A (1 :: repeat 0 31) [1; 2; 3] (repeat 7 64).
Proof. apply (ed_verify_equation (1 :: repeat 0 31) [1; 2; 3] (repeat 7 64)); solve [reflexivity|by apply (bool_decide_unpack _)]. Defined.

(** C28: Signing and key generation are RFC 8032's: for every seed and message the public key
    is the encoding of the clamped scalar's multiple of the base point, and the signature is
    the encoding of r B followed by r + k a modulo the order. *)
Theorem ed_sign_rfc8032 (seed msg : list Z) (Hs : bytes_ok seed) (Ls : length seed = 32%nat) (Hm : bytes_ok msg) (Lm : Z.of_nat (length msg) < 2 ^ 60) :
  ed_publickey seed = rfc_public seed ∧ ed_sign seed msg = rfc_sign seed msg.
Proof. split; [by apply ed_publickey_spec|by apply ed_sign_spec]. Qed.
Lemma ed_sign_rfc8032_witness :
  ed_publickey (repeat 9 32) = rfc_public (repeat 9 32) ∧ ed_sign (repeat 9 32) [1; 2; 3] = rfc_sign (repeat 9 32) [1; 2; 3].
Proof. apply (ed_sign_rfc8032 (repeat 9 32) [1; 2; 3]); solve [reflexivity|by apply (bool_decide_unpack _)]. Defined.

(** C27: What was signed verifies: for every seed and message, ed_verify under the public key
    of the seed accepts the signature ed_sign made. *)
Theorem ed_sign_verify (seed msg : list Z) (Hs : bytes_ok seed) (Ls : length seed = 32%nat) (Hm : bytes_ok msg) (Lm : Z.of_nat (length msg) < 2 ^ 60) :
  ed_verify (ed_publickey seed) msg (ed_sign seed msg) = true.
Proof. by apply sign_verify_spec. Qed.
Lemma ed_sign_verify_witness : ed_verify (ed_publickey (repeat 9 32)) [1; 2; 3] (ed_sign (repeat 9 32) [1; 2; 3]) = true.
Proof. apply (ed_sign_verify (repeat 9 32) [1; 2; 3]); solve [reflexivity|by apply (bool_decide_unpack _)]. Defined.
